(* ===== verification/_CoqProject ===== *)
-Q . S2P
Prelude.v
Hmem.v
CallArgs.v
Command.v
Urpc.v
Ve.v
Context.v
Example.v
Requests.v
Progress.v
AsyncTransfer.v
Submission.v
Calls.v
Lifecycle.v
Ordering.v
Findings.v
Liveness.v
Exchange.v
VhCommands.v
EndToEnd.v
RemoteCall.v
LargeCall.v
VeNode.v
ProcHandle.v
Processes.v
Services.v
Api.v
AsyncHooks.v
ApiArgs.v
LowLevel.v
VeMain.v
Cleanup.v
