(* ===== verification/Prelude.v ===== *)
(** * AVEO: a verification development

    AVEO lets a program on the vector host (VH) start processes on a vector
    engine (VE), call functions there and move memory, over the message layer
    ve-urpc.  This library models the VH library and the VE message handlers and
    proves what makes them correct.  File and function names are those under
    [src/src/].

    ** The program and its parts

    - [CallArgs]: the arguments of a call; its stack frame is built on the VH and
      travels with the message.
    - [Command], [CommQueue]: a request with the functions that submit it and read
      its reply, and the three places it can be in: request queue, in flight,
      completed.
    - [Context]: a connection to one VE thread.  It issues request IDs; its
      progress functions, run by callers and by a progress thread, move requests
      from queue to queue; results are collected by ID.
    - [AsyncTransfer.cpp]: memory transfers as chains of requests.
    - [ProcHandle]: a VE process with its contexts, its symbol cache and the table
      that gives processes their identifiers.
    - [veo_api.cpp]: the C functions, heterogeneous-memory pointers, hooks.
    - [veo_vedma.cpp], [veo_veshm.cpp], [veo_vhveshm.cpp]: DMA and shared memory, by
      calls of functions on the VE.
    - [veo_urpc.c], [veo_urpc_ve.c]: the handlers on the VE and the loop that calls
      them; [aveorun.c]: the program that runs there.

    ** The files

    - [Prelude]: machine integers as [Z] with explicit casts, little-endian bytes,
      the outcome type (return, exception, abort, undefined, blocked, out of fuel)
      and the state monad [M] with its Hoare triples ([hoare], [keeps], [never]),
      memory as a function on addresses, the VH heap.
    - [Hmem]: [veo_hmem_macros.h], [veo_hmem.cpp].
    - [CallArgs]: [CallArgs.hpp], [CallArgs.cpp].  [ArgBase] has a constructor per
      kind of argument; [setup] and [copyout] work on the VH heap.
    - [Command]: [Command.hpp], [Command.cpp], [CommandImpl.hpp].  The closures a
      command holds are a data type, [closure]; running them is in [Context].
    - [Urpc]: the class [Urpc] stands for ve-urpc, which is not part of the sources:
      an abstract peer with the functions called; [UrpcLaws] states what the code
      relies on (a request is outstanding from its sending to its reply, replies
      come in order, IDs fit an [int]).  Also [veo_urpc_vh.cpp].
    - [Ve]: the VE handlers over a [Machine] (C library and code of the VE), and the
      instance [link_urpc] of [Urpc] in which they answer through a queue: it shows
      that the laws can hold and gives the examples a VE that computes.
    - [Context]: [Context.hpp], [Context.cpp], the request machinery.  A [world] is
      a context with the VH memory and with what other threads decide: results of
      [try_lock] and [waitpid].  The class [VhFuncs] stands for the functions called
      on the VH by the progress thread; they work on the world, so they may use the
      context that calls them.  [VhLocal] says of such functions that they use the VH
      memory only.
    - [Example]: the concrete system of the examples.
    - [Requests]: the abstract request machine ([aspec], [astep]), the abstraction
      function and the invariant of the queues, with one lemma per kind of
      transition.
    - [Progress]: every function of [Context] is a sequence of such transitions
      ([sim]); termination of the progress loop.
    - [AsyncTransfer], [Calls]: [AsyncTransfer.cpp] and the rest of [Context.cpp].
    - [Submission]: several threads that submit requests to one context at the same
      time: what the functions of [Context.cpp], [AsyncTransfer.cpp] and
      [veo_req_block_begin]/[end] do with [submit_mtx] and the request queue, step by
      step, in any interleaving.
    - [Lifecycle]: runs of arbitrary operations on a context, and the theorems on
      contexts.
    - [Ordering]: requests end in the order of submission, for the synchronous
      functions.
    - [Findings]: reachable behaviour at odds with its purpose.
    - [Liveness]: waiting and draining end when the VE answers; what happens when the
      VE process is gone.  [Responsive] adds to [UrpcLaws] that a reply comes after
      finitely many polls, [VhEnds] that VH functions return.
    - [Exchange]: a context connected to the VE handlers by [link_urpc].  The class
      [Exchange] with [ExchangeLaws] is what a kind of command promises: its message,
      the reply, the effect on both sides, the result.  The invariant [moving] says what
      both memories will be and which results will be there when all commands under way
      are through.
    - [VhCommands]: a command of the VH behind such commands: it is executed once, when
      they are through, in a context with nothing in flight.
    - [EndToEnd], [RemoteCall]: the instances for memory transfers and for calls, and
      what writing, reading and calling with one message do from end to end.
    - [LargeCall]: calls whose frame is larger than a message: transfers, the call, more
      transfers and the command of the VH behind them; calls of any size from end to end.
    - [VeNode]: choice of the VE node, [veo_get_arch_info.cpp].
    - [ProcHandle], [Processes]: [ProcHandle.cpp] and its properties.  A process
      holds its [Context] objects by address, so that a deleted context is a
      dangling pointer in the model too.
    - [Services]: the functions of a process on memory and libraries, through the main
      context and the VE handlers.
    - [Api]: [veo_api.cpp] on a system of processes that share the VH memory;
      exceptions become return codes as in the source's [catch] clauses.  [hooked]
      adds the helpers of [veo_alloc_mem_async] and [veo_free_mem_async] to the VH
      functions.
    - [AsyncHooks]: these functions with hooks registered, from end to end.
    - [ApiArgs]: the functions of [veo_api.cpp] on argument objects and attributes.
    - [LowLevel]: [veo_vedma.cpp], [veo_veshm.cpp], [veo_vhveshm.cpp],
      [callSyscallWrapper].
    - [VeMain]: [aveorun.c] and [ve_handler_loop].
    - [Cleanup]: [_cleanup_procs], which ends the processes left over.

    ** What the theorems show

    - Contexts: runs refine the request machine (each request ends once, results
      are handed out once, in order), the queues stay consistent, replies find
      their commands, VH commands are barriers, the progress loop ends, cancelling
      completes everything; a synchronous function that returns with success has waited
      for all requests before.  With a VE that answers, waiting for a result returns and
      the progress thread drains the queues; the death of the VE process is noticed
      except in the cases named.
    - Calls: the VE function sees each argument where the calling convention puts
      it, also when the frame exceeds a message; the handler runs it with that
      frame; results are copied back to the right buffers and nowhere else.  All
      this together, from end to end, for calls of any size, synchronous and
      asynchronous.
    - Threads: the requests of a call with a large frame, and of a request block, are
      together in the queue whatever other threads submit; nobody waits for ever for
      the right to submit.
    - Transfers: fragments tile the block; what is written is read back, from end to
      end: through the context, the queues, the messages and the VE handlers.
    - The VE program: its loop serves until told to end, signals are reported.
    - Processes: no dangling or duplicate contexts, stable identifiers, a coherent
      symbol cache, creation and destruction, the final clean-up; from end to end,
      allocating, releasing and copying VE memory, libraries and symbols.
    - API: heterogeneous-memory pointers lead back to process and address, all
      cases of copying, refused inputs; argument objects hold what was set; shared
      memory can be detached at the address attached, DMA handles come back, results
      of system calls; hooks of asynchronous allocations are called once with the
      right arguments, from end to end.
    - Findings: inputs on which the code aborts, loops, blocks, throws through a C
      interface or loses data.

    ** Bounds and fuel

    [_progress_nolock] needs no bound from outside: [S (work q)] rounds, where
    [work] is twice the requests plus those in flight, are proved enough.  Loops
    that wait for the VE ([poll_result], [progressExec], [wait_receiver]) and the
    fragment loop take a bound [n]; running out is the outcome [NoFuel], never a
    result, and the theorems on transfers and on liveness say that some bound is
    enough, those on fragments and on the handler loop which.  Request IDs are
    64-bit; theorems on runs assume that fewer than [2^64] are issued, and that
    ve-urpc has numbered fewer than [2^31] requests ([request_id_truncated] shows
    what happens then).

    ** What is not modelled

    Data races inside one operation: in all files but [Submission] operations
    interleave as a whole, and the lock a function takes is held throughout.
    [Submission] in turn leaves out what an operation does besides submitting.
    Exhaustion of VH memory.  Hooks and helpers are called in the state of the API
    tables in which the wait began: a hook that registers hooks is not covered.  The
    hooks of the end-to-end theorems work on the VH memory only, and the theorems
    that rest on the request machine ([sim]) are for VH functions that do
    ([VhLocal]).  [veo_version_string], which returns a text the build sets; logging.

    The parameters stand for ve-urpc ([Urpc], [UrpcPeers], [VePeer]), the C library and the
    code of the VE ([Machine]), functions of the application ([VhFuncs], hooks), the
    environment ([Env]), the order of a hash table ([BucketOrder]), [sysfs] and signals, and
    values the sources leave uninitialised ([Indet]).  What is left of the sources are
    declarations, conversions between C and C++ pointers, the registration of handlers at
    the start of the program, the examples and the tests. *)

From Stdlib Require Import ZArith Lia Bool.
From stdpp Require Import base gmap list numbers sets strings.

Open Scope Z_scope.

Declare Scope aveo_scope.
Delimit Scope aveo_scope with aveo.

(** ** Machine integers

    A C integer is a [Z]; a conversion to a narrower or differently signed type
    is written out with one of the casts below. *)

(** Conversion to [uint64_t] / [size_t]. *)
Definition u64 (z : Z) : Z := z mod 2 ^ 64.

(** Conversion to [int] (two's complement, as on the two platforms). *)
Definition i32 (z : Z) : Z :=
  let r := z mod 2 ^ 32 in if r <? 2 ^ 31 then r else r - 2 ^ 32.

(** Conversion to [int64_t]. *)
Definition i64 (z : Z) : Z :=
  let r := z mod 2 ^ 64 in if r <? 2 ^ 63 then r else r - 2 ^ 64.

Definition in_u64 (z : Z) : Prop := 0 <= z < 2 ^ 64.
Definition in_i32 (z : Z) : Prop := - 2 ^ 31 <= z < 2 ^ 31.

Create HintDb aveo.

Lemma u64_range z : 0 <= u64 z < 2 ^ 64.
Proof. apply Z.mod_pos_bound; lia. Qed.

Lemma u64_small z : 0 <= z < 2 ^ 64 -> u64 z = z.
Proof. apply Z.mod_small. Qed.

Lemma u64_idem z : u64 (u64 z) = u64 z.
Proof. apply u64_small, u64_range. Qed.

Lemma i32_small z : - 2 ^ 31 <= z < 2 ^ 31 -> i32 z = z.
Proof.
  intros H. unfold i32. cbv zeta.
  destruct (Z.ltb_spec (z mod 2 ^ 32) (2 ^ 31)) as [Hl|Hl].
  - destruct (decide (0 <= z)).
    + apply Z.mod_small; lia.
    + rewrite <- (Z_mod_plus_full z 1), Z.mod_small in Hl by lia. lia.
  - destruct (decide (0 <= z)).
    + rewrite Z.mod_small in Hl by lia. lia.
    + rewrite <- (Z_mod_plus_full z 1), Z.mod_small by lia. lia.
Qed.

Lemma i32_range z : - 2 ^ 31 <= i32 z < 2 ^ 31.
Proof.
  unfold i32. cbv zeta.
  pose proof (Z.mod_pos_bound z (2 ^ 32) ltac:(lia)).
  destruct (Z.ltb_spec (z mod 2 ^ 32) (2 ^ 31)); lia.
Qed.

(** The value a 32-bit cast gives for a number in the upper half of the
    unsigned 32-bit range. *)
Lemma i32_upper_half z : 2 ^ 31 <= z < 2 ^ 32 -> i32 z = z - 2 ^ 32.
Proof.
  intros H. unfold i32. cbv zeta. rewrite Z.mod_small by lia.
  destruct (Z.ltb_spec z (2 ^ 31)); lia.
Qed.

Lemma u64_add_l a b : u64 (u64 a + b) = u64 (a + b).
Proof. unfold u64. apply Zplus_mod_idemp_l. Qed.

Lemma u64_sub_l a b : u64 (u64 a - b) = u64 (a - b).
Proof. unfold u64. apply Zminus_mod_idemp_l. Qed.

Lemma u64_sub_r a b : u64 (a - u64 b) = u64 (a - b).
Proof. unfold u64. apply Zminus_mod_idemp_r. Qed.

(** Rounding a non-negative size up to a multiple of [k]. *)
Definition align_up (k z : Z) : Z := (z + (k - 1)) / k * k.

Lemma align_up_spec k z : 0 < k -> 
  z <= align_up k z < z + k /\ align_up k z mod k = 0.
Proof.
  intros Hk. unfold align_up. split; [|apply Z_mod_mult].
  pose proof (Z.div_mod (z + (k - 1)) k ltac:(lia)).
  pose proof (Z.mod_pos_bound (z + (k - 1)) k ltac:(lia)). nia.
Qed.

(** ** Bytes, little endian *)

Definition byte_ok (b : Z) : Prop := 0 <= b < 256.

(** The [n] bytes of the object representation of an integer. *)
Fixpoint le_bytes (n : nat) (z : Z) : list Z :=
  match n with
  | O => []
  | S n' => z mod 256 :: le_bytes n' (z / 256)
  end.

(** The unsigned integer a byte sequence represents. *)
Fixpoint le_val (l : list Z) : Z :=
  match l with
  | [] => 0
  | b :: l' => b + 256 * le_val l'
  end.

Lemma length_le_bytes n z : length (le_bytes n z) = n.
Proof. revert z. induction n; simpl; intros; f_equal; auto. Qed.

Lemma le_bytes_ok n z : Forall byte_ok (le_bytes n z).
Proof.
  revert z. induction n; simpl; intros; constructor; auto.
  apply Z.mod_pos_bound; lia.
Qed.

Lemma le_val_bytes n z : le_val (le_bytes n z) = z mod 256 ^ Z.of_nat n.
Proof.
  revert z. induction n as [|n IH]; intros z.
  - simpl. by rewrite Z.mod_1_r.
  - cbn [le_bytes le_val]. rewrite IH, Nat2Z.inj_succ, Z.pow_succ_r by lia.
    rewrite Z.rem_mul_r; lia.
Qed.

Lemma le_val_app l1 l2 :
  le_val (l1 ++ l2) = le_val l1 + 256 ^ Z.of_nat (length l1) * le_val l2.
Proof.
  induction l1 as [|b l1 IH]; cbn [app le_val length]; [lia|].
  rewrite IH, Nat2Z.inj_succ, Z.pow_succ_r by lia. lia.
Qed.

Lemma le_val_zeros n : le_val (replicate n 0) = 0.
Proof. induction n; simpl; lia. Qed.

Lemma le_val_range l : Forall byte_ok l -> 0 <= le_val l < 256 ^ Z.of_nat (length l).
Proof.
  induction 1 as [|b l Hb _ IH]; cbn [le_val length]; [lia|].
  rewrite Nat2Z.inj_succ, Z.pow_succ_r by lia. unfold byte_ok in Hb. lia.
Qed.

Lemma le_bytes_val l : Forall byte_ok l -> le_bytes (length l) (le_val l) = l.
Proof.
  induction 1 as [|b l Hb _ IH]; cbn [le_val length le_bytes]; [done|].
  unfold byte_ok in Hb.
  rewrite (Z.mul_comm 256), Z_mod_plus_full, Z.mod_small by lia.
  rewrite Z.div_add, Z.div_small, Z.add_0_l by lia. by rewrite IH.
Qed.

(** ** Outcomes and the state monad

    A C++ function is a function of the state it works on: it returns a value,
    throws, or does not come back.  The state reached is kept in every case,
    since an exception leaves the objects as they are. *)

Inductive exn :=
  | VEOException (msg : string) (err : Z)
  | std_length_error
  | std_out_of_range
  | std_invalid_argument
  | std_bad_function_call
  | std_bad_typeid.

#[export] Instance exn_eq_dec : EqDecision exn.
Proof. solve_decision. Defined.

Inductive outcome (A : Type) :=
  | Ret (a : A)
  | Throw (e : exn)
  | Abort_  (** [abort()], from a failed [VEO_ASSERT] *)
  | Undef   (** undefined behaviour: a null pointer is dereferenced, a block is freed twice *)
  | Blocked (** waits on a condition that no thread will signal *)
  | NoFuel. (** the bound on the number of loop iterations is used up *)
Arguments Ret {A} a.
Arguments Throw {A} e.
Arguments Abort_ {A}.
Arguments Undef {A}.
Arguments Blocked {A}.
Arguments NoFuel {A}.

Definition M (S A : Type) : Type := S -> outcome A * S.

Definition ret {S A} (a : A) : M S A := fun s => (Ret a, s).
Definition throw {S A} (e : exn) : M S A := fun s => (Throw e, s).
Definition stop {S A} (o : outcome A) : M S A := fun s => (o, s).
Definition get {S} : M S S := fun s => (Ret s, s).
Definition gets {S A} (f : S -> A) : M S A := fun s => (Ret (f s), s).
Definition modify {S} (f : S -> S) : M S unit := fun s => (Ret tt, f s).

(** The outcome of a computation that did not return, at another type. *)
Definition recast {A B} (o : outcome A) (k : A -> outcome B) : outcome B :=
  match o with
  | Ret a => k a
  | Throw e => Throw e
  | Abort_ => Abort_
  | Undef => Undef
  | Blocked => Blocked
  | NoFuel => NoFuel
  end.

Definition bind {S A B} (m : M S A) (k : A -> M S B) : M S B := fun s =>
  match m s with
  | (Ret a, s') => k a s'
  | (o, s') => (recast o (fun _ => Undef), s')
  end.

Notation "'let!' x := m 'in' k" := (bind m (fun x => k))
  (at level 10, x name, m at level 200, k at level 200) : aveo_scope.
Notation "'let!' ' p := m 'in' k" := (bind m (fun p => k))
  (at level 10, p strict pattern, m at level 200, k at level 200) : aveo_scope.
Notation "m ;;; k" := (bind m (fun _ => k))
  (at level 100, k at level 200, right associativity) : aveo_scope.
Open Scope aveo_scope.

(** Lift a computation on a part of the state, given by a getter and a setter. *)
Definition on {S T A} (g : S -> T) (p : T -> S -> S) (m : M T A) : M S A := fun s =>
  let '(o, t) := m (g s) in (o, p t s).

(** A pure computation that may fail. *)
Definition lift {S A} (o : outcome A) : M S A := fun s => (o, s).

Definition obind {A B} (o : outcome A) (k : A -> outcome B) : outcome B := recast o k.

Lemma bind_Ret {S A B} (m : M S A) (k : A -> M S B) s a s' :
  m s = (Ret a, s') -> bind m k s = k a s'.
Proof. unfold bind. by intros ->. Qed.

Lemma bind_run {S A B} (m m' : M S A) (k : A -> M S B) s s' :
  m s = m' s' -> bind m k s = bind m' k s'.
Proof. unfold bind. by intros ->. Qed.

Lemma bind_assoc {S A B C} (m : M S A) (k : A -> M S B) (h : B -> M S C) s :
  bind (bind m k) h s = bind m (fun a => bind (k a) h) s.
Proof. unfold bind. destruct (m s) as [[] s']; done. Qed.

Lemma bind_inv_Ret {S A B} (m : M S A) (k : A -> M S B) s b s' :
  bind m k s = (Ret b, s') ->
  exists a s1, m s = (Ret a, s1) /\ k a s1 = (Ret b, s').
Proof. unfold bind. destruct (m s) as [[] s1]; naive_solver. Qed.

(** ** Hoare triples for the monad

    [hoare P m Q E]: from a state of [P], [m] returns a value and a state of
    [Q], or ends in another way in a state of [E]. *)

Definition hoare {S A} (P : S -> Prop) (m : M S A) (Q : A -> S -> Prop) (E : S -> Prop) : Prop :=
  forall s, P s ->
    match m s with
    | (Ret a, s') => Q a s'
    | (_, s') => E s'
    end.

(** [m] keeps a property of the state, however it ends. *)
Definition keeps {S A} (P : S -> Prop) (m : M S A) : Prop := hoare P m (fun _ => P) P.

Section Hoare.
Context {S : Type}.
Implicit Types (P E : S -> Prop).

Lemma hoare_ret {A} (a : A) P (Q : A -> S -> Prop) E :
  (forall s, P s -> Q a s) -> hoare P (ret a) Q E.
Proof. intros H s Hs. by apply H. Qed.

Lemma hoare_throw {A} e P (Q : A -> S -> Prop) E :
  (forall s, P s -> E s) -> hoare P (throw e) Q E.
Proof. intros H s Hs. by apply H. Qed.

Lemma hoare_gets {A} (f : S -> A) P (Q : A -> S -> Prop) E :
  (forall s, P s -> Q (f s) s) -> hoare P (gets f) Q E.
Proof. intros H s Hs. by apply H. Qed.

Lemma hoare_modify (f : S -> S) P (Q : unit -> S -> Prop) E :
  (forall s, P s -> Q tt (f s)) -> hoare P (modify f) Q E.
Proof. intros H s Hs. by apply H. Qed.

Lemma hoare_bind {A B} (m : M S A) (k : A -> M S B) P R (Q : B -> S -> Prop) E :
  hoare P m R E -> (forall a, hoare (R a) (k a) Q E) -> hoare P (bind m k) Q E.
Proof.
  intros Hm Hk s Hs. specialize (Hm s Hs). unfold bind.
  destruct (m s) as [[a| | | | |] s']; try done. by apply Hk.
Qed.

Lemma hoare_conseq {A} (m : M S A) P P' (Q Q' : A -> S -> Prop) E E' :
  hoare P' m Q' E' ->
  (forall s, P s -> P' s) -> (forall a s, Q' a s -> Q a s) -> (forall s, E' s -> E s) ->
  hoare P m Q E.
Proof.
  intros Hm HP HQ HE s Hs. specialize (Hm s (HP s Hs)).
  destruct (m s) as [[] s']; auto.
Qed.

Lemma hoare_pre {A} (m : M S A) P P' (Q : A -> S -> Prop) E :
  hoare P' m Q E -> (forall s, P s -> P' s) -> hoare P m Q E.
Proof. intros Hm HP. by eapply hoare_conseq. Qed.

Lemma keeps_bind {A B} (m : M S A) (k : A -> M S B) P :
  keeps P m -> (forall a, keeps P (k a)) -> keeps P (bind m k).
Proof. intros Hm Hk. eapply hoare_bind; [exact Hm | exact Hk]. Qed.

Lemma keeps_ret {A} (a : A) P : keeps P (ret a).
Proof. by apply hoare_ret. Qed.

Lemma keeps_throw {A} e P : keeps P (throw (A := A) e).
Proof. by apply hoare_throw. Qed.

Lemma keeps_gets {A} (f : S -> A) P : keeps P (gets f).
Proof. by apply hoare_gets. Qed.

Lemma keeps_if {A} (b : bool) (m1 m2 : M S A) P :
  keeps P m1 -> keeps P m2 -> keeps P (if b then m1 else m2).
Proof. by destruct b. Qed.

Lemma keeps_snd {A} (m : M S A) P s : keeps P m -> P s -> P (snd (m s)).
Proof. intros H Hs. specialize (H s Hs). destruct (m s) as [[] s']; done. Qed.
End Hoare.

#[export] Hint Resolve keeps_bind keeps_ret keeps_throw keeps_gets keeps_if : aveo.

(** ** Ways a computation cannot end

    [never bad m]: [m] does not end in [bad], an exception or another way of not
    returning. *)

Definition ends_in {A} (bad : outcome Empty_set) (o : outcome A) : Prop :=
  o = recast bad (fun e => match e with end).

Definition never {S A} (bad : outcome Empty_set) (m : M S A) : Prop :=
  forall s, ~ ends_in bad (fst (m s)).

Section Never.
Context {S : Type} (bad : outcome Empty_set).

Lemma ends_in_Ret {A} (a : A) : ~ ends_in bad (Ret a).
Proof. unfold ends_in. by destruct bad as [[]| | | | |]. Qed.

Lemma ends_in_recast {A B} (o : outcome A) :
  (forall a, o <> Ret a) -> ends_in bad (recast o (fun _ => Undef) : outcome B) -> ends_in bad o.
Proof.
  unfold ends_in. intros Ho. destruct o as [a|e| | | |]; [by destruct (Ho a)|..];
    destruct bad as [[]|e'| | | |]; cbn; congruence.
Qed.

Lemma never_ret {A} (a : A) : never bad (ret (S := S) a).
Proof. intros s. apply ends_in_Ret. Qed.

Lemma never_gets {A} (f : S -> A) : never bad (gets f).
Proof. intros s. apply ends_in_Ret. Qed.

Lemma never_modify (f : S -> S) : never bad (modify f).
Proof. intros s. apply ends_in_Ret. Qed.

Lemma never_stop {A} (o : outcome A) : ~ ends_in bad o -> never bad (stop (S := S) o).
Proof. by intros Ho s. Qed.

Lemma never_bind {A B} (m : M S A) (k : A -> M S B) :
  never bad m -> (forall a, never bad (k a)) -> never bad (bind m k).
Proof.
  intros Hm Hk s. unfold bind. specialize (Hm s). destruct (m s) as [o s'].
  destruct o as [a| | | | |]; [apply Hk|..];
    (intros He; apply Hm; eapply ends_in_recast; [|exact He]; done).
Qed.

Lemma never_on {T A} (g : S -> T) (p : T -> S -> S) (m : M T A) :
  never bad m -> never bad (on g p m).
Proof. intros Hm s. unfold on. specialize (Hm (g s)). by destruct (m (g s)). Qed.
End Never.

(** Decompose [never bad m] along the structure of [m]. *)
Ltac never_tac :=
  repeat first
    [ apply never_ret | apply never_gets | apply never_modify
    | solve [auto with aveo]
    | (apply never_stop; done) | apply never_on
    | (apply never_bind; [|intros ?])
    | match goal with
      | |- never _ (if ?b then _ else _) => destruct b
      | |- never _ (match ?x with _ => _ end) => destruct x
      end ].

(** ** Memory

    An address space is a total function from addresses to bytes: every address
    is mapped, and what is modelled is which bytes are where. *)

Definition mem : Type := Z -> Z.

Definition mem_read (m : mem) (a : Z) (n : nat) : list Z :=
  (fun i : nat => m (a + Z.of_nat i)) <$> seq 0 n.

Definition mem_write (m : mem) (a : Z) (bs : list Z) : mem := fun x =>
  if (a <=? x) && (x <? a + Z.of_nat (length bs))
  then nth (Z.to_nat (x - a)) bs 0
  else m x.

Lemma length_mem_read m a n : length (mem_read m a n) = n.
Proof. unfold mem_read. by rewrite length_fmap, length_seq. Qed.

Lemma lookup_mem_read m a n i :
  (i < n)%nat -> mem_read m a n !! i = Some (m (a + Z.of_nat i)).
Proof.
  intros Hi. unfold mem_read. rewrite list_lookup_fmap, lookup_seq_lt by done. done.
Qed.

Lemma mem_read_ext m m' a n :
  (forall x, a <= x < a + Z.of_nat n -> m x = m' x) -> mem_read m a n = mem_read m' a n.
Proof.
  intros H. unfold mem_read. apply list_fmap_ext. intros i x [-> Hi]%lookup_seq.
  apply H. lia.
Qed.

Lemma mem_read_app m a n1 n2 :
  mem_read m a (n1 + n2) = mem_read m a n1 ++ mem_read m (a + Z.of_nat n1) n2.
Proof.
  unfold mem_read. rewrite seq_app, fmap_app. f_equal. simpl.
  rewrite <- (Nat.add_0_r n1) at 1. rewrite <- fmap_add_seq, <- list_fmap_compose.
  apply list_fmap_ext. intros i x _. unfold compose. f_equal. lia.
Qed.

Lemma mem_write_in m a bs x :
  a <= x < a + Z.of_nat (length bs) ->
  mem_write m a bs x = nth (Z.to_nat (x - a)) bs 0.
Proof.
  intros H. unfold mem_write.
  destruct (Z.leb_spec a x), (Z.ltb_spec x (a + Z.of_nat (length bs))); simpl; lia || done.
Qed.

Lemma mem_write_out m a bs x :
  x < a \/ a + Z.of_nat (length bs) <= x -> mem_write m a bs x = m x.
Proof.
  intros H. unfold mem_write.
  destruct (Z.leb_spec a x), (Z.ltb_spec x (a + Z.of_nat (length bs))); simpl; lia || done.
Qed.

Lemma mem_read_write_same m a bs : mem_read (mem_write m a bs) a (length bs) = bs.
Proof.
  apply list_eq_same_length with (length bs); [done|by rewrite length_mem_read|].
  intros i x y Hi Hx Hy.
  rewrite lookup_mem_read in Hx by done. injection Hx as <-.
  rewrite mem_write_in by lia.
  replace (Z.to_nat (a + Z.of_nat i - a)) with i by lia.
  by apply nth_lookup_Some.
Qed.

Lemma mem_read_part m a n off len :
  (off + len <= n)%nat -> take len (drop off (mem_read m a n)) = mem_read m (a + Z.of_nat off) len.
Proof.
  intros H. replace n with (off + (len + (n - off - len)))%nat by lia.
  rewrite !mem_read_app, drop_app_length', take_app_length' by (by rewrite length_mem_read). done.
Qed.

Lemma mem_read_write_disjoint m a bs b n :
  b + Z.of_nat n <= a \/ a + Z.of_nat (length bs) <= b ->
  mem_read (mem_write m a bs) b n = mem_read m b n.
Proof. intros H. apply mem_read_ext. intros x Hx. apply mem_write_out. lia. Qed.

(** Writing two adjacent blocks is writing their concatenation. *)
Lemma mem_write_app m a bs1 bs2 x :
  mem_write (mem_write m a bs1) (a + Z.of_nat (length bs1)) bs2 x
  = mem_write m a (bs1 ++ bs2) x.
Proof.
  destruct (decide (a <= x < a + Z.of_nat (length bs1))) as [H1|H1].
  { rewrite mem_write_out, !mem_write_in by (rewrite ?length_app; lia).
    rewrite app_nth1 by lia. done. }
  destruct (decide (a + Z.of_nat (length bs1) <= x
                    < a + Z.of_nat (length bs1) + Z.of_nat (length bs2))) as [H2|H2].
  { rewrite !mem_write_in by (rewrite ?length_app; lia).
    rewrite app_nth2 by lia. f_equal. lia. }
  rewrite !mem_write_out by (rewrite ?length_app; lia). done.
Qed.

Lemma mem_write_read_self m a n x : mem_write m a (mem_read m a n) x = m x.
Proof.
  destruct (decide (a <= x < a + Z.of_nat n)) as [H|H].
  - rewrite mem_write_in by (rewrite length_mem_read; lia).
    rewrite (nth_lookup_Some _ _ _ (m x)); [done|].
    rewrite lookup_mem_read by lia. do 2 f_equal. lia.
  - rewrite mem_write_out by (rewrite length_mem_read; lia). done.
Qed.

(** *** The VH heap: [new char[]] and [delete[]] *)

(** The VH address space with the allocator's state: blocks are handed out at
    increasing addresses, [h_live] holds the blocks not yet deleted. *)
Record heap := mkHeap {
  h_mem : mem;
  h_brk : Z;
  h_live : gset Z;
}.

Definition set_h_mem (m : mem) (h : heap) : heap := mkHeap m (h_brk h) (h_live h).

(** [new char[n]]: the address of a fresh block. *)
Definition new_char (n : Z) : M heap Z := fun h =>
  (Ret (h_brk h), mkHeap (h_mem h) (h_brk h + align_up 16 (n + 1)) ({[h_brk h]} ∪ h_live h)).

(** [delete[] p]: nothing for a null pointer, undefined for a block that is not live. *)
Definition delete_char (p : Z) : M heap unit := fun h =>
  if p =? 0 then (Ret tt, h)
  else if decide (p ∈ h_live h)
       then (Ret tt, mkHeap (h_mem h) (h_brk h) (h_live h ∖ {[p]}))
       else (Undef, h).

(** [memcpy] of bytes already read to [dst]. *)
Definition store (dst : Z) (bs : list Z) : M heap unit :=
  modify (fun h => set_h_mem (mem_write (h_mem h) dst bs) h).

(** ** [std::string] as a byte buffer *)

(** [str.resize(n)]: cut or extend with zero bytes. *)
Definition str_resize (s : list Z) (n : nat) : list Z :=
  take n s ++ replicate (n - length s) 0.

(** [str.replace(pos, n1, r)]: [out_of_range] when [pos] is behind the end; at
    most the bytes there are is replaced. *)
Definition str_replace (s : list Z) (pos n1 : nat) (r : list Z) : outcome (list Z) :=
  if (length s <? pos)%nat then Throw std_out_of_range
  else Ret (take pos s ++ r ++ drop (pos + n1) s).

Lemma str_replace_in_place s pos n1 r :
  length r = n1 -> (pos + n1 <= length s)%nat ->
  exists s', str_replace s pos n1 r = Ret s' /\ length s' = length s /\
    take pos s' = take pos s /\ take n1 (drop pos s') = r /\
    drop (pos + n1) s' = drop (pos + n1) s.
Proof.
  intros Hr Hpos. unfold str_replace.
  destruct (Nat.ltb_spec (length s) pos); [lia|].
  eexists; split; [done|].
  assert (Hlp : length (take pos s) = pos) by (rewrite length_take; lia).
  split_and!.
  - rewrite !length_app, length_drop. lia.
  - by rewrite take_app_length'.
  - rewrite drop_app_length' by done. by rewrite take_app_length'.
  - rewrite app_assoc, drop_app_length'; [done|]. rewrite length_app. lia.
Qed.
