(* ===== verification/Hmem.v ===== *)
(** * Heterogeneous-memory addresses

    Models [veo_hmem_macros.h], [veo_hmem.cpp] and [veo_set_proc_identifier] of
    [veo_api.cpp]: a VE address carries a flag in bit 63 and the identifier of
    its process in bits 62:59. *)

From Stdlib Require Import ZArith Lia Bool.
From stdpp Require Import base numbers.
From S2P Require Import Prelude.

Open Scope Z_scope.

(** ** The macros *)

Definition VEO_MAX_HMEM_PROCS : Z := 16.
Definition IDENT_OFFSET_BITS : Z := 59.
Definition VEADDR_MBITS : Z := 0x8000000000000000.
Definition PIDENT_MBITS : Z := 0x7800000000000000.
Definition VEIDENT_MBITS : Z := Z.lor VEADDR_MBITS PIDENT_MBITS.

Definition SET_VE_FLAG (addr : Z) : Z := Z.lor VEADDR_MBITS (u64 addr).
Definition IS_VE (addr : Z) : Z := Z.land VEADDR_MBITS (u64 addr).
Definition VIRT_ADDR_VE (addr : Z) : Z := Z.land (u64 (Z.lnot VEIDENT_MBITS)) (u64 addr).
Definition SET_PROC_IDENT (addr proc_ident : Z) : Z :=
  Z.lor (u64 addr) (u64 (Z.shiftl (u64 proc_ident) IDENT_OFFSET_BITS)).
Definition GET_PROC_IDENT (addr : Z) : Z :=
  Z.shiftr (Z.land (u64 addr) PIDENT_MBITS) IDENT_OFFSET_BITS.

(** ** The functions *)

Definition veo_is_ve_addr (addr : Z) : Z := if IS_VE addr =? 0 then 0 else 1.

Definition veo_get_hmem_addr (addr : Z) : Z :=
  if veo_is_ve_addr addr =? 0 then addr
  else Z.land (u64 (Z.lnot VEIDENT_MBITS)) (u64 addr).

Definition veo_get_max_proc_identifier : Z := VEO_MAX_HMEM_PROCS.

(** The [int] return type truncates the identifier, which has four bits. *)
Definition veo_get_proc_identifier_from_hmem (addr : Z) : Z :=
  if IS_VE addr =? 0 then -1 else i32 (GET_PROC_IDENT addr).

(** [syscall_wrapper], of the result of [syscall] and the [errno] it left. *)
Definition syscall_wrapper (sysret errno : Z) : Z :=
  if sysret =? -1 then - errno else sysret.

Definition veo_set_proc_identifier (addr proc_ident : Z) : Z :=
  if (proc_ident <? 0) || (VEO_MAX_HMEM_PROCS <=? proc_ident) then 0
  else
    let hmem := SET_VE_FLAG addr in
    SET_PROC_IDENT hmem proc_ident.

(** ** Arithmetic reading of the bit operations *)

Lemma bit_above a n i : 0 <= a < 2 ^ n -> n <= i -> Z.testbit a i = false.
Proof.
  intros Ha Hi. destruct (decide (a = 0)) as [->|]; [apply Z.bits_0|].
  apply Z.bits_above_log2; [lia|].
  assert (Z.log2 a < n); [|lia].
  apply Z.log2_lt_pow2; lia.
Qed.

(** Or-ing a field into bits that are clear is adding it. *)
Lemma lor_disjoint_add hi lo n :
  0 <= n -> 0 <= lo < 2 ^ n -> Z.lor (hi * 2 ^ n) lo = hi * 2 ^ n + lo.
Proof.
  intros Hn Hlo.
  assert (Hand : Z.land (hi * 2 ^ n) lo = 0).
  { apply Z.bits_inj'. intros i Hi. rewrite Z.land_spec, Z.bits_0.
    destruct (decide (i < n)).
    - by rewrite Z.mul_pow2_bits_low.
    - rewrite (bit_above lo n i) by lia. apply andb_false_r. }
  rewrite <- Z.lxor_lor by done. symmetry. by apply Z.add_nocarry_lxor.
Qed.

Lemma land_pow2 n x : 0 <= n ->
  Z.land (2 ^ n) x = if Z.testbit x n then 2 ^ n else 0.
Proof.
  intros Hn. apply Z.bits_inj'. intros i Hi.
  rewrite Z.land_spec, Z.pow2_bits_eqb by done.
  destruct (Z.eqb_spec n i) as [->|Hne]; simpl.
  - destruct (Z.testbit x i); [by rewrite Z.pow2_bits_true|by rewrite Z.bits_0].
  - destruct (Z.testbit x n); [by rewrite Z.pow2_bits_false|by rewrite Z.bits_0].
Qed.

(** An address as flag, identifier and 59-bit virtual address. *)
Definition hmem_word (flag ident virt : Z) : Z := flag * 2 ^ 63 + ident * 2 ^ 59 + virt.

Section Fields.
Context (flag ident virt : Z).
Hypothesis Hflag : 0 <= flag < 2.
Hypothesis Hident : 0 <= ident < 16.
Hypothesis Hvirt : 0 <= virt < 2 ^ 59.

Lemma hmem_word_range : 0 <= hmem_word flag ident virt < 2 ^ 64.
Proof using Hflag Hident Hvirt. unfold hmem_word. lia. Qed.

Lemma hmem_word_u64 : u64 (hmem_word flag ident virt) = hmem_word flag ident virt.
Proof using Hflag Hident Hvirt. apply u64_small, hmem_word_range. Qed.

Lemma IS_VE_word : IS_VE (hmem_word flag ident virt) = flag * 2 ^ 63.
Proof using Hflag Hident Hvirt.
  unfold IS_VE. rewrite hmem_word_u64.
  change VEADDR_MBITS with (2 ^ 63). rewrite land_pow2 by lia.
  rewrite Z.testbit_odd, Z.shiftr_div_pow2 by lia.
  replace (hmem_word flag ident virt / 2 ^ 63) with flag.
  2:{ unfold hmem_word.
      apply Z.div_unique_pos with (ident * 2 ^ 59 + virt); lia. }
  assert (flag = 0 \/ flag = 1) as [-> | ->] by lia; simpl; lia.
Qed.

Lemma GET_PROC_IDENT_word : GET_PROC_IDENT (hmem_word flag ident virt) = ident.
Proof using Hflag Hident Hvirt.
  unfold GET_PROC_IDENT. rewrite hmem_word_u64, Z.shiftr_land.
  change (Z.shiftr PIDENT_MBITS IDENT_OFFSET_BITS) with (Z.ones 4).
  rewrite Z.land_ones, Z.shiftr_div_pow2 by (unfold IDENT_OFFSET_BITS; lia).
  unfold hmem_word, IDENT_OFFSET_BITS.
  replace ((flag * 2 ^ 63 + ident * 2 ^ 59 + virt) / 2 ^ 59) with (ident + flag * 2 ^ 4).
  2:{ apply Z.div_unique_pos with virt; lia. }
  rewrite Z_mod_plus_full. apply Z.mod_small. lia.
Qed.

Lemma VIRT_ADDR_VE_word : VIRT_ADDR_VE (hmem_word flag ident virt) = virt.
Proof using Hflag Hident Hvirt.
  unfold VIRT_ADDR_VE. rewrite hmem_word_u64.
  change (u64 (Z.lnot VEIDENT_MBITS)) with (Z.ones 59).
  rewrite Z.land_comm, Z.land_ones by lia. unfold hmem_word.
  replace (flag * 2 ^ 63 + ident * 2 ^ 59 + virt)
    with (virt + (flag * 2 ^ 4 + ident) * 2 ^ 59) by lia.
  rewrite Z_mod_plus_full. apply Z.mod_small. lia.
Qed.

Lemma veo_is_ve_addr_word : veo_is_ve_addr (hmem_word flag ident virt) = flag.
Proof using Hflag Hident Hvirt.
  unfold veo_is_ve_addr. rewrite IS_VE_word.
  assert (flag = 0 \/ flag = 1) as [-> | ->] by lia; done.
Qed.
End Fields.

(** Every 64-bit address has these three fields. *)
Lemma hmem_word_fields a : in_u64 a ->
  exists flag ident virt,
    0 <= flag < 2 /\ 0 <= ident < 16 /\ 0 <= virt < 2 ^ 59 /\ a = hmem_word flag ident virt.
Proof.
  intros Ha. unfold in_u64 in Ha.
  exists (a / 2 ^ 63), (a / 2 ^ 59 mod 16), (a mod 2 ^ 59). unfold hmem_word.
  pose proof (Z.div_mod a (2 ^ 59) ltac:(lia)).
  pose proof (Z.mod_pos_bound a (2 ^ 59) ltac:(lia)).
  pose proof (Z.div_mod (a / 2 ^ 59) 16 ltac:(lia)).
  pose proof (Z.mod_pos_bound (a / 2 ^ 59) 16 ltac:(lia)).
  replace (a / 2 ^ 63) with (a / 2 ^ 59 / 16) by (rewrite Z.div_div; lia || done).
  split_and!; lia || nia.
Qed.

(** [veo_set_proc_identifier] builds the flagged word of its arguments. *)
Lemma veo_set_proc_identifier_word addr p :
  0 <= addr < 2 ^ 59 -> 0 <= p < VEO_MAX_HMEM_PROCS ->
  veo_set_proc_identifier addr p = hmem_word 1 p addr.
Proof.
  unfold VEO_MAX_HMEM_PROCS. intros Ha Hp.
  unfold veo_set_proc_identifier, VEO_MAX_HMEM_PROCS.
  destruct (Z.ltb_spec p 0), (Z.leb_spec 16 p); try lia. simpl.
  unfold SET_PROC_IDENT, SET_VE_FLAG.
  rewrite (u64_small addr), (u64_small p) by lia.
  change VEADDR_MBITS with (1 * 2 ^ 63).
  rewrite (lor_disjoint_add 1 addr 63) by lia.
  rewrite u64_small by lia.
  rewrite Z.shiftl_mul_pow2 by (unfold IDENT_OFFSET_BITS; lia).
  unfold IDENT_OFFSET_BITS. rewrite u64_small by lia.
  replace (1 * 2 ^ 63 + addr) with (Z.lor (16 * 2 ^ 59) addr)
    by (rewrite lor_disjoint_add by lia; lia).
  rewrite <- Z.lor_assoc, (Z.lor_comm addr), Z.lor_assoc.
  assert (Hf : Z.lor (16 * 2 ^ 59) (p * 2 ^ 59) = (16 + p) * 2 ^ 59).
  { rewrite <- !Z.shiftl_mul_pow2, <- Z.shiftl_lor by lia. f_equal.
    change 16 with (1 * 2 ^ 4). rewrite lor_disjoint_add; lia. }
  rewrite Hf, lor_disjoint_add by lia. unfold hmem_word. lia.
Qed.

(** ** Properties *)

(** C39: round trip of an HMEM address: for a VEMVA below 2^59 and a valid
    process identifier, the address [veo_set_proc_identifier] builds is
    recognised as a VE address, and both the VEMVA and the identifier are read
    back from it by [veo_get_hmem_addr] and [veo_get_proc_identifier_from_hmem]. *)
Theorem hmem_addr_roundtrip addr p :
  0 <= addr < 2 ^ 59 -> 0 <= p < VEO_MAX_HMEM_PROCS ->
  let h := veo_set_proc_identifier addr p in
  veo_is_ve_addr h = 1 /\
  veo_get_hmem_addr h = addr /\
  veo_get_proc_identifier_from_hmem h = p.
Proof.
  intros Ha Hp h. subst h. rewrite veo_set_proc_identifier_word by done.
  unfold VEO_MAX_HMEM_PROCS in Hp.
  assert (Hve : veo_is_ve_addr (hmem_word 1 p addr) = 1) by (apply veo_is_ve_addr_word; lia).
  split_and!; [done| |].
  - unfold veo_get_hmem_addr. rewrite Hve. simpl. by apply VIRT_ADDR_VE_word; lia.
  - unfold veo_get_proc_identifier_from_hmem.
    rewrite IS_VE_word, GET_PROC_IDENT_word by lia. simpl. apply i32_small. lia.
Qed.

Lemma hmem_addr_roundtrip_witness :
  veo_is_ve_addr (veo_set_proc_identifier 0x600000001000 5) = 1 /\
  veo_get_hmem_addr (veo_set_proc_identifier 0x600000001000 5) = 0x600000001000 /\
  veo_get_proc_identifier_from_hmem (veo_set_proc_identifier 0x600000001000 5) = 5.
Proof.
  apply (hmem_addr_roundtrip 0x600000001000 5); unfold VEO_MAX_HMEM_PROCS; lia.
Defined.

(** Classification of every 64-bit address.  Without bit 63 it is a VH
    address: it is returned unchanged and has no identifier.  With bit 63 the
    address returned is below 2^59, so it carries neither flag nor identifier
    any more and a second [veo_get_hmem_addr] changes nothing, and the
    identifier is one of the sixteen valid ones. *)
Theorem hmem_addr_classified a :
  in_u64 a ->
  (a < 2 ^ 63 /\ veo_is_ve_addr a = 0 /\ veo_get_hmem_addr a = a /\
   veo_get_proc_identifier_from_hmem a = -1) \/
  (2 ^ 63 <= a /\ veo_is_ve_addr a = 1 /\
   0 <= veo_get_hmem_addr a < 2 ^ 59 /\
   veo_get_hmem_addr (veo_get_hmem_addr a) = veo_get_hmem_addr a /\
   0 <= veo_get_proc_identifier_from_hmem a < veo_get_max_proc_identifier).
Proof.
  intros (flag & ident & virt & Hf & Hi & Hv & ->)%hmem_word_fields.
  pose proof (veo_is_ve_addr_word flag ident virt Hf Hi Hv) as Hve.
  unfold veo_get_proc_identifier_from_hmem. rewrite IS_VE_word by lia.
  assert (flag = 0 \/ flag = 1) as [-> | ->] by lia; [left|right].
  - unfold veo_get_hmem_addr. rewrite Hve. split_and!; try done. unfold hmem_word. lia.
  - assert (Hget : veo_get_hmem_addr (hmem_word 1 ident virt) = virt).
    { unfold veo_get_hmem_addr. rewrite Hve. simpl. by apply VIRT_ADDR_VE_word. }
    rewrite Hget.
    assert (Hvirt : veo_get_hmem_addr virt = virt).
    { unfold veo_get_hmem_addr.
      replace virt with (hmem_word 0 0 virt) by (unfold hmem_word; lia).
      by rewrite veo_is_ve_addr_word by lia. }
    rewrite Hvirt, GET_PROC_IDENT_word by lia. simpl.
    rewrite i32_small by lia.
    unfold veo_get_max_proc_identifier, VEO_MAX_HMEM_PROCS, hmem_word.
    split_and!; done || lia.
Qed.

Lemma hmem_addr_classified_witness :
  (0xa800600000001000 < 2 ^ 63 /\ veo_is_ve_addr 0xa800600000001000 = 0 /\
   veo_get_hmem_addr 0xa800600000001000 = 0xa800600000001000 /\
   veo_get_proc_identifier_from_hmem 0xa800600000001000 = -1) \/
  (2 ^ 63 <= 0xa800600000001000 /\ veo_is_ve_addr 0xa800600000001000 = 1 /\
   0 <= veo_get_hmem_addr 0xa800600000001000 < 2 ^ 59 /\
   veo_get_hmem_addr (veo_get_hmem_addr 0xa800600000001000)
     = veo_get_hmem_addr 0xa800600000001000 /\
   0 <= veo_get_proc_identifier_from_hmem 0xa800600000001000 < veo_get_max_proc_identifier).
Proof. apply (hmem_addr_classified 0xa800600000001000). unfold in_u64. lia. Defined.
