(* ===== verification/CallArgs.v ===== *)
(** * Arguments of a VE function call

    Models [CallArgs.hpp] and [CallArgs.cpp]: the argument kinds, the register
    values, the stack image that carries the parameter area and the buffers
    passed on the stack, and the copy of those buffers back to the VH. *)

From Stdlib Require Import ZArith Lia Bool.
From stdpp Require Import base gmap list numbers.
From S2P Require Import Prelude.

Open Scope Z_scope.

Definition NUM_ARGS_ON_REGISTER : Z := 8.
Definition PARAM_AREA_OFFSET : Z := 176.

Inductive veo_args_intent := VEO_INTENT_IN | VEO_INTENT_INOUT | VEO_INTENT_OUT.

(** The integral types [CallArgs::set_] is instantiated at. *)
Inductive inttype := T_i64 | T_u64 | T_i32 | T_u32 | T_i16 | T_u16 | T_i8 | T_u8.

Definition sizeof (t : inttype) : nat :=
  match t with
  | T_i64 | T_u64 => 8
  | T_i32 | T_u32 => 4
  | T_i16 | T_u16 => 2
  | T_i8 | T_u8 => 1
  end.

(** The value range of a type. *)
Definition in_type (t : inttype) (v : Z) : Prop :=
  match t with
  | T_u64 | T_u32 | T_u16 | T_u8 => 0 <= v < 256 ^ Z.of_nat (sizeof t)
  | T_i64 | T_i32 | T_i16 | T_i8 =>
      - (256 ^ Z.of_nat (sizeof t) / 2) <= v < 256 ^ Z.of_nat (sizeof t) / 2
  end.

(** [ArgBase] and its implementations.  A [double] is its 64-bit and a [float]
    its 32-bit representation.  The constructor of [ArgOnStack] leaves [vemva_]
    unset; [setStackImage] writes it before [getRegVal] reads it. *)
Inductive ArgBase :=
  | ArgType (t : inttype) (value_ : Z)
  | ArgType_double (i64_ : Z)
  | ArgType_float (f_ : Z)
  | ArgOnStack (buff_ len_ : Z) (in_ out_ : bool) (vemva_ : Z).

Module Arg.

(** [union { float f_[2]; int64_t i64_; }] with [f_{0.0, f}]. *)
Definition float_i64 (f : Z) : Z := le_val (le_bytes 4 0 ++ le_bytes 4 f).

Definition getRegVal (a : ArgBase) : Z :=
  match a with
  | ArgType _ v => i64 v
  | ArgType_double d => i64 d
  | ArgType_float f => i64 (float_i64 f)
  | ArgOnStack _ _ _ _ vemva => i64 vemva
  end.

Definition sizeOnStack (a : ArgBase) : Z :=
  match a with
  | ArgOnStack _ len _ _ _ => if 0 <? len mod 8 then u64 (len + (8 - len mod 8)) else len
  | _ => 0
  end.

(** [set_value]: put the [n] bytes of a value at [offset], zero bytes up to the
    next multiple of eight behind them. *)
Definition set_value (str : list Z) (offset : Z) (n : nat) (value : Z) : outcome (list Z) :=
  let off := Z.to_nat offset in
  let str := if (length str <? off)%nat then str_resize str off else str in
  obind (str_replace str off n (le_bytes n value)) (fun str =>
  if (0 <? n mod 8)%nat
  then let padsize := (8 - n mod 8)%nat in
       str_replace str (off + n) padsize (replicate padsize 0)
  else Ret str).

(** [setStackImage(sp, stack, n, in, out)]: the argument (an [ArgOnStack] notes
    its address), the stack image, [in] and [out]. *)
Definition setStackImage (m : mem) (a : ArgBase) (sp : Z) (stack : list Z) (n : Z)
    : outcome (ArgBase * list Z * bool * bool) :=
  let scalar size v :=
    if n <? NUM_ARGS_ON_REGISTER then Ret (a, stack, false, false)
    else obind (set_value stack (PARAM_AREA_OFFSET + n * 8) size v) (fun stack =>
         Ret (a, stack, true, false)) in
  match a with
  | ArgType t v => scalar (sizeof t) v
  | ArgType_double d => scalar 8%nat d
  | ArgType_float f => scalar 8%nat (float_i64 f)
  | ArgOnStack buff len in_ out_ _ =>
      let oldlen := Z.of_nat (length stack) in
      let vemva := u64 (sp + oldlen) in
      let stack := stack ++ (if in_ then mem_read m buff (Z.to_nat len)
                             else replicate (Z.to_nat len) 0) in
      let stack := if 0 <? len mod 8
                   then stack ++ replicate (Z.to_nat (8 - len mod 8)) 0 else stack in
      let a := ArgOnStack buff len in_ out_ vemva in
      if NUM_ARGS_ON_REGISTER <=? n
      then obind (set_value stack (PARAM_AREA_OFFSET + 8 * n) 8 vemva) (fun stack =>
           Ret (a, stack, in_, out_))
      else Ret (a, stack, in_, out_)
  end.

(** The copy [copyoutFromStackImage] returns as a lambda; [None] is the empty
    function of the scalar arguments. *)
Record out_copy := mkOutCopy { oc_top : Z; oc_buff : Z; oc_len : Z; oc_vemva : Z }.

Definition copyoutFromStackImage (a : ArgBase) (stack_top : Z) : option (list out_copy) :=
  match a with
  | ArgOnStack buff len _ out_ vemva =>
      if negb out_ then Some [] else Some [mkOutCopy stack_top buff len vemva]
  | _ => None
  end.

End Arg.

(** ** The class [CallArgs] *)

Record CallArgs := mkCallArgs {
  arguments : list (option ArgBase);  (** a [unique_ptr] that was never set is null *)
  stack_top : Z;
  stack_size : Z;
  stack_buf : Z;
  copied_in : bool;
  copied_out : bool;
}.

(** [CallArgs()]; the two flags are not initialised and are written before they
    are read. *)
Definition new_CallArgs : CallArgs := mkCallArgs [] 0 0 0 false false.

Definition set_arguments (l : list (option ArgBase)) (c : CallArgs) : CallArgs :=
  mkCallArgs l (stack_top c) (stack_size c) (stack_buf c) (copied_in c) (copied_out c).
Definition set_stack_buf (b : Z) (c : CallArgs) : CallArgs :=
  mkCallArgs (arguments c) (stack_top c) (stack_size c) b (copied_in c) (copied_out c).

Definition clear (c : CallArgs) : CallArgs := set_arguments [] c.

Definition push_ (a : ArgBase) (c : CallArgs) : CallArgs := set_arguments (arguments c ++ [Some a]) c.

(** [CallArgs(std::initializer_list<int64_t>)]: only the vector is initialised, the other
    members keep what [c0] has at their place. *)
Definition CallArgs_of (c0 : CallArgs) (args : list Z) : CallArgs :=
  foldl (fun c a => push_ (ArgType T_i64 a) c) (set_arguments [] c0) args.

Definition numArgs (c : CallArgs) : Z := i32 (Z.of_nat (length (arguments c))).

(** [std::vector::max_size] of a vector of pointers. *)
Definition vector_max_size : Z := 2 ^ 60 - 1.

(** [arguments.resize(argnum + 1)] when the vector is shorter, then
    [arguments[argnum] = ...].  The comparison is unsigned: a negative [argnum]
    other than -1 asks for a size no vector can have, and -1 (as well as the
    overflowing [INT_MAX]) is undefined. *)
Definition put_argument (argnum : Z) (a : ArgBase) (c : CallArgs) : outcome CallArgs :=
  if (argnum =? -1) || (argnum =? 2 ^ 31 - 1) then Undef
  else
    let want := u64 (argnum + 1) in
    if Z.of_nat (length (arguments c)) <? want then
      if vector_max_size <? want then Throw std_length_error
      else
        let l := arguments c ++ replicate (Z.to_nat want - length (arguments c)) None in
        Ret (set_arguments (<[Z.to_nat argnum := Some a]> l) c)
    else Ret (set_arguments (<[Z.to_nat argnum := Some a]> (arguments c)) c).

(** [set_<T>] for the integral types, [double] and [float]. *)
Definition set_ (argnum : Z) (a : ArgBase) (c : CallArgs) : outcome CallArgs :=
  put_argument argnum a c.

Definition setOnStack (inout : veo_args_intent) (argnum buff len : Z) (c : CallArgs)
    : outcome CallArgs :=
  let copiedin := match inout with VEO_INTENT_IN | VEO_INTENT_INOUT => true | _ => false end in
  let copiedout := match inout with VEO_INTENT_OUT | VEO_INTENT_INOUT => true | _ => false end in
  put_argument argnum (ArgOnStack buff len copiedin copiedout 0) c.

(** [arg->...] of every element: undefined when one is null. *)
Definition deref (a : option ArgBase) : outcome ArgBase :=
  match a with Some a => Ret a | None => Undef end.

Fixpoint getRegVal_loop (count : Z) (l : list (option ArgBase)) : outcome (list Z) :=
  match l with
  | [] => Ret []
  | oa :: l' =>
      obind (deref oa) (fun a =>
      let v := u64 (Arg.getRegVal a) in
      if NUM_ARGS_ON_REGISTER <=? count + 1 then Ret [v]
      else obind (getRegVal_loop (count + 1) l') (fun vs => Ret (v :: vs)))
  end.

Definition getRegVal (c : CallArgs) : outcome (list Z) := getRegVal_loop 0 (arguments c).

(** [std::accumulate(begin, end, 0, ...)]: the running sum is an [int]. *)
Fixpoint accumulate_size (acc : Z) (l : list (option ArgBase)) : outcome Z :=
  match l with
  | [] => Ret acc
  | oa :: l' =>
      obind (deref oa) (fun a =>
      accumulate_size (i32 (u64 (u64 acc + Arg.sizeOnStack a))) l')
  end.

(** The loop of [getStackImage] over the arguments. *)
Fixpoint image_loop (m : mem) (top : Z) (stack : list Z) (n : Z) (ci co : bool)
    (l : list (option ArgBase)) : outcome (list (option ArgBase) * list Z * bool * bool) :=
  match l with
  | [] => Ret ([], stack, ci, co)
  | oa :: l' =>
      obind (deref oa) (fun a =>
      obind (Arg.setStackImage m a top stack n) (fun '(a', stack', i, o) =>
      obind (image_loop m top stack' (n + 1) (ci || i) (co || o) l')
        (fun '(r, s, ci', co') => Ret (Some a' :: r, s, ci', co'))))
  end.

Definition getStackImage (m : mem) (sp : Z) (c : CallArgs) : outcome (list Z * CallArgs) :=
  obind (accumulate_size 0 (arguments c)) (fun acc =>
  let fixed := PARAM_AREA_OFFSET + 8 * numArgs c in
  let isum := fixed + acc in
  if negb ((fixed <? 2 ^ 31) && (- 2 ^ 31 <=? isum) && (isum <? 2 ^ 31))
  then Undef (* int overflow *)
  else
  let size := u64 isum in
  let size := u64 (u64 (size + 15) / 16 * 16) in
  let top := u64 (sp - size) in
  let stack := replicate (Z.to_nat (PARAM_AREA_OFFSET + 8 * numArgs c)) 0 in
  obind (image_loop m top stack 0 false false (arguments c)) (fun '(args', stack, ci, co) =>
  let len := Z.of_nat (length stack) in
  let grow := (len + 15) / 16 * 16 - len in
  let stack := if grow =? 0 then stack else stack ++ replicate (Z.to_nat grow) 0 in
  Ret (stack, mkCallArgs args' top size (stack_buf c) ci co))).

Definition deleteBuffer (c : CallArgs) : M heap CallArgs :=
  delete_char (stack_buf c) ;;; ret (set_stack_buf 0 c).

Definition setup (sp : Z) (c : CallArgs) : M heap CallArgs :=
  let! h := get in
  let! '(img, c) := lift (getStackImage (h_mem h) sp c) in
  if negb (stack_size c =? Z.of_nat (length img)) then stop Abort_ (* VEO_ASSERT *)
  else
    let! buf := new_char (stack_size c) in
    store buf img ;;;
    let! c := (if negb (stack_buf c =? 0) then deleteBuffer c else ret c) in
    ret (set_stack_buf buf c).

(** [copyout()]: the list of copies its lambda performs; [typeid] of a null
    argument throws. *)
Fixpoint copyout_funcs (top : Z) (l : list (option ArgBase)) : outcome (list Arg.out_copy) :=
  match l with
  | [] => Ret []
  | None :: _ => Throw std_bad_typeid
  | Some a :: l' =>
      obind (copyout_funcs top l') (fun fs =>
      match Arg.copyoutFromStackImage a top with
      | Some f => Ret (f ++ fs)
      | None => Ret fs
      end)
  end.

Definition copyout (c : CallArgs) : outcome (list Arg.out_copy) :=
  if copied_out c then copyout_funcs (stack_top c) (arguments c) else Ret [].

(** Where the lambda finds the stack: in a received message or at an address. *)
Inductive payload_at := FromBytes (l : list Z) | FromMem (a : Z).

Definition payload_read (m : mem) (p : payload_at) (off : Z) (n : nat) : outcome (list Z) :=
  match p with
  | FromBytes l =>
      if (0 <=? off) && (off + Z.of_nat n <=? Z.of_nat (length l))
      then Ret (take n (drop (Z.to_nat off) l)) else Undef
  | FromMem a => Ret (mem_read m (u64 (a + off)) n)
  end.

(** Run the lambda: one [memcpy] per out argument, in the order of the arguments. *)
Fixpoint run_copyout (p : payload_at) (fs : list Arg.out_copy) : M heap unit :=
  match fs with
  | [] => ret tt
  | f :: fs' =>
      let! h := get in
      let! bs := lift (payload_read (h_mem h) p (u64 (Arg.oc_vemva f - Arg.oc_top f))
                        (Z.to_nat (Arg.oc_len f))) in
      store (Arg.oc_buff f) bs ;;;
      run_copyout p fs'
  end.

(** ** Lemmas *)

(** *** The parameter slots *)

Lemma sizeof_dvd t : (sizeof t = 1 \/ sizeof t = 2 \/ sizeof t = 4 \/ sizeof t = 8)%nat.
Proof. destruct t; simpl; auto. Qed.

(** [set_value] inside the buffer rewrites exactly one 8-byte slot. *)
Lemma set_value_slot str off n v :
  (n = 1 \/ n = 2 \/ n = 4 \/ n = 8)%nat -> 0 <= off -> (Z.to_nat off + 8 <= length str)%nat ->
  exists str', Arg.set_value str off n v = Ret str' /\ length str' = length str /\
    take 8 (drop (Z.to_nat off) str') = le_bytes n v ++ replicate (8 - n) 0 /\
    (forall k, (k < Z.to_nat off \/ Z.to_nat off + 8 <= k)%nat -> str' !! k = str !! k).
Proof.
  intros Hn Hoff Hlen. unfold Arg.set_value.
  set (o := Z.to_nat off) in *.
  destruct (Nat.ltb_spec (length str) o); [lia|].
  destruct (str_replace_in_place str o n (le_bytes n v)) as (s1 & -> & L1 & T1 & M1 & D1);
    [by rewrite length_le_bytes|lia|].
  cbn [obind recast].
  assert (Hk1 : forall k, (k < o \/ o + n <= k)%nat -> s1 !! k = str !! k).
  { intros k [Hk|Hk].
    - rewrite <- (lookup_take_lt s1 o k), <- (lookup_take_lt str o k) by done. by rewrite T1.
    - replace k with ((o + n) + (k - (o + n)))%nat by lia.
      by rewrite <- !lookup_drop, D1. }
  destruct (decide (n = 8%nat)) as [->|Hn8].
  { change (0 <? 8 mod 8)%nat with false. exists s1. split_and!; [done..| |].
    - change (8 - 8)%nat with 0%nat. cbn [replicate]. by rewrite app_nil_r.
    - intros k Hk. apply Hk1. lia. }
  assert (Hmod : (n mod 8 = n)%nat) by (apply Nat.mod_small; lia).
  rewrite Hmod. destruct (Nat.ltb_spec 0 n) as [_|?]; [|lia].
  destruct (str_replace_in_place s1 (o + n) (8 - n) (replicate (8 - n) 0))
    as (s2 & -> & L2 & T2 & M2 & D2); [by rewrite length_replicate|lia|].
  exists s2. split_and!; [done|lia| |].
  - apply (f_equal (drop o)) in T2. rewrite !skipn_firstn_comm in T2.
    replace (o + n - o)%nat with n in T2 by lia.
    replace 8%nat with (n + (8 - n))%nat at 1 by lia.
    rewrite <- take_take_drop, drop_drop, T2, M1, M2. done.
  - intros k Hk. rewrite <- Hk1 by lia. destruct Hk as [Hk|Hk].
    + rewrite <- (lookup_take_lt s2 (o + n) k), <- (lookup_take_lt s1 (o + n) k) by lia.
      by rewrite T2.
    + replace (o + n + (8 - n))%nat with (o + 8)%nat in D2 by lia.
      replace k with ((o + 8) + (k - (o + 8)))%nat by lia.
      by rewrite <- !lookup_drop, D2.
Qed.

(** *** What one argument contributes to the image *)

(** The bytes of the argument that go into its parameter slot. *)
Definition slot_size (a : ArgBase) : nat :=
  match a with ArgType t _ => sizeof t | _ => 8%nat end.

Definition slot_val (a : ArgBase) : Z :=
  match a with
  | ArgType _ v => v
  | ArgType_double d => d
  | ArgType_float f => Arg.float_i64 f
  | ArgOnStack _ _ _ _ vemva => vemva
  end.

(** The argument once its buffer has the address [addr] in the stack. *)
Definition place (addr : Z) (a : ArgBase) : ArgBase :=
  match a with
  | ArgOnStack buff len i o _ => ArgOnStack buff len i o addr
  | _ => a
  end.

(** The bytes appended for the argument: its buffer and the padding. *)
Definition arg_data (m : mem) (a : ArgBase) : list Z :=
  match a with
  | ArgOnStack buff len i _ _ =>
      (if i then mem_read m buff (Z.to_nat len) else replicate (Z.to_nat len) 0)
      ++ replicate (Z.to_nat (align_up 8 len - len)) 0
  | _ => []
  end.

Definition needs_in (n : Z) (a : ArgBase) : bool :=
  match a with ArgOnStack _ _ i _ _ => i | _ => NUM_ARGS_ON_REGISTER <=? n end.

Definition is_out (a : ArgBase) : bool :=
  match a with ArgOnStack _ _ _ o _ => o | _ => false end.

(** A value of its type, a buffer of a possible length. *)
Definition arg_ok (a : ArgBase) : Prop :=
  match a with
  | ArgType t v => in_type t v
  | ArgType_double d => in_u64 d
  | ArgType_float f => 0 <= f < 2 ^ 32
  | ArgOnStack _ len _ _ _ => 0 <= len < 2 ^ 63
  end.

Lemma align8_pad len : 0 <= len ->
  align_up 8 len = len + (if 0 <? len mod 8 then 8 - len mod 8 else 0).
Proof.
  intros Hl. unfold align_up.
  pose proof (Z.div_mod len 8 ltac:(lia)). pose proof (Z.mod_pos_bound len 8 ltac:(lia)).
  destruct (Z.ltb_spec 0 (len mod 8)).
  - replace ((len + (8 - 1)) / 8) with (len / 8 + 1); [lia|].
    apply Z.div_unique_pos with (len mod 8 - 1); lia.
  - replace ((len + (8 - 1)) / 8) with (len / 8); [lia|].
    apply Z.div_unique_pos with 7; lia.
Qed.

Lemma sizeOnStack_align a : arg_ok a ->
  Arg.sizeOnStack a = match a with ArgOnStack _ len _ _ _ => align_up 8 len | _ => 0 end.
Proof.
  destruct a as [| | |buff len i o v]; try done. cbn [arg_ok Arg.sizeOnStack]. intros Hl.
  rewrite align8_pad by lia. pose proof (Z.mod_pos_bound len 8 ltac:(lia)).
  destruct (Z.ltb_spec 0 (len mod 8)); [rewrite u64_small|]; lia.
Qed.

Lemma length_arg_data m a : arg_ok a -> Z.of_nat (length (arg_data m a)) = Arg.sizeOnStack a.
Proof.
  intros Ha. rewrite sizeOnStack_align by done.
  destruct a as [| | |buff len i o v]; try done. cbn [arg_ok arg_data] in *.
  pose proof (align_up_spec 8 len ltac:(lia)).
  rewrite length_app, length_replicate.
  destruct i; rewrite ?length_mem_read, ?length_replicate; lia.
Qed.

Lemma sizeOnStack_nonneg a : arg_ok a -> 0 <= Arg.sizeOnStack a.
Proof. intros Ha. rewrite <- (length_arg_data (fun _ => 0)) by done. lia. Qed.

Lemma slot_size_cases a :
  (slot_size a = 1 \/ slot_size a = 2 \/ slot_size a = 4 \/ slot_size a = 8)%nat.
Proof. destruct a; simpl; auto using sizeof_dvd. Qed.

(** The two appends of [ArgOnStack::setStackImage]. *)
Lemma append_padded (stack d : list Z) len : 0 <= len ->
  (if 0 <? len mod 8 then (stack ++ d) ++ replicate (Z.to_nat (8 - len mod 8)) 0
   else stack ++ d)
  = stack ++ d ++ replicate (Z.to_nat (align_up 8 len - len)) 0.
Proof.
  intros Hl. rewrite align8_pad by lia. destruct (0 <? len mod 8).
  - rewrite <- app_assoc. do 3 f_equal. lia.
  - replace (len + 0 - len) with 0 by lia. by rewrite app_nil_r.
Qed.

(** The image after one argument: its data is appended, slot [n] is written
    when the argument is not in a register, all other bytes stay. *)
Lemma setStackImage_spec m a top stack (n N : nat) :
  arg_ok a -> (n < N)%nat -> (176 + 8 * N <= length stack)%nat ->
  let a' := place (u64 (top + Z.of_nat (length stack))) a in
  exists stack',
    Arg.setStackImage m a top stack (Z.of_nat n)
      = Ret (a', stack', needs_in (Z.of_nat n) a, is_out a) /\
    length stack' = (length stack + length (arg_data m a))%nat /\
    drop (length stack) stack' = arg_data m a /\
    (8 <= n -> take 8 (drop (176 + 8 * n) stack')
               = le_bytes (slot_size a) (slot_val a') ++ replicate (8 - slot_size a) 0%Z)%nat /\
    (forall k, k < length stack -> (k < 176 + 8 * n \/ 176 + 8 * n + 8 <= k) ->
       stack' !! k = stack !! k)%nat.
Proof.
  intros Ha Hn Hlen a'.
  set (off := (PARAM_AREA_OFFSET + Z.of_nat n * 8)).
  assert (Hoff : Z.to_nat off = (176 + 8 * n)%nat) by (unfold off, PARAM_AREA_OFFSET; lia).
  (* the buffer with the data appended *)
  set (full := stack ++ arg_data m a).
  assert (Hfull : (Z.to_nat off + 8 <= length full)%nat)
    by (unfold full; rewrite Hoff, length_app; lia).
  destruct (set_value_slot full off (slot_size a) (slot_val a'))
    as (s' & Hset & Hl & Hslot & Hrest);
    [apply slot_size_cases|unfold off, PARAM_AREA_OFFSET; lia|done|].
  rewrite Hoff in Hslot, Hrest.
  assert (Hdata : drop (length stack) s' = arg_data m a).
  { apply list_eq. intros k. rewrite lookup_drop, Hrest by lia.
    unfold full. rewrite lookup_app_r by lia. f_equal. lia. }
  exists (if (8 <=? n)%nat then s' else full).
  assert (Heq : Arg.setStackImage m a top stack (Z.of_nat n)
    = Ret (a', if (8 <=? n)%nat then s' else full, needs_in (Z.of_nat n) a, is_out a)).
  { unfold Arg.setStackImage, needs_in, is_out, NUM_ARGS_ON_REGISTER.
    fold off. subst a'. subst full.
    destruct a as [t v|d|f|buff len i o v];
      cbn [place slot_size slot_val arg_data] in *; rewrite ?app_nil_r in *.
    1-3: destruct (Nat.leb_spec 8 n), (Z.ltb_spec (Z.of_nat n) 8), (Z.leb_spec 8 (Z.of_nat n));
         try lia; [by rewrite Hset|done].
    replace (PARAM_AREA_OFFSET + 8 * Z.of_nat n) with off by (unfold off; lia).
    cbn [arg_ok] in Ha. rewrite append_padded by lia.
    destruct (Nat.leb_spec 8 n), (Z.leb_spec 8 (Z.of_nat n)); try lia; [by rewrite Hset|done]. }
  split; [exact Heq|].
  destruct (Nat.leb_spec 8 n) as [H8|H8]; split_and!.
  - rewrite Hl. unfold full. apply length_app.
  - done.
  - done.
  - intros k Hk Hor. rewrite Hrest by done. unfold full. by rewrite lookup_app_l.
  - unfold full. apply length_app.
  - unfold full. by apply drop_app_length.
  - lia.
  - intros k Hk _. unfold full. by rewrite lookup_app_l.
Qed.

(** *** The whole image *)

(** The sizes of the buffers of a list of arguments. *)
Definition data_len (a : ArgBase) : nat := Z.to_nat (Arg.sizeOnStack a).
Definition data_total (l : list ArgBase) : nat := sum_list (data_len <$> l).

Lemma data_total_cons a l : data_total (a :: l) = (data_len a + data_total l)%nat.
Proof. done. Qed.

Lemma data_total_app l1 l2 : data_total (l1 ++ l2) = (data_total l1 + data_total l2)%nat.
Proof. unfold data_total. by rewrite fmap_app, sum_list_with_app. Qed.

Lemma data_total_take l i : (data_total (take i l) <= data_total l)%nat.
Proof. rewrite <- (take_drop i l) at 2. rewrite data_total_app. lia. Qed.

(** The offset of the data of argument [i], when the first one is put at [L]. *)
Definition data_off (L : nat) (l : list ArgBase) (i : nat) : nat := (L + data_total (take i l))%nat.

(** The arguments with the addresses of their buffers filled in. *)
Fixpoint place_all (top : Z) (L : nat) (l : list ArgBase) : list ArgBase :=
  match l with
  | [] => []
  | a :: l' => place (u64 (top + Z.of_nat L)) a :: place_all top (L + data_len a) l'
  end.

Fixpoint any_in (n : nat) (l : list ArgBase) : bool :=
  match l with
  | [] => false
  | a :: l' => needs_in (Z.of_nat n) a || any_in (S n) l'
  end.

Definition any_out (l : list ArgBase) : bool := existsb is_out l.

(** The bytes of the 8-byte parameter slot of an argument. *)
Definition slot_bytes (a : ArgBase) : list Z :=
  le_bytes (slot_size a) (slot_val a) ++ replicate (8 - slot_size a) 0.

Lemma slot_size_place addr a : slot_size (place addr a) = slot_size a.
Proof. by destruct a. Qed.

Lemma length_arg_data_nat m a : arg_ok a -> length (arg_data m a) = data_len a.
Proof. intros Ha. unfold data_len. rewrite <- (length_arg_data m) by done. lia. Qed.

Lemma lookup_place_all top L l i a :
  l !! i = Some a ->
  place_all top L l !! i = Some (place (u64 (top + Z.of_nat (data_off L l i))) a).
Proof.
  revert L i. induction l as [|b l IH]; intros L [|i] Hi; simplify_eq/=.
  - unfold data_off, data_total. simpl. by rewrite Nat.add_0_r.
  - rewrite (IH _ _ Hi). unfold data_off, data_total. simpl. by rewrite Nat.add_assoc.
Qed.

Lemma take_drop_ext {A} (s s' : list A) off k :
  (forall i, off <= i < off + k -> s !! i = s' !! i)%nat ->
  take k (drop off s) = take k (drop off s').
Proof.
  intros H. apply list_eq. intros i. destruct (decide (i < k)%nat).
  - rewrite !lookup_take_lt, !lookup_drop by done. apply H. lia.
  - by rewrite !lookup_take_ge by lia.
Qed.

(** What the image holds for argument number [n + i] of the call. *)
Definition image_holds (m : mem) (top : Z) (stack : list Z) (L n : nat) (l : list ArgBase) : Prop :=
  forall i a, l !! i = Some a ->
    take (data_len a) (drop (data_off L l i) stack) = arg_data m a /\
    ((8 <= n + i)%nat ->
     take 8 (drop (176 + 8 * (n + i)) stack)
     = slot_bytes (place (u64 (top + Z.of_nat (data_off L l i))) a)).

Lemma image_loop_spec m top (N : nat) l : forall stack n ci co,
  Forall arg_ok l -> (n + length l = N)%nat -> (176 + 8 * N <= length stack)%nat ->
  exists stack',
    image_loop m top stack (Z.of_nat n) ci co (Some <$> l)
      = Ret (Some <$> place_all top (length stack) l, stack', ci || any_in n l, co || any_out l) /\
    length stack' = (length stack + data_total l)%nat /\
    image_holds m top stack' (length stack) n l /\
    (forall k, k < length stack -> (k < 176 + 8 * n \/ 176 + 8 * N <= k) ->
       stack' !! k = stack !! k)%nat.
Proof.
  induction l as [|a l IH]; intros stack n ci co Hok HN Hlen.
  { exists stack. simpl. rewrite !orb_false_r. split_and!; [done| |by intros ? ?|done].
    unfold data_total. simpl. lia. }
  apply Forall_cons_iff in Hok as [Ha Hok]. simpl in HN.
  destruct (setStackImage_spec m a top stack n N Ha) as (s1 & E1 & L1 & D1 & P1 & K1); [lia..|].
  rewrite length_arg_data_nat in L1 by done.
  destruct (IH s1 (S n) (ci || needs_in (Z.of_nat n) a) (co || is_out a) Hok)
    as (s2 & E2 & L2 & H2 & K2); [lia..|].
  exists s2. cbn [fmap list_fmap image_loop deref obind recast].
  rewrite E1. cbn [obind recast].
  replace (Z.of_nat n + 1) with (Z.of_nat (S n)) by lia. rewrite E2. cbn [obind recast].
  split_and!.
  - rewrite L1. unfold any_out. cbn [place_all fmap list_fmap any_in existsb].
    by rewrite !orb_assoc.
  - rewrite L2, L1, data_total_cons. lia.
  - intros [|i] b Hb; simplify_eq/=.
    + assert (data_off (length stack) (b :: l) 0 = length stack) as ->
        by (unfold data_off; apply Nat.add_0_r). split.
      * rewrite <- (length_arg_data_nat m) by done. rewrite <- D1 at 2.
        rewrite <- (firstn_all (drop (length stack) s1)), length_drop, L1.
        replace (length stack + data_len b - length stack)%nat with (data_len b) by lia.
        rewrite length_arg_data_nat by done.
        apply take_drop_ext. intros k Hk. apply K2; lia.
      * rewrite Nat.add_0_r. intros H8. unfold slot_bytes. rewrite slot_size_place.
        rewrite <- P1 by done. apply take_drop_ext. intros k Hk. apply K2; lia.
    + specialize (H2 i b Hb). rewrite L1 in H2.
      replace (data_off (length stack) (a :: l) (S i))
        with (data_off (length stack + data_len a) l i)
        by (unfold data_off; cbn [take]; rewrite data_total_cons; lia).
      replace (n + S i)%nat with (S n + i)%nat by lia. exact H2.
  - intros k Hk Hor. rewrite K2 by lia. apply K1; lia.
Qed.

(** *** [getStackImage] and [setup] *)

Definition area_len (l : list ArgBase) : nat := (176 + 8 * length l)%nat.

(** The size of the stack frame of a call. *)
Definition frame_size (l : list ArgBase) : Z := align_up 16 (Z.of_nat (area_len l + data_total l)).

(** The frame is within the range of the [int] the sizes are summed up in. *)
Definition fits_int (l : list ArgBase) : Prop := Z.of_nat (area_len l + data_total l) < 2 ^ 31.

Lemma data_len_Z a : arg_ok a -> Z.of_nat (data_len a) = Arg.sizeOnStack a.
Proof. intros Ha. unfold data_len. pose proof (sizeOnStack_nonneg a Ha). lia. Qed.

Lemma accumulate_size_exact l : forall acc,
  Forall arg_ok l -> 0 <= acc -> acc + Z.of_nat (data_total l) < 2 ^ 31 ->
  accumulate_size acc (Some <$> l) = Ret (acc + Z.of_nat (data_total l)).
Proof.
  induction l as [|a l IH]; intros acc Hok Hacc Hb.
  { simpl. unfold data_total. simpl. f_equal. lia. }
  apply Forall_cons_iff in Hok as [Ha Hok]. rewrite data_total_cons in *.
  rewrite Nat2Z.inj_add in Hb. pose proof (data_len_Z a Ha) as Hd.
  cbn [fmap list_fmap accumulate_size deref obind recast].
  rewrite (u64_small acc), u64_small, i32_small by lia.
  change (list_fmap ArgBase (option ArgBase) Some l) with (Some <$> l).
  rewrite IH by (done || lia). f_equal. lia.
Qed.

Lemma numArgs_exact c l :
  arguments c = Some <$> l -> Z.of_nat (length l) < 2 ^ 31 -> numArgs c = Z.of_nat (length l).
Proof. intros E H. unfold numArgs. rewrite E, length_fmap. apply i32_small. lia. Qed.

Lemma frame_size_spec l :
  Z.of_nat (area_len l + data_total l) <= frame_size l
    < Z.of_nat (area_len l + data_total l) + 16 /\ frame_size l mod 16 = 0.
Proof. apply align_up_spec. lia. Qed.

Lemma image_holds_app m top stack z L n l :
  (forall i a, l !! i = Some a -> (data_off L l i + data_len a <= length stack)%nat /\
     (176 + 8 * (n + i) + 8 <= length stack)%nat) ->
  image_holds m top stack L n l -> image_holds m top (stack ++ z) L n l.
Proof.
  intros Hin H i a Hi. destruct (Hin i a Hi) as [H1 H2]. destruct (H i a Hi) as [<- Hs].
  split; [|intros H8; rewrite <- Hs by done]; apply take_drop_ext; intros k Hk;
    rewrite lookup_app_l; lia || done.
Qed.

Lemma data_off_bound L l i a :
  l !! i = Some a -> (data_off L l i + data_len a <= L + data_total l)%nat.
Proof.
  intros Hi. unfold data_off. rewrite <- (take_drop_middle l i a Hi) at 2.
  rewrite data_total_app, data_total_cons. lia.
Qed.

Lemma getStackImage_spec m sp c l :
  arguments c = Some <$> l -> Forall arg_ok l -> fits_int l ->
  let top := u64 (sp - frame_size l) in
  exists img,
    getStackImage m sp c
      = Ret (img, mkCallArgs (Some <$> place_all top (area_len l) l) top (frame_size l)
                    (stack_buf c) (any_in 0 l) (any_out l)) /\
    Z.of_nat (length img) = frame_size l /\
    image_holds m top img (area_len l) 0 l.
Proof.
  intros Hargs Hok Hfit top. unfold fits_int in Hfit.
  pose proof (frame_size_spec l) as [Hfs _].
  assert (Hn : numArgs c = Z.of_nat (length l)).
  { apply numArgs_exact; [done|]. unfold area_len in Hfit. lia. }
  unfold getStackImage. rewrite Hargs, accumulate_size_exact by (done || (unfold area_len in *; lia)).
  cbn [obind recast]. rewrite Hn.
  set (area := PARAM_AREA_OFFSET + 8 * Z.of_nat (length l)).
  assert (Harea : area = Z.of_nat (area_len l)) by (unfold area, area_len, PARAM_AREA_OFFSET; lia).
  rewrite Harea.
  assert ((Z.of_nat (area_len l) <? 2 ^ 31)
    && (- 2 ^ 31 <=? Z.of_nat (area_len l) + (0 + Z.of_nat (data_total l)))
    && (Z.of_nat (area_len l) + (0 + Z.of_nat (data_total l)) <? 2 ^ 31) = true) as ->.
  { rewrite !andb_true_iff, !Z.ltb_lt, Z.leb_le. lia. }
  cbn [negb].
  assert (u64 (u64 (u64 (Z.of_nat (area_len l) + (0 + Z.of_nat (data_total l))) + 15) / 16 * 16)
          = frame_size l) as ->.
  { rewrite (u64_small (_ + (0 + _))), (u64_small (_ + 15)) by lia.
    unfold frame_size, align_up in *. rewrite u64_small; [f_equal; f_equal; lia|].
    rewrite Nat2Z.inj_add in Hfs. change (16 - 1) with 15 in Hfs.
    rewrite Z.add_0_l. lia. }
  fold top. rewrite Nat2Z.id.
  set (zs := replicate (area_len l) 0).
  assert (Hzs : length zs = area_len l) by apply length_replicate.
  destruct (image_loop_spec m top (length l) l zs 0 false false Hok)
    as (s & E & L & H & _); [lia|rewrite Hzs; unfold area_len; lia|].
  change (Z.of_nat 0) with 0 in E. rewrite E. cbn [obind recast]. rewrite Hzs in *.
  set (grow := (Z.of_nat (length s) + 15) / 16 * 16 - Z.of_nat (length s)).
  assert (Hg : Z.of_nat (length s) + grow = frame_size l /\ 0 <= grow).
  { unfold grow. rewrite L. unfold frame_size, align_up in *. change (16 - 1) with 15 in *. lia. }
  exists (s ++ replicate (Z.to_nat grow) 0). split_and!.
  - f_equal. f_equal. destruct (Z.eqb_spec grow 0) as [->|]; [by rewrite app_nil_r|done].
  - rewrite length_app, length_replicate. lia.
  - apply image_holds_app; [|done]. intros i a Hi.
    pose proof (data_off_bound (area_len l) l i a Hi).
    pose proof (lookup_lt_Some _ _ _ Hi). unfold area_len in *. lia.
Qed.

Lemma div8_data_total l : Forall arg_ok l -> (data_total l mod 8 = 0)%nat.
Proof.
  induction 1 as [|a l Ha Hl IH]; [done|]. rewrite data_total_cons.
  assert (Hd : (data_len a mod 8 = 0)%nat).
  { apply Nat2Z.inj. rewrite Nat2Z.inj_mod, data_len_Z, sizeOnStack_align by done.
    destruct a; try done. apply align_up_spec. lia. }
  rewrite Nat.Div0.add_mod, Hd, IH. done.
Qed.

Lemma data_off_le L l i j : (i <= j)%nat -> (data_off L l i <= data_off L l j)%nat.
Proof.
  intros Hij. unfold data_off. rewrite <- (take_drop i (take j l)), take_take.
  rewrite Nat.min_l by done. rewrite data_total_app. lia.
Qed.

Lemma data_off_next L l i a :
  l !! i = Some a -> data_off L l (S i) = (data_off L l i + data_len a)%nat.
Proof.
  intros Hi. unfold data_off. rewrite (take_S_r _ _ a Hi).
  rewrite data_total_app, data_total_cons. unfold data_total at 2. simpl. lia.
Qed.

Lemma buffer_within_data buff len i o v :
  arg_ok (ArgOnStack buff len i o v) ->
  len <= Z.of_nat (data_len (ArgOnStack buff len i o v)).
Proof.
  intros Ha. rewrite data_len_Z, sizeOnStack_align by done.
  pose proof (align_up_spec 8 len ltac:(lia)). lia.
Qed.

(** The offset in the frame that the address of a buffer denotes. *)
Lemma frame_offset top l i :
  fits_int l -> (i <= length l)%nat ->
  u64 (u64 (top + Z.of_nat (data_off (area_len l) l i)) - top)
  = Z.of_nat (data_off (area_len l) l i).
Proof.
  intros Hf Hi. rewrite u64_sub_l. rewrite u64_small; [lia|].
  assert (data_off (area_len l) l i <= area_len l + data_total l)%nat.
  { unfold data_off. pose proof (data_total_take l i). lia. }
  unfold fits_int in Hf. lia.
Qed.

(** The frame the arguments [l] of a call get, seen from the callee: [a'] is the
    argument number [i] as the image [img] of the frame at [top] holds it. *)
Definition frame_arg (m : mem) (top : Z) (img : list Z) (l : list ArgBase)
    (i : nat) (a' : ArgBase) : Prop :=
  ((8 <= i)%nat ->
   le_val (take 8 (drop (176 + 8 * i) img)) = slot_val a' mod 256 ^ Z.of_nat (slot_size a')) /\
  match a' with
  | ArgOnStack buff len in_ _ vemva =>
      let off := u64 (vemva - top) in
      Z.of_nat (area_len l) <= off /\ off + len <= Z.of_nat (length img) /\ off mod 8 = 0 /\
      (in_ = true -> take (Z.to_nat len) (drop (Z.to_nat off) img) = mem_read m buff (Z.to_nat len))
  | _ => l !! i = Some a'
  end.

Lemma slot_bytes_val a :
  le_val (slot_bytes a) = slot_val a mod 256 ^ Z.of_nat (slot_size a).
Proof.
  unfold slot_bytes. rewrite le_val_app, le_val_zeros, le_val_bytes. lia.
Qed.

Lemma take_arg_data_in m buff len o v : 0 <= len ->
  take (Z.to_nat len) (arg_data m (ArgOnStack buff len true o v)) = mem_read m buff (Z.to_nat len).
Proof.
  intros Hl. cbn [arg_data]. apply take_app_length'. by rewrite length_mem_read.
Qed.

Lemma image_holds_frame_arg m top img l i a :
  Forall arg_ok l -> fits_int l -> Z.of_nat (length img) = frame_size l ->
  image_holds m top img (area_len l) 0 l -> l !! i = Some a ->
  frame_arg m top img l i (place (u64 (top + Z.of_nat (data_off (area_len l) l i))) a).
Proof.
  intros Hok Hf Himg H Hi. destruct (H i a Hi) as [Hdata Hslot].
  pose proof (Forall_lookup_1 _ _ _ _ Hok Hi) as Ha.
  pose proof (lookup_lt_Some _ _ _ Hi) as Hlt.
  pose proof (data_off_bound (area_len l) l i a Hi) as Hb.
  pose proof (frame_size_spec l) as [Hfs _].
  rewrite Nat.add_0_l in Hslot.
  split; [intros H8; rewrite Hslot by lia; apply slot_bytes_val|].
  destruct a as [t v|d|f|buff len in_ out_ v]; cbn [place]; try done. cbv zeta.
  rewrite frame_offset by (done || lia).
  pose proof (buffer_within_data _ _ _ _ _ Ha) as Hlen. cbn [arg_ok] in Ha.
  split_and!.
  - unfold data_off. lia.
  - lia.
  - rewrite <- (Nat2Z.inj_mod _ 8). unfold data_off, area_len.
    rewrite Nat.Div0.add_mod, div8_data_total by (by apply Forall_take).
    replace (176 + 8 * length l)%nat with ((22 + length l) * 8)%nat by lia.
    by rewrite Nat.Div0.mod_mul.
  - intros ->. rewrite Nat2Z.id, <- (take_arg_data_in m buff len out_ v), <- Hdata by lia.
    rewrite take_take. f_equal. lia.
Qed.

(** What [setup] leaves: the image in a fresh buffer, the previous one released. *)
Lemma setup_image sp c l h :
  arguments c = Some <$> l -> Forall arg_ok l -> fits_int l ->
  (stack_buf c = 0 \/ stack_buf c ∈ h_live h) ->
  exists img c1, getStackImage (h_mem h) sp c = Ret (img, c1) /\
    Z.of_nat (length img) = frame_size l /\
    c1 = mkCallArgs (Some <$> place_all (u64 (sp - frame_size l)) (area_len l) l)
           (u64 (sp - frame_size l)) (frame_size l) (stack_buf c) (any_in 0 l) (any_out l) /\
    setup sp c h = (Ret (set_stack_buf (h_brk h) c1),
      mkHeap (mem_write (h_mem h) (h_brk h) img) (h_brk h + align_up 16 (frame_size l + 1))
        (if stack_buf c =? 0 then {[h_brk h]} ∪ h_live h
         else ({[h_brk h]} ∪ h_live h) ∖ {[stack_buf c]})).
Proof.
  intros Hargs Hok Hf Hbuf.
  destruct (getStackImage_spec (h_mem h) sp c l Hargs Hok Hf) as (img & Himg & Hlen & _).
  eexists img, _. split_and!; [exact Himg|done|done|].
  unfold setup, bind, get, lift. rewrite Himg. cbn [stack_size stack_buf].
  rewrite <- Hlen, Z.eqb_refl. cbn [negb].
  unfold new_char, store, modify, set_h_mem. cbn [h_mem h_brk h_live].
  destruct (Z.eqb_spec (stack_buf c) 0) as [E0|E0]; cbn [negb]; [done|].
  destruct Hbuf as [?|Hlive]; [done|].
  unfold deleteBuffer, bind, delete_char. cbn [stack_buf h_live].
  destruct (Z.eqb_spec (stack_buf c) 0); [done|]. by rewrite decide_True by set_solver.
Qed.

(** *** Arguments made from a list *)

Lemma CallArgs_of_spec c0 args :
  CallArgs_of c0 args = set_arguments (Some <$> (ArgType T_i64 <$> args)) c0.
Proof.
  assert (H : forall l c, foldl (fun c a => push_ (ArgType T_i64 a) c) c l =
    set_arguments (arguments c ++ (Some <$> (ArgType T_i64 <$> l))) c).
  { induction l as [|a l IH]; intros c; cbn [foldl fmap list_fmap].
    - rewrite app_nil_r. by destruct c.
    - rewrite IH. unfold push_, set_arguments. cbn [arguments]. by rewrite <- app_assoc. }
  unfold CallArgs_of. by rewrite H.
Qed.

(** [setup] and the destructor release the buffer whose address the constructor has not
    set: with anything but a null pointer or the address of a live block there, that is
    undefined. *)
Lemma CallArgs_of_unset sp c0 args h :
  Forall (in_type T_i64) args -> Z.of_nat (length args) < 2 ^ 20 ->
  stack_buf c0 <> 0 -> (stack_buf c0 ∉ h_live h) -> stack_buf c0 <> h_brk h ->
  fst (setup sp (CallArgs_of c0 args) h) = Undef /\
  fst (delete_char (stack_buf (CallArgs_of c0 args)) h) = Undef.
Proof.
  intros Hok Hn H0 Hl Hb. rewrite CallArgs_of_spec. set (l := ArgType T_i64 <$> args).
  set (c := set_arguments (Some <$> l) c0).
  assert (Hlen : length l = length args) by apply length_fmap.
  assert (Hd : forall k : list Z, data_total (ArgType T_i64 <$> k) = 0%nat) by (by induction k).
  destruct (getStackImage_spec (h_mem h) sp c l) as (img & Himg & Hi & _); [done| | |].
  { unfold l. clear -Hok. induction Hok as [|a k Ha _ IH]; constructor; [exact Ha|exact IH]. }
  { unfold fits_int, area_len. rewrite Hlen. unfold l. rewrite Hd. lia. }
  split.
  - unfold setup, bind, get, lift. rewrite Himg. cbn [stack_size stack_buf].
    rewrite <- Hi, Z.eqb_refl. cbn [negb].
    unfold new_char, store, modify, set_h_mem. cbn [h_mem h_brk h_live].
    change (stack_buf c) with (stack_buf c0). destruct (Z.eqb_spec (stack_buf c0) 0); [done|]. cbn [negb].
    unfold deleteBuffer, bind, delete_char. cbn [stack_buf h_live].
    destruct (Z.eqb_spec (stack_buf c0) 0); [done|]. by rewrite decide_False by set_solver.
  - change (stack_buf c) with (stack_buf c0). unfold delete_char.
    destruct (Z.eqb_spec (stack_buf c0) 0); [done|]. by rewrite decide_False.
Qed.

(** ** Properties *)

(** C24: [setup] never runs into its assertion.  For arguments that are all set
    and whose frame fits an [int], it returns; the frame is a multiple of 16
    bytes that ends at the stack pointer given; the buffer it leaves in
    [stack_buf] holds the image, no other memory changes, and the previous
    buffer is released. *)
Theorem setup_total sp c l h :
  arguments c = Some <$> l -> Forall arg_ok l -> fits_int l ->
  (stack_buf c = 0 \/ stack_buf c ∈ h_live h) ->
  exists c' h' img,
    setup sp c h = (Ret c', h') /\
    stack_size c' = Z.of_nat (length img) /\ stack_size c' mod 16 = 0 /\
    stack_top c' = u64 (sp - stack_size c') /\
    copied_in c' = any_in 0 l /\ copied_out c' = any_out l /\
    stack_buf c' = h_brk h /\
    mem_read (h_mem h') (stack_buf c') (length img) = img /\
    (forall x, x < h_brk h \/ h_brk h + stack_size c' <= x -> h_mem h' x = h_mem h x) /\
    (stack_buf c <> 0 -> h_live h' = ({[h_brk h]} ∪ h_live h) ∖ {[stack_buf c]}).
Proof.
  intros Hargs Hok Hf Hbuf.
  destruct (setup_image sp c l h Hargs Hok Hf Hbuf) as (img & c1 & _ & Hlen & -> & Es).
  do 3 eexists. split; [exact Es|].
  cbn [stack_size stack_top stack_buf copied_in copied_out set_stack_buf h_mem h_live].
  rewrite Hlen, mem_read_write_same. split_and!; try done.
  - apply frame_size_spec.
  - intros x Hx. apply mem_write_out. lia.
  - intros E0. by destruct (Z.eqb_spec (stack_buf c) 0).
Qed.

(** Two arguments of a call used below: ten arguments, of which one is a buffer
    to be copied in and out. *)
Definition example_args : list ArgBase :=
  ((fun z => ArgType T_i64 z) <$> [11; 12; 13; 14; 15; 16; 17])
  ++ [ArgOnStack 5000 3 true true 0; ArgType T_i32 (-2); ArgOnStack 6000 16 false true 0].

Lemma example_args_ok : Forall arg_ok example_args.
Proof.
  unfold example_args. cbn [fmap list_fmap app].
  repeat (apply List.Forall_cons; [vm_compute; intuition congruence|]). apply List.Forall_nil.
Qed.

Definition example_CallArgs : CallArgs := set_arguments (Some <$> example_args) new_CallArgs.

Definition example_heap : heap := mkHeap (fun x => x mod 256) 8192 ∅.

Lemma setup_total_witness :
  exists c' h' img,
    setup 1000000 example_CallArgs example_heap = (Ret c', h') /\
    stack_size c' = Z.of_nat (length img) /\ stack_size c' mod 16 = 0 /\
    stack_top c' = u64 (1000000 - stack_size c') /\
    copied_in c' = any_in 0 example_args /\ copied_out c' = any_out example_args /\
    stack_buf c' = h_brk example_heap /\
    mem_read (h_mem h') (stack_buf c') (length img) = img /\
    (forall x, x < h_brk example_heap \/ h_brk example_heap + stack_size c' <= x ->
       h_mem h' x = h_mem example_heap x) /\
    (stack_buf example_CallArgs <> 0 ->
     h_live h' = ({[h_brk example_heap]} ∪ h_live example_heap) ∖ {[stack_buf example_CallArgs]}).
Proof.
  apply (setup_total 1000000 example_CallArgs example_args example_heap).
  - reflexivity.
  - exact example_args_ok.
  - vm_compute. reflexivity.
  - left. reflexivity.
Defined.

(** *** What the callee sees *)

Lemma getRegVal_loop_spec l : forall k : nat, (k < 8)%nat ->
  getRegVal_loop (Z.of_nat k) (Some <$> l)
  = Ret ((fun a => u64 (Arg.getRegVal a)) <$> take (8 - k) l).
Proof.
  induction l as [|a l IH]; intros k Hk; [by rewrite take_nil|].
  cbn [fmap list_fmap getRegVal_loop deref obind recast].
  change (list_fmap ArgBase (option ArgBase) Some l) with (Some <$> l).
  unfold NUM_ARGS_ON_REGISTER. destruct (Z.leb_spec 8 (Z.of_nat k + 1)).
  - replace (8 - k)%nat with 1%nat by lia. done.
  - replace (Z.of_nat k + 1) with (Z.of_nat (S k)) by lia. rewrite IH by lia.
    replace (8 - k)%nat with (S (8 - S k)) by lia. done.
Qed.

Lemma getRegVal_spec c l : arguments c = Some <$> l ->
  getRegVal c = Ret ((fun a => u64 (Arg.getRegVal a)) <$> take 8 l).
Proof. intros E. unfold getRegVal. rewrite E. apply (getRegVal_loop_spec l 0). lia. Qed.

Lemma length_place_all top L l : length (place_all top L l) = length l.
Proof. revert L. induction l as [|a l IH]; intros L; simpl; by rewrite ?IH. Qed.

Lemma lookup_place_all_inv top L l i a' :
  place_all top L l !! i = Some a' ->
  exists a, l !! i = Some a /\ a' = place (u64 (top + Z.of_nat (data_off L l i))) a.
Proof.
  intros H. destruct (l !! i) as [a|] eqn:Hi.
  - exists a. split; [done|]. rewrite (lookup_place_all _ _ _ _ _ Hi) in H. by simplify_eq.
  - apply lookup_lt_Some in H. rewrite length_place_all in H.
    apply lookup_ge_None in Hi. lia.
Qed.

(** The arguments of a call as the callee finds them. *)
Lemma call_frame m sp c l img c' :
  arguments c = Some <$> l -> Forall arg_ok l -> fits_int l ->
  getStackImage m sp c = Ret (img, c') ->
  let l' := place_all (stack_top c') (area_len l) l in
  arguments c' = Some <$> l' /\
  getRegVal c' = Ret ((fun a => u64 (Arg.getRegVal a)) <$> take 8 l') /\
  (forall i a', l' !! i = Some a' -> frame_arg m (stack_top c') img l i a').
Proof.
  intros Hargs Hok Hf Himg.
  destruct (getStackImage_spec m sp c l Hargs Hok Hf) as (img' & Himg' & Hlen & Hh).
  rewrite Himg in Himg'. injection Himg' as -> ->. cbn [arguments stack_top].
  split_and!; [done|by apply getRegVal_spec|].
  intros i a' (a & Hi & ->)%lookup_place_all_inv. by apply image_holds_frame_arg.
Qed.



Lemma any_in_false l : forall k,
  (forall j a, l !! j = Some a -> needs_in (Z.of_nat (k + j)) a = false) -> any_in k l = false.
Proof.
  induction l as [|a l IH]; intros k H; [done|]. cbn [any_in].
  pose proof (H 0%nat a eq_refl) as H0. rewrite Nat.add_0_r in H0. rewrite H0.
  apply IH. intros j b Hj. replace (S k + j)%nat with (k + S j)%nat by lia. by apply H.
Qed.

(** An output buffer behind the eighth argument is lost.  When every
    argument that is not an output buffer is in a register, [copied_in] is
    false, so the image is not sent, although it holds the address of each
    output buffer passed as argument 8 or later. *)
Theorem out_argument_beyond_registers_not_sent m sp c l img c' i buff len v :
  arguments c = Some <$> l -> Forall arg_ok l -> fits_int l ->
  getStackImage m sp c = Ret (img, c') ->
  (forall j a, l !! j = Some a ->
     (j < 8)%nat /\ needs_in (Z.of_nat j) a = false \/
     exists b n w, a = ArgOnStack b n false true w) ->
  l !! i = Some (ArgOnStack buff len false true v) -> (8 <= i)%nat ->
  copied_in c' = false /\ copied_out c' = true /\
  exists vemva, arguments c' !! i = Some (Some (ArgOnStack buff len false true vemva)) /\
    le_val (take 8 (drop (176 + 8 * i) img)) = vemva.
Proof.
  intros Hargs Hok Hf Himg Hall Hi H8.
  destruct (getStackImage_spec m sp c l Hargs Hok Hf) as (img' & Himg' & Hlen & Hh).
  rewrite Himg in Himg'. injection Himg' as -> ->.
  cbn [copied_in copied_out arguments]. split_and!.
  - apply any_in_false. intros j a Hj.
    destruct (Hall j a Hj) as [[_ ?]|(b & n & w & ->)]; done.
  - apply existsb_exists. exists (ArgOnStack buff len false true v). split; [|done].
    apply list_elem_of_In, list_elem_of_lookup. by eexists.
  - rewrite list_lookup_fmap, (lookup_place_all _ _ _ _ _ Hi). eexists. split; [done|].
    destruct (Hh i _ Hi) as [_ Hslot]. rewrite Nat.add_0_l in Hslot.
    rewrite Hslot, slot_bytes_val by done. cbn [slot_val slot_size place].
    apply Z.mod_small, u64_range.
Qed.

Definition example_out_args : list ArgBase :=
  replicate 8 (ArgType T_i64 1) ++ [ArgOnStack 5000 8 false true 0].

Lemma example_out_args_ok : Forall arg_ok example_out_args.
Proof.
  unfold example_out_args. cbn [replicate app].
  repeat (apply List.Forall_cons; [vm_compute; intuition congruence|]). apply List.Forall_nil.
Qed.

Lemma out_argument_beyond_registers_not_sent_witness :
  exists img c',
    getStackImage (fun _ => 0) 1000000 (set_arguments (Some <$> example_out_args) new_CallArgs)
      = Ret (img, c') /\
    copied_in c' = false /\ copied_out c' = true /\
    exists vemva, arguments c' !! 8%nat = Some (Some (ArgOnStack 5000 8 false true vemva)) /\
      le_val (take 8 (drop (176 + 8 * 8) img)) = vemva.
Proof.
  eexists _, _. split; [vm_compute; reflexivity|].
  eapply (out_argument_beyond_registers_not_sent (fun _ => 0) 1000000
    (set_arguments (Some <$> example_out_args) new_CallArgs) example_out_args).
  - reflexivity.
  - exact example_out_args_ok.
  - vm_compute. reflexivity.
  - vm_compute. reflexivity.
  - intros j a Hj. do 8 (destruct j as [|j]; [left; simplify_eq/=; split; [lia|done]|]).
    destruct j as [|j]; [right; simplify_eq/=; by do 3 eexists|done].
  - reflexivity.
  - lia.
Defined.

(** *** Frames beyond the range of an [int] *)

Lemma i32_u64 z : i32 (u64 z) = i32 z.
Proof.
  unfold i32, u64. cbv zeta.
  replace (2 ^ 64) with (2 ^ 32 * 2 ^ 32) by lia.
  assert ((z mod (2 ^ 32 * 2 ^ 32)) mod 2 ^ 32 = z mod 2 ^ 32) as ->; [|done].
  rewrite Z.rem_mul_r by lia.
  rewrite Z.mul_comm, Z_mod_plus_full. apply Z.mod_mod. lia.
Qed.

Lemma i32_add_l a b : i32 (i32 a + b) = i32 (a + b).
Proof.
  assert (H : i32 a mod 2 ^ 32 = a mod 2 ^ 32).
  { unfold i32. cbv zeta. destruct (a mod 2 ^ 32 <? 2 ^ 31); [by rewrite Z.mod_mod by lia|].
    replace (a mod 2 ^ 32 - 2 ^ 32) with (a mod 2 ^ 32 + (-1) * 2 ^ 32) by lia.
    rewrite Z_mod_plus_full. by rewrite Z.mod_mod by lia. }
  unfold i32 at 1 3. cbv zeta.
  by rewrite <- (Zplus_mod_idemp_l (i32 a)), H, Zplus_mod_idemp_l.
Qed.

(** The [int] sum of the sizes, whatever they are. *)
Lemma accumulate_size_wraps l : forall acc, in_i32 acc -> Forall arg_ok l ->
  accumulate_size acc (Some <$> l) = Ret (i32 (acc + Z.of_nat (data_total l))).
Proof.
  induction l as [|a l IH]; intros acc Hacc Hok.
  { simpl. f_equal. rewrite i32_small; unfold in_i32, data_total in *; simpl; lia. }
  apply Forall_cons_iff in Hok as [Ha Hok]. rewrite data_total_cons.
  cbn [fmap list_fmap accumulate_size deref obind recast].
  change (list_fmap ArgBase (option ArgBase) Some l) with (Some <$> l).
  rewrite IH by (done || apply i32_range).
  rewrite u64_add_l, i32_u64, <- (data_len_Z a), i32_add_l by done.
  do 2 f_equal. lia.
Qed.

(** The frame size computed from a negative sum is no size of an image. *)
Lemma frame_size_wrapped isum : - 2 ^ 31 <= isum < 0 ->
  let size := u64 (u64 (u64 isum + 15) / 16 * 16) in size = 0 \/ 2 ^ 63 <= size.
Proof.
  intros H. cbv zeta. assert (u64 isum = isum + 2 ^ 64) as ->.
  { unfold u64. rewrite <- (Z_mod_plus_full isum 1). apply Z.mod_small. lia. }
  destruct (decide (isum < -15)).
  - right. rewrite (u64_small (_ + 15)) by lia.
    pose proof (align_up_spec 16 (isum + 2 ^ 64) ltac:(lia)) as [Ha _].
    unfold align_up in Ha. change (16 - 1) with 15 in Ha. 
    assert ((isum + 2 ^ 64 + 15) / 16 * 16 < 2 ^ 64).
    { assert ((isum + 2 ^ 64 + 15) / 16 < 2 ^ 60); [|lia]. apply Z.div_lt_upper_bound; lia. }
    rewrite u64_small; lia.
  - left. assert (u64 (isum + 2 ^ 64 + 15) = isum + 15) as ->.
    { unfold u64. replace (isum + 2 ^ 64 + 15) with (isum + 15 + 1 * 2 ^ 64) by lia.
      rewrite Z_mod_plus_full. apply Z.mod_small. lia. }
    by rewrite Z.div_small by lia.
Qed.

(** Arguments of 2 GiB and more stop the program.  The sizes are summed up
    in an [int]; when the buffers take between 2^31 and 2^32 bytes (less the
    parameter area) the sum is negative, the frame size differs from the size
    of the image and the assertion of [setup] calls [abort()] instead of an
    error being returned. *)
Theorem setup_aborts_beyond_int sp c l h :
  arguments c = Some <$> l -> Forall arg_ok l ->
  2 ^ 31 <= Z.of_nat (data_total l) -> Z.of_nat (area_len l + data_total l) < 2 ^ 32 ->
  Z.of_nat (length l) < 2 ^ 20 ->
  setup sp c h = (Abort_, h).
Proof.
  intros Hargs Hok Hlo Hhi Hn. unfold area_len in Hhi.
  assert (Hna : numArgs c = Z.of_nat (length l)) by (apply numArgs_exact; [done|lia]).
  unfold setup, bind, get, lift, getStackImage.
  rewrite Hargs, accumulate_size_wraps by (done || (unfold in_i32; lia)).
  rewrite Z.add_0_l, i32_upper_half by lia. cbn [obind recast]. rewrite Hna.
  set (fixed := PARAM_AREA_OFFSET + 8 * Z.of_nat (length l)).
  assert (Hfix : fixed = Z.of_nat (area_len l)) by (unfold fixed, area_len, PARAM_AREA_OFFSET; lia).
  assert (Hfixr : 0 <= fixed < 2 ^ 24) by (unfold fixed, PARAM_AREA_OFFSET; lia).
  set (isum := fixed + (Z.of_nat (data_total l) - 2 ^ 32)).
  assert (Hisum : - 2 ^ 31 <= isum < 0)
    by (unfold isum, fixed, PARAM_AREA_OFFSET; lia).
  assert ((fixed <? 2 ^ 31) && (- 2 ^ 31 <=? isum) && (isum <? 2 ^ 31) = true) as ->.
  { rewrite !andb_true_iff, !Z.ltb_lt, Z.leb_le. lia. }
  cbn [negb].
  set (size := u64 (u64 (u64 isum + 15) / 16 * 16)).
  set (top := u64 (sp - size)). set (zs := replicate (Z.to_nat fixed) 0).
  assert (Hzs : length zs = area_len l) by (unfold zs; rewrite length_replicate; lia).
  destruct (image_loop_spec (h_mem h) top (length l) l zs 0 false false Hok)
    as (s & E & L & _ & _); [lia|rewrite Hzs; unfold area_len; lia|].
  change (Z.of_nat 0) with 0 in E. rewrite E. cbn [obind recast stack_size].
  assert (Hs : 2 ^ 31 <= Z.of_nat (length s) < 2 ^ 33) by (rewrite L, Hzs; unfold area_len; lia).
  set (grow := (Z.of_nat (length s) + 15) / 16 * 16 - Z.of_nat (length s)).
  assert (Hg : 0 <= grow < 16).
  { pose proof (align_up_spec 16 (Z.of_nat (length s)) ltac:(lia)) as [H _].
    unfold align_up in H. change (16 - 1) with 15 in H. unfold grow. lia. }
  set (img := if grow =? 0 then s else s ++ replicate (Z.to_nat grow) 0).
  assert (Hne : (size =? Z.of_nat (length img)) = false).
  { apply Z.eqb_neq. pose proof (frame_size_wrapped isum Hisum) as Hsz. cbv zeta in Hsz. fold size in Hsz.
    unfold img. destruct (grow =? 0); rewrite ?length_app, ?length_replicate; lia. }
  rewrite Hne. done.
Qed.

Lemma data_total_single a : arg_ok a -> Z.of_nat (data_total [a]) = Arg.sizeOnStack a.
Proof.
  intros Ha. rewrite data_total_cons. change (data_total []) with 0%nat.
  rewrite Nat.add_0_r. by apply data_len_Z.
Qed.

Lemma setup_aborts_beyond_int_witness :
  setup 1000000 (set_arguments [Some (ArgOnStack 5000 (2 ^ 31) true false 0)] new_CallArgs)
    example_heap = (Abort_, example_heap).
Proof.
  assert (Hok : arg_ok (ArgOnStack 5000 (2 ^ 31) true false 0)) by (unfold arg_ok; lia).
  apply (setup_aborts_beyond_int 1000000 _ [ArgOnStack 5000 (2 ^ 31) true false 0] example_heap).
  - reflexivity.
  - apply List.Forall_cons; [exact Hok|apply List.Forall_nil].
  - rewrite data_total_single by exact Hok. vm_compute. discriminate.
  - rewrite Nat2Z.inj_add, data_total_single by exact Hok. vm_compute. reflexivity.
  - vm_compute. reflexivity.
Defined.

(** *** Copying the output buffers back *)

Definition copies (top : Z) (l : list ArgBase) : list Arg.out_copy :=
  l ≫= (fun a => default [] (Arg.copyoutFromStackImage a top)).

Lemma copyout_funcs_spec top l : copyout_funcs top (Some <$> l) = Ret (copies top l).
Proof.
  induction l as [|a l IH]; [done|].
  cbn [fmap list_fmap copyout_funcs].
  change (list_fmap ArgBase (option ArgBase) Some l) with (Some <$> l).
  rewrite IH. unfold copies. cbn [obind recast mbind list_bind].
  by destruct (Arg.copyoutFromStackImage a top).
Qed.

Lemma copies_not_out top l : any_out l = false -> copies top l = [].
Proof.
  induction l as [|a l IH]; [done|]. unfold any_out. cbn [existsb].
  rewrite orb_false_iff. intros [Ha Hl]. unfold copies in *. cbn [mbind list_bind].
  change (list_bind _ _ (fun a => default [] (Arg.copyoutFromStackImage a top)) l)
    with (l ≫= (fun a => default [] (Arg.copyoutFromStackImage a top))).
  rewrite IH, app_nil_r by done. destruct a as [| | |b n i o v]; try done. simpl in *. by subst.
Qed.

Lemma copyout_spec c l : arguments c = Some <$> l -> copied_out c = any_out l ->
  copyout c = Ret (copies (stack_top c) l).
Proof.
  intros E Ho. unfold copyout. rewrite Ho, E. destruct (any_out l) eqn:Hany.
  - apply copyout_funcs_spec.
  - by rewrite copies_not_out.
Qed.

Lemma elem_of_copies top l f :
  f ∈ copies top l <->
  exists i buff len in_ vemva, l !! i = Some (ArgOnStack buff len in_ true vemva) /\
    f = Arg.mkOutCopy top buff len vemva.
Proof.
  unfold copies. rewrite list_elem_of_bind. split.
  - intros (a & Hf & (i & Hi)%list_elem_of_lookup).
    destruct a as [| | |b n j o v]; try set_solver. destruct o; [|set_solver].
    apply list_elem_of_singleton in Hf. by exists i, b, n, j, v.
  - intros (i & b & n & j & v & Hi & ->).
    exists (ArgOnStack b n j true v). split; [by apply list_elem_of_singleton|].
    apply list_elem_of_lookup. by exists i.
Qed.

(** The area of the VH that a copy writes. *)
Definition copy_area (f : Arg.out_copy) : Z * Z := (Arg.oc_buff f, Arg.oc_len f).

Definition in_area (r : Z * Z) (x : Z) : Prop := fst r <= x < fst r + snd r.

Definition copy_off (f : Arg.out_copy) : Z := u64 (Arg.oc_vemva f - Arg.oc_top f).

(** The bytes of the returned frame that belong to a copy. *)
Definition copy_src (pl : list Z) (f : Arg.out_copy) : list Z :=
  take (Z.to_nat (Arg.oc_len f)) (drop (Z.to_nat (copy_off f)) pl).

Definition areas_disjoint (rs : list (Z * Z)) : Prop :=
  forall i j r q x, i <> j -> rs !! i = Some r -> rs !! j = Some q ->
    in_area r x -> in_area q x -> False.

Lemma areas_disjoint_cons r rs : areas_disjoint (r :: rs) ->
  areas_disjoint rs /\ forall q x, q ∈ rs -> in_area r x -> in_area q x -> False.
Proof.
  intros H. split.
  - intros i j a b x Hij Hi Hj. apply (H (S i) (S j)); [lia|done..].
  - intros q x (i & Hi)%list_elem_of_lookup. apply (H 0%nat (S i)); done.
Qed.

(** The VH buffers of intent OUT and INOUT of a list of arguments. *)
Definition out_areas (l : list ArgBase) : list (Z * Z) :=
  l ≫= (fun a => match a with ArgOnStack b n _ true _ => [(b, n)] | _ => [] end).

Lemma copy_areas_place_all top t L l :
  copy_area <$> copies t (place_all top L l) = out_areas l.
Proof.
  revert L. induction l as [|a l IH]; intros L; [done|].
  cbn [place_all]. unfold copies, out_areas in *. rewrite !bind_cons, fmap_app, IH. f_equal.
  destruct a as [| | |b n i [] v]; done.
Qed.

Lemma any_out_place_all top L l : any_out (place_all top L l) = any_out l.
Proof.
  revert L. unfold any_out. induction l as [|a l IH]; intros L; [done|].
  cbn [place_all existsb]. rewrite IH. by destruct a.
Qed.

Lemma run_copyout_spec pl fs : forall h,
  (forall f, f ∈ fs -> 0 <= Arg.oc_len f /\ copy_off f + Arg.oc_len f <= Z.of_nat (length pl)) ->
  areas_disjoint (copy_area <$> fs) ->
  exists m', run_copyout (FromBytes pl) fs h = (Ret tt, set_h_mem m' h) /\
    (forall f, f ∈ fs ->
       mem_read m' (Arg.oc_buff f) (Z.to_nat (Arg.oc_len f)) = copy_src pl f) /\
    (forall x, (forall f, f ∈ fs -> ~ in_area (copy_area f) x) -> m' x = h_mem h x).
Proof.
  induction fs as [|f fs IH]; intros h Hin Hdis.
  { exists (h_mem h). split_and!; [by destruct h|set_solver|done]. }
  apply areas_disjoint_cons in Hdis as [Hdis Hf].
  assert (Hhere : forall g, g = f \/ g ∈ fs -> g ∈ f :: fs) by (intros g; apply elem_of_cons).
  destruct (Hin f) as [Hl Hb]; [auto|].
  assert (Hoff : 0 <= copy_off f) by apply u64_range.
  assert (Hlen : length (copy_src pl f) = Z.to_nat (Arg.oc_len f)).
  { unfold copy_src. rewrite length_take, length_drop. lia. }
  destruct (IH (set_h_mem (mem_write (h_mem h) (Arg.oc_buff f) (copy_src pl f)) h))
    as (m' & E & Hr & Ho); [auto|done|].
  exists m'. split_and!.
  - cbn [run_copyout]. unfold bind, get, lift, payload_read. fold (copy_off f).
    assert ((0 <=? copy_off f)
      && (copy_off f + Z.of_nat (Z.to_nat (Arg.oc_len f)) <=? Z.of_nat (length pl)) = true) as ->.
    { rewrite andb_true_iff, !Z.leb_le. lia. }
    fold (copy_src pl f). unfold store, modify. rewrite E. by destruct h.
  - intros g [->|Hg]%elem_of_cons; [|by apply Hr].
    rewrite <- Hlen. etrans; [|apply (mem_read_write_same (h_mem h) (Arg.oc_buff f))].
    apply mem_read_ext. intros x Hx. apply Ho. intros g Hg Hga.
    apply (Hf (copy_area g) x); [by apply list_elem_of_fmap_2| |done].
    unfold in_area, copy_area. simpl. lia.
  - intros x Hx. rewrite Ho by auto.
    apply mem_write_out. rewrite Hlen.
    assert (Hnx : ~ in_area (copy_area f) x) by auto. unfold in_area, copy_area in Hnx.
    simpl in Hnx. lia.
Qed.

Lemma copyout_writes m sp c l img c' pl h :
  arguments c = Some <$> l -> Forall arg_ok l -> fits_int l ->
  getStackImage m sp c = Ret (img, c') ->
  Z.of_nat (length pl) = stack_size c' ->
  areas_disjoint (out_areas l) ->
  exists fs m',
    copyout c' = Ret fs /\
    run_copyout (FromBytes pl) fs h = (Ret tt, set_h_mem m' h) /\
    (forall i buff len in_ vemva,
       arguments c' !! i = Some (Some (ArgOnStack buff len in_ true vemva)) ->
       mem_read m' buff (Z.to_nat len)
       = take (Z.to_nat len) (drop (Z.to_nat (u64 (vemva - stack_top c'))) pl)) /\
    (forall x,
       (forall i buff len in_ vemva,
          arguments c' !! i = Some (Some (ArgOnStack buff len in_ true vemva)) ->
          ~ (buff <= x < buff + len)) ->
       m' x = h_mem h x).
Proof.
  intros Hargs Hok Hf Himg Hpl Hdis.
  destruct (getStackImage_spec m sp c l Hargs Hok Hf) as (img' & Himg' & Hlen & Hh).
  rewrite Himg in Himg'. injection Himg' as -> ->.
  cbn [arguments stack_top stack_size] in *.
  set (top := u64 (sp - frame_size l)) in *. set (l' := place_all top (area_len l) l) in *.
  exists (copies top l').
  destruct (run_copyout_spec pl (copies top l') h) as (m' & E & Hr & Ho).
  - intros f (i & b & n & j & v & Hi & ->)%elem_of_copies.
    apply lookup_place_all_inv in Hi as (a & Hi & Ea).
    pose proof (image_holds_frame_arg m top img' l i a Hok Hf Hlen Hh Hi) as [_ Hfa].
    pose proof (Forall_lookup_1 _ _ _ _ Hok Hi) as Ha.
    rewrite <- Ea in Hfa. unfold copy_off. cbn [Arg.oc_len Arg.oc_vemva Arg.oc_top].
    destruct a; simplify_eq/=. lia.
  - unfold l'. by rewrite copy_areas_place_all.
  - exists m'. split_and!.
    + rewrite (copyout_spec _ l'); [done|done|]. symmetry. apply any_out_place_all.
    + done.
    + intros i b n j v Hi. rewrite list_lookup_fmap in Hi.
      destruct (l' !! i) as [a|] eqn:Ei; simplify_eq/=.
      apply (Hr (Arg.mkOutCopy top b n v)). apply elem_of_copies. by exists i, b, n, j, v.
    + intros x Hx. apply Ho. intros f (i & b & n & j & v & Hi & ->)%elem_of_copies Hfx.
      apply (Hx i b n j v); [|done]. by rewrite list_lookup_fmap, Hi.
Qed.

(** C16: the output buffers receive their part of the frame.  Let a call have its
    frame laid out by [getStackImage], and let [pl] be the frame as the VE sent
    it back.  When no two output buffers overlap, the function [copyout] makes
    returns, puts into each buffer of intent OUT or INOUT exactly the bytes of
    the frame at the address the callee was given for it, and changes no other
    byte of the VH. *)
Theorem copyout_delivers m sp c l img c' pl h :
  arguments c = Some <$> l -> Forall arg_ok l -> fits_int l ->
  getStackImage m sp c = Ret (img, c') ->
  Z.of_nat (length pl) = stack_size c' ->
  areas_disjoint (out_areas l) ->
  exists fs m',
    copyout c' = Ret fs /\
    run_copyout (FromBytes pl) fs h = (Ret tt, set_h_mem m' h) /\
    (forall i buff len in_ vemva,
       arguments c' !! i = Some (Some (ArgOnStack buff len in_ true vemva)) ->
       mem_read m' buff (Z.to_nat len)
       = take (Z.to_nat len) (drop (Z.to_nat (u64 (vemva - stack_top c'))) pl)) /\
    (forall x,
       (forall i buff len in_ vemva,
          arguments c' !! i = Some (Some (ArgOnStack buff len in_ true vemva)) ->
          ~ (buff <= x < buff + len)) ->
       m' x = h_mem h x).
Proof. apply copyout_writes. Qed.

Lemma example_out_areas_disjoint : areas_disjoint (out_areas example_args).
Proof.
  intros i j r q x Hij Hi Hj. change (out_areas example_args) with [(5000, 3); (6000, 16)] in *.
  destruct i as [|[|i]], j as [|[|j]]; simplify_eq/=; unfold in_area; simpl; lia.
Qed.

Lemma copyout_delivers_witness :
  exists img c',
    getStackImage (h_mem example_heap) 1000000 example_CallArgs = Ret (img, c') /\
  exists fs m',
    copyout c' = Ret fs /\
    run_copyout (FromBytes (replicate 288 7)) fs example_heap = (Ret tt, set_h_mem m' example_heap) /\
    (forall i buff len in_ vemva,
       arguments c' !! i = Some (Some (ArgOnStack buff len in_ true vemva)) ->
       mem_read m' buff (Z.to_nat len)
       = take (Z.to_nat len) (drop (Z.to_nat (u64 (vemva - stack_top c'))) (replicate 288 7))) /\
    (forall x,
       (forall i buff len in_ vemva,
          arguments c' !! i = Some (Some (ArgOnStack buff len in_ true vemva)) ->
          ~ (buff <= x < buff + len)) ->
       m' x = h_mem example_heap x).
Proof.
  eexists _, _. split; [vm_compute; reflexivity|].
  eapply (copyout_delivers (h_mem example_heap) 1000000 example_CallArgs example_args).
  - reflexivity.
  - exact example_args_ok.
  - vm_compute. reflexivity.
  - vm_compute. reflexivity.
  - vm_compute. reflexivity.
  - exact example_out_areas_disjoint.
Defined.
