(* ===== verification/Command.v ===== *)
(** * Commands and command queues

    Models [Command.hpp], [Command.cpp] and [CommandImpl.hpp], with the
    constants of [ve_offload.h] and [veo_urpc.h] they and their users need.

    A [Command] of the source holds two function objects made by lambda
    expressions.  Here it holds a [closure]: one constructor per place of the
    source that creates a command, with the captured variables as arguments.
    What the lambdas do is in [Context.v]. *)

From Stdlib Require Import ZArith Lia Bool.
From stdpp Require Import base gmap list numbers sets strings.
From S2P Require Import Prelude CallArgs.

Open Scope Z_scope.

(** ** Constants *)

Definition VEO_REQUEST_ID_INVALID : Z := 2 ^ 64 - 1.

(** [enum veo_command_state] *)
Definition VEO_COMMAND_OK : Z := 0.
Definition VEO_COMMAND_EXCEPTION : Z := 1.
Definition VEO_COMMAND_ERROR : Z := 2.
Definition VEO_COMMAND_UNFINISHED : Z := 3.

(** [enum veo_context_state] *)
Inductive veo_context_state :=
  | VEO_STATE_UNKNOWN | VEO_STATE_RUNNING | VEO_STATE_SYSCALL | VEO_STATE_BLOCKED | VEO_STATE_EXIT.

#[export] Instance veo_context_state_eq_dec : EqDecision veo_context_state.
Proof. solve_decision. Defined.

(** [enum veo_urpc_cmd] *)
Definition URPC_CMD_NONE_ : Z := 0.
Definition URPC_CMD_PING : Z := 1.
Definition URPC_CMD_EXIT : Z := 2.
Definition URPC_CMD_ACK : Z := 3.
Definition URPC_CMD_RESULT : Z := 4.
Definition URPC_CMD_RES_STK : Z := 5.
Definition URPC_CMD_EXCEPTION : Z := 6.
Definition URPC_CMD_LOADLIB : Z := 7.
Definition URPC_CMD_UNLOADLIB : Z := 8.
Definition URPC_CMD_GETSYM : Z := 9.
Definition URPC_CMD_ALLOC : Z := 10.
Definition URPC_CMD_FREE : Z := 11.
Definition URPC_CMD_SENDBUFF : Z := 12.
Definition URPC_CMD_RECVBUFF : Z := 13.
Definition URPC_CMD_CALL : Z := 14.
Definition URPC_CMD_CALL_STKIN : Z := 15.
Definition URPC_CMD_CALL_STKOUT : Z := 16.
Definition URPC_CMD_CALL_STKINOUT : Z := 17.
Definition URPC_CMD_SLEEPING : Z := 18.
Definition URPC_CMD_NEWPEER : Z := 19.
Definition URPC_CMD_ACS_PCIRCVSYC : Z := 20.
Definition URPC_CMD_MEMCPY : Z := 21.

(** ** Commands *)

(** An argument of [urpc_generic_send] as the caller passes it: a number, or a
    pointer and a size. *)
Inductive send_arg := SA_L (v : Z) | SA_P (ptr size : Z).

(** The functions a VH command can be asked to call: the one of [synchronize], the
    helpers [_alloc_mem_async_hook] and [_free_mem_async_hook] of the API, and those of
    the application. *)
Inductive vh_func :=
  | synchronize_func
  | alloc_mem_async_hook
  | free_mem_async_hook
  | user_func (addr : Z).

#[export] Instance vh_func_eq_dec : EqDecision vh_func.
Proof. solve_decision. Defined.

Inductive closure :=
  (** [Context::simpleCallAsync]; [stack_] is null when the result function owns the stack *)
  | C_call (regs : list Z) (stack_top stack_size : Z) (copyin copyout : bool) (stack addr : Z)
      (copyout_func : option (list Arg.out_copy)) (stack_ : Z)
  (** [Context::genericAsyncReq] *)
  | C_generic (urpc_cmd : Z) (fmt : string) (args : list send_arg)
  (** [Context::sendBuffAsync] *)
  | C_sendbuff (dst src size prev : Z)
  (** [Context::recvBuffAsync] *)
  | C_recvbuff (dst src size prev : Z)
  (** the command of [asyncReadMem] and [asyncWriteMem] for an empty transfer *)
  | C_empty
  (** [Context::doCallAsync], large arguments *)
  | C_largecall (writereq callreq readreq stack : Z) (copyout : bool)
      (copyout_func : option (list Arg.out_copy))
  (** [Context::callVHAsync] *)
  | C_vh (func : vh_func) (arg : Z).

(** The value of a member that no constructor initialises. *)
Class Indet := indet : Z.

Record Command := mkCommand {
  msgid : Z;
  retval : Z;
  urpc_req : Z;
  status : Z;
  nowait : bool;
  is_vh : bool;
  code : closure;
}.

Section Members.
Context `{Indet}.

(** [CommandImpl(id, h)] and [CommandImpl(id, h, u)] *)
Definition CommandImpl_vh (id : Z) (h : closure) : Command :=
  mkCommand id indet indet indet false true h.
Definition CommandImpl_ve (id : Z) (fu : closure) : Command :=
  mkCommand id indet indet indet false false fu.
End Members.

Definition setURPCReq (req s : Z) (c : Command) : Command :=
  mkCommand (msgid c) (retval c) req s (nowait c) (is_vh c) (code c).
Definition setResult (r s : Z) (c : Command) : Command :=
  mkCommand (msgid c) (u64 r) (urpc_req c) s (nowait c) (is_vh c) (code c).
Definition setNowaitFlag (flg : bool) (c : Command) : Command :=
  mkCommand (msgid c) (retval c) (urpc_req c) (status c) flg (is_vh c) (code c).

(** ** [BlockingQueue]: a [std::deque] *)
Module BlockingQueue.

Definition push (c : Command) (q : list Command) : list Command := q ++ [c].
Definition push_front (c : Command) (q : list Command) : list Command := c :: q.

Fixpoint tryFind (id : Z) (q : list Command) : option Command * list Command :=
  match q with
  | [] => (None, [])
  | c :: q' =>
      if msgid c =? id then (Some c, q')
      else let '(r, q'') := tryFind id q' in (r, c :: q'')
  end.

Definition popNoWait (q : list Command) : option Command * list Command :=
  match q with
  | [] => (None, [])
  | c :: q' => (Some c, q')
  end.

Definition empty (q : list Command) : bool := match q with [] => true | _ => false end.
Definition size (q : list Command) : Z := Z.of_nat (length q).

End BlockingQueue.

(** ** [BlockingMap]: a [std::unordered_map] under a mutex *)

(** The element [map.begin()] refers to is not specified. *)
Class BucketOrder := {
  map_begin : gmap Z Command -> option (Z * Command);
  map_begin_elem : forall m k c, map_begin m = Some (k, c) -> m !! k = Some c;
  map_begin_end : forall m, map_begin m = None -> m = ∅;
}.

Module BlockingMap.

(** [map.insert(make_pair(id, cmd))] leaves an element with that key in place. *)
Definition insert_id (id : Z) (c : Command) (m : gmap Z Command) : gmap Z Command :=
  match m !! u64 id with
  | Some _ => m
  | None => <[u64 id := c]> m
  end.

Definition insert (c : Command) (m : gmap Z Command) : gmap Z Command := insert_id (msgid c) c m.

Definition tryFindNoWait (id : Z) (m : gmap Z Command) : option Command * gmap Z Command :=
  match m !! u64 id with
  | None => (None, m)
  | Some c => (Some c, delete (u64 id) m)
  end.

Definition tryFind (id : Z) (m : gmap Z Command) : option Command * gmap Z Command :=
  tryFindNoWait id m.

(** [wait]: the command, or [None] while the caller sleeps on the condition. *)
Definition wait (id : Z) (m : gmap Z Command) : option (Command * gmap Z Command) :=
  match tryFindNoWait id m with
  | (Some c, m') => Some (c, m')
  | (None, _) => None
  end.

Definition popNoWait `{BucketOrder} (m : gmap Z Command) : option Command * gmap Z Command :=
  match map_begin m with
  | Some (id, c) => (Some c, delete id m)
  | None => (None, m)
  end.

Definition empty (m : gmap Z Command) : bool := if decide (m = ∅) then true else false.
Definition size (m : gmap Z Command) : Z := Z.of_nat (stdpp.base.size m).

End BlockingMap.

(** ** [CommQueue] *)

Record CommQueue := mkCommQueue {
  request : list Command;
  inflight : gmap Z Command;
  completion : gmap Z Command;
  terminateFlag : bool;
}.

Definition new_CommQueue : CommQueue := mkCommQueue [] ∅ ∅ false.

Definition set_request (r : list Command) (q : CommQueue) : CommQueue :=
  mkCommQueue r (inflight q) (completion q) (terminateFlag q).
Definition set_inflight (m : gmap Z Command) (q : CommQueue) : CommQueue :=
  mkCommQueue (request q) m (completion q) (terminateFlag q).
Definition set_completion (m : gmap Z Command) (q : CommQueue) : CommQueue :=
  mkCommQueue (request q) (inflight q) m (terminateFlag q).

Module CommQueueOps.

Definition pushRequest (c : Command) : M CommQueue Z :=
  modify (fun q => set_request (BlockingQueue.push c (request q)) q) ;;; ret 0.

Definition pushRequestFront (c : Command) : M CommQueue unit :=
  modify (fun q => set_request (BlockingQueue.push_front c (request q)) q).

Definition tryPopRequest : M CommQueue (option Command) := fun q =>
  let '(r, l) := BlockingQueue.popNoWait (request q) in (Ret r, set_request l q).

(** [waitRequest]: sleeps while there is nothing to do; woken up, it returns
    without testing the queues again. *)
Definition waitRequest : M CommQueue bool := fun q =>
  if BlockingQueue.empty (request q) && BlockingMap.empty (inflight q) && negb (terminateFlag q)
  then (Blocked, q)
  else (Ret (negb (terminateFlag q)), q).

Definition emptyRequest (q : CommQueue) : bool := BlockingQueue.empty (request q).
Definition emptyInFlight (q : CommQueue) : bool := BlockingMap.empty (inflight q).
Definition isActive (q : CommQueue) : bool :=
  negb (BlockingMap.empty (inflight q)) || negb (BlockingQueue.empty (request q)).

Definition pushInFlight (c : Command) : M CommQueue unit :=
  modify (fun q => set_inflight (BlockingMap.insert_id (urpc_req c) c (inflight q)) q).

Definition popInFlight (id : Z) : M CommQueue (option Command) := fun q =>
  let '(r, m) := BlockingMap.tryFind id (inflight q) in (Ret r, set_inflight m q).

Definition pushCompletion (c : Command) : M CommQueue unit :=
  modify (fun q => set_completion (BlockingMap.insert c (completion q)) q).

Definition peekCompletion (id : Z) : M CommQueue (option Command) := fun q =>
  let '(r, m) := BlockingMap.tryFind id (completion q) in (Ret r, set_completion m q).

Definition waitCompletion (id : Z) : M CommQueue Command := fun q =>
  match BlockingMap.wait id (completion q) with
  | Some (c, m) => (Ret c, set_completion m q)
  | None => (Blocked, q)
  end.

(** The two loops of [cancelAll], with as many rounds as there are commands. *)
Fixpoint cancel_requests (n : nat) (q : CommQueue) : CommQueue :=
  match n with
  | O => q
  | S n' =>
      match BlockingQueue.popNoWait (request q) with
      | (None, _) => q
      | (Some c, l) =>
          let c := setResult 0 VEO_COMMAND_ERROR c in
          cancel_requests n'
            (set_completion (BlockingMap.insert c (completion q)) (set_request l q))
      end
  end.

Fixpoint cancel_inflight `{BucketOrder} (n : nat) (q : CommQueue) : CommQueue :=
  match n with
  | O => q
  | S n' =>
      match BlockingMap.popNoWait (inflight q) with
      | (None, _) => q
      | (Some c, m) =>
          let c := setResult 0 VEO_COMMAND_ERROR c in
          cancel_inflight n'
            (set_completion (BlockingMap.insert c (completion q)) (set_inflight m q))
      end
  end.

Definition cancelAll `{BucketOrder} : M CommQueue unit :=
  modify (fun q =>
    let q := cancel_requests (S (length (request q))) q in
    cancel_inflight (S (size (inflight q))) q).

(** Whether [notifyAll] signals the condition the progress thread waits on. *)
Definition notifyAll (q : CommQueue) : bool := negb (BlockingQueue.empty (request q)).

(** It sets the flag and wakes the progress thread up in any case ([notifyAllForce]). *)
Definition terminate : M CommQueue unit :=
  modify (fun q => mkCommQueue (request q) (inflight q) (completion q) true).

End CommQueueOps.

(** ** Conservation of commands

    [tokens q] lists the IDs of the commands the queue holds, wherever they
    are.  The operations move commands between the three containers: they
    permute this list. *)

Definition map_ids (m : gmap Z Command) : list Z := (fun kc => msgid (snd kc)) <$> map_to_list m.

Definition tokens (q : CommQueue) : list Z :=
  (msgid <$> request q) ++ map_ids (inflight q) ++ map_ids (completion q).

(** The queue is in order, with the commands of IDs [hand] being worked on
    outside it. *)
Record queue_ok (hand : list Z) (q : CommQueue) : Prop := {
  qok_nodup : NoDup (hand ++ tokens q);
  qok_range : Forall in_u64 (hand ++ tokens q);
  qok_completion : forall k c, completion q !! k = Some c -> k = msgid c;
  qok_inflight : forall k c, inflight q !! k = Some c -> k = u64 (urpc_req c);
}.

Section MapIds.
Implicit Types (m : gmap Z Command) (c : Command).

Lemma map_ids_empty : map_ids ∅ = [].
Proof. unfold map_ids. by rewrite map_to_list_empty. Qed.

Lemma map_ids_insert m k c : m !! k = None -> map_ids (<[k := c]> m) ≡ₚ msgid c :: map_ids m.
Proof. intros H. unfold map_ids. by rewrite map_to_list_insert. Qed.

Lemma map_ids_delete m k c : m !! k = Some c -> map_ids m ≡ₚ msgid c :: map_ids (delete k m).
Proof.
  intros H. rewrite <- (insert_delete_id m k c H) at 1.
  apply map_ids_insert, lookup_delete_eq.
Qed.

Lemma elem_of_map_ids m id :
  id ∈ map_ids m <-> exists k c, m !! k = Some c /\ msgid c = id.
Proof.
  unfold map_ids. rewrite list_elem_of_fmap. split.
  - intros ([k c] & -> & H%elem_of_map_to_list). by exists k, c.
  - intros (k & c & H & <-). exists (k, c). by rewrite elem_of_map_to_list.
Qed.

Lemma map_ids_keyed m k :
  (forall k c, m !! k = Some c -> k = msgid c) -> k ∈ map_ids m <-> is_Some (m !! k).
Proof.
  intros Hk. rewrite elem_of_map_ids. split.
  - intros (k' & c & H & <-). rewrite <- (Hk _ _ H). eauto.
  - intros [c Hc]. exists k, c. split; [done|]. symmetry. by apply Hk.
Qed.
End MapIds.

Section QueueOk.
Context (hand : list Z) (q : CommQueue).
Hypothesis Hq : queue_ok hand q.

Lemma queue_ok_id_u64 id : id ∈ hand ++ tokens q -> u64 id = id.
Proof using Hq.
  intros Hid. apply u64_small.
  exact (proj1 (Forall_forall _ _) (qok_range _ _ Hq) _ Hid).
Qed.

(** A command at hand is in none of the containers. *)
Lemma queue_ok_hand_fresh id :
  id ∈ hand -> completion q !! id = None.
Proof using Hq.
  intros Hid. destruct (completion q !! id) as [c|] eqn:E; [|done]. exfalso.
  pose proof (proj1 (NoDup_app _ _) (qok_nodup _ _ Hq)) as (_ & Hdis & _).
  apply (Hdis id Hid). unfold tokens. rewrite !elem_of_app. right; right.
  apply map_ids_keyed; [apply (qok_completion _ _ Hq)|eauto].
Qed.
End QueueOk.

Lemma queue_ok_perm hand hand' q q' :
  queue_ok hand q ->
  hand' ++ tokens q' ≡ₚ hand ++ tokens q ->
  (forall k c, completion q' !! k = Some c -> k = msgid c) ->
  (forall k c, inflight q' !! k = Some c -> k = u64 (urpc_req c)) ->
  queue_ok hand' q'.
Proof.
  intros Hq Hp Hc Hi. split; [by rewrite Hp; apply (qok_nodup _ _ Hq)| |done|done].
  rewrite Hp. apply (qok_range _ _ Hq).
Qed.

(** Putting the command at hand into the completion map. *)
Lemma insert_completion_ok hand q c :
  queue_ok (msgid c :: hand) q ->
  completion q !! msgid c = None /\
  BlockingMap.insert c (completion q) = <[msgid c := c]> (completion q) /\
  tokens (set_completion (BlockingMap.insert c (completion q)) q) ≡ₚ msgid c :: tokens q /\
  queue_ok hand (set_completion (BlockingMap.insert c (completion q)) q).
Proof.
  intros Hq.
  assert (Hnone : completion q !! msgid c = None)
    by (apply (queue_ok_hand_fresh _ _ Hq), elem_of_cons; by left).
  assert (Hins : BlockingMap.insert c (completion q) = <[msgid c := c]> (completion q)).
  { unfold BlockingMap.insert, BlockingMap.insert_id.
    rewrite (queue_ok_id_u64 _ _ Hq) by (apply elem_of_cons; by left). by rewrite Hnone. }
  assert (Ht : tokens (set_completion (BlockingMap.insert c (completion q)) q)
               ≡ₚ msgid c :: tokens q).
  { rewrite Hins. unfold tokens. cbn [request inflight completion set_completion].
    rewrite map_ids_insert by done. by rewrite app_assoc, <- Permutation_middle, <- app_assoc. }
  split_and!; [done..|].
  eapply queue_ok_perm; [exact Hq| | |].
  - rewrite Ht. simpl. by rewrite Permutation_middle.
  - cbn [completion set_completion]. rewrite Hins. intros k d [[<- <-]|[_ Hd]]%lookup_insert_Some.
    + done.
    + by apply (qok_completion _ _ Hq).
  - exact (qok_inflight _ _ Hq).
Qed.

(** Taking a command out of the request queue or the in-flight map. *)
Lemma pop_request_ok hand q c l :
  queue_ok hand q -> request q = c :: l -> queue_ok (msgid c :: hand) (set_request l q).
Proof.
  intros Hq E. eapply queue_ok_perm; [exact Hq| |exact (qok_completion _ _ Hq)|exact (qok_inflight _ _ Hq)].
  unfold tokens. cbn [request inflight completion set_request]. rewrite E.
  cbn [fmap list_fmap app]. by rewrite Permutation_middle.
Qed.

Lemma pop_inflight_ok hand q k c :
  queue_ok hand q -> inflight q !! k = Some c ->
  queue_ok (msgid c :: hand) (set_inflight (delete k (inflight q)) q).
Proof.
  intros Hq E. eapply queue_ok_perm; [exact Hq| |exact (qok_completion _ _ Hq)|].
  - unfold tokens. cbn [request inflight completion set_inflight].
    rewrite (map_ids_delete _ _ _ E). cbn [app]. by rewrite !Permutation_middle.
  - cbn [inflight set_inflight]. intros k' d [_ Hd]%lookup_delete_Some.
    by apply (qok_inflight _ _ Hq).
Qed.

Lemma push_request_ok hand q c l1 l2 :
  queue_ok (msgid c :: hand) q -> request q = l1 ++ l2 ->
  queue_ok hand (set_request (l1 ++ c :: l2) q).
Proof.
  intros Hq E. eapply queue_ok_perm; [exact Hq| |exact (qok_completion _ _ Hq)|exact (qok_inflight _ _ Hq)].
  unfold tokens. cbn [request inflight completion set_request]. rewrite E, !fmap_app.
  cbn [fmap list_fmap app]. rewrite <- !app_assoc. cbn [app].
  rewrite !app_assoc. rewrite <- !app_assoc. 
  rewrite <- Permutation_middle. rewrite <- (Permutation_middle hand). done.
Qed.

Lemma push_inflight_ok hand q c :
  queue_ok (msgid c :: hand) q -> inflight q !! u64 (urpc_req c) = None ->
  BlockingMap.insert_id (urpc_req c) c (inflight q) = <[u64 (urpc_req c) := c]> (inflight q) /\
  queue_ok hand (set_inflight (BlockingMap.insert_id (urpc_req c) c (inflight q)) q).
Proof.
  intros Hq E. unfold BlockingMap.insert_id. rewrite E. split; [done|].
  eapply queue_ok_perm; [exact Hq| |exact (qok_completion _ _ Hq)|].
  - unfold tokens. cbn [request inflight completion set_inflight].
    rewrite map_ids_insert by done. cbn [app].
    by rewrite <- !Permutation_middle.
  - cbn [inflight set_inflight]. intros k d [[<- <-]|[_ Hd]]%lookup_insert_Some; [done|].
    by apply (qok_inflight _ _ Hq).
Qed.

(** What a loop of [cancelAll] does: every command of [cs] is completed with an
    error, results that were there already stay. *)
Record cancelled (hand : list Z) (cs : Command -> Prop) (q q' : CommQueue) : Prop := {
  can_ok : queue_ok hand q';
  can_tokens : tokens q' ≡ₚ tokens q;
  can_done : forall c, cs c ->
    completion q' !! msgid c = Some (setResult 0 VEO_COMMAND_ERROR c);
  can_kept : forall k c, completion q !! k = Some c -> completion q' !! k = Some c;
  can_flag : terminateFlag q' = terminateFlag q;
}.

Lemma cancel_requests_spec n : forall hand q,
  queue_ok hand q -> (length (request q) <= n)%nat ->
  let q' := CommQueueOps.cancel_requests n q in
  request q' = [] /\ inflight q' = inflight q /\
  cancelled hand (fun c => c ∈ request q) q q'.
Proof.
  induction n as [|n IH]; intros hand q Hq Hn; cbv zeta; cbn [CommQueueOps.cancel_requests].
  { destruct (request q) eqn:E; [|simpl in Hn; lia].
    split_and!; [done..|]. split; [done|done|set_solver|done|done]. }
  destruct (request q) as [|c l] eqn:E; cbn [BlockingQueue.popNoWait].
  { split_and!; [done..|]. split; [done|done|set_solver|done|done]. }
  simpl in Hn.
  pose proof (pop_request_ok _ _ _ _ Hq E) as Hpop.
  destruct (insert_completion_ok hand (set_request l q) (setResult 0 VEO_COMMAND_ERROR c) Hpop)
    as (Hfree & Hins & Htok & Hok).
  cbn [completion set_request] in *.
  set (q2 := set_completion _ (set_request l q)) in *.
  destruct (IH hand q2 Hok) as (R & I & [C1 C2 C3 C4 C5]); [simpl; lia|].
  split_and!; [done|by rewrite I|]. split; [done| | | |].
  - rewrite C2, Htok. unfold tokens. cbn [request inflight completion set_request].
    by rewrite E.
  - intros d [->|Hd]%elem_of_cons; [|by apply C3].
    apply C4. subst q2. cbn [completion set_completion]. rewrite Hins. apply lookup_insert_eq.
  - intros k d Hd. apply C4. subst q2. cbn [completion set_completion]. rewrite Hins.
    rewrite lookup_insert_ne; [done|]. intros <-. cbn [msgid setResult] in *. congruence.
  - by rewrite C5.
Qed.

Lemma cancel_inflight_spec `{BucketOrder} n : forall hand q,
  queue_ok hand q -> (size (inflight q) <= n)%nat ->
  let q' := CommQueueOps.cancel_inflight n q in
  inflight q' = ∅ /\ request q' = request q /\
  cancelled hand (fun c => exists k, inflight q !! k = Some c) q q'.
Proof.
  induction n as [|n IH]; intros hand q Hq Hn; cbv zeta; cbn [CommQueueOps.cancel_inflight].
  { assert (E : inflight q = ∅) by (apply map_size_empty_iff; lia).
    split_and!; [done..|]. split; [done|done| |done|done].
    intros c [k Hk]. rewrite E, lookup_empty in Hk. done. }
  unfold BlockingMap.popNoWait. destruct (map_begin (inflight q)) as [[k c]|] eqn:E.
  2:{ apply map_begin_end in E. split_and!; [done..|]. split; [done|done| |done|done].
      intros c [k Hk]. rewrite E, lookup_empty in Hk. done. }
  apply map_begin_elem in E.
  pose proof (pop_inflight_ok _ _ _ _ Hq E) as Hpop.
  destruct (insert_completion_ok hand (set_inflight (delete k (inflight q)) q)
              (setResult 0 VEO_COMMAND_ERROR c) Hpop) as (Hfree & Hins & Htok & Hok).
  cbn [completion set_inflight] in *.
  set (q2 := set_completion _ (set_inflight _ q)) in *.
  destruct (IH hand q2 Hok) as (I & R & [C1 C2 C3 C4 C5]).
  { subst q2. cbn [inflight set_completion set_inflight].
    pose proof (map_size_delete_Some k (inflight q)) as Hs. rewrite Hs by eauto. lia. }
  split_and!; [done|by rewrite R|]. split; [done| | | |].
  - rewrite C2, Htok. unfold tokens. cbn [request inflight completion set_inflight].
    rewrite (map_ids_delete _ _ _ E). cbn [app msgid setResult].
    by rewrite Permutation_middle.
  - intros d [k' Hd]. destruct (decide (k' = k)) as [->|Hne].
    + apply C4. subst q2. cbn [completion set_completion]. rewrite Hins.
      simplify_eq. apply lookup_insert_eq.
    + apply C3. exists k'. subst q2. cbn [inflight set_completion set_inflight].
      by rewrite lookup_delete_ne.
  - intros j d Hd. apply C4. subst q2. cbn [completion set_completion]. rewrite Hins.
    rewrite lookup_insert_ne; [done|]. intros <-. cbn [msgid setResult] in *. congruence.
  - by rewrite C5.
Qed.

(** [cancelAll] as one step of the queue. *)
Definition pending (q : CommQueue) (c : Command) : Prop :=
  c ∈ request q \/ exists k, inflight q !! k = Some c.

Lemma cancelAll_spec `{BucketOrder} hand q :
  queue_ok hand q ->
  exists q', CommQueueOps.cancelAll q = (Ret tt, q') /\
    request q' = [] /\ inflight q' = ∅ /\ cancelled hand (pending q) q q'.
Proof.
  intros Hq. unfold CommQueueOps.cancelAll, modify. eexists. split; [done|].
  destruct (cancel_requests_spec (S (length (request q))) hand q Hq)
    as (R1 & I1 & [A1 A2 A3 A4 A5]); [lia|].
  set (q1 := CommQueueOps.cancel_requests _ q) in *.
  destruct (cancel_inflight_spec (S (size (inflight q1))) hand q1 A1)
    as (I2 & R2 & [B1 B2 B3 B4 B5]); [lia|].
  split_and!; [by rewrite R2|done|]. split; [done|by rewrite B2| | |by rewrite B5].
  - intros c [Hc|[k Hk]]; [by apply B4, A3|]. apply B3. exists k. by rewrite I1.
  - intros k c Hc. by apply B4, A4.
Qed.

(** A drained queue is determined by what [cancelled] says of it. *)
Lemma cancelled_unique hand q q1 q2 :
  cancelled hand (pending q) q q1 -> cancelled hand (pending q) q q2 ->
  request q1 = [] -> inflight q1 = ∅ -> request q2 = [] -> inflight q2 = ∅ ->
  (forall k c, completion q !! k = Some c -> k = msgid c) -> q1 = q2.
Proof.
  intros [O1 T1 D1 K1 F1] [O2 T2 D2 K2 F2] R1 I1 R2 I2 Hkey.
  assert (Htok : forall q', request q' = [] -> inflight q' = ∅ ->
    tokens q' = map_ids (completion q')).
  { intros q' R I. unfold tokens. rewrite R, I, map_ids_empty. done. }
  assert (completion q1 = completion q2) as Hc.
  { apply map_eq. intros k. destruct (completion q1 !! k) as [c|] eqn:E.
    - assert (Hk : k ∈ tokens q).
      { rewrite <- T1, Htok by done. apply map_ids_keyed; [apply (qok_completion _ _ O1)|eauto]. }
      unfold tokens in Hk. rewrite !elem_of_app in Hk.
      destruct Hk as [(d & -> & Hd)%list_elem_of_fmap
                     |[(j & d & Hd & <-)%elem_of_map_ids|Hk]].
      + assert (pending q d) as Hp by (by left). rewrite (D1 _ Hp) in E. rewrite <- E.
        symmetry. by apply D2.
      + assert (pending q d) as Hp by (right; eauto). rewrite (D1 _ Hp) in E. rewrite <- E.
        symmetry. by apply D2.
      + apply map_ids_keyed in Hk as [d Hd]; [|done].
        rewrite (K1 _ _ Hd) in E. rewrite <- E. symmetry. by apply K2.
    - destruct (completion q2 !! k) as [c|] eqn:E2; [|done]. exfalso.
      assert (Hk : k ∈ map_ids (completion q1)).
      { rewrite <- Htok by done. rewrite T1, <- T2, Htok by done.
        apply map_ids_keyed; [apply (qok_completion _ _ O2)|eauto]. }
      apply map_ids_keyed in Hk as [d Hd]; [congruence|apply (qok_completion _ _ O1)]. }
  destruct q1, q2. simpl in *. congruence.
Qed.

(** A concrete bucket order. *)
#[export] Instance list_order : BucketOrder.
Proof.
  refine {| map_begin := fun m => head (map_to_list m) |}.
  - intros m k c E. apply elem_of_map_to_list. destruct (map_to_list m); simplify_eq/=.
    apply elem_of_cons. by left.
  - intros m E. apply map_to_list_empty_iff. by destruct (map_to_list m).
Defined.

(** ** Properties *)

(** C26: cancelling loses no request.  After [cancelAll] nothing is queued or in
    flight any more; every command that was is in the completion map with
    result 0 and status [VEO_COMMAND_ERROR], so a thread waiting for it is
    answered; results that were there stay; the IDs held are the same.  The
    outcome does not depend on the iteration order of the hash map. *)
Theorem cancelAll_completes_everything (B1 B2 : BucketOrder) q :
  queue_ok [] q ->
  exists q', @CommQueueOps.cancelAll B1 q = (Ret tt, q') /\
    @CommQueueOps.cancelAll B2 q = (Ret tt, q') /\
    request q' = [] /\ inflight q' = ∅ /\
    (forall c, pending q c ->
       completion q' !! msgid c = Some (setResult 0 VEO_COMMAND_ERROR c)) /\
    (forall k c, completion q !! k = Some c -> completion q' !! k = Some c) /\
    tokens q' ≡ₚ tokens q.
Proof.
  intros Hq.
  destruct (@cancelAll_spec B1 [] q Hq) as (q1 & E1 & R1 & I1 & C1).
  destruct (@cancelAll_spec B2 [] q Hq) as (q2 & E2 & R2 & I2 & C2).
  assert (q1 = q2) as <-.
  { eapply cancelled_unique; eauto. apply (qok_completion _ _ Hq). }
  exists q1. split_and!; [done..| | |apply (can_tokens _ _ _ _ C1)].
  - apply (can_done _ _ _ _ C1).
  - apply (can_kept _ _ _ _ C1).
Qed.

Definition example_command (id req : Z) : Command :=
  mkCommand id 0 req VEO_COMMAND_UNFINISHED false false C_empty.

Definition example_queue : CommQueue :=
  mkCommQueue [example_command 7 0; example_command 8 0]
    {[ 3 := example_command 5 3; 4 := example_command 6 4 ]}
    {[ 2 := example_command 2 1 ]} false.

Lemma example_queue_ok : queue_ok [] example_queue.
Proof.
  assert (Ht : tokens example_queue = [7; 8; 5; 6; 2]) by (vm_compute; reflexivity).
  split; cbn [app]; rewrite ?Ht.
  - apply (bool_decide_unpack _). vm_compute. exact I.
  - repeat (apply List.Forall_cons; [unfold in_u64; lia|]). apply List.Forall_nil.
  - intros k c. unfold example_queue. cbn [completion].
    intros [<- <-]%lookup_singleton_Some. reflexivity.
  - intros k c. unfold example_queue. cbn [inflight].
    intros [[<- <-]|[_ [<- <-]%lookup_singleton_Some]]%lookup_insert_Some; reflexivity.
Qed.

Lemma cancelAll_completes_everything_witness :
  exists q', @CommQueueOps.cancelAll list_order example_queue = (Ret tt, q') /\
    @CommQueueOps.cancelAll list_order example_queue = (Ret tt, q') /\
    request q' = [] /\ inflight q' = ∅ /\
    (forall c, pending example_queue c ->
       completion q' !! msgid c = Some (setResult 0 VEO_COMMAND_ERROR c)) /\
    (forall k c, completion example_queue !! k = Some c -> completion q' !! k = Some c) /\
    tokens q' ≡ₚ tokens example_queue.
Proof. apply (cancelAll_completes_everything list_order list_order). exact example_queue_ok. Defined.
