(* ===== verification/Urpc.v ===== *)
(** * The ve-urpc layer and its VH-side helpers

    ve-urpc is a library of its own that the sources only call: its operations
    are the members of the class [Urpc], over an abstract peer that stands for
    the VH end of a connection with everything behind it, the VE process and
    its future behaviour included.  What the sources rely on is stated in
    [UrpcLaws].

    The rest models [veo_urpc_vh.cpp]: sending a function call, unpacking its
    result, waiting for the reply to a request. *)

From Stdlib Require Import ZArith Lia Bool.
From stdpp Require Import base gmap list numbers strings.
From S2P Require Import Prelude CallArgs Command.

Open Scope Z_scope.

(** A value in a message: letters [L] (8 bytes), [I] (4 bytes), [P] (a buffer
    with its contents) and [Q] (room for a buffer, of which only the size is
    sent) of a format. *)
Inductive uval := VL (v : Z) | VI (v : Z) | VP (bytes : list Z) | VQ (size : Z).

Class Urpc := {
  peer : Type;
  payload : Type;
  (** request ID, or a negative error code *)
  urpc_generic_send : peer -> Z -> string -> list uval -> Z * peer;
  (** next reply: its request ID (negative if there is none), command and payload *)
  urpc_get_cmd : peer -> Z * (Z * payload) * peer;
  urpc_next_send_slot : peer -> Z;
  urpc_slot_done : peer -> Z -> peer;
  urpc_max_send_cmd_size : peer -> Z;
  urpc_get_receiver_flags : peer -> Z;
  (** wait for the reply to a request: [None] after a timeout *)
  urpc_recv_req_timeout : peer -> Z -> Z -> option (Z * payload) * peer;
  payload_len : payload -> Z;
  (** 0 or a negative code, and the values unpacked *)
  urpc_unpack_payload : payload -> string -> Z * list uval;
  URPC_FLAG_EXITED : Z;
  ALIGN8B : Z -> Z;
}.

(** What the code relies on.  Request IDs are those of outstanding requests
    until the reply is received; the replies come in the order of the requests
    (a handler answers with the request ID it was called for, [CHECK_REQ]). *)
Class UrpcLaws (U : Urpc) := {
  outstanding : peer -> list Z;
  send_outstanding : forall p cmd fmt args r p',
    urpc_generic_send p cmd fmt args = (r, p') -> 0 <= r ->
    (r ∉ outstanding p) /\ outstanding p' = outstanding p ++ [r];
  send_failed : forall p cmd fmt args r p',
    urpc_generic_send p cmd fmt args = (r, p') -> r < 0 -> outstanding p' = outstanding p;
  (** the IDs have not outgrown an [int] *)
  send_int : forall p cmd fmt args r p',
    urpc_generic_send p cmd fmt args = (r, p') -> (- 2 ^ 31) <= r < 2 ^ 31;
  get_outstanding : forall p r m p',
    urpc_get_cmd p = (r, m, p') -> 0 <= r -> outstanding p = r :: outstanding p';
  get_none : forall p r m p',
    urpc_get_cmd p = (r, m, p') -> r < 0 -> outstanding p' = outstanding p;
  done_outstanding : forall p r, outstanding (urpc_slot_done p r) = outstanding p;
  align8b_ge : forall z, 0 <= z -> z <= ALIGN8B z < z + 8;
}.

Definition SEND_CALL_CMD_SIZE_WITHOUT_DATA : Z := 40.
Definition REPLY_TIMEOUT : Z := 20000000.

Section UrpcVh.
Context `{U : Urpc}.

(** The bytes of a vector of registers. *)
Definition regs_bytes (regs : list Z) : list Z := regs ≫= le_bytes 8.

Definition send_call_nolock (p : peer) (m : mem) (ve_sp addr : Z) (regs : list Z)
    (stack_top stack_size : Z) (copyin copyout : bool) (stack_buf : Z) : Z * peer :=
  let regsz := u64 (Z.of_nat (length regs) * 8) in
  let max_args_size := urpc_max_send_cmd_size p - SEND_CALL_CMD_SIZE_WITHOUT_DATA in
  let size := if u64 (max_args_size - regsz) <? stack_size
              then u64 (max_args_size - regsz) else stack_size in
  let stack := mem_read m stack_buf (Z.to_nat size) in
  if negb (copyin || copyout) then
    urpc_generic_send p URPC_CMD_CALL "LP" [VL addr; VP (regs_bytes regs)]
  else if copyin && negb copyout then
    urpc_generic_send p URPC_CMD_CALL_STKIN "LPLLP"
      [VL addr; VP (regs_bytes regs); VL stack_top; VL ve_sp; VP stack]
  else if copyin && copyout then
    urpc_generic_send p URPC_CMD_CALL_STKINOUT "LPLLP"
      [VL addr; VP (regs_bytes regs); VL stack_top; VL ve_sp; VP stack]
  else
    urpc_generic_send p URPC_CMD_CALL_STKOUT "LPLLQ"
      [VL addr; VP (regs_bytes regs); VL stack_top; VL ve_sp; VQ size].

(** The values an unpacked format leaves in the variables passed. *)
Definition got_L (vs : list uval) (i : nat) (old : Z) : Z :=
  match vs !! i with Some (VL v) => u64 v | _ => old end.
Definition got_P (vs : list uval) (i : nat) : list Z :=
  match vs !! i with Some (VP b) => b | _ => [] end.

(** [unpack_call_result]: return code and [*result], which starts as [result0]. *)
Definition unpack_call_result (m : Z * payload) (copyout : option (list Arg.out_copy))
    (result0 stack : Z) : M heap (Z * Z) :=
  let '(cmd, pl) := m in
  if cmd =? URPC_CMD_RESULT then
    if negb (payload_len pl =? 0) then
      let '(rc, vs) := urpc_unpack_payload pl "L" in ret (rc, got_L vs 0 result0)
    else ret (-1, result0)
  else if cmd =? URPC_CMD_RES_STK then
    let '(rc, vs) := urpc_unpack_payload pl "LP" in
    let result := got_L vs 0 result0 in
    if rc =? 0 then
      if negb (stack =? 0) then store stack (got_P vs 1) ;;; ret (rc, result)
      else match copyout with
           | None => throw std_bad_function_call
           | Some fs => run_copyout (FromBytes (got_P vs 1)) fs ;;; ret (rc, result)
           end
    else ret (rc, result)
  else if cmd =? URPC_CMD_EXCEPTION then
    let '(_, vs) := urpc_unpack_payload pl "LP" in ret (-4, got_L vs 0 0)
  else ret (-3, result0).

(** [wait_req_result]: return code, [*result] and the peer. *)
Definition wait_req_result (p : peer) (req result0 : Z) : Z * Z * peer :=
  match urpc_recv_req_timeout p req REPLY_TIMEOUT with
  | (None, p) => (-1, result0, p)
  | (Some (cmd, pl), p) =>
      if cmd =? URPC_CMD_RESULT then
        if negb (payload_len pl =? 0) then
          let '(_, vs) := urpc_unpack_payload pl "L" in
          (0, i64 (got_L vs 0 result0), urpc_slot_done p req)
        else (0, result0, p)
      else (-1, result0, p)
  end.

(** [wait_req_ack]: return code and the peer. *)
Definition wait_req_ack (p : peer) (req : Z) : Z * peer :=
  match urpc_recv_req_timeout p req REPLY_TIMEOUT with
  | (None, p) => (-1, p)
  | (Some (cmd, _), p) =>
      if negb (cmd =? URPC_CMD_ACK) then (-2, p) else (0, urpc_slot_done p req)
  end.
End UrpcVh.
