(* ===== verification/Ve.v ===== *)
(** * The VE side

    Models the request handlers of [veo_urpc.c] and [veo_urpc_ve.c].  A handler
    gets the values of the request's payload, works on the VE process and sends
    a reply.  What lies below, the C library and the processor that runs the
    function called, is the class [Machine].

    The last part connects a VE process to the VH by queues that deliver in
    order: an instance of [Urpc] for which the laws of [UrpcLaws] hold. *)

From Stdlib Require Import ZArith Lia Bool.
From stdpp Require Import base gmap list numbers strings.
From S2P Require Import Prelude CallArgs Command Urpc.

Open Scope Z_scope.

Definition MAX_ARGS_IN_REGS : nat := 8.

(** The C library of the VE ([libc]: its state), the code of the VE functions
    and the static symbol table. *)
Class Machine := {
  libc : Type;
  dlopen : libc -> list Z -> Z * libc;
  dlclose : libc -> Z -> Z * libc;
  dlsym : libc -> Z -> list Z -> Z;
  malloc : libc -> Z -> Z * libc;
  free : libc -> Z -> libc;
  (** [pthread_create] for a new handler thread: its return code *)
  pthread_create : libc -> Z -> Z -> Z -> Z * libc;
  (** the function at an address, given [%s0]-[%s7], the stack pointer and the
      memory: [%s0] and the memory when it returns *)
  run : Z -> list Z -> Z -> mem -> Z * mem;
  _veo_static_symtable : list (list Z * Z);
}.

Section Handlers.
Context `{IN : Indet} `{MA : Machine}.

Record ve := mkVe {
  ve_mem : mem;
  ve_libc : libc;
  curr_sp : Z;
  __veo_finish : bool;
  __num_ve_peers : Z;
}.

Definition set_ve_mem (m : mem) (s : ve) : ve :=
  mkVe m (ve_libc s) (curr_sp s) (__veo_finish s) (__num_ve_peers s).
Definition set_ve_libc (l : libc) (s : ve) : ve :=
  mkVe (ve_mem s) l (curr_sp s) (__veo_finish s) (__num_ve_peers s).

(** The reply sent, if there is one, and the state. *)
Definition handled : Type := option (Z * list uval) * ve.

Definition arg_L (vs : list uval) (i : nat) : Z :=
  match vs !! i with Some (VL v) => u64 v | _ => 0 end.
Definition arg_I (vs : list uval) (i : nat) : Z :=
  match vs !! i with Some (VI v) => i32 v | _ => 0 end.
(** The bytes and the size of a buffer ([P]), or the size of one to fill ([Q]). *)
Definition arg_P (vs : list uval) (i : nat) : list Z :=
  match vs !! i with Some (VP b) => b | _ => [] end.
Definition arg_size (vs : list uval) (i : nat) : Z :=
  match vs !! i with
  | Some (VP b) => Z.of_nat (length b)
  | Some (VQ n) => n
  | _ => 0
  end.

Definition ping_handler (s : ve) : handled := (Some (URPC_CMD_ACK, []), s).

Definition exit_handler (s : ve) : handled :=
  (Some (URPC_CMD_ACK, []),
   mkVe (ve_mem s) (ve_libc s) (curr_sp s) true (__num_ve_peers s)).

Definition loadlib_handler (vs : list uval) (s : ve) : handled :=
  let '(handle, l) := dlopen (ve_libc s) (arg_P vs 0) in
  (Some (URPC_CMD_RESULT, [VL handle]), set_ve_libc l s).

Definition unloadlib_handler (vs : list uval) (s : ve) : handled :=
  let '(rc, l) := dlclose (ve_libc s) (arg_L vs 0) in
  (Some (URPC_CMD_RESULT, [VL rc]), set_ve_libc l s).

(** A C string: the bytes before the first zero byte. *)
Fixpoint cstr (b : list Z) : list Z :=
  match b with
  | [] => []
  | x :: b => if x =? 0 then [] else x :: cstr b
  end.

Fixpoint static_sym (sym : list Z) (t : list (list Z * Z)) : option Z :=
  match t with
  | [] => None
  | (n, v) :: t => if bool_decide (cstr n = cstr sym) then Some v else static_sym sym t
  end.

Definition getsym_handler (vs : list uval) (s : ve) : handled :=
  let libhndl := arg_L vs 0 in
  let sym := arg_P vs 1 in
  let symaddr := if negb (libhndl =? 0) then dlsym (ve_libc s) libhndl sym else 0 in
  let symaddr := default symaddr (static_sym sym _veo_static_symtable) in
  (Some (URPC_CMD_RESULT, [VL symaddr]), s).

Definition alloc_handler (vs : list uval) (s : ve) : handled :=
  let '(addr, l) := malloc (ve_libc s) (arg_L vs 0) in
  (Some (URPC_CMD_RESULT, [VL addr]), set_ve_libc l s).

Definition free_handler (vs : list uval) (s : ve) : handled :=
  (Some (URPC_CMD_ACK, []), set_ve_libc (free (ve_libc s) (arg_L vs 0)) s).

Definition sendbuff_handler (vs : list uval) (s : ve) : handled :=
  (Some (URPC_CMD_ACK, []), set_ve_mem (mem_write (ve_mem s) (arg_L vs 0) (arg_P vs 1)) s).

Definition recvbuff_handler (vs : list uval) (s : ve) : handled :=
  (Some (URPC_CMD_SENDBUFF,
     [VL (arg_L vs 1); VP (mem_read (ve_mem s) (arg_L vs 0) (Z.to_nat (arg_L vs 2)))]), s).

Definition memcpy_handler (vs : list uval) (s : ve) : handled :=
  (Some (URPC_CMD_ACK, []),
   set_ve_mem (mem_write (ve_mem s) (arg_L vs 0)
                 (mem_read (ve_mem s) (arg_L vs 1) (Z.to_nat (arg_L vs 2)))) s).

Definition newpeer_handler (vs : list uval) (s : ve) : handled :=
  let '(rc, l) := pthread_create (ve_libc s) (arg_I vs 0) (arg_I vs 1) (arg_L vs 2) in
  let s := set_ve_libc l s in
  if negb (rc =? 0) then (Some (URPC_CMD_RESULT, [VL rc]), s)
  else (Some (URPC_CMD_RESULT, [VL rc]),
        mkVe (ve_mem s) (ve_libc s) (curr_sp s) (__veo_finish s) (__num_ve_peers s + 1)).

(** The 64-bit words of the register buffer. *)
Fixpoint words (n : nat) (b : list Z) : list Z :=
  match n with
  | O => []
  | S n => le_val (take 8 b) :: words n (drop 8 b)
  end.

(** [r]: the first eight registers passed; the rest of the array is not set. *)
Definition load_regs (b : list Z) : list Z :=
  words (Nat.min (length b / 8) MAX_ARGS_IN_REGS) b.

(** The function at [addr] is called with the registers, on the stack of the
    handler ([URPC_CMD_CALL]) or with the stack pointer at the new frame.  The
    copy back is a loop over 8-byte words of the frame, into the buffer the
    frame came in. *)
Definition call_handler (cmd : Z) (vs : list uval) (s : ve) : handled :=
  let addr := arg_L vs 0 in
  let regs := load_regs (arg_P vs 1) in
  if cmd =? URPC_CMD_CALL then
    if addr =? 0 then (Some (URPC_CMD_RESULT, [VL (curr_sp s)]), s)
    else
      let '(result, m) := run addr regs (curr_sp s) (ve_mem s) in
      (Some (URPC_CMD_RESULT, [VL result]), set_ve_mem m s)
  else
    let stack_top := arg_L vs 2 in
    let recv_sp := arg_L vs 3 in
    let stack_size := arg_size vs 4 in
    if negb (recv_sp =? 0) && negb (recv_sp =? curr_sp s) then (None, s)
    else
      let m := if (cmd =? URPC_CMD_CALL_STKIN) || (cmd =? URPC_CMD_CALL_STKINOUT)
               then mem_write (ve_mem s) stack_top (arg_P vs 4) else ve_mem s in
      let '(result, m) := run addr regs stack_top m in
      let s := set_ve_mem m s in
      if (cmd =? URPC_CMD_CALL_STKOUT) || (cmd =? URPC_CMD_CALL_STKINOUT) then
        let n := Z.to_nat (stack_size / 8 * 8) in
        let stack := mem_read m stack_top n ++
                     drop n (arg_P vs 4 ++ replicate (Z.to_nat stack_size) indet) in
        (Some (URPC_CMD_RES_STK, [VL result; VP (take (Z.to_nat stack_size) stack)]), s)
      else (Some (URPC_CMD_RESULT, [VL result]), s).

Definition access_pcircvsyc_register_handler (s : ve) : handled := (Some (URPC_CMD_ACK, []), s).

(** The handlers registered for a connection, in the order of registration. *)
Definition handler : Type := list uval -> ve -> handled.

Definition veo_urpc_register_handlers : list (Z * handler) :=
  [(URPC_CMD_PING, fun _ => ping_handler); (URPC_CMD_EXIT, fun _ => exit_handler);
   (URPC_CMD_LOADLIB, loadlib_handler); (URPC_CMD_UNLOADLIB, unloadlib_handler);
   (URPC_CMD_GETSYM, getsym_handler); (URPC_CMD_ALLOC, alloc_handler);
   (URPC_CMD_FREE, free_handler); (URPC_CMD_RECVBUFF, recvbuff_handler);
   (URPC_CMD_SENDBUFF, sendbuff_handler); (URPC_CMD_MEMCPY, memcpy_handler)].

(** [call_handler] looks at the command it was called for. *)
Definition veo_urpc_register_ve_handlers : list (Z * handler) :=
  [(URPC_CMD_NEWPEER, newpeer_handler);
   (URPC_CMD_CALL, call_handler URPC_CMD_CALL);
   (URPC_CMD_CALL_STKIN, call_handler URPC_CMD_CALL_STKIN);
   (URPC_CMD_CALL_STKOUT, call_handler URPC_CMD_CALL_STKOUT);
   (URPC_CMD_CALL_STKINOUT, call_handler URPC_CMD_CALL_STKINOUT);
   (URPC_CMD_ACS_PCIRCVSYC, fun _ => access_pcircvsyc_register_handler)].

Fixpoint find_handler (cmd : Z) (t : list (Z * handler)) : option handler :=
  match t with
  | [] => None
  | (c, h) :: t => if cmd =? c then Some h else find_handler cmd t
  end.

(** A message is given to the handler registered for its command. *)
Definition dispatch (cmd : Z) (vs : list uval) (s : ve) : handled :=
  match find_handler cmd (veo_urpc_register_handlers ++ veo_urpc_register_ve_handlers) with
  | Some h => h vs s
  | None => (None, s)
  end.
End Handlers.

(** ** A VE process behind queues that deliver in order

    The requests are numbered in the order they are sent; the oldest one is
    answered when the VH has looked for a reply [latency] times in vain. *)

Section Link.
Context `{IN : Indet} `{MA : Machine} (max_cmd_size : Z) (latency : nat).

Record link := mkLink {
  l_base : nat;                       (** the number of the oldest request *)
  l_sent : list (Z * list uval);      (** the requests not answered *)
  l_lag : nat;                        (** polls until the next answer *)
  l_ve : ve;
}.

Definition link_slots : nat := 255.
Definition l_next (p : link) : Z := Z.of_nat (l_base p + length (l_sent p)).

Definition link_send (p : link) (cmd : Z) (fmt : string) (args : list uval) : Z * link :=
  if (length (l_sent p) <? link_slots)%nat then
    if l_next p <? 2 ^ 31 then (l_next p, mkLink (l_base p) (l_sent p ++ [(cmd, args)]) latency (l_ve p))
    else (-1, p)
  else (- 11, p).

Definition link_get (p : link) : Z * (Z * list uval) * link :=
  match l_sent p, l_lag p with
  | [], _ => (-1, (0, []), p)
  | _, S lag => (-1, (0, []), mkLink (l_base p) (l_sent p) lag (l_ve p))
  | (cmd, args) :: l, O =>
      match dispatch cmd args (l_ve p) with
      | (Some m, s) => (Z.of_nat (l_base p), m, mkLink (S (l_base p)) l 0 s)
      | (None, _) => (-1, (0, []), p)
      end
  end.

(** Waiting takes longer than the latency. *)
Definition link_recv (p : link) (req timeout : Z) : option (Z * list uval) * link :=
  let '(r, m, p') := link_get (mkLink (l_base p) (l_sent p) 0 (l_ve p)) in
  if r =? req then (Some m, p') else (None, p).

#[export] Instance link_urpc : Urpc := {|
  peer := link;
  payload := list uval;
  urpc_generic_send := link_send;
  urpc_get_cmd := link_get;
  urpc_next_send_slot := fun p => if (length (l_sent p) <? link_slots)%nat then 0 else -1;
  urpc_slot_done := fun p _ => p;
  urpc_max_send_cmd_size := fun _ => max_cmd_size;
  urpc_get_receiver_flags := fun p => if __veo_finish (l_ve p) then 3 else 1;
  urpc_recv_req_timeout := link_recv;
  payload_len := fun pl => Z.of_nat (length pl);
  urpc_unpack_payload := fun pl _ => (0, pl);
  URPC_FLAG_EXITED := 2;
  ALIGN8B := align_up 8;
|}.

Definition link_outstanding (p : link) : list Z :=
  Z.of_nat <$> seq (l_base p) (length (l_sent p)).

#[export] Instance link_laws : UrpcLaws link_urpc.
Proof.
  refine {| outstanding := (link_outstanding : @peer link_urpc -> list Z) |};
    unfold link_outstanding; cbn [peer urpc_generic_send urpc_get_cmd urpc_slot_done ALIGN8B link_urpc].
  - intros p cmd fmt args r p' E Hr. unfold link_send in E.
    destruct (_ <? link_slots)%nat; [destruct (l_next p <? 2 ^ 31)|]; injection E as <- <-; try lia.
    split.
    + intros (k & Hk & Hin)%list_elem_of_fmap. apply elem_of_seq in Hin. unfold l_next in Hk. lia.
    + cbn [l_base l_sent]. rewrite length_app. cbn [length].
      rewrite seq_app, fmap_app. done.
  - intros p cmd fmt args r p' E Hr. unfold link_send in E.
    destruct (_ <? link_slots)%nat; [destruct (l_next p <? 2 ^ 31)|]; injection E as <- <-; try done.
    unfold l_next in Hr. lia.
  - intros p cmd fmt args r p' E. unfold link_send in E.
    destruct (_ <? link_slots)%nat; [destruct (Z.ltb_spec (l_next p) (2 ^ 31))|];
      injection E as <- <-; unfold l_next in *; lia.
  - intros p r m p' E Hr. unfold link_get in E.
    destruct (l_sent p) as [|[cmd args] l] eqn:El; [injection E as <- _ _; lia|].
    destruct (l_lag p) as [|lag]; [|injection E as <- _ _; lia].
    destruct (dispatch cmd args (l_ve p)) as [[m0|] s]; injection E as <- _ <-; [done|lia].
  - intros p r m p' E Hr. unfold link_get in E.
    destruct (l_sent p) as [|[cmd args] l] eqn:El; [injection E as _ _ <-; by rewrite El|].
    destruct (l_lag p) as [|lag]; [|injection E as _ _ <-; cbn [l_base l_sent]; by rewrite ?El].
    destruct (dispatch cmd args (l_ve p)) as [[m0|] s]; injection E as <- _ <-; [lia|].
    by rewrite El.
  - done.
  - intros z Hz. destruct (align_up_spec 8 z) as [? _]; lia.
Defined.
End Link.

(** A machine for examples: one library with handle 77, in which every symbol is
    found, and functions that add up their first two registers. *)
Definition demo_machine : Machine := {|
  libc := Z;
  dlopen := fun l _ => (77, l);
  dlclose := fun l h => (if h =? 77 then 0 else -1, l);
  dlsym := fun _ h name => if h =? 77 then 512 + Z.of_nat (length name) else 0;
  malloc := fun l n => (l, l + n);
  free := fun l _ => l;
  pthread_create := fun l _ _ _ => (0, l);
  run := fun _ regs _ m => (u64 (nth 0 regs 0 + nth 1 regs 0), m);
  _veo_static_symtable := [];
|}.

(** The stack pointer of its thread. *)
Definition demo_sp : Z := 2 ^ 40 + 2 ^ 24.

Definition demo_ve : @ve demo_machine := @mkVe demo_machine (fun _ => 0) 4096 demo_sp false 0.

(** ** Properties *)

Section VeProperties.
Context `{IN : Indet} `{MA : Machine}.

Lemma words_regs_bytes regs : forall rest,
  Forall in_u64 regs -> words (length regs) (regs_bytes regs ++ rest) = regs.
Proof.
  induction regs as [|r regs IH]; intros rest Hr; cbn [length words]; [done|].
  apply Forall_cons_iff in Hr as [Hr Hrs].
  unfold regs_bytes. cbn [mbind list_bind]. rewrite <- app_assoc.
  rewrite take_app_length', drop_app_length' by (by rewrite length_le_bytes).
  rewrite le_val_bytes. change (256 ^ Z.of_nat 8) with (2 ^ 64). rewrite Z.mod_small by exact Hr.
  f_equal. by apply IH.
Qed.

Lemma length_regs_bytes regs : length (regs_bytes regs) = (8 * length regs)%nat.
Proof.
  unfold regs_bytes. induction regs as [|r regs IH]; [done|].
  cbn [mbind list_bind length]. rewrite length_app, length_le_bytes.
  change (length (mbind (le_bytes 8) regs) = (8 * length regs)%nat) in IH.
  cbn [mbind] in IH. rewrite IH. lia.
Qed.

(** The registers arrive as they were sent. *)
Lemma load_regs_bytes regs :
  Forall in_u64 regs -> (length regs <= 8)%nat -> load_regs (regs_bytes regs) = regs.
Proof.
  intros Hr Hl. unfold load_regs, MAX_ARGS_IN_REGS. rewrite length_regs_bytes.
  rewrite Nat.mul_comm, Nat.div_mul, Nat.min_l by lia.
  rewrite <- (app_nil_r (regs_bytes regs)). by apply words_regs_bytes.
Qed.

(** The VE runs the function with what the VH sent.  A call with a stack
  frame in and out, sent with the stack pointer the VE thread has: the function
  runs once, with the register values of the message in its registers, the
  stack pointer at the new frame and exactly the bytes of the frame there; the
  reply carries its result and the frame as the function left it. *)
Theorem call_handler_runs_with_frame addr regs top sp frame (s : ve) :
  in_u64 addr -> Forall in_u64 regs -> (length regs <= 8)%nat -> in_u64 top ->
  u64 sp = curr_sp s -> (length frame mod 8 = 0)%nat ->
  let m := mem_write (ve_mem s) top frame in
  let '(result, m') := run addr regs top m in
  mem_read m top (length frame) = frame /\
  dispatch URPC_CMD_CALL_STKINOUT
    [VL addr; VP (regs_bytes regs); VL top; VL sp; VP frame] s =
  (Some (URPC_CMD_RES_STK, [VL result; VP (mem_read m' top (length frame))]), set_ve_mem m' s).
Proof.
  intros Ha Hr Hl Ht Hsp Hf m.
  assert (Hd : dispatch URPC_CMD_CALL_STKINOUT
    [VL addr; VP (regs_bytes regs); VL top; VL sp; VP frame] s =
    call_handler URPC_CMD_CALL_STKINOUT
      [VL addr; VP (regs_bytes regs); VL top; VL sp; VP frame] s) by reflexivity.
  rewrite Hd. clear Hd. unfold call_handler. cbn [arg_L arg_P arg_size lookup list_lookup].
  change (URPC_CMD_CALL_STKINOUT =? URPC_CMD_CALL) with false.
  change (URPC_CMD_CALL_STKINOUT =? URPC_CMD_CALL_STKIN) with false.
  change (URPC_CMD_CALL_STKINOUT =? URPC_CMD_CALL_STKINOUT) with true.
  change (URPC_CMD_CALL_STKINOUT =? URPC_CMD_CALL_STKOUT) with false. cbn [orb].
  unfold arg_L, arg_P, arg_size. cbn [lookup list_lookup].
  rewrite (u64_small addr), (u64_small top), Hsp, Z.eqb_refl, load_regs_bytes by done.
  rewrite andb_false_r. fold m.
  destruct (run addr regs top m) as [result m']. split; [apply mem_read_write_same|].
  assert (Hlen : Z.to_nat (Z.of_nat (length frame) / 8 * 8) = length frame).
  { pose proof (Nat.div_mod_eq (length frame) 8) as Hdm. rewrite Hf, Nat.add_0_r in Hdm.
    set (k := (length frame / 8)%nat) in Hdm. clearbody k. rewrite Hdm.
    rewrite Nat2Z.inj_mul. change (Z.of_nat 8) with 8.
    rewrite (Z.mul_comm 8), Z.div_mul by done. lia. }
  rewrite Hlen, Nat2Z.id. do 4 f_equal.
  rewrite take_app_length' by (by rewrite length_mem_read). done.
Qed.

(** What was written to VE memory is read back.  A [SENDBUFF] message followed
  by a [RECVBUFF] message for the same area returns the bytes sent, addressed to
  the VH buffer asked for, and leaves the memory outside the area alone. *)
Theorem sendbuff_recvbuff_roundtrip dst vhdst bytes (s : ve) :
  in_u64 dst -> in_u64 vhdst -> Z.of_nat (length bytes) < 2 ^ 64 ->
  let '(r1, s1) := dispatch URPC_CMD_SENDBUFF [VL dst; VP bytes] s in
  r1 = Some (URPC_CMD_ACK, []) /\
  dispatch URPC_CMD_RECVBUFF [VL dst; VL vhdst; VL (Z.of_nat (length bytes))] s1 =
    (Some (URPC_CMD_SENDBUFF, [VL vhdst; VP bytes]), s1) /\
  (forall x, x < dst \/ dst + Z.of_nat (length bytes) <= x -> ve_mem s1 x = ve_mem s x).
Proof.
  intros Hd Hv Hl.
  change (dispatch URPC_CMD_SENDBUFF [VL dst; VP bytes] s)
    with (sendbuff_handler [VL dst; VP bytes] s).
  unfold sendbuff_handler. cbv iota beta. split_and!; [done| |].
  - match goal with |- dispatch _ ?vs ?s1 = _ =>
      change (dispatch URPC_CMD_RECVBUFF vs s1) with (recvbuff_handler vs s1) end.
    unfold recvbuff_handler, arg_L, arg_P. cbn [lookup list_lookup ve_mem set_ve_mem].
    rewrite !u64_small, Nat2Z.id by (done || lia). by rewrite mem_read_write_same.
  - intros x Hx. unfold arg_L, arg_P. cbn [lookup list_lookup ve_mem set_ve_mem].
    rewrite u64_small by done. by apply mem_write_out.
Qed.
End VeProperties.

Lemma call_handler_runs_with_frame_witness :
  let m := mem_write (ve_mem demo_ve) 4096 (replicate 16 7) in
  let '(result, m') := @run demo_machine 512 [3; 4] 4096 m in
  mem_read m 4096 (length (replicate 16 7)) = replicate 16 7 /\
  @dispatch 0 demo_machine URPC_CMD_CALL_STKINOUT
    [VL 512; VP (regs_bytes [3; 4]); VL 4096; VL demo_sp; VP (replicate 16 7)] demo_ve =
  (Some (URPC_CMD_RES_STK, [VL result; VP (mem_read m' 4096 (length (replicate 16 7)))]),
   set_ve_mem m' demo_ve).
Proof.
  apply (@call_handler_runs_with_frame 0 demo_machine 512 [3; 4] 4096 demo_sp (replicate 16 7) demo_ve);
    try reflexivity; try (unfold in_u64; lia).
  - repeat (apply List.Forall_cons; [unfold in_u64; lia|]). apply List.Forall_nil.
  - simpl. lia.
Defined.

Lemma sendbuff_recvbuff_roundtrip_witness :
  let '(r1, s1) := @dispatch 0 demo_machine URPC_CMD_SENDBUFF [VL 8192; VP [1; 2; 3]] demo_ve in
  r1 = Some (URPC_CMD_ACK, []) /\
  @dispatch 0 demo_machine URPC_CMD_RECVBUFF [VL 8192; VL 77; VL (Z.of_nat (length [1; 2; 3]))] s1 =
    (Some (URPC_CMD_SENDBUFF, [VL 77; VP [1; 2; 3]]), s1) /\
  (forall x, x < 8192 \/ 8192 + Z.of_nat (length [1; 2; 3]) <= x -> ve_mem s1 x = ve_mem demo_ve x).
Proof.
  apply (@sendbuff_recvbuff_roundtrip 0 demo_machine 8192 77 [1; 2; 3] demo_ve);
    unfold in_u64; simpl; lia.
Defined.
