(* ===== verification/Context.v ===== *)
(** * Thread contexts

    Models the request machinery of [Context.hpp] and [Context.cpp]: request
    IDs, the functions of the commands, the progress functions, peeking at and
    waiting for results.

    A [world] is a context with what its functions reach: the VH memory, the
    process-wide survival flag, and the two things decided elsewhere, whether
    [waitpid] reports the VE process as ended and whether [try_lock] gets the
    progress lock.  Functions called on the VH work on the world too: the progress
    lock is recursive, and such a function may wait for another request. *)

From Stdlib Require Import ZArith Lia Bool.
From stdpp Require Import base gmap list numbers sets strings.
From S2P Require Import Prelude CallArgs Command Urpc.

Open Scope Z_scope.

Definition EAGAIN : Z := 11.
Definition EINVAL : Z := 22.

(** The progress thread: not created, waiting on the condition variable of the
    request queue, woken up, executing commands with the progress lock held, or
    left. *)
Inductive thread_state := T_none | T_asleep | T_awake | T_running | T_exited.

Section World.
Context `{U : Urpc}.

Record Context := mkContext {
  comq : CommQueue;
  state : veo_context_state;
  is_main : bool;
  seq_no : Z;
  ve_sp : Z;
  up : peer;
  rem_reqid : gset Z;
  count : Z;
  progress_thread : thread_state;
}.

(** [Context::Context(p, up, is_main)] *)
Definition new_Context `{Indet} (p : peer) (main : bool) : Context :=
  mkContext new_CommQueue VEO_STATE_UNKNOWN main 0 indet p ∅ 0 T_none.

(** [survival] is [proc->getProcSurvival()].  [waitpids] and [trylocks] hold
    the results of the next calls of [waitpid] (does it report the child?) and
    [try_lock]; when a list is used up, the child runs and the lock is free.
    [issued] counts the request IDs handed out; no operation reads it. *)
Record world := mkWorld {
  ctx : Context;
  vh : heap;
  survival : bool;
  waitpids : list bool;
  trylocks : list bool;
  issued : Z;
}.

Definition set_ctx (c : Context) (w : world) : world :=
  mkWorld c (vh w) (survival w) (waitpids w) (trylocks w) (issued w).
Definition set_vh (h : heap) (w : world) : world :=
  mkWorld (ctx w) h (survival w) (waitpids w) (trylocks w) (issued w).

Definition set_comq (q : CommQueue) (w : world) : world :=
  let c := ctx w in
  set_ctx (mkContext q (state c) (is_main c) (seq_no c) (ve_sp c) (up c) (rem_reqid c)
             (count c) (progress_thread c)) w.
Definition set_state (s : veo_context_state) (w : world) : world :=
  let c := ctx w in
  set_ctx (mkContext (comq c) s (is_main c) (seq_no c) (ve_sp c) (up c) (rem_reqid c)
             (count c) (progress_thread c)) w.
Definition set_up (p : peer) (w : world) : world :=
  let c := ctx w in
  set_ctx (mkContext (comq c) (state c) (is_main c) (seq_no c) (ve_sp c) p (rem_reqid c)
             (count c) (progress_thread c)) w.
Definition set_rem (r : gset Z) (w : world) : world :=
  let c := ctx w in
  set_ctx (mkContext (comq c) (state c) (is_main c) (seq_no c) (ve_sp c) (up c) r
             (count c) (progress_thread c)) w.
Definition set_count (n : Z) (w : world) : world :=
  let c := ctx w in
  set_ctx (mkContext (comq c) (state c) (is_main c) (seq_no c) (ve_sp c) (up c) (rem_reqid c)
             n (progress_thread c)) w.
Definition set_thread (t : thread_state) (w : world) : world :=
  let c := ctx w in
  set_ctx (mkContext (comq c) (state c) (is_main c) (seq_no c) (ve_sp c) (up c) (rem_reqid c)
             (count c) t) w.

Definition queue (w : world) : CommQueue := comq (ctx w).
Definition the_peer (w : world) : peer := up (ctx w).
Definition remaining (w : world) : gset Z := rem_reqid (ctx w).

Definition on_comq {A} (m : M CommQueue A) : M world A := on queue set_comq m.
Definition on_vh {A} (m : M heap A) : M world A := on vh set_vh m.

(** [prog_mtx.try_lock()].  The mutex is recursive: a function called by the
    progress thread while it holds the lock gets it. *)
Definition try_lock : M world bool := fun w =>
  match progress_thread (ctx w), trylocks w with
  | T_running, _ | _, [] => (Ret true, w)
  | _, b :: l => (Ret b, mkWorld (ctx w) (vh w) (survival w) (waitpids w) l (issued w))
  end.

(** [waitpid(cpid, &status, WNOHANG) == cpid] *)
Definition child_ended : M world bool := fun w =>
  match waitpids w with
  | [] => (Ret false, w)
  | b :: l => (Ret b, mkWorld (ctx w) (vh w) (survival w) l (trylocks w) (issued w))
  end.

(** The functions passed to [veo_call_async_vh] and the helpers of the API, with their
    argument.  They run in the progress thread, on the world of the context: a
    function may work on the VH memory and may ask for results, as the helpers do; it
    does not submit requests. *)
Class VhFuncs := vh_call : vh_func -> Z -> M world Z.

(** Functions that work on the VH memory only. *)
Class VhLocal (VF : VhFuncs) := {
  vh_heap : vh_func -> Z -> M heap Z;
  vh_local : forall func arg w, vh_call func arg w = on_vh (vh_heap func arg) w;
}.

(** VH functions that are never called: [_progress_nolock(false)] executes none. *)
Definition no_vh : VhFuncs := fun _ _ => stop Undef.
#[export] Instance no_vh_local : VhLocal no_vh.
Proof. exists (fun _ _ => stop Undef). by intros ? ? []. Defined.

Definition set_survival (b : bool) (w : world) : world :=
  mkWorld (ctx w) (vh w) b (waitpids w) (trylocks w) (issued w).

(** ** Request IDs *)

(** [__atomic_fetch_add(&this->seq_no, 1)] *)
Definition fetch_add_seq_no : M world Z := fun w =>
  let c := ctx w in
  (Ret (seq_no c),
   mkWorld (mkContext (comq c) (state c) (is_main c) (u64 (seq_no c + 1)) (ve_sp c) (up c)
              (rem_reqid c) (count c) (progress_thread c))
     (vh w) (survival w) (waitpids w) (trylocks w) (issued w + 1)).

(** Two rounds of the loop are enough: the number after the invalid one is 0. *)
Definition issueRequestID : M world Z :=
  let! r := fetch_add_seq_no in
  let! r := (if r =? VEO_REQUEST_ID_INVALID then fetch_add_seq_no else ret r) in
  modify (fun w => set_rem ({[r]} ∪ remaining w) w) ;;;
  ret r.

Definition is_alive (w : world) : bool :=
  if decide (state (ctx w) = VEO_STATE_EXIT) then false
  else if negb (Z.land (urpc_get_receiver_flags (the_peer w)) URPC_FLAG_EXITED =? 0) then false
  else true.

(** [comq.notifyAll()]: wakes the progress thread up when there are requests. *)
Definition notifyAll : M world unit := fun w =>
  match CommQueueOps.notifyAll (queue w), progress_thread (ctx w) with
  | true, T_asleep => (Ret tt, set_thread T_awake w)
  | _, _ => (Ret tt, w)
  end.

(** [_peekResult]: the status and, if [*retp] is written, its value. *)
Definition _peekResult (reqid : Z) : M world (Z * option Z) :=
  let! rem := gets remaining in
  if negb (bool_decide (reqid ∈ rem)) then ret (VEO_COMMAND_ERROR, None)
  else
    let! c := on_comq (CommQueueOps.peekCompletion reqid) in
    match c with
    | Some c =>
        modify (fun w => set_rem (remaining w ∖ {[reqid]}) w) ;;;
        ret (status c, Some (retval c))
    | None => ret (VEO_COMMAND_UNFINISHED, None)
    end.

(** What [*retp] holds afterwards. *)
Definition written (old : Z) (r : Z * option Z) : Z := default old (snd r).

(** ** The functions of the commands *)
Section Functions.
Context `{Indet} `{VF : VhFuncs}.

(** The values [urpc_generic_send] reads for its arguments. *)
Definition send_uval (m : mem) (a : send_arg) : uval :=
  match a with
  | SA_L v => VL v
  | SA_P p n => VP (mem_read m p (Z.to_nat n))
  end.

(** The end every submit function has. *)
Definition submitted (req : Z) (cmd : Command) : M world (Z * Command) :=
  if 0 <=? req then ret (0, setURPCReq req VEO_COMMAND_UNFINISHED cmd)
  else if req =? - EAGAIN then ret (- EAGAIN, cmd)
  else ret (-1, setResult 0 VEO_COMMAND_ERROR cmd).

Definition generic_send (urpc_cmd : Z) (fmt : string) (args : list uval) : M world Z := fun w =>
  let '(r, p) := urpc_generic_send (the_peer w) urpc_cmd fmt args in (Ret r, set_up p w).

(** The result of a sub-request of a large call: nothing is asked for an
    invalid ID. *)
Definition sub_result (req : Z) : M world (Z * option Z) :=
  if req =? VEO_REQUEST_ID_INVALID then ret (VEO_COMMAND_OK, None) else _peekResult req.

Definition run_largecall (writereq callreq readreq stack : Z) (copyout : bool)
    (copyout_func : option (list Arg.out_copy)) (cmd : Command) : M world (Z * Command) :=
  let! w_ := sub_result writereq in
  let! c_ := sub_result callreq in
  let result := written 0 c_ in
  let! r_ := sub_result readreq in
  (if (fst r_ =? VEO_COMMAND_OK) && copyout
   then match copyout_func with
        | None => throw std_bad_function_call
        | Some fs => on_vh (run_copyout (FromMem stack) fs)
        end
   else ret tt) ;;;
  on_vh (delete_char stack) ;;;
  if negb (fst w_ =? VEO_COMMAND_OK) then ret (0, setResult result (fst w_) cmd)
  else if negb (fst c_ =? VEO_COMMAND_OK) then ret (0, setResult result (fst c_) cmd)
  else if negb (fst r_ =? VEO_COMMAND_OK) then ret (0, setResult result (fst r_) cmd)
  else ret (0, setResult result VEO_COMMAND_OK cmd).

Definition call_vh_func (func : vh_func) (arg : Z) : M world Z :=
  match func with
  | synchronize_func => ret 0
  | _ => vh_call func arg
  end.

(** [operator()()]: the submit function (VE) or the handler (VH). *)
Definition run_submit (cmd : Command) : M world (Z * Command) :=
  match code cmd with
  | C_call regs stack_top stack_size copyin copyout stack addr _ _ => fun w =>
      let '(req, p) := send_call_nolock (the_peer w) (h_mem (vh w)) (ve_sp (ctx w)) addr regs
                         stack_top stack_size copyin copyout stack in
      submitted req cmd (set_up p w)
  | C_generic urpc_cmd fmt args =>
      let! m := gets (fun w => h_mem (vh w)) in
      let! req := generic_send urpc_cmd fmt (send_uval m <$> args) in
      submitted (i32 req) cmd
  | C_sendbuff dst src size _ =>
      let! m := gets (fun w => h_mem (vh w)) in
      let! req := generic_send URPC_CMD_SENDBUFF "LP"
                    [VL dst; VP (mem_read m src (Z.to_nat size))] in
      submitted (i32 req) cmd
  | C_recvbuff dst src size _ =>
      let! req := generic_send URPC_CMD_RECVBUFF "LLL" [VL src; VL dst; VL size] in
      submitted (i32 req) cmd
  | C_empty => ret (0, setResult 0 VEO_COMMAND_OK cmd)
  | C_largecall writereq callreq readreq stack copyout copyout_func =>
      run_largecall writereq callreq readreq stack copyout copyout_func cmd
  | C_vh func arg =>
      let! rv := call_vh_func func arg in
      ret (0, setResult rv VEO_COMMAND_OK cmd)
  end.

(** The status of the previous request of a chain and the value it leaves. *)
Definition chain_result (prev : Z) : M world (Z * Z) :=
  if prev =? VEO_REQUEST_ID_INVALID then ret (VEO_COMMAND_OK, 0)
  else
    let! r := _peekResult prev in
    ret (fst r, written 0 r).

(** [operator()(m, payload, plen)]: the result function.  A VH command has
    none. *)
Definition run_unpack (cmd : Command) (m : Z * payload) : M world (Z * Command) :=
  match code cmd with
  | C_call _ _ _ _ _ stack _ copyout_func stack_ =>
      let! '(rv, result) := on_vh (unpack_call_result m copyout_func indet stack_) in
      (if stack_ =? 0 then on_vh (delete_char stack) else ret tt) ;;;
      if rv <? 0 then
        modify (set_state VEO_STATE_EXIT) ;;;
        ret (rv, setResult result VEO_COMMAND_EXCEPTION cmd)
      else ret (0, setResult result VEO_COMMAND_OK cmd)
  | C_generic _ _ _ =>
      if fst m =? URPC_CMD_ACK then ret (0, setResult 0 VEO_COMMAND_OK cmd)
      else if negb (fst m =? URPC_CMD_RES_STK) then
        let! '(rv, result) := on_vh (unpack_call_result m None indet 0) in
        if rv <? 0 then
          modify (set_state VEO_STATE_EXIT) ;;;
          ret (rv, setResult result VEO_COMMAND_EXCEPTION cmd)
        else ret (0, setResult result VEO_COMMAND_OK cmd)
      else ret (0, cmd)
  | C_sendbuff _ _ _ prev =>
      let! '(status, result) := chain_result prev in
      if fst m =? URPC_CMD_EXCEPTION then
        ret (- URPC_CMD_SENDBUFF, setResult (- URPC_CMD_SENDBUFF) VEO_COMMAND_EXCEPTION cmd)
      else ret (0, setResult result status cmd)
  | C_recvbuff dst _ size prev =>
      let '(_, vs) := urpc_unpack_payload (snd m) "LP" in
      let buffsz := match vs !! 1%nat with Some (VP b) => Z.of_nat (length b) | _ => indet end in
      if negb (dst =? got_L vs 0 indet) then
        ret (-1, setResult (- URPC_CMD_RECVBUFF) VEO_COMMAND_EXCEPTION cmd)
      else if negb (size =? buffsz) then
        ret (-1, setResult (- URPC_CMD_RECVBUFF) VEO_COMMAND_EXCEPTION cmd)
      else
        (match vs !! 1%nat with
         | Some (VP b) => on_vh (store dst b)
         | _ => stop Undef
         end) ;;;
        let! '(status, result) := chain_result prev in
        ret (0, setResult result status cmd)
  | C_empty | C_largecall _ _ _ _ _ _ | C_vh _ _ => throw std_bad_function_call
  end.
End Functions.

(** ** Progress *)
Section Progress.
Context `{Indet} `{VF : VhFuncs} `{BucketOrder}.

(** How a round of the loop of [_progress_nolock] ends: [recvd + sent > 0],
    [recvd + sent == 0], or a return statement. *)
Inductive round := Again | Idle | Return (v : Z).

Definition get_cmd : M world (Z * (Z * payload)) := fun w =>
  let '(r, m, p) := urpc_get_cmd (the_peer w) in (Ret (r, m), set_up p w).

Definition exit_and_cancel : M world round :=
  modify (set_state VEO_STATE_EXIT) ;;;
  on_comq CommQueueOps.cancelAll ;;;
  ret (Return (-1)).

(** A reply to the URPC request [req] has arrived. *)
Definition receive (req : Z) (m : Z * payload) : M world round :=
  let! cmd := on_comq (CommQueueOps.popInFlight req) in
  match cmd with
  | None => throw (VEOException "URPC req without corresponding cmd!?" req)
  | Some cmd =>
      let! '(rv, cmd) := run_unpack cmd m in
      modify (fun w => set_up (urpc_slot_done (the_peer w) req) w) ;;;
      (if negb (nowait cmd) then on_comq (CommQueueOps.pushCompletion cmd) else ret tt) ;;;
      if rv <? 0 then exit_and_cancel else ret Again
  end.

(** Submit the request at the head of the queue. *)
Definition submit_next (execVH : bool) : M world round :=
  let! cmd := on_comq CommQueueOps.tryPopRequest in
  match cmd with
  | None => ret Idle
  | Some cmd =>
      if is_vh cmd then
        let! free := gets (fun w => CommQueueOps.emptyInFlight (queue w)) in
        if free && execVH then
          let! '(_, cmd) := run_submit cmd in
          on_comq (CommQueueOps.pushCompletion cmd) ;;;
          ret Again
        else
          on_comq (CommQueueOps.pushRequestFront cmd) ;;;
          ret (Return 1)
      else
        let! '(rv, cmd) := run_submit cmd in
        if rv =? 0 then
          on_comq (CommQueueOps.pushInFlight cmd) ;;; ret Again
        else if rv =? - EAGAIN then
          on_comq (CommQueueOps.pushRequestFront cmd) ;;; ret Idle
        else
          on_comq (CommQueueOps.pushCompletion (setResult rv VEO_COMMAND_ERROR cmd)) ;;;
          ret Idle
  end.

(** Nothing was received or sent: every 100th time, look for the VE process. *)
Definition check_process : M world round :=
  let! n := gets (fun w => count (ctx w)) in
  let! r := (if n mod 100 =? 0 then
               let! aveorun_is_alive := gets survival in
               if aveorun_is_alive then
                 let! ended := child_ended in
                 if ended then modify (set_survival false) ;;; exit_and_cancel else ret Idle
               else exit_and_cancel
             else ret Idle) in
  match r with
  | Idle => modify (fun w => set_count (u64 (count (ctx w) + 1)) w) ;;; ret Idle
  | _ => ret r
  end.

Definition progress_round (execVH : bool) : M world round :=
  let! '(req, m) := get_cmd in
  if 0 <=? req then receive req m
  else
    let! slot := gets (fun w => urpc_next_send_slot (the_peer w)) in
    if slot <? 0 then ret Idle
    else
      let! r := submit_next execVH in
      match r with
      | Idle => check_process
      | _ => ret r
      end.

Fixpoint progress_loop (n : nat) (execVH : bool) : M world Z :=
  match n with
  | O => stop NoFuel
  | S n =>
      let! r := progress_round execVH in
      match r with
      | Again => progress_loop n execVH
      | Idle => ret 0
      | Return v => ret v
      end
  end.

(** Every round but the last completes or sends a command. *)
Definition work (q : CommQueue) : nat := (2 * length (request q) + size (inflight q))%nat.

Definition _progress_nolock (execVH : bool) : M world Z := fun w =>
  progress_loop (S (work (queue w))) execVH w.

Definition progress : M world unit :=
  let! idle := gets (fun w => CommQueueOps.emptyInFlight (queue w)) in
  if negb idle then ret tt
  else
    let! locked := try_lock in
    if locked then _progress_nolock false ;;; ret tt else ret tt.

Fixpoint progressExec (n : nat) : M world unit :=
  let! active := gets (fun w => CommQueueOps.isActive (queue w)) in
  if negb active then ret tt
  else
    match n with
    | O => stop NoFuel
    | S n => _progress_nolock true ;;; progressExec n
    end.

Definition waitProgress : M world bool := on_comq CommQueueOps.waitRequest.

(** What [progress_main] does from the moment it is awake until it sleeps
    again or leaves. *)
Definition progress_main (n : nat) : M world unit :=
  let! t := gets (fun w => progress_thread (ctx w)) in
  match t with
  | T_awake =>
      let! term := gets (fun w => terminateFlag (queue w)) in
      if term then modify (set_thread T_exited)
      else
        modify (set_thread T_running) ;;;
        progressExec n ;;;
        let! s := gets (fun w => state (ctx w)) in
        if decide (s = VEO_STATE_EXIT) then modify (set_thread T_exited)
        else
          let! term := gets (fun w => terminateFlag (queue w)) in
          if term then modify (set_thread T_exited) else modify (set_thread T_asleep)
  | _ => ret tt
  end.

Definition progressInit : M world bool :=
  modify (set_thread T_asleep) ;;; ret true.

(** [comq.terminate()] and [pthread_join]: the thread wakes up and finishes. *)
Definition progressTerminate (n : nat) : M world unit :=
  let! t := gets (fun w => progress_thread (ctx w)) in
  match t with
  | T_none => ret tt
  | _ =>
      on_comq CommQueueOps.terminate ;;;
      modify (fun w => match progress_thread (ctx w) with
                       | T_asleep => set_thread T_awake w
                       | _ => w
                       end) ;;;
      progress_main n ;;;
      modify (set_thread T_none)
  end.

(** ** Results *)

Definition callPeekResult (reqid : Z) : M world (Z * option Z) :=
  let! locked := try_lock in
  (if locked then _progress_nolock false ;;; ret tt else ret tt) ;;;
  _peekResult reqid.

(** [comq.waitCompletion]: while the caller sleeps, the progress thread runs,
    if it is awake; when the caller is the progress thread, nobody does. *)
Definition waitCompletion (n : nat) (reqid : Z) : M world Command := fun w =>
  match on_comq (CommQueueOps.waitCompletion reqid) w with
  | (Blocked, w) => (progress_main n ;;; on_comq (CommQueueOps.waitCompletion reqid)) w
  | r => r
  end.

(** The loop of [callWaitResult]: the result, or [None] when it is left to
    wait for the progress thread. *)
Fixpoint poll_result (n : nat) (reqid : Z) : M world (option (Z * option Z)) :=
  match n with
  | O => stop NoFuel
  | S n =>
      let! locked := try_lock in
      if negb locked then ret None
      else
        let! rv := _progress_nolock false in
        if 0 <? rv then ret None
        else
          let! r := _peekResult reqid in
          if negb (fst r =? VEO_COMMAND_UNFINISHED) then ret (Some r)
          else poll_result n reqid
  end.

Definition callWaitResult (n : nat) (reqid : Z) : M world (Z * option Z) :=
  let! r := poll_result n reqid in
  match r with
  | Some r => ret r
  | None =>
      notifyAll ;;;
      let! rem := gets remaining in
      if negb (bool_decide (reqid ∈ rem)) then ret (VEO_COMMAND_ERROR, None)
      else
        let! c := waitCompletion n reqid in
        let! rem := gets remaining in
        if negb (bool_decide (reqid ∈ rem)) then ret (VEO_COMMAND_ERROR, None)
        else
          modify (fun w => set_rem (remaining w ∖ {[reqid]}) w) ;;;
          ret (status c, Some (retval c))
  end.

(** ** Requests *)

(** [comq.pushRequest(cmd)], which reports success always. *)
Definition push_request (cmd : Command) : M world Z := on_comq (CommQueueOps.pushRequest cmd).

Definition genericAsyncReq (urpc_cmd : Z) (fmt : string) (args : list send_arg) : M world Z :=
  let! alive := gets is_alive in
  if negb alive then ret VEO_REQUEST_ID_INVALID
  else
    let! id := issueRequestID in
    let cmd := CommandImpl_ve id (C_generic urpc_cmd fmt args) in
    let! cmd := (if urpc_cmd =? URPC_CMD_ACS_PCIRCVSYC then
                   modify (fun w => set_rem (remaining w ∖ {[id]}) w) ;;;
                   ret (setNowaitFlag true cmd)
                 else ret cmd) in
    let! rc := push_request cmd in
    if negb (rc =? 0) then ret VEO_REQUEST_ID_INVALID
    else progress ;;; notifyAll ;;; ret id.

(** A null function pointer is [user_func 0]. *)
Definition callVHAsync (func : vh_func) (arg : Z) : M world Z :=
  let! alive := gets is_alive in
  if bool_decide (func = user_func 0) || negb alive then ret VEO_REQUEST_ID_INVALID
  else
    let! id := issueRequestID in
    push_request (CommandImpl_vh id (C_vh func arg)) ;;;
    notifyAll ;;;
    ret id.

Definition synchronize (n : nat) : M world unit :=
  let! req_id := callVHAsync synchronize_func 0 in
  if negb (req_id =? 0) then callWaitResult n req_id ;;; ret tt else ret tt.
End Progress.

(** ** Lemmas *)

Lemma keeps_vh_call `{VH : !VhLocal VF} (P : world -> Prop) func arg :
  (forall m : M heap Z, keeps P (on_vh m)) -> keeps P (vh_call func arg).
Proof. intros HP w Hw. rewrite vh_local. by apply HP. Qed.

Lemma try_lock_free w : trylocks w = [] -> try_lock w = (Ret true, w).
Proof. intros Ht. unfold try_lock. rewrite Ht. by destruct (progress_thread _). Qed.

(** In the progress thread the lock is held already. *)
Lemma try_lock_running w : progress_thread (ctx w) = T_running -> try_lock w = (Ret true, w).
Proof. intros Ht. unfold try_lock. by rewrite Ht. Qed.
End World.
