(* ===== verification/Example.v ===== *)
(** * An example system

    A VE process behind queues ([Ve.v]) and an idle context connected to it: the
    concrete input of the examples. *)

From Stdlib Require Import ZArith.
From stdpp Require Import base gmap list numbers.
From S2P Require Import Prelude CallArgs Command Urpc Ve Context.

Open Scope Z_scope.

Definition demo_indet : Indet := 0.
Definition demo_func (func : vh_func) (arg : Z) : Z :=
  match func with user_func addr => addr + arg | _ => arg end.
Definition demo_vh `{Urpc} : VhFuncs := fun func arg => ret (demo_func func arg).
#[export] Instance demo_local `{Urpc} : VhLocal demo_vh.
Proof. exists (fun func arg => ret (demo_func func arg)). by intros ? ? []. Defined.
Definition demo_urpc : Urpc := @link_urpc demo_indet demo_machine (8 * 1024 * 1024) 1.
Definition demo_laws : UrpcLaws demo_urpc := @link_laws demo_indet demo_machine (8 * 1024 * 1024) 1.

Definition demo_peer : @peer demo_urpc := @mkLink demo_machine 0 [] 0 demo_ve.

Definition demo_context : @Context demo_urpc :=
  @mkContext demo_urpc new_CommQueue VEO_STATE_RUNNING false 0 demo_sp demo_peer ∅ 0 T_asleep.

Definition demo_world : @world demo_urpc :=
  @mkWorld demo_urpc demo_context (mkHeap (fun x => x mod 256) 8192 ∅) true [] [] 0.
