(* ===== verification/Requests.v ===== *)
(** * The life of a request

    The invariant of a context's queues and their refinement of an abstract
    specification: a request is pending from its submission on, becomes done
    with a status and a value, and is collected once. *)

From Stdlib Require Import ZArith Lia Bool Sorted.
From stdpp Require Import base gmap list numbers sets strings.
From S2P Require Import Prelude CallArgs Command Urpc Context.

Open Scope Z_scope.

(** ** The abstract specification *)

Inductive event :=
  | Submit (id : Z)
  | Finish (id status retval : Z)
  | Drop (id : Z)
  | Collect (id status retval : Z).

(** The requests pending, in the order of their submission, the results not yet
    collected, and the ID of the next request. *)
Record aspec := mkASpec { a_pending : list Z; a_done : gmap Z (Z * Z); a_next : Z }.

(** A request that cannot be sent, or is cancelled, fails out of turn; the
    others finish in the order of submission. *)
Inductive astep : aspec -> event -> aspec -> Prop :=
  | a_submit P D n :
      astep (mkASpec P D n) (Submit n) (mkASpec (P ++ [n]) D (n + 1))
  | a_finish P D n id s v :
      astep (mkASpec (id :: P) D n) (Finish id s v) (mkASpec P (<[id := (s, v)]> D) n)
  | a_fail P1 P2 D n id v :
      astep (mkASpec (P1 ++ id :: P2) D n) (Finish id VEO_COMMAND_ERROR v)
        (mkASpec (P1 ++ P2) (<[id := (VEO_COMMAND_ERROR, v)]> D) n)
  | a_drop P D n id :
      astep (mkASpec (id :: P) D n) (Drop id) (mkASpec P D n)
  | a_collect P D n id s v :
      D !! id = Some (s, v) ->
      astep (mkASpec P D n) (Collect id s v) (mkASpec P (delete id D) n).

Inductive aexec : aspec -> list event -> aspec -> Prop :=
  | aexec_nil a : aexec a [] a
  | aexec_cons a e b tr c : astep a e b -> aexec b tr c -> aexec a (e :: tr) c.

Lemma aexec_app a tr1 b tr2 c : aexec a tr1 b -> aexec b tr2 c -> aexec a (tr1 ++ tr2) c.
Proof. induction 1; simpl; [done|]. intros. econstructor; eauto. Qed.

Lemma aexec_one a e b : astep a e b -> aexec a [e] b.
Proof. intros. econstructor; [done|constructor]. Qed.

#[export] Hint Resolve aexec_nil aexec_one : aveo.

(** ** Views

    The part of a world the invariant speaks of. *)

Record view := mkView {
  v_q : CommQueue;
  v_rem : gset Z;
  v_seq : Z;
  v_issued : Z;
  v_out : list Z;
  v_exit : bool;
}.

Definition v_set_q (q : CommQueue) (v : view) : view :=
  mkView q (v_rem v) (v_seq v) (v_issued v) (v_out v) (v_exit v).

(** The commands in flight in the order of the replies to come, and all that
    is pending. *)
Definition flying (v : view) : list Command := omap (fun r => inflight (v_q v) !! r) (v_out v).
Definition pipeline (v : view) : list Command := flying v ++ request (v_q v).

Definition alpha (v : view) : aspec :=
  mkASpec (msgid <$> pipeline v) ((fun c => (status c, retval c)) <$> completion (v_q v))
    (v_issued v).

(** ** The invariant *)

Definition closure_vh (c : closure) : bool :=
  match c with
  | C_empty | C_largecall _ _ _ _ _ _ | C_vh _ _ => true
  | _ => false
  end.

Definition is_generic (c : Command) : bool :=
  match code c with C_generic _ _ _ => true | _ => false end.

(** The requests whose results the functions of a command ask for. *)
Definition deps (c : closure) : list Z :=
  match c with
  | C_sendbuff _ _ _ prev | C_recvbuff _ _ _ prev =>
      filter (fun x => x ≠ VEO_REQUEST_ID_INVALID) [prev]
  | C_largecall writereq callreq readreq _ _ _ =>
      filter (fun x => x ≠ VEO_REQUEST_ID_INVALID) [writereq; callreq; readreq]
  | _ => []
  end.

(** The statuses of a finished command; the result function of a generic
    request leaves the status alone when the reply is [URPC_CMD_RES_STK]. *)
Definition final (s : Z) : Prop :=
  s = VEO_COMMAND_OK \/ s = VEO_COMMAND_EXCEPTION \/ s = VEO_COMMAND_ERROR.
Definition settled (c : Command) : Prop :=
  final (status c) \/ (is_generic c = true /\ status c = VEO_COMMAND_UNFINISHED).

Definition held (hand : list Command) (q : CommQueue) (c : Command) : Prop :=
  c ∈ hand \/ c ∈ request q \/ (exists k, inflight q !! k = Some c) \/
  (exists k, completion q !! k = Some c).

(** What the functions of a command leave as it is. *)
Definition same_cmd (c c' : Command) : Prop :=
  msgid c = msgid c' /\ nowait c = nowait c' /\ is_vh c = is_vh c' /\ code c = code c'.

Lemma same_cmd_refl c : same_cmd c c.
Proof. by unfold same_cmd. Qed.
Lemma same_cmd_setResult r s c : same_cmd (setResult r s c) c.
Proof. by unfold same_cmd. Qed.
Lemma same_cmd_setURPCReq r s c : same_cmd (setURPCReq r s c) c.
Proof. by unfold same_cmd. Qed.
Lemma same_cmd_trans c1 c2 c3 : same_cmd c1 c2 -> same_cmd c2 c3 -> same_cmd c1 c3.
Proof. unfold same_cmd. intuition congruence. Qed.
Lemma same_cmd_generic c c' : same_cmd c c' -> is_generic c = is_generic c'.
Proof. unfold is_generic. by intros (_ & _ & _ & ->). Qed.

#[export] Hint Resolve same_cmd_refl same_cmd_setResult same_cmd_setURPCReq : aveo.

(** The request [d] is an old one and not a generic one. *)
Definition dep_ok (hand : list Command) (d : Z) (v : view) : Prop :=
  0 <= d < v_issued v /\
  forall c', held hand (v_q v) c' -> msgid c' = d -> is_generic c' = false.

Section Invariant.
(** The IDs known to be those of requests that are not generic. *)
Context (ng : Z -> Prop).

(** [core hand v]: the order among the commands, [hand] being worked on. *)
Record core (hand : list Command) (v : view) : Prop := {
  core_queue : queue_ok (msgid <$> hand) (v_q v);
  core_seq : v_seq v = v_issued v;
  core_bound : 0 <= v_issued v < 2 ^ 64;
  core_old : forall id, id ∈ (msgid <$> hand) ++ tokens (v_q v) -> id < v_issued v;
  core_rem : forall id, id ∈ v_rem v -> id ∈ (msgid <$> hand) ++ tokens (v_q v);
  core_waited : forall c, held hand (v_q v) c -> nowait c = false -> msgid c ∈ v_rem v;
  core_nowait : forall c, held hand (v_q v) c -> nowait c = true ->
    is_generic c = true /\ msgid c ∉ v_rem v;
  core_order : StronglySorted Z.lt (msgid <$> (hand ++ pipeline v));
  core_kind : forall c, held hand (v_q v) c -> is_vh c = closure_vh (code c);
  core_flying : forall k c, inflight (v_q v) !! k = Some c ->
    is_vh c = false /\ status c = VEO_COMMAND_UNFINISHED;
  core_deps : forall c d, held hand (v_q v) c -> d ∈ deps (code c) ->
    0 <= d < msgid c /\ forall c', held hand (v_q v) c' -> msgid c' = d -> is_generic c' = false;
  core_done : forall k c, completion (v_q v) !! k = Some c -> settled c;
  core_ng : forall d, ng d -> dep_ok hand d v;
}.

(** The commands in flight are those ve-urpc will answer. *)
Definition linked (v : view) : Prop :=
  NoDup (v_out v) /\ forall k, is_Some (inflight (v_q v) !! k) <-> k ∈ v_out v.

(** After [cancelAll] replies may be left for commands that are gone. *)
Definition dead (v : view) : Prop :=
  v_exit v = true /\ inflight (v_q v) = ∅ /\
  forall c, c ∈ request (v_q v) -> is_vh c = true.

Definition inv (hand : list Command) (v : view) : Prop :=
  core hand v /\ (linked v \/ dead v).

(** ** Transferring the invariant *)

(** The commands of one state come from those of another. *)
Definition held_from (hand' : list Command) (q' : CommQueue) (hand : list Command) (q : CommQueue)
    : Prop :=
  forall c, held hand' q' c -> exists d, held hand q d /\ same_cmd c d.

Lemma core_transfer hand v hand' v' :
  core hand v ->
  queue_ok (msgid <$> hand') (v_q v') ->
  v_seq v' = v_seq v -> v_issued v' = v_issued v ->
  (forall id, id ∈ (msgid <$> hand') ++ tokens (v_q v') ->
     id ∈ (msgid <$> hand) ++ tokens (v_q v)) ->
  (forall id, id ∈ v_rem v' -> id ∈ (msgid <$> hand') ++ tokens (v_q v')) ->
  (forall id, id ∈ v_rem v' -> id ∈ v_rem v) ->
  (forall c, held hand' (v_q v') c -> msgid c ∈ v_rem v -> msgid c ∈ v_rem v') ->
  StronglySorted Z.lt (msgid <$> (hand' ++ pipeline v')) ->
  held_from hand' (v_q v') hand (v_q v) ->
  (forall k c, inflight (v_q v') !! k = Some c ->
     is_vh c = false /\ status c = VEO_COMMAND_UNFINISHED) ->
  (forall k c, completion (v_q v') !! k = Some c -> settled c) ->
  core hand' v'.
Proof.
  intros C Hq Es Ei Htok Hrem Hsub Hw Hord Hfrom Hfl Hdone.
  split; [done|by rewrite Es, Ei; apply C|by rewrite Ei; apply C| |done| | |done| |done| |done|].
  - intros id Hid. rewrite Ei. by apply (core_old _ _ C), Htok.
  - intros c Hc Hn. destruct (Hfrom c Hc) as (d & Hd & S). pose proof S as (E1 & E2 & _).
    apply Hw; [done|]. rewrite E1. apply (core_waited _ _ C d Hd). congruence.
  - intros c Hc Hn. destruct (Hfrom c Hc) as (d & Hd & S). rewrite (same_cmd_generic _ _ S).
    destruct S as (E1 & E2 & _). rewrite E1. destruct (core_nowait _ _ C d Hd) as [Hg Hr];
      [congruence|]. split; [done|]. by intros ?%Hsub.
  - intros c Hc. destruct (Hfrom c Hc) as (d & Hd & (_ & _ & -> & ->)). by apply (core_kind _ _ C).
  - intros c d Hc Hdep. destruct (Hfrom c Hc) as (e & He & (Em & _ & _ & Ecode)).
    rewrite Ecode in Hdep. rewrite Em. destruct (core_deps _ _ C e d He Hdep) as [Hr Hg].
    split; [done|]. intros c' Hc' Ed. destruct (Hfrom c' Hc') as (f & Hf & S).
    rewrite (same_cmd_generic _ _ S). apply Hg; [done|]. destruct S as (<- & _). done.
  - intros d Hd. destruct (core_ng _ _ C d Hd) as [Hr Hg]. split; [by rewrite Ei|].
    intros c' Hc' Ed. destruct (Hfrom c' Hc') as (f & Hf & S).
    rewrite (same_cmd_generic _ _ S). apply Hg; [done|]. destruct S as (<- & _). done.
Qed.

(** The IDs of the commands held are the tokens. *)
Lemma held_tokens hand q c : held hand q c -> msgid c ∈ (msgid <$> hand) ++ tokens q.
Proof.
  unfold tokens. rewrite !elem_of_app. intros [H|[H|[[k H]|[k H]]]].
  - left. by apply list_elem_of_fmap_2.
  - right. left. by apply list_elem_of_fmap_2.
  - right. right. left. apply elem_of_map_ids. eauto.
  - right. right. right. apply elem_of_map_ids. eauto.
Qed.

Section Flying.
Implicit Types (m : gmap Z Command) (out : list Z).

Lemma flying_delete m r out :
  r ∉ out -> omap (fun k => delete r m !! k) out = omap (fun k => m !! k) out.
Proof.
  induction out as [|k out IH]; [done|]. intros [Hne Hr]%not_elem_of_cons.
  cbn [omap list_omap]. rewrite lookup_delete_ne by done.
  change (list_omap ?A ?B ?f ?l) with (omap f l). by rewrite IH.
Qed.

Lemma flying_insert_old m r c out :
  r ∉ out -> omap (fun k => <[r := c]> m !! k) out = omap (fun k => m !! k) out.
Proof.
  induction out as [|k out IH]; [done|]. intros [Hne Hr]%not_elem_of_cons.
  cbn [omap list_omap]. rewrite lookup_insert_ne by done.
  change (list_omap ?A ?B ?f ?l) with (omap f l). by rewrite IH.
Qed.

Lemma flying_insert m r c out :
  r ∉ out -> omap (fun k => <[r := c]> m !! k) (out ++ [r]) = omap (fun k => m !! k) out ++ [c].
Proof.
  intros Hr. rewrite omap_app, flying_insert_old by done. simpl.
  by rewrite lookup_insert_eq.
Qed.

Lemma flying_empty out : omap (fun k => (∅ : gmap Z Command) !! k) out = [].
Proof. induction out; [done|]. cbn [omap list_omap]. by rewrite lookup_empty. Qed.
End Flying.

(** Under the invariant, what is in flight is in the pipeline. *)
Lemma inv_flying v k c :
  linked v \/ dead v -> inflight (v_q v) !! k = Some c -> c ∈ flying v.
Proof.
  intros [[_ Hl]|(_ & E & _)] Hk.
  - apply list_elem_of_omap. exists k. split; [|done]. apply Hl. eauto.
  - rewrite E, lookup_empty in Hk. done.
Qed.

Lemma flying_inflight v c : c ∈ flying v -> exists k, inflight (v_q v) !! k = Some c.
Proof. intros (k & _ & Hk)%list_elem_of_omap. eauto. Qed.

Lemma flying_dead v : inflight (v_q v) = ∅ -> flying v = [].
Proof. unfold flying. intros ->. apply flying_empty. Qed.

(** A request the context remembers is at hand, pending or completed. *)
Lemma rem_cases hand v d :
  inv hand v -> d ∈ v_rem v ->
  d ∈ msgid <$> (hand ++ pipeline v) \/ exists c, completion (v_q v) !! d = Some c.
Proof.
  intros [C Hl] Hrem. pose proof (core_rem _ _ C d Hrem) as Htok. unfold tokens in Htok.
  rewrite fmap_app, elem_of_app. rewrite !elem_of_app in Htok.
  destruct Htok as [H|[H|[H|H]]]; [tauto|..].
  - left. right. unfold pipeline. rewrite fmap_app, elem_of_app. by right.
  - left. right. apply elem_of_map_ids in H as (k & e & Hk & <-).
    apply list_elem_of_fmap_2, elem_of_app. left. by apply (inv_flying v k).
  - right. apply map_ids_keyed in H as [e He]; [eauto|apply (qok_completion _ _ (core_queue _ _ C))].
Qed.

(** Everything behind the first command of the line has a larger ID. *)
Lemma order_head hand v c l d :
  inv hand v -> hand ++ pipeline v = c :: l -> d ∈ msgid <$> (hand ++ pipeline v) -> msgid c <= d.
Proof.
  intros [C _] E. pose proof (core_order _ _ C) as Hs. rewrite E in *. cbn [fmap list_fmap] in *.
  change (list_fmap ?A ?B ?f ?x) with (f <$> x) in *.
  apply StronglySorted_inv in Hs as [_ Hs]. rewrite Forall_forall in Hs.
  intros [->|Hd]%elem_of_cons; [done|]. apply Z.lt_le_incl, Hs, Hd.
Qed.

(** A pending command of a smaller ID than the one at hand is done. *)
Lemma dep_done c v d :
  inv [c] v -> d ∈ deps (code c) -> d ∈ v_rem v ->
  exists c', completion (v_q v) !! d = Some c' /\ final (status c').
Proof.
  intros Hi Hd Hrem. pose proof Hi as [C Hl].
  assert (Hheld : held [c] (v_q v) c) by (left; by apply list_elem_of_singleton).
  destruct (core_deps _ _ C c d Hheld Hd) as [Hlt Hgen].
  destruct (rem_cases _ _ _ Hi Hrem) as [Hp|[e He]].
  { pose proof (order_head _ _ c (pipeline v) d Hi eq_refl Hp). lia. }
  exists e. split; [done|]. destruct (core_done _ _ C _ _ He) as [|[Hg _]]; [done|].
  rewrite (Hgen e) in Hg; [done| |].
  - right; right; right. eauto.
  - symmetry. by apply (qok_completion _ _ (core_queue _ _ C)).
Qed.

(** ** The transitions of a view *)

Ltac elems := repeat (rewrite elem_of_cons in * || rewrite elem_of_app in *);
  rewrite ?list_elem_of_singleton in *.

(** The reply to the oldest request in flight: its command is taken. *)
Definition v_reply (r : Z) (out : list Z) (v : view) : view :=
  mkView (set_inflight (delete r (inflight (v_q v))) (v_q v)) (v_rem v) (v_seq v) (v_issued v)
    out (v_exit v).

Lemma v_reply_pipeline r out v c :
  linked v -> v_out v = r :: out -> inflight (v_q v) !! r = Some c ->
  pipeline v = c :: pipeline (v_reply r out v).
Proof.
  intros [Hnd Hl] Eo Ec. unfold pipeline, flying, v_reply. cbn [v_q v_out inflight request set_inflight].
  rewrite Eo in *. apply NoDup_cons in Hnd as [Hr Hnd]. cbn [omap list_omap]. rewrite Ec.
  change (list_omap ?A ?B ?f ?l) with (omap f l). by rewrite flying_delete.
Qed.

Lemma v_reply_inv r out v c :
  inv [] v -> linked v -> v_out v = r :: out -> inflight (v_q v) !! r = Some c ->
  inv [c] (v_reply r out v).
Proof.
  intros [C _] Hlink Eo Ec. pose proof (v_reply_pipeline _ _ _ _ Hlink Eo Ec) as Hp.
  pose proof (core_queue _ _ C) as Hq.
  pose proof (pop_inflight_ok _ _ _ _ Hq Ec) as Hq'.
  split.
  - eapply core_transfer; [exact C|exact Hq'|done|done| | |done|done| | | |apply C].
    + cbn [app fmap list_fmap v_q v_reply]. intros id. unfold tokens.
      cbn [request inflight completion set_inflight].
      rewrite (map_ids_delete _ _ _ Ec). elems. tauto.
    + cbn [v_rem v_reply v_q]. intros id Hid%(core_rem _ _ C). revert Hid.
      unfold tokens. cbn [request inflight completion set_inflight app fmap list_fmap].
      rewrite (map_ids_delete _ _ _ Ec). elems. tauto.
    + cbn [app]. rewrite <- Hp. apply C.
    + intros d Hd. exists d. split; [|apply same_cmd_refl]. unfold held in *.
      cbn [v_q v_reply request inflight completion set_inflight] in Hd.
      destruct Hd as [->%list_elem_of_singleton|[Hd|[[k Hk]|Hd]]]; [right; right; left; eauto
        |tauto| |tauto].
      apply lookup_delete_Some in Hk as [_ Hk]. right; right; left; eauto.
    + cbn [v_q v_reply inflight set_inflight].
      intros k d [_ Hd]%lookup_delete_Some. by apply (core_flying _ _ C k).
  - left. destruct Hlink as [Hnd Hl]. unfold linked. cbn [v_out v_reply v_q inflight set_inflight].
    rewrite Eo in *. apply NoDup_cons in Hnd as [Hr Hnd]. split; [done|]. intros k.
    rewrite lookup_delete_is_Some, Hl, elem_of_cons. split; [by intros [Hne [->|Hk]]|].
    intros Hk. split; [congruence|by right].
Qed.

(** The command at the head of the request queue is taken, nothing in flight. *)
Definition v_take (l : list Command) (v : view) : view := v_set_q (set_request l (v_q v)) v.

Lemma v_take_pipeline l v c :
  inflight (v_q v) = ∅ -> request (v_q v) = c :: l ->
  pipeline v = c :: pipeline (v_take l v).
Proof.
  intros Ei Er. unfold pipeline. rewrite !flying_dead by done. simpl. by rewrite Er.
Qed.

Lemma v_take_inv l v c :
  inv [] v -> inflight (v_q v) = ∅ -> request (v_q v) = c :: l -> inv [c] (v_take l v).
Proof.
  intros [C Hl] Ei Er. pose proof (v_take_pipeline _ _ _ Ei Er) as Hp.
  pose proof (pop_request_ok _ _ _ _ (core_queue _ _ C) Er) as Hq'. split.
  - eapply core_transfer; [exact C|exact Hq'|done|done| | |done|done| | |apply C|apply C].
    + intros id. unfold tokens. simpl. rewrite Er. simpl. elems. tauto.
    + cbn [v_rem v_take v_set_q]. intros id Hid%(core_rem _ _ C). revert Hid.
      unfold tokens. simpl. rewrite Er. simpl. elems. tauto.
    + cbn [app]. rewrite <- Hp. apply C.
    + intros d Hd. exists d. split; [|apply same_cmd_refl]. unfold held in *. simpl in Hd.
      rewrite Er. elems. tauto.
  - destruct Hl as [Hl|(H1 & H2 & H3)]; [by left|right]. split_and!; [done|done|].
    simpl. intros d Hd. apply H3. rewrite Er. elems. tauto.
Qed.

(** The command at hand, with its result, becomes completed. *)
Definition v_complete (c : Command) (v : view) : view :=
  v_set_q (set_completion (BlockingMap.insert c (completion (v_q v))) (v_q v)) v.

Lemma v_complete_spec hand c c' v :
  core (c :: hand) v -> same_cmd c' c ->
  completion (v_q v) !! msgid c = None /\
  v_complete c' v = v_set_q (set_completion (<[msgid c := c']> (completion (v_q v))) (v_q v)) v /\
  queue_ok (msgid <$> hand) (v_q (v_complete c' v)) /\
  tokens (v_q (v_complete c' v)) ≡ₚ msgid c :: tokens (v_q v).
Proof.
  intros C (Em & _). pose proof (core_queue _ _ C) as Hq. cbn [fmap list_fmap] in Hq.
  change (list_fmap ?A ?B ?f ?l) with (f <$> l) in Hq. rewrite <- Em in Hq.
  destruct (insert_completion_ok _ _ _ Hq) as (H1 & H2 & H3 & H4).
  rewrite <- Em. split_and!; [done| |done|done].
  unfold v_complete. by rewrite H2.
Qed.

Lemma v_complete_inv c c' v :
  inv [c] v -> same_cmd c' c -> settled c' ->
  inv [] (v_complete c' v) /\
  aexec (mkASpec (msgid c :: (msgid <$> pipeline v)) (a_done (alpha v)) (v_issued v))
    [Finish (msgid c) (status c') (retval c')] (alpha (v_complete c' v)).
Proof.
  intros [C Hl] Hs Hf. destruct (v_complete_spec _ _ _ _ C Hs) as (Hn & E & Hq & Ht). split.
  - split; [|done].
    eapply core_transfer; [exact C|exact Hq|done|done| | |done|done| | |apply C|].
    + intros id. cbn [fmap list_fmap app]. rewrite Ht. done.
    + intros id Hid%(core_rem _ _ C). cbn [fmap list_fmap app] in *. by rewrite Ht.
    + pose proof (core_order _ _ C) as Ho. cbn [app fmap list_fmap] in Ho.
      by apply StronglySorted_inv in Ho as [Ho _].
    + rewrite E. intros d Hd. unfold held in *. cbn [v_q v_set_q request inflight completion set_completion] in Hd.
      destruct Hd as [Hd|[Hd|[Hd|[k [[<- <-]|[_ Hk]]%lookup_insert_Some]]]].
      * by apply not_elem_of_nil in Hd.
      * exists d. eauto 10 with aveo.
      * exists d. eauto 10 with aveo.
      * exists c. split; [left; by apply list_elem_of_singleton|done].
      * exists d. split; [|apply same_cmd_refl]. eauto.
    + rewrite E. cbn [v_q v_set_q completion set_completion].
      intros k d [[<- <-]|[_ Hk]]%lookup_insert_Some; [done|].
      by apply (core_done _ _ C k).
  - apply aexec_one. unfold alpha. rewrite E.
    cbn [v_q v_set_q completion set_completion a_done]. rewrite fmap_insert.
    apply (a_finish (msgid <$> pipeline v)).
Qed.

(** The command at hand is dropped: nobody will ask for its result. *)
Lemma v_drop_inv c v :
  inv [c] v -> nowait c = true ->
  inv [] v /\ aexec (mkASpec (msgid c :: (msgid <$> pipeline v)) (a_done (alpha v)) (v_issued v))
                [Drop (msgid c)] (alpha v).
Proof.
  intros [C Hl] Hn. split; [|apply aexec_one, a_drop]. split; [|done].
  assert (Hheld : held [c] (v_q v) c) by (left; by apply list_elem_of_singleton).
  destruct (core_nowait _ _ C c Hheld Hn) as [_ Hr].
  pose proof (core_queue _ _ C) as Hq. cbn [fmap list_fmap] in Hq.
  eapply core_transfer; [exact C| |done|done| | |done|done| | |apply C|apply C].
  - destruct Hq as [Q1 Q2 Q3 Q4]. apply NoDup_cons in Q1 as [_ Q1].
    apply Forall_cons_iff in Q2 as [_ Q2]. by split.
  - intros id. simpl. elems. tauto.
  - intros id Hid. pose proof (core_rem _ _ C _ Hid) as Hin. cbn [fmap list_fmap app] in *.
    elems. destruct Hin as [->|]; done.
  - pose proof (core_order _ _ C) as Ho. cbn [app fmap list_fmap] in Ho.
    by apply StronglySorted_inv in Ho as [Ho _].
  - intros d Hd. exists d. split; [|apply same_cmd_refl]. unfold held in *.
    destruct Hd as [Hd|Hd]; [by apply not_elem_of_nil in Hd|by right].
Qed.

(** A result is collected. *)
Definition v_collect (id : Z) (v : view) : view :=
  mkView (set_completion (delete id (completion (v_q v))) (v_q v)) (v_rem v ∖ {[id]})
    (v_seq v) (v_issued v) (v_out v) (v_exit v).

Lemma v_collect_tokens id v c :
  completion (v_q v) !! id = Some c ->
  tokens (v_q v) ≡ₚ msgid c :: tokens (v_q (v_collect id v)).
Proof.
  intros Ec. unfold tokens. cbn [v_q v_collect request inflight completion set_completion].
  rewrite (map_ids_delete _ _ _ Ec). by rewrite !Permutation_middle.
Qed.

Lemma v_collect_inv hand id v c :
  inv hand v -> completion (v_q v) !! id = Some c ->
  inv hand (v_collect id v) /\
  forall P, astep (mkASpec P (a_done (alpha v)) (v_issued v)) (Collect id (status c) (retval c))
              (mkASpec P (a_done (alpha (v_collect id v))) (v_issued v)).
Proof.
  intros [C Hl] Ec. pose proof (core_queue _ _ C) as Hq.
  pose proof (v_collect_tokens _ _ _ Ec) as Ht.
  pose proof (qok_completion _ _ Hq _ _ Ec) as ->.
  assert (Hnd : (msgid c ∉ (msgid <$> hand) ++ tokens (v_q (v_collect (msgid c) v))) /\
                queue_ok (msgid <$> hand) (v_q (v_collect (msgid c) v))).
  { destruct Hq as [Q1 Q2 Q3 Q4]. rewrite Ht, <- Permutation_middle in Q1, Q2.
    apply NoDup_cons in Q1 as [Q1 Q1']. apply Forall_cons_iff in Q2 as [_ Q2].
    split; [done|]. split; [done|done| |done].
    cbn [v_q v_collect completion set_completion].
    intros k d [_ Hd]%lookup_delete_Some. by apply Q3. }
  destruct Hnd as [Hnotin Hq']. split.
  - split; [|exact Hl].
    eapply core_transfer; [exact C|exact Hq'|done|done| | | | |apply C| |apply C|].
    + intros x Hx. rewrite Ht. elems. tauto.
    + cbn [v_rem v_collect]. intros x [Hx Hne]%elem_of_difference.
      pose proof (core_rem _ _ C _ Hx) as Hin. rewrite Ht in Hin. elems.
      rewrite elem_of_singleton in Hne. tauto.
    + cbn [v_rem v_collect]. by intros x [? _]%elem_of_difference.
    + cbn [v_rem v_collect]. intros d Hd Hr. apply elem_of_difference. split; [done|].
      intros E%elem_of_singleton. apply Hnotin.
      pose proof (held_tokens _ _ _ Hd) as Hin. by rewrite E in Hin.
    + intros d Hd. exists d. split; [|apply same_cmd_refl]. unfold held in *.
      cbn [v_q v_collect request inflight completion set_completion] in Hd.
      destruct Hd as [Hd|[Hd|[Hd|[k [_ Hk]%lookup_delete_Some]]]]; eauto.
    + cbn [v_q v_collect completion set_completion].
      intros k d [_ Hd]%lookup_delete_Some. by apply (core_done _ _ C k).
  - intros P. unfold alpha. cbn [a_done v_q v_collect completion set_completion].
    rewrite fmap_delete. apply a_collect. by rewrite lookup_fmap, Ec.
Qed.

(** The request at the head of the queue is sent. *)
Definition v_send (c : Command) (l : list Command) (r : Z) (v : view) : view :=
  mkView (set_inflight (<[r := c]> (inflight (v_q v))) (set_request l (v_q v)))
    (v_rem v) (v_seq v) (v_issued v) (v_out v ++ [r]) (v_exit v).

Lemma v_send_inv c l r v :
  inv [] v -> linked v -> request (v_q v) = c :: l -> is_vh c = false ->
  r ∉ v_out v -> in_u64 r ->
  let c' := setURPCReq r VEO_COMMAND_UNFINISHED c in
  inv [] (v_send c' l r v) /\ alpha (v_send c' l r v) = alpha v.
Proof.
  intros [C _] [Hnd Hl] Er Hvh Hr Hu c'.
  assert (Hfree : inflight (v_q v) !! r = None).
  { destruct (inflight (v_q v) !! r) eqn:E; [|done]. exfalso. apply Hr, Hl. eauto. }
  assert (Hp : msgid <$> pipeline (v_send c' l r v) = msgid <$> pipeline v).
  { unfold pipeline, flying, v_send. cbn [v_q v_out inflight request set_inflight set_request].
    rewrite flying_insert by done. rewrite Er, <- app_assoc. rewrite !fmap_app. done. }
  pose proof (pop_request_ok _ _ _ _ (core_queue _ _ C) Er) as Hq.
  destruct (push_inflight_ok [] (set_request l (v_q v)) c' Hq) as [Ei Hq'].
  { cbn [urpc_req setURPCReq c' inflight set_request]. by rewrite u64_small. }
  cbn [urpc_req setURPCReq c' inflight set_request] in Ei, Hq'.
  rewrite u64_small in Ei by done. rewrite Ei in Hq'.
  assert (Ht : tokens (v_q (v_send c' l r v)) ≡ₚ tokens (v_q v)).
  { unfold tokens. cbn [v_q v_send request inflight completion set_inflight set_request].
    rewrite map_ids_insert by done. rewrite Er. cbn [fmap list_fmap app].
    change (list_fmap ?A ?B ?f ?x) with (f <$> x). by rewrite <- !Permutation_middle. }
  split; [split|].
  - eapply core_transfer; [exact C|exact Hq'|done|done| | |done|done| | | |apply C].
    + intros x. cbn [fmap list_fmap app]. by rewrite Ht.
    + intros x Hx%(core_rem _ _ C). cbn [fmap list_fmap app] in *. by rewrite Ht.
    + cbn [app]. rewrite Hp. apply C.
    + intros d Hd. unfold held in *.
      cbn [v_q v_send request inflight completion set_inflight set_request] in Hd.
      destruct Hd as [Hd|[Hd|[[k [[<- <-]|[_ Hk]]%lookup_insert_Some]|Hd]]].
      * by apply not_elem_of_nil in Hd.
      * exists d. rewrite Er. elems. eauto 10 with aveo.
      * exists c. rewrite Er. elems. eauto 10 with aveo.
      * exists d. eauto 10 with aveo.
      * exists d. eauto 10 with aveo.
    + cbn [v_q v_send inflight set_inflight set_request].
      intros k d [[<- <-]|[_ Hk]]%lookup_insert_Some; [done|]. by apply (core_flying _ _ C k).
  - left. unfold linked. cbn [v_q v_send v_out inflight set_inflight set_request]. split.
    + apply NoDup_app. split_and!; [done| |apply NoDup_singleton].
      by intros k Hk ->%list_elem_of_singleton.
    + intros k. rewrite lookup_insert_is_Some', Hl, elem_of_app, list_elem_of_singleton.
      intuition congruence.
  - unfold alpha. by rewrite Hp.
Qed.

(** The request at the head of the queue cannot be sent. *)
Definition v_fail (c : Command) (l : list Command) (v : view) : view :=
  v_complete c (v_take l v).

Lemma sorted_fmap_app_cons (c : Command) l1 l2 :
  StronglySorted Z.lt (msgid <$> (l1 ++ c :: l2)) -> StronglySorted Z.lt (msgid <$> (l1 ++ l2)).
Proof.
  induction l1 as [|a l1 IH]; cbn [app fmap list_fmap]; intros Hs;
    apply StronglySorted_inv in Hs as [H1 H2]; [done|].
  constructor; [by apply IH|]. revert H2. change (list_fmap ?A ?B ?f ?x) with (f <$> x).
  rewrite !Forall_forall. intros H2 x Hx. apply H2. rewrite fmap_app in *. cbn. elems. tauto.
Qed.

Lemma v_fail_inv c c' l v :
  inv [] v -> request (v_q v) = c :: l -> same_cmd c' c -> status c' = VEO_COMMAND_ERROR ->
  inv [] (v_fail c' l v) /\
  astep (alpha v) (Finish (msgid c) (status c') (retval c')) (alpha (v_fail c' l v)).
Proof.
  intros [C Hl] Er Hs Hst.
  pose proof (pop_request_ok _ _ _ _ (core_queue _ _ C) Er) as Hq.
  assert (Hq0 : queue_ok (msgid c' :: (msgid <$> [])) (set_request l (v_q v)))
    by (destruct Hs as (-> & _); exact Hq).
  destruct (insert_completion_ok _ _ _ Hq0) as (Hn & Ei & Ht & Hq').
  assert (Ht' : tokens (v_q (v_fail c' l v)) ≡ₚ tokens (v_q v)).
  { unfold v_fail, v_complete. cbn [v_q v_set_q v_take]. rewrite Ht. unfold tokens. simpl.
    rewrite Er. destruct Hs as (-> & _). done. }
  assert (E : v_fail c' l v =
              v_set_q (set_completion (<[msgid c := c']> (completion (v_q v)))
                         (set_request l (v_q v))) v).
  { unfold v_fail, v_complete. cbn [v_take v_set_q v_q completion set_request v_rem v_seq v_issued v_out v_exit].
    cbn [completion set_request] in Ei. rewrite Ei. by destruct Hs as (-> & _). }
  assert (Hp : pipeline v = flying v ++ c :: l) by (unfold pipeline; by rewrite Er).
  assert (Hp' : pipeline (v_fail c' l v) = flying v ++ l) by (by rewrite E).
  split; [split|].
  - eapply core_transfer; [exact C|exact Hq'|done|done| | |done|done| | | |].
    + intros x. cbn [fmap list_fmap app]. by rewrite Ht'.
    + intros x Hx%(core_rem _ _ C). cbn [fmap list_fmap app] in *. by rewrite Ht'.
    + cbn [app]. rewrite Hp'. apply (sorted_fmap_app_cons c). rewrite <- Hp. apply C.
    + rewrite E. intros d Hd. unfold held in *.
      cbn [v_q v_set_q request inflight completion set_completion set_request] in Hd.
      destruct Hd as [Hd|[Hd|[Hd|[k [[<- <-]|[_ Hk]]%lookup_insert_Some]]]].
      * by apply not_elem_of_nil in Hd.
      * exists d. rewrite Er. elems. eauto 10 with aveo.
      * exists d. eauto 10 with aveo.
      * exists c. rewrite Er. elems. eauto 10.
      * exists d. eauto 10 with aveo.
    + rewrite E. apply C.
    + rewrite E. cbn [v_q v_set_q completion set_completion set_request].
      intros k d [[<- <-]|[_ Hk]]%lookup_insert_Some; [|by apply (core_done _ _ C k)].
      left. right. by right.
  - rewrite E. destruct Hl as [Hl|(D1 & D2 & D3)]; [by left|right].
    split_and!; [done|done|]. cbn [v_q v_set_q request set_completion set_request].
    intros d Hd. apply D3. rewrite Er. elems. tauto.
  - unfold alpha. rewrite Hp', Hp, E, Hst, !fmap_app.
    cbn [v_q v_set_q completion set_completion set_request]. rewrite fmap_insert, Hst.
    apply a_fail.
Qed.

(** Everything is cancelled. *)
Definition v_cancel (q : CommQueue) (v : view) : view :=
  mkView q (v_rem v) (v_seq v) (v_issued v) (v_out v) true.

Lemma cancelled_lookup hand q q' k c :
  queue_ok hand q -> cancelled hand (pending q) q q' -> request q' = [] -> inflight q' = ∅ ->
  completion q' !! k = Some c ->
  (exists d, pending q d /\ c = setResult 0 VEO_COMMAND_ERROR d) \/ completion q !! k = Some c.
Proof.
  intros Hq [O T Hd Hk _] R I E.
  assert (Hkey : k ∈ tokens q).
  { rewrite <- T. unfold tokens. rewrite R, I, map_ids_empty. cbn [fmap list_fmap app].
    apply map_ids_keyed; [apply (qok_completion _ _ O)|eauto]. }
  unfold tokens in Hkey. rewrite !elem_of_app in Hkey.
  destruct Hkey as [(d & -> & Hin)%list_elem_of_fmap|[(j & d & Hin & <-)%elem_of_map_ids|Hin]].
  - left. exists d. assert (pending q d) as Hp by (by left). split; [done|].
    rewrite (Hd _ Hp) in E. congruence.
  - left. exists d. assert (pending q d) as Hp by (right; eauto). split; [done|].
    rewrite (Hd _ Hp) in E. congruence.
  - right. apply map_ids_keyed in Hin as [d Hin]; [|apply (qok_completion _ _ Hq)].
    rewrite (Hk _ _ Hin) in E. congruence.
Qed.

Lemma aexec_cancel n P : forall D D',
  NoDup P ->
  (forall id, id ∈ P -> D' !! id = Some (VEO_COMMAND_ERROR, 0)) ->
  (forall id, id ∉ P -> D' !! id = D !! id) ->
  aexec (mkASpec P D n) ((fun id => Finish id VEO_COMMAND_ERROR 0) <$> P) (mkASpec [] D' n).
Proof.
  induction P as [|id P IH]; intros D D' Hnd Hin Hout; cbn [fmap list_fmap].
  { assert (D' = D) as -> by (apply map_eq; intros k; apply Hout, not_elem_of_nil). constructor. }
  apply NoDup_cons in Hnd as [Hid Hnd].
  econstructor; [apply a_finish|].
  apply IH; [done| |].
  - intros k Hk. apply Hin. by apply elem_of_cons; right.
  - intros k Hk. destruct (decide (k = id)) as [->|Hne].
    + rewrite lookup_insert_eq. apply Hin, elem_of_cons. by left.
    + rewrite lookup_insert_ne by done. apply Hout. rewrite elem_of_cons. tauto.
Qed.

Lemma sorted_NoDup l : StronglySorted Z.lt l -> NoDup l.
Proof.
  induction 1 as [|x l Hs IH Hx]; constructor; [|done].
  intros Hin. rewrite Forall_forall in Hx. specialize (Hx x Hin). lia.
Qed.

Lemma pending_pipeline v c :
  linked v \/ dead v -> pending (v_q v) c <-> c ∈ pipeline v.
Proof.
  intros Hl. unfold pending, pipeline. rewrite elem_of_app. split.
  - intros [H|[k Hk]]; [by right|left]. by apply (inv_flying v k).
  - intros [H|H]; [right; by apply flying_inflight|by left].
Qed.

Lemma v_cancel_inv v q' :
  inv [] v -> cancelled [] (pending (v_q v)) (v_q v) q' -> request q' = [] -> inflight q' = ∅ ->
  inv [] (v_cancel q' v) /\
  exists tr, aexec (alpha v) tr (alpha (v_cancel q' v)).
Proof.
  intros [C Hl] Hcan R I. pose proof (core_queue _ _ C) as Hq. cbn [fmap list_fmap] in Hq.
  assert (Hlk : forall k c, completion q' !! k = Some c ->
    (exists d, pending (v_q v) d /\ c = setResult 0 VEO_COMMAND_ERROR d) \/
    completion (v_q v) !! k = Some c) by (intros k c; by eapply cancelled_lookup).
  destruct Hcan as [O T Hd Hk Hf].
  assert (Hp : pipeline (v_cancel q' v) = []).
  { unfold pipeline. rewrite flying_dead by done. done. }
  split; [split|].
  - eapply core_transfer; [exact C|exact O|done|done| | |done|done| | | |].
    + intros id. cbn [fmap list_fmap app v_cancel v_q]. by rewrite T.
    + intros id Hid%(core_rem _ _ C). cbn [fmap list_fmap app v_cancel v_q] in *. by rewrite T.
    + rewrite Hp. constructor.
    + intros c [Hc|[Hc|[[k Hc]|[k Hc]]]]; cbn [v_q v_cancel] in *.
      * by apply not_elem_of_nil in Hc.
      * rewrite R in Hc. by apply not_elem_of_nil in Hc.
      * by rewrite I, lookup_empty in Hc.
      * apply Hlk in Hc as [(d & Hpend & ->)|Hc].
        -- exists d. split; [|apply same_cmd_setResult]. destruct Hpend; unfold held; eauto.
        -- exists c. split; [|apply same_cmd_refl]. unfold held; eauto.
    + cbn [v_q v_cancel]. intros k c. by rewrite I, lookup_empty.
    + cbn [v_q v_cancel]. intros k c [(d & _ & ->)|Hc]%Hlk; [|by apply (core_done _ _ C k)].
      left. right. by right.
  - right. split_and!; [done|done|]. cbn [v_q v_cancel]. rewrite R. intros c Hc.
    by apply not_elem_of_nil in Hc.
  - eexists. unfold alpha at 2. rewrite Hp. cbn [fmap list_fmap v_q v_cancel].
    apply aexec_cancel.
    + apply sorted_NoDup, (core_order _ _ C).
    + intros id (c & -> & Hc)%list_elem_of_fmap. rewrite lookup_fmap.
      apply pending_pipeline in Hc; [|done]. by rewrite (Hd _ Hc).
    + intros id Hid. rewrite !lookup_fmap.
      destruct (completion (v_q v) !! id) as [c|] eqn:E; [by rewrite (Hk _ _ E)|].
      destruct (completion q' !! id) as [c|] eqn:E'; [|done]. exfalso.
      pose proof (qok_completion _ _ O _ _ E') as ->.
      apply Hlk in E' as [(d & Hpend & ->)|E']; [|congruence].
      apply Hid. apply pending_pipeline in Hpend; [|done]. cbn [msgid setResult].
      by apply list_elem_of_fmap_2.
Qed.

(** A new request. *)
Definition v_new (c : Command) (v : view) : view :=
  mkView (set_request (request (v_q v) ++ [c]) (v_q v))
    (if nowait c then v_rem v else {[msgid c]} ∪ v_rem v)
    (v_seq v + 1) (v_issued v + 1) (v_out v) (v_exit v).

Record new_ok (c : Command) (v : view) : Prop := {
  new_id : msgid c = v_issued v;
  new_kind : is_vh c = closure_vh (code c);
  new_nowait : nowait c = true -> is_generic c = true;
  new_deps : forall d, d ∈ deps (code c) -> dep_ok [] d v;
  new_live : linked v \/ is_vh c = true;
}.

Lemma v_new_inv c v :
  inv [] v -> v_issued v < 2 ^ 64 - 1 -> new_ok c v ->
  inv [] (v_new c v) /\ astep (alpha v) (Submit (msgid c)) (alpha (v_new c v)).
Proof.
  intros [C Hl] Hb [Nid Nk Nn Nd Nl]. pose proof (core_queue _ _ C) as Hq.
  pose proof (core_bound _ _ C) as Hb0. pose proof (core_old _ _ C) as Hold.
  cbn [fmap list_fmap app] in Hold, Hq.
  assert (Ht : tokens (v_q (v_new c v)) ≡ₚ msgid c :: tokens (v_q v)).
  { unfold tokens. cbn [v_q v_new request inflight completion set_request]. rewrite fmap_app.
    cbn [fmap list_fmap app]. rewrite <- app_assoc. cbn [app]. symmetry. apply Permutation_middle. }
  assert (Hnew : msgid c ∉ tokens (v_q v)) by (intros ?%Hold; lia).
  assert (Hheld : forall d, held [] (v_q (v_new c v)) d -> d = c \/ held [] (v_q v) d).
  { intros d. unfold held. cbn [v_q v_new request inflight completion set_request].
    rewrite elem_of_app, list_elem_of_singleton. tauto. }
  assert (Hhold : forall d, held [] (v_q v) d -> msgid d < v_issued v)
    by (intros d Hd; apply Hold; apply (held_tokens [] _ _ Hd)).
  assert (Hp : pipeline (v_new c v) = pipeline v ++ [c]).
  { unfold pipeline, flying. cbn [v_new v_q v_out inflight request set_request].
    by rewrite app_assoc. }
  assert (Hlt : Forall (fun x => x < msgid c) (msgid <$> pipeline v)).
  { apply Forall_forall. intros x (d & -> & Hd)%list_elem_of_fmap. rewrite Nid. apply Hhold.
    apply (pending_pipeline v d Hl) in Hd. destruct Hd; unfold held; eauto. }
  assert (Hr : msgid c ∉ v_rem v) by (intros ?%(core_rem _ _ C)%Hold; lia).
  split; [split|].
  - split; cbn [v_seq v_issued v_rem v_new fmap list_fmap app].
    + split; cbn [app].
      * rewrite Ht. apply NoDup_cons. split; [done|apply Hq].
      * rewrite Ht. apply Forall_cons_iff. split; [unfold in_u64; lia|apply Hq].
      * apply Hq.
      * apply Hq.
    + by rewrite (core_seq _ _ C).
    + lia.
    + intros id. rewrite Ht, elem_of_cons. intros [->|H%Hold]; lia.
    + intros id Hid. rewrite Ht, elem_of_cons.
      assert (id = msgid c \/ id ∈ v_rem v) as [->|Hid']
        by (destruct (nowait c); [by right|]; rewrite elem_of_union, elem_of_singleton in Hid; tauto);
        [by left|right]. apply (core_rem _ _ C) in Hid'. done.
    + intros d [->|Hd]%Hheld Hn.
      * rewrite Hn. apply elem_of_union. left. by apply elem_of_singleton.
      * pose proof (core_waited _ _ C d Hd Hn). destruct (nowait c); [done|].
        apply elem_of_union. by right.
    + intros d Hd0 Hn. destruct (Hheld _ Hd0) as [->|Hd].
      * rewrite Hn. auto.
      * destruct (core_nowait _ _ C d Hd Hn) as [H1 H2]. split; [done|].
        destruct (nowait c); [done|]. rewrite elem_of_union, elem_of_singleton.
        intros [E|E]; [|done]. pose proof (Hhold d Hd). lia.
    + rewrite Hp, fmap_app. pose proof (core_order _ _ C) as Ho. cbn [app] in Ho.
      clear - Ho Hlt. induction Ho as [|x l Hs IH Hx]; cbn [app fmap list_fmap].
      * constructor; constructor.
      * apply Forall_cons_iff in Hlt as [H1 H2]. constructor; [by apply IH|].
        apply Forall_app. split; [done|]. by constructor.
    + intros d [->|Hd]%Hheld; [done|]. by apply (core_kind _ _ C).
    + apply (core_flying _ _ C).
    + intros d e [->|Hd]%Hheld He.
      * rewrite Nid. destruct (Nd e He) as [H1 H2]. split; [done|].
        intros c' [->|Hc']%Hheld E; [lia|by apply H2].
      * destruct (core_deps _ _ C d e Hd He) as [H1 H2]. split; [done|].
        intros c' [->|Hc']%Hheld E; [|by apply H2]. pose proof (Hhold d Hd). lia.
    + apply (core_done _ _ C).
    + intros d Hd. destruct (core_ng _ _ C d Hd) as [H1 H2]. split; cbn [v_issued v_new]; [lia|].
      intros c' [->|Hc']%Hheld E; [lia|by apply H2].
  - destruct Hl as [Hl|(D1 & D2 & D3)]; [by left|].
    destruct Nl as [Nl|Nl]; [by left|right]. split_and!; [done|done|].
    cbn [v_q v_new request set_request]. intros d. rewrite elem_of_app, list_elem_of_singleton.
    intros [Hd| ->]; auto.
  - unfold alpha. rewrite Hp, fmap_app. cbn [fmap list_fmap v_q v_new completion set_request].
    rewrite Nid. apply a_submit.
Qed.

End Invariant.

Lemma inv_extend ng hand d v :
  inv ng hand v -> dep_ok hand d v -> inv (fun x => ng x \/ x = d) hand v.
Proof. intros [[] Hl] Hd. split; [|done]. split; auto. intros x [Hx| ->]; auto. Qed.

Lemma inv_extend_if (P : Prop) ng hand d v :
  inv ng hand v -> (P -> dep_ok hand d v) -> inv (fun x => ng x \/ (P /\ x = d)) hand v.
Proof. intros [[] Hl] Hd. split; [|done]. split; auto. intros x [Hx|[HP ->]]; auto. Qed.

Lemma inv_weaken (ng ng' : Z -> Prop) hand v :
  inv ng hand v -> (forall x, ng' x -> ng x) -> inv ng' hand v.
Proof. intros [[] Hl] Hd. split; [|done]. split; auto. Qed.
