(* ===== verification/Progress.v ===== *)
(** * Progress of a context

    The operations of [Context.v] keep the invariant of [Requests.v] and refine
    its abstract specification. *)

From Stdlib Require Import ZArith Lia Bool Sorted.
From stdpp Require Import base gmap list numbers sets strings.
From S2P Require Import Prelude CallArgs Command Urpc Context Requests.

Open Scope Z_scope.

Section Progress.
Context `{U : Urpc} `{L : !UrpcLaws U} `{IN : Indet} `{VF : !VhFuncs} `{VH : !VhLocal VF} `{BO : BucketOrder}.
Implicit Types (w : world) (v : view) (P : view -> Prop).

Definition view_of (w : world) : view :=
  mkView (queue w) (remaining w) (seq_no (ctx w)) (issued w) (outstanding (the_peer w))
    (bool_decide (state (ctx w) = VEO_STATE_EXIT)).

(** ** Simulation of the specification

    [sim P m Q]: from a state of [P], [m] keeps the invariant and does steps
    of the abstract specification, up to the [2^64 - 1] IDs there are; its
    result is as [Q] says. *)

Definition evolves (ng : Z -> Prop) (v v' : view) : Prop :=
  inv ng [] v' /\ exists tr, aexec (alpha v) tr (alpha v').

Definition sim {A} (P : view -> Prop) (m : M world A) (Q : A -> view -> Prop) : Prop :=
  forall w, issued w <= issued (snd (m w)) /\
    forall ng a w', inv ng [] (view_of w) -> P (view_of w) -> m w = (Ret a, w') ->
      issued w' < 2 ^ 64 -> evolves ng (view_of w) (view_of w') /\ Q a (view_of w').

Definition any {A} : A -> view -> Prop := fun _ _ => True.

Lemma evolves_refl ng v : inv ng [] v -> evolves ng v v.
Proof. intros Hv. split; [done|]. exists []. constructor. Qed.

Lemma evolves_trans ng v1 v2 v3 : evolves ng v1 v2 -> evolves ng v2 v3 -> evolves ng v1 v3.
Proof.
  intros [_ [t1 E1]] [I3 [t2 E2]]. split; [done|]. exists (t1 ++ t2). by eapply aexec_app.
Qed.

Lemma sim_ret {A} (a : A) P Q : (forall v, P v -> Q a v) -> sim P (ret a) Q.
Proof.
  intros HQ w. split; [done|]. intros ng b w' Hi HP [= <- <-] _.
  split; [by apply evolves_refl|by apply HQ].
Qed.

Lemma sim_stop {A} (o : outcome A) P Q : (forall a, o <> Ret a) -> sim P (stop o) Q.
Proof.
  intros Ho w. split; [done|]. intros ng a w' _ _ [= E _]. by apply Ho in E.
Qed.

Lemma sim_throw {A} e P Q : sim P (throw (A := A) e) Q.
Proof. by apply sim_stop. Qed.

(** Operations on parts the view does not show. *)
Lemma sim_frame {A} (m : M world A) P :
  (forall w, view_of (snd (m w)) = view_of w) -> sim P m (fun _ => P).
Proof.
  intros Hm w. specialize (Hm w). split.
  - change (v_issued (view_of w) <= v_issued (view_of (snd (m w)))). by rewrite Hm.
  - intros ng a w' Hi HP E _. rewrite E in Hm. cbn [snd] in Hm. rewrite Hm.
    split; [by apply evolves_refl|done].
Qed.

Lemma sim_gets {A} (f : world -> A) P : sim P (gets f) (fun _ => P).
Proof. by apply sim_frame. Qed.

Lemma sim_bind {A B} (m : M world A) (k : A -> M world B) P R Q :
  sim P m R -> (forall a, sim (R a) (k a) Q) -> sim P (bind m k) Q.
Proof.
  intros Hm Hk w. destruct (Hm w) as [Hm1 Hm2]. unfold bind.
  destruct (m w) as [o w1] eqn:E. cbn [snd] in Hm1.
  destruct o as [a| | | | |]; [|split; [done|intros; discriminate]..].
  destruct (Hk a w1) as [Hk1 Hk2]. split; [lia|].
  intros ng b w' Hi HP Eb Hb. rewrite Eb in Hk1. cbn [snd] in Hk1.
  destruct (Hm2 ng a w1 Hi HP eq_refl) as [[I1 T1] R1]; [lia|].
  destruct (Hk2 ng b w' I1 R1 Eb Hb) as [E2 Q2]. split; [|done].
  by eapply evolves_trans.
Qed.

Lemma sim_conseq {A} (m : M world A) P P' Q Q' :
  sim P' m Q' -> (forall v, P v -> P' v) -> (forall a v, Q' a v -> Q a v) -> sim P m Q.
Proof.
  intros Hm HP HQ w. destruct (Hm w) as [H1 H2]. split; [done|].
  intros ng a w' Hi Hp E Hb. destruct (H2 ng a w' Hi (HP _ Hp) E Hb). auto.
Qed.

(** What is known not to be a generic request stays known. *)
Lemma sim_dep {A} (m : M world A) P Q d :
  sim P m Q -> sim (fun v => P v /\ dep_ok [] d v) m (fun a v => Q a v /\ dep_ok [] d v).
Proof.
  intros Hm w. destruct (Hm w) as [H1 H2]. split; [done|].
  intros ng a w' Hi [Hp Hd] E Hb.
  destruct (H2 _ a w' (inv_extend _ _ _ _ Hi Hd) Hp E Hb) as [[I' T'] Q']. split; [|split; [done|]].
  - split; [|done]. eapply inv_weaken; [exact I'|]. by left.
  - apply (core_ng _ _ _ (proj1 I')). by right.
Qed.

Lemma sim_if {A} (b : bool) (m1 m2 : M world A) P Q :
  (b = true -> sim P m1 Q) -> (b = false -> sim P m2 Q) -> sim P (if b then m1 else m2) Q.
Proof. destruct b; auto. Qed.

Lemma sim_weak {A} (m : M world A) P Q : sim (fun _ => True) m Q -> sim P m (fun _ _ => True).
Proof. intros Hm. by eapply sim_conseq. Qed.

(** ** Operations that issue no request ID *)

Definition counters (w : world) : Z * Z := (issued w, seq_no (ctx w)).

Definition steady {A} (m : M world A) : Prop := forall k, keeps (fun w => counters w = k) m.

Lemma steady_on_vh {A} (m : M heap A) : steady (on_vh m).
Proof. intros k w Hk. unfold on_vh, on. by destruct (m (vh w)) as [[] ?]. Qed.

Lemma steady_on_comq {A} (m : M CommQueue A) : steady (on_comq m).
Proof. intros k w Hk. unfold on_comq, on. by destruct (m (queue w)) as [[] ?]. Qed.

Lemma steady_modify (f : world -> world) : (forall w, counters (f w) = counters w) -> steady (modify f).
Proof. intros Hf k w Hk. cbn. by rewrite Hf. Qed.

Lemma steady_counters {A} (m : M world A) w : steady m -> counters (snd (m w)) = counters w.
Proof. intros Hm. by apply (keeps_snd m _ _ (Hm _)). Qed.

Lemma steady_issued {A} (m : M world A) w : steady m -> issued (snd (m w)) = issued w.
Proof. intros Hm. pose proof (steady_counters m w Hm) as H. by injection H. Qed.

Lemma steady_lift {A} (o : outcome A) : steady (stop o).
Proof. intros k w Hk. by destruct o. Qed.

Ltac steady_tac :=
  intros k;
  repeat first
    [ apply keeps_ret | apply keeps_throw | apply keeps_gets | apply steady_lift
    | apply steady_on_vh | apply steady_on_comq | (apply keeps_vh_call; intros ?; apply steady_on_vh)
    | (apply steady_modify; intros ?; reflexivity)
    | (apply keeps_bind; [|intros ?])
    | match goal with
      | |- keeps _ (if ?b then _ else _) => destruct b
      | |- keeps _ (match ?x with _ => _ end) => destruct x
      end
    | solve [auto with aveo] ].

Lemma steady_peekResult id : steady (_peekResult id).
Proof. unfold _peekResult. steady_tac. Qed.

Lemma steady_generic_send c f a : steady (generic_send c f a).
Proof. intros k w Hk. unfold generic_send. by destruct (urpc_generic_send _ _ _ _). Qed.

Lemma steady_submitted r c : steady (submitted r c).
Proof. unfold submitted. steady_tac. Qed.

#[local] Hint Extern 1 (keeps _ (_peekResult _)) => apply steady_peekResult : aveo.
#[local] Hint Extern 1 (keeps _ (generic_send _ _ _)) => apply steady_generic_send : aveo.
#[local] Hint Extern 1 (keeps _ (submitted _ _)) => apply steady_submitted : aveo.

Lemma steady_run_submit c : steady (run_submit c).
Proof.
  unfold run_submit, run_largecall, sub_result, call_vh_func.
  destruct (code c); try solve [steady_tac].
  intros k w Hw. destruct (send_call_nolock _ _ _ _ _ _ _ _ _ _). by apply steady_submitted.
Qed.

Lemma steady_run_unpack c m : steady (run_unpack c m).
Proof. unfold run_unpack, chain_result. destruct (code c); steady_tac. Qed.

(** ** Peeking at a result *)

Inductive peeked (id : Z) (v : view) : Z * option Z -> view -> Prop :=
  | peeked_unknown : id ∉ v_rem v -> peeked id v (VEO_COMMAND_ERROR, None) v
  | peeked_unfinished : id ∈ v_rem v -> completion (v_q v) !! id = None ->
      peeked id v (VEO_COMMAND_UNFINISHED, None) v
  | peeked_done c : id ∈ v_rem v -> completion (v_q v) !! id = Some c ->
      peeked id v (status c, Some (retval c)) (v_collect id v).

Lemma inv_rem_u64 ng hand v id : inv ng hand v -> id ∈ v_rem v -> u64 id = id.
Proof.
  intros [C _] Hid%(core_rem _ _ _ C). by apply (queue_ok_id_u64 _ _ (core_queue _ _ _ C)).
Qed.

Lemma _peekResult_spec ng hand id w :
  inv ng hand (view_of w) ->
  exists r w', _peekResult id w = (Ret r, w') /\ peeked id (view_of w) r (view_of w') /\
    vh w' = vh w /\ ctx w' = mkContext (queue w') (state (ctx w)) (is_main (ctx w))
      (seq_no (ctx w)) (ve_sp (ctx w)) (the_peer w) (remaining w') (count (ctx w))
      (progress_thread (ctx w)).
Proof.
  intros Hi. unfold _peekResult, bind, gets. cbn.
  destruct (bool_decide (id ∈ remaining w)) eqn:Hr; cbn [negb].
  2:{ apply bool_decide_eq_false in Hr. exists (VEO_COMMAND_ERROR, None), w.
      split_and!; [done|by constructor|done|]. by destruct w as [[] ? ? ? ? ?]. }
  apply bool_decide_eq_true in Hr. pose proof (inv_rem_u64 _ _ _ _ Hi Hr) as Hu.
  unfold on_comq, on, CommQueueOps.peekCompletion, BlockingMap.tryFind, BlockingMap.tryFindNoWait.
  rewrite Hu. destruct (completion (queue w) !! id) as [c|] eqn:Ec; cbn.
  - eexists _, _. split_and!; [done| |done|done]. by apply peeked_done.
  - eexists _, _. split_and!; [done| |done|done]. 
    assert (E : view_of (set_comq (set_completion (completion (queue w)) (queue w)) w) = view_of w)
      by (unfold view_of; cbn; by destruct (queue w)).
    rewrite E. by apply peeked_unfinished.
Qed.

Lemma peeked_sim id v r v' ng hand : inv ng hand v -> peeked id v r v' ->
  inv ng hand v' /\ pipeline v' = pipeline v /\ inflight (v_q v') = inflight (v_q v) /\
  v_out v' = v_out v /\
  exists tr, forall l, aexec (mkASpec l (a_done (alpha v)) (v_issued v)) tr
      (mkASpec l (a_done (alpha v')) (v_issued v')).
Proof.
  intros Hi [Hr|Hr Hn|c Hr Hc].
  1,2: split_and!; try done; exists []; intros; constructor.
  destruct (v_collect_inv _ _ _ _ _ Hi Hc) as [Hi' Hs]. split_and!; try done.
  eexists. intros P. apply aexec_one, Hs.
Qed.

(** ** The functions of a command, run with the command at hand *)

Record worked (ng : Z -> Prop) (c : Command) (v v' : view) : Prop := {
  wk_inv : inv ng [c] v';
  wk_pipe : pipeline v' = pipeline v;
  wk_inflight : inflight (v_q v') = inflight (v_q v);
  wk_out : v_out v' = v_out v;
  wk_trace : exists tr, forall l,
    aexec (mkASpec l (a_done (alpha v)) (v_issued v)) tr
      (mkASpec l (a_done (alpha v')) (v_issued v'));
}.

Lemma worked_refl ng c v : inv ng [c] v -> worked ng c v v.
Proof. intros Hi. split; try done. exists []. intros; constructor. Qed.

Lemma worked_trans ng c v1 v2 v3 : worked ng c v1 v2 -> worked ng c v2 v3 -> worked ng c v1 v3.
Proof.
  intros [I1 P1 F1 O1 [t1 T1]] [I2 P2 F2 O2 [t2 T2]]. split; [done|congruence..|].
  exists (t1 ++ t2). intros P. eapply aexec_app; eauto.
Qed.

Definition handles {A} (c : Command) (m : M world A) (Q : A -> Prop) : Prop :=
  forall ng w a w', inv ng [c] (view_of w) -> m w = (Ret a, w') ->
    worked ng c (view_of w) (view_of w') /\ Q a.

Lemma handles_ret {A} c (a : A) (Q : A -> Prop) : Q a -> handles c (ret a) Q.
Proof. intros HQ ng w b w' Hi [= <- <-]. split; [by apply worked_refl|done]. Qed.

Lemma handles_stop {A} c (o : outcome A) Q : (forall a, o <> Ret a) -> handles c (stop o) Q.
Proof. intros Ho ng w a w' _ [= E _]. by apply Ho in E. Qed.

Lemma handles_bind {A B} c (m : M world A) (k : A -> M world B) R Q :
  handles c m R -> (forall a, R a -> handles c (k a) Q) -> handles c (bind m k) Q.
Proof.
  intros Hm Hk ng w b w' Hi (a & w1 & E1 & E2)%bind_inv_Ret.
  destruct (Hm _ _ _ _ Hi E1) as [W1 R1].
  destruct (Hk a R1 _ _ _ _ (wk_inv _ _ _ _ W1) E2) as [W2 Q2]. split; [|done].
  by eapply worked_trans.
Qed.

Lemma handles_frame {A} c (m : M world A) :
  (forall w, view_of (snd (m w)) = view_of w) -> handles c m (fun _ => True).
Proof.
  intros Hm ng w a w' Hi E. specialize (Hm w). rewrite E in Hm. cbn [snd] in Hm. rewrite Hm.
  split; [by apply worked_refl|done].
Qed.

Lemma handles_on_vh {A} c (m : M heap A) : handles c (on_vh m) (fun _ => True).
Proof. apply handles_frame. intros w. unfold on_vh, on. by destruct (m (vh w)). Qed.

Lemma handles_exit c : handles c (modify (set_state VEO_STATE_EXIT)) (fun _ => True).
Proof.
  intros ng w a w' [C Hl] [= <- <-]. split; [|done]. split; [split|..]; try done.
  - destruct C. by split.
  - destruct Hl as [Hl|(D1 & D2 & D3)]; [by left|right]. split_and!; try done.
  - exists []. intros; constructor.
Qed.

Lemma handles_peek c d : d ∈ deps (code c) ->
  handles c (_peekResult d) (fun r => final (fst r)).
Proof.
  intros Hd ng w a w' Hi E. destruct (_peekResult_spec _ _ d _ Hi) as (r & w1 & E1 & Hp & _).
  rewrite E in E1. injection E1 as <- <-.
  destruct (peeked_sim _ _ _ _ _ _ Hi Hp) as (I & P & F & O & T). split; [by split|].
  destruct Hp as [Hr|Hr Hn|e Hr He]; cbn [fst].
  - right. by right.
  - destruct (dep_done _ _ _ _ Hi Hd Hr) as (e & He & _). congruence.
  - destruct (dep_done _ _ _ _ Hi Hd Hr) as (e' & He' & Hf). congruence.
Qed.

Lemma handles_chain c prev :
  (prev <> VEO_REQUEST_ID_INVALID -> prev ∈ deps (code c)) ->
  handles c (chain_result prev) (fun r => final (fst r)).
Proof.
  intros Hd. unfold chain_result. destruct (Z.eqb_spec prev VEO_REQUEST_ID_INVALID) as [E|E].
  - apply handles_ret. by left.
  - eapply handles_bind; [by apply handles_peek, Hd|]. intros [s r] Hr. by apply handles_ret.
Qed.

Lemma handles_sub c req :
  (req <> VEO_REQUEST_ID_INVALID -> req ∈ deps (code c)) ->
  handles c (sub_result req) (fun r => final (fst r)).
Proof.
  intros Hd. unfold sub_result. destruct (Z.eqb_spec req VEO_REQUEST_ID_INVALID) as [E|E].
  - apply handles_ret. by left.
  - by apply handles_peek, Hd.
Qed.

(** What a function returns: the same command, with a result. *)
Definition resulted (c : Command) (r : Z * Command) : Prop :=
  same_cmd (snd r) c /\ settled (snd r).

Lemma resulted_setResult c z r s : final s -> resulted c (z, setResult r s c).
Proof. intros Hs. split; [apply same_cmd_setResult|by left]. Qed.

Lemma final_exception : final VEO_COMMAND_EXCEPTION.
Proof. right. by left. Qed.
Lemma final_ok : final VEO_COMMAND_OK.
Proof. by left. Qed.
Hint Resolve resulted_setResult final_exception final_ok : aveo.

(** The chain of [C_sendbuff] and [C_recvbuff] and the parts of a large call
    are requests their commands depend on. *)
Lemma deps_prev c prev :
  deps (code c) = filter (fun x => x ≠ VEO_REQUEST_ID_INVALID) [prev] ->
  prev <> VEO_REQUEST_ID_INVALID -> prev ∈ deps (code c).
Proof. intros -> Hp. apply list_elem_of_filter. split; [done|]. by apply list_elem_of_singleton. Qed.

Lemma handles_unpack_reply c (m : M heap (Z * Z)) (after : M world unit) :
  handles c after (fun _ => True) ->
  handles c
    (let! '(rv, result) := on_vh m in
     after ;;;
     if rv <? 0 then
       modify (set_state VEO_STATE_EXIT) ;;; ret (rv, setResult result VEO_COMMAND_EXCEPTION c)
     else ret (0, setResult result VEO_COMMAND_OK c)) (resulted c).
Proof.
  intros Ha. eapply handles_bind; [apply handles_on_vh|]. intros [rv result] _.
  eapply handles_bind; [exact Ha|]. intros _ _. destruct (rv <? 0).
  - eapply handles_bind; [apply handles_exit|]. intros _ _. apply handles_ret. auto with aveo.
  - apply handles_ret. auto with aveo.
Qed.

Lemma handles_unpack c m :
  status c = VEO_COMMAND_UNFINISHED -> handles c (run_unpack c m) (resulted c).
Proof.
  intros Hst. unfold run_unpack.
  destruct (code c) as [? ? ? ? ? stack ? cf stack_|? ? ?|? ? ? prev|dst ? sz prev| | |] eqn:Ec;
    try by apply handles_stop.
  - apply handles_unpack_reply. destruct (stack_ =? 0); [apply handles_on_vh|by apply handles_ret].
  - destruct (fst m =? URPC_CMD_ACK); [apply handles_ret; auto with aveo|].
    destruct (fst m =? URPC_CMD_RES_STK); cbn [negb].
    + apply handles_ret. split; [apply same_cmd_refl|]. right. unfold is_generic. cbn [snd].
      by rewrite Ec.
    + apply (handles_unpack_reply c _ (ret tt)). by apply handles_ret.
  - assert (Hd : prev <> VEO_REQUEST_ID_INVALID -> prev ∈ deps (code c))
      by (apply deps_prev; by rewrite Ec).
    eapply handles_bind; [by apply handles_chain|].
    intros [s r] Hs. destruct (fst m =? URPC_CMD_EXCEPTION); apply handles_ret; auto with aveo.
  - destruct (urpc_unpack_payload (snd m) "LP") as [? vs].
    destruct (negb (dst =? _)); [apply handles_ret; auto with aveo|].
    destruct (negb (sz =? _)); [apply handles_ret; auto with aveo|].
    eapply handles_bind with (R := fun _ => True).
    { destruct (vs !! 1%nat) as [[]|]; (by apply handles_stop) || apply handles_on_vh. }
    assert (Hd : prev <> VEO_REQUEST_ID_INVALID -> prev ∈ deps (code c))
      by (apply deps_prev; by rewrite Ec).
    intros _ _. eapply handles_bind; [by apply handles_chain|].
    intros [s r] Hs. apply handles_ret. auto with aveo.
Qed.

(** A VH command completes whatever its parts have given. *)
Lemma handles_vh c : closure_vh (code c) = true -> handles c (run_submit c) (resulted c).
Proof.
  intros Hvh. unfold run_submit.
  destruct (code c) as [| | | | |wr cr rr stack co cf|f arg] eqn:Ec; try done.
  - apply handles_ret. auto with aveo.
  - assert (Hin : forall x, In x [wr; cr; rr] -> x <> VEO_REQUEST_ID_INVALID -> x ∈ deps (code c)).
    { intros x Hx Hne. rewrite Ec. apply list_elem_of_filter. split; [done|].
      by apply list_elem_of_In. }
    unfold run_largecall.
    eapply handles_bind; [apply handles_sub, Hin; simpl; tauto|]. intros a Ha.
    eapply handles_bind; [apply handles_sub, Hin; simpl; tauto|]. intros b Hb.
    eapply handles_bind; [apply handles_sub, Hin; simpl; tauto|]. intros d Hd. cbv zeta.
    eapply handles_bind with (R := fun _ => True).
    { destruct (_ && _); [|by apply handles_ret].
      destruct cf; [apply handles_on_vh|by apply handles_stop]. }
    intros _ _. eapply handles_bind; [apply handles_on_vh|]. intros _ _.
    repeat (destruct (negb _); [apply handles_ret; auto with aveo|]).
    apply handles_ret; auto with aveo.
  - eapply handles_bind with (R := fun _ => True).
    { destruct f; [by apply handles_ret| | |]; intros ng w a w' Hi E; cbn [call_vh_func] in E;
        rewrite vh_local in E; by eapply handles_on_vh. }
    intros rv _. apply handles_ret. auto with aveo.
Qed.

(** ** The progress functions *)

Lemma sim_steady {A} (m : M world A) P Q :
  steady m ->
  (forall ng w a w', inv ng [] (view_of w) -> P (view_of w) -> m w = (Ret a, w') ->
     evolves ng (view_of w) (view_of w') /\ Q a (view_of w')) ->
  sim P m Q.
Proof.
  intros Hs Hm w. rewrite (steady_issued _ _ Hs). split; [done|]. intros ng a w' Hi HP E _. eauto.
Qed.

#[local] Hint Extern 1 (keeps _ (run_submit _)) => apply steady_run_submit : aveo.
#[local] Hint Extern 1 (keeps _ (run_unpack _ _)) => apply steady_run_unpack : aveo.

Lemma steady_get_cmd : steady get_cmd.
Proof. intros k w Hk. unfold get_cmd. by destruct (urpc_get_cmd _) as [[] ?]. Qed.
Lemma steady_child_ended : steady child_ended.
Proof. intros k w Hk. unfold child_ended. by destruct (waitpids w). Qed.
Lemma steady_try_lock : steady try_lock.
Proof. intros k w Hk. unfold try_lock. by destruct (progress_thread _), (trylocks w). Qed.
Lemma steady_notifyAll : steady notifyAll.
Proof.
  intros k w Hk. unfold notifyAll.
  by destruct (CommQueueOps.notifyAll (queue w)), (progress_thread (ctx w)).
Qed.
#[local] Hint Extern 1 (keeps _ get_cmd) => apply steady_get_cmd : aveo.
#[local] Hint Extern 1 (keeps _ child_ended) => apply steady_child_ended : aveo.
#[local] Hint Extern 1 (keeps _ try_lock) => apply steady_try_lock : aveo.
#[local] Hint Extern 1 (keeps _ notifyAll) => apply steady_notifyAll : aveo.

Lemma steady_progress_round b : steady (progress_round b).
Proof.
  unfold progress_round, receive, submit_next, check_process, exit_and_cancel. steady_tac.
Qed.
#[local] Hint Extern 1 (keeps _ (progress_round _)) => apply steady_progress_round : aveo.

Lemma steady_progress_loop n b : steady (progress_loop n b).
Proof. induction n as [|n IH]; cbn [progress_loop]; steady_tac; apply IH. Qed.

Lemma steady_progress_nolock b : steady (_progress_nolock b).
Proof. intros k w Hk. by apply steady_progress_loop. Qed.
#[local] Hint Extern 1 (keeps _ (_progress_nolock _)) => apply steady_progress_nolock : aveo.

Lemma exit_and_cancel_spec ng w :
  inv ng [] (view_of w) ->
  exists w', exit_and_cancel w = (Ret (Return (-1)), w') /\
    evolves ng (view_of w) (view_of w') /\
    request (queue w') = [] /\ inflight (queue w') = ∅ /\ state (ctx w') = VEO_STATE_EXIT /\
    the_peer w' = the_peer w.
Proof.
  intros Hi.
  destruct (cancelAll_spec [] (queue w)) as (q' & E & R & F & Hc);
    [exact (core_queue _ _ _ (proj1 Hi))|].
  unfold exit_and_cancel. rewrite (bind_Ret _ _ w tt (set_state VEO_STATE_EXIT w)) by done.
  rewrite (bind_Ret _ _ _ tt (set_comq q' (set_state VEO_STATE_EXIT w)))
    by (unfold on_comq, on; change (queue (set_state VEO_STATE_EXIT w)) with (queue w); by rewrite E).
  eexists. split; [reflexivity|].
  destruct (v_cancel_inv _ _ _ Hi Hc R F) as [Hi' Ht].
  split_and!; [by split|done|done|done|done].
Qed.

Lemma receive_evolves ng w r m p a w' :
  inv ng [] (view_of w) -> urpc_get_cmd (the_peer w) = (r, m, p) -> 0 <= r ->
  receive r m (set_up p w) = (Ret a, w') ->
  evolves ng (view_of w) (view_of w').
Proof.
  intros Hi Eg Hr E. pose proof (get_outstanding _ _ _ _ Eg Hr) as Eo.
  unfold receive in E. apply bind_inv_Ret in E as (oc & w1 & E1 & E).
  unfold on_comq, on, CommQueueOps.popInFlight, BlockingMap.tryFind, BlockingMap.tryFindNoWait in E1.
  change (queue (set_up p w)) with (queue w) in E1.
  destruct Hi as [C [Hl|(_ & D & _)]].
  2:{ cbn [v_q view_of] in D. rewrite D, lookup_empty in E1. injection E1 as <- <-. done. }
  assert (exists c, inflight (queue w) !! r = Some c) as [c Hc].
  { destruct Hl as [_ Hl]. apply Hl. cbn [v_out view_of]. rewrite Eo. apply elem_of_cons. by left. }
  assert (Hu : u64 r = r).
  { rewrite (qok_inflight _ _ (core_queue _ _ _ C) _ _ Hc). apply u64_idem. }
  rewrite Hu, Hc in E1. injection E1 as <- <-.
  set (w1 := set_comq _ _) in E.
  assert (Ev : view_of w1 = v_reply r (outstanding p) (view_of w)) by done.
  pose proof (v_reply_inv _ _ _ _ _ (conj C (or_introl Hl)) Hl Eo Hc) as Hi1.
  pose proof (v_reply_pipeline _ _ _ _ Hl Eo Hc) as Hp. rewrite <- Ev in Hi1, Hp.
  assert (Hst : status c = VEO_COMMAND_UNFINISHED) by apply (core_flying _ _ _ C _ _ Hc).
  apply bind_inv_Ret in E as ([rv c'] & w2 & E2 & E).
  destruct (handles_unpack c m Hst _ _ _ _ Hi1 E2) as [[Hi2 P2 _ _ [tr T]] [Hs Hf]].
  cbn [snd] in Hs, Hf.
  apply bind_inv_Ret in E as ([] & w3 & [= <-] & E).
  set (w3 := set_up _ w2) in E.
  assert (E3 : view_of w3 = view_of w2).
  { unfold view_of. change (the_peer w3) with (urpc_slot_done (the_peer w2) r).
    by rewrite done_outstanding. }
  rewrite <- E3 in Hi2, P2, T.
  assert (Ea : alpha (view_of w) =
    mkASpec (msgid c :: (msgid <$> pipeline (view_of w3))) (a_done (alpha (view_of w1)))
      (v_issued (view_of w1))).
  { unfold alpha at 1. rewrite Hp, P2. done. }
  apply bind_inv_Ret in E as ([] & w4 & E4 & E).
  assert (evolves ng (view_of w) (view_of w4)) as Hev4.
  { destruct (nowait c') eqn:En; cbn [negb] in E4.
    - injection E4 as <-. assert (nowait c = true) as Hn by (destruct Hs as (_ & <- & _); done).
      destruct (v_drop_inv _ _ _ Hi2 Hn) as [I4 T4]. split; [done|].
      eexists. rewrite Ea. eapply aexec_app; [apply T|exact T4].
    - injection E4 as <-.
      destruct (v_complete_inv _ _ _ _ Hi2 Hs Hf) as [I4 T4]. split; [exact I4|].
      eexists. rewrite Ea. eapply aexec_app; [apply T|exact T4]. }
  destruct (rv <? 0); [|by injection E as _ <-].
  destruct (exit_and_cancel_spec ng w4 (proj1 Hev4)) as (w5 & E5 & Hev5 & _).
  rewrite E5 in E. injection E as _ <-. by eapply evolves_trans.
Qed.

(** A VE command is sent with one [urpc_generic_send]. *)
Lemma send_call_generic p m sp addr regs top size ci co buf :
  exists cmd fmt args,
    send_call_nolock p m sp addr regs top size ci co buf = urpc_generic_send p cmd fmt args.
Proof. unfold send_call_nolock. cbv zeta. destruct ci, co; cbn [orb andb negb]; eauto. Qed.

Inductive sent (c : Command) (w : world) : Z -> Command -> world -> Prop :=
  | sent_ok cmd fmt args r p :
      urpc_generic_send (the_peer w) cmd fmt args = (r, p) -> 0 <= r < 2 ^ 31 ->
      sent c w 0 (setURPCReq r VEO_COMMAND_UNFINISHED c) (set_up p w)
  | sent_again cmd fmt args p :
      urpc_generic_send (the_peer w) cmd fmt args = (- EAGAIN, p) ->
      sent c w (- EAGAIN) c (set_up p w)
  | sent_error cmd fmt args r p :
      urpc_generic_send (the_peer w) cmd fmt args = (r, p) -> r < 0 -> r <> - EAGAIN ->
      sent c w (-1) (setResult 0 VEO_COMMAND_ERROR c) (set_up p w).

Lemma submitted_sent c w cmd fmt args r p :
  urpc_generic_send (the_peer w) cmd fmt args = (r, p) ->
  exists rv c', submitted r c (set_up p w) = (Ret (rv, c'), set_up p w) /\
    sent c w rv c' (set_up p w).
Proof.
  intros E. pose proof (send_int _ _ _ _ _ _ E) as Hi. unfold submitted.
  destruct (Z.leb_spec 0 r) as [Hr|Hr].
  - eexists _, _. split; [done|]. eapply sent_ok; [done|lia].
  - destruct (Z.eqb_spec r (- EAGAIN)) as [->|Hne]; eexists _, _.
    + split; [done|]. by eapply sent_again.
    + split; [done|]. by eapply sent_error.
Qed.

Lemma run_submit_ve c w :
  closure_vh (code c) = false ->
  exists rv c' w', run_submit c w = (Ret (rv, c'), w') /\ sent c w rv c' w'.
Proof.
  intros Hve. unfold run_submit.
  assert (Hgen : forall cmd fmt args (k : Z -> M world (Z * Command)),
    (forall req, k req = submitted (i32 req) c) ->
    exists rv c' w', bind (generic_send cmd fmt args) k w = (Ret (rv, c'), w') /\ sent c w rv c' w').
  { intros cmd fmt args k Hk. unfold bind, generic_send.
    destruct (urpc_generic_send (the_peer w) cmd fmt args) as [r p] eqn:E.
    rewrite Hk, i32_small by (apply (send_int _ _ _ _ _ _ E)).
    destruct (submitted_sent c w _ _ _ _ _ E) as (rv & c' & -> & Hs). eauto. }
  destruct (code c) as [regs top size ci co stack addr cf st|cmd fmt args|dst src sz prev
                       |dst src sz prev| | |]; try done.
  - destruct (send_call_generic (the_peer w) (h_mem (vh w)) (ve_sp (ctx w)) addr regs top size ci co
                stack) as (cmd & fmt & args & ->).
    destruct (urpc_generic_send (the_peer w) cmd fmt args) as [r p] eqn:E.
    destruct (submitted_sent c w _ _ _ _ _ E) as (rv & c' & -> & Hs). eauto.
  - rewrite (bind_Ret _ _ w (h_mem (vh w)) w) by done. by apply Hgen.
  - rewrite (bind_Ret _ _ w (h_mem (vh w)) w) by done. by apply Hgen.
  - by apply Hgen.
Qed.

Lemma set_request_id q : set_request (request q) q = q.
Proof. by destruct q. Qed.

Lemma v_put_back l c v :
  request (v_q v) = c :: l -> v_set_q (set_request (c :: l) (set_request l (v_q v))) v = v.
Proof. intros <-. by destruct v as [[] ? ? ? ? ?]. Qed.

Lemma submit_vh_evolves ng w c l a w' :
  inv ng [] (view_of w) -> request (queue w) = c :: l -> is_vh c = true ->
  inflight (queue w) = ∅ ->
  (let! '(_, cmd) := run_submit c in
   on_comq (CommQueueOps.pushCompletion cmd) ;;; ret Again) (set_comq (set_request l (queue w)) w)
    = (Ret a, w') ->
  evolves ng (view_of w) (view_of w').
Proof.
  intros Hi Er Hvh Hf E. set (w1 := set_comq _ w) in E.
  pose proof (v_take_inv _ _ _ _ Hi Hf Er) as Hi1.
  pose proof (v_take_pipeline l (view_of w) c Hf Er) as Hp.
  change (v_take l (view_of w)) with (view_of w1) in Hi1, Hp.
  assert (Hcl : closure_vh (code c) = true).
  { rewrite <- (core_kind _ _ _ (proj1 Hi1)); [done|]. left. by apply list_elem_of_singleton. }
  apply bind_inv_Ret in E as ([rv c'] & w2 & E2 & E).
  destruct (handles_vh c Hcl _ _ _ _ Hi1 E2) as [[Hi2 P2 _ _ [tr T]] [Hs Hfi]].
  cbn [snd] in Hs, Hfi. injection E as _ <-.
  destruct (v_complete_inv _ _ _ _ Hi2 Hs Hfi) as [I4 T4]. split; [exact I4|].
  eexists.
  assert (Ea : alpha (view_of w) =
    mkASpec (msgid c :: (msgid <$> pipeline (view_of w2))) (a_done (alpha (view_of w1)))
      (v_issued (view_of w1))).
  { unfold alpha at 1. rewrite Hp, P2. done. }
  rewrite Ea. eapply aexec_app; [apply T|exact T4].
Qed.

Lemma linked_of_ve v c l :
  linked v \/ dead v -> request (v_q v) = c :: l -> is_vh c = false -> linked v.
Proof.
  intros [|(_ & _ & D)] Er Hvh; [done|]. rewrite (D c) in Hvh; [done|].
  rewrite Er. apply elem_of_cons. by left.
Qed.

Lemma submit_ve_evolves ng w c l rv c' w2 :
  inv ng [] (view_of w) -> request (queue w) = c :: l -> is_vh c = false ->
  let w1 := set_comq (set_request l (queue w)) w in
  sent c w1 rv c' w2 ->
  (rv = 0 -> evolves ng (view_of w) (view_of (snd (on_comq (CommQueueOps.pushInFlight c') w2)))) /\
  (rv = - EAGAIN -> view_of (snd (on_comq (CommQueueOps.pushRequestFront c') w2)) = view_of w) /\
  (rv <> 0 -> rv <> - EAGAIN ->
   evolves ng (view_of w) (view_of (snd (on_comq
     (CommQueueOps.pushCompletion (setResult rv VEO_COMMAND_ERROR c')) w2)))).
Proof.
  intros Hi Er Hvh w1 Hs. pose proof (linked_of_ve (view_of w) _ _ (proj2 Hi) Er Hvh) as Hl.
  destruct Hs as [cmd fmt args r p E Hr|cmd fmt args p E|cmd fmt args r p E Hr Hne].
  - split; [|split; [discriminate|done]]. intros _.
    destruct (send_outstanding _ _ _ _ _ _ E) as [Hnew Eo]; [lia|].
    assert (Hu : in_u64 r) by (unfold in_u64; lia).
    destruct (v_send_inv _ _ _ _ _ Hi Hl Er Hvh Hnew Hu) as [Hi' Ea].
    assert (Ev : view_of (snd (on_comq (CommQueueOps.pushInFlight
                   (setURPCReq r VEO_COMMAND_UNFINISHED c)) (set_up p w1))) =
                 v_send (setURPCReq r VEO_COMMAND_UNFINISHED c) l r (view_of w)).
    { unfold view_of, v_send. cbn -[BlockingMap.insert_id]. rewrite Eo.
      unfold BlockingMap.insert_id. rewrite u64_small by done. cbn [inflight set_request].
      destruct (inflight (queue w) !! r) eqn:E'; [|done].
      exfalso. apply Hnew. apply Hl. eauto. }
    rewrite Ev. split; [done|]. exists []. rewrite Ea. constructor.
  - split; [discriminate|split; [|by intros _ []]]. intros _.
    assert (Eo := send_failed _ _ _ _ _ _ E ltac:(done)).
    transitivity (v_set_q (set_request (c :: l) (set_request l (queue w))) (view_of w)).
    + unfold view_of. cbn. rewrite Eo. done.
    + by apply (v_put_back l c (view_of w)).
  - split; [discriminate|split; [discriminate|]]. intros _ _.
    assert (Eo := send_failed _ _ _ _ _ _ E Hr).
    set (c'' := setResult (-1) VEO_COMMAND_ERROR (setResult 0 VEO_COMMAND_ERROR c)).
    destruct (v_fail_inv _ c c'' l _ Hi Er) as [Hi' Ha]; [done|done|].
    assert (Ev : view_of (snd (on_comq (CommQueueOps.pushCompletion c'') (set_up p w1))) =
                 v_fail c'' l (view_of w)).
    { unfold view_of, v_fail, v_complete, v_take, v_set_q. cbn -[BlockingMap.insert]. by rewrite Eo. }
    rewrite Ev. split; [done|]. eexists. by apply aexec_one.
Qed.

Lemma submit_next_evolves ng w b a w' :
  inv ng [] (view_of w) -> submit_next b w = (Ret a, w') -> evolves ng (view_of w) (view_of w').
Proof.
  intros Hi E. unfold submit_next in E. apply bind_inv_Ret in E as (oc & w1 & E1 & E).
  unfold on_comq, on, CommQueueOps.tryPopRequest, BlockingQueue.popNoWait in E1.
  destruct (request (queue w)) as [|c l] eqn:Er; injection E1 as <- <-.
  { injection E as _ <-. rewrite <- Er, set_request_id. by apply evolves_refl. }
  destruct (is_vh c) eqn:Hvh.
  - apply bind_inv_Ret in E as (fr & w2 & [= <- <-] & E).
    destruct (CommQueueOps.emptyInFlight _) eqn:Hf; cbn [andb] in E.
    1:destruct b.
    + apply (submit_vh_evolves ng w c l a w'); [done|done|done| |done].
      unfold CommQueueOps.emptyInFlight, BlockingMap.empty in Hf. cbn in Hf. by case_decide.
    + injection E as _ <-.
      apply (eq_ind_r (fun v => evolves ng (view_of w) v) (evolves_refl ng _ Hi)).
      exact (v_put_back l c (view_of w) Er).
    + injection E as _ <-.
      apply (eq_ind_r (fun v => evolves ng (view_of w) v) (evolves_refl ng _ Hi)).
      exact (v_put_back l c (view_of w) Er).
  - set (w1 := set_comq _ w) in E.
    assert (Hve : closure_vh (code c) = false).
    { rewrite <- (core_kind _ _ _ (proj1 Hi)); [done|]. right; left. cbn [v_q view_of].
      rewrite Er. apply elem_of_cons. by left. }
    destruct (run_submit_ve c w1 Hve) as (rv & c' & w2 & E2 & Hs).
    rewrite (bind_Ret _ _ _ _ _ E2) in E.
    destruct (submit_ve_evolves ng w c l rv c' w2 Hi Er Hvh Hs) as (S1 & S2 & S3).
    destruct (Z.eqb_spec rv 0) as [Hz|Hz]; [injection E as _ <-; by apply S1|].
    destruct (Z.eqb_spec rv (- EAGAIN)) as [Ha|Ha]; injection E as _ <-; [|by apply S3].
    apply (eq_ind_r (fun v => evolves ng (view_of w) v) (evolves_refl ng _ Hi)).
    exact (S2 Ha).
Qed.

Lemma check_process_evolves ng w a w' :
  inv ng [] (view_of w) -> check_process w = (Ret a, w') -> evolves ng (view_of w) (view_of w').
Proof.
  intros Hi E. unfold check_process in E.
  apply bind_inv_Ret in E as (n & w1 & [= <- <-] & E).
  apply bind_inv_Ret in E as (r & w2 & E2 & E).
  assert (evolves ng (view_of w) (view_of w2)) as Hev.
  { assert (Hx : forall w1, view_of w1 = view_of w -> exit_and_cancel w1 = (Ret r, w2) ->
      evolves ng (view_of w) (view_of w2)).
    { intros w1 Ev Ex. rewrite <- Ev in Hi |- *.
      destruct (exit_and_cancel_spec ng w1 Hi) as (w3 & E3 & Hev & _).
      rewrite Ex in E3. by injection E3 as _ <-. }
    destruct (_ =? 0); [|injection E2 as _ <-; by apply evolves_refl].
    apply bind_inv_Ret in E2 as (al & w3 & [= <- <-] & E2).
    destruct (survival w); [|by apply (Hx w)].
    apply bind_inv_Ret in E2 as (en & w3 & E3 & E2).
    assert (Ev : view_of w3 = view_of w).
    { unfold child_ended in E3. by destruct (waitpids w); injection E3 as _ <-. }
    destruct en; [by apply (Hx (set_survival false w3))|].
    injection E2 as _ <-. rewrite Ev. by apply evolves_refl. }
  destruct r; injection E as _ <-; try done.
Qed.

Lemma progress_round_sim b : sim (fun _ => True) (progress_round b) any.
Proof.
  apply sim_steady; [apply steady_progress_round|]. intros ng w a w' Hi _ E. split; [|done].
  unfold progress_round in E. apply bind_inv_Ret in E as ([r m] & w1 & E1 & E).
  unfold get_cmd in E1. destruct (urpc_get_cmd (the_peer w)) as [[r' m'] p] eqn:Eg.
  injection E1 as -> -> <-.
  destruct (Z.leb_spec 0 r) as [Hr|Hr]; [by eapply receive_evolves|].
  assert (Ev : view_of (set_up p w) = view_of w).
  { unfold view_of. change (the_peer (set_up p w)) with p.
    by rewrite (get_none _ _ _ _ Eg Hr). }
  rewrite <- Ev in Hi |- *.
  apply bind_inv_Ret in E as (slot & w2 & [= <- <-] & E).
  destruct (_ <? 0); [injection E as _ <-; by apply evolves_refl|].
  apply bind_inv_Ret in E as (rd & w3 & E3 & E).
  pose proof (submit_next_evolves _ _ _ _ _ Hi E3) as Hev.
  destruct rd; try (by injection E as _ <-).
  eapply evolves_trans; [exact Hev|]. eapply check_process_evolves; [apply Hev|exact E].
Qed.

Lemma progress_loop_sim n b : sim (fun _ => True) (progress_loop n b) any.
Proof.
  induction n as [|n IH]; cbn [progress_loop]; [by apply sim_stop|].
  eapply sim_bind; [apply progress_round_sim|]. intros [| |v]; [done|by apply sim_ret..].
Qed.

Lemma progress_nolock_sim b : sim (fun _ => True) (_progress_nolock b) any.
Proof. intros w. apply progress_loop_sim. Qed.

(** ** New requests *)

Lemma issueRequestID_spec w :
  exists id w1, issueRequestID w = (Ret id, w1) /\ issued w + 1 <= issued w1 /\
    (seq_no (ctx w) = issued w -> 0 <= issued w < 2 ^ 64 - 1 ->
     id = issued w /\
     view_of w1 = mkView (queue w) ({[issued w]} ∪ remaining w) (issued w + 1) (issued w + 1)
                    (outstanding (the_peer w)) (v_exit (view_of w))).
Proof.
  unfold issueRequestID, bind, fetch_add_seq_no.
  destruct (Z.eqb_spec (seq_no (ctx w)) VEO_REQUEST_ID_INVALID) as [E|E]; cbn.
  - eexists _, _. split; [done|]. cbn. split; [lia|]. unfold VEO_REQUEST_ID_INVALID in E. lia.
  - eexists _, _. split; [done|]. cbn. split; [lia|]. intros Es Hb. split; [done|].
    unfold view_of. cbn. rewrite Es. rewrite u64_small by lia. done.
Qed.

Lemma steady_push_request c : steady (push_request c).
Proof. apply steady_on_comq. Qed.

Section NewRequest.
Context {A : Type} (nw : bool) (mk : Z -> Command) (k : Z -> Z -> M world A)
  (P : view -> Prop) (Q : A -> view -> Prop).
Hypothesis mk_id : forall id, msgid (mk id) = id.
Hypothesis mk_wait : forall id, nowait (mk id) = false.
Hypothesis mk_kind : forall id, is_vh (mk id) = closure_vh (code (mk id)).
Hypothesis mk_nw : nw = true -> forall id, is_generic (mk id) = true.
Hypothesis mk_deps : forall v id d, P v -> d ∈ deps (code (mk id)) -> dep_ok [] d v.
Hypothesis mk_live : forall v, P v -> v_exit v = false \/ forall id, is_vh (mk id) = true.
Hypothesis Hk : forall id,
  sim (fun v => is_generic (mk id) = false -> dep_ok [] id v) (k id 0) Q.

Let final_cmd (id : Z) : Command := if nw then setNowaitFlag true (mk id) else mk id.

Lemma new_request_sim :
  sim P (let! id := issueRequestID in
         let! cmd := (if nw
                      then modify (fun w => set_rem (remaining w ∖ {[id]}) w) ;;;
                           ret (setNowaitFlag true (mk id))
                      else ret (mk id)) in
         let! rc := push_request cmd in
         k id rc) Q.
Proof using All.
  intros w. destruct (issueRequestID_spec w) as (id & w1 & E1 & Hm1 & Hsp).
  rewrite (bind_Ret _ _ _ _ _ E1).
  set (w2 := if nw then set_rem (remaining w1 ∖ {[id]}) w1 else w1).
  rewrite (bind_Ret _ _ w1 (final_cmd id) w2) by (unfold w2, final_cmd; by destruct nw).
  set (w3 := set_comq (set_request (request (queue w2) ++ [final_cmd id]) (queue w2)) w2).
  rewrite (bind_Ret _ _ w2 0 w3) by done.
  destruct (Hk id w3) as [Hm3 Hs3].
  assert (Hi3 : issued w3 = issued w1) by (unfold w3, w2; by destruct nw).
  rewrite Hi3 in Hm3. split; [lia|].
  intros ng a w' Hi HP E Hb. rewrite E in Hm3. cbn [snd] in Hm3.
  pose proof (core_seq _ _ _ (proj1 Hi)) as Hseq. pose proof (core_bound _ _ _ (proj1 Hi)) as Hbd.
  cbn [v_seq v_issued view_of] in Hseq, Hbd.
  destruct (Hsp Hseq) as [Hid Ev1]; [lia|]. clear Hsp.
  pose proof (core_old _ _ _ (proj1 Hi)) as Hold.
  pose proof (core_rem _ _ _ (proj1 Hi)) as Hrem. cbn [fmap list_fmap app v_issued view_of] in Hold, Hrem.
  assert (Hnr : issued w ∉ remaining w) by (intros ?%Hrem%Hold; lia).
  assert (Hfc : msgid (final_cmd id) = id /\ nowait (final_cmd id) = nw /\
                is_vh (final_cmd id) = is_vh (mk id) /\ code (final_cmd id) = code (mk id)).
  { unfold final_cmd. destruct nw; cbn; auto. }
  destruct Hfc as (F1 & F2 & F3 & F4).
  assert (Hv3 : view_of w3 = v_new (final_cmd id) (view_of w)).
  { assert (view_of w2 = mkView (queue w) (if nw then remaining w else {[issued w]} ∪ remaining w)
                  (issued w + 1) (issued w + 1) (outstanding (the_peer w)) (v_exit (view_of w)))
      as Ev2.
    { unfold w2. destruct nw; [|done].
      change (view_of (set_rem (remaining w1 ∖ {[id]}) w1)) with
        (mkView (v_q (view_of w1)) (v_rem (view_of w1) ∖ {[id]}) (v_seq (view_of w1))
           (v_issued (view_of w1)) (v_out (view_of w1)) (v_exit (view_of w1))).
      rewrite Ev1, Hid. cbn [v_q v_rem v_seq v_issued v_out v_exit]. f_equal.
      apply set_eq. intros x. rewrite elem_of_difference, elem_of_union, elem_of_singleton.
      split; [tauto|]. intros Hx. split; [by right|]. intros ->. done. }
    change (view_of w3) with
      (v_set_q (set_request (request (v_q (view_of w2)) ++ [final_cmd id]) (v_q (view_of w2)))
         (view_of w2)).
    rewrite Ev2. unfold v_new, v_set_q. rewrite F2, F1, Hid.
    cbn [v_q v_rem v_seq v_issued v_out v_exit view_of]. rewrite Hseq. done. }
  assert (Hnew : new_ok (final_cmd id) (view_of w)).
  { split.
    - by rewrite F1, Hid.
    - rewrite F3, F4. apply mk_kind.
    - rewrite F2. intros Hnw. unfold is_generic. rewrite F4. by apply mk_nw.
    - rewrite F4. intros d Hd. by eapply mk_deps.
    - rewrite F3. destruct (mk_live _ HP) as [Hx|Hx]; [left|right; apply Hx].
      destruct Hi as [_ [Hl|(D & _)]]; [done|congruence]. }
  destruct (v_new_inv _ _ _ Hi ltac:(cbn; lia) Hnew) as [Hi' Ha]. rewrite <- Hv3 in Hi', Ha.
  destruct (Hs3 ng a w' Hi') as [Hev HQ]; [|done|done|].
  - intros Hg. split; [cbn [v_issued view_of]; rewrite Hi3; lia|].
    intros c' Hc' Eid.
    assert (c' = final_cmd id) as ->.
    { rewrite Hv3 in Hc'. unfold held in Hc'. cbn [v_q v_new request inflight completion set_request] in Hc'.
      rewrite elem_of_app, list_elem_of_singleton in Hc'.
      assert (held [] (queue w) c' -> False) as Hno.
      { intros Hh%held_tokens%Hold. lia. }
      unfold held in Hno. destruct Hc' as [Hc'|[[Hc'| ->]|Hc']]; [|exfalso; apply Hno; auto..|done|
        exfalso; apply Hno; auto]. by apply not_elem_of_nil in Hc'. }
    unfold is_generic in *. by rewrite F4.
  - split; [|done]. eapply evolves_trans; [|exact Hev]. split; [done|].
    eexists. by apply aexec_one.
Qed.
End NewRequest.

(** ** The operations of a context *)

Lemma sim_then {A B} (m : M world A) (k : M world B) :
  sim (fun _ => True) m any -> sim (fun _ => True) k any -> sim (fun _ => True) (m ;;; k) any.
Proof. intros Hm Hk. eapply sim_bind; [exact Hm|]. intros a. exact Hk. Qed.

Lemma try_lock_sim P : sim P try_lock (fun _ => P).
Proof. apply sim_frame. intros w. unfold try_lock. by destruct (progress_thread _), (trylocks w). Qed.

Lemma notifyAll_sim P : sim P notifyAll (fun _ => P).
Proof.
  apply sim_frame. intros w. unfold notifyAll.
  by destruct (CommQueueOps.notifyAll (queue w)), (progress_thread (ctx w)).
Qed.

Lemma set_thread_sim t P : sim P (modify (set_thread t)) (fun _ => P).
Proof. by apply sim_frame. Qed.

(** The shapes operations are composed of. *)
Ltac sim_tac :=
  repeat first
    [ done
    | apply sim_ret; (done || intros; exact I)
    | apply progress_nolock_sim
    | (eapply sim_bind; [first [apply try_lock_sim | apply notifyAll_sim | apply sim_gets
                               | apply set_thread_sim | apply progress_nolock_sim
                               | apply progress_round_sim]|intros ?])
    | apply set_thread_sim
    | match goal with |- sim _ (if ?b then _ else _) _ => destruct b end ].

Lemma steady_progress : steady progress.
Proof. unfold progress. steady_tac. Qed.

Lemma progress_sim : sim (fun _ => True) progress any.
Proof. unfold progress. sim_tac. Qed.

Lemma progressExec_sim n : sim (fun _ => True) (progressExec n) any.
Proof.
  induction n as [|n IH]; cbn [progressExec]; sim_tac.
Qed.

Lemma progress_main_sim n : sim (fun _ => True) (progress_main n) any.
Proof.
  unfold progress_main. eapply sim_bind; [apply sim_gets|]. intros []; try by apply sim_ret.
  eapply sim_bind; [apply sim_gets|]. intros []; [by apply set_thread_sim|].
  apply sim_then; [by apply set_thread_sim|]. apply sim_then; [apply progressExec_sim|]. sim_tac.
Qed.

Lemma peekResult_sim id : sim (fun _ => True) (_peekResult id) any.
Proof.
  apply sim_steady; [apply steady_peekResult|]. intros ng w a w' Hi _ E. split; [|done].
  destruct (_peekResult_spec _ _ id _ Hi) as (r & w1 & E1 & Hp & _).
  rewrite E in E1. injection E1 as <- <-.
  destruct (peeked_sim _ _ _ _ _ _ Hi Hp) as (I & Hpi & _ & _ & [tr T]). split; [done|].
  exists tr. unfold alpha. rewrite Hpi. apply T.
Qed.

Lemma callPeekResult_sim id : sim (fun _ => True) (callPeekResult id) any.
Proof.
  unfold callPeekResult. eapply sim_bind; [apply try_lock_sim|]. intros [].
  - apply sim_then; [|apply peekResult_sim]. apply sim_then; [apply progress_nolock_sim|].
    by apply sim_ret.
  - apply sim_then; [by apply sim_ret|apply peekResult_sim].
Qed.

Lemma poll_result_sim n id : sim (fun _ => True) (poll_result n id) any.
Proof.
  induction n as [|n IH]; cbn [poll_result]; [by apply sim_stop|].
  eapply sim_bind; [apply try_lock_sim|]. intros []; cbn [negb]; [|by apply sim_ret].
  eapply sim_bind; [apply progress_nolock_sim|]. intros rv.
  destruct (0 <? rv); [by apply sim_ret|].
  eapply sim_bind; [apply peekResult_sim|]. intros r.
  destruct (negb _); [by apply sim_ret|exact IH].
Qed.

(** The end of [callWaitResult]. *)
Definition collect (id : Z) (c : Command) : M world (Z * option Z) :=
  let! rem := gets remaining in
  if negb (bool_decide (id ∈ rem)) then ret (VEO_COMMAND_ERROR, None)
  else
    modify (fun w => set_rem (remaining w ∖ {[id]}) w) ;;;
    ret (status c, Some (retval c)).

Lemma collect_sim id : u64 id = id ->
  sim (fun _ => True)
    (let! c := on_comq (CommQueueOps.waitCompletion id) in collect id c) any.
Proof.
  intros Hu. apply sim_steady; [unfold collect; steady_tac|].
  intros ng w a w' Hi _ E. split; [|done].
  apply bind_inv_Ret in E as (c & w1 & E1 & E).
  unfold on_comq, on, CommQueueOps.waitCompletion, BlockingMap.wait, BlockingMap.tryFindNoWait in E1.
  rewrite Hu in E1. destruct (completion (queue w) !! id) as [d|] eqn:Ed; [|done].
  injection E1 as -> <-.
  assert (view_of w' = v_collect id (view_of w)) as ->.
  { unfold collect in E. apply bind_inv_Ret in E as (rem & w1 & [= <- <-] & E).
    change (remaining (set_comq _ w)) with (remaining w) in E.
    destruct (bool_decide (id ∈ remaining w)) eqn:Hr; injection E as _ <-; [done|].
    apply bool_decide_eq_false in Hr. unfold view_of, v_collect. cbn. f_equal.
    apply set_eq. intros x. rewrite elem_of_difference, elem_of_singleton.
    split; [|tauto]. intros Hx. split; [done|]. by intros ->. }
  destruct (v_collect_inv _ _ _ _ _ Hi Ed) as [I' A']. split; [done|].
  eexists. apply aexec_one. apply (A' (a_pending (alpha (view_of w)))).
Qed.

Lemma set_comq_id w : set_comq (queue w) w = w.
Proof. by destruct w as [[] ? ? ? ? ?]. Qed.

Lemma waitCompletion_unfold {A} n id (k : Command -> M world A) w :
  bind (waitCompletion n id) k w =
  match on_comq (CommQueueOps.waitCompletion id) w with
  | (Blocked, _) => bind (progress_main n) (fun _ =>
      bind (on_comq (CommQueueOps.waitCompletion id)) k) w
  | _ => bind (on_comq (CommQueueOps.waitCompletion id)) k w
  end.
Proof.
  unfold waitCompletion.
  destruct (on_comq (CommQueueOps.waitCompletion id) w) as [o w1] eqn:E.
  assert (o = Blocked -> w1 = w) as Hb.
  { unfold on_comq, on, CommQueueOps.waitCompletion in E.
    destruct (BlockingMap.wait id _) as [[c m]|]; injection E as <- <-; [done|].
    intros _. apply set_comq_id. }
  destruct o; try (unfold bind; rewrite ?E; done).
  unfold bind at 1. rewrite E, (Hb eq_refl). rewrite <- bind_assoc. done.
Qed.

Lemma wait_collect_sim n id : u64 id = id ->
  sim (fun _ => True) (let! c := waitCompletion n id in collect id c) any.
Proof.
  intros Hu.
  pose proof (collect_sim id Hu) as Hc.
  pose proof (sim_then _ _ (progress_main_sim n) Hc) as Hm.
  intros w. rewrite waitCompletion_unfold.
  destruct (on_comq (CommQueueOps.waitCompletion id) w) as [[] ?]; apply Hc || apply Hm.
Qed.

Lemma steady_progressExec n : steady (progressExec n).
Proof. induction n as [|n IH]; cbn [progressExec]; steady_tac; apply IH. Qed.
#[local] Hint Extern 1 (keeps _ (progressExec _)) => apply steady_progressExec : aveo.

Lemma steady_progress_main n : steady (progress_main n).
Proof. unfold progress_main. steady_tac. Qed.
#[local] Hint Extern 1 (keeps _ (progress_main _)) => apply steady_progress_main : aveo.

Lemma steady_wait_collect n id : steady (let! c := waitCompletion n id in collect id c).
Proof.
  intros k0 w Hk. rewrite waitCompletion_unfold.
  assert (Hc : steady (let! c := on_comq (CommQueueOps.waitCompletion id) in collect id c))
    by (unfold collect; steady_tac).
  assert (Hm : steady (progress_main n ;;;
                       let! c := on_comq (CommQueueOps.waitCompletion id) in collect id c))
    by (unfold collect; steady_tac).
  destruct (on_comq (CommQueueOps.waitCompletion id) w) as [[] ?]; by apply Hc || apply Hm.
Qed.

Lemma callWaitResult_sim n id : sim (fun _ => True) (callWaitResult n id) any.
Proof.
  unfold callWaitResult. eapply sim_bind; [apply poll_result_sim|].
  intros [r|]; [by apply sim_ret|]. apply sim_then; [apply notifyAll_sim|].
  intros w. rewrite (bind_Ret _ _ w (remaining w) w) by done.
  destruct (bool_decide (id ∈ remaining w)) eqn:Hr; cbn [negb].
  2:{ exact (sim_ret (VEO_COMMAND_ERROR, None) (fun _ => True) any (fun _ _ => I) w). }
  apply bool_decide_eq_true in Hr.
  destruct (decide (u64 id = id)) as [Hu|Hu].
  - apply (wait_collect_sim n id Hu w).
  - split.
    + pose proof (steady_issued _ w (steady_wait_collect n id)) as Hs.
      apply Z.eq_le_incl. symmetry. exact Hs.
    + intros ng a w' Hi. exfalso. apply Hu. eapply inv_rem_u64; [exact Hi|exact Hr].
Qed.

Lemma sim_alive {A} (m1 m2 : M world A) P Q :
  sim P m1 Q -> sim (fun v => P v /\ v_exit v = false) m2 Q ->
  sim P (let! alive := gets is_alive in if negb alive then m1 else m2) Q.
Proof.
  intros H1 H2 w. rewrite (bind_Ret _ _ w (is_alive w) w) by done.
  destruct (is_alive w) eqn:Ea; cbn [negb]; [|apply H1].
  destruct (H2 w) as [Hm Hs]. split; [done|]. intros ng a w' Hi HP E Hb.
  apply Hs; try done. split; [done|]. unfold is_alive in Ea. case_decide; [done|].
  by apply bool_decide_eq_false.
Qed.

Lemma genericAsyncReq_sim cmd fmt args : sim (fun _ => True) (genericAsyncReq cmd fmt args) any.
Proof.
  unfold genericAsyncReq. apply sim_alive; [by apply sim_ret|].
  apply (new_request_sim (cmd =? URPC_CMD_ACS_PCIRCVSYC)
           (fun id => CommandImpl_ve id (C_generic cmd fmt args))); try done.
  - intros v id d _ Hd. by apply not_elem_of_nil in Hd.
  - intros v [_ Hv]. by left.
  - intros id. cbn [Z.eqb negb]. apply (sim_weak _ _ any).
    apply sim_then; [apply progress_sim|]. apply sim_then; [apply notifyAll_sim|].
    by apply sim_ret.
Qed.

Lemma callVHAsync_sim f arg : sim (fun _ => True) (callVHAsync f arg) any.
Proof.
  unfold callVHAsync. eapply sim_bind; [apply sim_gets|]. intros alive.
  destruct (_ || _); [by apply sim_ret|].
  apply (new_request_sim false (fun id => CommandImpl_vh id (C_vh f arg))
           (fun id _ => notifyAll ;;; ret id)); try done.
  - intros v id d _ Hd. by apply not_elem_of_nil in Hd.
  - intros v _. by right.
  - intros id. apply (sim_weak _ _ any).
    apply sim_then; [apply notifyAll_sim|by apply sim_ret].
Qed.

Lemma synchronize_sim n : sim (fun _ => True) (synchronize n) any.
Proof.
  unfold synchronize. eapply sim_bind; [apply callVHAsync_sim|]. intros id.
  destruct (negb _); [|by apply sim_ret]. apply sim_then; [apply callWaitResult_sim|].
  by apply sim_ret.
Qed.

(** An empty queue has nothing to submit. *)
Lemma submit_nothing b w : request (queue w) = [] -> submit_next b w = (Ret Idle, w).
Proof.
  intros Er. unfold submit_next. rewrite (bind_Ret _ _ w None w); [done|].
  unfold on_comq, on, CommQueueOps.tryPopRequest, BlockingQueue.popNoWait.
  rewrite Er. f_equal. rewrite <- Er, set_request_id. apply set_comq_id.
Qed.

(** A VH command that must not run, or waits for requests in flight, goes back to the
    head of the queue. *)
Lemma delayed_vh c l b w :
  request (queue w) = c :: l -> is_vh c = true -> inflight (queue w) <> ∅ \/ b = false ->
  submit_next b w = (Ret (Return 1), w).
Proof.
  intros Hq Hvh Hne. unfold submit_next.
  set (w1 := set_comq (set_request l (queue w)) w).
  rewrite (bind_Ret _ _ _ (Some c) w1).
  2:{ unfold on_comq, on, CommQueueOps.tryPopRequest, BlockingQueue.popNoWait. by rewrite Hq. }
  rewrite Hvh. rewrite (bind_Ret _ _ w1 (CommQueueOps.emptyInFlight (queue w)) w1) by done.
  assert (CommQueueOps.emptyInFlight (queue w) && b = false) as ->.
  { destruct Hne as [Hne| ->]; [|by apply andb_false_r].
    unfold CommQueueOps.emptyInFlight, BlockingMap.empty. by rewrite decide_False. }
  rewrite (bind_Ret _ _ w1 tt w); [done|].
  unfold w1. destruct w as [[[rq fl co tf] st im sn sp u rr ct pt] h su wp tl is_]. cbn in Hq.
  by subst rq.
Qed.

(** ** Termination of [_progress_nolock] *)

(** The functions of the commands leave the requests and what is in flight alone. *)
Definition backlog (w : world) : list Command * gmap Z Command :=
  (request (queue w), inflight (queue w)).
Definition quiet {A} (m : M world A) : Prop := forall b, keeps (fun w => backlog w = b) m.

Lemma quiet_on_vh {A} (m : M heap A) : quiet (on_vh m).
Proof. intros b w Hb. unfold on_vh, on. by destruct (m (vh w)) as [[] ?]. Qed.
Lemma quiet_modify (f : world -> world) : (forall w, backlog (f w) = backlog w) -> quiet (modify f).
Proof. intros Hf b w Hb. cbn. by rewrite Hf. Qed.
Lemma quiet_stop {A} (o : outcome A) : quiet (stop o).
Proof. intros b w Hb. by destruct o. Qed.
Lemma quiet_peekCompletion id : quiet (on_comq (CommQueueOps.peekCompletion id)).
Proof.
  intros b w Hb. unfold on_comq, on, CommQueueOps.peekCompletion.
  by destruct (BlockingMap.tryFind _ _).
Qed.
Lemma quiet_pushCompletion c : quiet (on_comq (CommQueueOps.pushCompletion c)).
Proof. by intros b w Hb. Qed.
Lemma quiet_generic_send c f a : quiet (generic_send c f a).
Proof. intros b w Hb. unfold generic_send. by destruct (urpc_generic_send _ _ _ _). Qed.

Ltac quiet_tac :=
  intros ?;
  repeat first
    [ apply keeps_ret | apply keeps_throw | apply keeps_gets | apply quiet_stop
    | apply quiet_on_vh | (apply keeps_vh_call; intros ?; apply quiet_on_vh) | apply quiet_peekCompletion | apply quiet_pushCompletion
    | apply quiet_generic_send
    | (apply quiet_modify; intros ?; reflexivity)
    | (apply keeps_bind; [|intros ?])
    | match goal with
      | |- keeps _ (if ?b then _ else _) => destruct b
      | |- keeps _ (match ?x with _ => _ end) => destruct x
      end ].

Lemma quiet_run_unpack c m : quiet (run_unpack c m).
Proof. unfold run_unpack, chain_result, _peekResult. destruct (code c); quiet_tac. Qed.

Lemma quiet_run_submit c : quiet (run_submit c).
Proof.
  unfold run_submit, run_largecall, sub_result, _peekResult, call_vh_func, submitted.
  destruct (code c); try solve [quiet_tac].
  intros b w Hb. destruct (send_call_nolock _ _ _ _ _ _ _ _ _ _) as [r p].
  by destruct (0 <=? r), (r =? - EAGAIN).
Qed.

Lemma quiet_Ret {A} (m : M world A) w a w' : quiet m -> m w = (Ret a, w') -> backlog w' = backlog w.
Proof. intros Hm E. specialize (Hm _ w eq_refl). by rewrite E in Hm. Qed.

Lemma work_backlog w w' : backlog w' = backlog w -> work (queue w') = work (queue w).
Proof. unfold backlog, work. by intros [= -> ->]. Qed.

Lemma size_insert_id id c (m : gmap Z Command) :
  (size (BlockingMap.insert_id id c m) <= S (size m))%nat.
Proof.
  unfold BlockingMap.insert_id. destruct (m !! u64 id) eqn:E; [lia|].
  by rewrite map_size_insert_None.
Qed.

Lemma size_delete_lt k c (m : gmap Z Command) :
  m !! k = Some c -> (size (delete k m) < size m)%nat.
Proof.
  intros E. rewrite map_size_delete_Some by eauto.
  assert (size m <> 0%nat) by (intros ->%map_size_empty_iff; by rewrite lookup_empty in E). lia.
Qed.

Lemma cancel_requests_work n q :
  (length (request q) < n)%nat ->
  request (CommQueueOps.cancel_requests n q) = [] /\
  inflight (CommQueueOps.cancel_requests n q) = inflight q.
Proof.
  revert q. induction n as [|n IH]; intros q Hn; [lia|]. cbn [CommQueueOps.cancel_requests].
  unfold BlockingQueue.popNoWait. destruct (request q) as [|c l] eqn:E; [done|].
  destruct (IH (set_completion (BlockingMap.insert (setResult 0 VEO_COMMAND_ERROR c) (completion q))
                  (set_request l q))) as [H1 H2]; [cbn in *; lia|]. by rewrite H1, H2.
Qed.

Lemma cancel_inflight_work n q :
  (size (inflight q) < n)%nat ->
  inflight (CommQueueOps.cancel_inflight n q) = ∅ /\
  request (CommQueueOps.cancel_inflight n q) = request q.
Proof.
  revert q. induction n as [|n IH]; intros q Hn; [lia|]. cbn [CommQueueOps.cancel_inflight].
  unfold BlockingMap.popNoWait. destruct (map_begin (inflight q)) as [[k c]|] eqn:E.
  - apply map_begin_elem in E.
    destruct (IH (set_completion (BlockingMap.insert (setResult 0 VEO_COMMAND_ERROR c) (completion q))
                    (set_inflight (delete k (inflight q)) q))) as [H1 H2]; [|by rewrite H1, H2].
    cbn [inflight set_completion set_inflight]. pose proof (size_delete_lt _ _ _ E). lia.
  - split; [|done]. by apply map_begin_end.
Qed.

Lemma cancelAll_work w : work (queue (snd (on_comq CommQueueOps.cancelAll w))) = 0%nat.
Proof.
  unfold on_comq, on, CommQueueOps.cancelAll. cbn [snd modify queue set_comq comq ctx set_ctx].
  set (q1 := CommQueueOps.cancel_requests _ _).
  destruct (cancel_requests_work (S (length (request (queue w)))) (queue w)) as [H1 _]; [lia|].
  destruct (cancel_inflight_work (S (size (inflight q1))) q1) as [H2 H3]; [lia|].
  unfold work. rewrite H2, H3. unfold q1. by rewrite H1, map_size_empty.
Qed.

(** After [exit_and_cancel] nothing is left to do. *)
Lemma exit_and_cancel_work w :
  exists w', exit_and_cancel w = (Ret (Return (-1)), w') /\ work (queue w') = 0%nat /\
    the_peer w' = the_peer w.
Proof.
  unfold exit_and_cancel. rewrite (bind_Ret _ _ w tt (set_state VEO_STATE_EXIT w)) by done.
  eexists. split; [reflexivity|]. split; [|done].
  apply (cancelAll_work (set_state VEO_STATE_EXIT w)).
Qed.

Lemma receive_work w r m a w' :
  receive r m w = (Ret a, w') -> (work (queue w') < work (queue w))%nat.
Proof.
  intros E. unfold receive in E. apply bind_inv_Ret in E as (oc & w1 & E1 & E).
  unfold on_comq, on, CommQueueOps.popInFlight, BlockingMap.tryFind, BlockingMap.tryFindNoWait in E1.
  destruct (inflight (queue w) !! u64 r) as [c|] eqn:Ec; injection E1 as <- <-; [|done].
  set (w1 := set_comq _ w) in E.
  assert (Hw1 : (work (queue w1) < work (queue w))%nat).
  { unfold work, w1. cbn. pose proof (size_delete_lt _ _ _ Ec). lia. }
  apply bind_inv_Ret in E as ([rv c'] & w2 & E2 & E).
  pose proof (quiet_Ret _ _ _ _ (quiet_run_unpack c m) E2) as B2.
  apply bind_inv_Ret in E as ([] & w3 & [= <-] & E).
  apply bind_inv_Ret in E as ([] & w4 & E4 & E).
  assert (backlog w4 = backlog w1) as B4.
  { rewrite <- B2. by destruct (nowait c'); injection E4 as <-. }
  destruct (rv <? 0).
  - destruct (exit_and_cancel_work w4) as (w5 & E5 & W5 & _). rewrite E5 in E.
    injection E as _ <-. lia.
  - injection E as _ <-. by rewrite (work_backlog _ _ B4).
Qed.

Lemma submit_next_work w b w' :
  submit_next b w = (Ret Again, w') -> (work (queue w') < work (queue w))%nat.
Proof.
  intros E. unfold submit_next in E. apply bind_inv_Ret in E as (oc & w1 & E1 & E).
  unfold on_comq, on, CommQueueOps.tryPopRequest, BlockingQueue.popNoWait in E1.
  destruct (request (queue w)) as [|c l] eqn:Er; injection E1 as <- <-; [done|].
  set (w1 := set_comq _ w) in E.
  assert (Hw1 : (work (queue w) = 2 + work (queue w1))%nat).
  { unfold work, w1. rewrite Er. cbn. lia. }
  destruct (is_vh c).
  - apply bind_inv_Ret in E as (fr & w2 & [= <- <-] & E).
    destruct (_ && b); [|done].
    apply bind_inv_Ret in E as ([rv c'] & w3 & E3 & E). injection E as <-.
    pose proof (quiet_Ret _ _ _ _ (quiet_run_submit c) E3) as B.
    apply work_backlog in B. change (queue (set_comq _ w3)) with
      (set_completion (BlockingMap.insert c' (completion (queue w3))) (queue w3)).
    change (work (set_completion _ (queue w3))) with (work (queue w3)). lia.
  - apply bind_inv_Ret in E as ([rv c'] & w3 & E3 & E).
    pose proof (quiet_Ret _ _ _ _ (quiet_run_submit c) E3) as B. apply work_backlog in B.
    destruct (rv =? 0); [|by destruct (rv =? - EAGAIN)]. injection E as <-.
    pose proof (size_insert_id (urpc_req c') c' (inflight (queue w3))) as Hs.
    change (queue (set_comq _ w3)) with
      (set_inflight (BlockingMap.insert_id (urpc_req c') c' (inflight (queue w3))) (queue w3)).
    unfold work in *. cbn [request inflight set_inflight]. lia.
Qed.

Lemma check_process_not_again w w' : check_process w <> (Ret Again, w').
Proof.
  intros E. unfold check_process in E. apply bind_inv_Ret in E as (n & w1 & [= <- <-] & E).
  apply bind_inv_Ret in E as ([| |v] & w2 & E2 & E); try done. clear E.
  destruct (_ =? 0); [|done]. apply bind_inv_Ret in E2 as (al & w3 & [= <- <-] & E2).
  assert (forall w3, exit_and_cancel w3 <> (Ret Again, w2)) as Hx.
  { intros w3 E3. unfold exit_and_cancel in E3. apply bind_inv_Ret in E3 as ([] & w5 & _ & E3).
    by apply bind_inv_Ret in E3 as ([] & w6 & _ & E3). }
  destruct (survival w); [|by apply Hx in E2].
  apply bind_inv_Ret in E2 as (en & w3 & _ & E2). destruct en; [|done].
  apply bind_inv_Ret in E2 as ([] & w4 & _ & E2). by apply Hx in E2.
Qed.

(** A round that is not the last one leaves less to do. *)
Lemma progress_round_work b w w' :
  progress_round b w = (Ret Again, w') -> (work (queue w') < work (queue w))%nat.
Proof.
  intros E. unfold progress_round in E. apply bind_inv_Ret in E as ([r m] & w1 & E1 & E).
  unfold get_cmd in E1. destruct (urpc_get_cmd (the_peer w)) as [[r' m'] p].
  injection E1 as -> -> <-.
  destruct (0 <=? r); [by apply receive_work in E|].
  apply bind_inv_Ret in E as (slot & w2 & [= <- <-] & E). destruct (_ <? 0); [done|].
  apply bind_inv_Ret in E as ([| |v] & w3 & E3 & E); [|by apply check_process_not_again in E|done].
  injection E as <-. by apply submit_next_work in E3.
Qed.

Lemma progress_loop_fuel b n : forall m w,
  (work (queue w) < n)%nat -> (work (queue w) < m)%nat ->
  progress_loop n b w = progress_loop m b w.
Proof.
  induction n as [|n IH]; intros [|m] w Hn Hm; try lia. cbn [progress_loop]. unfold bind.
  destruct (progress_round b w) as [[[| |v]| | | | |] w'] eqn:E; try done.
  apply progress_round_work in E. apply IH; lia.
Qed.

(** ** Ways the functions of a command cannot end *)

Section NeverEnds.
Context (bad : outcome Empty_set).
Hypothesis bad_other : bad <> Throw std_bad_function_call /\ bad <> Undef.

Let bad_call {A} : ~ ends_in bad (Throw std_bad_function_call : outcome A).
Proof. unfold ends_in. destruct bad as [[]| | | | |]; cbn; intros [=]; subst; by destruct bad_other. Qed.

Let bad_undef {A} : ~ ends_in bad (Undef : outcome A).
Proof. unfold ends_in. destruct bad as [[]| | | | |]; cbn; intros [=]; by destruct bad_other. Qed.

Lemma never_delete_char p : never bad (delete_char p).
Proof.
  intros h. unfold delete_char. destruct (p =? 0); [apply ends_in_Ret|].
  case_decide; [apply ends_in_Ret|apply bad_undef].
Qed.

Lemma never_payload_read m pl off n : ~ ends_in bad (payload_read m pl off n).
Proof.
  unfold payload_read. destruct pl; [destruct (_ && _); [apply ends_in_Ret|apply bad_undef]|].
  apply ends_in_Ret.
Qed.

Lemma never_run_copyout pl fs : never bad (run_copyout pl fs).
Proof.
  induction fs as [|f fs IH]; cbn [run_copyout]; [apply never_ret|].
  apply never_bind; [intros s; apply ends_in_Ret|]. intros h.
  apply never_bind; [intros s; apply never_payload_read|]. intros bs.
  apply never_bind; [apply never_modify|]. intros _. exact IH.
Qed.

Lemma never_unpack_call_result m co r0 st : never bad (unpack_call_result m co r0 st).
Proof.
  unfold unpack_call_result. destruct m as [cmd pl].
  pose proof never_run_copyout. pose proof (@bad_call unit).
  never_tac. all: try apply never_run_copyout.
  all: apply never_stop; apply bad_call.
Qed.

Lemma never_peekResult id : never bad (_peekResult id).
Proof.
  unfold _peekResult. never_tac.
  intros q. unfold CommQueueOps.peekCompletion. destruct (BlockingMap.tryFind _ _). apply ends_in_Ret.
Qed.

Lemma never_run_unpack c m : never bad (run_unpack c m).
Proof.
  pose proof never_unpack_call_result. pose proof never_delete_char. pose proof never_peekResult.
  unfold run_unpack, chain_result. destruct (code c); never_tac.
  all: apply never_stop; (apply bad_call || apply bad_undef).
Qed.
End NeverEnds.

Lemma receive_no_throw r m w e :
  e <> std_bad_function_call ->
  is_Some (inflight (queue w) !! u64 r) -> fst (receive r m w) <> Throw e.
Proof.
  intros He [c Hc]. unfold receive.
  assert (Hp : on_comq (CommQueueOps.popInFlight r) w =
               (Ret (Some c), set_comq (set_inflight (delete (u64 r) (inflight (queue w))) (queue w)) w)).
  { unfold on_comq, on, CommQueueOps.popInFlight, BlockingMap.tryFind, BlockingMap.tryFindNoWait.
    by rewrite Hc. }
  rewrite (bind_Ret _ _ _ _ _ Hp).
  set (w1 := set_comq _ w).
  match goal with |- fst (?k w1) <> _ => assert (Hn : never (Throw e) k) end.
  { apply never_bind; [apply never_run_unpack; split; congruence|]. intros [rv c'].
    unfold exit_and_cancel. never_tac. all: intros q; apply ends_in_Ret. }
  apply (Hn w1).
Qed.
End Progress.
