(* ===== verification/AsyncTransfer.v ===== *)
(** * Asynchronous memory transfers

    Models [AsyncTransfer.cpp]: a transfer is cut into fragments, one request
    per fragment, each request checking the one before it. *)

From Stdlib Require Import ZArith Lia Bool Ascii.
From stdpp Require Import base gmap list numbers sets strings.
From S2P Require Import Prelude CallArgs Command Urpc Ve Context Example Requests Progress.

Open Scope Z_scope.

(** The environment of the VH process. *)
Class Env := getenv : string -> option string.

Definition demo_env : Env := fun _ => None.

Definition PART_SENDFRAG : Z := 4 * 1024 * 1024.

(** ** [atoi] *)

Definition is_space (c : ascii) : bool :=
  let n := Z.of_N (N_of_ascii c) in (n =? 32) || ((9 <=? n) && (n <=? 13)).

Definition digit (c : ascii) : option Z :=
  let n := Z.of_N (N_of_ascii c) in
  if (48 <=? n) && (n <=? 57) then Some (n - 48) else None.

Fixpoint skip_space (s : string) : string :=
  match s with
  | String c s' => if is_space c then skip_space s' else s
  | EmptyString => s
  end.

Fixpoint digits (acc : Z) (s : string) : Z :=
  match s with
  | String c s' => match digit c with Some d => digits (10 * acc + d) s' | None => acc end
  | EmptyString => acc
  end.

(** [strtol(s, NULL, 10)], which saturates. *)
Definition strtol (s : string) : Z :=
  let v := match skip_space s with
           | String "-" s' => - digits 0 s'
           | String "+" s' => digits 0 s'
           | s' => digits 0 s'
           end in
  Z.max (- 2 ^ 63) (Z.min (2 ^ 63 - 1) v).

Definition atoi (s : string) : Z := i32 (strtol s).

(** ** Fragment sizes *)

Section Fragments.
Context `{U : Urpc} `{E : Env}.

(** [maxfrag] and [cutsz] before the size of the transfer is looked at. *)
Definition default_frag (p : peer) : Z :=
  if urpc_max_send_cmd_size p <? 2 * PART_SENDFRAG then 1 * 1024 * 1024 else PART_SENDFRAG.
Definition frag_env (name : string) (dflt : Z) : Z :=
  match getenv name with Some s => u64 (atoi s) | None => dflt end.

(** [maxfrag] of [asyncWriteMem] *)
Definition write_maxfrag (p : peer) (size : Z) : Z :=
  let maxfrag := frag_env "VEO_SENDFRAG" (default_frag p) in
  let cutsz := frag_env "VEO_SENDCUT" (2 * 1024 * 1024) in
  if size <? u64 (5 * maxfrag) then
    if cutsz <? size then ALIGN8B (size / 4)
    else if cutsz / 2 <? size then ALIGN8B (size / 3)
    else if cutsz / 3 <? size then ALIGN8B (size / 2)
    else ALIGN8B size
  else maxfrag.

(** [maxfrag] of [asyncReadMem] *)
Definition read_maxfrag (p : peer) (size : Z) : Z :=
  let maxfrag := frag_env "VEO_RECVFRAG" (default_frag p) in
  let cutsz := frag_env "VEO_RECVCUT" (2 * 1024 * 1024) in
  if size <? u64 (5 * maxfrag) then
    if cutsz <? size then ALIGN8B (size / 5)
    else if cutsz / 2 <? size then ALIGN8B (size / 4)
    else if cutsz / 3 <? size then ALIGN8B (size / 2)
    else ALIGN8B size
  else maxfrag.
End Fragments.

(** ** The transfers *)

Section Transfer.
Context `{U : Urpc} `{IN : Indet} `{VF : !VhFuncs} `{BO : BucketOrder} `{E : Env}.

Definition sendBuffAsync (dst src size prev : Z) : M world Z :=
  let! alive := gets is_alive in
  if negb alive then ret VEO_REQUEST_ID_INVALID
  else
    let! id := issueRequestID in
    let! rc := push_request (CommandImpl_ve id (C_sendbuff dst src size prev)) in
    if negb (rc =? 0) then ret VEO_REQUEST_ID_INVALID else ret id.

Definition recvBuffAsync (dst src size prev : Z) : M world Z :=
  let! alive := gets is_alive in
  if negb alive then ret VEO_REQUEST_ID_INVALID
  else
    let! id := issueRequestID in
    let! rc := push_request (CommandImpl_ve id (C_recvbuff dst src size prev)) in
    if negb (rc =? 0) then ret VEO_REQUEST_ID_INVALID else ret id.

(** The request for an empty transfer. *)
Definition empty_transfer : M world Z :=
  let! id := issueRequestID in
  let! rc := push_request (CommandImpl_vh id C_empty) in
  if negb (rc =? 0) then ret VEO_REQUEST_ID_INVALID
  else notifyAll ;;; ret id.

(** The [while (rsize > 0)] loop; [buff] submits one fragment. *)
Fixpoint frag_loop (n : nat) (buff : Z -> Z -> Z -> Z -> M world Z) (maxfrag : Z)
    (rsize d s prev : Z) (flg : bool) : M world Z :=
  if rsize =? 0 then notifyAll ;;; ret prev
  else
    match n with
    | O => stop NoFuel
    | S n =>
        let psz := if rsize <=? maxfrag then rsize else maxfrag in
        let! req := buff d s psz prev in
        if req =? VEO_REQUEST_ID_INVALID then ret req
        else
          (if flg then ret tt else progress) ;;;
          frag_loop n buff maxfrag (u64 (rsize - psz)) (u64 (d + psz)) (u64 (s + psz)) req true
    end.

Definition asyncReadMem (n : nat) (dst src size : Z) : M world Z :=
  let! alive := gets is_alive in
  if negb alive then ret VEO_REQUEST_ID_INVALID
  else if size =? 0 then empty_transfer
  else
    let! p := gets the_peer in
    frag_loop n recvBuffAsync (read_maxfrag p size) size dst src VEO_REQUEST_ID_INVALID false.

Definition asyncWriteMem (n : nat) (dst src size : Z) : M world Z :=
  let! alive := gets is_alive in
  if negb alive then ret VEO_REQUEST_ID_INVALID
  else if size =? 0 then empty_transfer
  else
    let! p := gets the_peer in
    frag_loop n sendBuffAsync (write_maxfrag p size) size dst src VEO_REQUEST_ID_INVALID false.
End Transfer.

(** ** The fragments of a transfer *)

(** Offset and length of the fragments [size] bytes are cut into. *)
Fixpoint fragments (n : nat) (maxfrag off size : Z) : list (Z * Z) :=
  match n with
  | O => []
  | S n =>
      if size =? 0 then []
      else
        let psz := if size <=? maxfrag then size else maxfrag in
        (off, psz) :: fragments n maxfrag (off + psz) (size - psz)
  end.

(** Enough rounds for [size] bytes. *)
Definition frag_count (maxfrag size : Z) : nat := Z.to_nat ((size + maxfrag - 1) / maxfrag).

Lemma frag_count_step maxfrag size :
  0 < maxfrag -> 0 < size ->
  frag_count maxfrag size =
    S (frag_count maxfrag (size - (if size <=? maxfrag then size else maxfrag))).
Proof.
  intros Hm Hs. unfold frag_count. destruct (Z.leb_spec size maxfrag) as [Hl|Hl].
  - rewrite (Z.sub_diag size), Z.add_0_l.
    rewrite (Z.div_small (maxfrag - 1)) by lia.
    replace ((size + maxfrag - 1) / maxfrag) with 1; [done|].
    apply Z.div_unique with (size - 1); lia.
  - replace (size + maxfrag - 1) with ((size - maxfrag + maxfrag - 1) + 1 * maxfrag) by lia.
    rewrite Z.div_add by lia. rewrite Z2Nat.inj_add; [lia| |lia].
    apply Z.div_pos; lia.
Qed.

(** Consecutive pieces of at most [maxfrag] bytes, from [off] for [size] bytes. *)
Inductive tiles (maxfrag : Z) : Z -> Z -> list (Z * Z) -> Prop :=
  | tiles_nil off : tiles maxfrag off 0 []
  | tiles_cons off len size l :
      0 < len <= maxfrag -> tiles maxfrag (off + len) (size - len) l ->
      tiles maxfrag off size ((off, len) :: l).

Lemma tiles_nonneg maxfrag off size l : tiles maxfrag off size l -> 0 <= size.
Proof. induction 1; lia. Qed.

Lemma fragments_tile maxfrag n : forall off size,
  0 < maxfrag -> 0 <= size -> (frag_count maxfrag size <= n)%nat ->
  tiles maxfrag off size (fragments n maxfrag off size).
Proof.
  induction n as [|n IH]; intros off size Hm Hs Hn; cbn [fragments].
  - destruct (decide (size = 0)) as [->|Hne]; [constructor|].
    rewrite frag_count_step in Hn by lia. lia.
  - destruct (Z.eqb_spec size 0) as [->|Hne]; [constructor|].
    rewrite frag_count_step in Hn by lia.
    constructor.
    + destruct (Z.leb_spec size maxfrag); lia.
    + apply IH; [done| |lia]. destruct (Z.leb_spec size maxfrag); lia.
Qed.

(** Copying the pieces one after the other copies the whole. *)
Fixpoint copy_frags (src_m : mem) (dst src : Z) (l : list (Z * Z)) (m : mem) : mem :=
  match l with
  | [] => m
  | (off, len) :: l =>
      copy_frags src_m dst src l
        (mem_write m (dst + off) (mem_read src_m (src + off) (Z.to_nat len)))
  end.

Lemma mem_write_ext m m' a bs x : m x = m' x -> mem_write m a bs x = mem_write m' a bs x.
Proof. unfold mem_write. by intros ->. Qed.

Lemma copy_frags_ext src_m dst src l : forall m m' x,
  (forall x, m x = m' x) -> copy_frags src_m dst src l m x = copy_frags src_m dst src l m' x.
Proof.
  induction l as [|[off len] l IH]; intros m m' x Hm; cbn [copy_frags]; [done|].
  apply IH. intros y. by apply mem_write_ext.
Qed.

Lemma copy_tiles maxfrag src_m dst src off size l :
  tiles maxfrag off size l ->
  forall m x, copy_frags src_m dst src l m x =
    mem_write m (dst + off) (mem_read src_m (src + off) (Z.to_nat size)) x.
Proof.
  induction 1 as [off|off len size l Hlen Ht IH]; intros m x; cbn [copy_frags].
  - symmetry. apply mem_write_out. rewrite length_mem_read. lia.
  - pose proof (tiles_nonneg _ _ _ _ Ht). rewrite IH.
    replace (Z.to_nat size) with (Z.to_nat len + Z.to_nat (size - len))%nat by lia.
    rewrite mem_read_app, <- mem_write_app, length_mem_read, Z2Nat.id by lia.
    by rewrite !Z.add_assoc.
Qed.

Section Loop.
Context `{U : Urpc} `{IN : Indet} `{VF : !VhFuncs} `{BO : BucketOrder} `{E : Env}.

(** Submitting the fragments of a list, each with the ID of the one before. *)
Fixpoint submit_chain (buff : Z -> Z -> Z -> Z -> M world Z) (d s : Z) (l : list (Z * Z))
    (prev : Z) (flg : bool) : M world Z :=
  match l with
  | [] => notifyAll ;;; ret prev
  | (off, len) :: l =>
      let! req := buff (u64 (d + off)) (u64 (s + off)) len prev in
      if req =? VEO_REQUEST_ID_INVALID then ret req
      else (if flg then ret tt else progress) ;;; submit_chain buff d s l req true
  end.

Lemma bind_ext {S A B} (m : M S A) (k k' : A -> M S B) s :
  (forall a s', k a s' = k' a s') -> bind m k s = bind m k' s.
Proof. intros Hk. unfold bind. destruct (m s) as [[] s']; auto. Qed.

Lemma frag_loop_chain buff maxfrag d s k : forall n off size prev flg w,
  0 < maxfrag -> 0 <= size < 2 ^ 64 ->
  (frag_count maxfrag size <= k)%nat -> (frag_count maxfrag size <= n)%nat ->
  frag_loop n buff maxfrag size (u64 (d + off)) (u64 (s + off)) prev flg w =
  submit_chain buff d s (fragments k maxfrag off size) prev flg w.
Proof.
  induction k as [|k IH]; intros n off size prev flg w Hm Hs Hk Hn.
  { destruct (decide (size = 0)) as [->|Hne]; [by destruct n|].
    rewrite frag_count_step in Hk by lia. lia. }
  destruct (Z.eqb_spec size 0) as [->|Hne]; [by destruct n|].
  cbn [fragments]. destruct (Z.eqb_spec size 0) as [|_]; [done|].
  rewrite frag_count_step in Hk, Hn by lia. destruct n as [|n]; [lia|].
  cbn [frag_loop submit_chain]. destruct (Z.eqb_spec size 0) as [|_]; [done|].
  set (psz := if size <=? maxfrag then size else maxfrag) in *.
  assert (Hp : 0 < psz <= size) by (unfold psz; destruct (Z.leb_spec size maxfrag); lia).
  apply bind_ext. intros req w1. destruct (req =? VEO_REQUEST_ID_INVALID); [done|].
  apply bind_ext. intros _ w2.
  rewrite !u64_add_l, <- !Z.add_assoc, (u64_small (size - psz)) by lia.
  apply IH; [done|lia|lia|lia].
Qed.
End Loop.

(** ** Properties of the fragment sizes *)

Section Sizes.
Context `{U : Urpc} `{L : !UrpcLaws U} `{E : Env}.

Lemma align8b_pos z : 0 < z -> 0 < ALIGN8B z.
Proof. intros Hz. pose proof (align8b_ge z). lia. Qed.

Lemma default_frag_cases p : default_frag p = 1024 * 1024 \/ default_frag p = 4 * 1024 * 1024.
Proof. unfold default_frag, PART_SENDFRAG. destruct (_ <? _); auto. Qed.

Lemma div_pos_of_le k size : 0 < k <= size -> 0 < size / k.
Proof. intros Hk. pose proof (Z.div_le_lower_bound size k 1). lia. Qed.

Lemma write_maxfrag_pos p size :
  getenv "VEO_SENDFRAG" = None -> getenv "VEO_SENDCUT" = None -> 0 < size ->
  0 < write_maxfrag p size.
Proof.
  intros E1 E2 Hs. unfold write_maxfrag, frag_env. rewrite E1, E2. cbv zeta.
  change (2 * 1024 * 1024) with 2097152.
  change (2097152 / 2) with 1048576. change (2097152 / 3) with 699050.
  destruct (_ <? u64 _); [|destruct (default_frag_cases p); lia].
  destruct (Z.ltb_spec 2097152 size); [apply align8b_pos, div_pos_of_le; lia|].
  destruct (Z.ltb_spec 1048576 size); [apply align8b_pos, div_pos_of_le; lia|].
  destruct (Z.ltb_spec 699050 size); [apply align8b_pos, div_pos_of_le; lia|].
  by apply align8b_pos.
Qed.

Lemma read_maxfrag_pos p size :
  getenv "VEO_RECVFRAG" = None -> getenv "VEO_RECVCUT" = None -> 0 < size ->
  0 < read_maxfrag p size.
Proof.
  intros E1 E2 Hs. unfold read_maxfrag, frag_env. rewrite E1, E2. cbv zeta.
  change (2 * 1024 * 1024) with 2097152.
  change (2097152 / 2) with 1048576. change (2097152 / 3) with 699050.
  destruct (_ <? u64 _); [|destruct (default_frag_cases p); lia].
  destruct (Z.ltb_spec 2097152 size); [apply align8b_pos, div_pos_of_le; lia|].
  destruct (Z.ltb_spec 1048576 size); [apply align8b_pos, div_pos_of_le; lia|].
  destruct (Z.ltb_spec 699050 size); [apply align8b_pos, div_pos_of_le; lia|].
  by apply align8b_pos.
Qed.
End Sizes.

(** ** The transfers keep the invariant *)

Section TransferSim.
Context `{U : Urpc} `{L : !UrpcLaws U} `{IN : Indet} `{VF : !VhFuncs} `{VH : !VhLocal VF} `{BO : BucketOrder} `{E : Env}.

(** An ID that is invalid or that of a request which is not generic. *)
Definition chainable (id : Z) (v : view) : Prop :=
  id = VEO_REQUEST_ID_INVALID \/ dep_ok [] id v.

Lemma chainable_deps prev v d :
  chainable prev v -> d ∈ filter (fun x => x ≠ VEO_REQUEST_ID_INVALID) [prev] -> dep_ok [] d v.
Proof. intros Hc [Hd ->%list_elem_of_singleton]%list_elem_of_filter. by destruct Hc. Qed.

Lemma sendBuffAsync_sim d s sz prev :
  sim (chainable prev) (sendBuffAsync d s sz prev) chainable.
Proof.
  unfold sendBuffAsync. apply sim_alive; [apply sim_ret; by left|].
  apply (new_request_sim false (fun id => CommandImpl_ve id (C_sendbuff d s sz prev))); try done.
  - intros v id x [Hp _] Hx. by eapply chainable_deps.
  - intros v [_ Hv]. by left.
  - intros id. cbn. apply sim_ret. intros v Hv. right. by apply Hv.
Qed.

Lemma recvBuffAsync_sim d s sz prev :
  sim (chainable prev) (recvBuffAsync d s sz prev) chainable.
Proof.
  unfold recvBuffAsync. apply sim_alive; [apply sim_ret; by left|].
  apply (new_request_sim false (fun id => CommandImpl_ve id (C_recvbuff d s sz prev))); try done.
  - intros v id x [Hp _] Hx. by eapply chainable_deps.
  - intros v [_ Hv]. by left.
  - intros id. cbn. apply sim_ret. intros v Hv. right. by apply Hv.
Qed.

Lemma empty_transfer_sim : sim (fun _ => True) empty_transfer chainable.
Proof.
  apply (new_request_sim false (fun id => CommandImpl_vh id C_empty)); try done.
  - intros v id x _ Hx. by apply not_elem_of_nil in Hx.
  - intros v _. by right.
  - intros id. cbn. eapply sim_bind; [apply notifyAll_sim|]. intros u. apply sim_ret.
    intros v Hv. right. by apply Hv.
Qed.

Lemma frag_loop_sim buff maxfrag n :
  (forall d s sz prev, sim (chainable prev) (buff d s sz prev) chainable) ->
  forall rsize d s prev flg,
    sim (chainable prev) (frag_loop n buff maxfrag rsize d s prev flg) chainable.
Proof.
  intros Hb. induction n as [|n IH]; intros rsize d s prev flg; cbn [frag_loop];
    (destruct (rsize =? 0);
     [eapply sim_bind; [apply notifyAll_sim|]; intros ?; apply sim_ret; auto|]).
  { by apply sim_stop. }
  eapply sim_bind; [apply Hb|]. intros req.
  destruct (Z.eqb_spec req VEO_REQUEST_ID_INVALID) as [->|Hne]; [by apply sim_ret|].
  eapply sim_bind with (R := fun _ => chainable req); [|intros ?; apply IH].
  eapply sim_conseq; [apply (sim_dep _ (fun _ => True) (fun _ _ => True) req)| |].
  - destruct flg; [by apply sim_ret|apply progress_sim].
  - intros v [->|Hv]; done.
  - intros a v [_ Hv]. by right.
Qed.

Lemma asyncReadMem_sim n dst src size : sim (fun _ => True) (asyncReadMem n dst src size) chainable.
Proof.
  unfold asyncReadMem. apply sim_alive; [apply sim_ret; by left|].
  destruct (size =? 0); [eapply sim_conseq; [apply empty_transfer_sim|done|done]|].
  eapply sim_bind; [apply sim_gets|]. intros p.
  eapply sim_conseq; [apply frag_loop_sim, recvBuffAsync_sim|by left|done].
Qed.

Lemma asyncWriteMem_sim n dst src size : sim (fun _ => True) (asyncWriteMem n dst src size) chainable.
Proof.
  unfold asyncWriteMem. apply sim_alive; [apply sim_ret; by left|].
  destruct (size =? 0); [eapply sim_conseq; [apply empty_transfer_sim|done|done]|].
  eapply sim_bind; [apply sim_gets|]. intros p.
  eapply sim_conseq; [apply frag_loop_sim, sendBuffAsync_sim|by left|done].
Qed.
End TransferSim.

(** ** Properties *)

Section TransferProperties.
Context `{U : Urpc} `{L : !UrpcLaws U} `{IN : Indet} `{VF : !VhFuncs} `{VH : !VhLocal VF} `{BO : BucketOrder} `{E : Env}.

Lemma fragments_length maxfrag k : forall off size,
  (length (fragments k maxfrag off size) <= k)%nat.
Proof.
  induction k as [|k IH]; intros off size; cbn [fragments]; [done|].
  destruct (size =? 0); cbn [length]; [lia|]. specialize (IH (off + (if size <=? maxfrag then size else maxfrag)) (size - (if size <=? maxfrag then size else maxfrag))). lia.
Qed.

Lemma tiles_count maxfrag off size l :
  0 < maxfrag -> tiles maxfrag off size l -> (frag_count maxfrag size <= length l)%nat.
Proof.
  intros Hm. induction 1 as [off|off len size l Hlen Ht IH]; cbn [length].
  - unfold frag_count. rewrite Z.div_small by lia. done.
  - pose proof (tiles_nonneg _ _ _ _ Ht). unfold frag_count in *.
    assert ((size + maxfrag - 1) / maxfrag <= (size - len + maxfrag - 1) / maxfrag + 1).
    { replace ((size - len + maxfrag - 1) / maxfrag + 1)
        with ((size - len + maxfrag - 1 + 1 * maxfrag) / maxfrag) by (rewrite Z.div_add; lia).
      apply Z.div_le_mono; lia. }
    assert (0 <= (size - len + maxfrag - 1) / maxfrag) by (apply Z.div_pos; lia). lia.
Qed.

(** The pieces of a transfer with fragments of [maxfrag] bytes. *)
Definition pieces (maxfrag size : Z) : list (Z * Z) :=
  fragments (frag_count maxfrag size) maxfrag 0 size.

Lemma pieces_tile maxfrag size : 0 < maxfrag -> 0 <= size -> tiles maxfrag 0 size (pieces maxfrag size).
Proof. intros. by apply fragments_tile. Qed.

Lemma transfer_loop buff maxfrag size d s n w :
  0 < maxfrag -> 0 <= size < 2 ^ 64 -> in_u64 d -> in_u64 s ->
  (length (pieces maxfrag size) <= n)%nat ->
  frag_loop n buff maxfrag size d s VEO_REQUEST_ID_INVALID false w =
  submit_chain buff d s (pieces maxfrag size) VEO_REQUEST_ID_INVALID false w.
Proof.
  intros Hm Hs Hd Hss Hn.
  pose proof (tiles_count _ _ _ _ Hm (pieces_tile maxfrag size Hm ltac:(lia))).
  rewrite <- (u64_small d) at 1 by exact Hd. rewrite <- (u64_small s) at 1 by exact Hss.
  rewrite <- (Z.add_0_r d) at 1. rewrite <- (Z.add_0_r s) at 1.
  apply frag_loop_chain; try done. lia.
Qed.

(** A transfer submits its pieces as a chain. *)
Lemma asyncWriteMem_chain dst src size w :
  getenv "VEO_SENDFRAG" = None -> getenv "VEO_SENDCUT" = None ->
  is_alive w = true -> 0 < size < 2 ^ 64 -> in_u64 dst -> in_u64 src ->
  let l := pieces (write_maxfrag (the_peer w) size) size in
  tiles (write_maxfrag (the_peer w) size) 0 size l /\
  forall n, (length l <= n)%nat ->
    asyncWriteMem n dst src size w = submit_chain sendBuffAsync dst src l VEO_REQUEST_ID_INVALID false w.
Proof.
  intros E1 E2 Ha Hs Hd Hss l.
  pose proof (write_maxfrag_pos (the_peer w) size E1 E2 ltac:(lia)) as Hm.
  split; [apply pieces_tile; [done|lia]|].
  intros n Hn. unfold asyncWriteMem. rewrite (bind_Ret _ _ w true w) by (unfold gets; by rewrite Ha).
  cbn [negb]. destruct (Z.eqb_spec size 0); [lia|].
  rewrite (bind_Ret _ _ w (the_peer w) w) by done. apply transfer_loop; done || lia.
Qed.

Lemma asyncReadMem_chain dst src size w :
  getenv "VEO_RECVFRAG" = None -> getenv "VEO_RECVCUT" = None ->
  is_alive w = true -> 0 < size < 2 ^ 64 -> in_u64 dst -> in_u64 src ->
  let l := pieces (read_maxfrag (the_peer w) size) size in
  tiles (read_maxfrag (the_peer w) size) 0 size l /\
  forall n, (length l <= n)%nat ->
    asyncReadMem n dst src size w = submit_chain recvBuffAsync dst src l VEO_REQUEST_ID_INVALID false w.
Proof.
  intros E1 E2 Ha Hs Hd Hss l.
  pose proof (read_maxfrag_pos (the_peer w) size E1 E2 ltac:(lia)) as Hm.
  split; [apply pieces_tile; [done|lia]|].
  intros n Hn. unfold asyncReadMem. rewrite (bind_Ret _ _ w true w) by (unfold gets; by rewrite Ha).
  cbn [negb]. destruct (Z.eqb_spec size 0); [lia|].
  rewrite (bind_Ret _ _ w (the_peer w) w) by done. apply transfer_loop; done || lia.
Qed.

(** C17: an asynchronous write is cut into pieces that make up the whole.  With
  the default settings, for every size and every limit of ve-urpc, the loop of
  [asyncWriteMem] ends after a known number of rounds and has submitted a chain
  of requests, one per piece: the pieces are consecutive, none is empty or
  larger than the fragment size, together they cover exactly the bytes asked
  for, and copying them one after the other copies the whole. *)
Theorem asyncWriteMem_covers dst src size w :
  getenv "VEO_SENDFRAG" = None -> getenv "VEO_SENDCUT" = None ->
  is_alive w = true -> 0 < size < 2 ^ 64 -> in_u64 dst -> in_u64 src ->
  let l := pieces (write_maxfrag (the_peer w) size) size in
  tiles (write_maxfrag (the_peer w) size) 0 size l /\
  (forall n, (length l <= n)%nat ->
     asyncWriteMem n dst src size w =
     submit_chain sendBuffAsync dst src l VEO_REQUEST_ID_INVALID false w) /\
  (forall vh ve x, copy_frags vh dst src l ve x =
     mem_write ve dst (mem_read vh src (Z.to_nat size)) x).
Proof.
  intros E1 E2 Ha Hs Hd Hss l. destruct (asyncWriteMem_chain dst src size w) as [Ht Hc]; try done.
  split_and!; [exact Ht|exact Hc|].
  intros vh ve x. unfold l. rewrite (copy_tiles _ _ _ _ _ _ _ Ht). by rewrite !Z.add_0_r.
Qed.

(** An asynchronous read is cut into pieces that make up the whole, in the
  same way. *)
Theorem asyncReadMem_covers dst src size w :
  getenv "VEO_RECVFRAG" = None -> getenv "VEO_RECVCUT" = None ->
  is_alive w = true -> 0 < size < 2 ^ 64 -> in_u64 dst -> in_u64 src ->
  let l := pieces (read_maxfrag (the_peer w) size) size in
  tiles (read_maxfrag (the_peer w) size) 0 size l /\
  (forall n, (length l <= n)%nat ->
     asyncReadMem n dst src size w =
     submit_chain recvBuffAsync dst src l VEO_REQUEST_ID_INVALID false w) /\
  (forall ve vh x, copy_frags ve dst src l vh x =
     mem_write vh dst (mem_read ve src (Z.to_nat size)) x).
Proof.
  intros E1 E2 Ha Hs Hd Hss l. destruct (asyncReadMem_chain dst src size w) as [Ht Hc]; try done.
  split_and!; [exact Ht|exact Hc|].
  intros ve vh x. unfold l. rewrite (copy_tiles _ _ _ _ _ _ _ Ht). by rewrite !Z.add_0_r.
Qed.

Lemma issueRequestID_valid w : exists id w',
  issueRequestID w = (Ret id, w') /\ id <> VEO_REQUEST_ID_INVALID /\
  queue w' = queue w /\ is_alive w' = is_alive w.
Proof.
  unfold issueRequestID, bind, fetch_add_seq_no.
  destruct (Z.eqb_spec (seq_no (ctx w)) VEO_REQUEST_ID_INVALID) as [Es|Es]; cbn.
  - eexists _, _. split_and!; [done| |done|done]. rewrite Es. vm_compute. discriminate.
  - eexists _, _. by split_and!.
Qed.

(** A context that stays as it is while requests are queued: alive, with
    something in flight, so that the progress thread is the one to go on. *)
Definition busy (w : world) : Prop :=
  is_alive w = true /\ CommQueueOps.emptyInFlight (queue w) = false.

Lemma sendBuffAsync_busy d s sz prev w :
  busy w -> exists id w', sendBuffAsync d s sz prev w = (Ret id, w') /\
    id <> VEO_REQUEST_ID_INVALID /\ busy w'.
Proof.
  intros [Ha Hf]. unfold sendBuffAsync.
  rewrite (bind_Ret _ _ w true w) by (unfold gets; by rewrite Ha). cbn [negb].
  destruct (issueRequestID_valid w) as (id & w1 & E1 & Hid & Eq & Eal).
  rewrite (bind_Ret _ _ _ _ _ E1). exists id. eexists. split_and!; [reflexivity|done|].
  split; [cbn; by rewrite <- Ha, <- Eal|]. rewrite <- Hf, <- Eq. done.
Qed.

Lemma progress_busy w : busy w -> progress w = (Ret tt, w).
Proof.
  intros [_ Hf]. unfold progress. rewrite (bind_Ret _ _ w false w) by (unfold gets; by rewrite Hf).
  done.
Qed.

Lemma frag_loop_zero n : forall size d s prev flg w,
  0 < size < 2 ^ 64 -> busy w -> fst (frag_loop n sendBuffAsync 0 size d s prev flg w) = NoFuel.
Proof.
  induction n as [|n IH]; intros size d s prev flg w Hs Hb; cbn [frag_loop];
    (destruct (Z.eqb_spec size 0); [lia|]); [done|].
  destruct (Z.leb_spec size 0); [lia|].
  destruct (sendBuffAsync_busy d s 0 prev w Hb) as (id & w1 & E1 & Hid & Hb1).
  rewrite (bind_Ret _ _ _ _ _ E1).
  destruct (Z.eqb_spec id VEO_REQUEST_ID_INVALID); [done|].
  rewrite (bind_Ret _ _ w1 tt w1) by (destruct flg; [done|by apply progress_busy]).
  rewrite Z.sub_0_r, (u64_small size) by lia. by apply IH.
Qed.

(** A fragment size of 0 makes [asyncWriteMem] loop forever.  With
  [VEO_SENDFRAG=0] in the environment, on a context that is alive and has
  something in flight, the loop does not end however often it goes round: each
  round queues a request for 0 bytes and nothing gets done. *)
Theorem sendfrag_zero_never_ends dst src size w :
  getenv "VEO_SENDFRAG" = Some "0"%string -> 0 < size < 2 ^ 64 -> busy w ->
  forall n, fst (asyncWriteMem n dst src size w) = NoFuel.
Proof.
  intros E1 Hs Hb n. unfold asyncWriteMem.
  rewrite (bind_Ret _ _ w true w) by (unfold gets; by rewrite (proj1 Hb)). cbn [negb].
  destruct (Z.eqb_spec size 0); [lia|]. rewrite (bind_Ret _ _ w (the_peer w) w) by done.
  assert (write_maxfrag (the_peer w) size = 0) as ->.
  { unfold write_maxfrag, frag_env. rewrite E1. change (u64 (atoi "0")) with 0.
    change (u64 (5 * 0)) with 0. destruct (Z.ltb_spec size 0); [lia|done]. }
  by apply frag_loop_zero.
Qed.
End TransferProperties.

Lemma asyncWriteMem_covers_witness :
  let l := pieces (@write_maxfrag demo_urpc demo_env (the_peer demo_world) 3000000) 3000000 in
  tiles (@write_maxfrag demo_urpc demo_env (the_peer demo_world) 3000000) 0 3000000 l /\
  (forall n, (length l <= n)%nat ->
     @asyncWriteMem demo_urpc demo_indet demo_vh list_order demo_env n 4096 8192 3000000 demo_world =
     @submit_chain demo_urpc demo_indet demo_vh list_order
       (@sendBuffAsync demo_urpc demo_indet) 4096 8192 l VEO_REQUEST_ID_INVALID false demo_world) /\
  (forall vh ve x, copy_frags vh 4096 8192 l ve x =
     mem_write ve 4096 (mem_read vh 8192 (Z.to_nat 3000000)) x).
Proof.
  apply (@asyncWriteMem_covers demo_urpc demo_laws demo_indet demo_vh list_order demo_env
           4096 8192 3000000 demo_world); try reflexivity; unfold in_u64; lia.
Defined.

Lemma asyncReadMem_covers_witness :
  let l := pieces (@read_maxfrag demo_urpc demo_env (the_peer demo_world) 800000) 800000 in
  tiles (@read_maxfrag demo_urpc demo_env (the_peer demo_world) 800000) 0 800000 l /\
  (forall n, (length l <= n)%nat ->
     @asyncReadMem demo_urpc demo_indet demo_vh list_order demo_env n 4096 8192 800000 demo_world =
     @submit_chain demo_urpc demo_indet demo_vh list_order
       (@recvBuffAsync demo_urpc demo_indet) 4096 8192 l VEO_REQUEST_ID_INVALID false demo_world) /\
  (forall ve vh x, copy_frags ve 4096 8192 l vh x =
     mem_write vh 4096 (mem_read ve 8192 (Z.to_nat 800000)) x).
Proof.
  apply (@asyncReadMem_covers demo_urpc demo_laws demo_indet demo_vh list_order demo_env
           4096 8192 800000 demo_world); try reflexivity; unfold in_u64; lia.
Defined.

Definition zero_env : Env := fun s => if bool_decide (s = "VEO_SENDFRAG"%string) then Some "0"%string else None.

(** The example context with a request in flight. *)
Definition demo_busy : @world demo_urpc :=
  set_comq (mkCommQueue [] {[ 0 := example_command 0 0 ]} ∅ false) demo_world.

Lemma sendfrag_zero_never_ends_witness :
  fst (@asyncWriteMem demo_urpc demo_indet demo_vh list_order zero_env 1000 4096 8192 10 demo_busy)
  = NoFuel.
Proof.
  apply (@sendfrag_zero_never_ends demo_urpc demo_indet demo_vh list_order zero_env).
  - reflexivity.
  - lia.
  - split; reflexivity.
Defined.
