(* ===== verification/Submission.v ===== *)
(** * Requests submitted by several threads

    Threads of the application may submit requests to one context at the same time.  The
    order of the requests in [comq] is decided by the recursive mutex [submit_mtx]: each
    submission takes it, a call with a large stack frame holds it from the first piece of
    the frame to the request that ends the call, and [veo_req_block_begin] and
    [veo_req_block_end] let the application hold it over several calls of the API.

    A thread is the sequence of what its calls do with the context: asking whether it is
    alive, locking and unlocking [submit_mtx], pushing a request.  The threads take turns
    in any order, and the context may cease to be alive at any time.  The other files
    follow a single thread of the application through these calls, with everything else they do. *)

From Stdlib Require Import ZArith Lia Bool.
From stdpp Require Import base gmap list numbers relations.
From S2P Require Import Prelude Command AsyncTransfer.

Open Scope Z_scope.

(** ** What threads do *)

(** The requests, with the arguments of their commands that come from the caller. *)
Inductive submitted :=
| R_generic (urpc_cmd : Z)
| R_vh (func : vh_func) (arg : Z)
| R_call (addr : Z)
| R_sendbuff (dst src size : Z)
| R_recvbuff (dst src size : Z)
| R_empty
| R_largecall (addr : Z).

Inductive prog :=
| Done
| IfAlive (yes no : prog)
| Lock (k : prog)
| Unlock (k : prog)
| Push (r : submitted) (k : prog).

(** One request: [k] is what the caller does then, knowing whether there is a request. *)
Definition submit (r : submitted) (k : bool -> prog) : prog :=
  IfAlive (Lock (Push r (Unlock (k true)))) (k false).

(** The pieces of a transfer; the chain is given up when a piece is refused. *)
Fixpoint submit_all (l : list submitted) (k : bool -> prog) : prog :=
  match l with
  | [] => k true
  | r :: l => submit r (fun ok => if ok then submit_all l k else k false)
  end.

(** [asyncReadMem] and [asyncWriteMem]; [piece] is the request for a piece at an offset. *)
Definition transfer (piece : Z -> Z -> submitted) (maxfrag size : Z) (k : bool -> prog) : prog :=
  IfAlive (if size =? 0 then Lock (Push R_empty (Unlock (k true)))
           else submit_all ((fun '(off, psz) => piece off psz) <$> pieces maxfrag size) k)
    (k false).

Definition submit_read (maxfrag dst src size : Z) : (bool -> prog) -> prog :=
  transfer (fun off => R_recvbuff (u64 (dst + off)) (u64 (src + off))) maxfrag size.
Definition submit_write (maxfrag dst src size : Z) : (bool -> prog) -> prog :=
  transfer (fun off => R_sendbuff (u64 (dst + off)) (u64 (src + off))) maxfrag size.

(** What does not fit into the message of a call: its VE address, its VH address, its size,
    and the length of the pieces it is written and read in. *)
Record extra := mkExtra { e_stk : Z; e_buf : Z; e_size : Z; e_wfrag : Z; e_rfrag : Z }.

(** [doCallAsync], for a frame that does not fit into a message: under the lock, and whole *)
Definition large_frame (copyin copyout : bool) (addr : Z) (e : extra) (k : prog) : prog :=
  (if copyin then submit_write (e_wfrag e) (e_stk e) (e_buf e) (e_size e) else fun k => k false) (fun _ =>
  submit (R_call addr) (fun _ =>
  (if copyout then submit_read (e_rfrag e) (e_buf e) (e_stk e) (e_size e) else fun k => k false) (fun _ =>
  Push (R_largecall addr) (Unlock k)))).
Definition large_call (copyin copyout : bool) (addr : Z) (e : extra) (k : prog) : prog :=
  Lock (large_frame copyin copyout addr e k).

(** The calls of the API that submit, and the request blocks.  Which calls have large frames,
    and the length of the pieces, is what [Calls] and [AsyncTransfer] compute. *)
Inductive api_call :=
| Q_block_begin
| Q_block_end
| Q_generic (urpc_cmd : Z)
| Q_vh (func : vh_func) (arg : Z)
| Q_read (maxfrag dst src size : Z)
| Q_write (maxfrag dst src size : Z)
| Q_call (addr : Z)
| Q_call_large (copyin copyout : bool) (addr : Z) (e : extra).

Definition reqBlockBegin (k : prog) : prog := Lock k.
Definition reqBlockEnd (k : prog) : prog := Unlock k.

Definition api_prog (q : api_call) (k : prog) : prog :=
  match q with
  | Q_block_begin => reqBlockBegin k
  | Q_block_end => reqBlockEnd k
  | Q_generic cmd => submit (R_generic cmd) (fun _ => k)
  | Q_vh func arg => if decide (func = user_func 0) then k else submit (R_vh func arg) (fun _ => k)
  | Q_read maxfrag dst src size => submit_read maxfrag dst src size (fun _ => k)
  | Q_write maxfrag dst src size => submit_write maxfrag dst src size (fun _ => k)
  | Q_call addr => if addr =? 0 then k else IfAlive (submit (R_call addr) (fun _ => k)) k
  | Q_call_large copyin copyout addr e => if addr =? 0 then k else IfAlive (large_call copyin copyout addr e k) k
  end.

Definition session (l : list api_call) : prog := foldr api_prog Done l.

(** ** The threads together *)

Record submission := mkSubmission {
  threads : gmap nat prog;
  owner : option nat;            (* submit_mtx: who holds it, how often *)
  depth : nat;
  alive : bool;
  pushed : list (nat * submitted);  (* all requests pushed, the oldest first *)
}.

(** [submit_mtx.lock()] by thread [t]: not while another thread holds it. *)
Definition mtx_lock (t : nat) (o : option nat) (d : nat) : option (option nat * nat) :=
  match o with
  | None => Some (Some t, 1%nat)
  | Some t' => if decide (t' = t) then Some (Some t, S d) else None
  end.

(** [submit_mtx.unlock()]: defined for its owner only. *)
Definition mtx_unlock (t : nat) (o : option nat) (d : nat) : option (option nat * nat) :=
  match o with
  | Some t' =>
      if decide (t' = t) then
        match d with
        | S (S d) => Some (Some t, S d)
        | _ => Some (None, O)
        end
      else None
  | None => None
  end.

(** A step of thread [t], when it can go on. *)
Definition advance (t : nat) (s : submission) : option submission :=
  let go k o d l := mkSubmission (<[t := k]> (threads s)) o d (alive s) l in
  match threads s !! t with
  | None | Some Done => None
  | Some (IfAlive yes no) => Some (go (if alive s then yes else no) (owner s) (depth s) (pushed s))
  | Some (Lock k) =>
      '(o, d) ← mtx_lock t (owner s) (depth s); Some (go k o d (pushed s))
  | Some (Unlock k) =>
      '(o, d) ← mtx_unlock t (owner s) (depth s); Some (go k o d (pushed s))
  | Some (Push r k) => Some (go k (owner s) (depth s) (pushed s ++ [(t, r)]))
  end.

Definition exit_context (s : submission) : submission :=
  mkSubmission (threads s) (owner s) (depth s) false (pushed s).

Inductive turn : submission -> submission -> Prop :=
| turn_thread t s s' : advance t s = Some s' -> turn s s'
| turn_exit s : turn s (exit_context s).

Definition start (l : gmap nat (list api_call)) : submission :=
  mkSubmission (session <$> l) None O true [].

(** ** Nesting *)

(** From [d] nested locks on: requests are pushed with the lock held, it is released as often
    as taken, and not held at the end. *)
Fixpoint nested (d : nat) (p : prog) : bool :=
  match p with
  | Done => bool_decide (d = O)
  | IfAlive yes no => nested d yes && nested d no
  | Lock k => nested (S d) k
  | Unlock k => match d with S d => nested d k | O => false end
  | Push _ k => bool_decide (d <> O) && nested d k
  end.

(** The application ends the request blocks it has begun, and no others. *)
Fixpoint well_nested (d : nat) (l : list api_call) : bool :=
  match l with
  | [] => bool_decide (d = O)
  | Q_block_begin :: l => well_nested (S d) l
  | Q_block_end :: l => match d with S d => well_nested d l | O => false end
  | _ :: l => well_nested d l
  end.

Lemma nested_submit d r k : nested d (submit r k) = nested d (k true) && nested d (k false).
Proof. done. Qed.

Lemma nested_submit_all d l : forall k,
  nested d (k true) = true -> nested d (k false) = true -> nested d (submit_all l k) = true.
Proof.
  induction l as [|r l IH]; intros k Ht Hf; [done|]. cbn [submit_all]. rewrite nested_submit, IH, Hf; done.
Qed.

Lemma nested_transfer d piece maxfrag size k :
  nested d (k true) = true -> nested d (k false) = true -> nested d (transfer piece maxfrag size k) = true.
Proof.
  intros Ht Hf. cbn [nested transfer]. rewrite Hf, andb_true_r.
  destruct (size =? 0); [done|]. by apply nested_submit_all.
Qed.

Lemma nested_large d copyin copyout addr e k :
  nested d k = true -> nested d (large_call copyin copyout addr e k) = true.
Proof.
  intros Hk. assert (He : nested (S d) (Push (R_largecall addr) (Unlock k)) = true) by done.
  unfold large_call, large_frame. cbn [nested].
  destruct copyin, copyout; repeat (apply nested_transfer || rewrite nested_submit || apply andb_true_intro || split);
    exact He.
Qed.

Lemma nested_session l : forall d, well_nested d l = true -> nested d (session l) = true.
Proof.
  induction l as [|q l IH]; intros d Hl; [done|]. change (session (q :: l)) with (api_prog q (session l)).
  destruct q; cbn [well_nested api_prog reqBlockBegin reqBlockEnd] in *.
  - by apply IH.
  - destruct d; [done|]. by apply IH.
  - by rewrite nested_submit, IH.
  - case_decide; [by apply IH|]. by rewrite nested_submit, IH.
  - by apply nested_transfer; apply IH.
  - by apply nested_transfer; apply IH.
  - destruct (addr =? 0); [by apply IH|]. cbn [nested]. by rewrite nested_submit, IH.
  - destruct (addr =? 0); [by apply IH|]. cbn [nested]. apply andb_true_intro. split; [apply nested_large|]; by apply IH.
Qed.

(** ** Mutual exclusion *)

(** How often thread [t] holds the lock. *)
Definition held (t : nat) (o : option nat) (d : nat) : nat := if decide (o = Some t) then d else O.
Definition mtx_ok (o : option nat) (d : nat) : Prop := o = None <-> d = O.
Abbreviation level s t := (held t (owner s) (depth s)).

Lemma held_owner t d : held t (Some t) d = d.
Proof. unfold held. by rewrite decide_True. Qed.
Lemma held_other t o d : o <> Some t -> held t o d = O.
Proof. intros E. unfold held. by rewrite decide_False. Qed.

Lemma held_pos t o d : held t o d <> O -> o = Some t.
Proof. unfold held. by destruct (decide (o = Some t)). Qed.

Lemma mtx_lock_spec t o d o' d' :
  mtx_ok o d -> mtx_lock t o d = Some (o', d') ->
  mtx_ok o' d' /\ o' = Some t /\ (o = None \/ o = Some t) /\ held t o' d' = S (held t o d) /\
  forall t', t' <> t -> held t' o' d' = held t' o d.
Proof.
  intros Hm. unfold mtx_lock. destruct o as [t0|].
  - destruct (decide (t0 = t)) as [->|]; [|done]. intros [= <- <-]. rewrite !held_owner.
    split_and!; try done; [by right|]. intros t' Hne. by rewrite !held_other by congruence.
  - intros [= <- <-]. rewrite held_owner, held_other by done.
    split_and!; try done; [by left|]. intros t' Hne. by rewrite !held_other by congruence.
Qed.

Lemma mtx_unlock_spec t o d o' d' :
  mtx_ok o d -> mtx_unlock t o d = Some (o', d') ->
  mtx_ok o' d' /\ o = Some t /\ (o' = None \/ o' = Some t) /\ held t o d = S (held t o' d') /\
  forall t', t' <> t -> held t' o' d' = held t' o d.
Proof.
  intros Hm. unfold mtx_unlock. destruct o as [t0|]; [|done]. destruct (decide (t0 = t)) as [->|]; [|done].
  destruct d as [|[|d]]; [by destruct Hm as [_ Hm]; specialize (Hm eq_refl)|..]; intros [= <- <-]; rewrite held_owner.
  - rewrite held_other by done. split_and!; try done; [by left|]. intros t' Hne. by rewrite !held_other by congruence.
  - rewrite held_owner. split_and!; try done; [by right|]. intros t' Hne. by rewrite !held_other by congruence.
Qed.

Record ordered (s : submission) : Prop := {
  ord_mtx : mtx_ok (owner s) (depth s);
  ord_owner : forall t, owner s = Some t -> is_Some (threads s !! t);
  ord_nested : forall t p, threads s !! t = Some p -> nested (level s t) p = true;
}.

(** A step of a thread in an ordered state: what it does, at its own level. *)
Inductive local (a : bool) : nat -> prog -> list submitted -> nat -> prog -> Prop :=
| local_alive d yes no : local a d (IfAlive yes no) [] d (if a then yes else no)
| local_lock d k : local a d (Lock k) [] (S d) k
| local_unlock d k : local a (S d) (Unlock k) [] d k
| local_push d r k : d <> O -> local a d (Push r k) [r] d k.

Lemma local_nested a d p l d' p' : local a d p l d' p' -> nested d p = true -> nested d' p' = true.
Proof.
  destruct 1; cbn [nested]; rewrite ?andb_true_iff; try tauto. intros [H1 H2]. by destruct a.
Qed.

Lemma advance_local t s s' :
  ordered s -> advance t s = Some s' ->
  exists p p' l, threads s !! t = Some p /\ local (alive s) (level s t) p l (level s' t) p' /\
    threads s' = <[t := p']> (threads s) /\ alive s' = alive s /\ pushed s' = pushed s ++ (pair t <$> l) /\
    mtx_ok (owner s') (depth s') /\ (owner s' = owner s \/ owner s' = None \/ owner s' = Some t) /\
    forall t', t' <> t -> level s' t' = level s t'.
Proof.
  intros [Hm Hown Hn] Ha. unfold advance in Ha. destruct (threads s !! t) as [p|] eqn:Ep; [|done].
  specialize (Hn _ _ Ep). destruct p as [|yes no|k|k|r k]; [done|..].
  - injection Ha as <-. exists (IfAlive yes no), (if alive s then yes else no), []. cbn.
    rewrite app_nil_r. split_and!; try done; [constructor|by left].
  - destruct (mtx_lock t (owner s) (depth s)) as [[o d]|] eqn:E; [|done]. injection Ha as <-. cbn.
    destruct (mtx_lock_spec _ _ _ _ _ Hm E) as (H1 & H2 & _ & H3 & H4).
    exists (Lock k), k, []. cbn. rewrite app_nil_r, H3. split_and!; try done; [constructor|tauto].
  - destruct (mtx_unlock t (owner s) (depth s)) as [[o d]|] eqn:E; [|done]. injection Ha as <-. cbn.
    destruct (mtx_unlock_spec _ _ _ _ _ Hm E) as (H1 & _ & H2 & H3 & H4).
    exists (Unlock k), k, []. cbn. rewrite app_nil_r, H3. split_and!; try done; [constructor|tauto].
  - injection Ha as <-. exists (Push r k), k, [r]. cbn [nested] in Hn. apply andb_prop in Hn as [Hd _].
    apply bool_decide_eq_true in Hd. split_and!; try done; [by constructor|by left].
Qed.

Lemma turn_ordered s s' : ordered s -> turn s s' -> ordered s'.
Proof.
  intros Ho Ht. destruct Ht as [t s s' Ha|s]; [|destruct Ho as [H1 H2 H3]; exact (Build_ordered (exit_context s) H1 H2 H3)].
  destruct (advance_local _ _ _ Ho Ha) as (p & p' & l & Ep & Hl & Et & _ & _ & Hm & How & Hoth).
  split; [done|..].
  - intros t' E. rewrite Et, lookup_insert_is_Some. destruct (decide (t = t')); [by left|].
    right. split; [done|]. apply (ord_owner _ Ho). destruct How as [How|[How|How]]; congruence.
  - intros t' q. rewrite Et, lookup_insert_Some. intros [[<- <-]|[Hne Eq]].
    + eapply local_nested; [exact Hl|]. by apply (ord_nested _ Ho).
    + rewrite Hoth by done. by apply (ord_nested _ Ho).
Qed.

Lemma start_ordered l : (forall t calls, l !! t = Some calls -> well_nested O calls = true) -> ordered (start l).
Proof.
  intros Hl. split; [done|done|]. intros t p. cbn. rewrite lookup_fmap, fmap_Some. intros (calls & E & ->).
  by apply nested_session, (Hl t).
Qed.

Lemma run_ordered s s' : ordered s -> rtc turn s s' -> ordered s'.
Proof. intros Ho Hr. induction Hr as [|s1 s2 s3 Ht _ IH]; [done|]. by apply IH, (turn_ordered s1). Qed.

(** ** What is pushed while a thread holds the lock *)

(** From level [d], the program [p] pushes [l] until it gives the lock up, and goes on with
    [q].  With [a] the context is alive all the time. *)
Inductive block (a : bool) : nat -> prog -> list submitted -> prog -> Prop :=
| block_out k : block a 1 (Unlock k) [] k
| block_step b d p l d' p' l' q :
    local b d p l d' p' -> (a = true -> b = true) -> d' <> O -> block a d' p' l' q -> block a d p (l ++ l') q.

(** A thread is about to take the lock, holds it, or has given it up; [pre] is what was pushed
    before it took the lock. *)
Inductive phase (s0 : submission) (t : nat) (k : prog) (s : submission) : Prop :=
| before : threads s !! t = Some (Lock k) -> owner s <> Some t -> pushed s0 `prefix_of` pushed s -> phase s0 t k s
| inside pre l p :
    pushed s0 `prefix_of` pre -> pushed s = pre ++ (pair t <$> l) -> owner s = Some t -> threads s !! t = Some p ->
    (forall a l' q, (a = true -> alive s = true) -> block a (depth s) p l' q -> block a 1 k (l ++ l') q) ->
    phase s0 t k s
| after pre l post q :
    pushed s0 `prefix_of` pre -> pushed s = pre ++ (pair t <$> l) ++ post ->
    (forall a, (a = true -> alive s = true) -> block a 1 k l q) -> phase s0 t k s.

Lemma phase_exit s0 t k s : phase s0 t k s -> phase s0 t k (exit_context s).
Proof.
  destruct 1 as [|pre l p H1 H2 H3 H4 H5|pre l post q H1 H2 H3]; [by apply before|eapply inside|eapply after]; try done.
  - intros a l' q Hal. apply H5. intros E. by specialize (Hal E).
  - intros a Hal. apply H3. intros E. by specialize (Hal E).
Qed.

(** A step of the thread itself. *)
Lemma phase_own s0 t k s s' : ordered s -> advance t s = Some s' -> phase s0 t k s -> phase s0 t k s'.
Proof.
  intros Ho Ha Hp.
  destruct (advance_local _ _ _ Ho Ha) as (p1 & p2 & r & Ep & Hl & Et & Ea & Epu & Hm & How & Hoth).
  destruct Hp as [Hk Hno Hpre|pre l p Hpre Hpu Hown Hp Hb|pre l post q Hpre Hpu Hb].
  - rewrite Hk in Ep. injection Ep as <-. inversion Hl as [|d k' E1 E2 E3 E4| |]; subst.
    rewrite held_other in E4 by done. assert (Hown : owner s' = Some t) by (by apply (held_pos t _ (depth s')); lia).
    rewrite Hown, held_owner in E4. rewrite app_nil_r in Epu.
    apply (inside _ _ _ _ (pushed s) [] p2); try done; [by rewrite app_nil_r|by rewrite Et, lookup_insert_eq|].
    intros a l' q _. by rewrite <- E4.
  - rewrite Hp in Ep. injection Ep as <-. rewrite Hown, held_owner in Hl.
    destruct (decide (owner s' = Some t)) as [Hown'|Hown'].
    + rewrite Hown', held_owner in Hl. apply (inside _ _ _ _ pre (l ++ r) p2); try done.
      * by rewrite Epu, Hpu, fmap_app, app_assoc.
      * by rewrite Et, lookup_insert_eq.
      * intros a l' q Hal Hbl. rewrite <- app_assoc. rewrite Ea in Hal. apply Hb; [done|].
        eapply block_step; [exact Hl|done| |done]. intros E. by apply Hm in E; rewrite E in Hown'.
    + rewrite (held_other t (owner s')) in Hl by done. inversion Hl; subst; [|..|done].
      * destruct (ord_mtx _ Ho) as [_ E]. by rewrite E in Hown.
      * rewrite app_nil_r in Epu. eapply (after _ _ _ _ pre l [] p2); [done|by rewrite Epu, Hpu, app_nil_r|].
        intros a Hal. rewrite Ea in Hal. rewrite <- (app_nil_r l). apply Hb; [done|].
        match goal with E : _ = depth s |- _ => rewrite <- E end. constructor.
  - apply (after _ _ _ _ pre l (post ++ (pair t <$> r)) q); [done|by rewrite Epu, Hpu, <- !app_assoc|by rewrite Ea].
Qed.

(** A step of another thread: it pushes nothing while [t] holds the lock. *)
Lemma phase_other s0 t k u s s' : ordered s -> u <> t -> advance u s = Some s' -> phase s0 t k s -> phase s0 t k s'.
Proof.
  intros Ho Hne Ha Hp.
  destruct (advance_local _ _ _ Ho Ha) as (p1 & p2 & r & Ep & Hl & Et & Ea & Epu & Hm & How & Hoth).
  specialize (Hoth t ltac:(done)).
  destruct Hp as [Hk Hno Hpre|pre l p Hpre Hpu Hown Hp Hb|pre l post q Hpre Hpu Hb].
  - apply before; [by rewrite Et, lookup_insert_ne| |rewrite Epu; by apply prefix_app_r].
    intros E. rewrite (held_other t (owner s)), E, held_owner in Hoth by done.
    by apply Hm in Hoth; rewrite E in Hoth.
  - rewrite Hown, held_owner in Hoth.
    assert (Hd : depth s <> O) by (intros E; apply (ord_mtx _ Ho) in E; congruence).
    assert (Hown' : owner s' = Some t) by (apply (held_pos t _ (depth s')); congruence).
    rewrite Hown', held_owner in Hoth. rewrite (held_other u (owner s)) in Hl by congruence.
    assert (r = []) as -> by (by inversion Hl). rewrite app_nil_r in Epu.
    apply (inside _ _ _ _ pre l p); [done|congruence|done|by rewrite Et, lookup_insert_ne|by rewrite Ea, Hoth].
  - apply (after _ _ _ _ pre l (post ++ (pair u <$> r)) q); [done|by rewrite Epu, Hpu, <- !app_assoc|by rewrite Ea].
Qed.

Lemma phase_run s0 t k s s' : ordered s -> rtc turn s s' -> phase s0 t k s -> phase s0 t k s'.
Proof.
  intros Ho Hr. induction Hr as [|s1 s2 s3 Ht _ IH]; [done|]. intros Hp.
  apply IH; [by apply (turn_ordered s1)|]. destruct Ht as [u s1 s2 Ha|s1]; [|by apply phase_exit].
  destruct (decide (u = t)) as [->|Hne]; [by apply (phase_own s0 t k s1)|by apply (phase_other s0 t k u s1)].
Qed.

(** When a thread has gone through a lock, what it pushed with the lock held is together. *)
Lemma block_together s t k s' :
  ordered s -> threads s !! t = Some (Lock k) -> owner s <> Some t -> rtc turn s s' ->
  threads s' !! t <> Some (Lock k) -> owner s' <> Some t ->
  exists pre l post q, pushed s' = pre ++ (pair t <$> l) ++ post /\ pushed s `prefix_of` pre /\
    block (alive s') 1 k l q.
Proof.
  intros Ho Hk Hno Hr Hmoved Hout.
  destruct (phase_run s t k s s' Ho Hr) as [|pre l p H1 H2 H3|pre l post q H1 H2 H3]; [by apply before|done|done|].
  exists pre, l, post, q. split_and!; [done|done|by apply H3].
Qed.

(** ** The requests of a call *)

Definition transfer_requests (piece : Z -> Z -> submitted) (maxfrag size : Z) : list submitted :=
  if size =? 0 then [R_empty] else (fun '(off, psz) => piece off psz) <$> pieces maxfrag size.
Definition read_requests (maxfrag dst src size : Z) : list submitted :=
  transfer_requests (fun off => R_recvbuff (u64 (dst + off)) (u64 (src + off))) maxfrag size.
Definition write_requests (maxfrag dst src size : Z) : list submitted :=
  transfer_requests (fun off => R_sendbuff (u64 (dst + off)) (u64 (src + off))) maxfrag size.

Definition large_requests (copyin copyout : bool) (addr : Z) (e : extra) : list submitted :=
  (if copyin then write_requests (e_wfrag e) (e_stk e) (e_buf e) (e_size e) else []) ++
  [R_call addr] ++
  (if copyout then read_requests (e_rfrag e) (e_buf e) (e_stk e) (e_size e) else []) ++
  [R_largecall addr].

Definition call_requests (q : api_call) : list submitted :=
  match q with
  | Q_block_begin | Q_block_end => []
  | Q_generic cmd => [R_generic cmd]
  | Q_vh func arg => if decide (func = user_func 0) then [] else [R_vh func arg]
  | Q_read maxfrag dst src size => read_requests maxfrag dst src size
  | Q_write maxfrag dst src size => write_requests maxfrag dst src size
  | Q_call addr => if addr =? 0 then [] else [R_call addr]
  | Q_call_large copyin copyout addr e => if addr =? 0 then [] else large_requests copyin copyout addr e
  end.

Definition is_block (q : api_call) : bool :=
  match q with Q_block_begin | Q_block_end => true | _ => false end.

(** With the lock held, [p] goes on to [k] having pushed [R], or a part of it in the same
    order when the context ceases to be alive. *)
Definition does (a : bool) (p : prog) (R : list submitted) (k : prog) : Prop :=
  forall d l q, block a (S d) p l q -> exists l1 l2, l = l1 ++ l2 /\ l1 `sublist_of` R /\ (a = true -> l1 = R) /\
    block a (S d) k l2 q.

Lemma does_nothing a k : does a k [] k.
Proof. intros d l q H. by exists [], l. Qed.

Lemma does_stop R k : does false k R k.
Proof. intros d l q H. exists [], l. split_and!; try done. apply sublist_nil_l. Qed.

Lemma does_app a p R1 k1 R2 k : does a p R1 k1 -> does a k1 R2 k -> does a p (R1 ++ R2) k.
Proof.
  intros H1 H2 d l q H. destruct (H1 _ _ _ H) as (l1 & l' & -> & S1 & E1 & H').
  destruct (H2 _ _ _ H') as (l2 & l3 & -> & S2 & E2 & H''). exists (l1 ++ l2), l3.
  split_and!; [by rewrite app_assoc|by apply sublist_app|intros E; by rewrite E1, E2|done].
Qed.

Lemma does_alive a yes no R k : does a yes R k -> does false no R k -> does a (IfAlive yes no) R k.
Proof.
  intros H1 H2 d l q H. inversion H as [|b ? ? ? ? ? l' ? Hl Hb _ H']; subst. inversion Hl; subst. cbn [app].
  destruct b; [by apply H1|]. destruct a; [by specialize (Hb eq_refl)|by apply H2].
Qed.

Lemma does_push a r k : does a (Push r k) [r] k.
Proof.
  intros d l q H. inversion H as [|b ? ? ? ? ? l' ? Hl _ _ H']; subst. inversion Hl; subst. by exists [r], l'.
Qed.

Lemma does_locked a p R k : does a p R (Unlock k) -> does a (Lock p) R k.
Proof.
  intros Hp d l q H. inversion H as [|b ? ? ? ? ? l' ? Hl _ _ H']; subst. inversion Hl; subst. cbn [app].
  destruct (Hp _ _ _ H') as (l1 & l2 & -> & S1 & E1 & H2). exists l1, l2. split_and!; try done.
  inversion H2 as [|b' ? ? ? ? ? l3 ? Hl' _ _ H3]; subst. inversion Hl'; subst. done.
Qed.

Lemma does_submit a r R kt kf k : does a kt R k -> does false kf (r :: R) k ->
  does a (IfAlive (Lock (Push r (Unlock kt))) kf) (r :: R) k.
Proof.
  intros H1 H2. apply does_alive; [|done]. apply (does_app _ _ [r] kt R); [|done]. apply does_locked, does_push.
Qed.

Lemma does_submit_all a l k : does a (submit_all l (fun _ => k)) l k.
Proof.
  induction l as [|r l IH]; [apply does_nothing|]. apply does_submit; [done|apply does_stop].
Qed.

Lemma does_transfer a piece maxfrag size k :
  does a (transfer piece maxfrag size (fun _ => k)) (transfer_requests piece maxfrag size) k.
Proof.
  apply does_alive; [|apply does_stop]. unfold transfer_requests. destruct (size =? 0).
  - apply does_locked, does_push.
  - apply does_submit_all.
Qed.

Lemma does_frame a copyin copyout addr e k : does a (large_frame copyin copyout addr e k)
  (large_requests copyin copyout addr e) (Unlock k).
Proof.
  eapply does_app; [destruct copyin; [apply does_transfer|apply does_nothing]|].
  eapply does_app; [apply does_submit; [apply does_nothing|apply does_stop]|].
  eapply does_app; [destruct copyout; [apply does_transfer|apply does_nothing]|]. apply does_push.
Qed.

Lemma does_large a copyin copyout addr e k :
  does a (large_call copyin copyout addr e k) (large_requests copyin copyout addr e) k.
Proof. apply does_locked, does_frame. Qed.

Lemma does_call a q k : is_block q = false -> does a (api_prog q k) (call_requests q) k.
Proof.
  destruct q; intros Hq; try done; cbn [api_prog call_requests].
  - apply does_submit; [apply does_nothing|apply does_stop].
  - case_decide; [apply does_nothing|]. apply does_submit; [apply does_nothing|apply does_stop].
  - apply does_transfer.
  - apply does_transfer.
  - destruct (addr =? 0); [apply does_nothing|].
    apply does_alive; [|apply does_stop]. apply does_submit; [apply does_nothing|apply does_stop].
  - destruct (addr =? 0); [apply does_nothing|]. apply does_alive; [apply does_large|apply does_stop].
Qed.

Lemma does_calls a calls k :
  Forall (fun q => is_block q = false) calls -> does a (foldr api_prog k calls) (calls ≫= call_requests) k.
Proof.
  induction 1 as [|q calls Hq _ IH]; [apply does_nothing|]. cbn. eapply does_app; [by apply does_call|done].
Qed.

Lemma block_unlock a k l q : block a 1 (Unlock k) l q -> l = [] /\ q = k.
Proof. inversion 1 as [|b ? ? ? ? ? l' ? Hl _ Hd _]; subst; [done|]. by inversion Hl; subst. Qed.

(** ** Work that is left *)

Fixpoint effort (p : prog) : nat :=
  match p with
  | Done => O
  | IfAlive yes no => S (effort yes + effort no)
  | Lock k | Unlock k | Push _ k => S (effort k)
  end.

Definition work (s : submission) : nat := map_fold (fun _ p n => (effort p + n)%nat) O (threads s).

Lemma work_insert (m : gmap nat prog) t p p' :
  m !! t = Some p ->
  (map_fold (fun _ p n => effort p + n) O (<[t := p']> m) + effort p =
   map_fold (fun _ p n => effort p + n) O m + effort p')%nat.
Proof.
  intros E. rewrite <- insert_delete_eq, map_fold_insert_L by (try apply lookup_delete_eq; intros; lia).
  rewrite (map_fold_delete_L _ _ t p m) by (done || (intros; lia)). lia.
Qed.

Lemma local_effort a d p l d' p' : local a d p l d' p' -> (effort p' < effort p)%nat.
Proof. destruct 1; cbn [effort]; [destruct a|..]; lia. Qed.

Lemma advance_work t s s' : ordered s -> advance t s = Some s' -> (work s' < work s)%nat.
Proof.
  intros Ho Ha. destruct (advance_local _ _ _ Ho Ha) as (p & p' & l & Ep & Hl & Et & _).
  unfold work. rewrite Et. pose proof (work_insert (threads s) t p p' Ep). apply local_effort in Hl. lia.
Qed.

(** A thread that has the lock, or can have it, goes on. *)
Lemma advance_able t p s :
  ordered s -> threads s !! t = Some p -> p <> Done -> owner s = None \/ owner s = Some t ->
  is_Some (advance t s).
Proof.
  intros Ho Ep Hp Hown. pose proof (ord_nested _ Ho _ _ Ep) as Hn. unfold advance. rewrite Ep.
  destruct p as [|yes no|k|k|r k]; [done|by eexists| | |by eexists].
  - unfold mtx_lock. destruct Hown as [->| ->]; [by eexists|]. rewrite decide_True by done. by eexists.
  - unfold mtx_unlock. destruct Hown as [E|E]; rewrite E in *.
    + by rewrite held_other in Hn.
    + rewrite decide_True by done. destruct (depth s) as [|[|d]]; by eexists.
Qed.

Definition all_done (s : submission) : Prop := map_Forall (fun _ p => p = Done) (threads s).

Lemma advance_some s : ordered s -> all_done s \/ exists t, is_Some (advance t s).
Proof.
  intros Ho. destruct (owner s) as [t|] eqn:Eo.
  - right. exists t. destruct (ord_owner _ Ho t Eo) as [p Ep]. apply (advance_able t p); [done..| |by right].
    intros ->. pose proof (ord_nested _ Ho _ _ Ep) as Hn. cbn [nested] in Hn. apply bool_decide_eq_true in Hn.
    rewrite Eo, held_owner in Hn. by apply (ord_mtx _ Ho) in Hn; rewrite Eo in Hn.
  - assert (Hdec : forall (i : nat) p, Decision (p = Done)) by (intros _ []; (by left) || (by right)).
    destruct (decide (map_Forall (fun _ p => p = Done) (threads s))) as [|Hnot]; [by left|].
    apply map_not_Forall in Hnot as (t & p & Ep & Hp); [|done]. right. exists t. apply (advance_able t p); auto.
Qed.

(** ** Properties *)

(** From [s] to [s'], thread [t] has pushed [R], or a part of it in the same order when the
    context ceased to be alive, one after the other and without requests of other threads
    between them. *)
Definition together (t : nat) (R : list submitted) (s s' : submission) : Prop :=
  exists pre R' post, pushed s' = pre ++ (pair t <$> R') ++ post /\ pushed s `prefix_of` pre /\
    R' `sublist_of` R /\ (alive s' = true -> R' = R).

Section Submission.
Context (calls : gmap nat (list api_call)).
Context (Hcalls : forall t l, calls !! t = Some l -> well_nested O l = true).

Lemma reach_ordered s : rtc turn (start calls) s -> ordered s.
Proof. apply run_ordered, start_ordered, Hcalls. Qed.

Lemma lock_together t p R k s s' :
  rtc turn (start calls) s -> rtc turn s s' -> threads s !! t = Some (Lock p) -> does (alive s') p R (Unlock k) ->
  owner s <> Some t -> owner s' <> Some t -> threads s' !! t <> Some (Lock p) -> together t R s s'.
Proof.
  intros Hr Hr' Hp Hdoes Ho Ho' Hm.
  destruct (block_together s t p s') as (pre & l & post & q & E & Hpre & Hb); try done; [by apply reach_ordered|].
  destruct (Hdoes _ _ _ Hb) as (l1 & l2 & -> & S1 & E1 & Hu). apply block_unlock in Hu as [-> _].
  rewrite app_nil_r in E. by exists pre, l1, post.
Qed.

(** C22: request blocks.  Threads of the application submit requests to one context at the
  same time, each ending the request blocks it has begun.  Between
  [veo_req_block_begin] and [veo_req_block_end] of a thread, calls with large stack frames
  among them, only its own requests come into the queue, in the order of the calls, without
  a request of another thread between them. *)
Theorem request_block_together t block k s s' :
  rtc turn (start calls) s -> rtc turn s s' -> Forall (fun q => is_block q = false) block ->
  threads s !! t = Some (reqBlockBegin (foldr api_prog (reqBlockEnd k) block)) -> owner s <> Some t ->
  threads s' !! t <> threads s !! t -> owner s' <> Some t ->
  together t (block ≫= call_requests) s s'.
Proof.
  intros Hr Hr' Hb Hp Ho Hm Ho'. rewrite Hp in Hm.
  eapply lock_together; try done. by apply does_calls.
Qed.

(** C21: calls with large stack frames.  Whatever other threads submit to the context, and when,
  the requests of a call whose frame does not fit into a message are one after the
  other in the queue: those that write the rest of the frame, the call, those that read the
  frame back, and the one that ends the call.  So no other call of the context runs on the VE
  stack between the transfer of the frame and the call. *)
Theorem large_call_together t copyin copyout addr e k s s' :
  rtc turn (start calls) s -> rtc turn s s' ->
  threads s !! t = Some (large_call copyin copyout addr e k) -> owner s <> Some t ->
  threads s' !! t <> threads s !! t -> owner s' <> Some t ->
  together t (large_requests copyin copyout addr e) s s'.
Proof.
  intros Hr Hr' Hp Ho Hm Ho'. rewrite Hp in Hm. eapply lock_together; try done. apply does_frame.
Qed.

(** C23: submissions end.  Threads that end the request blocks they have begun never
  block each other for good on [submit_mtx], and never release it without holding it: in
  every state some thread can go on, or all are done, and each step leaves less to do. *)
Theorem submissions_end s :
  rtc turn (start calls) s ->
  (all_done s \/ exists t, is_Some (advance t s)) /\
  (forall t s', advance t s = Some s' -> (work s' < work s)%nat) /\ work (exit_context s) = work s.
Proof.
  intros Hr%reach_ordered. split_and!; [by apply advance_some|by intros t s'; apply advance_work|done].
Qed.
End Submission.

(** ** Example: two threads *)

Fixpoint schedule (l : list nat) (s : submission) : option submission :=
  match l with
  | [] => Some s
  | t :: l => s' ← advance t s; schedule l s'
  end.

Lemma schedule_run l : forall s s', schedule l s = Some s' -> rtc turn s s'.
Proof.
  induction l as [|t l IH]; intros s s'; cbn; [intros [= ->]; apply rtc_refl|].
  destruct (advance t s) as [s1|] eqn:E; [|done]. intros H. eapply rtc_l; [by eapply turn_thread|by apply IH].
Qed.

Definition demo_extra : extra := mkExtra 1000 2000 24 16 24.

(** The first thread makes a call in a request block, the second one a call with a large frame. *)
Definition demo_calls : gmap nat (list api_call) :=
  <[O := [Q_block_begin; Q_generic 7; Q_call 5; Q_block_end]]> {[1%nat := [Q_call_large true true 9 demo_extra]]}.

Lemma demo_calls_nested t l : demo_calls !! t = Some l -> well_nested O l = true.
Proof. unfold demo_calls. rewrite lookup_insert_Some, lookup_singleton_Some. by intros [[_ <-]|[_ [_ <-]]]. Qed.

Definition demo_at (l : list nat) : submission := default (start demo_calls) (schedule l (start demo_calls)).

Lemma demo_at_run l1 l2 :
  match schedule l1 (start demo_calls) with
  | Some s => match schedule l2 s with Some _ => true | None => false end
  | None => false end = true ->
  rtc turn (start demo_calls) (demo_at l1) /\ rtc turn (demo_at l1) (demo_at (l1 ++ l2)).
Proof.
  assert (Happ : forall l s, schedule (l ++ l2) s = s' ← schedule l s; schedule l2 s').
  { induction l as [|t l IH]; intros s; [done|]. cbn. destruct (advance t s) as [s1|]; [apply IH|done]. }
  unfold demo_at. rewrite Happ. destruct (schedule l1 (start demo_calls)) as [s|] eqn:E; [|done]. cbn [mbind option_bind].
  destruct (schedule l2 s) as [s'|] eqn:E'; [|done]. intros _. cbn [default]. split; by eapply schedule_run.
Qed.

Lemma request_block_together_witness :
  together 0 [R_generic 7; R_call 5] (demo_at [1%nat]) (demo_at ([1%nat] ++ replicate 11 0%nat)).
Proof.
  destruct (demo_at_run [1%nat] (replicate 11 0%nat)) as [H1 H2]; [vm_compute; reflexivity|].
  refine (request_block_together demo_calls demo_calls_nested 0 [Q_generic 7; Q_call 5] Done
            (demo_at [1%nat]) (demo_at ([1%nat] ++ replicate 11 0%nat)) H1 H2 _ _ _ _ _).
  - by repeat constructor.
  - vm_compute. reflexivity.
  - vm_compute. discriminate.
  - vm_compute. discriminate.
  - vm_compute. discriminate.
Defined.

(** The second thread begins after the first one has pushed a request, and waits for it. *)
Lemma large_call_together_witness :
  let s := demo_at [1; 0; 0; 0; 0; 0]%nat in
  let s' := demo_at ([1; 0; 0; 0; 0; 0]%nat ++ (replicate 6 0 ++ replicate 21 1)%nat) in
  together 1 [R_sendbuff 1000 2000 16; R_sendbuff 1016 2016 8; R_call 9; R_recvbuff 2000 1000 24; R_largecall 9] s s'.
Proof.
  intros s s'.
  destruct (demo_at_run [1; 0; 0; 0; 0; 0]%nat (replicate 6 0 ++ replicate 21 1)%nat) as [H1 H2];
    [vm_compute; reflexivity|].
  refine (large_call_together demo_calls demo_calls_nested 1 true true 9 demo_extra Done s s' H1 H2 _ _ _ _).
  - vm_compute. reflexivity.
  - vm_compute. discriminate.
  - vm_compute. discriminate.
  - vm_compute. discriminate.
Defined.

Lemma submissions_end_witness : all_done (demo_at [1%nat]) \/ exists t, is_Some (advance t (demo_at [1%nat])).
Proof.
  destruct (demo_at_run [1%nat] []) as [H1 _]; [vm_compute; reflexivity|].
  exact (proj1 (submissions_end demo_calls demo_calls_nested (demo_at [1%nat]) H1)).
Defined.
