(* ===== verification/Calls.v ===== *)
(** * Calling VE functions

    Models the part of [Context.cpp] that calls VE functions, synchronously and
    asynchronously, transfers memory synchronously, and opens and closes the
    connection, with [ThreadContextAttr]. *)

From Stdlib Require Import ZArith Lia Bool.
From stdpp Require Import base gmap list numbers sets strings.
From S2P Require Import Prelude CallArgs Command Urpc Ve Context Example Requests Progress.
From S2P Require Import AsyncTransfer.

Open Scope Z_scope.

Definition RESERVED_STACK_SIZE : Z := 512 * 1024.
Definition VE_PAGE_MASK : Z := 0xFFFFFFFFFC000000.

Definition VEO_DEFAULT_STACKSIZE : Z := 0x8000000.
Definition VEO_STACK_MIN : Z := 4 * 1024 * 1024.

(** [ThreadContextAttr]: the stack size. *)
Definition new_ThreadContextAttr : Z := VEO_DEFAULT_STACKSIZE.
Definition setStacksize (stack_sz : Z) : M Z unit := fun old =>
  if stack_sz <? VEO_STACK_MIN
  then (Throw (VEOException "invalid stack size of VEO context" EINVAL), old)
  else (Ret tt, stack_sz).

Section Calls.
Context `{U : Urpc} `{IN : Indet} `{VF : !VhFuncs} `{BO : BucketOrder} `{E : Env}.

Definition simpleCallAsync (addr : Z) (regs : list Z) (top size : Z) (copyin copyout : bool)
    (stack stack_ : Z) (copyout_func : option (list Arg.out_copy)) : M world Z :=
  let! alive := gets is_alive in
  if (addr =? 0) || negb alive then ret VEO_REQUEST_ID_INVALID
  else
    let! id := issueRequestID in
    let! rc := push_request (CommandImpl_ve id
                 (C_call regs top size copyin copyout stack addr copyout_func stack_)) in
    if negb (rc =? 0) then ret VEO_REQUEST_ID_INVALID
    else progress ;;; notifyAll ;;; ret id.

(** The part of the frame that does not fit into the message: its VE address,
    its address in the VH buffer, its size. *)
Definition extra_part (max_args_size reg_args_sz top stack size : Z) : Z * Z * Z :=
  (u64 (top + max_args_size - reg_args_sz), u64 (stack + max_args_size - reg_args_sz),
   u64 (size - max_args_size + reg_args_sz)).

Definition small_call (max_args_size reg_args_sz : Z) (args : CallArgs) : bool :=
  negb (copied_in args || copied_out args) ||
  (stack_size args <=? u64 (max_args_size - reg_args_sz)).

Definition reg_args_size (args : CallArgs) : Z :=
  let n := numArgs args in
  u64 ((if NUM_ARGS_ON_REGISTER <? n then NUM_ARGS_ON_REGISTER else n) * 8).

(** The request ID, and the arguments with their buffer given away. *)
Definition doCallAsync (n : nat) (addr : Z) (args : CallArgs) : M world (Z * CallArgs) :=
  if addr =? 0 then ret (VEO_REQUEST_ID_INVALID, args)
  else
    let! sp := gets (fun w => ve_sp (ctx w)) in
    if negb (Z.land sp VE_PAGE_MASK =? Z.land (stack_top args) VE_PAGE_MASK)
    then ret (VEO_REQUEST_ID_INVALID, args)
    else
      let reg_args_sz := reg_args_size args in
      let! regs := lift (getRegVal args) in
      let stack := stack_buf args in
      let args' := set_stack_buf 0 args in
      let! fs := lift (CallArgs.copyout args') in
      let! p := gets the_peer in
      let max_args_size := urpc_max_send_cmd_size p - SEND_CALL_CMD_SIZE_WITHOUT_DATA in
      if small_call max_args_size reg_args_sz args then
        let! id := simpleCallAsync addr regs (stack_top args) (stack_size args) (copied_in args)
                     (copied_out args) stack 0 (Some fs) in
        ret (id, args')
      else
        let '(extra_stk, extra_buf, extra_size) :=
          extra_part max_args_size reg_args_sz (stack_top args) stack (stack_size args) in
        let! writereq := (if copied_in args then asyncWriteMem n extra_stk extra_buf extra_size
                          else ret VEO_REQUEST_ID_INVALID) in
        let! callreq := simpleCallAsync addr regs (stack_top args) (stack_size args)
                          (copied_in args) (copied_out args) stack stack None in
        let! readreq := (if copied_out args then asyncReadMem n extra_buf extra_stk extra_size
                         else ret VEO_REQUEST_ID_INVALID) in
        let! id := issueRequestID in
        let! rc := push_request (CommandImpl_vh id
                     (C_largecall writereq callreq readreq stack (copied_out args) (Some fs))) in
        if negb (rc =? 0) then ret (VEO_REQUEST_ID_INVALID, args')
        else progress ;;; notifyAll ;;; ret (id, args').

(** [args.setup(this->ve_sp - RESERVED_STACK_SIZE)] *)
Definition setup_args (args : CallArgs) : M world CallArgs :=
  let! sp := gets (fun w => ve_sp (ctx w)) in
  on_vh (setup (u64 (sp - RESERVED_STACK_SIZE)) args).

Definition callAsync (n : nat) (addr : Z) (args : CallArgs) : M world (Z * CallArgs) :=
  let! alive := gets is_alive in
  if (addr =? 0) || negb alive then ret (VEO_REQUEST_ID_INVALID, args)
  else
    let! args := setup_args args in
    doCallAsync n addr args.

(** Return code, what is written to [*result], the arguments. *)
Definition callSync (n : nat) (addr : Z) (args : CallArgs) : M world (Z * option Z * CallArgs) :=
  let! alive := gets is_alive in
  if negb alive then ret (-1, None, args)
  else
    let! args := setup_args args in
    let! '(req, args) := doCallAsync n addr args in
    if req =? VEO_REQUEST_ID_INVALID then ret (-1, None, args)
    else
      let! '(rv, result) := callWaitResult n req in
      if negb (rv =? VEO_COMMAND_OK) then ret (-1, result, args) else ret (rv, result, args).

Definition readMem (n : nat) (dst src size : Z) : M world Z :=
  let! req := asyncReadMem n dst src size in
  if req =? VEO_REQUEST_ID_INVALID then ret (-1)
  else
    let! '(rv, _) := callWaitResult n req in
    if negb (rv =? VEO_COMMAND_OK) then ret (-1) else ret rv.

Definition writeMem (n : nat) (dst src size : Z) : M world Z :=
  let! req := asyncWriteMem n dst src size in
  if req =? VEO_REQUEST_ID_INVALID then ret (-1)
  else
    let! '(rv, _) := callWaitResult n req in
    if negb (rv =? VEO_COMMAND_OK) then ret (-1) else ret rv.

(** The value stored to [*sp], which is [sp0] before. *)
Definition getStackPointer (sp0 : Z) : M world Z :=
  let! req := generic_send URPC_CMD_CALL "LP" [VL 0; VP []] in
  if req <? 0 then throw (VEOException "Failed to get the VE SP." indet)
  else fun w =>
    match urpc_recv_req_timeout (the_peer w) req (15 * REPLY_TIMEOUT) with
    | (None, p) => (Throw (VEOException "Failed to get the VE SP." indet), set_up p w)
    | (Some m, p) =>
        (let! '(_, sp) := on_vh (unpack_call_result m None sp0 0) in
         modify (fun w => set_up (urpc_slot_done (the_peer w) req) w) ;;;
         ret sp) (set_up p w)
    end.

(** [vh_urpc_peer_destroy] and [vh_urpc_child_destroy] belong to ve-urpc; the
    first one's return code is [destroy_rc]. *)
Definition close (n : nat) (destroy_rc : Z) : M world Z :=
  progressTerminate n ;;;
  let! alive := gets is_alive in
  if negb alive then ret 0
  else
    modify (set_state VEO_STATE_EXIT) ;;;
    let! req := generic_send URPC_CMD_EXIT "" [] in
    if req <? 0 then ret (-1)
    else fun w =>
      let '(_, p) := wait_req_ack (the_peer w) req in (Ret destroy_rc, set_up p w).
End Calls.

(** ** The calls keep the invariant *)

Section CallsSim.
Context `{U : Urpc} `{L : !UrpcLaws U} `{IN : Indet} `{VF : !VhFuncs} `{VH : !VhLocal VF} `{BO : BucketOrder} `{E : Env}.

Lemma sim_chainable {A} (m : M world A) P Q d :
  sim P m Q -> sim (fun v => P v /\ chainable d v) m (fun a v => Q a v /\ chainable d v).
Proof.
  intros Hm. destruct (decide (d = VEO_REQUEST_ID_INVALID)) as [->|Hd].
  - eapply sim_conseq; [exact Hm|by intros v []|]. intros a v Hq. split; [done|by left].
  - eapply sim_conseq; [apply (sim_dep _ _ _ d Hm)| |].
    + by intros v [Hp [->|]].
    + intros a v [Hq Hv]. split; [done|by right].
Qed.

Lemma sim_lift {A} (o : outcome A) P : sim P (lift o) (fun _ => P).
Proof. by apply sim_frame. Qed.

Lemma sim_alive_or {A} (b : bool) (m1 m2 : M world A) P Q :
  sim P m1 Q -> sim (fun v => P v /\ v_exit v = false) m2 Q ->
  sim P (let! alive := gets is_alive in if b || negb alive then m1 else m2) Q.
Proof.
  intros H1 H2. destruct b; cbn [orb]; [|by apply sim_alive].
  eapply sim_bind; [apply sim_gets|]. intros a. exact H1.
Qed.

Lemma simpleCallAsync_sim addr regs top size ci co stack stack_ cf :
  sim (fun _ => True) (simpleCallAsync addr regs top size ci co stack stack_ cf) chainable.
Proof.
  unfold simpleCallAsync. apply sim_alive_or; [apply sim_ret; by left|].
  apply (new_request_sim false (fun id => CommandImpl_ve id
           (C_call regs top size ci co stack addr cf stack_))); try done.
  - intros v id x _ Hx. by apply not_elem_of_nil in Hx.
  - intros v [_ Hv]. by left.
  - intros id. cbn [Z.eqb negb].
    eapply sim_conseq with (P' := fun v => True /\ dep_ok [] id v)
      (Q' := fun r v => r = id /\ dep_ok [] id v).
    + eapply sim_bind; [apply (sim_dep _ _ any id progress_sim)|]. intros [].
      eapply sim_bind; [apply notifyAll_sim|]. intros []. apply sim_ret. by intros v [_ Hv].
    + intros v Hv. split; [done|]. by apply Hv.
    + intros r v [-> Hv]. by right.
Qed.

Lemma sim_opt {A} (b : bool) (m : M world A) (x : A) P (Q : A -> view -> Prop) :
  sim P m Q -> (forall v, Q x v) -> sim P (if b then m else ret x) Q.
Proof. intros Hm Hx. destruct b; [done|]. apply sim_ret. auto. Qed.

Lemma doCallAsync_sim n addr args : sim (fun _ => True) (doCallAsync n addr args) any.
Proof.
  unfold doCallAsync. destruct (addr =? 0); [by apply sim_ret|].
  eapply sim_bind; [apply sim_gets|]. intros sp. destruct (negb _); [by apply sim_ret|].
  eapply sim_bind; [apply sim_lift|]. intros regs.
  eapply sim_bind; [apply sim_lift|]. intros fs.
  eapply sim_bind; [apply sim_gets|]. intros p. cbv zeta.
  destruct (small_call _ _ _).
  { eapply sim_bind; [apply simpleCallAsync_sim|]. intros id. by apply sim_ret. }
  destruct (extra_part _ _ _ _ _) as [[es eb] ez].
  eapply sim_bind; [apply sim_opt; [apply asyncWriteMem_sim|by left]|]. intros wr.
  eapply sim_conseq with (P' := fun v => True /\ chainable wr v) (Q' := any); [|by split|done].
  eapply sim_bind; [apply sim_chainable, simpleCallAsync_sim|]. intros cr.
  eapply sim_conseq with (P' := fun v => (True /\ chainable cr v) /\ chainable wr v) (Q' := any);
    [|by intros v []|done].
  eapply sim_bind.
  { apply sim_chainable, sim_chainable. apply sim_opt; [apply asyncReadMem_sim|by left]. }
  intros rr.
  apply (new_request_sim false (fun id => CommandImpl_vh id
           (C_largecall wr cr rr (stack_buf args) (copied_out args) (Some fs)))); try done.
  - intros v id d [[Hr Hc] Hw] [Hd Hin]%list_elem_of_filter.
    apply list_elem_of_In in Hin as [<-|[<-|[<-|[]]]].
    + by destruct Hw.
    + by destruct Hc.
    + by destruct Hr.
  - intros v _. by right.
  - intros id. apply (sim_weak _ _ any).
    apply sim_then; [apply progress_sim|]. apply sim_then; [apply notifyAll_sim|].
    by apply sim_ret.
Qed.

Lemma setup_args_sim args : sim (fun _ => True) (setup_args args) any.
Proof.
  unfold setup_args. eapply sim_bind; [apply sim_gets|]. intros sp.
  eapply sim_conseq; [apply (sim_frame _ (fun _ => True))|done|done].
  intros w. unfold on_vh, on. by destruct (setup _ _ _).
Qed.

Lemma callAsync_sim n addr args : sim (fun _ => True) (callAsync n addr args) any.
Proof.
  unfold callAsync. eapply sim_bind; [apply sim_gets|]. intros alive.
  destruct (_ || _); [by apply sim_ret|].
  eapply sim_bind; [apply setup_args_sim|]. intros a. apply doCallAsync_sim.
Qed.

Lemma callSync_sim n addr args : sim (fun _ => True) (callSync n addr args) any.
Proof.
  unfold callSync. eapply sim_bind; [apply sim_gets|]. intros alive.
  destruct (negb alive); [by apply sim_ret|].
  eapply sim_bind; [apply setup_args_sim|]. intros a.
  eapply sim_bind; [apply doCallAsync_sim|]. intros [req a'].
  destruct (_ =? _); [by apply sim_ret|].
  eapply sim_bind; [apply callWaitResult_sim|]. intros [rv res].
  destruct (negb _); by apply sim_ret.
Qed.

Lemma readMem_sim n dst src size : sim (fun _ => True) (readMem n dst src size) any.
Proof.
  unfold readMem. eapply sim_bind; [apply asyncReadMem_sim|]. intros req.
  apply (sim_weak _ _ any). destruct (_ =? _); [by apply sim_ret|].
  eapply sim_bind; [apply callWaitResult_sim|]. intros [rv res].
  destruct (negb _); by apply sim_ret.
Qed.

Lemma writeMem_sim n dst src size : sim (fun _ => True) (writeMem n dst src size) any.
Proof.
  unfold writeMem. eapply sim_bind; [apply asyncWriteMem_sim|]. intros req.
  apply (sim_weak _ _ any). destruct (_ =? _); [by apply sim_ret|].
  eapply sim_bind; [apply callWaitResult_sim|]. intros [rv res].
  destruct (negb _); by apply sim_ret.
Qed.
End CallsSim.

(** ** Properties *)

Section CallProperties.
Context `{U : Urpc} `{IN : Indet} `{VF : !VhFuncs} `{BO : BucketOrder} `{E : Env}.

(** C20: a frame too large for a message is sent completely.  When the arguments do
  not fit into one message, the message carries the part of the frame that does
  fit, the extra transfer starts exactly where the message ends, on the VE stack
  as in the VH buffer, and the two parts together are the whole frame. *)
Theorem large_call_frame_complete (p : peer) m sp addr regs (args : CallArgs) :
  let room := urpc_max_send_cmd_size p - SEND_CALL_CMD_SIZE_WITHOUT_DATA - reg_args_size args in
  small_call (urpc_max_send_cmd_size p - SEND_CALL_CMD_SIZE_WITHOUT_DATA) (reg_args_size args) args = false ->
  copied_in args = true -> reg_args_size args = Z.of_nat (length regs) * 8 ->
  0 <= room < 2 ^ 64 -> 0 <= stack_size args ->
  0 <= stack_top args -> stack_top args + stack_size args < 2 ^ 64 ->
  0 <= stack_buf args -> stack_buf args + stack_size args < 2 ^ 64 ->
  exists cmd extra_stk extra_buf extra_size,
    extra_part (urpc_max_send_cmd_size p - SEND_CALL_CMD_SIZE_WITHOUT_DATA) (reg_args_size args)
      (stack_top args) (stack_buf args) (stack_size args) = (extra_stk, extra_buf, extra_size) /\
    send_call_nolock p m sp addr regs (stack_top args) (stack_size args) (copied_in args)
      (copied_out args) (stack_buf args) =
    urpc_generic_send p cmd "LPLLP" [VL addr; VP (regs_bytes regs); VL (stack_top args); VL sp;
      VP (mem_read m (stack_buf args) (Z.to_nat room))] /\
    extra_stk = stack_top args + room /\ 0 < extra_size /\
    mem_read m (stack_buf args) (Z.to_nat room) ++ mem_read m extra_buf (Z.to_nat extra_size) =
    mem_read m (stack_buf args) (Z.to_nat (stack_size args)).
Proof.
  intros room Hsm Hci Hreg Hroom Hsz Ht0 Ht Hb0 Hb.
  set (mx := urpc_max_send_cmd_size p - SEND_CALL_CMD_SIZE_WITHOUT_DATA) in *.
  unfold small_call in Hsm. rewrite Hci in *. cbn [orb negb] in Hsm.
  apply Z.leb_gt in Hsm. fold room in Hsm. rewrite u64_small in Hsm by done.
  assert (Hsend : exists cmd, send_call_nolock p m sp addr regs (stack_top args) (stack_size args) true
      (copied_out args) (stack_buf args) =
    urpc_generic_send p cmd "LPLLP" [VL addr; VP (regs_bytes regs); VL (stack_top args); VL sp;
      VP (mem_read m (stack_buf args) (Z.to_nat room))]).
  { unfold send_call_nolock. cbv zeta. fold mx.
    assert (Hr : u64 (mx - u64 (Z.of_nat (length regs) * 8)) = room).
    { rewrite u64_sub_r, <- Hreg. by apply u64_small. }
    rewrite Hr. destruct (Z.ltb_spec room (stack_size args)); [|lia].
    destruct (copied_out args); cbn [orb andb negb]; eauto. }
  destruct Hsend as [cmd Hsend]. eexists cmd, _, _, _. split; [reflexivity|].
  split; [exact Hsend|].
  replace (stack_top args + mx - reg_args_size args) with (stack_top args + room) by (unfold room; lia).
  replace (stack_buf args + mx - reg_args_size args) with (stack_buf args + room) by (unfold room; lia).
  replace (stack_size args - mx + reg_args_size args) with (stack_size args - room) by (unfold room; lia).
  rewrite !u64_small by lia. split_and!; [done|lia|].
  rewrite <- (Z2Nat.id room) at 2 by lia. rewrite <- mem_read_app. f_equal. lia.
Qed.

(** A call that cannot be made is refused without a trace.  [callAsync] on a
  null function address or a context that is not alive returns the invalid ID
  and changes nothing; [doCallAsync] also refuses a frame that would reach into
  another 64 MB page than the stack pointer, and submits nothing. *)
Theorem call_refused n addr args w :
  (addr = 0 \/ is_alive w = false ->
   callAsync n addr args w = (Ret (VEO_REQUEST_ID_INVALID, args), w)) /\
  (is_alive w = false -> callSync n addr args w = (Ret (-1, None, args), w)) /\
  (Z.land (ve_sp (ctx w)) VE_PAGE_MASK <> Z.land (stack_top args) VE_PAGE_MASK ->
   doCallAsync n addr args w = (Ret (VEO_REQUEST_ID_INVALID, args), w)).
Proof.
  split_and!.
  - intros Hr. unfold callAsync. rewrite (bind_Ret _ _ w (is_alive w) w) by done.
    destruct Hr as [->| ->]; [done|]. by rewrite orb_true_r.
  - intros Ha. unfold callSync. rewrite (bind_Ret _ _ w (is_alive w) w) by done. by rewrite Ha.
  - intros Hp. unfold doCallAsync. destruct (addr =? 0); [done|].
    rewrite (bind_Ret _ _ w (ve_sp (ctx w)) w) by done.
    destruct (Z.eqb_spec (Z.land (ve_sp (ctx w)) VE_PAGE_MASK) (Z.land (stack_top args) VE_PAGE_MASK));
      done.
Qed.
End CallProperties.

Definition demo_large_args : CallArgs :=
  mkCallArgs (Some <$> [ArgType T_i64 1; ArgOnStack 8192 9000000 true false 0])
    (2 ^ 40 - 10000000) 9000208 16384 true false.

Lemma large_call_frame_complete_witness :
  exists cmd extra_stk extra_buf extra_size,
    extra_part (8 * 1024 * 1024 - SEND_CALL_CMD_SIZE_WITHOUT_DATA) (reg_args_size demo_large_args)
      (stack_top demo_large_args) (stack_buf demo_large_args) (stack_size demo_large_args)
      = (extra_stk, extra_buf, extra_size) /\
    @send_call_nolock demo_urpc demo_peer (fun x => x mod 256) (2 ^ 40) 512 [1; 2]
      (stack_top demo_large_args) (stack_size demo_large_args) (copied_in demo_large_args)
      (copied_out demo_large_args) (stack_buf demo_large_args) =
    @urpc_generic_send demo_urpc demo_peer cmd "LPLLP"
      [VL 512; VP (regs_bytes [1; 2]); VL (stack_top demo_large_args); VL (2 ^ 40);
       VP (mem_read (fun x => x mod 256) (stack_buf demo_large_args) (Z.to_nat 8388552))] /\
    extra_stk = stack_top demo_large_args + 8388552 /\ 0 < extra_size /\
    mem_read (fun x => x mod 256) (stack_buf demo_large_args) (Z.to_nat 8388552) ++
      mem_read (fun x => x mod 256) extra_buf (Z.to_nat extra_size) =
    mem_read (fun x => x mod 256) (stack_buf demo_large_args) (Z.to_nat (stack_size demo_large_args)).
Proof.
  apply (@large_call_frame_complete demo_urpc demo_peer (fun x => x mod 256) (2 ^ 40) 512 [1; 2]
           demo_large_args); try split; vm_compute; reflexivity || discriminate.
Defined.

Lemma call_refused_witness :
  let w := set_state VEO_STATE_EXIT demo_world in
  @callAsync demo_urpc demo_indet demo_vh list_order demo_env 5 512 new_CallArgs w
    = (Ret (VEO_REQUEST_ID_INVALID, new_CallArgs), w) /\
  @callSync demo_urpc demo_indet demo_vh list_order demo_env 5 512 new_CallArgs w
    = (Ret (-1, None, new_CallArgs), w) /\
  @doCallAsync demo_urpc demo_indet demo_vh list_order demo_env 5 512 new_CallArgs w
    = (Ret (VEO_REQUEST_ID_INVALID, new_CallArgs), w).
Proof.
  intros w.
  destruct (@call_refused demo_urpc demo_indet demo_vh list_order demo_env 5 512 new_CallArgs w)
    as (H1 & H2 & H3).
  split_and!.
  - apply H1. right. reflexivity.
  - apply H2. reflexivity.
  - apply H3. vm_compute. discriminate.
Defined.
