(* ===== verification/Lifecycle.v ===== *)
(** * Runs of a context

    A run is a sequence of operations of any number of threads, the progress
    thread's turns among them.  The theorems here say what every run of a new
    context guarantees. *)

From Stdlib Require Import ZArith Lia Bool Sorted.
From stdpp Require Import base gmap list numbers sets strings.
From S2P Require Import Prelude CallArgs Command Urpc Ve Context Example Requests Progress AsyncTransfer Calls.

Open Scope Z_scope.

(** ** Traces of the specification *)

Definition submitted_ids (tr : list event) : list Z :=
  omap (fun e => match e with Submit id => Some id | _ => None end) tr.
Definition finished_ids (tr : list event) : list Z :=
  omap (fun e => match e with Finish id _ _ => Some id | _ => None end) tr.
Definition dropped_ids (tr : list event) : list Z :=
  omap (fun e => match e with Drop id => Some id | _ => None end) tr.
Definition collected_ids (tr : list event) : list Z :=
  omap (fun e => match e with Collect id _ _ => Some id | _ => None end) tr.

(** The requests that ended in their turn: all but those that failed. *)
Definition in_turn (tr : list event) : list Z :=
  omap (fun e => match e with
                 | Drop id => Some id
                 | Finish id s _ => if s =? VEO_COMMAND_ERROR then None else Some id
                 | _ => None
                 end) tr.

Definition done_ids (D : gmap Z (Z * Z)) : list Z := (fun kv => fst kv) <$> map_to_list D.

Record history (a : aspec) (tr : list event) : Prop := {
  hi_next : 0 <= a_next a;
  hi_submitted : submitted_ids tr = seqZ 0 (a_next a);
  hi_ended : a_pending a ++ finished_ids tr ++ dropped_ids tr ≡ₚ submitted_ids tr;
  hi_collected : done_ids (a_done a) ++ collected_ids tr ≡ₚ finished_ids tr;
  hi_pending : StronglySorted Z.lt (a_pending a);
  hi_fifo : StronglySorted Z.lt (in_turn tr);
  hi_turn : forall x y, x ∈ in_turn tr -> y ∈ a_pending a -> x < y;
  hi_old : forall x, x ∈ in_turn tr \/ x ∈ a_pending a -> x < a_next a;
  hi_done : forall id s v, a_done a !! id = Some (s, v) -> Finish id s v ∈ tr;
  hi_results : forall id s v, Collect id s v ∈ tr -> Finish id s v ∈ tr;
}.

Lemma done_ids_insert D id x : D !! id = None -> done_ids (<[id := x]> D) ≡ₚ id :: done_ids D.
Proof. intros E. unfold done_ids. by rewrite map_to_list_insert. Qed.

Lemma done_ids_delete D id x : D !! id = Some x -> done_ids D ≡ₚ id :: done_ids (delete id D).
Proof.
  intros E. rewrite <- (insert_delete_id D id x E) at 1. apply done_ids_insert, lookup_delete_eq.
Qed.

Lemma elem_of_done_ids D id : id ∈ done_ids D <-> is_Some (D !! id).
Proof.
  unfold done_ids. rewrite list_elem_of_fmap. split.
  - intros ([k x] & -> & H%elem_of_map_to_list). eauto.
  - intros [x Hx]. exists (id, x). by rewrite elem_of_map_to_list.
Qed.

Lemma sorted_snoc l x :
  StronglySorted Z.lt l -> (forall y, y ∈ l -> y < x) -> StronglySorted Z.lt (l ++ [x]).
Proof.
  induction 1 as [|y l Hs IH Hy]; intros Hx; cbn [app].
  - constructor; constructor.
  - constructor; [apply IH; intros z Hz; apply Hx, elem_of_cons; by right|].
    apply Forall_app. split; [done|]. constructor; [|constructor]. apply Hx, elem_of_cons. by left.
Qed.

Lemma sorted_remove l1 x l2 :
  StronglySorted Z.lt (l1 ++ x :: l2) -> StronglySorted Z.lt (l1 ++ l2).
Proof.
  induction l1 as [|y l1 IH]; cbn [app]; intros Hs; apply StronglySorted_inv in Hs as [H1 H2]; [done|].
  constructor; [by apply IH|]. rewrite Forall_app, Forall_cons_iff in H2. apply Forall_app. tauto.
Qed.

(** A pending request has no result yet. *)
Lemma history_fresh a tr id :
  history a tr -> id ∈ a_pending a -> a_done a !! id = None.
Proof.
  intros Hh Hid. destruct (a_done a !! id) as [x|] eqn:E; [|done]. exfalso.
  assert (Hnd : NoDup (a_pending a ++ finished_ids tr ++ dropped_ids tr)).
  { rewrite (hi_ended _ _ Hh), (hi_submitted _ _ Hh). apply NoDup_seqZ. }
  apply NoDup_app in Hnd as (_ & Hdis & _). apply (Hdis id Hid). apply elem_of_app. left.
  rewrite <- (hi_collected _ _ Hh). apply elem_of_app. left. apply elem_of_done_ids. eauto.
Qed.

Ltac trace_simpl :=
  unfold submitted_ids, finished_ids, dropped_ids, collected_ids, in_turn in *;
  rewrite ?omap_app; cbn [omap list_omap a_pending a_done a_next] in *; rewrite ?app_nil_r.

(** Ending a pending request: the part common to finishing and failing. *)
Lemma history_finish P1 P2 D n tr id s v :
  history (mkASpec (P1 ++ id :: P2) D n) tr ->
  (s = VEO_COMMAND_ERROR \/ P1 = []) ->
  history (mkASpec (P1 ++ P2) (<[id := (s, v)]> D) n) (tr ++ [Finish id s v]).
Proof.
  intros Hh Hs.
  assert (Hin : id ∈ P1 ++ id :: P2) by (apply elem_of_app; right; apply elem_of_cons; by left).
  pose proof (history_fresh _ _ id Hh Hin) as Hfree. cbn [a_done] in Hfree.
  assert (Hsub : forall y, y ∈ P1 ++ P2 -> y ∈ P1 ++ id :: P2).
  { intros y. rewrite !elem_of_app, elem_of_cons. tauto. }
  assert (Hfirst : P1 = [] -> forall y, y ∈ P1 ++ P2 -> id < y).
  { intros -> y Hy. pose proof (hi_pending _ _ Hh) as Ho. cbn in Ho, Hy.
    apply StronglySorted_inv in Ho as [_ Ho]. rewrite Forall_forall in Ho. auto. }
  destruct Hh as [H1 H2 H3 H4 H5 H6 H7 H8 H9 H10]. cbn [a_pending a_done a_next] in *.
  assert (Hturn : in_turn (tr ++ [Finish id s v]) =
                  in_turn tr ++ (if s =? VEO_COMMAND_ERROR then [] else [id])).
  { unfold in_turn. rewrite omap_app. cbn. by destruct (s =? VEO_COMMAND_ERROR). }
  split; rewrite ?Hturn; trace_simpl; try done.
  - rewrite <- H3. rewrite <- !app_assoc. cbn [app]. by rewrite <- !Permutation_middle.
  - rewrite done_ids_insert by done. rewrite <- H4. cbn [app].
    apply Permutation_cons_append.
  - by eapply sorted_remove.
  - destruct (Z.eqb_spec s VEO_COMMAND_ERROR) as [E|E]; [by rewrite app_nil_r|].
    apply sorted_snoc; [done|]. intros y Hy. by apply H7.
  - intros x y Hx Hy. apply elem_of_app in Hx as [Hx|Hx]; [by apply H7; [|apply Hsub]|].
    destruct (Z.eqb_spec s VEO_COMMAND_ERROR) as [E|E]; [by apply not_elem_of_nil in Hx|].
    apply list_elem_of_singleton in Hx as ->. destruct Hs as [|Hs]; [done|]. by apply Hfirst.
  - intros x [Hx|Hx]; [|apply H8; right; by apply Hsub].
    apply elem_of_app in Hx as [Hx|Hx]; [by apply H8; left|].
    destruct (Z.eqb_spec s VEO_COMMAND_ERROR) as [E|E]; [by apply not_elem_of_nil in Hx|].
    apply list_elem_of_singleton in Hx as ->. apply H8. by right.
  - intros k t u [[<- [= <- <-]]|[_ Hk]]%lookup_insert_Some; apply elem_of_app.
    + right. by apply list_elem_of_singleton.
    + left. by apply H9.
  - intros k t u [Hk|Hk%list_elem_of_singleton]%elem_of_app; [|done]. apply elem_of_app. left. auto.
Qed.

Lemma history_step a e b tr : astep a e b -> history a tr -> history b (tr ++ [e]).
Proof.
  intros Hs Hh. destruct Hs as [P D n|P D n id s v|P1 P2 D n id v|P D n id|P D n id s v E].
  - destruct Hh as [H1 H2 H3 H4 H5 H6 H7 H8 H9 H10]. cbn [a_pending a_done a_next] in *.
    split; trace_simpl; try done.
    + lia.
    + rewrite H2, seqZ_app by lia. done.
    + rewrite <- H3, <- (app_assoc P), <- Permutation_cons_append. cbn [app].
      symmetry. apply Permutation_middle.
    + apply sorted_snoc; [done|]. intros y Hy. apply H8. by right.
    + intros x y Hx [Hy|Hy%list_elem_of_singleton]%elem_of_app; [by apply H7|].
      subst y. apply H8. by left.
    + intros x [Hx|[Hx|Hx%list_elem_of_singleton]%elem_of_app]; [| |lia].
      * enough (x < n) by lia. apply H8. by left.
      * enough (x < n) by lia. apply H8. by right.
    + intros id s v Hd. apply elem_of_app. left. by apply H9.
    + intros id s v [Hc|Hc%list_elem_of_singleton]%elem_of_app; [|done]. apply elem_of_app. left.
      by apply H10.
  - apply (history_finish [] P); [exact Hh|by right].
  - apply history_finish; [exact Hh|by left].
  - destruct Hh as [H1 H2 H3 H4 H5 H6 H7 H8 H9 H10]. cbn [a_pending a_done a_next] in *.
    apply StronglySorted_inv in H5 as [H5 H5']. rewrite Forall_forall in H5'.
    split; trace_simpl; try done.
    + rewrite <- H3. cbn [app]. rewrite !Permutation_middle. f_equiv. f_equiv.
      symmetry. apply Permutation_cons_append.
    + apply sorted_snoc; [done|]. intros y Hy. apply H7; [done|]. apply elem_of_cons. by left.
    + intros x y [Hx|Hx%list_elem_of_singleton]%elem_of_app Hy.
      * apply H7; [done|]. apply elem_of_cons. by right.
      * subst x. by apply H5'.
    + intros x [[Hx|Hx%list_elem_of_singleton]%elem_of_app|Hx]; apply H8;
        [by left|right; apply elem_of_cons; by left|right; apply elem_of_cons; by right].
    + intros k s v Hd. apply elem_of_app. left. by apply H9.
    + intros k s v [Hc|Hc%list_elem_of_singleton]%elem_of_app; [|done]. apply elem_of_app. left.
      by apply H10.
  - destruct Hh as [H1 H2 H3 H4 H5 H6 H7 H8 H9 H10]. cbn [a_pending a_done a_next] in *.
    split; trace_simpl; try done.
    + rewrite <- H4, (done_ids_delete _ _ _ E). cbn [app]. rewrite app_assoc.
      symmetry. apply Permutation_cons_append.
    + intros k t u [_ Hd]%lookup_delete_Some. apply elem_of_app. left. by apply H9.
    + intros k t u [Hc|Hc%list_elem_of_singleton]%elem_of_app; apply elem_of_app; left; [auto|].
      injection Hc as -> -> ->. by apply H9.
Qed.

Lemma history_exec a tr b : aexec a tr b -> forall past, history a past -> history b (past ++ tr).
Proof.
  induction 1 as [a|a e b tr c Hs Hx IH]; intros past Hp; [by rewrite app_nil_r|].
  change (e :: tr) with ([e] ++ tr). rewrite app_assoc. apply IH. by eapply history_step.
Qed.

Definition aspec_init : aspec := mkASpec [] ∅ 0.

Lemma history_init : history aspec_init [].
Proof.
  split; cbn; try done; try constructor.
  - intros x y Hx. by apply not_elem_of_nil in Hx.
  - intros x [Hx|Hx]; by apply not_elem_of_nil in Hx.
  - intros id s v Hc. by apply not_elem_of_nil in Hc.
Qed.

(** ** Runs *)

Section Runs.
Context `{U : Urpc} `{L : !UrpcLaws U} `{IN : Indet} `{VF : !VhFuncs} `{VH : !VhLocal VF} `{BO : BucketOrder} `{E : Env}.

(** The operations threads perform on an open context; [n] bounds the rounds
    of the loops that wait. *)
Inductive operation :=
  | Op_callAsync (n : nat) (addr : Z) (args : CallArgs)
  | Op_callSync (n : nat) (addr : Z) (args : CallArgs)
  | Op_callVHAsync (func : vh_func) (arg : Z)
  | Op_asyncReadMem (n : nat) (dst src size : Z)
  | Op_asyncWriteMem (n : nat) (dst src size : Z)
  | Op_readMem (n : nat) (dst src size : Z)
  | Op_writeMem (n : nat) (dst src size : Z)
  | Op_genericAsyncReq (urpc_cmd : Z) (fmt : string) (args : list send_arg)
  | Op_callPeekResult (reqid : Z)
  | Op_callWaitResult (n : nat) (reqid : Z)
  | Op_synchronize (n : nat)
  | Op_progress_main (n : nat).

Definition perform (o : operation) : M world unit :=
  match o with
  | Op_callAsync n addr args => callAsync n addr args ;;; ret tt
  | Op_callSync n addr args => callSync n addr args ;;; ret tt
  | Op_callVHAsync f arg => callVHAsync f arg ;;; ret tt
  | Op_asyncReadMem n dst src size => asyncReadMem n dst src size ;;; ret tt
  | Op_asyncWriteMem n dst src size => asyncWriteMem n dst src size ;;; ret tt
  | Op_readMem n dst src size => readMem n dst src size ;;; ret tt
  | Op_writeMem n dst src size => writeMem n dst src size ;;; ret tt
  | Op_genericAsyncReq cmd fmt args => genericAsyncReq cmd fmt args ;;; ret tt
  | Op_callPeekResult id => callPeekResult id ;;; ret tt
  | Op_callWaitResult n id => callWaitResult n id ;;; ret tt
  | Op_synchronize n => synchronize n
  | Op_progress_main n => progress_main n
  end.

(** A step: an operation that returns, or a change of what lies outside the
    queues: the VH memory, the schedule, the process. *)
Inductive step (w w' : world) : Prop :=
  | step_op o : perform o w = (Ret tt, w') -> step w w'
  | step_env : view_of w' = view_of w -> step w w'.

Inductive run_to (w : world) : world -> Prop :=
  | run_start : run_to w w
  | run_step w1 w2 : run_to w w1 -> step w1 w2 -> run_to w w2.

Definition initial (w : world) : Prop :=
  queue w = new_CommQueue /\ remaining w = ∅ /\ seq_no (ctx w) = 0 /\ issued w = 0 /\
  outstanding (the_peer w) = [].

Lemma perform_sim o : sim (fun _ => True) (perform o) any.
Proof.
  assert (Hr : forall A (m : M world A) Q, sim (fun _ => True) m Q ->
    sim (fun _ => True) (m ;;; ret tt) any).
  { intros A m Q Hm. eapply sim_bind; [exact Hm|]. intros a. by apply sim_ret. }
  destruct o; cbn [perform]; try eapply Hr.
  - apply callAsync_sim.
  - apply callSync_sim.
  - apply callVHAsync_sim.
  - apply asyncReadMem_sim.
  - apply asyncWriteMem_sim.
  - apply readMem_sim.
  - apply writeMem_sim.
  - apply genericAsyncReq_sim.
  - apply callPeekResult_sim.
  - apply callWaitResult_sim.
  - apply synchronize_sim.
  - apply progress_main_sim.
Qed.

Definition no_id : Z -> Prop := fun _ => False.

Lemma initial_inv w : initial w -> inv no_id [] (view_of w) /\ alpha (view_of w) = aspec_init.
Proof.
  intros (Eq & Er & Es & Ei & Eo). unfold view_of. rewrite Eq, Er, Es, Ei, Eo.
  assert (Hh : forall c, held [] new_CommQueue c -> False).
  { intros c [Hc|[Hc|[[k Hc]|[k Hc]]]]; [by apply not_elem_of_nil in Hc..|done|done]. }
  split; [|done]. split.
  - split; cbn [v_q v_rem v_seq v_issued]; try done; try lia.
    + split; cbn; try done. constructor.
    + intros id Hid. by apply not_elem_of_nil in Hid.
    + intros c Hc. by apply Hh in Hc.
    + intros c Hc. by apply Hh in Hc.
    + constructor.
    + intros c Hc. by apply Hh in Hc.
    + intros c d Hc. by apply Hh in Hc.
  - left. split; [constructor|]. intros k. cbn [v_q v_out new_CommQueue inflight].
    rewrite lookup_empty. split; [by intros []|]. intros Hk. by apply not_elem_of_nil in Hk.
Qed.

Lemma step_issued w w' : step w w' -> issued w <= issued w'.
Proof.
  intros [o Ho|Ev].
  - destruct (perform_sim o w) as [Hm _]. by rewrite Ho in Hm.
  - apply Z.eq_le_incl. symmetry. exact (f_equal v_issued Ev).
Qed.

Lemma run_evolves w w' : inv no_id [] (view_of w) -> run_to w w' -> issued w' < 2 ^ 64 ->
  evolves no_id (view_of w) (view_of w').
Proof.
  intros Hi. induction 1 as [|w1 w2 Hr IH Hs]; intros Hb; [by apply evolves_refl|].
  pose proof (step_issued _ _ Hs). specialize (IH ltac:(lia)).
  eapply evolves_trans; [exact IH|]. destruct Hs as [o Ho|Ev].
  - destruct (perform_sim o w1) as [_ Hp].
    by destruct (Hp no_id tt w2 (proj1 IH) I Ho Hb).
  - rewrite Ev. apply evolves_refl, IH.
Qed.

Lemma run_history w w' : initial w -> run_to w w' -> issued w' < 2 ^ 64 ->
  inv no_id [] (view_of w') /\ exists tr, history (alpha (view_of w')) tr.
Proof.
  intros Hi Hr Hb. destruct (initial_inv w Hi) as [Hinv Ha].
  destruct (run_evolves _ _ Hinv Hr Hb) as [Hinv' [tr Htr]]. split; [done|]. exists tr.
  rewrite Ha in Htr. apply (history_exec _ _ _ Htr [] history_init).
Qed.
(** Several operations in turn. *)
Fixpoint perform_all (l : list operation) (w : world) : world :=
  match l with
  | [] => w
  | o :: l => perform_all l (snd (perform o w))
  end.

Fixpoint all_return (l : list operation) (w : world) : bool :=
  match l with
  | [] => true
  | o :: l =>
      match fst (perform o w) with
      | Ret _ => all_return l (snd (perform o w))
      | _ => false
      end
  end.

Lemma perform_all_run l : forall w0 w, run_to w0 w -> all_return l w = true ->
  run_to w0 (perform_all l w).
Proof.
  induction l as [|o l IH]; intros w0 w Hr Ha; cbn [perform_all]; [done|].
  cbn [all_return] in Ha. destruct (perform o w) as [[[]| | | | |] w'] eqn:Eo; try done.
  apply IH; [|done]. eapply run_step; [exact Hr|]. by eapply step_op.
Qed.
End Runs.

(** ** An example run *)

Abbreviation demo_perform_all := (@perform_all demo_urpc demo_indet demo_vh list_order demo_env).
Abbreviation demo_run := (@run_to demo_urpc demo_laws demo_indet demo_vh list_order demo_env).
Abbreviation demo_view := (@view_of demo_urpc demo_laws).

(** An asynchronous write, a VH call behind it, and a peek at the write. *)
Definition demo_ops : list (@operation) :=
  [Op_asyncWriteMem 3 65536 8192 100; Op_callVHAsync (user_func 5) 2; Op_callPeekResult 0].

Lemma demo_initial : @initial demo_urpc demo_laws demo_world.
Proof. by split_and!. Qed.

Definition demo_end : @world demo_urpc := demo_perform_all demo_ops demo_world.

Lemma demo_end_run : demo_run demo_world demo_end.
Proof. apply perform_all_run; [constructor|]. vm_compute. reflexivity. Qed.

(** ** Properties *)

Section Properties.
Context `{U : Urpc} `{L : !UrpcLaws U} `{IN : Indet} `{VF : !VhFuncs} `{VH : !VhLocal VF} `{BO : BucketOrder} `{E : Env}.




(** C9: a VH command is a barrier.  When the request at the head of the queue is
  a VH command: as long as something is in flight it stays where it is and no
  request behind it is submitted; once nothing is in flight, every earlier
  request whose result has not been collected is completed; and the VH
  function's command ends with a final status, never as unfinished, even when
  it is the one that puts the parts of a large call together. *)
Theorem vh_command_barrier w w' c l :
  initial w -> run_to w w' -> issued w' < 2 ^ 64 ->
  request (queue w') = c :: l -> is_vh c = true ->
  (inflight (queue w') <> ∅ -> forall b, submit_next b w' = (Ret (Return 1), w')) /\
  (inflight (queue w') = ∅ -> forall id, id ∈ remaining w' -> id < msgid c ->
     exists d, completion (queue w') !! id = Some d) /\
  (inflight (queue w') = ∅ -> forall rv c' w2,
     run_submit c (set_comq (set_request l (queue w')) w') = (Ret (rv, c'), w2) ->
     final (status c')).
Proof.
  intros Hi Hr Hb Er Hvh. destruct (run_history _ _ Hi Hr Hb) as [Hinv _].
  assert (Hpl : inflight (queue w') = ∅ -> pipeline (view_of w') = c :: l).
  { intros Hf. unfold pipeline. rewrite flying_dead by done. exact Er. }
  split_and!.
  - intros Hf b. apply (delayed_vh c l); by try left.
  - intros Hf id Hid Hlt. destruct (rem_cases _ _ _ _ Hinv Hid) as [Hp|]; [|done].
    pose proof (order_head _ _ _ c l id Hinv (Hpl Hf) Hp). lia.
  - intros Hf rv c' w2 E2. pose proof (v_take_inv _ _ _ _ Hinv Hf Er) as Hi1.
    assert (Hcl : closure_vh (code c) = true).
    { rewrite <- (core_kind _ _ _ (proj1 Hi1)); [done|]. left. by apply list_elem_of_singleton. }
    destruct (handles_vh c Hcl no_id (set_comq (set_request l (queue w')) w') (rv, c') w2 Hi1 E2)
      as [_ [Hs [Hf'|[Hg _]]]]; [done|].
    rewrite (same_cmd_generic _ _ Hs) in Hg. unfold is_generic in Hg.
    by destruct (code c).
Qed.

(** C11: the progress function terminates.  Every round of the loop of
  [_progress_nolock] but the last one receives a reply or sends a request, so
  [2 * requests + in flight] rounds and one more are enough: any larger bound
  gives the same result, in every state and for every behaviour of ve-urpc. *)
Theorem progress_nolock_terminates execVH n (w : world) :
  (work (queue w) < n)%nat ->
  progress_loop n execVH w = _progress_nolock execVH w /\
  (forall w', progress_round execVH w = (Ret Again, w') -> (work (queue w') < work (queue w))%nat).
Proof.
  intros Hn. split; [apply progress_loop_fuel; lia|]. apply progress_round_work.
Qed.
End Properties.



(** The write is in flight, the VH command waits. *)
Definition demo_mid : @world demo_urpc :=
  demo_perform_all [Op_asyncWriteMem 3 65536 8192 100; Op_callVHAsync (user_func 5) 2] demo_world.

Lemma demo_mid_run : demo_run demo_world demo_mid.
Proof. apply perform_all_run; [constructor|]. vm_compute. reflexivity. Qed.


Definition demo_reply := @urpc_get_cmd demo_urpc (the_peer demo_mid).


Definition demo_vh_command : Command := @CommandImpl_vh demo_indet 1 (C_vh (user_func 5) 2).

Lemma vh_command_barrier_witness :
  (inflight (queue demo_mid) <> ∅ -> forall b,
     @submit_next demo_urpc demo_vh b demo_mid = (Ret (Return 1), demo_mid)) /\
  (inflight (queue demo_mid) = ∅ -> forall id, id ∈ remaining demo_mid -> id < msgid demo_vh_command ->
     exists d, completion (queue demo_mid) !! id = Some d) /\
  (inflight (queue demo_mid) = ∅ -> forall rv c' w2,
     @run_submit demo_urpc demo_vh demo_vh_command
       (set_comq (set_request [] (queue demo_mid)) demo_mid) = (Ret (rv, c'), w2) ->
     final (status c')).
Proof.
  apply (@vh_command_barrier demo_urpc demo_laws demo_indet demo_vh demo_local list_order demo_env
           demo_world demo_mid demo_vh_command [] demo_initial demo_mid_run);
    vm_compute; reflexivity.
Defined.

Lemma progress_nolock_terminates_witness :
  @progress_loop demo_urpc demo_indet demo_vh list_order 10 false demo_mid =
    @_progress_nolock demo_urpc demo_indet demo_vh list_order false demo_mid /\
  (forall w', @progress_round demo_urpc demo_indet demo_vh list_order false demo_mid = (Ret Again, w') ->
     (work (queue w') < work (queue demo_mid))%nat).
Proof.
  apply (@progress_nolock_terminates demo_urpc demo_indet demo_vh demo_local list_order false 10 demo_mid).
  apply Nat.ltb_lt. vm_compute. reflexivity.
Defined.
