(* ===== verification/Ordering.v ===== *)
(** * Requests end in the order of submission

    What the documentation promises of the synchronous functions: they wait for the
    requests submitted before.  The abstract machine of a context ends requests in turn,
    except those that fail; here that is carried over to [callWaitResult] and to the
    synchronous functions of a context. *)

From Stdlib Require Import ZArith Lia Bool Sorted.
From stdpp Require Import base gmap list numbers sets sorting strings.
From S2P Require Import Prelude CallArgs Command Urpc Context Example Requests Progress AsyncTransfer Calls Lifecycle.

Open Scope Z_scope.

(** ** The abstract machine *)

(** All requests up to [id] have ended. *)
Definition beyond (id : Z) (a : aspec) : Prop := id < a_next a /\ forall p, p ∈ a_pending a -> id < p.

(** A result that is not an error means that all requests before have ended. *)
Record in_turns (a : aspec) : Prop := {
  it_sorted : StronglySorted Z.lt (a_pending a);
  it_old : forall p, p ∈ a_pending a -> p < a_next a;
  it_done : forall id s v, a_done a !! id = Some (s, v) -> s <> VEO_COMMAND_ERROR -> beyond id a;
}.

Lemma beyond_step id a e b : astep a e b -> beyond id a -> beyond id b.
Proof.
  intros Hs [Hn Hp]. destruct Hs; split; cbn [a_next a_pending] in *; try done; try lia;
    intros p Hin; try (apply Hp; set_solver).
  apply elem_of_app in Hin as [Hin|Hin%list_elem_of_singleton]; [by apply Hp|lia].
Qed.

Lemma in_turns_done a e b id s v :
  astep a e b -> in_turns a -> a_done b !! id = Some (s, v) -> s <> VEO_COMMAND_ERROR ->
  beyond id a \/ exists P, a_pending a = id :: P /\ a_pending b = P /\ a_next b = a_next a.
Proof.
  intros Hs [_ _ Hd] Hb Hne. destruct Hs; cbn [a_pending a_done a_next] in *.
  - left. by eapply Hd.
  - apply lookup_insert_Some in Hb as [[-> _]|[_ Hb]]; [right; by eexists|left; by eapply Hd].
  - apply lookup_insert_Some in Hb as [[-> [= <- <-]]|[_ Hb]]; [done|left; by eapply Hd].
  - left. by eapply Hd.
  - apply lookup_delete_Some in Hb as [_ Hb]. left. by eapply Hd.
Qed.

Lemma in_turns_step a e b : astep a e b -> in_turns a -> in_turns b.
Proof.
  intros Hs Ha. pose proof Ha as [Hsort Hold Hd]. split.
  - destruct Hs; cbn [a_pending] in *; try done; try (by inversion Hsort).
    + apply StronglySorted_app_2; [|done|repeat constructor].
      intros x y Hx ->%list_elem_of_singleton. by apply Hold.
    + apply StronglySorted_app in Hsort as (Hlt & H1 & H2). apply StronglySorted_app_2; [|done|by inversion H2].
      intros x y Hx Hy. apply Hlt; [done|by right].
  - intros p Hp. destruct Hs; cbn [a_pending a_next] in *; try (apply Hold; set_solver).
    apply elem_of_app in Hp as [Hp|Hp%list_elem_of_singleton]; [apply Hold in Hp; lia|lia].
  - intros id s v Hb Hne. destruct (in_turns_done _ _ _ _ _ _ Hs Ha Hb Hne) as [Hby|(P & E1 & E2 & E3)].
    + by eapply beyond_step.
    + rewrite E1 in Hsort, Hold. apply StronglySorted_cons in Hsort as [Hf _]. rewrite Forall_forall in Hf.
      split; [rewrite E3; apply Hold, elem_of_cons; by left|]. rewrite E2. exact Hf.
Qed.

Lemma in_turns_exec a tr b : aexec a tr b -> in_turns a -> in_turns b.
Proof. induction 1 as [|a e b tr c Hs _ IH]; [done|]. intros Ha. by apply IH, (in_turns_step a e). Qed.

Lemma beyond_exec id a tr b : aexec a tr b -> beyond id a -> beyond id b.
Proof. induction 1 as [|a e b tr c Hs _ IH]; [done|]. intros Ha. by apply IH, (beyond_step id a e). Qed.

(** ** Waiting for a result *)

Section Waiting.
Context `{U : Urpc} `{L : !UrpcLaws U} `{IN : Indet} `{VF : !VhFuncs} `{VH : !VhLocal VF} `{BO : BucketOrder} `{E : Env}.

Definition turned (v : view) : Prop := in_turns (alpha v).

(** The result [st] of request [id] tells that the requests before have ended. *)
Definition tells (id st : Z) (v : view) : Prop := st <> VEO_COMMAND_ERROR -> beyond id (alpha v).

Lemma sim_pre {A} (m : M world A) P P' Q : (forall v, P v -> P' v) -> sim P' m Q -> sim P m Q.
Proof. intros HP Hm. by eapply sim_conseq. Qed.

Lemma sim_turned {A} (m : M world A) Q :
  sim (fun _ => True) m Q -> sim turned m (fun a v => turned v /\ Q a v).
Proof.
  intros Hm w. destruct (Hm w) as [H1 H2]. split; [done|]. intros ng a w' Hi Ht Ea Hb.
  destruct (H2 ng a w' Hi I Ea Hb) as [[I' [tr T]] Q']. split; [by split; [|exists tr]|].
  split; [by apply (in_turns_exec _ _ _ T)|done].
Qed.

Lemma done_tells id c v : turned v -> completion (v_q v) !! id = Some c -> tells id (status c) v.
Proof.
  intros Ht Hc Hs. apply (it_done _ Ht id (status c) (retval c)); [|done].
  cbn [a_done alpha]. by rewrite lookup_fmap, Hc.
Qed.

Lemma peek_turned id :
  sim turned (_peekResult id) (fun r v => turned v /\ (fst r <> VEO_COMMAND_UNFINISHED -> tells id (fst r) v)).
Proof.
  intros w. split; [apply (sim_turned _ _ (peekResult_sim id))|]. intros ng a w' Hi Ht Ea Hb.
  destruct (proj2 (sim_turned _ _ (peekResult_sim id) w) ng a w' Hi Ht Ea Hb) as [Hev [Ht' _]].
  split; [done|]. split; [done|]. intros Hu.
  destruct (_peekResult_spec _ _ id _ Hi) as (r & w1 & E1 & Hp & _). rewrite Ea in E1. injection E1 as <- <-.
  destruct Hev as [_ [tr T]]. intros Hne. eapply beyond_exec; [exact T|].
  inversion Hp as [E1 E2 E3|E1 E2 E3 E4|c Hr Hc E3 E4]; subst; [done|done|]. exact (done_tells _ _ _ Ht Hc Hne).
Qed.

Lemma poll_turned n id :
  sim turned (poll_result n id)
    (fun r v => turned v /\ match r with Some (st, _) => tells id st v | None => True end).
Proof.
  induction n as [|n IH]; cbn [poll_result]; [by apply sim_stop|].
  eapply sim_bind; [apply try_lock_sim|]. intros []; cbn [negb]; [|by apply sim_ret].
  eapply sim_bind; [apply sim_turned, progress_nolock_sim|]. intros rv.
  destruct (0 <? rv); [apply sim_ret; by intros v [? _]|].
  apply (sim_pre _ _ turned); [by intros v []|].
  eapply sim_bind; [apply peek_turned|]. intros [st x]. cbn [fst].
  destruct (Z.eqb_spec st VEO_COMMAND_UNFINISHED) as [|Hne]; cbn [negb].
  - apply (sim_pre _ _ turned); [by intros v []|exact IH].
  - apply sim_ret. intros v [Hv Ht]. split; [done|by apply Ht].
Qed.

Lemma collect_turned id : u64 id = id ->
  sim turned (let! c := on_comq (CommQueueOps.waitCompletion id) in collect id c) (fun r v => tells id (fst r) v).
Proof.
  intros Hu w. split; [apply (sim_turned _ _ (collect_sim id Hu))|]. intros ng a w' Hi Ht Ea Hb.
  destruct (proj2 (sim_turned _ _ (collect_sim id Hu) w) ng a w' Hi Ht Ea Hb) as [Hev _]. split; [done|].
  apply bind_inv_Ret in Ea as (c & w1 & E1 & E2).
  unfold on_comq, on, CommQueueOps.waitCompletion, BlockingMap.wait, BlockingMap.tryFindNoWait in E1.
  rewrite Hu in E1. destruct (completion (queue w) !! id) as [d|] eqn:Ed; [|done]. injection E1 as -> <-.
  destruct Hev as [_ [tr T]]. unfold collect in E2.
  apply bind_inv_Ret in E2 as (rem & w1 & [= <- <-] & E2).
  destruct (bool_decide _); injection E2 as <- _; cbn [fst]; [|by intros []].
  intros Hne. eapply beyond_exec; [exact T|]. by apply (done_tells id c (view_of w) Ht Ed).
Qed.

Lemma wait_collect_turned n id : u64 id = id ->
  sim turned (let! c := waitCompletion n id in collect id c) (fun r v => tells id (fst r) v).
Proof.
  intros Hu. pose proof (collect_turned id Hu) as Hc.
  assert (Hm : sim turned (progress_main n ;;; let! c := on_comq (CommQueueOps.waitCompletion id) in collect id c)
                 (fun r v => tells id (fst r) v)).
  { eapply sim_bind; [apply sim_turned, progress_main_sim|]. intros u. apply (sim_pre _ _ turned); [by intros v []|exact Hc]. }
  intros w. rewrite waitCompletion_unfold.
  destruct (on_comq (CommQueueOps.waitCompletion id) w) as [[] ?]; apply Hc || apply Hm.
Qed.

Lemma wait_turned n id : sim turned (callWaitResult n id) (fun r v => tells id (fst r) v).
Proof.
  unfold callWaitResult. eapply sim_bind; [apply poll_turned|].
  intros [[st x]|]; [apply sim_ret; by intros v [_ ?]|].
  apply (sim_pre _ _ turned); [by intros v []|].
  eapply sim_bind; [apply notifyAll_sim|]. intros u.
  intros w. rewrite (bind_Ret _ _ w (remaining w) w) by done.
  destruct (bool_decide (id ∈ remaining w)) eqn:Hr; cbn [negb].
  2:{ refine (sim_ret (VEO_COMMAND_ERROR, None) turned (fun r v => tells id (fst r) v) _ w). by intros v _ []. }
  apply bool_decide_eq_true in Hr. destruct (decide (u64 id = id)) as [Hu|Hu].
  - exact (wait_collect_turned n id Hu w).
  - split.
    + apply Z.eq_le_incl. symmetry. exact (steady_issued _ w (steady_wait_collect n id)).
    + intros ng a w' Hi. exfalso. apply Hu. eapply inv_rem_u64; [exact Hi|exact Hr].
Qed.

(** ** New requests have new numbers *)

(** At least [k] numbers have been issued; [a] is one of those from [k] on. *)
Definition numbered (k : Z) (w : world) : Prop := seq_no (ctx w) = u64 (issued w) /\ k <= issued w.
Definition fresh (k a : Z) (w : world) : Prop :=
  a = VEO_REQUEST_ID_INVALID \/ exists i, k <= i < issued w /\ a = u64 i.

(** [m] yields the ID of a new request, or the invalid one. *)
Definition issues {A} (id : A -> Z) (m : M world A) : Prop :=
  forall k, hoare (numbered k) m (fun a w => numbered k w /\ fresh k (id a) w) (fun _ => True).

Lemma steady_numbered {A} (m : M world A) k : steady m ->
  hoare (numbered k) m (fun _ => numbered k) (fun _ => True).
Proof.
  intros Hm w Hw. pose proof (steady_counters m w Hm) as Hc. injection Hc as H1 H2.
  destruct (m w) as [[] w']; try done. cbn [snd] in H1, H2. unfold numbered in *. by rewrite H1, H2.
Qed.

Lemma steady_fresh {A} (m : M world A) k a : steady m ->
  hoare (fun w => numbered k w /\ fresh k a w) m (fun _ w => numbered k w /\ fresh k a w) (fun _ => True).
Proof.
  intros Hm w [Hw Hf]. pose proof (steady_numbered m k Hm w Hw) as Hn.
  pose proof (steady_issued m w Hm) as Hi. destruct (m w) as [[] w']; try done. split; [done|].
  unfold fresh in *. cbn [snd] in Hi. by rewrite Hi.
Qed.

Lemma issues_ret {A} (id : A -> Z) a : id a = VEO_REQUEST_ID_INVALID -> issues id (ret a).
Proof. intros Ha k. apply hoare_ret. intros w Hw. split; [done|by left]. Qed.

Lemma issues_steady {A B} (id : B -> Z) (m : M world A) (k : A -> M world B) :
  steady m -> (forall a, issues id (k a)) -> issues id (bind m k).
Proof. intros Hm Hk x. eapply hoare_bind; [by apply steady_numbered|]. intros a. apply Hk. Qed.

Lemma fetch_numbered k : hoare (numbered k) fetch_add_seq_no (fun a w => numbered k w /\ fresh k a w) (fun _ => True).
Proof.
  intros w [Hs Hk]. unfold fetch_add_seq_no. split; [split|].
  - cbn [ctx seq_no issued]. rewrite Hs. unfold u64. by rewrite Zplus_mod_idemp_l.
  - cbn [issued]. lia.
  - right. exists (issued w). cbn [issued]. split; [lia|done].
Qed.

(** A request is issued, and what follows returns its ID or the invalid one. *)
Lemma issues_new {A} (id : A -> Z) (k : Z -> M world A) :
  (forall r, steady (k r)) -> (forall r w a w', k r w = (Ret a, w') -> id a = r \/ id a = VEO_REQUEST_ID_INVALID) ->
  issues id (bind issueRequestID k).
Proof.
  intros Hst Hr x. apply hoare_bind with (R := fun a w => numbered x w /\ fresh x a w).
  - unfold issueRequestID. eapply hoare_bind; [apply fetch_numbered|]. intros r. cbn beta.
    eapply hoare_bind with (R := fun a w => numbered x w /\ fresh x a w).
    + destruct (r =? _); [|by apply hoare_ret]. eapply hoare_pre; [apply fetch_numbered|]. by intros w [].
    + intros r'. eapply hoare_bind; [apply (steady_fresh _ _ r'), steady_modify; reflexivity|]. intros u. by apply hoare_ret.
  - intros r w Hw. pose proof (steady_fresh (k r) x r (Hst r) w Hw) as Hk. specialize (Hr r w).
    destruct (k r w) as [[a| | | | |] w']; try done. destruct Hk as [Hn Hf]. split; [done|].
    destruct (Hr a w' eq_refl) as [-> | ->]; [done|by left].
Qed.

Lemma steady_then {A B} (m : M world A) (m' : M world B) : steady m -> steady m' -> steady (m ;;; m').
Proof. intros H1 H2 k. apply keeps_bind; [exact (H1 k)|]. intros ?. exact (H2 k). Qed.

(** The ID is what [m] returns. *)
Definition returns {A} (id : A -> Z) (r : Z) (m : M world A) : Prop := forall w a w', m w = (Ret a, w') -> id a = r.

Lemma returns_ret {A} (id : A -> Z) r a : id a = r -> returns id r (ret a).
Proof. intros Ha w a' w' [= <- _]. done. Qed.

Lemma returns_then {A B} (id : B -> Z) r (m : M world A) m' : returns id r m' -> returns id r (m ;;; m').
Proof. intros Hm w a w' Ea. apply bind_inv_Ret in Ea as (u & w1 & _ & Ea). by eapply Hm. Qed.

(** The end of most functions: the request is pushed, and after [k] its ID is returned. *)
Lemma issues_push {A} (id : A -> Z) (mk : Z -> Command) (bad : A) (k : Z -> M world A) :
  id bad = VEO_REQUEST_ID_INVALID -> (forall r, steady (k r) /\ returns id r (k r)) ->
  issues id (let! r := issueRequestID in
             let! rc := push_request (mk r) in
             if negb (rc =? 0) then ret bad else k r).
Proof.
  intros Hbad Hk. apply issues_new.
  - intros r x. apply keeps_bind; [exact (steady_push_request _ x)|]. intros rc. destruct (negb _); [apply keeps_ret|].
    exact (proj1 (Hk r) x).
  - intros r w a w' Ea. apply bind_inv_Ret in Ea as (rc & w1 & _ & Ea). destruct (negb _).
    + injection Ea as <- _. by right.
    + left. by eapply Hk.
Qed.

Lemma ending_ret {A} (id : A -> Z) (f : Z -> A) : (forall r, id (f r) = r) -> forall r, steady (ret (f r)) /\ returns id r (ret (f r)).
Proof. intros Hf r. split; [intros k; apply keeps_ret|by apply returns_ret]. Qed.

Lemma ending_notify {A} (id : A -> Z) (f : Z -> A) : (forall r, id (f r) = r) ->
  forall r, steady (notifyAll ;;; ret (f r)) /\ returns id r (notifyAll ;;; ret (f r)).
Proof.
  intros Hf r. split; [apply steady_then; [apply steady_notifyAll|exact (proj1 (ending_ret id f Hf r))]|].
  by apply returns_then, returns_ret.
Qed.

Lemma ending_progress {A} (id : A -> Z) (f : Z -> A) : (forall r, id (f r) = r) ->
  forall r, steady (progress ;;; notifyAll ;;; ret (f r)) /\ returns id r (progress ;;; notifyAll ;;; ret (f r)).
Proof.
  intros Hf r. split; [apply steady_then; [apply steady_progress|exact (proj1 (ending_notify id f Hf r))]|].
  by apply returns_then, returns_then, returns_ret.
Qed.

Lemma steady_gets {A} (f : world -> A) : steady (gets f).
Proof. intros k. apply keeps_gets. Qed.

Abbreviation num := (fun a : Z => a).

Lemma sendBuffAsync_issues dst src size prev : issues num (sendBuffAsync dst src size prev).
Proof.
  apply issues_steady; [apply steady_gets|]. intros []; [|by apply issues_ret].
  apply issues_push; [done|]. by apply (ending_ret num).
Qed.

Lemma recvBuffAsync_issues dst src size prev : issues num (recvBuffAsync dst src size prev).
Proof.
  apply issues_steady; [apply steady_gets|]. intros []; [|by apply issues_ret].
  apply issues_push; [done|]. by apply (ending_ret num).
Qed.

Lemma frag_loop_issues n buff maxfrag k :
  (forall d s sz prev, issues num (buff d s sz prev)) -> forall rsize d s prev flg,
  hoare (fun w => numbered k w /\ fresh k prev w) (frag_loop n buff maxfrag rsize d s prev flg)
    (fun a w => numbered k w /\ fresh k a w) (fun _ => True).
Proof.
  intros Hb. induction n as [|n IH]; intros rsize d s prev flg; cbn [frag_loop]; destruct (rsize =? 0);
    try (eapply hoare_bind; [apply steady_fresh, steady_notifyAll|]; intros u; by apply hoare_ret).
  { by intros w _. }
  eapply hoare_bind; [eapply hoare_pre; [apply (Hb _ _ _ _ k)|by intros w []]|]. intros req. cbn beta.
  destruct (req =? _); [by apply hoare_ret|].
  eapply hoare_bind; [apply (steady_fresh _ k req)|intros u; apply IH].
  destruct flg; [intros x; apply keeps_ret|apply steady_progress].
Qed.

Lemma asyncReadMem_issues n dst src size : issues num (asyncReadMem n dst src size).
Proof.
  apply issues_steady; [apply steady_gets|]. intros []; [|by apply issues_ret]. cbn [negb].
  destruct (size =? 0); [apply issues_push; [done|]; by apply (ending_notify num)|].
  apply issues_steady; [apply steady_gets|]. intros p k.
  eapply hoare_pre; [apply frag_loop_issues, recvBuffAsync_issues|]. intros w Hw. split; [done|by left].
Qed.

Lemma asyncWriteMem_issues n dst src size : issues num (asyncWriteMem n dst src size).
Proof.
  apply issues_steady; [apply steady_gets|]. intros []; [|by apply issues_ret]. cbn [negb].
  destruct (size =? 0); [apply issues_push; [done|]; by apply (ending_notify num)|].
  apply issues_steady; [apply steady_gets|]. intros p k.
  eapply hoare_pre; [apply frag_loop_issues, sendBuffAsync_issues|]. intros w Hw. split; [done|by left].
Qed.

(** What comes after another request. *)
Lemma issues_after {A B} (f : A -> Z) (id : B -> Z) (m : M world A) (k : A -> M world B) :
  issues f m -> (forall a, issues id (k a)) -> issues id (bind m k).
Proof.
  intros Hm Hk x. eapply hoare_bind; [apply (Hm x)|]. intros a. eapply hoare_pre; [apply (Hk a x)|]. by intros w [].
Qed.

Lemma issues_map {A} (m : M world Z) (f : Z -> A) (id : A -> Z) :
  issues num m -> (forall r, id (f r) = r) -> issues id (let! r := m in ret (f r)).
Proof.
  intros Hm Hf x. eapply hoare_bind; [apply (Hm x)|]. intros a. apply hoare_ret. by rewrite Hf.
Qed.

Lemma steady_stop {A} (o : outcome A) : steady (lift (S := world) o).
Proof. intros k w Hw. unfold lift. by destruct o. Qed.

Lemma simpleCallAsync_issues addr regs top size ci co stack stack_ cf :
  issues num (simpleCallAsync addr regs top size ci co stack stack_ cf).
Proof.
  apply issues_steady; [apply steady_gets|]. intros alive. destruct (_ || _); [by apply issues_ret|].
  apply issues_push; [done|]. by apply (ending_progress num).
Qed.

Lemma doCallAsync_issues n addr args : issues fst (doCallAsync n addr args).
Proof.
  unfold doCallAsync. destruct (addr =? 0); [by apply issues_ret|].
  apply issues_steady; [apply steady_gets|]. intros sp. destruct (negb _); [by apply issues_ret|].
  apply issues_steady; [apply steady_stop|]. intros regs. apply issues_steady; [apply steady_stop|]. intros fs.
  apply issues_steady; [apply steady_gets|]. intros p. cbv zeta. destruct (small_call _ _ _).
  { apply (issues_map _ (fun r => (r, _)) fst); [apply simpleCallAsync_issues|done]. }
  destruct (extra_part _ _ _ _ _) as [[es eb] ez].
  apply (issues_after num); [destruct (copied_in args); [apply asyncWriteMem_issues|by apply issues_ret]|]. intros wr.
  apply (issues_after num); [apply simpleCallAsync_issues|]. intros cr.
  apply (issues_after num); [destruct (copied_out args); [apply asyncReadMem_issues|by apply issues_ret]|]. intros rr.
  apply (issues_push fst _ (VEO_REQUEST_ID_INVALID, _)); [done|]. by apply (ending_progress fst (fun r => (r, _))).
Qed.

Lemma genericAsyncReq_issues cmd fmt args : issues num (genericAsyncReq cmd fmt args).
Proof.
  apply issues_steady; [apply steady_gets|]. intros []; [|by apply issues_ret]. cbn [negb].
  pose proof (ending_progress num num ltac:(done)) as He. apply issues_new.
  - intros r k. apply keeps_bind.
    + destruct (cmd =? _); [|apply keeps_ret]. apply keeps_bind; [|intros u; apply keeps_ret].
      by apply (steady_modify (fun w => set_rem (remaining w ∖ {[r]}) w)).
    + intros c. apply keeps_bind; [exact (steady_push_request _ k)|]. intros rc. destruct (negb _); [apply keeps_ret|].
      exact (proj1 (He r) k).
  - intros r w a w' Ea. apply bind_inv_Ret in Ea as (c & w1 & _ & Ea). apply bind_inv_Ret in Ea as (rc & w2 & _ & Ea).
    destruct (negb _); [injection Ea as <- _; by right|]. left. exact (proj2 (He r) _ _ _ Ea).
Qed.

(** ** The synchronous functions *)

(** No request with a number below [k] is in the queue or in flight. *)
Definition ended (k : Z) (w : world) : Prop :=
  forall c, c ∈ request (queue w) \/ (exists r, inflight (queue w) !! r = Some c) -> k <= msgid c.

Lemma beyond_ended ng id w : inv ng [] (view_of w) -> beyond id (alpha (view_of w)) -> ended (id + 1) w.
Proof.
  intros Hi [_ Hb] c Hc. cut (id < msgid c); [lia|]. apply Hb. cbn [a_pending alpha].
  apply list_elem_of_fmap. exists c. split; [done|]. unfold pipeline. apply elem_of_app.
  destruct Hc as [Hc|[r Hc]]; [by right|left]. by apply (inv_flying (view_of w) r c (proj2 Hi)).
Qed.

Lemma wait_ended ng n id w r w' :
  inv ng [] (view_of w) -> turned (view_of w) -> callWaitResult n id w = (Ret r, w') -> issued w' < 2 ^ 64 ->
  fst r <> VEO_COMMAND_ERROR -> ended (id + 1) w' /\ id < issued w'.
Proof.
  intros Hi Ht Ew Hb Hne. destruct (proj2 (wait_turned n id w) ng r w' Hi Ht Ew Hb) as [[Hi' _] Htells].
  specialize (Htells Hne). split; [by eapply beyond_ended|exact (proj1 Htells)].
Qed.

(** A function submits requests and waits for the last one. *)
Lemma submit_wait {A} (m : M world A) (id : A -> Z) ng n w a w1 r w2 :
  inv ng [] (view_of w) -> turned (view_of w) -> sim (fun _ => True) m any -> issues id m ->
  m w = (Ret a, w1) -> callWaitResult n (id a) w1 = (Ret r, w2) -> issued w2 < 2 ^ 64 ->
  fst r <> VEO_COMMAND_ERROR -> ended (issued w) w2.
Proof.
  intros Hi Ht Hsim Hiss Em Ew Hb Hne.
  pose proof (proj1 (wait_turned n (id a) w1)) as Hmono. rewrite Ew in Hmono. cbn [snd] in Hmono.
  pose proof (core_seq _ _ _ (proj1 Hi)) as Hseq. pose proof (core_bound _ _ _ (proj1 Hi)) as Hbd.
  cbn [v_seq v_issued view_of] in Hseq, Hbd.
  destruct (proj2 (sim_turned _ _ Hsim w) ng a w1 Hi Ht Em ltac:(lia)) as [[Hi1 _] [Ht1 _]].
  destruct (wait_ended ng n (id a) w1 r w2 Hi1 Ht1 Ew Hb Hne) as [Hend Hlt].
  pose proof (Hiss (issued w) w) as Hf. rewrite Em in Hf. destruct Hf as [_ Hf].
  { split; [|done]. by rewrite Hseq, u64_small. }
  assert (Hge : issued w <= id a).
  { destruct Hf as [Hf|(i & Hin & Hf)]; rewrite Hf in *; [unfold VEO_REQUEST_ID_INVALID in Hlt; lia|].
    rewrite u64_small by (unfold in_u64; lia). lia. }
  intros c Hc. specialize (Hend c Hc). lia.
Qed.

Lemma run_turned w0 w : initial w0 -> run_to w0 w -> issued w < 2 ^ 64 ->
  inv no_id [] (view_of w) /\ turned (view_of w).
Proof.
  intros Hi0 Hr Hb. destruct (initial_inv w0 Hi0) as [Hinv Ha].
  destruct (run_evolves _ _ Hinv Hr Hb) as [Hi [tr T]]. split; [done|].
  apply (in_turns_exec _ _ _ T). rewrite Ha. split; cbn; [constructor|intros p Hp; by apply not_elem_of_nil in Hp|].
  intros id s v. by rewrite lookup_empty.
Qed.

(** The shape of [readMem] and [writeMem]. *)
Lemma transfer_ended (m : M world Z) ng n w w' :
  inv ng [] (view_of w) -> turned (view_of w) -> sim (fun _ => True) m any -> issues num m -> issued w' < 2 ^ 64 ->
  (let! req := m in
   if req =? VEO_REQUEST_ID_INVALID then ret (-1)
   else let! '(rv, _) := callWaitResult n req in
        if negb (rv =? VEO_COMMAND_OK) then ret (-1) else ret rv) w = (Ret VEO_COMMAND_OK, w') ->
  ended (issued w) w'.
Proof.
  intros Hi Ht Hsim Hiss Hb Em. apply bind_inv_Ret in Em as (req & w1 & E1 & Em).
  destruct (req =? _); [done|]. apply bind_inv_Ret in Em as ([rv x] & w2 & E2 & Em).
  destruct (Z.eqb_spec rv VEO_COMMAND_OK) as [->|]; [|done]. injection Em as ->.
  by eapply (submit_wait m num).
Qed.

Lemma setup_call_issues n addr args : issues fst (let! args := setup_args args in doCallAsync n addr args).
Proof.
  apply issues_steady; [|intros a; apply doCallAsync_issues].
  intros k. apply keeps_bind; [apply keeps_gets|]. intros sp. exact (steady_on_vh _ k).
Qed.

Lemma callSync_ended ng n addr args w res args' w' :
  inv ng [] (view_of w) -> turned (view_of w) -> issued w' < 2 ^ 64 ->
  callSync n addr args w = (Ret (VEO_COMMAND_OK, res, args'), w') -> ended (issued w) w'.
Proof.
  intros Hi Ht Hb Em. apply bind_inv_Ret in Em as (alive & w0 & [= <- <-] & Em). destruct (negb _); [done|].
  apply bind_inv_Ret in Em as (a & w1 & E1 & Em). apply bind_inv_Ret in Em as ([req a'] & w2 & E2 & Em).
  destruct (req =? _); [done|]. apply bind_inv_Ret in Em as ([rv x] & w3 & E3 & Em).
  destruct (Z.eqb_spec rv VEO_COMMAND_OK) as [->|]; [|done]. injection Em as -> -> ->.
  eapply (submit_wait (let! args := setup_args args in doCallAsync n addr args) fst);
    [done|done| |apply setup_call_issues|by rewrite (bind_Ret _ _ _ _ _ E1)|exact E3|done|done].
  eapply sim_bind; [apply setup_args_sim|]. intros b. apply doCallAsync_sim.
Qed.
End Waiting.

(** ** Properties *)

Section Properties.
Context `{U : Urpc} `{L : !UrpcLaws U} `{IN : Indet} `{VF : !VhFuncs} `{VH : !VhLocal VF} `{BO : BucketOrder} `{E : Env}.

(** C10: synchronous functions wait for the requests before.  In every state [w] a run of a
  context reaches: when [callWaitResult] returns a status other than an error, no request
  with the same or a smaller ID is in the queue or in flight; and when [readMem], [writeMem]
  or [callSync] return with success, or a generic request has been answered, no request
  submitted to the context before is. *)
Theorem synchronous_functions_wait w0 w n w' :
  initial w0 -> run_to w0 w -> issued w < 2 ^ 64 -> issued w' < 2 ^ 64 ->
  (forall id st v, callWaitResult n id w = (Ret (st, v), w') -> st <> VEO_COMMAND_ERROR -> ended (id + 1) w') /\
  (forall dst src size, readMem n dst src size w = (Ret VEO_COMMAND_OK, w') -> ended (issued w) w') /\
  (forall dst src size, writeMem n dst src size w = (Ret VEO_COMMAND_OK, w') -> ended (issued w) w') /\
  (forall addr args res args', callSync n addr args w = (Ret (VEO_COMMAND_OK, res, args'), w') ->
     ended (issued w) w') /\
  (forall cmd fmt args st v,
     (let! req := genericAsyncReq cmd fmt args in callWaitResult n req) w = (Ret (st, v), w') ->
     st <> VEO_COMMAND_ERROR -> ended (issued w) w').
Proof.
  intros H0 Hr Hb Hb'. destruct (run_turned _ _ H0 Hr Hb) as [Hi Ht]. split_and!.
  - intros id st v Ew Hne. by destruct (wait_ended _ n id w (st, v) w' Hi Ht Ew Hb' Hne).
  - intros dst src size Em. eapply transfer_ended; [done|done| |apply asyncReadMem_issues|done|exact Em].
    eapply sim_conseq; [apply asyncReadMem_sim|done|done].
  - intros dst src size Em. eapply transfer_ended; [done|done| |apply asyncWriteMem_issues|done|exact Em].
    eapply sim_conseq; [apply asyncWriteMem_sim|done|done].
  - intros addr args res args'. by apply (callSync_ended no_id).
  - intros cmd fmt args st v Em Hne. apply bind_inv_Ret in Em as (req & w1 & E1 & E2).
    by eapply (submit_wait _ (fun a => a));
      [done|done|apply genericAsyncReq_sim|apply genericAsyncReq_issues|exact E1|exact E2|..].
Qed.
End Properties.

(** ** Example: a read behind two requests *)

Definition demo_read := @readMem demo_urpc demo_indet demo_vh list_order demo_env 9 100 4096 16 demo_mid.

Lemma demo_read_ok : demo_read = (Ret VEO_COMMAND_OK, snd demo_read).
Proof.
  assert (H : fst demo_read = Ret VEO_COMMAND_OK) by (vm_compute; reflexivity). rewrite <- H. by destruct demo_read.
Qed.

Lemma synchronous_functions_wait_witness : ended 2 (snd demo_read).
Proof.
  refine (proj1 (proj2 (@synchronous_functions_wait demo_urpc demo_laws demo_indet demo_vh demo_local list_order demo_env
    demo_world demo_mid 9 (snd demo_read) demo_initial demo_mid_run _ _)) 100 4096 16 demo_read_ok).
  - vm_compute. reflexivity.
  - vm_compute. reflexivity.
Defined.
