(* ===== verification/Findings.v ===== *)
(** * Behaviour at odds with its purpose

    Theorems about places where the requests of a context are not handled the
    way the code means to. *)

From Stdlib Require Import ZArith Lia Bool.
From stdpp Require Import base gmap list numbers sets strings.
From S2P Require Import Prelude CallArgs Command Urpc Ve Context Example Requests Progress.
From S2P Require Import AsyncTransfer Calls.

Open Scope Z_scope.

Section Findings.
Context `{U : Urpc} `{IN : Indet} `{VF : !VhFuncs} `{BO : BucketOrder} `{E : Env}.

(** What [submitted] makes of the result of [urpc_generic_send] cut to an [int]. *)
Lemma submitted_truncated req c w :
  2 ^ 31 <= req < 2 ^ 32 -> i32 req <> - EAGAIN ->
  submitted (i32 req) c w = (Ret (-1, setResult 0 VEO_COMMAND_ERROR c), w).
Proof.
  intros Hr He. unfold submitted. rewrite i32_upper_half in * by done.
  destruct (Z.leb_spec 0 (req - 2 ^ 32)); [lia|].
  destruct (Z.eqb_spec (req - 2 ^ 32) (- EAGAIN)); done.
Qed.

(** Transfers and generic requests lose URPC request IDs of more than 31 bits.
  The submit functions of [sendBuffAsync], [recvBuffAsync] and
  [genericAsyncReq] keep the ID in an [int]: when ve-urpc accepts the message
  under an ID from [2^31] on, the command is reported as failed although it was
  sent, while a function call with the same ID is recorded correctly. *)
Theorem request_id_truncated (w : world) c cmd fmt args req p :
  urpc_generic_send (the_peer w) cmd fmt args = (req, p) ->
  2 ^ 31 <= req < 2 ^ 32 -> i32 req <> - EAGAIN ->
  (forall dst src size prev, code c = C_sendbuff dst src size prev ->
     cmd = URPC_CMD_SENDBUFF -> fmt = "LP"%string ->
     args = [VL dst; VP (mem_read (h_mem (vh w)) src (Z.to_nat size))] ->
     run_submit c w = (Ret (-1, setResult 0 VEO_COMMAND_ERROR c), set_up p w)) /\
  (forall dst src size prev, code c = C_recvbuff dst src size prev ->
     cmd = URPC_CMD_RECVBUFF -> fmt = "LLL"%string -> args = [VL src; VL dst; VL size] ->
     run_submit c w = (Ret (-1, setResult 0 VEO_COMMAND_ERROR c), set_up p w)) /\
  (forall regs top size stack addr cf st, code c = C_call regs top size false false stack addr cf st ->
     cmd = URPC_CMD_CALL -> fmt = "LP"%string -> args = [VL addr; VP (regs_bytes regs)] ->
     run_submit c w = (Ret (0, setURPCReq req VEO_COMMAND_UNFINISHED c), set_up p w)).
Proof.
  intros Es Hr He. split_and!.
  - intros dst src size prev Ec -> -> ->. unfold run_submit. rewrite Ec.
    rewrite (bind_Ret _ _ w (h_mem (vh w)) w) by done.
    rewrite (bind_Ret _ _ w req (set_up p w)) by (unfold generic_send; by rewrite Es).
    by apply submitted_truncated.
  - intros dst src size prev Ec -> -> ->. unfold run_submit. rewrite Ec.
    rewrite (bind_Ret _ _ w req (set_up p w)) by (unfold generic_send; by rewrite Es).
    by apply submitted_truncated.
  - intros regs top size stack addr cf st Ec -> -> ->. unfold run_submit. rewrite Ec.
    unfold send_call_nolock. cbn [orb andb negb]. rewrite Es. unfold submitted.
    destruct (Z.leb_spec 0 req); [done|lia].
Qed.

(** The first synchronisation of a context does not wait.  [synchronize] takes
  the request ID 0 for a failure, but 0 is the first ID issued: on a new context
  it returns at once, its own request still in the queue and its ID among those
  whose results are remembered. *)
Theorem first_synchronize_does_not_wait n (w : world) :
  is_alive w = true -> seq_no (ctx w) = 0 -> request (queue w) = [] ->
  exists w', synchronize n w = (Ret tt, w') /\
    request (queue w') = [CommandImpl_vh 0 (C_vh synchronize_func 0)] /\ 0 ∈ remaining w'.
Proof.
  intros Ha Hs Hr. unfold synchronize, callVHAsync.
  set (w1 := snd (issueRequestID w)).
  assert (E1 : issueRequestID w = (Ret 0, w1) /\ queue w1 = queue w /\ 0 ∈ remaining w1 /\
               progress_thread (ctx w1) = progress_thread (ctx w)).
  { unfold w1, issueRequestID, bind, fetch_add_seq_no. rewrite Hs.
    change (0 =? VEO_REQUEST_ID_INVALID) with false. cbn. split_and!; try done.
    apply elem_of_union. left. by apply elem_of_singleton. }
  destruct E1 as (E1 & Eq & Em & _).
  set (w2 := set_comq (set_request (request (queue w1) ++ [CommandImpl_vh 0 (C_vh synchronize_func 0)])
                         (queue w1)) w1).
  assert (E2 : (let! alive := gets is_alive in
    if bool_decide (synchronize_func = user_func 0) || negb alive then ret VEO_REQUEST_ID_INVALID
    else
      let! id := issueRequestID in
      push_request (CommandImpl_vh id (C_vh synchronize_func 0)) ;;; notifyAll ;;; ret id) w
    = (Ret 0, snd (notifyAll w2))).
  { rewrite (bind_Ret _ _ w true w) by (unfold gets; by rewrite Ha).
    rewrite bool_decide_eq_false_2 by done. cbn [orb negb].
    rewrite (bind_Ret _ _ _ _ _ E1). rewrite (bind_Ret _ _ w1 0 w2) by done.
    unfold bind, notifyAll.
    by destruct (CommQueueOps.notifyAll (queue w2)), (progress_thread (ctx w2)). }
  rewrite (bind_Ret _ _ _ _ _ E2). eexists. split; [reflexivity|].
  assert (Hn : queue (snd (notifyAll w2)) = queue w2 /\ remaining (snd (notifyAll w2)) = remaining w2).
  { unfold notifyAll. by destruct (CommQueueOps.notifyAll (queue w2)), (progress_thread (ctx w2)). }
  destruct Hn as [-> ->]. unfold w2. cbn. rewrite Eq, Hr. done.
Qed.

(** A wake-up can be lost.  A thread that waits for a request in flight while
  another thread happens to hold the progress lock goes to sleep on the
  completion map; when the progress thread sleeps too, [notifyAll] does not wake
  it, because the request queue is empty: nobody receives the reply, even if it
  is already there. *)
Theorem wait_result_lost_wakeup n reqid rest (w : world) :
  trylocks w = false :: rest -> progress_thread (ctx w) = T_asleep ->
  request (queue w) = [] -> reqid ∈ remaining w -> completion (queue w) !! u64 reqid = None ->
  fst (callWaitResult (S n) reqid w) = Blocked.
Proof.
  intros Hl Ht Hr Hrem Hc. unfold callWaitResult. cbn [poll_result].
  set (w1 := mkWorld (ctx w) (vh w) (survival w) (waitpids w) rest (issued w)).
  assert (E1 : try_lock w = (Ret false, w1)) by (unfold try_lock; by rewrite Ht, Hl).
  rewrite bind_assoc, (bind_Ret _ _ _ _ _ E1). cbn [negb].
  rewrite (bind_Ret _ _ w1 None w1) by done.
  assert (E2 : notifyAll w1 = (Ret tt, w1)).
  { unfold notifyAll, CommQueueOps.notifyAll. change (queue w1) with (queue w). by rewrite Hr. }
  rewrite (bind_Ret _ _ _ _ _ E2). rewrite (bind_Ret _ _ w1 (remaining w) w1) by done.
  rewrite bool_decide_eq_true_2 by done. cbn [negb].
  assert (Ew : on_comq (CommQueueOps.waitCompletion reqid) w1 = (Blocked, w1)).
  { unfold on_comq, on, CommQueueOps.waitCompletion, BlockingMap.wait, BlockingMap.tryFindNoWait.
    change (queue w1) with (queue w). rewrite Hc. f_equal. apply (set_comq_id w1). }
  rewrite waitCompletion_unfold, Ew. unfold progress_main.
  rewrite bind_assoc, (bind_Ret _ _ w1 T_asleep w1) by (unfold gets; by rewrite <- Ht).
  rewrite (bind_Ret _ _ w1 tt w1) by done. unfold bind. by rewrite Ew.
Qed.
End Findings.

(** ** Examples *)

(** A connection that has been used for [2^31] requests. *)
Definition worn_urpc : Urpc := {|
  peer := unit; payload := unit;
  urpc_generic_send := fun p _ _ _ => (2 ^ 31, p);
  urpc_get_cmd := fun p => (-1, (0, tt), p);
  urpc_next_send_slot := fun _ => 0;
  urpc_slot_done := fun p _ => p;
  urpc_max_send_cmd_size := fun _ => 2 ^ 20;
  urpc_get_receiver_flags := fun _ => 0;
  urpc_recv_req_timeout := fun p _ _ => (None, p);
  payload_len := fun _ => 0;
  urpc_unpack_payload := fun _ _ => (0, []);
  URPC_FLAG_EXITED := 2;
  ALIGN8B := align_up 8;
|}.

Definition worn_world : @world worn_urpc :=
  @mkWorld worn_urpc
    (@mkContext worn_urpc new_CommQueue VEO_STATE_RUNNING false 0 0 (tt : @peer worn_urpc) ∅ 0 T_asleep)
    (mkHeap (fun _ => 0) 8192 ∅) true [] [] 0.

Lemma request_id_truncated_witness :
  @run_submit worn_urpc demo_vh (mkCommand 0 0 0 0 false false (C_recvbuff 1 2 3 4)) worn_world =
  (Ret (-1, setResult 0 VEO_COMMAND_ERROR (mkCommand 0 0 0 0 false false (C_recvbuff 1 2 3 4))),
   set_up (tt : @peer worn_urpc) worn_world).
Proof.
  apply (@request_id_truncated worn_urpc demo_vh worn_world
    (mkCommand 0 0 0 0 false false (C_recvbuff 1 2 3 4))
    URPC_CMD_RECVBUFF "LLL" [VL 2; VL 1; VL 3] (2 ^ 31) tt eq_refl) with (prev := 4) (size := 3)
    (dst := 1) (src := 2); try reflexivity; [lia|vm_compute; discriminate].
Defined.

Lemma first_synchronize_does_not_wait_witness :
  exists w', @synchronize demo_urpc demo_indet demo_vh list_order 5 demo_world = (Ret tt, w') /\
    request (queue w') = [@CommandImpl_vh demo_indet 0 (C_vh synchronize_func 0)] /\ 0 ∈ remaining w'.
Proof.
  apply (@first_synchronize_does_not_wait demo_urpc demo_indet demo_vh list_order 5 demo_world);
    reflexivity.
Defined.

(** A request in flight, and the lock taken once. *)
Definition demo_locked : @world demo_urpc :=
  let w := set_rem {[ 0 ]} demo_busy in
  mkWorld (ctx w) (vh w) (survival w) (waitpids w) [false] (issued w).

Lemma wait_result_lost_wakeup_witness :
  fst (@callWaitResult demo_urpc demo_indet demo_vh list_order 100 0 demo_locked) = Blocked.
Proof.
  apply (@wait_result_lost_wakeup demo_urpc demo_indet demo_vh list_order 99 0 []); reflexivity.
Defined.
