(* ===== verification/Liveness.v ===== *)
(** * Requests end

    The loops of a context that wait for the VE end when the VE answers, and a
    thread that waits for a result gets it.  When the VE process is gone, the
    progress function notices it, except in two situations. *)

From Stdlib Require Import ZArith Lia Bool Wellfounded Relation_Operators.
From stdpp Require Import base gmap list numbers sets strings.
From S2P Require Import Prelude CallArgs Command Urpc Ve Context Example Requests Progress.
From S2P Require Import AsyncTransfer Calls Lifecycle.

Open Scope Z_scope.

(** A VE that answers: every poll in vain brings the next reply closer, and a
    connection on which nothing is outstanding accepts a message. *)
Class Responsive (U : Urpc) `{L : !UrpcLaws U} := {
  delay : peer -> nat;
  poll_delay : forall p r m p', urpc_get_cmd p = (r, m, p') -> r < 0 -> outstanding p <> [] ->
    (delay p' < delay p)%nat;
  failed_send_delay : forall p cmd fmt args r p',
    urpc_generic_send p cmd fmt args = (r, p') -> r < 0 -> (delay p' <= delay p)%nat;
  free_slot : forall p, outstanding p = [] -> 0 <= urpc_next_send_slot p;
  free_send : forall p cmd fmt args r p',
    outstanding p = [] -> urpc_generic_send p cmd fmt args = (r, p') -> r <> - EAGAIN;
}.

(** The VH functions of the application end. *)
Class VhEnds `{U : Urpc} (VF : VhFuncs) := {
  vh_returns : forall f a, never NoFuel (vh_call f a);
  vh_wakes : forall f a, never Blocked (vh_call f a);
}.

Section Liveness.
Context `{U : Urpc} `{L : !UrpcLaws U} `{IN : Indet} `{VF : !VhFuncs} `{VH : !VhLocal VF} `{BO : BucketOrder}.
Implicit Types (w : world).

(** ** The progress function returns *)

(** The progress thread sleeps exactly when there is nothing to do and nobody has told it
    to end, and it goes on with the loop unless it is told to end. *)
Lemma waitProgress_sleeps (w : world) :
  (fst (waitProgress w) = Blocked <->
   CommQueueOps.isActive (queue w) = false /\ terminateFlag (queue w) = false) /\
  (forall b, fst (waitProgress w) = Ret b -> b = negb (terminateFlag (queue w))).
Proof.
  unfold waitProgress, on_comq, on, CommQueueOps.waitRequest, CommQueueOps.isActive.
  destruct (BlockingQueue.empty (request (queue w))), (BlockingMap.empty (inflight (queue w))),
    (terminateFlag (queue w)); cbn; (split; [split; [intros Hw|intros [? ?]]; by try split|congruence]).
Qed.

Section Ends.
Context (bad : outcome Empty_set).
Hypothesis bad_silent : bad = NoFuel \/ bad = Blocked.
Hypothesis bad_vh : forall f a, never bad (vh_call f a).

Let bad_other : bad <> Throw std_bad_function_call /\ bad <> Undef.
Proof. by destruct bad_silent as [-> | ->]. Qed.

Let bad_throw {A} e : ~ ends_in bad (Throw e : outcome A).
Proof. by destruct bad_silent as [-> | ->]. Qed.

Lemma never_cancelAll : never bad (on_comq CommQueueOps.cancelAll).
Proof. apply never_on, never_modify. Qed.

Lemma never_run_submit c : never bad (run_submit c).
Proof using All.
  pose proof (never_peekResult bad) as H1. pose proof (never_delete_char bad bad_other) as H2.
  pose proof (never_run_copyout bad bad_other) as H3.
  unfold run_submit, run_largecall, sub_result, call_vh_func, submitted.
  destruct (code c); try solve [never_tac; try (apply never_stop, bad_throw); intros w;
    unfold generic_send; destruct (urpc_generic_send _ _ _ _); apply ends_in_Ret].
  intros w. destruct (send_call_nolock _ _ _ _ _ _ _ _ _ _).
  destruct (0 <=? _); [apply ends_in_Ret|]. destruct (_ =? _); apply ends_in_Ret.
Qed.

Lemma never_progress_round b : never bad (progress_round b).
Proof using All.
  pose proof never_run_submit as H1. pose proof (never_run_unpack bad bad_other) as H2.
  unfold progress_round, receive, submit_next, check_process, exit_and_cancel.
  never_tac; try (apply never_stop, bad_throw); intros w;
    unfold get_cmd, child_ended, CommQueueOps.popInFlight, CommQueueOps.tryPopRequest;
    repeat match goal with |- context [match ?x with _ => _ end] => destruct x end;
    apply ends_in_Ret.
Qed.

Lemma progress_nolock_ends b w : ~ ends_in bad (fst (_progress_nolock b w)).
Proof using All.
  pose proof (never_progress_round b) as Hr.
  unfold _progress_nolock. set (n := S (work (queue w))).
  assert (Hn : (work (queue w) < n)%nat) by lia. clearbody n. revert w Hn.
  induction n as [|n IH]; intros w Hn; [lia|]. cbn [progress_loop]. unfold bind.
  specialize (Hr w). destruct (progress_round b w) as [[[| |v]|e| | | |] w'] eqn:E; try apply ends_in_Ret;
    try (intros He; apply Hr; eapply ends_in_recast; [|exact He]; done).
  apply IH. apply progress_round_work in E. lia.
Qed.
End Ends.

(** ** What the progress function leaves alone

    The progress thread, the termination flag and the lock; it hands out no
    request ID. *)

Definition bystander w : thread_state * bool * list bool :=
  (progress_thread (ctx w), terminateFlag (queue w), trylocks w).

Definition aside {A} (m : M world A) : Prop :=
  forall x R, keeps (fun w => bystander w = x /\ remaining w ⊆ R) m.

Lemma aside_stop {A} (o : outcome A) : aside (stop o).
Proof. intros x R w Hw. by destruct o. Qed.
Lemma aside_on_vh {A} (m : M heap A) : aside (on_vh m).
Proof. intros x R w Hw. unfold on_vh, on. by destruct (m (vh w)) as [[] ?]. Qed.
Lemma aside_modify (f : world -> world) :
  (forall w, bystander (f w) = bystander w /\ remaining (f w) ⊆ remaining w) -> aside (modify f).
Proof. intros Hf x R w [Hb Hr]. destruct (Hf w) as [H1 H2]. cbn. rewrite H1. set_solver. Qed.
Lemma aside_on_comq {A} (m : M CommQueue A) :
  (forall q, terminateFlag (snd (m q)) = terminateFlag q) -> aside (on_comq m).
Proof.
  intros Hm x R w [Hb Hr]. unfold on_comq, on. specialize (Hm (queue w)).
  destruct (m (queue w)) as [[] q]; (split; [|done]; rewrite <- Hb; unfold bystander; cbn in *;
    by rewrite Hm).
Qed.
Lemma aside_generic_send c f a : aside (generic_send c f a).
Proof. intros x R w Hw. unfold generic_send. by destruct (urpc_generic_send _ _ _ _). Qed.
Lemma aside_get_cmd : aside get_cmd.
Proof. intros x R w Hw. unfold get_cmd. by destruct (urpc_get_cmd _) as [[] ?]. Qed.
Lemma aside_child_ended : aside child_ended.
Proof. intros x R w Hw. unfold child_ended. by destruct (waitpids w). Qed.

Lemma cancel_requests_flag n q : terminateFlag (CommQueueOps.cancel_requests n q) = terminateFlag q.
Proof.
  revert q. induction n as [|n IH]; intros q; [done|]. cbn [CommQueueOps.cancel_requests].
  destruct (BlockingQueue.popNoWait (request q)) as [[c|] l]; [|done]. by rewrite IH.
Qed.
Lemma cancel_inflight_flag n q : terminateFlag (CommQueueOps.cancel_inflight n q) = terminateFlag q.
Proof.
  revert q. induction n as [|n IH]; intros q; [done|]. cbn [CommQueueOps.cancel_inflight].
  destruct (BlockingMap.popNoWait (inflight q)) as [[c|] l]; [|done]. by rewrite IH.
Qed.

Lemma aside_cancelAll : aside (on_comq CommQueueOps.cancelAll).
Proof.
  apply aside_on_comq. intros q. unfold CommQueueOps.cancelAll, modify. cbn [snd].
  by rewrite cancel_inflight_flag, cancel_requests_flag.
Qed.

Ltac aside_tac :=
  intros ? ?;
  repeat first
    [ apply keeps_ret | apply keeps_throw | apply keeps_gets | apply aside_stop
    | apply aside_on_vh | (apply keeps_vh_call; intros ?; apply aside_on_vh) | apply aside_generic_send | apply aside_get_cmd | apply aside_child_ended
    | apply aside_cancelAll
    | (apply aside_modify; intros ?; split; [done|cbn; set_solver])
    | (apply aside_on_comq; intros ?; unfold CommQueueOps.peekCompletion, CommQueueOps.popInFlight,
         CommQueueOps.tryPopRequest; cbn;
       repeat match goal with |- context [match ?y with _ => _ end] => destruct y end; reflexivity)
    | (apply keeps_bind; [|intros ?])
    | match goal with
      | |- keeps _ (if ?b then _ else _) => destruct b
      | |- keeps _ (match ?y with _ => _ end) => destruct y
      end
    | solve [auto with aveo] ].

Lemma aside_peekResult id : aside (_peekResult id).
Proof. unfold _peekResult. aside_tac. Qed.

Lemma aside_run_unpack c m : aside (run_unpack c m).
Proof. unfold run_unpack, chain_result, _peekResult. destruct (code c); aside_tac. Qed.

Lemma aside_run_submit c : aside (run_submit c).
Proof.
  unfold run_submit, run_largecall, sub_result, _peekResult, call_vh_func, submitted.
  destruct (code c); try solve [aside_tac].
  intros x R w Hw. destruct (send_call_nolock _ _ _ _ _ _ _ _ _ _) as [r p].
  by destruct (0 <=? r), (r =? - EAGAIN).
Qed.

#[local] Hint Extern 1 (keeps _ (run_submit _)) => apply aside_run_submit : aveo.
#[local] Hint Extern 1 (keeps _ (run_unpack _ _)) => apply aside_run_unpack : aveo.

Lemma aside_progress_round b : aside (progress_round b).
Proof. unfold progress_round, receive, submit_next, check_process, exit_and_cancel. aside_tac. Qed.

Lemma aside_progress_nolock b : aside (_progress_nolock b).
Proof.
  pose proof (aside_progress_round b) as Hr.
  assert (Hl : forall n, aside (progress_loop n b)).
  { induction n as [|n IH]; cbn [progress_loop]; [apply aside_stop|]. intros x R.
    apply keeps_bind; [apply Hr|]. intros [| |v]; [apply IH|apply keeps_ret..]. }
  intros x R w. apply Hl.
Qed.

(** ** Each round comes closer to the end *)

Lemma work_set_request l c w w' :
  request (queue w) = c :: l -> backlog w' = backlog (set_comq (set_request l (queue w)) w) ->
  work (queue w) = (2 + work (queue w'))%nat.
Proof. intros Er Hb. rewrite (work_backlog _ _ Hb). unfold work. rewrite Er. cbn. lia. Qed.

(** Submitting sends or completes a command, or puts it back: because the queue
    was empty or it cannot be sent now. *)
Section Submit.
Context `{RE : !Responsive U}.

Definition put_back (b : bool) (a : round) w w' : Prop :=
  work (queue w') = work (queue w) /\ (delay (the_peer w') <= delay (the_peer w))%nat /\
  (a = Return 1 -> request (queue w') <> []) /\
  (outstanding (the_peer w) = [] -> request (queue w) = [] \/ (b = false /\ a = Return 1)).

Lemma inflight_outstanding ng w :
  inv ng [] (view_of w) -> outstanding (the_peer w) = [] -> inflight (queue w) = ∅.
Proof.
  intros [_ [[_ Hl]|(_ & D & _)]] Ho; [|exact D]. apply map_eq. intros k. rewrite lookup_empty.
  destruct (inflight (queue w) !! k) as [c|] eqn:E; [|done].
  assert (k ∈ v_out (view_of w)) as Hk by (apply Hl; eauto).
  cbn [v_out view_of] in Hk. rewrite Ho in Hk. by apply not_elem_of_nil in Hk.
Qed.

Lemma submit_ve_result ng w b c l a w' :
  inv ng [] (view_of w) -> request (queue w) = c :: l -> is_vh c = false ->
  (let! '(rv, cmd) := run_submit c in
   if rv =? 0 then on_comq (CommQueueOps.pushInFlight cmd) ;;; ret Again
   else if rv =? - EAGAIN then on_comq (CommQueueOps.pushRequestFront cmd) ;;; ret Idle
   else on_comq (CommQueueOps.pushCompletion (setResult rv VEO_COMMAND_ERROR cmd)) ;;; ret Idle)
    (set_comq (set_request l (queue w)) w) = (Ret a, w') ->
  ((work (queue w') < work (queue w))%nat /\ a <> Return 1) \/ put_back b a w w'.
Proof.
  intros Hi Er Hvh E. set (w1 := set_comq _ w) in E.
  assert (Hve : closure_vh (code c) = false).
  { rewrite <- (core_kind _ _ _ (proj1 Hi)); [done|]. right; left. cbn [v_q view_of].
    rewrite Er. apply elem_of_cons. by left. }
  destruct (run_submit_ve c w1 Hve) as (rv & c' & w2 & E2 & Hs).
  rewrite (bind_Ret _ _ _ _ _ E2) in E.
  pose proof (quiet_Ret _ _ _ _ (quiet_run_submit c) E2) as B.
  pose proof (work_set_request l c w w2 Er B) as Hw.
  destruct Hs as [cmd fmt args r p Es Hr|cmd fmt args p Es|cmd fmt args r p Es Hr Hne];
    cbn [Z.eqb] in E.
  - left. injection E as <- <-. split; [|done].
    pose proof (size_insert_id r (setURPCReq r VEO_COMMAND_UNFINISHED c) (inflight (queue w1))).
    unfold work in *. cbn in *. lia.
  - right. injection E as <- <-. unfold put_back. split_and!.
    + unfold work in *. cbn in *. lia.
    + exact (failed_send_delay _ _ _ _ _ _ Es ltac:(done)).
    + done.
    + intros Ho. exfalso. by apply (free_send _ _ _ _ _ _ Ho Es).
  - left. injection E as <- <-. split; [|done]. unfold work in *. cbn in *. lia.
Qed.

Lemma submit_next_result ng w b a w' :
  inv ng [] (view_of w) -> submit_next b w = (Ret a, w') ->
  ((work (queue w') < work (queue w))%nat /\ a <> Return 1) \/ put_back b a w w'.
Proof.
  intros Hi E. unfold submit_next in E. apply bind_inv_Ret in E as (oc & w1 & E1 & E).
  unfold on_comq, on, CommQueueOps.tryPopRequest, BlockingQueue.popNoWait in E1.
  destruct (request (queue w)) as [|c l] eqn:Er; injection E1 as <- <-.
  { injection E as <- <-. right. unfold put_back. rewrite <- Er at 1. rewrite set_request_id, set_comq_id.
    split_and!; [done..|]. by left. }
  destruct (is_vh c) eqn:Hvh; [|by eapply submit_ve_result].
  apply bind_inv_Ret in E as (fr & w2 & [= <- <-] & E).
  destruct (CommQueueOps.emptyInFlight _ && b) eqn:Hf.
  - left. apply bind_inv_Ret in E as ([rv c'] & w3 & E3 & E). injection E as <- <-. split; [|done].
    pose proof (quiet_Ret _ _ _ _ (quiet_run_submit c) E3) as B.
    pose proof (work_set_request l c w w3 Er B). unfold work in *. cbn in *. lia.
  - right. injection E as <- <-. unfold put_back. split_and!.
    + unfold work. cbn. rewrite Er. cbn. lia.
    + done.
    + done.
    + intros Ho. right. split; [|done]. pose proof (inflight_outstanding _ _ Hi Ho) as He.
      unfold CommQueueOps.emptyInFlight, BlockingMap.empty in Hf. cbn in Hf. rewrite He in Hf.
      rewrite decide_True in Hf by done. done.
Qed.
Lemma receive_cases w r m a w' :
  receive r m w = (Ret a, w') -> (a = Again \/ a = Return (-1)).
Proof.
  intros E. unfold receive in E. apply bind_inv_Ret in E as ([c|] & w1 & _ & E); [|done].
  apply bind_inv_Ret in E as ([rv c'] & w2 & _ & E).
  apply bind_inv_Ret in E as ([] & w3 & _ & E). apply bind_inv_Ret in E as ([] & w4 & _ & E).
  destruct (rv <? 0); [|left; by injection E as <- _].
  destruct (exit_and_cancel_work w4) as (w5 & E5 & _). rewrite E5 in E. right. by injection E as <- _.
Qed.

Lemma check_process_result w a w' :
  check_process w = (Ret a, w') ->
  (a = Idle /\ work (queue w') = work (queue w) /\ the_peer w' = the_peer w) \/
  (a = Return (-1) /\ work (queue w') = 0%nat).
Proof.
  assert (Hx : forall w1 r w2, exit_and_cancel w1 = (Ret r, w2) ->
    r = Return (-1) /\ work (queue w2) = 0%nat).
  { intros w1 r w2 E2. destruct (exit_and_cancel_work w1) as (w3 & E3 & W3 & _).
    rewrite E2 in E3. by injection E3 as -> ->. }
  intros E. unfold check_process in E. apply bind_inv_Ret in E as (n & w1 & [= <- <-] & E).
  apply bind_inv_Ret in E as (r & w2 & E2 & E).
  destruct (_ =? 0); [|injection E2 as <- <-; injection E as <- <-; by left].
  apply bind_inv_Ret in E2 as (al & w3 & [= <- <-] & E2).
  destruct (survival w).
  - apply bind_inv_Ret in E2 as (en & w3 & E3 & E2). destruct en.
    + right. apply bind_inv_Ret in E2 as ([] & w4 & _ & E2). apply Hx in E2 as [-> W].
      by injection E as <- <-.
    + left. injection E2 as <- <-. injection E as <- <-. unfold child_ended in E3.
      destruct (waitpids w); inversion E3; by subst.
  - right. apply Hx in E2 as [-> W]. by injection E as <- <-.
Qed.

(** What is left to do, and how long the next reply takes. *)
Definition rank w : nat * nat := (work (queue w), delay (the_peer w)).
Definition nearer w' w : Prop :=
  (work (queue w') < work (queue w))%nat \/
  (work (queue w') = work (queue w) /\ (delay (the_peer w') < delay (the_peer w))%nat).

Definition active w : bool := CommQueueOps.isActive (queue w).

Lemma active_work w : active w = true <-> work (queue w) <> 0%nat.
Proof.
  unfold active, CommQueueOps.isActive, work, BlockingQueue.empty, BlockingMap.empty.
  case_decide as He.
  - rewrite He, map_size_empty. destruct (request (queue w)); cbn; split; (done || lia).
  - cbn [negb orb]. split; [|done]. intros _ Hw. apply He, map_size_empty_iff. lia.
Qed.

Lemma progress_round_result ng w b a w' :
  inv ng [] (view_of w) -> progress_round b w = (Ret a, w') ->
  (work (queue w') <= work (queue w))%nat /\
  (a = Return 1 -> request (queue w') <> []) /\
  (active w = true -> b = true \/ a <> Return 1 -> nearer w' w).
Proof.
  intros Hi E. unfold progress_round in E. apply bind_inv_Ret in E as ([r m] & w1 & E1 & E).
  unfold get_cmd in E1. destruct (urpc_get_cmd (the_peer w)) as [[r' m'] p] eqn:Eg.
  injection E1 as -> -> <-. unfold nearer. rewrite active_work.
  destruct (Z.leb_spec 0 r) as [Hr|Hr].
  { pose proof (receive_cases _ _ _ _ _ E) as Ha.
    apply receive_work in E. change (queue (set_up p w)) with (queue w) in E.
    split_and!; [lia| |lia]. by destruct Ha as [-> | ->]. }
  assert (Ho : outstanding p = outstanding (the_peer w)) by exact (get_none _ _ _ _ Eg Hr).
  assert (Hd : outstanding (the_peer w) <> [] -> (delay p < delay (the_peer w))%nat)
    by exact (poll_delay _ _ _ _ Eg Hr).
  assert (Hi1 : inv ng [] (view_of (set_up p w)))
    by (unfold view_of; change (the_peer (set_up p w)) with p; by rewrite Ho).
  assert (Hidle : request (queue w) = [] -> outstanding p = [] -> work (queue w) = 0%nat).
  { intros Hq Hn. pose proof (inflight_outstanding _ _ Hi1 Hn) as He.
    change (queue (set_up p w)) with (queue w) in He. unfold work.
    by rewrite Hq, He, map_size_empty. }
  apply bind_inv_Ret in E as (slot & w2 & [= <- <-] & E).
  change (the_peer (set_up p w)) with p in E.
  destruct (Z.ltb_spec (urpc_next_send_slot p) 0) as [Hs|Hs].
  { injection E as <- <-. split_and!; [done|done|]. intros _ _. right. split; [done|]. apply Hd.
    rewrite <- Ho. intros Hn%free_slot. lia. }
  apply bind_inv_Ret in E as (r1 & w3 & E3 & E).
  apply (submit_next_result _ _ _ _ _ Hi1) in E3.
  unfold put_back in E3. change (queue (set_up p w)) with (queue w) in E3.
  change (the_peer (set_up p w)) with p in E3.
  assert (Hc : (r1 = a /\ w3 = w' /\ a <> Idle) \/ (r1 = Idle /\ check_process w3 = (Ret a, w'))).
  { destruct r1; [left|by right|left]; by injection E as <- <-. }
  clear E. destruct Hc as [(-> & -> & Ha)|[-> Ec]].
  - destruct E3 as [[Hw Hn]|(Hw & Hdl & Hre & Hout)]; [split_and!; [lia|done|by left]|].
    split_and!; [lia|done|]. intros Hact Hb. right. split; [done|].
    apply (Nat.le_lt_trans _ _ _ Hdl), Hd. intros Hn. rewrite <- Ho in Hn.
    destruct (Hout Hn) as [Hq|[-> ->]]; [|by destruct Hb]. by apply Hact, (Hidle Hq).
  - apply check_process_result in Ec as [(-> & Hw2 & Hp2)|[-> Hw2]].
    2:{ split_and!; [lia|done|]. intros Hact _. left. lia. }
    rewrite Hw2, Hp2.
    destruct E3 as [[Hw Hn]|(Hw & Hdl & Hre & Hout)]; [split_and!; [lia|done|by left]|].
    split_and!; [lia|done|]. intros Hact _. right. split; [done|].
    apply (Nat.le_lt_trans _ _ _ Hdl), Hd. intros Hn. rewrite <- Ho in Hn.
    destruct (Hout Hn) as [Hq|[_ ?]]; [|done]. by apply Hact, (Hidle Hq).
Qed.

Lemma progress_loop_result n : forall ng w b v w',
  inv ng [] (view_of w) -> progress_loop n b w = (Ret v, w') ->
  inv ng [] (view_of w') /\
  (work (queue w') <= work (queue w))%nat /\
  (v = 1 -> request (queue w') <> []) /\
  (active w = true -> b = true \/ v <> 1 -> nearer w' w).
Proof.
  induction n as [|n IH]; intros ng w b v w' Hi E; [done|]. cbn [progress_loop] in E.
  apply bind_inv_Ret in E as (r & w1 & E1 & E).
  assert (Hi1 : inv ng [] (view_of w1)).
  { destruct (progress_round_sim b w) as [_ Hs].
    pose proof (steady_issued _ w (steady_progress_round b)) as Hn. rewrite E1 in Hn.
    pose proof (core_bound _ _ _ (proj1 Hi)) as Hbd. cbn [v_issued view_of snd] in *.
    apply (Hs ng r w1 Hi I E1). lia. }
  destruct (progress_round_result _ _ _ _ _ Hi E1) as (R1 & R2 & R3).
  destruct r as [| |v1].
  2:{ injection E as <- <-. split_and!; [done..|]. intros Ha _. apply R3; [done|]. by right. }
  2:{ injection E as <- <-. split_and!; [done|done|by intros ->; apply R2|]. intros Ha Hb.
      apply R3; [done|]. destruct Hb; [by left|right; congruence]. }
  destruct (IH _ _ _ _ _ Hi1 E) as (I1 & L1 & L2 & _). split_and!; [done|lia|done|].
  intros _ _. left. apply progress_round_work in E1. lia.
Qed.

Lemma progress_nolock_result ng w b v w' :
  inv ng [] (view_of w) -> _progress_nolock b w = (Ret v, w') ->
  inv ng [] (view_of w') /\
  (work (queue w') <= work (queue w))%nat /\
  (v = 1 -> request (queue w') <> []) /\
  (active w = true -> b = true \/ v <> 1 -> nearer w' w).
Proof. apply progress_loop_result. Qed.

Lemma nearer_wf : well_founded nearer.
Proof.
  apply (wf_incl _ _ (fun w' w => slexprod _ _ lt lt (rank w') (rank w))).
  - intros w' w [H|[H1 H2]]; unfold rank; [by left|]. rewrite H1. by right.
  - apply (wf_inverse_image _ _ (slexprod _ _ lt lt) rank). by apply wf_slexprod; apply lt_wf.
Qed.

(** ** Loops that wait *)

(** With enough rounds [f] gives one result, however many more there are. *)
Definition settles {A} (f : nat -> outcome A * world) (Q : outcome A -> world -> Prop) : Prop :=
  exists n0 o w', o <> NoFuel /\ (forall n, (n0 <= n)%nat -> f n = (o, w')) /\ Q o w'.

Lemma settles_now {A} (f : nat -> outcome A * world) (Q : outcome A -> world -> Prop) o w :
  o <> NoFuel -> (forall n, f (S n) = (o, w)) -> Q o w -> settles f Q.
Proof.
  intros Ho Hf HQ. exists 1%nat, o, w. split_and!; [done| |done].
  intros [|n] Hn; [lia|]. apply Hf.
Qed.

Lemma settles_later {A} (f g : nat -> outcome A * world) (Q : outcome A -> world -> Prop) :
  (forall n, f (S n) = g n) -> settles g Q -> settles f Q.
Proof.
  intros Hf (n0 & o & w & Ho & Hg & HQ). exists (S n0), o, w. split_and!; [done| |done].
  intros [|n] Hn; [lia|]. rewrite Hf. apply Hg. lia.
Qed.

Lemma settles_same {A} (f g : nat -> outcome A * world) (Q : outcome A -> world -> Prop) :
  (forall n, f n = g n) -> settles g Q -> settles f Q.
Proof.
  intros Hf (n0 & o & w & Ho & Hg & HQ). exists n0, o, w. split_and!; [done| |done].
  intros n Hn. rewrite Hf. by apply Hg.
Qed.

Lemma settles_const {A} (r : outcome A * world) (Q : outcome A -> world -> Prop) :
  fst r <> NoFuel -> Q (fst r) (snd r) -> settles (fun _ => r) Q.
Proof. intros Ho HQ. exists 0%nat, (fst r), (snd r). split_and!; [done| |done]. by destruct r. Qed.

(** Doing one thing after the other. *)
Lemma settles_bind {A B} (f : nat -> M world A) (k : nat -> A -> M world B) w
    (R : outcome A -> world -> Prop) (Q : outcome B -> world -> Prop) :
  settles (fun n => f n w) R ->
  (forall a w', R (Ret a) w' -> settles (fun n => k n a w') Q) ->
  (forall o w', (forall a, o <> Ret a) -> R o w' -> Q (recast o (fun _ => Undef)) w') ->
  settles (fun n => bind (f n) (k n) w) Q.
Proof.
  intros (n0 & o & w1 & Ho & Hf & HR) Hk Hq.
  assert (Hc : (exists a, o = Ret a) \/ forall a, o <> Ret a) by (destruct o; eauto).
  destruct Hc as [[a ->]|Hn].
  - destruct (Hk a w1 HR) as (n1 & o & w2 & Ho2 & Hg & HQ). exists (n0 + n1)%nat, o, w2.
    split_and!; [done| |done]. intros n Hn. unfold bind. rewrite Hf by lia. apply Hg. lia.
  - exists n0, (recast o (fun _ => Undef)), w1. split_and!; [by destruct o| |by apply Hq].
    intros n Hn0. unfold bind. rewrite Hf by done. by destruct o as [a| | | | |]; [destruct (Hn a)|..].
Qed.

Context `{VE : !VhEnds VF}.

(** [o] is a result, an exception or an error: the thread is not stuck. *)
Definition gets_out {A} (o : outcome A) : Prop := o <> NoFuel /\ o <> Blocked.

Lemma nolock_gets_out b w : gets_out (fst (_progress_nolock b w)).
Proof using L VH VE.
  split.
  - apply (progress_nolock_ends NoFuel); [by left|]. apply vh_returns.
  - apply (progress_nolock_ends Blocked); [by right|]. apply vh_wakes.
Qed.

(** A loop whose round starts with the progress function. *)
Lemma settles_nolock {A} b (k : nat -> Z -> M world A) w (Q : outcome A -> world -> Prop) :
  (forall v w', _progress_nolock b w = (Ret v, w') -> settles (fun n => k n v w') Q) ->
  (forall o w', (forall a, o <> Ret a) -> o <> Blocked -> Q o w') ->
  settles (fun n => bind (_progress_nolock b) (k n) w) Q.
Proof using L VH VE.
  intros Hk HQ. pose proof (nolock_gets_out b w) as [Hg1 Hg2].
  destruct (_progress_nolock b w) as [o w1] eqn:E.
  apply (settles_bind (fun _ => _progress_nolock b) k w
           (fun o' w' => o' <> Blocked /\ _progress_nolock b w = (o', w'))).
  - exists 0%nat, o, w1. by rewrite E.
  - intros v w' [_ E']. apply Hk. by rewrite E in E'.
  - intros o' w' Ho' [Hb _]. apply HQ; by destruct o' as [a| | | | |]; [destruct (Ho' a)|..].
Qed.

Definition drained ng {A} (o : outcome A) w : Prop :=
  o <> Blocked /\ forall a, o = Ret a -> inv ng [] (view_of w) /\ active w = false.

Lemma progressExec_settles ng w :
  inv ng [] (view_of w) -> settles (fun n => progressExec n w) (drained ng).
Proof using L VH RE VE.
  induction (nearer_wf w) as [w _ IH]. intros Hi.
  destruct (active w) eqn:Ha.
  2:{ apply (settles_now _ _ (Ret tt) w); [done| |split; [done|by split]].
      intros n. cbn [progressExec]. rewrite (bind_Ret _ _ w (active w) w) by done. by rewrite Ha. }
  assert (Hu : forall n, progressExec (S n) w = (_progress_nolock true ;;; progressExec n) w).
  { intros n. cbn [progressExec]. rewrite (bind_Ret _ _ w (active w) w) by done. by rewrite Ha. }
  apply (settles_later _ _ _ Hu).
  apply (settles_nolock true (fun n _ => progressExec n)).
  - intros v w' E'. destruct (progress_nolock_result _ _ _ _ _ Hi E') as (Hi' & _ & _ & Hn).
    apply IH; [|done]. apply Hn; [done|by left].
  - intros o w' Ho Hb. split; [done|]. intros a ->. by destruct (Ho a).
Qed.

Lemma inactive_empty w : active w = false -> request (queue w) = [] /\ inflight (queue w) = ∅.
Proof.
  intros Ha. assert (work (queue w) = 0%nat) as Hw.
  { destruct (Nat.eq_dec (work (queue w)) 0%nat) as [|Hn]; [done|].
    apply active_work in Hn. congruence. }
  unfold work in Hw. split; [apply length_zero_iff_nil|apply map_size_empty_iff]; lia.
Qed.

(** A request whose ID is remembered is completed once nothing is active. *)
Lemma inactive_completed ng w id :
  inv ng [] (view_of w) -> active w = false -> id ∈ remaining w ->
  exists c, completion (queue w) !! id = Some c.
Proof.
  intros Hi Ha Hr. destruct (rem_cases _ _ _ _ Hi Hr) as [Hp|]; [|done]. exfalso.
  destruct (inactive_empty _ Ha) as [Hq He].
  unfold pipeline in Hp. rewrite (flying_dead (view_of w) He) in Hp. cbn in Hp.
  rewrite Hq in Hp. by apply not_elem_of_nil in Hp.
Qed.

(** The state a polling thread is in: the lock is free. *)
Definition polling ng x w : Prop := inv ng [] (view_of w) /\ bystander w = (x, false, []).

Lemma nolock_polling ng x w b v w' :
  polling ng x w -> _progress_nolock b w = (Ret v, w') ->
  polling ng x w' /\ remaining w' ⊆ remaining w.
Proof using VH RE.
  intros [Hi Hb] E. destruct (progress_nolock_result _ _ _ _ _ Hi E) as (Hi' & _).
  pose proof (aside_progress_nolock b (x, false, []) (remaining w) w) as Ha.
  rewrite E in Ha. destruct Ha as [H1 H2]; [by split|]. split; [by split|done].
Qed.

(** How [poll_result] ends: it is left to wait only behind a queued request. *)
Definition polled ng x (o : outcome (option (Z * option Z))) w : Prop :=
  o <> Blocked /\ (o = Ret None -> polling ng x w /\ request (queue w) <> []).

Definition poll_round (n : nat) (id : Z) : M world (option (Z * option Z)) :=
  let! rv := _progress_nolock false in
  if 0 <? rv then ret None
  else
    let! r := _peekResult id in
    if negb (fst r =? VEO_COMMAND_UNFINISHED) then ret (Some r) else poll_result n id.

Lemma poll_unfold n id w : trylocks w = [] -> poll_result (S n) id w = poll_round n id w.
Proof.
  intros Ht. cbn [poll_result]. by rewrite (bind_Ret _ _ _ _ _ (try_lock_free w Ht)).
Qed.

Lemma positive_return n w b v w' : progress_loop n b w = (Ret v, w') -> 0 < v -> v = 1.
Proof.
  revert w. induction n as [|n IH]; intros w E Hv; [done|]. cbn [progress_loop] in E.
  apply bind_inv_Ret in E as (r & w1 & E1 & E). destruct r as [| |v1]; [by eapply IH| |].
  { injection E as <- _. lia. }
  injection E as -> ->. unfold progress_round in E1.
  apply bind_inv_Ret in E1 as ([r m] & w2 & _ & E1).
  destruct (0 <=? r). { apply receive_cases in E1 as [|[= ->]]; [done|lia]. }
  apply bind_inv_Ret in E1 as (slot & w3 & _ & E1). destruct (_ <? 0); [done|].
  apply bind_inv_Ret in E1 as (r1 & w4 & E4 & E1).
  destruct r1 as [| |v1]; [done| |].
  { apply check_process_result in E1 as [[? _]|[[= ->] _]]; [done|lia]. }
  injection E1 as -> ->. unfold submit_next in E4. apply bind_inv_Ret in E4 as ([c|] & w5 & _ & E4); [|done].
  destruct (is_vh c).
  - apply bind_inv_Ret in E4 as (fr & w6 & _ & E4). destruct (_ && _).
    + by apply bind_inv_Ret in E4 as ([rv c'] & w7 & _ & E4).
    + by injection E4 as <- _.
  - apply bind_inv_Ret in E4 as ([rv c'] & w7 & _ & E4).
    destruct (rv =? 0); [done|]. by destruct (rv =? - EAGAIN).
Qed.

(** Once the ID is not remembered, the next look tells so. *)
Lemma poll_gone ng x id w :
  polling ng x w -> id ∉ remaining w -> settles (fun n => poll_result n id w) (polled ng x).
Proof using L VH RE VE.
  intros Hp Hid. pose proof (proj2 Hp) as Hb. injection Hb as _ _ Ht.
  apply (settles_later _ (fun n => poll_round n id w)); [intros n; by apply poll_unfold|].
  apply settles_nolock.
  - intros v w' E'. destruct (nolock_polling _ _ _ _ _ _ Hp E') as [Hp' Hr'].
    destruct (progress_nolock_result _ _ _ _ _ (proj1 Hp) E') as (_ & _ & Hn & _).
    destruct (Z.ltb_spec 0 v) as [Hv|Hv].
    + apply (settles_now _ _ (Ret None) w'); [done|done|]. split; [done|]. intros _. split; [done|].
      by apply Hn, (positive_return _ _ _ _ _ E').
    + apply (settles_now _ _ (Ret (Some (VEO_COMMAND_ERROR, None))) w'); [done| |done].
      intros n. unfold _peekResult, bind, gets.
      rewrite bool_decide_eq_false_2 by set_solver. done.
  - intros o w' Ho Hbl. split; [done|]. intros ->. by destruct (Ho None).
Qed.

Lemma poll_settles ng x id w :
  polling ng x w -> settles (fun n => poll_result n id w) (polled ng x).
Proof using L VH RE VE.
  induction (nearer_wf w) as [w _ IH]. intros Hp. pose proof (proj2 Hp) as Hb. injection Hb as _ _ Ht.
  apply (settles_later _ (fun n => poll_round n id w)); [intros n; by apply poll_unfold|].
  apply settles_nolock.
  2:{ intros o w' Ho Hbl. split; [done|]. intros ->. by destruct (Ho None). }
  intros v w1 E1. destruct (nolock_polling _ _ _ _ _ _ Hp E1) as [Hp1 Hr1].
  destruct (progress_nolock_result _ _ _ _ _ (proj1 Hp) E1) as (_ & Hle & Hn & Hnear).
  destruct (Z.ltb_spec 0 v) as [Hv|Hv].
  { apply (settles_now _ _ (Ret None) w1); [done|done|]. split; [done|]. intros _. split; [done|].
    by apply Hn, (positive_return _ _ _ _ _ E1). }
  destruct (_peekResult_spec _ _ id _ (proj1 Hp1)) as (r & w2 & E2 & Hpk & _ & Ec).
  assert (Hp2 : polling ng x w2).
  { destruct (peekResult_sim id w1) as [_ Hs]. split.
    - pose proof (steady_issued _ w1 (steady_peekResult id)) as Hi. rewrite E2 in Hi.
      pose proof (core_bound _ _ _ (proj1 (proj1 Hp1))) as Hbd. cbn [v_issued view_of snd] in *.
      apply (Hs ng r w2 (proj1 Hp1) I E2). lia.
    - pose proof (aside_peekResult id (x, false, []) (remaining w1) w1) as Ha. rewrite E2 in Ha.
      apply Ha. by split; [apply Hp1|]. }
  eapply settles_same; [intros n; rewrite (bind_Ret _ _ _ _ _ E2); reflexivity|].
  destruct (Z.eqb_spec (fst r) VEO_COMMAND_UNFINISHED) as [Hun|Hun]; cbn [negb].
  2:{ apply (settles_now _ _ (Ret (Some r)) w2); [done|done|]. by split. }
  remember (view_of w2) as v2 eqn:Ev. destruct Hpk as [Hni|Hin Hc|c Hin Hc].
  - done.
  - assert (active w1 = true) as Ha.
    { destruct (active w1) eqn:Ha; [done|].
      destruct (inactive_completed _ _ _ (proj1 Hp1) Ha Hin) as [c Hc']. cbn in Hc. congruence. }
    assert (nearer w1 w) as Hw.
    { apply Hnear; [|right; lia]. apply active_work in Ha. apply active_work. lia. }
    apply IH; [|done]. unfold nearer. change (the_peer w2) with (up (ctx w2)). rewrite Ec. cbn [up].
    pose proof (f_equal v_q Ev) as Eq. cbn in Eq. by rewrite <- Eq.
  - apply poll_gone; [done|]. change (remaining w2) with (v_rem (view_of w2)). rewrite <- Ev. cbn.
    set_solver.
Qed.

(** ** Waiting for a result *)

Lemma progress_main_settles ng w :
  inv ng [] (view_of w) -> bystander w = (T_awake, false, []) ->
  settles (fun n => progress_main n w) (drained ng).
Proof using L VH RE VE.
  intros Hi Hb. injection Hb as Ht Hf _.
  eapply settles_same.
  { intros n. unfold progress_main. rewrite (bind_Ret _ _ w T_awake w) by (unfold gets; by rewrite Ht).
    rewrite (bind_Ret _ _ w false w) by (unfold gets; by rewrite Hf).
    rewrite (bind_Ret _ _ w tt (set_thread T_running w)) by done. reflexivity. }
  apply (settles_bind progressExec (fun _ _ => _) (set_thread T_running w) (drained ng)).
  - by apply progressExec_settles.
  - intros [] w' [_ Hd]. destruct (Hd tt eq_refl) as [Hi' Ha'].
    match goal with |- settles (fun _ => ?m w') _ =>
      assert (exists t, m w' = (Ret tt, set_thread t w')) as [t Et] end.
    { rewrite (bind_Ret _ _ w' (state (ctx w')) w') by done. case_decide; [by eexists|].
      rewrite (bind_Ret _ _ w' (terminateFlag (queue w')) w') by done.
      destruct (terminateFlag (queue w')); by eexists. }
    apply (settles_now _ _ (Ret tt) (set_thread t w')); [done|by intros; rewrite Et|].
    split; [done|]. intros _ _. by split.
  - intros o w' Ho [Hbl _]. split; destruct o as [a| | | | |]; try done; by destruct (Ho a).
Qed.

Lemma notify_wakes w x :
  x = T_asleep \/ x = T_awake -> bystander w = (x, false, []) -> request (queue w) <> [] ->
  exists w', notifyAll w = (Ret tt, w') /\ view_of w' = view_of w /\ bystander w' = (T_awake, false, []).
Proof.
  intros Hx Hb Hq. injection Hb as Ht Hf Hl. unfold notifyAll, CommQueueOps.notifyAll, BlockingQueue.empty.
  destruct (request (queue w)); [done|]. cbn [negb]. rewrite Ht.
  destruct Hx as [-> | ->]; eexists; (split; [reflexivity|split; [done|]]);
    unfold bystander, queue in *; cbn; by rewrite ?Ht, Hf, Hl.
Qed.

(** How a wait ends: blocked only when somebody else has taken the result. *)
Definition served {A} (id : Z) (o : outcome A) w : Prop := o = Blocked -> id ∉ remaining w.

Lemma wait_settles ng id w :
  inv ng [] (view_of w) -> bystander w = (T_awake, false, []) -> id ∈ remaining w ->
  settles (fun n => (let! c := waitCompletion n id in collect id c) w) (served id).
Proof using L VH RE VE.
  intros Hi Hb Hid.
  assert (Hc : forall w1, inv ng [] (view_of w1) ->
    let r := (let! c := on_comq (CommQueueOps.waitCompletion id) in collect id c) w1 in
    (active w1 = false \/ is_Some (completion (queue w1) !! id)) ->
    fst r <> NoFuel /\ served id (fst r) (snd r)).
  { intros w1 Hi1 r Hw. unfold r, bind, on_comq, on, CommQueueOps.waitCompletion, BlockingMap.wait,
      BlockingMap.tryFindNoWait.
    destruct (completion (queue w1) !! u64 id) as [c|] eqn:Ec.
    { unfold collect, bind, gets. by destruct (negb _). }
    cbn. split; [done|]. intros _ Hr. change (remaining _) with (remaining w1) in Hr.
    rewrite (inv_rem_u64 _ _ _ _ Hi1 Hr) in Ec. destruct Hw as [Hw|[c Hc]]; [|congruence].
    destruct (inactive_completed _ _ _ Hi1 Hw Hr) as [c Hc]. congruence. }
  eapply settles_same; [intros n; apply waitCompletion_unfold|].
  assert (Ew : fst (on_comq (CommQueueOps.waitCompletion id) w) = Blocked \/
               is_Some (completion (queue w) !! id) /\
               fst (on_comq (CommQueueOps.waitCompletion id) w) <> Blocked).
  { unfold on_comq, on, CommQueueOps.waitCompletion, BlockingMap.wait, BlockingMap.tryFindNoWait.
    rewrite (inv_rem_u64 _ _ _ _ Hi Hid). destruct (completion (queue w) !! id); [right|by left].
    split; [by eexists|done]. }
  destruct (on_comq (CommQueueOps.waitCompletion id) w) as [o w1]; cbn [fst] in Ew.
  destruct Ew as [->|[Hs Hne]].
  - apply (settles_bind progress_main (fun _ _ => _) w (drained ng)).
    + by apply progress_main_settles.
    + intros [] w' [_ Hd]. destruct (Hd tt eq_refl) as [Hi' Ha'].
      destruct (Hc w' Hi') as [H1 H2]; [by left|]. by apply settles_const.
    + intros o w' Ho [Hbl _]. intros Hx. destruct o as [a| | | | |]; try done; by destruct (Ho a).
  - destruct (Hc w Hi) as [H1 H2]; [by right|]. destruct o; try done; by apply settles_const.
Qed.

Lemma callWaitResult_settles ng x id w :
  x = T_asleep \/ x = T_awake -> polling ng x w ->
  settles (fun n => callWaitResult n id w) (served id).
Proof using L VH RE VE.
  intros Hx Hp. unfold callWaitResult.
  apply (settles_bind (fun n => poll_result n id) _ w (polled ng x)).
  - by apply poll_settles.
  - intros [r|] w1 [_ Hn]; [by apply settles_const|].
    destruct (Hn eq_refl) as [Hp1 Hq]. destruct (notify_wakes w1 x Hx (proj2 Hp1) Hq) as (w2 & E2 & Ev & Hb).
    pose proof (proj1 Hp1) as Hi. rewrite <- Ev in Hi.
    eapply settles_same; [intros n; rewrite (bind_Ret _ _ _ _ _ E2); by rewrite (bind_Ret _ _ w2 (remaining w2) w2)|].
    destruct (bool_decide (id ∈ remaining w2)) eqn:Hr; cbn [negb]; [|by apply settles_const].
    apply bool_decide_eq_true in Hr. by apply (wait_settles ng).
  - intros o w' Ho [Hbl _] Hz. destruct o as [a| | | | |]; try done; by destruct (Ho a).
Qed.
End Submit.

(** ** A VE process that is gone

    [silent]: the states of the connection from which no reply comes. *)

Section Death.
Context (silent : peer -> Prop).
Hypothesis silent_poll : forall p, silent p ->
  exists r m p', urpc_get_cmd p = (r, m, p') /\ r < 0 /\ silent p'.

Definition process_ended w : Prop := survival w = false \/ exists l, waitpids w = true :: l.

Lemma check_process_ended w :
  process_ended w -> count (ctx w) mod 100 = 0 ->
  exists w1, check_process w = exit_and_cancel w1 /\ view_of w1 = view_of w.
Proof.
  intros Hd Hc. unfold check_process. rewrite (bind_Ret _ _ w (count (ctx w)) w) by done.
  rewrite Hc. cbn [Z.eqb].
  assert (Hx : forall w1 (k : round -> M world round), (forall v, k (Return v) = ret (Return v)) ->
    bind exit_and_cancel k w1 = exit_and_cancel w1).
  { intros w1 k Hk. destruct (exit_and_cancel_work w1) as (w2 & E2 & _).
    by rewrite (bind_Ret _ _ _ _ _ E2), Hk, E2. }
  rewrite bind_assoc, (bind_Ret _ _ w (survival w) w) by done.
  destruct Hd as [-> |[l Hl]].
  { exists w. by rewrite Hx. }
  destruct (survival w) eqn:Es; [|exists w; by rewrite Hx].
  set (w1 := mkWorld (ctx w) (vh w) (survival w) l (trylocks w) (issued w)).
  rewrite bind_assoc, (bind_Ret _ _ w true w1) by (unfold child_ended; by rewrite Hl).
  rewrite bind_assoc, (bind_Ret _ _ w1 tt (set_survival false w1)) by done.
  exists (set_survival false w1). by rewrite Hx.
Qed.

Lemma check_process_counts w :
  count (ctx w) mod 100 <> 0 ->
  check_process w = (Ret Idle, set_count (u64 (count (ctx w) + 1)) w).
Proof.
  intros Hc. unfold check_process. rewrite (bind_Ret _ _ w (count (ctx w)) w) by done.
  destruct (Z.eqb_spec (count (ctx w) mod 100) 0); [done|]. by rewrite (bind_Ret _ _ w Idle w).
Qed.

(** With nothing to send, a round polls and checks the process. *)
Lemma silent_round b w :
  silent (the_peer w) -> (forall p, silent p -> 0 <= urpc_next_send_slot p) ->
  request (queue w) = [] ->
  exists p, silent p /\ outstanding p = outstanding (the_peer w) /\
    progress_round b w = check_process (set_up p w).
Proof using VH silent_poll.
  intros Hs Hf Hq. destruct (silent_poll _ Hs) as (r & m & p & E & Hr & Hp).
  exists p. split_and!; [done|by eapply get_none|]. unfold progress_round.
  rewrite (bind_Ret _ _ w (r, m) (set_up p w)) by (unfold get_cmd; by rewrite E).
  destruct (Z.leb_spec 0 r); [lia|].
  rewrite (bind_Ret _ _ _ (urpc_next_send_slot p) (set_up p w)) by done.
  destruct (Z.ltb_spec (urpc_next_send_slot p) 0) as [Hn|_]; [pose proof (Hf _ Hp); lia|].
  by rewrite (bind_Ret _ _ _ _ _ (submit_nothing b (set_up p w) Hq)).
Qed.

(** The steps to the next check. *)
Definition until_check (n : Z) : nat := Z.to_nat ((- n) mod 100).

Lemma until_check_next n :
  0 <= n < 2 ^ 64 -> n mod 100 <> 0 ->
  (until_check (u64 (n + 1)) < until_check n)%nat.
Proof.
  intros Hn Hm. unfold until_check.
  pose proof (Z.mod_pos_bound (- n) 100 ltac:(lia)) as B1.
  pose proof (Z.div_mod n 100 ltac:(lia)) as D. pose proof (Z.mod_pos_bound n 100 ltac:(lia)) as B2.
  assert (Ha : (- n) mod 100 = 100 - n mod 100).
  { symmetry. apply (Z.mod_unique_pos _ _ (- (n / 100) - 1)); lia. }
  destruct (Z.eq_dec n (2 ^ 64 - 1)) as [->|Hne].
  - apply Nat.ltb_lt. vm_compute. reflexivity.
  - rewrite u64_small by lia.
    assert (Hb : (- (n + 1)) mod 100 = 100 - n mod 100 - 1).
    { symmetry. apply (Z.mod_unique_pos _ _ (- (n / 100) - 1)); lia. }
    rewrite Ha, Hb. lia.
Qed.

(** All that was in flight has failed. *)
Definition all_failed w w' : Prop :=
  state (ctx w') = VEO_STATE_EXIT /\ request (queue w') = [] /\ inflight (queue w') = ∅ /\
  forall k c, inflight (queue w) !! k = Some c ->
    exists d, completion (queue w') !! msgid c = Some d /\ status d = VEO_COMMAND_ERROR.

Lemma exit_and_cancel_fails ng w v w1 :
  inv ng [] (view_of w) -> exit_and_cancel w = (Ret v, w1) -> all_failed w w1.
Proof.
  intros Hi E. destruct (cancelAll_spec [] (queue w)) as (q' & Eq & R & F & Hc);
    [exact (core_queue _ _ _ (proj1 Hi))|].
  unfold exit_and_cancel in E. rewrite (bind_Ret _ _ w tt (set_state VEO_STATE_EXIT w)) in E by done.
  rewrite (bind_Ret _ _ _ tt (set_comq q' (set_state VEO_STATE_EXIT w))) in E
    by (unfold on_comq, on; change (queue (set_state VEO_STATE_EXIT w)) with (queue w); by rewrite Eq).
  injection E as _ <-. split_and!; [done..|]. intros k c Hk.
  exists (setResult 0 VEO_COMMAND_ERROR c). split; [|done].
  apply (can_done _ _ _ _ Hc). right. eauto.
Qed.

(** The process is looked at within 100 idle calls of the progress function. *)
Lemma progressExec_notices ng n w :
  inv ng [] (view_of w) -> silent (the_peer w) ->
  (forall p, silent p -> 0 <= urpc_next_send_slot p) ->
  request (queue w) = [] -> inflight (queue w) <> ∅ -> process_ended w ->
  0 <= count (ctx w) < 2 ^ 64 -> (until_check (count (ctx w)) < n)%nat ->
  exists w', progressExec n w = (Ret tt, w') /\ all_failed w w'.
Proof using VH silent_poll.
  intros Hi Hs Hf Hq Hne Hd. revert w Hi Hs Hq Hne Hd.
  induction n as [|n IH]; intros w Hi Hs Hq Hne Hd Hc Hn; [lia|].
  assert (Ha : active w = true).
  { apply active_work. unfold work. rewrite Hq. cbn. by intros ?%map_size_empty_iff. }
  cbn [progressExec]. rewrite (bind_Ret _ _ w (active w) w), Ha by done. cbn [negb].
  destruct (silent_round true w Hs Hf Hq) as (p & Hp & Ho & Er).
  assert (Ev : view_of (set_up p w) = view_of w)
    by (unfold view_of; change (the_peer (set_up p w)) with p; by rewrite Ho).
  destruct (Z.eq_dec (count (ctx w) mod 100) 0) as [Hz|Hz].
  - destruct (check_process_ended (set_up p w) Hd Hz) as (w1 & E1 & Ev1).
    rewrite Ev in Ev1. rewrite <- Ev1 in Hi.
    destruct (exit_and_cancel_work w1) as (w2 & E2 & W2 & _). rewrite E2 in E1. rewrite E1 in Er.
    pose proof (exit_and_cancel_fails _ _ _ _ Hi E2) as Hall.
    rewrite (bind_Ret _ _ w (-1) w2).
    2:{ unfold _progress_nolock. cbn [progress_loop]. by rewrite (bind_Ret _ _ _ _ _ Er). }
    assert (active w2 = false) as Ha2.
    { destruct (active w2) eqn:Hx; [|done]. apply active_work in Hx. lia. }
    exists w2. split.
    + destruct n; cbn [progressExec]; by rewrite (bind_Ret _ _ w2 (active w2) w2), Ha2.
    + unfold all_failed in *. pose proof (f_equal v_q Ev1) as Eq. cbn in Eq. by rewrite <- Eq.
  - pose proof (check_process_counts (set_up p w) Hz) as E1. rewrite E1 in Er.
    set (w1 := set_count _ _) in Er.
    rewrite (bind_Ret _ _ w 0 w1).
    2:{ unfold _progress_nolock. cbn [progress_loop]. by rewrite (bind_Ret _ _ _ _ _ Er). }
    destruct (IH w1) as (w' & E' & Hall); try done.
    + by rewrite <- Ev in Hi.
    + apply u64_range.
    + pose proof (until_check_next _ Hc Hz). unfold w1. cbn in *. lia.
    + by exists w'.
Qed.

(** The two situations in which it is not looked at. *)
Definition unseen w : Prop :=
  silent (the_peer w) /\ inflight (queue w) <> ∅ /\
  ((exists c l, request (queue w) = c :: l /\ is_vh c = true) \/
   (forall p, silent p -> urpc_next_send_slot p < 0)).

Lemma unseen_round b w :
  unseen w -> exists a w', progress_round b w = (Ret a, w') /\ a <> Again /\ unseen w'.
Proof using VH silent_poll.
  intros (Hs & Hne & Hc). destruct (silent_poll _ Hs) as (r & m & p & E & Hr & Hp).
  unfold progress_round. rewrite (bind_Ret _ _ w (r, m) (set_up p w)) by (unfold get_cmd; by rewrite E).
  destruct (Z.leb_spec 0 r); [lia|].
  rewrite (bind_Ret _ _ _ (urpc_next_send_slot p) (set_up p w)) by done.
  assert (Hu : unseen (set_up p w)) by done.
  destruct (Z.ltb_spec (urpc_next_send_slot p) 0) as [Hn|Hn]; [by eexists _, _|].
  destruct Hc as [(c & l & Hq & Hvh)|Hc]; [|pose proof (Hc _ Hp); lia].
  exists (Return 1), (set_up p w). split_and!; [|done|done].
  rewrite (bind_Ret _ _ _ (Return 1) (set_up p w)); [done|].
  apply (delayed_vh c l); by try left.
Qed.

Lemma unseen_progressExec n w : unseen w -> fst (progressExec n w) = NoFuel.
Proof using VH silent_poll.
  revert w. induction n as [|n IH]; intros w Hu.
  all: assert (Ha : active w = true) by (unfold active, CommQueueOps.isActive, BlockingMap.empty;
    destruct Hu as (_ & Hne & _); by rewrite decide_False).
  all: cbn [progressExec]; rewrite (bind_Ret _ _ w (active w) w), Ha by done; cbn [negb].
  { done. }
  destruct (unseen_round true w Hu) as (a & w1 & E & Hn & Hu1).
  assert (exists v, _progress_nolock true w = (Ret v, w1)) as [v Ev].
  { unfold _progress_nolock. cbn [progress_loop]. rewrite (bind_Ret _ _ _ _ _ E).
    destruct a; [done|by eexists..]. }
  rewrite (bind_Ret _ _ _ _ _ Ev). by apply IH.
Qed.
End Death.
End Liveness.

(** ** Properties *)

Section Properties.
Context `{U : Urpc} `{L : !UrpcLaws U} `{IN : Indet} `{VF : !VhFuncs} `{VH : !VhLocal VF} `{BO : BucketOrder} `{E : Env}.


(** C13: the progress thread empties the queues.  On a VE that answers, with VH
  functions that end, [progressExec] ends in every state a run reaches; when it
  returns (no command's function has thrown), no request is queued or in flight,
  and every request whose result has not been collected is completed, with a final
  status unless it is a generic request answered by [URPC_CMD_RES_STK]. *)
Theorem progressExec_drains `{RE : !Responsive U} `{VE : !VhEnds VF} w0 w :
  initial w0 -> run_to w0 w -> issued w < 2 ^ 64 ->
  exists n0 o w', (forall n, (n0 <= n)%nat -> progressExec n w = (o, w')) /\
    o <> NoFuel /\ o <> Blocked /\
    (o = Ret tt -> request (queue w') = [] /\ inflight (queue w') = ∅ /\
       forall id, id ∈ remaining w' -> exists c, completion (queue w') !! id = Some c /\ settled c).
Proof.
  intros Hi Hr Hb. destruct (run_history _ _ Hi Hr Hb) as [Hinv _].
  destruct (progressExec_settles no_id w Hinv) as (n0 & o & w' & Ho & Hn & Hbl & Hd).
  exists n0, o, w'. split_and!; [done..|]. intros ->. destruct (Hd tt eq_refl) as [Hi' Ha].
  destruct (inactive_empty _ Ha) as [Hq Hf]. split_and!; [done..|]. intros id Hid.
  destruct (inactive_completed _ _ _ Hi' Ha Hid) as [c Hc]. exists c. split; [done|].
  apply (core_done _ _ _ (proj1 Hi') _ _ Hc).
Qed.

(** C14: the end of the VE process is noticed, with two exceptions.  Suppose no
  reply comes any more and the process has ended.  With requests in flight and
  none queued, and a free slot, the progress thread marks the context as exited
  and fails everything in flight within 100 calls of the progress function.  But
  when a VH request heads the queue, or no slot is free, it never looks at the
  process and goes on for ever. *)
Theorem ve_death_noticed (silent : peer -> Prop) w0 w :
  (forall p, silent p -> exists r m p', urpc_get_cmd p = (r, m, p') /\ r < 0 /\ silent p') ->
  initial w0 -> run_to w0 w -> issued w < 2 ^ 64 -> 0 <= count (ctx w) < 2 ^ 64 ->
  silent (the_peer w) -> inflight (queue w) <> ∅ -> process_ended w ->
  ((forall p, silent p -> 0 <= urpc_next_send_slot p) -> request (queue w) = [] ->
   exists w', progressExec 100 w = (Ret tt, w') /\ all_failed w w') /\
  ((exists c l, request (queue w) = c :: l /\ is_vh c = true) \/
   (forall p, silent p -> urpc_next_send_slot p < 0) ->
   forall n, fst (progressExec n w) = NoFuel).
Proof.
  intros Hs Hi Hr Hb Hc Hp Hne Hd. destruct (run_history _ _ Hi Hr Hb) as [Hinv _]. split.
  - intros Hf Hq. apply (progressExec_notices silent Hs no_id); try done.
    unfold until_check. pose proof (Z.mod_pos_bound (- count (ctx w)) 100 ltac:(lia)). lia.
  - intros Hu n. by apply (unseen_progressExec silent Hs).
Qed.
End Properties.

(** ** Examples *)

(** A connection as in [Ve.v] on which the VE answers every message: with an
    exception those it has no handler for. *)
Section Prompt.
Context `{IN : Indet} `{MA : Machine} (max_cmd_size : Z) (latency : nat).

Definition prompt_get (p : link) : Z * (Z * list uval) * link :=
  match l_sent p, l_lag p with
  | [], _ => (-1, (0, []), p)
  | _, S lag => (-1, (0, []), mkLink (l_base p) (l_sent p) lag (l_ve p))
  | (cmd, args) :: l, O =>
      let '(m, s) := dispatch cmd args (l_ve p) in
      (Z.of_nat (l_base p), default (URPC_CMD_EXCEPTION, []) m, mkLink (S (l_base p)) l 0 s)
  end.

Definition prompt_urpc : Urpc := {|
  peer := link;
  payload := list uval;
  urpc_generic_send := link_send latency;
  urpc_get_cmd := prompt_get;
  urpc_next_send_slot := fun p => if (length (l_sent p) <? link_slots)%nat then 0 else -1;
  urpc_slot_done := fun p _ => p;
  urpc_max_send_cmd_size := fun _ => max_cmd_size;
  urpc_get_receiver_flags := fun p => if __veo_finish (l_ve p) then 3 else 1;
  urpc_recv_req_timeout := link_recv;
  payload_len := fun pl => Z.of_nat (length pl);
  urpc_unpack_payload := fun pl _ => (0, pl);
  URPC_FLAG_EXITED := 2;
  ALIGN8B := align_up 8;
|}.

Definition prompt_laws : UrpcLaws prompt_urpc.
Proof.
  pose proof (link_laws max_cmd_size latency) as K.
  refine (@Build_UrpcLaws prompt_urpc (link_outstanding : @peer prompt_urpc -> list Z)
    (@send_outstanding _ (link_laws max_cmd_size latency))
    (@send_failed _ (link_laws max_cmd_size latency))
    (@send_int _ (link_laws max_cmd_size latency)) _ _
    (@done_outstanding _ (link_laws max_cmd_size latency))
    (@align8b_ge _ (link_laws max_cmd_size latency))).
  - intros p r m p' E Hr. cbn in E. unfold prompt_get in E.
    destruct (l_sent p) as [|[cmd args] l] eqn:El; [injection E as <- _ _; lia|].
    destruct (l_lag p) as [|lag]; [|injection E as <- _ _; lia].
    destruct (dispatch cmd args (l_ve p)) as [m0 s]. injection E as <- _ <-.
    unfold link_outstanding. by rewrite El.
  - intros p r m p' E Hr. cbn in E. unfold prompt_get in E.
    destruct (l_sent p) as [|[cmd args] l] eqn:El; [by injection E as _ _ <-|].
    destruct (l_lag p) as [|lag]; [|injection E as _ _ <-; unfold link_outstanding; by rewrite El].
    destruct (dispatch cmd args (l_ve p)) as [m0 s]. injection E as <- _ _. lia.
Defined.

Definition prompt_responsive : @Responsive prompt_urpc prompt_laws.
Proof.
  refine (@Build_Responsive prompt_urpc prompt_laws (l_lag : @peer prompt_urpc -> nat) _ _ _ _).
  - intros p r m p' E Hr Ho. cbn in E. unfold prompt_get in E.
    destruct (l_sent p) as [|[cmd args] l] eqn:El.
    { destruct Ho. cbn. unfold link_outstanding. by rewrite El. }
    destruct (l_lag p) as [|lag]; [|injection E as _ _ <-; cbn; lia].
    destruct (dispatch cmd args (l_ve p)) as [m0 s]. injection E as <- _ _. lia.
  - intros p cmd fmt args r p' E Hr. cbn in E. unfold link_send in E.
    destruct (_ <? link_slots)%nat; [destruct (l_next p <? 2 ^ 31)|]; injection E as <- <-; [|lia..].
    unfold l_next in Hr. lia.
  - intros p Ho%(f_equal length). cbn in Ho |- *. unfold link_outstanding in Ho.
    rewrite length_fmap, length_seq in Ho. change (length (A := Z) []) with 0%nat in Ho. by rewrite Ho.
  - intros p cmd fmt args r p' Ho%(f_equal length) E. cbn in Ho, E. unfold link_outstanding in Ho.
    rewrite length_fmap, length_seq in Ho. change (length (A := Z) []) with 0%nat in Ho.
    unfold link_send in E. rewrite Ho in E. cbn in E. unfold EAGAIN.
    destruct (l_next p <? 2 ^ 31); injection E as <- _; unfold l_next; lia.
Defined.
End Prompt.

Definition demo_vh_ends `{Urpc} : VhEnds demo_vh.
Proof. split; intros f a h; apply ends_in_Ret. Defined.

Definition live_urpc : Urpc := @prompt_urpc demo_indet demo_machine (8 * 1024 * 1024) 1.
Definition live_laws : UrpcLaws live_urpc := @prompt_laws demo_indet demo_machine (8 * 1024 * 1024) 1.
Definition live_responsive : @Responsive live_urpc live_laws :=
  @prompt_responsive demo_indet demo_machine (8 * 1024 * 1024) 1.

Definition live_world : @world live_urpc :=
  @mkWorld live_urpc
    (@mkContext live_urpc new_CommQueue VEO_STATE_RUNNING false 0 demo_sp demo_peer ∅ 0 T_asleep)
    (mkHeap (fun x => x mod 256) 8192 ∅) true [] [] 0.

Abbreviation live_run := (@run_to live_urpc live_laws demo_indet demo_vh list_order demo_env).
Abbreviation live_perform_all := (@perform_all live_urpc demo_indet demo_vh list_order demo_env).

(** A write in flight, and a VH command behind it. *)
Definition live_mid : @world live_urpc :=
  live_perform_all [Op_asyncWriteMem 3 65536 8192 100; Op_callVHAsync (user_func 5) 2] live_world.

Lemma live_initial : @initial live_urpc live_laws live_world.
Proof. by split_and!. Qed.

Lemma live_mid_run : live_run live_world live_mid.
Proof. apply perform_all_run; [constructor|]. vm_compute. reflexivity. Qed.


Lemma progressExec_drains_witness :
  exists n0 o w', (forall n, (n0 <= n)%nat ->
      @progressExec live_urpc demo_indet demo_vh list_order n live_mid = (o, w')) /\
    o <> NoFuel /\ o <> Blocked /\
    (o = Ret tt -> request (queue w') = [] /\ inflight (queue w') = ∅ /\
       forall id, id ∈ remaining w' -> exists c, completion (queue w') !! id = Some c /\ settled c).
Proof.
  apply (@progressExec_drains live_urpc live_laws demo_indet demo_vh demo_local list_order demo_env
           live_responsive demo_vh_ends live_world live_mid live_initial live_mid_run).
  vm_compute. reflexivity.
Defined.

(** A message the VE does not answer, and the process gone. *)
Definition unanswered (p : @peer demo_urpc) : Prop := l_sent (p : link) = [(99, [VL 5])].

Definition mute_world : @world demo_urpc :=
  set_survival false (demo_perform_all [Op_genericAsyncReq 99 "L" [SA_L 5]] demo_world).

Lemma survival_env {U : Urpc} {L : UrpcLaws U} b (w : world) :
  view_of (set_survival b w) = view_of w.
Proof. reflexivity. Qed.

Lemma mute_run : demo_run demo_world mute_world.
Proof.
  eapply run_step; [|apply step_env, survival_env].
  apply perform_all_run; [constructor|]. vm_compute. reflexivity.
Qed.

Lemma ve_death_noticed_witness :
  exists w', @progressExec demo_urpc demo_indet demo_vh list_order 100 mute_world = (Ret tt, w') /\
    all_failed mute_world w'.
Proof.
  apply (@ve_death_noticed demo_urpc demo_laws demo_indet demo_vh demo_local list_order demo_env unanswered
           demo_world mute_world).
  - intros [b s lag v] Hs. change (s = [(99, [VL 5])]) in Hs. subst s. destruct lag as [|lag]; eexists _, _, _; by split_and!.
  - exact demo_initial.
  - exact mute_run.
  - vm_compute. reflexivity.
  - assert (Hz : count (ctx mute_world) = 1) by (vm_compute; reflexivity). rewrite Hz. lia.
  - assert (Hz : l_sent (the_peer mute_world : link) = [(99, [VL 5])]) by (vm_compute; reflexivity).
    exact Hz.
  - intros Hf. assert (Hz : size (inflight (queue mute_world)) = 1%nat) by (vm_compute; reflexivity).
    by rewrite Hf, map_size_empty in Hz.
  - left. reflexivity.
  - intros [b s lag v] Hs. change (s = [(99, [VL 5])]) in Hs. by subst s.
  - vm_compute. reflexivity.
Defined.
