(* ===== verification/Exchange.v ===== *)
(** * Exchanges with the VE from end to end

    Puts the parts together: a context of the VH library, connected to the
    message handlers of the VE process ([link_urpc] of [Ve.v]), exchanges messages
    with them.  [Exchange] states what a command has to promise: the message it
    sends, the reply of the handler, and what the two sides have done in the end.
    The invariant [moving] says what the memories will be once all commands under
    way are through; every step of the progress function, on whichever side,
    leaves that alone.  VH commands may wait in the queue behind them; as long as
    none is executed, the functions of the application ([VhFuncs]) do not matter.
    [EndToEnd.v], [RemoteCall.v] and [Services.v] give the promises for transfers,
    for calls and for the requests of a process. *)

From Stdlib Require Import ZArith Lia Bool.
From stdpp Require Import base gmap list numbers sets strings.
From S2P Require Import Prelude CallArgs Command Urpc Ve Context Example Requests Progress.
From S2P Require Import AsyncTransfer Calls Lifecycle Liveness.

Open Scope Z_scope.

(** ** Pieces *)

(** One command: its request ID, the ID of the request it is chained to, and what
    it is to do. *)
Record piece (T : Type) := mkPiece { p_id : Z; p_prev : Z; p_what : T }.
Arguments mkPiece {T} _ _ _.
Arguments p_id {T} _.
Arguments p_prev {T} _.
Arguments p_what {T} _.

(** The results at hand are request IDs with their values. *)
Definition without (id : Z) (K : list (Z * Z)) : list (Z * Z) := filter (fun r => r.1 <> id) K.

(** A command can be chained to a request that has ended with 0. *)
Definition linked_to (prev : Z) (K : list (Z * Z)) : Prop :=
  prev = VEO_REQUEST_ID_INVALID \/ (prev, 0) ∈ K.

Lemma elem_of_without r id K : r ∈ without id K <-> r.1 <> id /\ r ∈ K.
Proof. unfold without. by rewrite list_elem_of_filter. Qed.

Lemma without_head id v K : without id ((id, v) :: K) = without id K.
Proof. unfold without. rewrite filter_cons_False; [done|]. cbn. tauto. Qed.

Lemma without_fresh id K : Forall (fun r => r.1 <> id) K -> without id K = K.
Proof. unfold without. induction 1 as [|r K Hr _ IH]; [done|]. by rewrite filter_cons_True, IH. Qed.

(** ** What a command exchanges with the VE *)

(** The stack pointer the context has, the code of the command, its message, the
    reply of the VE, what both sides have done afterwards and the value of the
    result; [ex_able] says when all that is possible, [ex_chain] whether a later
    command can be chained to it or take its result. *)
Class Exchange (T : Type) `{MA : Machine} := {
  ex_sp : Z;
  ex_code : Z -> T -> closure;
  ex_message : heap -> T -> Z * list uval;
  ex_reply : heap * ve -> T -> Z * list uval;
  ex_effect : heap * ve -> T -> heap * ve;
  ex_value : heap * ve -> T -> Z;
  ex_able : heap * ve -> T -> Prop;
  ex_chain : bool;
}.

Section Exchange.
Context `{IN : Indet} `{MA : Machine} {max_cmd_size : Z} {latency : nat}.

#[local] Instance wire : Urpc := link_urpc max_cmd_size latency.
#[local] Instance wire_laws : UrpcLaws wire := link_laws max_cmd_size latency.

Context `{BO : BucketOrder} `{E : Env}.

Implicit Types (w : world).

Definition wire_of w : link := the_peer w.
Definition ve_of w : ve := l_ve (wire_of w).

(** The context works, the VE process lives, nobody else holds the lock. *)
Record calm w : Prop := {
  calm_state : state (ctx w) <> VEO_STATE_EXIT;
  calm_ve : __veo_finish (ve_of w) = false;
  calm_survival : survival w = true /\ waitpids w = [];
  calm_lock : trylocks w = [];
}.

Lemma calm_alive w : calm w -> is_alive w = true.
Proof.
  intros [C1 C2 _ _]. unfold is_alive. rewrite decide_False by done.
  change (urpc_get_receiver_flags (the_peer w)) with (if __veo_finish (ve_of w) then 3 else 1).
  by rewrite C2.
Qed.

(** The request [id] is waited for, and its result is there. *)
Definition finished (id v : Z) w : Prop :=
  id ∈ remaining w /\
  exists c, completion (queue w) !! id = Some c /\ status c = VEO_COMMAND_OK /\ retval c = v.

(** Nothing else in the context changes when the next message is sent. *)
Definition sent (m : Z * list uval) w : world :=
  set_up (mkLink (l_base (wire_of w)) (l_sent (wire_of w) ++ [m]) latency (ve_of w) : @peer wire) w.

(** What the functions of a command do when the exchange is possible: the submit
    function sends the message, the handler answers, and the result function ends
    with the value; it may take the result of the request before. *)
Class ExchangeLaws {T} (X : Exchange T) := {
  ex_kind : forall prev t, closure_vh (ex_code prev t) = false /\
    forall d, d ∈ deps (ex_code prev t) -> d = prev /\ d <> VEO_REQUEST_ID_INVALID;
  ex_specific : ex_chain = true ->
    forall id prev t, is_generic (CommandImpl_ve id (ex_code prev t)) = false;
  ex_u64 : forall hs t, u64 (ex_value hs t) = ex_value hs t;
  ex_submit : forall (VF : VhFuncs) hs prev t c w,
    ex_able hs t -> code c = ex_code prev t -> ve_sp (ctx w) = ex_sp ->
    (length (l_sent (wire_of w)) < link_slots)%nat -> l_next (wire_of w) < 2 ^ 31 ->
    run_submit c w = (Ret (0, setURPCReq (l_next (wire_of w)) VEO_COMMAND_UNFINISHED c),
                      sent (ex_message (vh w) t) w);
  ex_dispatch : forall h s t,
    ex_able (h, s) t ->
    dispatch (fst (ex_message h t)) (snd (ex_message h t)) s =
      (Some (ex_reply (h, s) t), snd (ex_effect (h, s) t));
  ex_unpack : forall ng hand prev t c s w,
    inv ng hand (view_of w) -> ex_able (vh w, s) t -> code c = ex_code prev t ->
    prev = VEO_REQUEST_ID_INVALID \/ finished prev 0 w ->
    exists R D, run_unpack c (ex_reply (vh w, s) t) w =
      (Ret (0, setResult (ex_value (vh w, s) t) VEO_COMMAND_OK c),
        set_rem R (set_comq (set_completion D (queue w)) (set_vh (fst (ex_effect (vh w, s) t)) w))) /\
      (forall k, k <> prev -> D !! k = completion (queue w) !! k) /\
      (forall k, k <> prev -> k ∈ remaining w -> k ∈ R);
  ex_finish : forall hs t,
    ex_able hs t -> __veo_finish (snd (ex_effect hs t)) = __veo_finish (snd hs);
}.

(** Sending succeeds while there are slots, and an ID that is no error code is noted. *)
Lemma send_calm cmd fmt args w :
  (length (l_sent (wire_of w)) < link_slots)%nat -> l_next (wire_of w) < 2 ^ 31 ->
  urpc_generic_send (the_peer w) cmd fmt args =
    (l_next (wire_of w), the_peer (sent (cmd, args) w)).
Proof.
  intros Hl Hn.
  change (urpc_generic_send (the_peer w) cmd fmt args) with (link_send latency (wire_of w) cmd fmt args).
  unfold link_send. destruct (Nat.ltb_spec (length (l_sent (wire_of w))) link_slots); [|lia].
  by destruct (Z.ltb_spec (l_next (wire_of w)) (2 ^ 31)); [|lia].
Qed.

Lemma submitted_calm c w w' :
  submitted (l_next (wire_of w)) c w' =
    (Ret (0, setURPCReq (l_next (wire_of w)) VEO_COMMAND_UNFINISHED c), w').
Proof.
  unfold submitted. destruct (Z.leb_spec 0 (l_next (wire_of w))) as [|Hlt]; [done|].
  unfold l_next in Hlt. lia.
Qed.

(** Commands of the queue that start with a VH command. *)
Definition vh_first (tail : list Command) : Prop :=
  match tail with [] => True | c :: _ => is_vh c = true end.

Section Kind.
Context {T : Type} (X : Exchange T) `{XL : !ExchangeLaws X} (bound : Z) (tail : list Command).
Implicit Types (x : piece T).

(** The command of a piece. *)
Definition carries x (c : Command) : Prop :=
  msgid c = p_id x /\ code c = ex_code (p_prev x) (p_what x) /\ is_vh c = false /\ nowait c = false.

Definition message (h : heap) x : Z * list uval := ex_message h (p_what x).
Definition effect (hs : heap * ve) x : heap * ve := ex_effect hs (p_what x).

(** What both sides have done and which results are there when the piece is through:
    its own, and the others but the one it has taken. *)
Definition settle (st : heap * ve * list (Z * Z)) x : heap * ve * list (Z * Z) :=
  (effect (fst st) x, (p_id x, ex_value (fst st) (p_what x)) :: without (p_prev x) (snd st)).

(** Each piece is possible when the ones before are through, and they leave the
    message alone it may have sent already. *)
Fixpoint able (st : heap * ve * list (Z * Z)) (l : list (piece T)) : Prop :=
  match l with
  | [] => True
  | x :: l => ex_able (fst st) (p_what x) /\ linked_to (p_prev x) (snd st) /\
      Forall (fun y => message (fst (effect (fst st) x)) y = message (fst (fst st)) y) l /\
      able (settle st x) l
  end.

(** The results are there. *)
Definition ready (K : list (Z * Z)) w : Prop := Forall (fun r => finished r.1 r.2 w) K.

(** Nothing but the pieces [rest] is under way, and the commands [tail] wait behind
    them; the results [kept] are there; the numbers ve-urpc gives to the requests stay
    below [bound]. *)
Record underway (ng : Z -> Prop) (kept : list (Z * Z)) (rest : list (piece T)) w : Prop := {
  uw_inv : inv ng [] (view_of w);
  uw_calm : calm w;
  uw_sp : ve_sp (ctx w) = ex_sp;
  uw_pipe : exists l, Forall2 carries rest l /\ pipeline (view_of w) = l ++ tail;
  uw_tail : vh_first tail;
  uw_sent : l_sent (wire_of w) = message (vh w) <$> take (length (l_sent (wire_of w))) rest;
  uw_ready : ready kept w;
  uw_able : able (vh w, ve_of w, kept) rest;
  uw_room : Z.of_nat (l_base (wire_of w) + length rest) < bound <= 2 ^ 31;
}.

(** Later commands may be chained to the requests [K], or take their results. *)
Definition followed (ng : Z -> Prop) (K : list (Z * Z)) : Prop :=
  ex_chain = true -> Forall (fun r => ng r.1) K.

(** [moving Q tgt K w]: when the pieces under way, all of the kind [Q], are through,
    the memories are those of [tgt], and the results [K] are there. *)
Definition moving (Q : T -> Prop) (tgt : heap * ve) (K : list (Z * Z)) w : Prop :=
  exists ng kept rest, underway ng kept rest w /\ followed ng K /\
    Forall (fun x => Q (p_what x)) rest /\ foldl settle (vh w, ve_of w, kept) rest = (tgt, K).

(** ** Facts of the invariant *)

Lemma not_completed ng v c :
  inv ng [] v -> c ∈ pipeline v -> completion (v_q v) !! msgid c = None.
Proof.
  intros [C Hl] Hc. pose proof (core_queue _ _ _ C) as Hq.
  destruct (completion (v_q v) !! msgid c) as [e|] eqn:Ee; [exfalso|done].
  pose proof (qok_nodup _ _ Hq) as Hnd. cbn [fmap list_fmap app] in Hnd. unfold tokens in Hnd.
  rewrite app_assoc in Hnd. apply NoDup_app in Hnd as (_ & Hdis & _).
  apply (Hdis (msgid c)).
  - apply elem_of_app. unfold pipeline in Hc. apply elem_of_app in Hc as [Hc|Hc].
    + right. destruct (flying_inflight _ _ Hc) as [k Hk]. apply elem_of_map_ids. eauto.
    + left. by apply list_elem_of_fmap_2.
  - apply elem_of_map_ids. exists (msgid c), e. split; [done|]. symmetry.
    by apply (qok_completion _ _ Hq).
Qed.

Lemma pipeline_held v c : c ∈ pipeline v -> held [] (v_q v) c.
Proof.
  unfold pipeline. intros [Hc|Hc]%elem_of_app; [|by right; left].
  right; right; left. by apply flying_inflight.
Qed.

(** The ID of a piece under way is remembered. *)
Lemma carried_remembered ng x c w :
  inv ng [] (view_of w) -> carries x c -> c ∈ pipeline (view_of w) -> p_id x ∈ remaining w.
Proof.
  intros Hi (<- & _ & _ & Hn) Hc. exact (core_waited _ _ _ (proj1 Hi) c (pipeline_held _ _ Hc) Hn).
Qed.

Lemma underway_linked ng kept rest w :
  underway ng kept rest w -> linked (view_of w).
Proof.
  intros Hu. destruct (uw_inv _ _ _ _ Hu) as [_ [Hl|(He & _)]]; [done|].
  destruct (calm_state _ (uw_calm _ _ _ _ Hu)). by apply bool_decide_eq_true in He.
Qed.

Lemma wire_out w : v_out (view_of w) = Z.of_nat <$> seq (l_base (wire_of w)) (length (l_sent (wire_of w))).
Proof. done. Qed.

Lemma flying_length ng kept rest w :
  underway ng kept rest w -> length (flying (view_of w)) = length (l_sent (wire_of w)).
Proof.
  intros Hu. destruct (underway_linked _ _ _ _ Hu) as [_ Hl]. unfold flying.
  assert (Hall : Forall (fun r => is_Some (inflight (v_q (view_of w)) !! r)) (v_out (view_of w)))
    by (apply Forall_forall; intros r Hr; by apply Hl).
  transitivity (length (v_out (view_of w))); [|by rewrite wire_out, length_fmap, length_seq].
  clear -Hall. induction Hall as [|r l [c Hc] _ IH]; [done|]. cbn [omap list_omap]. rewrite Hc.
  cbn [length]. by rewrite <- IH.
Qed.

(** ** A reply arrives *)

Lemma peek_done ng hand id c w :
  inv ng hand (view_of w) -> id ∈ remaining w -> completion (queue w) !! id = Some c ->
  _peekResult id w = (Ret (status c, Some (retval c)),
    set_rem (remaining w ∖ {[id]}) (set_comq (set_completion (delete id (completion (queue w))) (queue w)) w)).
Proof.
  intros Hi Hr Hc. unfold _peekResult, bind, gets. rewrite bool_decide_eq_true_2 by done. cbn [negb].
  unfold on_comq, on, CommQueueOps.peekCompletion, BlockingMap.tryFind, BlockingMap.tryFindNoWait.
  by rewrite (inv_rem_u64 _ _ _ _ Hi Hr), Hc.
Qed.

(** A round of the progress function that returns keeps the invariant. *)
Lemma round_inv ng b w a w' :
  inv ng [] (view_of w) -> (forall VF : VhFuncs, progress_round b w = (Ret a, w')) ->
  inv ng [] (view_of w') /\ issued w' = issued w /\ bystander w' = bystander w /\
  (a = Again -> (work (queue w') < work (queue w))%nat).
Proof.
  intros Hi Er. specialize (Er no_vh). destruct (progress_round_sim (VF := no_vh) b w) as [_ Hs].
  pose proof (steady_issued _ w (steady_progress_round (VF := no_vh) b)) as Hst. rewrite Er in Hst. cbn [snd] in Hst.
  split_and!; [|done| |].
  - apply (Hs ng a w' Hi I Er). rewrite Hst. apply (core_bound _ _ _ (proj1 Hi)).
  - pose proof (aside_progress_round (VF := no_vh) b (bystander w) (remaining w) w) as Ha. rewrite Er in Ha. by apply Ha.
  - intros ->. by apply (progress_round_work (VF := no_vh) b).
Qed.

(** A result that is there is none of a piece under way. *)
Lemma finished_other ng id v x c w :
  inv ng [] (view_of w) -> carries x c -> c ∈ pipeline (view_of w) -> finished id v w -> p_id x <> id.
Proof.
  intros Hi Hx Hc (_ & d & Hd & _) Heq. pose proof (not_completed _ _ _ Hi Hc) as Hn.
  destruct Hx as (Hm & _). rewrite Hm, Heq in Hn. cbn in Hn. congruence.
Qed.

Lemma prev_is_other ng prev x c w :
  inv ng [] (view_of w) -> carries x c -> c ∈ pipeline (view_of w) ->
  prev = VEO_REQUEST_ID_INVALID \/ finished prev 0 w -> p_id x <> prev.
Proof.
  intros Hi Hx Hc [->|Hp]; [|by eapply finished_other]. intros Heq.
  pose proof (carried_remembered _ _ _ _ Hi Hx Hc) as Hr.
  pose proof (core_old _ _ _ (proj1 Hi) _ (core_rem _ _ _ (proj1 Hi) _ Hr)).
  pose proof (core_bound _ _ _ (proj1 Hi)). unfold VEO_REQUEST_ID_INVALID in *. lia.
Qed.

(** The request the next piece is chained to has ended. *)
Lemma linked_finished K prev w :
  ready K w -> linked_to prev K -> prev = VEO_REQUEST_ID_INVALID \/ finished prev 0 w.
Proof.
  intros Hr [|Hp]; [by left|right]. exact (proj1 (Forall_forall _ _) Hr _ Hp).
Qed.

(** The command a reply belongs to. *)
Lemma replied ng kept x rest w ms :
  underway ng kept (x :: rest) w -> l_sent (wire_of w) = message (vh w) x :: ms ->
  let r := Z.of_nat (l_base (wire_of w)) in
  let out := Z.of_nat <$> seq (S (l_base (wire_of w))) (length ms) in
  exists c, u64 r = r /\ v_out (view_of w) = r :: out /\ inflight (queue w) !! r = Some c /\
    carries x c /\ pipeline (view_of w) = c :: pipeline (v_reply r out (view_of w)) /\
    (exists l, Forall2 carries rest l /\ pipeline (v_reply r out (view_of w)) = l ++ tail) /\
    inv ng [c] (v_reply r out (view_of w)).
Proof.
  intros Hu Em r out. pose proof (underway_linked _ _ _ _ Hu) as Hl.
  assert (Ho : v_out (view_of w) = r :: out) by (rewrite wire_out, Em; done).
  assert (is_Some (inflight (queue w) !! r)) as [c Hc]
    by (apply (proj2 Hl); rewrite Ho; apply elem_of_cons; by left).
  pose proof (v_reply_pipeline r out (view_of w) c Hl Ho Hc) as Hp.
  destruct (uw_pipe _ _ _ _ Hu) as (l & Hf & Hpl). apply Forall2_cons_inv_l in Hf as (c' & l' & Hx & Hf & ->).
  rewrite Hp in Hpl. cbn [app] in Hpl. injection Hpl as <- Hpl.
  exists c. split_and!; try done; [|by exists l'|].
  - apply u64_small. pose proof (uw_room _ _ _ _ Hu). unfold r. lia.
  - apply v_reply_inv; [apply (uw_inv _ _ _ _ Hu)|done..].
Qed.

Lemma get_reply x w ms :
  ex_able (vh w, ve_of w) (p_what x) -> l_sent (wire_of w) = message (vh w) x :: ms -> l_lag (wire_of w) = 0%nat ->
  get_cmd w = (Ret (Z.of_nat (l_base (wire_of w)), ex_reply (vh w, ve_of w) (p_what x)),
    set_up (mkLink (S (l_base (wire_of w))) ms 0 (snd (effect (vh w, ve_of w) x))) w).
Proof.
  intros Hx Em Hlag. unfold get_cmd. change (urpc_get_cmd (the_peer w)) with (link_get (wire_of w)).
  unfold link_get. rewrite Em, Hlag. pose proof (ex_dispatch (vh w) (ve_of w) (p_what x) Hx) as Hd.
  unfold message, effect. destruct (ex_message (vh w) (p_what x)) as [cmd args]. cbn [fst snd] in Hd.
  change (l_ve (wire_of w)) with (ve_of w). by rewrite Hd.
Qed.

(** What receiving the reply to [x] does to the world. *)
Definition received (c : Command) (R : gset Z) (D : gmap Z Command) x ms w : world :=
  let r := Z.of_nat (l_base (wire_of w)) in
  let p : @peer wire := mkLink (S (l_base (wire_of w))) ms 0 (snd (effect (vh w, ve_of w) x)) in
  let done := setResult (ex_value (vh w, ve_of w) (p_what x)) VEO_COMMAND_OK c in
  let q := mkCommQueue (request (queue w)) (delete r (inflight (queue w))) (<[p_id x := done]> D)
             (terminateFlag (queue w)) in
  set_rem R (set_comq q (set_vh (fst (effect (vh w, ve_of w) x)) (set_up p w))).

Lemma receive_piece b ng kept x rest w ms :
  underway ng kept (x :: rest) w -> l_sent (wire_of w) = message (vh w) x :: ms ->
  l_lag (wire_of w) = 0%nat ->
  exists c R D, (forall VF : VhFuncs, progress_round b w = (Ret Again, received c R D x ms w)) /\
    p_id x ∈ R /\ ready (without (p_prev x) kept) (received c R D x ms w) /\
    exists l, Forall2 carries rest l /\ pipeline (view_of (received c R D x ms w)) = l ++ tail.
Proof.
  intros Hu Em Hlag. destruct (uw_able _ _ _ _ Hu) as (Hx & Hlk & _).
  pose proof (uw_inv _ _ _ _ Hu) as Hi. pose proof (linked_finished _ _ _ (uw_ready _ _ _ _ Hu) Hlk) as Hpr.
  destruct (replied _ _ _ _ _ _ Hu Em) as (c & Hr & Ho & Hc & Hxc & Hp & Hf & Hi1).
  set (r := Z.of_nat (l_base (wire_of w))) in *.
  assert (Hin : c ∈ pipeline (view_of w)) by (rewrite Hp; apply elem_of_cons; by left).
  pose proof (prev_is_other _ _ _ _ _ Hi Hxc Hin Hpr) as Hne.
  set (p := (mkLink (S (l_base (wire_of w))) ms 0 (snd (effect (vh w, ve_of w) x)) : @peer wire)).
  set (w1 := set_up p w). set (w2 := set_comq (set_inflight (delete r (inflight (queue w))) (queue w)) w1).
  destruct (ex_unpack ng [c] (p_prev x) (p_what x) c (ve_of w) w2) as (R & D & Eu & HD & HR);
    [exact Hi1|done|apply Hxc|done|].
  exists c, R, D. split_and!.
  - intros VF. unfold progress_round. rewrite (bind_Ret _ _ _ _ _ (get_reply x w ms Hx Em Hlag)).
    fold r p w1. destruct (Z.leb_spec 0 r); [|lia].
    unfold receive. rewrite (bind_Ret _ _ w1 (Some c) w2).
    2:{ unfold on_comq, on, CommQueueOps.popInFlight, BlockingMap.tryFind, BlockingMap.tryFindNoWait.
        change (queue w1) with (queue w). by rewrite Hr, Hc. }
    rewrite (bind_Ret _ _ _ _ _ Eu). unfold bind, modify. cbn [setResult nowait].
    pose proof Hxc as (Hm & _ & _ & Hn). rewrite Hn. cbn [negb].
    assert (Hum : u64 (msgid c) = p_id x).
    { rewrite Hm. apply (inv_rem_u64 _ _ _ _ Hi). by apply (carried_remembered ng x c). }
    assert (HN : D !! u64 (msgid c) = None).
    { rewrite Hum, HD by done. pose proof (not_completed _ _ _ Hi Hin) as Hnc.
      by rewrite Hm in Hnc. }
    unfold on_comq, on, CommQueueOps.pushCompletion, modify, BlockingMap.insert, BlockingMap.insert_id.
    cbn -[setResult]. cbn [setResult msgid]. rewrite HN.
    rewrite Hum. cbn. unfold received. fold r p. reflexivity.
  - apply HR; [done|]. exact (carried_remembered ng x c w Hi Hxc Hin).
  - apply Forall_forall. intros [id v] [Hne2 Hin2]%elem_of_without. cbn [fst snd] in *.
    pose proof (proj1 (Forall_forall _ _) (uw_ready _ _ _ _ Hu) _ Hin2) as Hfin.
    pose proof (finished_other _ _ _ _ _ _ Hi Hxc Hin Hfin) as Hne3.
    destruct Hfin as [Hr2 (d & Hd & Hd2)]. split; [by apply HR|]. exists d. split; [|done].
    change (<[p_id x := setResult (ex_value (vh w, ve_of w) (p_what x)) VEO_COMMAND_OK c]> D !! id = Some d).
    rewrite lookup_insert_ne by done. by rewrite HD.
  - exact Hf.
Qed.

(** The piece is through: what is to come is the same as before. *)
Lemma receive_keeps b ng kept x rest w ms :
  underway ng kept (x :: rest) w -> l_sent (wire_of w) = message (vh w) x :: ms ->
  l_lag (wire_of w) = 0%nat ->
  exists w', (forall VF : VhFuncs, progress_round b w = (Ret Again, w')) /\ 
    underway ng (snd (settle (vh w, ve_of w, kept) x)) rest w' /\
    (vh w', ve_of w') = effect (vh w, ve_of w) x.
Proof.
  intros Hu Em Hlag.
  destruct (receive_piece b _ _ _ _ _ _ Hu Em Hlag) as (c & R & D & Er & HR & Hrd & Hf).
  exists (received c R D x ms w). split_and!; [done| |exact (eq_sym (surjective_pairing _))].
  pose proof (uw_sent _ _ _ _ Hu) as Hs. rewrite Em in Hs. cbn [length take fmap list_fmap] in Hs.
  injection Hs as Hs. pose proof (uw_room _ _ _ _ Hu) as Hroom. cbn [length] in Hroom.
  split.
  - by eapply round_inv; [apply (uw_inv _ _ _ _ Hu)|].
  - destruct (uw_calm _ _ _ _ Hu) as [C1 C2 C3 C4]. split; [exact C1| |exact C3|exact C4].
    change (__veo_finish (snd (effect (vh w, ve_of w) x)) = false). unfold effect.
    by rewrite ex_finish by apply (uw_able _ _ _ _ Hu).
  - exact (uw_sp _ _ _ _ Hu).
  - exact Hf.
  - exact (uw_tail _ _ _ _ Hu).
  - change (ms = message (fst (effect (vh w, ve_of w) x)) <$> take (length ms) rest).
    rewrite Hs at 1. apply list_fmap_ext. intros i y Hy. symmetry.
    destruct (uw_able _ _ _ _ Hu) as (_ & _ & Hst & _). apply lookup_take_Some in Hy as [Hy _].
    exact (Forall_lookup_1 _ _ _ _ Hst Hy).
  - constructor; [|exact Hrd]. split; [exact HR|].
    exists (setResult (ex_value (vh w, ve_of w) (p_what x)) VEO_COMMAND_OK c). split_and!;
      [apply lookup_insert_eq|done|apply ex_u64].
  - destruct (uw_able _ _ _ _ Hu) as (_ & _ & _ & Hab).
    replace (vh _, ve_of _) with (effect (vh w, ve_of w) x) by apply surjective_pairing. exact Hab.
  - change (Z.of_nat (S (l_base (wire_of w)) + length rest) < bound <= 2 ^ 31). lia.
Qed.

(** ** No reply: the next piece is sent, or the context waits *)

Definition set_lag (lag : nat) w : world :=
  set_up (mkLink (l_base (wire_of w)) (l_sent (wire_of w)) lag (l_ve (wire_of w)) : @peer wire) w.

Lemma no_reply w :
  l_sent (wire_of w) = [] \/ l_lag (wire_of w) <> 0%nat ->
  exists lag, get_cmd w = (Ret (-1, (0, [])), set_lag lag w) /\
    (l_sent (wire_of w) <> [] -> (lag < l_lag (wire_of w))%nat).
Proof.
  intros Hw. unfold get_cmd. change (urpc_get_cmd (the_peer w)) with (link_get (wire_of w)).
  unfold link_get, set_lag. destruct (l_sent (wire_of w)) as [|[cmd args] l] eqn:Es.
  - exists (l_lag (wire_of w)). split; [|done]. do 2 f_equal. rewrite <- Es. symmetry.
    by destruct (wire_of w).
  - destruct Hw as [|Hw]; [done|]. destruct (l_lag (wire_of w)) as [|lag]; [done|].
    exists lag. split; [done|]. intros _. lia.
Qed.

Lemma underway_lag ng kept rest lag w : underway ng kept rest w -> underway ng kept rest (set_lag lag w).
Proof. intros [H1 [] H2 H3 H4 H5 H6 H7 H8]. by split. Qed.

Lemma underway_count ng kept rest n w : underway ng kept rest w -> underway ng kept rest (set_count n w).
Proof. intros [H1 [] H2 H3 H4 H5 H6 H7 H8]. by split. Qed.

Lemma check_calm w : calm w -> exists n, check_process w = (Ret Idle, set_count n w).
Proof.
  intros [_ _ [Hs Hw] _]. exists (u64 (count (ctx w) + 1)). unfold check_process.
  rewrite (bind_Ret _ _ w (count (ctx w)) w) by done.
  destruct (_ =? 0); [|by rewrite (bind_Ret _ _ w Idle w)].
  rewrite bind_assoc, (bind_Ret _ _ w true w) by (unfold gets; by rewrite Hs).
  rewrite bind_assoc, (bind_Ret _ _ w false w) by (unfold child_ended; by rewrite Hw). done.
Qed.

(** The pieces sent, and those that wait in the queue. *)
Lemma underway_split ng kept rest w :
  underway ng kept rest w ->
  exists r1 r2 l, rest = r1 ++ r2 /\ length r1 = length (l_sent (wire_of w)) /\
    Forall2 carries r1 (flying (view_of w)) /\ Forall2 carries r2 l /\ request (queue w) = l ++ tail.
Proof.
  intros Hu. destruct (uw_pipe _ _ _ _ Hu) as (l & Hf & Hp). unfold pipeline in Hp.
  change (request (v_q (view_of w))) with (request (queue w)) in Hp.
  pose proof (flying_length _ _ _ _ Hu) as Hfl. pose proof (Forall2_length _ _ _ Hf) as Hlen.
  assert (Hle : (length (l_sent (wire_of w)) <= length rest)%nat).
  { rewrite (uw_sent _ _ _ _ Hu), length_fmap, length_take. lia. }
  apply app_eq_inv in Hp as [(k & Hk1 & Hk2)|(k & Hk1 & Hk2)].
  - pose proof (f_equal length Hk1) as Hl. rewrite length_app in Hl.
    assert (k = []) as -> by (apply length_zero_iff_nil; lia). rewrite app_nil_r in Hk1. cbn [app] in Hk2.
    exists rest, [], []. rewrite app_nil_r, Hk1. split_and!; [done|congruence|done|constructor|done].
  - rewrite Hk1 in Hf. apply Forall2_app_inv_r in Hf as (r1 & r2 & H1 & H2 & ->).
    exists r1, r2, k. split_and!; try done. by rewrite (Forall2_length _ _ _ H1).
Qed.

(** The first command not sent, and its piece. *)
Lemma next_piece ng kept rest w c l :
  underway ng kept rest w -> request (queue w) = c :: l -> is_vh c = false ->
  exists r1 x r2 l2, rest = r1 ++ x :: r2 /\ length r1 = length (l_sent (wire_of w)) /\ carries x c /\
    Forall2 carries r1 (flying (view_of w)) /\ Forall2 carries r2 l2 /\ l = l2 ++ tail.
Proof.
  intros Hu Er Hv. destruct (underway_split _ _ _ _ Hu) as (r1 & r2 & l1 & -> & Hlen & H1 & H2 & Hr).
  rewrite Er in Hr. destruct l1 as [|c' l1].
  - pose proof (uw_tail _ _ _ _ Hu) as Ht. cbn [app] in Hr. rewrite <- Hr in Ht. cbn in Ht. congruence.
  - cbn [app] in Hr. injection Hr as <- ->. apply Forall2_cons_inv_r in H2 as (x & r3 & Hx & H3 & ->).
    exists r1, x, r3, l1. by split_and!.
Qed.

(** What sending the first command of the queue does to the world. *)
Definition dispatched (c : Command) (l : list Command) x w : world :=
  let r := l_next (wire_of w) in
  let p : @peer wire :=
    mkLink (l_base (wire_of w)) (l_sent (wire_of w) ++ [message (vh w) x]) latency (ve_of w) in
  set_comq (mkCommQueue l (<[r := setURPCReq r VEO_COMMAND_UNFINISHED c]> (inflight (queue w)))
              (completion (queue w)) (terminateFlag (queue w))) (set_up p w).

Lemma next_not_out w : (l_next (wire_of w) ∉ v_out (view_of w)).
Proof.
  rewrite wire_out. intros (k & Hk & Hin)%list_elem_of_fmap. apply elem_of_seq in Hin.
  unfold l_next in Hk. lia.
Qed.

(** Every piece is possible at some time. *)
Lemma able_sometime hs l x : able hs l -> x ∈ l -> exists hs', ex_able hs' (p_what x).
Proof.
  revert hs. induction l as [|y l IH]; intros hs Ha Hx; [by apply not_elem_of_nil in Hx|].
  destruct Ha as (H1 & _ & _ & H2). apply elem_of_cons in Hx as [->|Hx]; [by exists (fst hs)|]. by eapply IH.
Qed.

Lemma submit_piece b ng kept rest x c l w :
  underway ng kept rest w -> request (queue w) = c :: l -> carries x c -> x ∈ rest ->
  (length (l_sent (wire_of w)) < link_slots)%nat -> l_next (wire_of w) < 2 ^ 31 ->
  (forall VF : VhFuncs, submit_next b w = (Ret Again, dispatched c l x w)) /\
  flying (view_of (dispatched c l x w)) =
    flying (view_of w) ++ [setURPCReq (l_next (wire_of w)) VEO_COMMAND_UNFINISHED c].
Proof.
  intros Hu Er Hx Hin Hl Hn. pose proof (next_not_out w) as Hout.
  destruct (able_sometime _ _ _ (uw_able _ _ _ _ Hu) Hin) as [hs Hab].
  assert (Hfree : inflight (queue w) !! l_next (wire_of w) = None).
  { destruct (inflight (queue w) !! l_next (wire_of w)) eqn:Ei; [|done]. destruct Hout.
    apply (underway_linked _ _ _ _ Hu). by eexists. }
  split.
  - intros VF. unfold submit_next. set (w1 := set_comq (set_request l (queue w)) w).
    rewrite (bind_Ret _ _ w (Some c) w1).
    2:{ unfold on_comq, on, CommQueueOps.tryPopRequest, BlockingQueue.popNoWait. by rewrite Er. }
    pose proof Hx as (_ & Hcode & -> & _).
    rewrite (bind_Ret _ _ _ _ _ (ex_submit VF hs _ _ c w1 Hab Hcode (uw_sp _ _ _ _ Hu) Hl Hn)). cbn [Z.eqb].
    unfold bind, on_comq, on, CommQueueOps.pushInFlight, modify, BlockingMap.insert_id.
    cbn [setURPCReq urpc_req].
    assert (Hu64 : u64 (l_next (wire_of w)) = l_next (wire_of w))
      by (apply u64_small; unfold l_next in *; lia).
    change (wire_of w1) with (wire_of w). rewrite Hu64.
    match goal with |- context [match ?m !! ?k with _ => _ end] =>
      change (m !! k) with (inflight (queue w) !! l_next (wire_of w)) end.
    rewrite Hfree. done.
  - unfold flying. change (inflight (v_q (view_of (dispatched c l x w)))) with
      (<[l_next (wire_of w) := setURPCReq (l_next (wire_of w)) VEO_COMMAND_UNFINISHED c]>
         (inflight (v_q (view_of w)))).
    assert (Ho : v_out (view_of (dispatched c l x w)) = v_out (view_of w) ++ [l_next (wire_of w)]).
    { rewrite !wire_out. change (l_base (wire_of (dispatched c l x w))) with (l_base (wire_of w)).
      change (l_sent (wire_of (dispatched c l x w))) with (l_sent (wire_of w) ++ [message (vh w) x]).
      rewrite length_app. cbn [length]. rewrite seq_app, fmap_app. done. }
    rewrite Ho. by apply flying_insert.
Qed.

Lemma dispatched_underway ng kept rest x c l w :
  underway ng kept rest w -> request (queue w) = c :: l -> inv ng [] (view_of (dispatched c l x w)) ->
  (exists r1 r2 l2, rest = r1 ++ x :: r2 /\ length r1 = length (l_sent (wire_of w)) /\
     Forall2 carries r1 (flying (view_of w)) /\ Forall2 carries r2 l2 /\ l = l2 ++ tail) ->
  flying (view_of (dispatched c l x w)) =
    flying (view_of w) ++ [setURPCReq (l_next (wire_of w)) VEO_COMMAND_UNFINISHED c] ->
  carries x c -> underway ng kept rest (dispatched c l x w).
Proof.
  intros Hu Er Hi (r1 & r2 & l2 & -> & Hlen & H1 & H2 & El) Hf Hx.
  destruct Hu as [_ [C1 C2 C3 C4] Hsp _ Ht Hs Hrd Hok Hroom].
  split; [done|by split|done| |done| |done|done|done].
  - exists (flying (view_of w) ++ setURPCReq (l_next (wire_of w)) VEO_COMMAND_UNFINISHED c :: l2). split.
    + apply Forall2_app; [done|]. by constructor.
    + unfold pipeline. rewrite Hf, <- !app_assoc. cbn [app]. by rewrite <- El.
  - change (l_sent (wire_of (dispatched c l x w))) with (l_sent (wire_of w) ++ [message (vh w) x]).
    rewrite length_app. cbn [length]. rewrite Hs at 1. change (vh (dispatched c l x w)) with (vh w).
    rewrite <- Hlen, take_app_length, take_app_add'; [|done]. cbn [take].
    by rewrite fmap_app.
Qed.

(** A round without a reply. *)
Lemma wire_silent_round (VF : VhFuncs) b lag w :
  get_cmd w = (Ret (-1, (0, [])), set_lag lag w) ->
  progress_round b w =
    (if (length (l_sent (wire_of w)) <? link_slots)%nat
     then let! r := submit_next b in match r with Idle => check_process | _ => ret r end
     else ret Idle) (set_lag lag w).
Proof.
  intros Eg. unfold progress_round. rewrite (bind_Ret _ _ _ _ _ Eg). cbn [Z.leb Z.compare].
  set (w1 := set_lag lag w). rewrite (bind_Ret _ _ w1 (urpc_next_send_slot (the_peer w1)) w1) by done.
  change (urpc_next_send_slot (the_peer w1)) with
    (if (length (l_sent (wire_of w)) <? link_slots)%nat then 0 else -1).
  by destruct (_ <? link_slots)%nat.
Qed.

(** Nothing is left to send: every piece has been sent. *)
Lemma all_sent ng kept rest w :
  underway ng kept rest w -> (request (queue w) = [] \/ exists c l, request (queue w) = c :: l /\ is_vh c = true) ->
  length rest = length (l_sent (wire_of w)) /\ request (queue w) = tail.
Proof.
  intros Hu Hn. destruct (underway_split _ _ _ _ Hu) as (r1 & r2 & l & -> & Hlen & H1 & H2 & Hr).
  destruct r2 as [|x r2]; [apply Forall2_nil_inv_l in H2 as ->; by rewrite app_nil_r|].
  apply Forall2_cons_inv_l in H2 as (c & l' & (_ & _ & Hv & _) & _ & ->). rewrite Hr in Hn. cbn [app] in Hn.
  destruct Hn as [|(c' & l2 & [= <- _] & Hv')]; [done|congruence].
Qed.

(** How a round ends: with progress, or with nothing to do but wait; the VH command
    behind the pieces waits too. *)
Definition stepped (a : round) (rest' : list (piece T)) w w' : Prop :=
  a = Again \/
  (a = Idle /\ queue w' = queue w /\
   ((l_lag (wire_of w') < l_lag (wire_of w))%nat \/ (rest' = [] /\ tail = []))) \/
  (a = Return 1 /\ tail <> [] /\ queue w' = queue w /\
   ((l_lag (wire_of w') < l_lag (wire_of w))%nat \/ rest' = [])).

(** A VH command is not executed: it must not be, or pieces are on their way. *)
Definition held_back (b : bool) (rest : list (piece T)) : Prop := b = false \/ rest <> [] \/ tail = [].

Lemma flying_nonempty ng kept rest w :
  underway ng kept rest w -> l_sent (wire_of w) <> [] -> inflight (queue w) <> ∅.
Proof.
  intros Hu Hs He. pose proof (flying_length _ _ _ _ Hu) as Hfl. unfold flying in Hfl.
  change (inflight (v_q (view_of w))) with (inflight (queue w)) in Hfl. rewrite He in Hfl.
  destruct (l_sent (wire_of w)) as [|m ms]; [done|]. clear Hs.
  assert (Hn : forall l : list Z, omap (fun k => (∅ : gmap Z Command) !! k) l = []).
  { intros l. induction l as [|k l IH]; [reflexivity|]. cbn [omap list_omap]. by rewrite lookup_empty. }
  by rewrite Hn in Hfl.
Qed.

(** A round in which nothing is sent: there is nothing, or a VH command. *)
Lemma waiting_round b ng kept rest w :
  underway ng kept rest w -> held_back b rest ->
  (request (queue w) = [] \/ exists c l, request (queue w) = c :: l /\ is_vh c = true) ->
  exists a w', (forall VF : VhFuncs,
      (let! r := submit_next b in match r with Idle => check_process | _ => ret r end) w = (Ret a, w')) /\
    underway ng kept rest w' /\ vh w' = vh w /\ wire_of w' = wire_of w /\ queue w' = queue w /\
    ((a = Idle /\ tail = []) \/ (a = Return 1 /\ tail <> [])).
Proof.
  intros Hu Hb Hn. destruct (all_sent _ _ _ _ Hu Hn) as [Hlen Ht]. destruct Hn as [Er|(c & l & Er & Hv)].
  - destruct (check_calm w (uw_calm _ _ _ _ Hu)) as [n Ec]. exists Idle, (set_count n w).
    split_and!; try done; [|by apply underway_count|by left; rewrite <- Ht].
    intros VF. by rewrite (bind_Ret _ _ _ _ _ (submit_nothing b w Er)).
  - assert (Htail : tail <> []) by (by rewrite <- Ht, Er).
    exists (Return 1), w. split_and!; try done; [|by right]. intros VF.
    rewrite (bind_Ret _ _ w (Return 1) w); [done|]. apply (delayed_vh c l b w Er Hv).
    destruct Hb as [->|[Hne|]]; [by right|left|done]. apply (flying_nonempty _ _ _ _ Hu).
    intros Hs. rewrite Hs in Hlen. by apply length_zero_iff_nil in Hlen.
Qed.

Lemma send_round b ng kept rest lag w :
  underway ng kept rest w -> held_back b rest -> get_cmd w = (Ret (-1, (0, [])), set_lag lag w) ->
  (l_sent (wire_of w) <> [] -> (lag < l_lag (wire_of w))%nat) ->
  exists a w', (forall VF : VhFuncs, progress_round b w = (Ret a, w')) /\ underway ng kept rest w' /\
    vh w' = vh w /\ ve_of w' = ve_of w /\ stepped a rest w w'.
Proof.
  intros Hu Hb Eg Hlag. pose proof (fun VF => wire_silent_round VF b lag w Eg) as Hround. set (w1 := set_lag lag w) in *.
  pose proof (underway_lag _ _ _ lag _ Hu) as Hu1. fold w1 in Hu1.
  destruct (Nat.ltb_spec (length (l_sent (wire_of w))) link_slots) as [Hslot|Hslot].
  2:{ exists Idle, w1. split_and!; try done. right. left. split_and!; [done|done|].
      left. apply Hlag. intros Hn. rewrite Hn in Hslot. cbn in Hslot. unfold link_slots in Hslot. lia. }
  assert (Hcases : (request (queue w) = [] \/ exists c l, request (queue w) = c :: l /\ is_vh c = true) \/
    exists c l, request (queue w) = c :: l /\ is_vh c = false).
  { destruct (request (queue w)) as [|c l]; [by left; left|]. destruct (is_vh c) eqn:Hv; [left; right|right]; eauto. }
  destruct Hcases as [Hn|(c & l & Er & Hv)].
  - destruct (waiting_round b _ _ _ w1 Hu1 Hb Hn) as (a & w' & Ew & Hu' & Hvh & Hw & Hq & Ha).
    exists a, w'. split_and!; try done; [intros VF; by rewrite Hround, Ew|by unfold ve_of; rewrite Hw|].
    assert (Hd : (lag < l_lag (wire_of w))%nat \/ rest = []).
    { destruct (decide (l_sent (wire_of w) = [])) as [Em|Em]; [right|left; by apply Hlag].
      destruct (all_sent _ _ _ _ Hu Hn) as [Hlen _]. rewrite Em in Hlen. by apply length_zero_iff_nil. }
    right. unfold wire_of in *. rewrite Hw. destruct Ha as [[-> Ht]|[-> Ht]]; [left|right]; split_and!; try done.
    destruct Hd; [by left|by right].
  - destruct (next_piece _ _ _ _ c l Hu1 Er Hv) as (r1 & x & r2 & l2 & Hrest & Hlen & Hx & H1 & H2 & El).
    assert (Hnx : l_next (wire_of w1) < 2 ^ 31).
    { pose proof (uw_room _ _ _ _ Hu) as Hroom. rewrite Hrest, length_app, Hlen in Hroom.
      cbn [length] in Hroom. unfold l_next. change (l_base (wire_of w1)) with (l_base (wire_of w)). lia. }
    destruct (submit_piece b _ _ _ x c l w1 Hu1 Er Hx) as [Esub Hf];
      [rewrite Hrest; set_solver|done|done|].
    assert (Er' : forall VF : VhFuncs, progress_round b w = (Ret Again, dispatched c l x w1))
      by (intros VF; by rewrite Hround, (bind_Ret _ _ _ _ _ (Esub VF))).
    assert (Hi' : inv ng [] (view_of (dispatched c l x w1)))
      by (eapply round_inv; [apply (uw_inv _ _ _ _ Hu)|exact Er']).
    exists Again, (dispatched c l x w1). split_and!; try done; [|by left].
    apply dispatched_underway; try done. exists r1, r2, l2. by split_and!.
Qed.

(** One round: a piece is through, or sent, or there is nothing to do yet. *)
Lemma round_keeps b ng kept rest w :
  underway ng kept rest w -> held_back b rest ->
  exists a w' kept' rest', (forall VF : VhFuncs, progress_round b w = (Ret a, w')) /\ underway ng kept' rest' w' /\
    (rest' = rest \/ exists x, rest = x :: rest') /\
    foldl settle (vh w', ve_of w', kept') rest' = foldl settle (vh w, ve_of w, kept) rest /\
    stepped a rest' w w'.
Proof.
  intros Hu Hb.
  destruct (decide (l_sent (wire_of w) = [] \/ l_lag (wire_of w) <> 0%nat)) as [Hno|Hyes].
  - destruct (no_reply w Hno) as (lag & Eg & Hlag).
    destruct (send_round b _ _ _ lag w Hu Hb Eg Hlag) as (a & w' & Er & Hu' & Hv & He & Hs).
    exists a, w', kept, rest. split_and!; try done; [by left|]. by rewrite Hv, He.
  - destruct (l_sent (wire_of w)) as [|m ms] eqn:Em; [tauto|].
    assert (Hlag : l_lag (wire_of w) = 0%nat) by lia.
    pose proof (uw_sent _ _ _ _ Hu) as Hs. rewrite Em in Hs.
    destruct rest as [|x rest]; [done|]. cbn [length take fmap list_fmap] in Hs.
    assert (Em' : l_sent (wire_of w) = message (vh w) x :: ms) by (rewrite Em; by injection Hs as <- _).
    destruct (receive_keeps b _ _ _ _ _ _ Hu Em' Hlag) as (w' & Er & Hu' & He).
    exists Again, w', (snd (settle (vh w, ve_of w, kept) x)), rest.
    split_and!; [done|done|right; by exists x| |by left]. cbn [foldl]. by rewrite He.
Qed.

(** ** The progress function *)

(** All pieces are through. *)
Definition through (tgt : heap * ve) (K : list (Z * Z)) w : Prop :=
  exists ng, underway ng K [] w /\ followed ng K /\ (vh w, ve_of w) = tgt.

Definition closer w' w : Prop :=
  (work (queue w') < work (queue w))%nat \/
  (work (queue w') = work (queue w) /\ (l_lag (wire_of w') < l_lag (wire_of w))%nat).

Lemma closer_wf : well_founded closer.
Proof.
  assert (H : forall k j w, (work (queue w) < k)%nat \/
    (work (queue w) = k /\ (l_lag (wire_of w) < j)%nat) -> Acc closer w).
  { induction k as [k IHk] using lt_wf_ind. induction j as [j IHj] using lt_wf_ind.
    intros w Hw. constructor. intros w' Hc. destruct Hw as [Hk|[Hk Hj]].
    - apply (IHk (work (queue w)) Hk (l_lag (wire_of w))).
      destruct Hc as [Hc|[-> Hc]]; [by left|by right].
    - apply (IHj (l_lag (wire_of w)) Hj). destruct Hc as [Hc|[-> Hc]]; [left|right]; lia. }
  intros w. apply (H (S (work (queue w))) 0%nat). left. lia.
Qed.

Lemma through_moving Q tgt K w : through tgt K w -> moving Q tgt K w.
Proof. intros (ng & Hu & Hng & Ht). exists ng, K, []. split_and!; [done|done|constructor|]. cbn. by rewrite Ht. Qed.

Lemma no_rest_through ng kept tgt K w :
  underway ng kept [] w -> followed ng K -> foldl settle (vh w, ve_of w, kept) [] = (tgt, K) ->
  through tgt K w.
Proof. intros Hu Hng Ht. cbn in Ht. injection Ht as <- <-. by exists ng. Qed.

(** The kind of the pieces may be forgotten. *)
Lemma moving_kind (Q Q' : T -> Prop) tgt K w : (forall t, Q t -> Q' t) -> moving Q tgt K w -> moving Q' tgt K w.
Proof.
  intros HQ (ng & kept & rest & Hu & Hng & Hk & Ht). exists ng, kept, rest. split_and!; try done.
  eapply Forall_impl; [exact Hk|]. intros x. apply HQ.
Qed.

(** Pieces are under way. *)
Definition busy w : Prop := length (pipeline (view_of w)) <> length tail.

Lemma busy_dec w : busy w \/ ~ busy w.
Proof. unfold busy. lia. Qed.

Lemma underway_busy ng kept rest w : underway ng kept rest w -> busy w <-> rest <> [].
Proof.
  intros Hu. destruct (uw_pipe _ _ _ _ Hu) as (l & Hf & Hp). unfold busy. rewrite Hp, length_app.
  rewrite <- (Forall2_length _ _ _ Hf). rewrite <- length_zero_iff_nil. lia.
Qed.

Lemma settled_through Q tgt K w : moving Q tgt K w -> ~ busy w -> through tgt K w.
Proof.
  intros (ng & kept & rest & Hu & Hng & Hk & Ht) Hb. rewrite (underway_busy _ _ _ _ Hu) in Hb.
  destruct rest as [|x rest]; [by apply (no_rest_through ng kept)|]. by destruct Hb.
Qed.

(** One round of the progress function. *)
Lemma moving_round b Q tgt K w :
  moving Q tgt K w -> b = false \/ tail = [] \/ busy w ->
  exists a w', (forall VF : VhFuncs, progress_round b w = (Ret a, w')) /\ moving Q tgt K w' /\
    issued w' = issued w /\ bystander w' = bystander w /\
    ((a = Again /\ (work (queue w') < work (queue w))%nat) \/
     (a = Idle /\ (closer w' w \/ (through tgt K w' /\ tail = []))) \/
     (a = Return 1 /\ tail <> [] /\ (closer w' w \/ through tgt K w'))).
Proof.
  intros (ng & kept & rest & Hu & Hng & Hk & Ht) Hb.
  assert (Hh : held_back b rest).
  { destruct Hb as [->|[->|Hn]]; [by left|by right; right|right; left]. by apply (underway_busy _ _ _ _ Hu). }
  destruct (round_keeps b _ _ _ _ Hu Hh) as (a & w1 & kept1 & rest1 & Er & Hu1 & Hr1 & Ht1 & Ha).
  destruct (round_inv _ _ _ _ _ (uw_inv _ _ _ _ Hu) Er) as (_ & Hi & Hby & Hw).
  assert (Hthr : rest1 = [] -> through tgt K w1).
  { intros ->. apply (no_rest_through ng kept1); [done|done|by rewrite Ht1]. }
  assert (Hk1 : Forall (fun x => Q (p_what x)) rest1).
  { destruct Hr1 as [->|[x ->]]; [done|]. apply Forall_cons in Hk. tauto. }
  exists a, w1. split_and!; [done|exists ng, kept1, rest1; split_and!; [done|done|done|by rewrite Ht1]|done|done|].
  destruct Ha as [->|[(-> & Hq & Hd)|(-> & Hne & Hq & Hd)]]; [left; auto|right; left|right; right].
  - split; [done|]. destruct Hd as [Hd|[Hd1 Hd2]]; [left; right; by rewrite Hq|right; auto].
  - split_and!; [done|done|]. destruct Hd as [Hd|Hd]; [left; right; by rewrite Hq|right; auto].
Qed.

Lemma closer_trans w1 w2 w3 : closer w1 w2 -> closer w2 w3 -> closer w1 w3.
Proof. unfold closer. lia. Qed.

(** The value the progress function returns when it stops: 1 before a VH command. *)
Lemma loop_keeps n b Q tgt K w :
  moving Q tgt K w -> b = false \/ tail = [] -> (work (queue w) < n)%nat ->
  exists v w', (forall VF : VhFuncs, progress_loop n b w = (Ret v, w')) /\ moving Q tgt K w' /\
    issued w' = issued w /\ bystander w' = bystander w /\
    ((v = 0 /\ (closer w' w \/ (through tgt K w' /\ tail = []))) \/
     (v = 1 /\ tail <> [] /\ (closer w' w \/ through tgt K w'))).
Proof.
  revert w. induction n as [|n IH]; intros w Hm Hb Hn; [lia|].
  destruct (moving_round b _ _ _ _ Hm) as (a & w1 & Er & Hm1 & Hi1 & Hb1 & Ha); [tauto|].
  assert (El : forall (VF : VhFuncs), progress_loop (S n) b w =
    match a with Again => progress_loop n b w1 | Idle => (Ret 0, w1) | Return v => (Ret v, w1) end).
  { intros VF. cbn [progress_loop]. rewrite (bind_Ret _ _ _ _ _ (Er VF)). by destruct a. }
  destruct Ha as [[-> Hw]|[[-> Ha]|(-> & Hne & Ha)]]; [|exists 0, w1; split_and!; auto..|exists 1, w1; split_and!; auto].
  destruct (IH w1 Hm1 Hb ltac:(lia)) as (v & w' & El' & Hm' & Hi' & Hb' & Hc).
  assert (Hc1 : closer w1 w) by (by left).
  exists v, w'. split_and!; [intros VF; by rewrite El|done|congruence|congruence|].
  pose proof (closer_trans w' w1 w). tauto.
Qed.

Lemma nolock_keeps b Q tgt K w :
  moving Q tgt K w -> b = false \/ tail = [] ->
  exists v w', (forall VF : VhFuncs, _progress_nolock b w = (Ret v, w')) /\ moving Q tgt K w' /\
    issued w' = issued w /\ bystander w' = bystander w /\
    ((v = 0 /\ (closer w' w \/ (through tgt K w' /\ tail = []))) \/
     (v = 1 /\ tail <> [] /\ (closer w' w \/ through tgt K w'))).
Proof. intros Hm Hb. apply loop_keeps; [done|done|lia]. Qed.

Lemma moving_calm Q tgt K w : moving Q tgt K w -> calm w.
Proof. intros (ng & kept & rest & Hu & _). apply (uw_calm _ _ _ _ Hu). Qed.

Lemma try_lock_calm w : calm w -> try_lock w = (Ret true, w).
Proof. intros [_ _ _ Ht]. by apply try_lock_free. Qed.

(** Asking for a command that is not through. *)
Lemma peek_pending ng c w :
  inv ng [] (view_of w) -> c ∈ pipeline (view_of w) -> nowait c = false ->
  msgid c ∈ remaining w /\ completion (queue w) !! u64 (msgid c) = None /\
  _peekResult (msgid c) w = (Ret (VEO_COMMAND_UNFINISHED, None), w).
Proof.
  intros Hi Hin Hn. pose proof (core_waited _ _ _ (proj1 Hi) c (pipeline_held _ _ Hin) Hn) as Hr.
  change (msgid c ∈ remaining w) in Hr. pose proof (not_completed _ _ _ Hi Hin) as Hc. cbn [v_q view_of] in Hc.
  pose proof (inv_rem_u64 _ _ _ _ Hi Hr) as Hu. split_and!; [done|by rewrite Hu|].
  unfold _peekResult, bind, gets. rewrite bool_decide_eq_true_2 by done. cbn [negb].
  unfold on_comq, on, CommQueueOps.peekCompletion, BlockingMap.tryFind, BlockingMap.tryFindNoWait.
  rewrite Hu, Hc. unfold ret. f_equal. by destruct w as [[[] ? ? ? ? ? ? ? ?] ? ? ? ? ?].
Qed.

(** The last piece gives the newest result. *)
Lemma settle_last st l tgt id v K :
  foldl settle st l = (tgt, (id, v) :: K) -> l <> [] -> exists r x, l = r ++ [x] /\ p_id x = id.
Proof.
  intros Ht Hne. destruct (exists_last Hne) as (r & x & ->). exists r, x. split; [done|].
  rewrite foldl_app in Ht. cbn [foldl] in Ht. by injection Ht.
Qed.

Lemma peek_early ng kept rest tgt id v K w :
  underway ng kept rest w -> rest <> [] ->
  foldl settle (vh w, ve_of w, kept) rest = (tgt, (id, v) :: K) ->
  _peekResult id w = (Ret (VEO_COMMAND_UNFINISHED, None), w).
Proof.
  intros Hu Hne Ht. destruct (settle_last _ _ _ _ _ _ Ht Hne) as (r & x & -> & <-).
  destruct (uw_pipe _ _ _ _ Hu) as (l & Hp & Ep).
  apply Forall2_app_inv_l in Hp as (l1 & l2 & _ & H2 & ->).
  apply Forall2_cons_inv_l in H2 as (c & l3 & (<- & _ & _ & Hn) & _ & ->).
  apply (peek_pending ng); [apply (uw_inv _ _ _ _ Hu)|rewrite Ep; set_solver|done].
Qed.

(** The results are those of requests issued before. *)
Lemma settle_ids l : forall st r, r ∈ snd (foldl settle st l) -> r ∈ snd st \/ exists x, x ∈ l /\ p_id x = r.1.
Proof.
  induction l as [|x l IH]; intros st r Hr; [by left|]. cbn [foldl] in Hr.
  destruct (IH _ _ Hr) as [Hin|(y & Hy & Hid)]; [|right; exists y; set_solver].
  cbn [settle snd] in Hin. apply elem_of_cons in Hin as [->|[_ Hin]%elem_of_without]; [right|by left].
  exists x. set_solver.
Qed.

Lemma moving_old Q tgt K w : moving Q tgt K w -> Forall (fun r => r.1 < issued w) K.
Proof.
  intros (ng & kept & rest & Hu & _ & _ & Ht). apply Forall_forall. intros r Hr.
  pose proof (uw_inv _ _ _ _ Hu) as Hi. assert (Hrem : r.1 ∈ remaining w).
  { pose proof (settle_ids rest (vh w, ve_of w, kept) r) as Hs. rewrite Ht in Hs.
    destruct (Hs Hr) as [Hk|(x & Hx & <-)].
    - apply (proj1 (Forall_forall _ _) (uw_ready _ _ _ _ Hu) _ Hk).
    - destruct (uw_pipe _ _ _ _ Hu) as (l & Hf & Hp). apply list_elem_of_lookup in Hx as [i Hx].
      destruct (Forall2_lookup_l _ _ _ _ _ Hf Hx) as (c & Hc & Hxc).
      apply (carried_remembered ng x c w Hi Hxc). rewrite Hp. apply elem_of_app. left.
      apply list_elem_of_lookup. by exists i. }
  exact (core_old _ _ _ (proj1 Hi) _ (core_rem _ _ _ (proj1 Hi) _ Hrem)).
Qed.

(** Asking for a result that is there: it is taken, the others stay. *)
Lemma ready_without id K R D w :
  ready K w -> (forall k, k <> id -> D !! k = completion (queue w) !! k) ->
  (forall k, k <> id -> k ∈ remaining w -> k ∈ R) ->
  ready (without id K) (set_rem R (set_comq (set_completion D (queue w)) w)).
Proof.
  intros Hr HD HR. apply Forall_forall. intros [k v] [Hne Hin]%elem_of_without. cbn [fst snd] in *.
  destruct (proj1 (Forall_forall _ _) Hr _ Hin) as [H1 (c & H2 & H3)]. cbn [fst snd] in *.
  split; [by apply HR|]. exists c. split; [|done]. change (D !! k = Some c). by rewrite HD.
Qed.

Lemma peek_late tgt id v K w :
  through tgt K w -> (id, v) ∈ K ->
  exists w', _peekResult id w = (Ret (VEO_COMMAND_OK, Some v), w') /\
    through tgt (without id K) w' /\ issued w' = issued w /\ wire_of w' = wire_of w.
Proof.
  intros (ng & Hu & Hng & Ht) Hin. pose proof (uw_inv _ _ _ _ Hu) as Hi.
  destruct (proj1 (Forall_forall _ _) (uw_ready _ _ _ _ Hu) _ Hin) as [Hr (c & Hc & Hs & Hv)]. cbn [fst snd] in *.
  set (w' := set_rem (remaining w ∖ {[id]})
               (set_comq (set_completion (delete id (completion (queue w))) (queue w)) w)).
  assert (Ep : _peekResult id w = (Ret (VEO_COMMAND_OK, Some v), w')).
  { rewrite <- Hs, <- Hv. exact (peek_done _ _ _ _ _ Hi Hr Hc). }
  exists w'. split_and!; [done| |done|done]. exists ng. split_and!; [| |done].
  - pose proof (uw_ready _ _ _ _ Hu) as Hrd.
    destruct Hu as [_ [] Hsp Hp Htl Hsent _ Hok Hroom]. split; try done.
    + destruct (peekResult_sim id w) as [_ Hsim].
      apply (Hsim ng _ w' Hi I Ep). apply (core_bound _ _ _ (proj1 Hi)).
    + apply ready_without; [done| |set_solver]. intros k Hk. by rewrite lookup_delete_ne.
  - intros Hx. apply Forall_forall. intros r [_ Hin2]%elem_of_without.
    exact (proj1 (Forall_forall _ _) (Hng Hx) _ Hin2).
Qed.

(** ** Waiting for the last piece *)

Lemma moving_thread Q tgt K t w : moving Q tgt K w -> moving Q tgt K (set_thread t w).
Proof.
  intros (ng & kept & rest & [H1 [] H2 H3 H4 H5 H6 H7 H8] & Hr). exists ng, kept, rest. by split.
Qed.

(** ** VH commands behind the pieces *)

Section Tail.
Hypothesis has_tail : tail <> [].

Lemma moving_active Q tgt K w : moving Q tgt K w -> CommQueueOps.isActive (queue w) = true.
Proof using has_tail.
  intros (ng & kept & rest & Hu & _). destruct (underway_split _ _ _ _ Hu) as (_ & _ & l & _ & _ & _ & _ & Hr).
  assert (Hn : request (queue w) <> []) by (rewrite Hr; by intros [_ ?]%app_nil).
  unfold CommQueueOps.isActive, BlockingQueue.empty. destruct (request (queue w)); [done|]. apply orb_true_r.
Qed.

(** The progress thread goes on until the pieces are through; then it turns to the VH
    command. *)
Lemma loop_exec n Q tgt K w :
  moving Q tgt K w -> (work (queue w) < n)%nat ->
  (exists v w', (forall VF : VhFuncs, progress_loop n true w = (Ret v, w')) /\ moving Q tgt K w' /\
     issued w' = issued w /\ bystander w' = bystander w /\ (closer w' w \/ through tgt K w')) \/
  (exists k w', (forall VF : VhFuncs, progress_loop n true w = progress_loop k true w') /\
     through tgt K w' /\ issued w' = issued w /\ bystander w' = bystander w /\ (work (queue w') < k)%nat).
Proof using XL has_tail.
  revert w. induction n as [|n IH]; intros w Hm Hn; [lia|].
  destruct (busy_dec w) as [Hbusy|Hbusy].
  2:{ right. exists (S n), w. split_and!; try done. by apply (settled_through Q). }
  destruct (moving_round true _ _ _ _ Hm) as (a & w1 & Er & Hm1 & Hi1 & Hb1 & Ha); [tauto|].
  assert (El : forall VF : VhFuncs, progress_loop (S n) true w =
    match a with Again => progress_loop n true w1 | Idle => (Ret 0, w1) | Return v => (Ret v, w1) end).
  { intros VF. cbn [progress_loop]. rewrite (bind_Ret _ _ _ _ _ (Er VF)). by destruct a. }
  destruct Ha as [[-> Hw]|[[-> [Hc|[_ Hc]]]|(-> & _ & Ha)]].
  - destruct (IH w1 Hm1 ltac:(lia)) as [(v & w' & El' & Hm' & Hi' & Hb' & Hc)|(k & w' & El' & Ht' & Hi' & Hb' & Hk)].
    + left. exists v, w'. split_and!; [intros VF; by rewrite El|done|congruence|congruence|].
      destruct Hc as [Hc|Hc]; [left|by right]. eapply closer_trans; [exact Hc|by left].
    + right. exists k, w'. split_and!; [intros VF; by rewrite El|done|congruence|congruence|done].
  - left. exists 0, w1. split_and!; auto.
  - done.
  - left. exists 1, w1. split_and!; auto.
Qed.

Lemma exec_through Q tgt K w :
  moving Q tgt K w ->
  exists J k w', (forall (VF : VhFuncs) n,
      progressExec (J + S n) w = (progress_loop k true ;;; progressExec n) w') /\
    through tgt K w' /\ issued w' = issued w /\ bystander w' = bystander w /\ (work (queue w') < k)%nat.
Proof using XL has_tail.
  assert (Hnow : forall w1 k w', (forall VF : VhFuncs, _progress_nolock true w1 = progress_loop k true w') ->
    moving Q tgt K w1 -> forall (VF : VhFuncs) n,
    progressExec (0 + S n) w1 = (progress_loop k true ;;; progressExec n) w').
  { intros w1 k w' El Hm VF n. cbn [progressExec Nat.add].
    rewrite (bind_Ret _ _ w1 true w1) by (unfold gets; by rewrite (moving_active _ _ _ _ Hm)). cbn [negb].
    unfold bind. by rewrite El. }
  induction (closer_wf w) as [w _ IH]. intros Hm.
  destruct (loop_exec (S (work (queue w))) _ _ _ w Hm ltac:(lia))
    as [(v & w1 & El & Hm1 & Hi1 & Hb1 & Hc)|(k & w' & El & Ht & Hi & Hb & Hk)].
  2:{ exists O, k, w'. split_and!; try done. by apply Hnow. }
  assert (Hnext : exists J k w', (forall (VF : VhFuncs) n,
      progressExec (J + S n) w1 = (progress_loop k true ;;; progressExec n) w') /\
    through tgt K w' /\ issued w' = issued w1 /\ bystander w' = bystander w1 /\ (work (queue w') < k)%nat).
  { destruct Hc as [Hc|Ht]; [by apply IH|]. exists O, (S (work (queue w1))), w1. split_and!; try done; [|lia].
    by apply Hnow. }
  destruct Hnext as (J & k & w' & En & Ht & Hi & Hb & Hk).
  exists (S J), k, w'. split_and!; [|done|congruence|congruence|done]. intros VF n.
  rewrite <- En. cbn [progressExec Nat.add].
  rewrite (bind_Ret _ _ w true w) by (unfold gets; by rewrite (moving_active _ _ _ _ Hm)). cbn [negb].
  by rewrite (bind_Ret _ _ w v w1) by apply El.
Qed.

(** A thread waits for the request of a VH command in the tail. *)
Context (V : Command) (V_in : V ∈ tail) (V_waited : nowait V = false).

Lemma peek_tail Q tgt K w :
  moving Q tgt K w ->
  msgid V ∈ remaining w /\ completion (queue w) !! u64 (msgid V) = None /\
  _peekResult (msgid V) w = (Ret (VEO_COMMAND_UNFINISHED, None), w).
Proof using XL has_tail V_in V_waited.
  intros (ng & kept & rest & Hu & _). destruct (uw_pipe _ _ _ _ Hu) as (l & _ & Ep).
  apply (peek_pending ng); [apply (uw_inv _ _ _ _ Hu)|rewrite Ep; set_solver|done].
Qed.

Lemma poll_tail Q tgt K w :
  moving Q tgt K w ->
  exists N w', (forall (VF : VhFuncs) n, (N <= n)%nat -> poll_result n (msgid V) w = (Ret None, w')) /\
    moving Q tgt K w' /\ issued w' = issued w /\ bystander w' = bystander w.
Proof using XL has_tail V_in V_waited.
  induction (closer_wf w) as [w _ IH]. intros Hm. pose proof (try_lock_calm w (moving_calm _ _ _ _ Hm)) as El.
  destruct (nolock_keeps false _ _ _ _ Hm ltac:(by left)) as (v & w1 & E1 & Hm1 & Hi & Hb & Hw).
  assert (Hpoll : forall (VF : VhFuncs) n, poll_result (S n) (msgid V) w =
    if 0 <? v then (Ret None, w1) else poll_result n (msgid V) w1).
  { intros VF n. cbn [poll_result]. rewrite (bind_Ret _ _ _ _ _ El). cbn [negb].
    rewrite (bind_Ret _ _ _ _ _ (E1 VF)). destruct (0 <? v); [done|].
    by rewrite (bind_Ret _ _ _ _ _ (proj2 (proj2 (peek_tail _ _ _ _ Hm1)))). }
  destruct Hw as [[-> [Hc|[_ ?]]]|(-> & _ & _)]; [|done|].
  - destruct (IH w1 Hc Hm1) as (N & w' & HN & Hm' & Hi' & Hb'). exists (S N), w'.
    split_and!; [|done|congruence|congruence]. intros VF [|n] Hn; [lia|]. rewrite Hpoll. apply HN. lia.
  - exists 1%nat, w1. split_and!; try done. intros VF [|n] Hn; [lia|]. apply Hpoll.
Qed.

(** The end of [progress_main], when the commands are executed. *)
Definition thread_end : M world unit :=
  let! s := gets (fun w => state (ctx w)) in
  if decide (s = VEO_STATE_EXIT) then modify (set_thread T_exited)
  else
    let! term := gets (fun w => terminateFlag (queue w)) in
    if term then modify (set_thread T_exited) else modify (set_thread T_asleep).

Lemma wait_tail ts Q tgt K w :
  moving Q tgt K w -> ts = T_asleep \/ ts = T_awake -> bystander w = (ts, false, []) ->
  exists J k w', (forall (VF : VhFuncs) n, exists m, callWaitResult (J + n) (msgid V) w =
      ((progress_loop k true ;;; progressExec m) ;;;
       (thread_end ;;;
        (let! c := on_comq (CommQueueOps.waitCompletion (msgid V)) in collect (msgid V) c))) w') /\
    through tgt K w' /\ issued w' = issued w /\ bystander w' = (T_running, false, []) /\
    (work (queue w') < k)%nat.
Proof using XL has_tail V_in V_waited.
  intros Hm Hx Hby. destruct (poll_tail _ _ _ _ Hm) as (N & w1 & HN & Hm1 & Hi1 & Hb1). rewrite Hby in Hb1.
  set (w2 := set_thread T_running w1). pose proof (moving_thread _ _ _ T_running _ Hm1) as Hm2.
  destruct (exec_through _ _ _ _ Hm2) as (J & k & w' & Ex & Ht & Hi & Hb & Hk).
  injection Hb1 as Ht1 Hf1 Hl1.
  exists (N + S J)%nat, k, w'. split_and!; [|done|by rewrite Hi| |done].
  2:{ rewrite Hb. unfold bystander, queue in *. cbn. by rewrite Hf1, Hl1. }
  intros VF n. exists (N + n)%nat. unfold callWaitResult.
  replace (N + S J + n)%nat with (J + S (N + n))%nat by lia.
  rewrite (bind_Ret _ _ _ _ _ (HN VF (J + S (N + n))%nat ltac:(lia))).
  assert (En : notifyAll w1 = (Ret tt, set_thread T_awake w1)).
  { unfold notifyAll. assert (CommQueueOps.notifyAll (queue w1) = true) as ->.
    { destruct Hm1 as (ng & kept & rest & Hu & _). destruct (underway_split _ _ _ _ Hu) as (_ & _ & l & _ & _ & _ & _ & Hr).
      unfold CommQueueOps.notifyAll, BlockingQueue.empty. rewrite Hr.
      assert (l ++ tail <> []) by (by intros [_ ?]%app_nil). by destruct (l ++ tail). }
    rewrite Ht1. destruct Hx as [->|Hx]; [done|]. rewrite Hx. f_equal.
    destruct w1 as [[] ? ? ? ? ?]. cbn in *. by subst. }
  rewrite (bind_Ret _ _ _ _ _ En). set (w3 := set_thread T_awake w1).
  destruct (peek_tail _ _ _ _ (moving_thread _ _ _ T_awake _ Hm1)) as (Hr & Hc & _). fold w3 in Hr, Hc.
  rewrite (bind_Ret _ _ w3 (remaining w3) w3) by done. rewrite bool_decide_eq_true_2 by done. cbn [negb].
  rewrite waitCompletion_unfold.
  assert (Ew : fst (on_comq (CommQueueOps.waitCompletion (msgid V)) w3) = Blocked).
  { unfold on_comq, on, CommQueueOps.waitCompletion, BlockingMap.wait, BlockingMap.tryFindNoWait. by rewrite Hc. }
  destruct (on_comq (CommQueueOps.waitCompletion (msgid V)) w3) as [[]]; try done.
  unfold progress_main. rewrite bind_assoc, (bind_Ret _ _ w3 T_awake w3) by done.
  rewrite bind_assoc, (bind_Ret _ _ w3 false w3) by (unfold gets; change (queue w3) with (queue w1); by rewrite Hf1).
  rewrite bind_assoc, (bind_Ret _ _ w3 tt w2) by done.
  rewrite bind_assoc. exact (bind_run _ _ _ _ _ (Ex VF (N + n)%nat)).
Qed.
End Tail.

Section Wait.
Hypothesis no_tail : tail = [].

(** One look of a thread that waits: through with the result, or closer. *)
Lemma poll_step Q tgt id v K w :
  moving Q tgt ((id, v) :: K) w ->
  exists w1, issued w1 = issued w /\
    ((exists w', (forall (VF : VhFuncs) n, poll_result (S n) id w =
          (Ret (Some (VEO_COMMAND_OK, Some v)), w')) /\
        through tgt (without id K) w' /\ issued w' = issued w) \/
     ((forall (VF : VhFuncs) n, poll_result (S n) id w = poll_result n id w1) /\
        moving Q tgt ((id, v) :: K) w1 /\ closer w1 w)).
Proof using XL no_tail.
  intros Hm. pose proof (try_lock_calm w (moving_calm _ _ _ _ Hm)) as El.
  destruct (nolock_keeps false _ _ _ _ Hm ltac:(by left)) as (rv & w1 & E1 & Hm1 & Hi & _ & Hw).
  destruct Hw as [[-> Hw]|(_ & Hne' & _)]; [|done].
  assert (Hpoll : forall (VF : VhFuncs) n, poll_result (S n) id w =
    (let! r := _peekResult id in
     if negb (fst r =? VEO_COMMAND_UNFINISHED) then ret (Some r) else poll_result n id) w1).
  { intros VF n. cbn [poll_result]. rewrite (bind_Ret _ _ _ _ _ El). cbn [negb].
    by rewrite (bind_Ret _ _ _ _ _ (E1 VF)). }
  assert (Hdone : through tgt ((id, v) :: K) w1 -> exists w',
    (forall (VF : VhFuncs) n, poll_result (S n) id w = (Ret (Some (VEO_COMMAND_OK, Some v)), w')) /\
    through tgt (without id K) w' /\ issued w' = issued w).
  { intros Ht. destruct (peek_late _ id v _ _ Ht) as (w2 & E2 & Ht2 & Hi2 & _); [set_solver|].
    exists w2. split_and!; [|by rewrite without_head in Ht2|congruence].
    intros VF n. by rewrite Hpoll, (bind_Ret _ _ _ _ _ E2). }
  exists w1. split; [done|]. pose proof Hm1 as (ng & kept & rest & Hu & Hng & Hk & Ht).
  destruct rest as [|x rest]; [left; by apply Hdone, (no_rest_through ng kept)|].
  destruct Hw as [Hw|[Hw _]]; [|left; by apply Hdone].
  right. split_and!; [|done|done]. intros VF n.
  by rewrite Hpoll, (bind_Ret _ _ _ _ _ (peek_early _ _ _ _ _ _ _ _ Hu ltac:(done) Ht)).
Qed.

Lemma poll_through Q tgt id v K w :
  moving Q tgt ((id, v) :: K) w ->
  exists N w', (forall (VF : VhFuncs) n, (N <= n)%nat ->
      poll_result n id w = (Ret (Some (VEO_COMMAND_OK, Some v)), w')) /\
    through tgt (without id K) w' /\ issued w' = issued w.
Proof using XL no_tail.
  induction (closer_wf w) as [w _ IH]. intros Hm.
  destruct (poll_step _ _ _ _ _ _ Hm) as (w1 & Hi1 & [(w' & H1 & H2 & H3)|(H1 & Hm1 & Hc)]).
  - exists 1%nat, w'. split_and!; [|done|done]. intros VF [|n] Hn; [lia|apply H1].
  - destruct (IH w1 Hc Hm1) as (N & w' & HN & Ht & Hi). exists (S N), w'. split_and!; [|done|congruence].
    intros VF [|n] Hn; [lia|]. rewrite H1. apply HN. lia.
Qed.

Lemma wait_through Q tgt id v K w :
  moving Q tgt ((id, v) :: K) w ->
  exists N w', (forall (VF : VhFuncs) n, (N <= n)%nat ->
      callWaitResult n id w = (Ret (VEO_COMMAND_OK, Some v), w')) /\
    through tgt (without id K) w' /\ issued w' = issued w.
Proof using XL no_tail.
  intros Hm. destruct (poll_through _ _ _ _ _ _ Hm) as (N & w' & HN & Ht & Hi).
  exists N, w'. split_and!; [|done|done]. intros VF n Hn. unfold callWaitResult.
  by rewrite (bind_Ret _ _ _ _ _ (HN VF n Hn)).
Qed.
End Wait.

(** ** Submitting a piece *)

Definition issue w : world :=
  let c := ctx w in
  mkWorld (mkContext (comq c) (state c) (is_main c) (u64 (issued w + 1)) (ve_sp c) (up c)
             ({[issued w]} ∪ rem_reqid c) (count c) (progress_thread c))
    (vh w) (survival w) (waitpids w) (trylocks w) (issued w + 1).

Definition pushed (c : Command) w : world :=
  set_comq (set_request (request (queue w) ++ [c]) (queue w)) (issue w).

Lemma issue_calm ng w :
  inv ng [] (view_of w) -> issued w + 1 < 2 ^ 64 -> issueRequestID w = (Ret (issued w), issue w).
Proof.
  intros Hi Hb. pose proof (core_seq _ _ _ (proj1 Hi)) as Hseq. cbn in Hseq.
  pose proof (core_bound _ _ _ (proj1 Hi)) as Hbd. cbn in Hbd.
  unfold issueRequestID, bind, fetch_add_seq_no. rewrite Hseq.
  destruct (Z.eqb_spec (issued w) VEO_REQUEST_ID_INVALID) as [He|_];
    [unfold VEO_REQUEST_ID_INVALID in He; lia|]. done.
Qed.

Lemma ready_pushed K c w : ready K w -> ready K (pushed c w).
Proof.
  intros Hk. eapply Forall_impl; [exact Hk|]. intros [id v] [Hr Hc]. split; [|exact Hc].
  change (id ∈ {[issued w]} ∪ remaining w). apply elem_of_union. by right.
Qed.

(** A new command keeps the invariant of the requests. *)
Lemma pushed_inv ng prev t w :
  inv ng [] (view_of w) -> calm w -> issued w + 1 < 2 ^ 64 ->
  prev = VEO_REQUEST_ID_INVALID \/ ng prev ->
  let c := CommandImpl_ve (issued w) (ex_code prev t) in
  inv ng [] (view_of (pushed c w)) /\ (ex_chain = true -> dep_ok [] (issued w) (view_of (pushed c w))).
Proof.
  intros Hi Hc Hb Hng c.
  set (m := let! id := issueRequestID in
            let! rc := push_request (CommandImpl_ve id (ex_code prev t)) in ret id).
  assert (Hsim : sim (fun v => chainable prev v /\ v_exit v = false) m
                   (fun id v => ex_chain = true -> dep_ok [] id v)).
  { apply (new_request_sim (VF := no_vh) false (fun id => CommandImpl_ve id (ex_code prev t)) (fun id _ => ret id)); try done.
    - intros id. symmetry. apply ex_kind.
    - intros v id d [Hp _] Hd. destruct (proj2 (ex_kind prev t) d Hd) as [-> Hne]. by destruct Hp.
    - intros v [_ Hv]. by left.
    - intros id. apply sim_ret. intros v Hv Hx. apply Hv. by apply ex_specific. }
  assert (Em : m w = (Ret (issued w), pushed c w)).
  { unfold m. by rewrite (bind_Ret _ _ _ _ _ (issue_calm _ _ Hi Hb)). }
  destruct (Hsim w) as [_ Hs]. destruct (Hs ng (issued w) (pushed c w) Hi) as [[Hi' _] Hd]; try done.
  split; [|by apply bool_decide_eq_false, calm_state].
  destruct Hng as [->|Hng]; [by left|right]. by apply (core_ng _ _ _ (proj1 Hi)).
Qed.
End Kind.

(** A piece whose message the pieces before leave alone is possible behind them. *)
Lemma able_snoc {T} (X : Exchange T) (Q : T -> Prop) x l : forall st,
  able X st l -> Forall (fun y => Q (p_what y)) l ->
  (forall hs t, Q t -> ex_able hs t ->
     ex_message (fst (ex_effect hs t)) (p_what x) = ex_message (fst hs) (p_what x)) ->
  let st' := foldl (settle X) st l in
  ex_able (fst st') (p_what x) -> linked_to (p_prev x) (snd st') -> able X st (l ++ [x]).
Proof.
  induction l as [|y l IH]; intros st Ha Hq Hst; cbn [foldl app]; intros Hx Hl; [by split_and!|].
  destruct Ha as (A1 & A2 & A3 & A4). apply Forall_cons in Hq as [Hy Hq]. split_and!; [done|done| |by apply IH].
  apply Forall_app. split; [done|]. constructor; [|done]. by apply Hst.
Qed.

(** A new piece, of a kind the pieces under way leave alone. *)
Lemma push_moving {T} (X : Exchange T) `{!ExchangeLaws X} bound (Q Q' : T -> Prop) prev t tgt K w :
  moving X bound [] Q tgt K w -> (forall t', Q t' -> Q' t') -> Q' t ->
  (forall hs t', Q t' -> ex_able hs t' -> ex_message (fst (ex_effect hs t')) t = ex_message (fst hs) t) ->
  ex_able tgt t -> linked_to prev K -> prev = VEO_REQUEST_ID_INVALID \/ ex_chain = true ->
  issued w + 1 < 2 ^ 64 -> bound + 1 <= 2 ^ 31 ->
  moving X (bound + 1) [] Q' (ex_effect tgt t) ((issued w, ex_value tgt t) :: without prev K)
    (pushed (CommandImpl_ve (issued w) (ex_code prev t)) w).
Proof.
  intros (ng & kept & rest & Hu & Hng & Hk & Ht) HQ HQt Hst Hab Hlk Hch Hb Hbound.
  set (x := mkPiece (issued w) prev t). set (c := CommandImpl_ve (issued w) (ex_code prev t)).
  pose proof (uw_inv _ _ _ _ _ _ _ Hu) as Hi.
  assert (Hpng : prev = VEO_REQUEST_ID_INVALID \/ ng prev).
  { destruct Hlk as [|Hlk]; [by left|]. destruct Hch as [|Hch]; [by left|right].
    exact (proj1 (Forall_forall _ _) (Hng Hch) _ Hlk). }
  destruct (pushed_inv X ng prev t w Hi (uw_calm _ _ _ _ _ _ _ Hu) Hb Hpng) as [Hi' Hdep]. fold c in Hi', Hdep.
  assert (Hab' : able X (vh w, ve_of w, kept) (rest ++ [x])).
  { apply (able_snoc X Q); [apply (uw_able _ _ _ _ _ _ _ Hu)|done|done|by rewrite Ht..]. }
  exists (fun z => ng z \/ (ex_chain = true /\ z = issued w)), kept, (rest ++ [x]). split_and!.
  - pose proof (flying_length _ _ _ _ _ _ _ Hu) as Hfl.
    destruct (uw_pipe _ _ _ _ _ _ _ Hu) as (l & Hp & Epl). rewrite app_nil_r in Epl. subst l.
    pose proof (Forall2_length _ _ _ Hp) as Hpl.
    destruct Hu as [_ [C1 C2 C3 C4] Hsp _ _ Hsent Hready _ Hroom]. split.
    + by apply inv_extend_if.
    + by split.
    + done.
    + change (pipeline (view_of (pushed c w))) with (flying (view_of w) ++ request (queue w) ++ [c]).
      rewrite app_assoc. exists (pipeline (view_of w) ++ [c]). split; [|by rewrite app_nil_r].
      apply Forall2_app; [exact Hp|]. by constructor.
    + done.
    + change (l_sent (wire_of (pushed c w))) with (l_sent (wire_of w)).
      rewrite take_app_le; [exact Hsent|]. unfold pipeline in Hpl. rewrite length_app in Hpl. lia.
    + by apply ready_pushed.
    + exact Hab'.
    + rewrite length_app. cbn [length]. change (l_base (wire_of (pushed c w))) with (l_base (wire_of w)). lia.
  - intros Hx. constructor; [by right|]. apply Forall_forall. intros r [_ Hin]%elem_of_without.
    left. exact (proj1 (Forall_forall _ _) (Hng Hx) _ Hin).
  - apply Forall_app. split; [|by constructor]. eapply Forall_impl; [exact Hk|]. intros y. apply HQ.
  - change (vh (pushed c w), ve_of (pushed c w), kept) with (vh w, ve_of w, kept).
    rewrite foldl_app, Ht. done.
Qed.

Section Moves.
Context {T : Type} (X : Exchange T) `{XL : !ExchangeLaws X} (bound : Z) (tail : list Command).

Lemma notify_moving Q tgt K w :
  moving X bound tail Q tgt K w ->
  exists w', notifyAll w = (Ret tt, w') /\ moving X bound tail Q tgt K w' /\ issued w' = issued w.
Proof.
  intros Hm. unfold notifyAll. destruct (CommQueueOps.notifyAll (queue w)); [|by exists w].
  destruct (progress_thread (ctx w)); try by exists w.
  exists (set_thread T_awake w). split_and!; [done|by apply moving_thread|done].
Qed.

Lemma progress_moving Q tgt K w :
  moving X bound tail Q tgt K w ->
  exists w', (forall VF : VhFuncs, progress w = (Ret tt, w')) /\ moving X bound tail Q tgt K w' /\
    issued w' = issued w /\ bystander w' = bystander w.
Proof.
  intros Hm. unfold progress.
  destruct (CommQueueOps.emptyInFlight (queue w)) eqn:Ee.
  - destruct (nolock_keeps X bound tail false _ _ _ _ Hm ltac:(by left)) as (v & w1 & E1 & Hm1 & Hi & Hby & _).
    exists w1. split_and!; [|done|done|done]. intros VF.
    rewrite (bind_Ret _ _ w true w) by (unfold gets; by rewrite Ee). cbn [negb].
    rewrite (bind_Ret _ _ _ _ _ (try_lock_calm w (moving_calm _ _ _ _ _ _ _ Hm))).
    by rewrite (bind_Ret _ _ _ _ _ (E1 VF)).
  - exists w. split_and!; [|done|done|done]. intros VF.
    by rewrite (bind_Ret _ _ w false w) by (unfold gets; by rewrite Ee).
Qed.
End Moves.

(** ** Contexts with nothing to do *)

(** Nothing is under way, and [k] more requests can be numbered. *)
Record idle (k : Z) w : Prop := {
  idle_calm : calm w;
  idle_queue : request (queue w) = [];
  idle_sent : l_sent (wire_of w) = [];
  idle_ids : issued w + k < 2 ^ 64 /\ Z.of_nat (l_base (wire_of w)) + k < 2 ^ 31;
}.

Lemma idle_vh k h w : idle k w -> idle k (set_vh h w).
Proof. intros [[] ? ? ?]. by split. Qed.

Lemma idle_through {T} (X : Exchange T) ng k w :
  inv ng [] (view_of w) -> ve_sp (ctx w) = ex_sp -> 0 <= k -> idle k w ->
  through X (2 ^ 31 - k) [] (vh w, ve_of w) [] w /\ issued w + k < 2 ^ 64.
Proof.
  intros Hi Hsp Hk [Hc Hq Hs [H1 H2]]. split; [|done]. exists ng. split_and!; [|by intros _; constructor|done].
  assert (Hf : flying (view_of w) = []) by (unfold flying; by rewrite wire_out, Hs).
  split; try done.
  - exists []. split; [constructor|]. unfold pipeline. rewrite Hf. cbn [app].
    change (request (v_q (view_of w))) with (request (queue w)). done.
  - by rewrite Hs.
  - constructor.
  - cbn [length]. lia.
Qed.

Lemma through_idle {T} (X : Exchange T) bound k tgt K w :
  through X bound [] tgt K w -> issued w + k < 2 ^ 64 -> bound + k <= 2 ^ 31 ->
  (exists ng, inv ng [] (view_of w)) /\ idle k w /\ (vh w, ve_of w) = tgt.
Proof.
  intros (ng & Hu & _ & Ht) Hi Hb. split_and!; [exists ng; apply (uw_inv _ _ _ _ _ _ _ Hu)| |done].
  destruct (uw_pipe _ _ _ _ _ _ _ Hu) as (l & Hp & Epl). apply Forall2_nil_inv_l in Hp as ->.
  apply (f_equal length) in Epl. unfold pipeline in Epl. rewrite length_app in Epl. cbn [length app] in Epl.
  pose proof (flying_length _ _ _ _ _ _ _ Hu) as Hf. pose proof (uw_room _ _ _ _ _ _ _ Hu) as Hr.
  cbn [length] in Hr. split.
  - apply (uw_calm _ _ _ _ _ _ _ Hu).
  - apply length_zero_iff_nil. change (request (queue w)) with (request (v_q (view_of w))). lia.
  - apply length_zero_iff_nil. lia.
  - lia.
Qed.

End Exchange.
