(* ===== verification/VhCommands.v ===== *)
(** * VH commands behind VE commands, from end to end

    A function of the VH is queued behind commands that exchange messages with the VE
    ([Exchange.v]), and a thread waits for its result: the progress thread finishes
    the commands before, calls the function, and the waiting thread gets what the
    function returned. *)

From Stdlib Require Import ZArith Lia Bool.
From stdpp Require Import base gmap list numbers sets strings.
From S2P Require Import Prelude CallArgs Command Urpc Ve Context Example Requests Progress.
From S2P Require Import AsyncTransfer Calls Lifecycle Liveness Exchange.

Open Scope Z_scope.

Section VhCommands.
Context `{IN : Indet} `{MA : Machine} {max_cmd_size : Z} {latency : nat}.

#[local] Hint Extern 0 Urpc => exact (@wire IN MA max_cmd_size latency) : typeclass_instances.
#[local] Hint Extern 0 (UrpcLaws _) => exact (@wire_laws IN MA max_cmd_size latency) : typeclass_instances.

Context `{BO : BucketOrder}.
Implicit Types (w : world).

(** The progress thread waits for work or has it, and is not to end; the lock is free. *)
Definition attended w : Prop :=
  exists ts, (ts = T_asleep \/ ts = T_awake) /\ bystander w = (ts, false, []).

Lemma attended_same w w' : bystander w' = bystander w -> attended w -> attended w'.
Proof. intros Hb (ts & Ht & Ha). exists ts. split; [done|congruence]. Qed.

Lemma notify_attended w w' : notifyAll w = (Ret tt, w') -> attended w -> attended w'.
Proof.
  intros En (ts & Ht & Ha). unfold notifyAll in En. injection Ha as Hth Hf Hl.
  destruct (CommQueueOps.notifyAll (queue w)); [|injection En as <-; exists ts; split; [done|unfold bystander; congruence]].
  rewrite Hth in En. destruct Ht as [-> | ->]; injection En as <-;
    exists T_awake; (split; [by right|]); unfold bystander, queue in *; cbn in *; congruence.
Qed.

(** The command of a call of a VH function. *)
Definition vh_command (id : Z) (func : vh_func) (arg : Z) : Command := CommandImpl_vh id (C_vh func arg).

Lemma pushed_vh_inv ng cl w :
  inv ng [] (view_of w) -> issued w + 1 < 2 ^ 64 -> closure_vh cl = true -> (forall d, d ∈ deps cl -> ng d) ->
  inv ng [] (view_of (pushed (CommandImpl_vh (issued w) cl) w)).
Proof.
  intros Hi Hb Hv Hd. set (V := CommandImpl_vh (issued w) cl).
  set (m := let! id := issueRequestID in
            let! rc := push_request (CommandImpl_vh id cl) in ret id).
  assert (Hsim : sim (fun v => forall d, d ∈ deps cl -> dep_ok [] d v) m any).
  { apply (new_request_sim (VF := no_vh) false (fun id => CommandImpl_vh id cl) (fun id _ => ret id)); try done.
    - intros v id d Hok Hd'. by apply Hok.
    - intros v _. by right.
    - intros id. by apply sim_ret. }
  assert (Em : m w = (Ret (issued w), pushed V w)).
  { unfold m. by rewrite (bind_Ret _ _ _ _ _ (issue_calm _ _ Hi Hb)). }
  destruct (Hsim w) as [_ Hs]. destruct (Hs ng (issued w) (pushed V w) Hi) as [[Hi' _] _]; try done.
  intros d Hin. by apply (core_ng _ _ _ (proj1 Hi)), Hd.
Qed.

(** The request of a VH command waits behind the pieces; it may take their results. *)
Lemma push_vh {T} (X : Exchange T) `{XL : !@ExchangeLaws IN MA max_cmd_size latency T X} bound cl Q tgt K w :
  moving X bound [] Q tgt K w -> issued w + 1 < 2 ^ 64 -> closure_vh cl = true ->
  (forall d, d ∈ deps cl -> ex_chain = true /\ exists v, (d, v) ∈ K) ->
  let V := CommandImpl_vh (issued w) cl in
  moving X bound [V] Q tgt K (pushed V w).
Proof.
  intros (ng & kept & rest & Hu & Hng & Hk & Ht) Hb Hv Hd V. exists ng, kept, rest. split_and!; try done.
  assert (Hi : inv ng [] (view_of (pushed V w))).
  { apply pushed_vh_inv; [apply (uw_inv _ _ _ _ _ _ _ Hu)|done|done|]. intros d [Hc [v Hin]]%Hd.
    exact (proj1 (Forall_forall _ _) (Hng Hc) _ Hin). }
  destruct Hu as [_ [C1 C2 C3 C4] Hsp (l & Hp & Epl) _ Hsent Hready Hab Hroom]. rewrite app_nil_r in Epl.
  split; try done; [|by apply ready_pushed]. exists l. split; [done|]. subst l.
  change (pipeline (view_of (pushed V w))) with (flying (view_of w) ++ request (queue w) ++ [V]).
  unfold pipeline. by rewrite <- app_assoc.
Qed.

Lemma callVHAsync_calm ng func arg w :
  inv ng [] (view_of w) -> calm w -> issued w + 1 < 2 ^ 64 -> func <> user_func 0 ->
  callVHAsync func arg w =
    (notifyAll ;;; ret (issued w)) (pushed (vh_command (issued w) func arg) w).
Proof.
  intros Hi Hc Hb Hf. unfold callVHAsync.
  rewrite (bind_Ret _ _ w true w) by (unfold gets; by rewrite calm_alive).
  rewrite bool_decide_eq_false_2 by done. cbn [orb negb].
  rewrite (bind_Ret _ _ _ _ _ (issue_calm _ _ Hi Hb)).
  by rewrite (bind_Ret _ _ _ 0 (pushed (vh_command (issued w) func arg) w)).
Qed.

(** ** Rounds without messages *)

Lemma resting_round (VF : VhFuncs) b w :
  l_sent (wire_of w) = [] ->
  progress_round b w = (let! r := submit_next b in match r with Idle => check_process | _ => ret r end) w.
Proof.
  intros Hs. unfold progress_round.
  assert (Eg : get_cmd w = (Ret (-1, (0, [])), w)).
  { unfold get_cmd. change (urpc_get_cmd (the_peer w)) with (link_get (wire_of w)). unfold link_get. rewrite Hs.
    f_equal. by destruct w as [[] ? ? ? ? ?]. }
  rewrite (bind_Ret _ _ _ _ _ Eg). cbn [Z.leb Z.compare].
  rewrite (bind_Ret _ _ w 0 w); [done|]. unfold gets.
  change (urpc_next_send_slot (the_peer w)) with
    (if (length (l_sent (wire_of w)) <? link_slots)%nat then 0 else -1). by rewrite Hs.
Qed.

(** With nothing to do, the progress function only counts. *)
Lemma idle_loop n b w :
  calm w -> request (queue w) = [] -> l_sent (wire_of w) = [] ->
  exists c, forall VF : VhFuncs, progress_loop (S n) b w = (Ret 0, set_count c w).
Proof.
  intros Hc Hq Hs. destruct (check_calm w Hc) as [c Ec]. exists c. intros VF. cbn [progress_loop].
  rewrite (bind_Ret _ _ w Idle (set_count c w)); [done|].
  by rewrite (resting_round VF b w Hs), (bind_Ret _ _ _ _ _ (submit_nothing b w Hq)).
Qed.

(** ** The function is called *)

(** The world in which the function of [V] is called: the command is out of the queue,
    nothing else is under way, and the progress thread runs. *)
Record calling (ng : Z -> Prop) (V : Command) w : Prop := {
  cl_inv : inv ng [V] (view_of w);
  cl_calm : calm w;
  cl_thread : bystander w = (T_running, false, []);
  cl_empty : request (queue w) = [] /\ inflight (queue w) = ∅ /\ l_sent (wire_of w) = [];
}.

(** A function may change the VH memory and take results; it leaves the rest alone. *)
Definition undisturbed w w' : Prop :=
  exists D R n h, w' = set_count n (set_vh h (set_rem R (set_comq (set_completion D (queue w)) w))).

Lemma calling_undisturbed ng V w w' :
  calling ng V w -> undisturbed w w' -> inv ng [V] (view_of w') -> calling ng V w'.
Proof. intros [_ [] Hb He] (D & R & n & h & ->) Hi. by split. Qed.

Lemma through_calling {T} (X : Exchange T) `{XL : !@ExchangeLaws IN MA max_cmd_size latency T X}
    bound V tgt K w :
  through X bound [V] tgt K w -> bystander w = (T_running, false, []) ->
  exists ng, let w2 := set_comq (set_request [] (queue w)) w in
    request (queue w) = [V] /\ calling ng V w2 /\ ready K w2 /\ (vh w2, ve_of w2) = tgt /\
    Z.of_nat (l_base (wire_of w2)) < bound <= 2 ^ 31.
Proof.
  intros (ng & Hu & _ & Ht) Hb. exists ng. cbv zeta.
  assert (Hs : l_sent (wire_of w) = []).
  { pose proof (uw_sent _ _ _ _ _ _ _ Hu) as Hs. by rewrite take_nil in Hs. }
  pose proof (flying_length _ _ _ _ _ _ _ Hu) as Hfl. rewrite Hs in Hfl. apply length_zero_iff_nil in Hfl.
  destruct (uw_pipe _ _ _ _ _ _ _ Hu) as (l & Hl & Hp). apply Forall2_nil_inv_l in Hl as ->.
  unfold pipeline in Hp. rewrite Hfl in Hp. cbn [app] in Hp.
  assert (Hin : inflight (queue w) = ∅).
  { apply map_eq. intros k. rewrite lookup_empty. destruct (inflight (queue w) !! k) as [c|] eqn:Ek; [|done].
    destruct (underway_linked _ _ _ _ _ _ _ Hu) as [_ Hk]. destruct (Hk k) as [Hk' _].
    assert (Hk2 : k ∈ v_out (view_of w)) by (apply Hk'; by exists c).
    rewrite wire_out, Hs in Hk2. by apply not_elem_of_nil in Hk2. }
  pose proof (uw_room _ _ _ _ _ _ _ Hu) as Hroom. rewrite Nat.add_0_r in Hroom.
  split_and!; [done| |exact (uw_ready _ _ _ _ _ _ _ Hu)|done|apply Hroom|apply Hroom].
  split.
  - exact (v_take_inv ng [] (view_of w) V (uw_inv _ _ _ _ _ _ _ Hu) Hin Hp).
  - by destruct (uw_calm _ _ _ _ _ _ _ Hu).
  - done.
  - done.
Qed.

(** The result of the function is there, and the thread has nothing more to do. *)
Definition completed (V : Command) (rv : Z) w : world :=
  set_comq (set_completion (<[msgid V := setResult rv VEO_COMMAND_OK V]> (completion (queue w))) (queue w)) w.

Lemma completed_spec ng V rv w :
  calling ng V w -> nowait V = false ->
  u64 (msgid V) = msgid V /\ msgid V ∈ remaining w /\ completion (queue w) !! msgid V = None /\
  inv ng [] (view_of (completed V rv w)).
Proof.
  intros Hc Hn. pose proof (cl_inv _ _ _ Hc) as Hi.
  assert (Hr : msgid V ∈ remaining w).
  { apply (core_waited _ _ _ (proj1 Hi) V); [|done]. left. by apply list_elem_of_singleton. }
  pose proof (inv_rem_u64 _ _ _ _ Hi Hr) as Hu.
  assert (Hs : same_cmd (setResult rv VEO_COMMAND_OK V) V) by done.
  destruct (v_complete_spec _ _ _ _ _ (proj1 Hi) Hs) as (HN & _).
  destruct (v_complete_inv _ _ _ _ Hi Hs) as [Hi' _]; [by left; left|].
  split_and!; [done|done|done|].
  unfold v_complete, BlockingMap.insert, BlockingMap.insert_id in Hi'. cbn [setResult msgid] in Hi'.
  rewrite Hu in Hi'. rewrite HN in Hi'. exact Hi'.
Qed.

Lemma exec_function k ng V rv w w3 :
  let w2 := set_comq (set_request [] (queue w)) w in
  request (queue w) = [V] -> is_vh V = true -> nowait V = false -> calling ng V w2 -> (2 < k)%nat ->
  calling ng V w3 ->
  exists c, forall VF : VhFuncs, run_submit V w2 = (Ret (0, setResult rv VEO_COMMAND_OK V), w3) ->
    progress_loop k true w = (Ret 0, set_count c (completed V rv w3)).
Proof.
  intros w2 Hq Hv Hn Hc Hk Hc3. destruct k as [|[|k]]; [lia|lia|].
  destruct (completed_spec ng V rv w3 Hc3 Hn) as (Hu & Hr & HN & Hi).
  assert (Hcalm : calm (completed V rv w3)) by (by destruct (cl_calm _ _ _ Hc3)).
  destruct (cl_empty _ _ _ Hc3) as (Q1 & Q2 & Q3).
  destruct (idle_loop k true (completed V rv w3) Hcalm Q1 Q3) as [c Ec].
  exists c. intros VF Er. rewrite <- (Ec VF). remember (S k) as k1. cbn [progress_loop].
  rewrite (bind_Ret _ _ w Again (completed V rv w3)); [done|].
  rewrite (resting_round VF true w) by (apply (cl_empty _ _ _ Hc)).
  rewrite (bind_Ret _ _ w Again (completed V rv w3)); [done|]. unfold submit_next.
  rewrite (bind_Ret _ _ w (Some V) w2).
  2:{ unfold on_comq, on, CommQueueOps.tryPopRequest, BlockingQueue.popNoWait. by rewrite Hq. }
  rewrite Hv, (bind_Ret _ _ w2 true w2).
  2:{ unfold gets, CommQueueOps.emptyInFlight, BlockingMap.empty. destruct (cl_empty _ _ _ Hc) as (_ & -> & _). done. }
  cbn [andb]. rewrite (bind_Ret _ _ _ _ _ Er).
  unfold bind, on_comq, on, CommQueueOps.pushCompletion, modify, BlockingMap.insert, BlockingMap.insert_id.
  cbn [setResult msgid]. rewrite Hu, HN. done.
Qed.

(** What is left of the call when its result is taken. *)
Definition after_call (id c : Z) w : world :=
  set_rem (remaining w ∖ {[id]}) (set_thread T_asleep (set_count c w)).

(** Nothing is left to do then. *)
Lemma after_call_idle ng V id c k w :
  calling ng V w -> issued w + k < 2 ^ 64 -> Z.of_nat (l_base (wire_of w)) + k < 2 ^ 31 -> idle k (after_call id c w).
Proof. intros [_ [C1 C2 C3 C4] _ (Q1 & _ & Q3)] Hi Hb. split; [by split|exact Q1|exact Q3|by split]. Qed.

(** The thread that waits wakes up and takes the result. *)
Lemma collect_result (VF : VhFuncs) m ng V rv c w :
  calling ng V w -> nowait V = false ->
  ((progressExec m) ;;;
   (thread_end ;;;
    (let! x := on_comq (CommQueueOps.waitCompletion (msgid V)) in collect (msgid V) x)))
    (set_count c (completed V rv w)) =
  (Ret (VEO_COMMAND_OK, Some (u64 rv)), after_call (msgid V) c w) /\
  inv ng [] (view_of (after_call (msgid V) c w)).
Proof.
  intros Hc Hn. destruct (completed_spec ng V rv w Hc Hn) as (Hu & Hr & HN & Hi).
  destruct (cl_empty _ _ _ Hc) as (Q1 & Q2 & Q3). pose proof (cl_thread _ _ _ Hc) as Hb. injection Hb as _ Hfl _.
  set (w1 := set_count c (completed V rv w)). set (w2 := set_thread T_asleep w1).
  assert (Ea : set_rem (remaining w2 ∖ {[msgid V]})
      (set_comq (set_completion (delete (msgid V) (completion (queue w2))) (queue w2)) w2) =
    after_call (msgid V) c w).
  { unfold w2, w1, completed, after_call. destruct w as [[[] ? ? ? ? ? ? ? ?] ? ? ? ? ?]. cbn in *.
    by rewrite delete_insert_id. }
  split.
  - rewrite (bind_Ret _ _ w1 tt w1).
    2:{ destruct m; cbn [progressExec]; (rewrite (bind_Ret _ _ w1 false w1); [done|]); unfold gets, CommQueueOps.isActive,
          BlockingMap.empty, BlockingQueue.empty; change (request (queue w1)) with (request (queue w));
          change (inflight (queue w1)) with (inflight (queue w)); by rewrite Q1, Q2. }
    rewrite (bind_Ret _ _ w1 tt w2).
    2:{ unfold thread_end. rewrite (bind_Ret _ _ w1 (state (ctx w)) w1) by done.
        rewrite decide_False by apply (calm_state _ (cl_calm _ _ _ Hc)).
        by rewrite (bind_Ret _ _ w1 false w1) by (unfold gets; change (queue w1) with (queue (completed V rv w)); cbn; by rewrite Hfl). }
    set (w3 := set_comq (set_completion (delete (msgid V) (completion (queue w2))) (queue w2)) w2) in *.
    rewrite (bind_Ret _ _ w2 (setResult rv VEO_COMMAND_OK V) w3).
    2:{ unfold on_comq, on, CommQueueOps.waitCompletion, BlockingMap.wait, BlockingMap.tryFindNoWait. rewrite Hu.
        change (completion (queue w2)) with (<[msgid V := setResult rv VEO_COMMAND_OK V]> (completion (queue w))).
        by rewrite lookup_insert_eq. }
    rewrite <- Ea. unfold collect. rewrite (bind_Ret _ _ w3 (remaining w) w3) by done.
    by rewrite bool_decide_eq_true_2.
  - assert (Hl : completion (v_q (view_of (completed V rv w))) !! msgid V = Some (setResult rv VEO_COMMAND_OK V))
      by apply lookup_insert_eq.
    destruct (v_collect_inv _ _ _ _ _ Hi Hl) as [Hi' _]. rewrite <- Ea. exact Hi'.
Qed.

(** ** A VH command from end to end *)

(** A VH command behind the pieces is executed when they are through, in the progress
    thread, in a world in which nothing else is under way; the thread that waits gets
    its result. *)
Lemma vh_tail_through {T} (X : Exchange T) `{XL : !@ExchangeLaws IN MA max_cmd_size latency T X}
    bound V Q tgt K w :
  moving X bound [V] Q tgt K w -> attended w -> is_vh V = true -> nowait V = false ->
  exists J ng w2,
    issued w2 = issued w /\ calling ng V w2 /\ ready K w2 /\ (vh w2, ve_of w2) = tgt /\
    Z.of_nat (l_base (wire_of w2)) < bound <= 2 ^ 31 /\
    forall rv w3, calling ng V w3 ->
      exists c, inv ng [] (view_of (after_call (msgid V) c w3)) /\
        forall (VF : VhFuncs) n, run_submit V w2 = (Ret (0, setResult rv VEO_COMMAND_OK V), w3) ->
          callWaitResult (J + n) (msgid V) w =
            (Ret (VEO_COMMAND_OK, Some (u64 rv)), after_call (msgid V) c w3).
Proof.
  intros Hm (ts & Hts & Hby) Hv Hn.
  destruct (wait_tail X bound [V] ltac:(done) V ltac:(by apply list_elem_of_singleton) Hn ts _ _ _ _ Hm Hts Hby)
    as (J & k & w' & Ew & Ht & Hi' & Hby' & Hk).
  destruct (through_calling X bound V _ _ _ Ht Hby') as (ng & Hq & Hcl & Hready & Htgt & Hroom).
  assert (Hk2 : (2 < k)%nat) by (unfold work in Hk; rewrite Hq in Hk; cbn in Hk; lia).
  exists J, ng, (set_comq (set_request [] (queue w')) w'). split_and!; try done; try apply Hroom.
  intros rv w3 Hcl3. destruct (exec_function k ng V rv w' w3 Hq Hv Hn Hcl Hk2 Hcl3) as [c Ec].
  exists c. split; [apply (collect_result no_vh 0 ng V rv c w3 Hcl3 Hn)|]. intros VF n Ev.
  destruct (Ew VF n) as [m Em]. rewrite Em.
  rewrite bind_assoc, (bind_Ret _ _ _ _ _ (Ec VF Ev)). apply (collect_result VF m ng V rv c w3 Hcl3 Hn).
Qed.

(** A VH function is called behind the pieces; its value is the result of the request. *)
Lemma vh_request_through {T} (X : Exchange T) `{XL : !@ExchangeLaws IN MA max_cmd_size latency T X}
    bound func arg Q tgt K w :
  moving X bound [] Q tgt K w -> attended w -> issued w + 1 < 2 ^ 64 ->
  func <> user_func 0 -> func <> synchronize_func ->
  exists J ng w1 w2,
    callVHAsync func arg w = (Ret (issued w), w1) /\ issued w2 = issued w + 1 /\
    calling ng (vh_command (issued w) func arg) w2 /\ ready K w2 /\ (vh w2, ve_of w2) = tgt /\
    Z.of_nat (l_base (wire_of w2)) < bound <= 2 ^ 31 /\
    forall rv w3, calling ng (vh_command (issued w) func arg) w3 ->
      exists c, inv ng [] (view_of (after_call (issued w) c w3)) /\
        forall (VF : VhFuncs) n, vh_call func arg w2 = (Ret rv, w3) ->
          callWaitResult (J + n) (issued w) w1 =
            (Ret (VEO_COMMAND_OK, Some (u64 rv)), after_call (issued w) c w3).
Proof.
  intros Hm Hatt Hb Hf0 Hfs. set (V := vh_command (issued w) func arg).
  assert (Hm1 : moving X bound [V] Q tgt K (pushed V w)).
  { apply (push_vh X bound (C_vh func arg)); try done. intros d Hd. by apply not_elem_of_nil in Hd. }
  assert (Hatt1 : attended (pushed V w)) by (by apply (attended_same w)).
  destruct (notify_moving X bound [V] _ _ _ _ Hm1) as (w1 & En & Hm2 & Hi2).
  destruct (vh_tail_through X bound V Q tgt K w1 Hm2 (notify_attended _ _ En Hatt1) eq_refl eq_refl)
    as (J & ng & w2 & Hi' & Hcl & Hrd & Htgt & Hroom & Hrun).
  exists J, ng, w1, w2. split_and!; try done; try apply Hroom.
  - destruct Hm as (ng0 & kept & rest & Hu & _).
    rewrite (callVHAsync_calm ng0); [|apply (uw_inv _ _ _ _ _ _ _ Hu)|apply (uw_calm _ _ _ _ _ _ _ Hu)|done|done].
    by rewrite (bind_Ret _ _ _ _ _ En).
  - by rewrite Hi', Hi2.
  - intros rv w3 Hcl3. destruct (Hrun rv w3 Hcl3) as (c & Hic & Hc). exists c. split; [exact Hic|].
    intros VF n Ev. apply (Hc VF n). unfold run_submit. cbn [V vh_command CommandImpl_vh code].
    rewrite (bind_Ret _ _ w2 rv w3); [done|]. by destruct func.
Qed.
End VhCommands.
