(* ===== verification/EndToEnd.v ===== *)
(** * Transfers from end to end

    A context writes to VE memory and reads from it, through its queues, ve-urpc
    and the message handlers of the VE: the exchange of a fragment, the chain of
    all fragments, and the memories afterwards. *)

From Stdlib Require Import ZArith Lia Bool.
From stdpp Require Import base gmap list numbers sets strings.
From S2P Require Import Prelude CallArgs Command Urpc Ve Context Example Requests Progress.
From S2P Require Import AsyncTransfer Calls Lifecycle Liveness Exchange VhCommands.

Open Scope Z_scope.

Inductive direction := Write | Read.

(** A fragment of a transfer. *)
Record block := mkBlock { b_dst : Z; b_src : Z; b_len : Z }.

Definition block_ok (t : block) : Prop :=
  in_u64 (b_dst t) /\ in_u64 (b_src t) /\ 0 < b_len t < 2 ^ 64.

Section EndToEnd.
Context `{IN : Indet} `{MA : Machine} (max_cmd_size : Z) (latency : nat).

#[local] Hint Extern 0 Urpc => exact (@wire IN MA max_cmd_size latency) : typeclass_instances.
#[local] Hint Extern 0 (UrpcLaws _) => exact (@wire_laws IN MA max_cmd_size latency) : typeclass_instances.


Implicit Types (w : world).

(** ** The exchange of a fragment *)

Definition moved (dir : direction) (hs : heap * ve) (t : block) : heap * ve :=
  let '(h, s) := hs in
  match dir with
  | Write => (h, set_ve_mem (mem_write (ve_mem s) (b_dst t)
                   (mem_read (h_mem h) (b_src t) (Z.to_nat (b_len t)))) s)
  | Read => (set_h_mem (mem_write (h_mem h) (b_dst t)
                   (mem_read (ve_mem s) (b_src t) (Z.to_nat (b_len t)))) h, s)
  end.

(** The command of a fragment. *)
Definition block_code (dir : direction) (prev : Z) (t : block) : closure :=
  match dir with
  | Write => C_sendbuff (b_dst t) (b_src t) (b_len t) prev
  | Read => C_recvbuff (b_dst t) (b_src t) (b_len t) prev
  end.

#[export] Instance transfer (dir : direction) (sp : Z) : Exchange block := {|
  ex_sp := sp;
  ex_code := block_code dir;
  ex_message := fun h t =>
    match dir with
    | Write => (URPC_CMD_SENDBUFF,
                [VL (b_dst t); VP (mem_read (h_mem h) (b_src t) (Z.to_nat (b_len t)))])
    | Read => (URPC_CMD_RECVBUFF, [VL (b_src t); VL (b_dst t); VL (b_len t)])
    end;
  ex_reply := fun hs t =>
    match dir with
    | Write => (URPC_CMD_ACK, [])
    | Read => (URPC_CMD_SENDBUFF,
               [VL (b_dst t); VP (mem_read (ve_mem (snd hs)) (b_src t) (Z.to_nat (b_len t)))])
    end;
  ex_effect := moved dir;
  ex_value := fun _ _ => 0;
  ex_able := fun _ t => block_ok t;
  ex_chain := true;
|}.

(** The result of the piece before is taken. *)
Lemma chain_taken ng hand prev w :
  inv ng hand (view_of w) -> prev = VEO_REQUEST_ID_INVALID \/ finished prev 0 w ->
  exists R D, chain_result prev w = (Ret (VEO_COMMAND_OK, 0),
      set_rem R (set_comq (set_completion D (queue w)) w)) /\
    (forall k, k <> prev -> D !! k = completion (queue w) !! k) /\
    (forall k, k <> prev -> k ∈ remaining w -> k ∈ R).
Proof.
  intros Hi [->|[Hr (c & Hc & Hs & Hv)]]; unfold chain_result.
  { rewrite Z.eqb_refl. exists (remaining w), (completion (queue w)). split; [|done].
    unfold ret. f_equal. by destruct w as [[[] ? ? ? ? ? ? ? ?] ? ? ? ? ?]. }
  destruct (Z.eqb_spec prev VEO_REQUEST_ID_INVALID) as [->|_].
  { pose proof (core_old _ _ _ (proj1 Hi) _ (core_rem _ _ _ (proj1 Hi) _ Hr)).
    pose proof (core_bound _ _ _ (proj1 Hi)). unfold VEO_REQUEST_ID_INVALID in *. lia. }
  exists (remaining w ∖ {[prev]}), (delete prev (completion (queue w))). split_and!.
  - rewrite (bind_Ret _ _ _ _ _ (peek_done _ _ _ _ _ Hi Hr Hc)). by rewrite Hs, Hv.
  - intros k Hk. by rewrite lookup_delete_ne.
  - set_solver.
Qed.

Lemma unpack_fragment dir sp ng hand prev t c s w :
  inv ng hand (view_of w) -> block_ok t -> code c = @ex_code _ _ (transfer dir sp) prev t ->
  prev = VEO_REQUEST_ID_INVALID \/ finished prev 0 w ->
  exists R D, run_unpack c (@ex_reply _ _ (transfer dir sp) (vh w, s) t) w =
      (Ret (0, setResult 0 VEO_COMMAND_OK c),
       set_rem R (set_comq (set_completion D (queue w)) (set_vh (fst (moved dir (vh w, s) t)) w))) /\
    (forall k, k <> prev -> D !! k = completion (queue w) !! k) /\
    (forall k, k <> prev -> k ∈ remaining w -> k ∈ R).
Proof.
  intros Hi (Hd & Hs & Hl) Ec Hp. unfold run_unpack. rewrite Ec.
  destruct dir; cbn [ex_code block_code ex_reply moved transfer fst snd].
  - destruct (chain_taken ng hand prev w Hi Hp) as (R & D & E1 & H1 & H2).
    exists R, D. split; [|done]. by rewrite (bind_Ret _ _ _ _ _ E1).
  - set (b := mem_read (ve_mem s) (b_src t) (Z.to_nat (b_len t))).
    set (w1 := set_vh (set_h_mem (mem_write (h_mem (vh w)) (b_dst t) b) (vh w)) w).
    destruct (chain_taken ng hand prev w1) as (R & D & E1 & H1 & H2); [done|done|].
    exists R, D. split; [|done].
    change (urpc_unpack_payload ?pl ?f) with (0, pl). cbn [lookup list_lookup].
    unfold got_L. cbn [lookup list_lookup]. rewrite u64_small, Z.eqb_refl by done. cbn [negb].
    unfold b at 1. rewrite length_mem_read, Z2Nat.id, Z.eqb_refl by lia. cbn [negb].
    rewrite (bind_Ret _ _ w tt w1) by done. by rewrite (bind_Ret _ _ _ _ _ E1).
Qed.

#[export] Instance transfer_laws dir sp : @ExchangeLaws IN MA max_cmd_size latency _ (transfer dir sp).
Proof.
  split.
  - intros prev t. split; [by destruct dir|]. intros d. destruct dir; cbn [ex_code block_code deps transfer];
      intros [Hd Hin%list_elem_of_singleton]%list_elem_of_filter; done.
  - intros id prev t. by destruct dir.
  - done.
  - intros VF hs prev t c w _ Ec _ Hl Hn. unfold run_submit. rewrite Ec.
    destruct dir; cbn [ex_code block_code ex_message transfer]; unfold bind, gets, generic_send;
      rewrite send_calm, i32_small by (done || unfold l_next in *; lia); apply submitted_calm.
  - intros h s t (Hd & Hs & Hl). destruct dir; cbn [ex_message ex_reply ex_effect moved transfer fst snd].
    + match goal with |- dispatch _ ?vs _ = _ =>
        change (dispatch URPC_CMD_SENDBUFF vs s) with (sendbuff_handler vs s) end.
      unfold sendbuff_handler, arg_L, arg_P. cbn [lookup list_lookup]. by rewrite u64_small.
    + match goal with |- dispatch _ ?vs _ = _ =>
        change (dispatch URPC_CMD_RECVBUFF vs s) with (recvbuff_handler vs s) end.
      unfold recvbuff_handler, arg_L. cbn [lookup list_lookup]. rewrite !u64_small by (done || lia). done.
  - intros ng hand prev t c s w Hi Hok Ec Hp. by apply (unpack_fragment dir sp ng hand).
  - intros [h s] t _. by destruct dir.
Qed.

Context `{VF : !VhFuncs} `{VH : !VhLocal VF} `{BO : BucketOrder} `{E : Env}.

(** ** Exchanges that include transfers *)

(** Among the pieces of [X] are fragments: [put] makes a piece of one.  Pieces of the kind
    [Q], to which fragments belong, leave the messages of fragments alone. *)
Class Transfers {T} (X : Exchange T) (dir : direction) (put : block -> T) (Q : T -> Prop) := {
  tr_code : forall prev b, ex_code prev (put b) = block_code dir prev b;
  tr_effect : forall hs b, ex_effect hs (put b) = moved dir hs b;
  tr_value : forall hs b, ex_value hs (put b) = 0;
  tr_able : forall hs b, block_ok b -> ex_able hs (put b);
  tr_chain : ex_chain = true;
  tr_kind : forall b, Q (put b);
  tr_message : forall hs t b, Q t -> ex_able hs t ->
    ex_message (fst (ex_effect hs t)) (put b) = ex_message (fst hs) (put b);
}.

#[export] Instance transfer_itself dir sp : Transfers (transfer dir sp) dir (fun b => b) (fun _ => True).
Proof. split; try done. intros [h s] t b _ _. by destruct dir. Qed.

(** ** Submitting the fragments *)

Definition buff (dir : direction) : Z -> Z -> Z -> Z -> M world Z :=
  match dir with Write => sendBuffAsync | Read => recvBuffAsync end.

Section Chain.
Context {T : Type} (X : Exchange T) `{XL : !@ExchangeLaws IN MA max_cmd_size latency T X}.
Context (dir : direction) (put : block -> T) (Q : T -> Prop) `{TR : !Transfers X dir put Q}.

Lemma push_block bound tgt prev K w d s n :
  moving X bound [] Q tgt K w -> linked_to prev K -> block_ok (mkBlock d s n) ->
  issued w + 1 < 2 ^ 64 -> bound + 1 <= 2 ^ 31 ->
  exists w', buff dir d s n prev w = (Ret (issued w), w') /\
    issued w <> VEO_REQUEST_ID_INVALID /\ issued w' = issued w + 1 /\ bystander w' = bystander w /\
    moving X (bound + 1) [] Q (moved dir tgt (mkBlock d s n)) ((issued w, 0) :: without prev K) w'.
Proof.
  intros Hm Hl Hok Hb Hbound. set (b := mkBlock d s n) in *.
  exists (pushed (CommandImpl_ve (issued w) (ex_code prev (put b))) w).
  split_and!; [|unfold VEO_REQUEST_ID_INVALID; lia|done|done|].
  - destruct Hm as (ng & kept & rest & Hu & _). pose proof (calm_alive w (uw_calm _ _ _ _ _ _ _ Hu)) as Ha.
    rewrite tr_code. destruct dir; cbn [buff block_code]; unfold sendBuffAsync, recvBuffAsync;
      (rewrite (bind_Ret _ _ w true w) by (unfold gets; by rewrite Ha)); cbn [negb];
      by rewrite (bind_Ret _ _ _ _ _ (issue_calm _ _ (uw_inv _ _ _ _ _ _ _ Hu) Hb)).
  - rewrite <- tr_effect, <- (tr_value tgt b). apply (push_moving X bound Q Q); try done.
    + apply tr_kind.
    + intros hs t Ht Hab. by apply tr_message.
    + by apply tr_able.
    + right. apply tr_chain.
Qed.

(** The effect of the pieces at some offsets. *)
Definition copied (dir : direction) (d s : Z) (t : heap * ve) (l : list (Z * Z)) : heap * ve :=
  foldl (fun t ol => moved dir t (mkBlock (u64 (d + fst ol)) (u64 (s + fst ol)) (snd ol))) t l.

Definition new_last (first last : Z) (l : list (Z * Z)) : Z :=
  match l with [] => last | _ => first + Z.of_nat (length l) - 1 end.

(** The result of the last fragment is there in the end, those of the others are not. *)
Definition chain_results (first prev : Z) (l : list (Z * Z)) (K : list (Z * Z)) : list (Z * Z) :=
  match l with [] => K | _ => (new_last first prev l, 0) :: without prev K end.

Lemma chain_moving d s l : forall bound tgt prev K flg w,
  moving X bound [] Q tgt K w -> linked_to prev K -> Forall (fun ol => 0 < snd ol < 2 ^ 64) l ->
  issued w + Z.of_nat (length l) < 2 ^ 64 -> bound + Z.of_nat (length l) <= 2 ^ 31 ->
  exists w', submit_chain (buff dir) d s l prev flg w = (Ret (new_last (issued w) prev l), w') /\
    moving X (bound + Z.of_nat (length l)) [] Q (copied dir d s tgt l) (chain_results (issued w) prev l K) w' /\
    issued w' = issued w + Z.of_nat (length l) /\ (attended w -> attended w').
Proof.
  induction l as [|[off len] l IH]; intros bound tgt prev K flg w Hm Hlk Hl Hi Hb; cbn [submit_chain].
  { destruct (notify_moving _ _ _ _ _ _ _ Hm) as (w' & E1 & Hm' & Hi').
    exists w'. rewrite (bind_Ret _ _ _ _ _ E1). cbn [length new_last chain_results]. rewrite !Z.add_0_r.
    split_and!; [done|done|done|by apply (notify_attended _ _ E1)]. }
  cbn [length] in *. apply Forall_cons in Hl as [Hlen Hl].
  destruct (push_block bound tgt prev K w (u64 (d + off)) (u64 (s + off)) len)
    as (w1 & E1 & Hne & Hi1 & Hb1 & Hm1); [done|done|split; [apply u64_range|split; [apply u64_range|exact Hlen]]|lia|lia|].
  rewrite (bind_Ret _ _ _ _ _ E1). destruct (Z.eqb_spec (issued w) VEO_REQUEST_ID_INVALID); [done|].
  set (tgt1 := moved _ _ _) in Hm1. set (K1 := _ :: _) in Hm1.
  assert (exists w2, (if flg then ret tt else progress) w1 = (Ret tt, w2) /\
    moving X (bound + 1) [] Q tgt1 K1 w2 /\ issued w2 = issued w1 /\ bystander w2 = bystander w1)
    as (w2 & E2 & Hm2 & Hi2 & Hb2).
  { destruct flg; [by exists w1|]. destruct (progress_moving X _ _ _ _ _ _ Hm1) as (w' & E' & Hm' & Hi' & Hb').
    by exists w'. }
  rewrite (bind_Ret _ _ _ _ _ E2).
  destruct (IH _ _ (issued w) _ true w2 Hm2) as (w' & E' & Hm' & Hi' & Hatt'); [right; set_solver|done|lia|lia|].
  assert (Hlast : new_last (issued w2) (issued w) l = new_last (issued w) prev ((off, len) :: l)).
  { cbn [new_last length]. destruct l; cbn [new_last length]; lia. }
  assert (HK : chain_results (issued w2) (issued w) l K1 = chain_results (issued w) prev ((off, len) :: l) K).
  { unfold chain_results in *. rewrite <- Hlast. destruct l as [|ol l]; [done|]. f_equal.
    unfold K1. rewrite without_head, without_fresh; [done|]. apply Forall_forall. intros r [_ Hr]%elem_of_without.
    pose proof (proj1 (Forall_forall _ _) (moving_old _ _ _ _ _ _ _ Hm) _ Hr). cbn beta in *. lia. }
  rewrite Hlast in E'. rewrite HK in Hm'. exists w'. split_and!; [done| |lia|].
  - replace (bound + Z.of_nat (S (length l))) with (bound + 1 + Z.of_nat (length l)) by lia. exact Hm'.
  - intros Hatt. apply Hatt', (attended_same w); [congruence|done].
Qed.
End Chain.

(** ** The memories afterwards *)

Lemma tiles_inside maxfrag off size l :
  tiles maxfrag off size l -> Forall (fun ol => off <= fst ol /\ 0 < snd ol /\ fst ol + snd ol <= off + size) l.
Proof.
  induction 1 as [|off len size l Hlen Ht IH]; [constructor|].
  pose proof (tiles_nonneg _ _ _ _ Ht). constructor; [cbn; lia|].
  eapply Forall_impl; [exact IH|]. cbn. lia.
Qed.

Lemma copied_write d s h v l :
  Forall (fun ol => in_u64 (d + fst ol) /\ in_u64 (s + fst ol)) l ->
  copied Write d s (h, v) l = (h, set_ve_mem (copy_frags (h_mem h) d s l (ve_mem v)) v).
Proof.
  intros Hl. revert v. induction Hl as [|[off len] l [Hd Hs] _ IH]; intros v; cbn [copied foldl copy_frags].
  - by destruct v.
  - change (foldl _ ?t l) with (copied Write d s t l). cbn [moved fst snd b_dst b_src b_len] in *.
    rewrite !u64_small by done. by rewrite IH.
Qed.

Lemma copied_read d s h v l :
  Forall (fun ol => in_u64 (d + fst ol) /\ in_u64 (s + fst ol)) l ->
  copied Read d s (h, v) l = (set_h_mem (copy_frags (ve_mem v) d s l (h_mem h)) h, v).
Proof.
  intros Hl. revert h. induction Hl as [|[off len] l [Hd Hs] _ IH]; intros h; cbn [copied foldl copy_frags].
  - by destruct h.
  - change (foldl _ ?t l) with (copied Read d s t l). cbn [moved fst snd b_dst b_src b_len] in *.
    rewrite !u64_small by done. by rewrite IH.
Qed.

(** ** Transfers on a context with nothing to do *)

(** The chain of all pieces, and waiting for the last. *)
Lemma transfer_through dir d s l ng k w :
  inv ng [] (view_of w) -> idle (Z.of_nat (length l) + k) w -> 0 <= k -> l <> [] ->
  Forall (fun ol => 0 < snd ol < 2 ^ 64) l ->
  exists N w1 w', let last := new_last (issued w) VEO_REQUEST_ID_INVALID l in
    last <> VEO_REQUEST_ID_INVALID /\
    submit_chain (buff dir) d s l VEO_REQUEST_ID_INVALID false w = (Ret last, w1) /\
    (forall n, (N <= n)%nat -> callWaitResult n last w1 = (Ret (VEO_COMMAND_OK, Some 0), w')) /\
    idle k w' /\ (vh w', ve_of w') = copied dir d s (vh w, ve_of w) l.
Proof.
  intros Hinv Hidle Hk Hl Hlen.
  destruct (idle_through (transfer dir (ve_sp (ctx w))) ng (Z.of_nat (length l) + k) w Hinv eq_refl
    ltac:(lia) Hidle) as [Ht Hi]. apply (through_moving _ _ _ (fun _ => True)) in Ht.
  pose proof (core_bound _ _ _ (proj1 Hinv)) as Hbd. cbn [v_issued view_of] in Hbd.
  destruct (chain_moving _ dir (fun b => b) _ d s l _ _ VEO_REQUEST_ID_INVALID _ false w Ht ltac:(by left) Hlen)
    as (w1 & E1 & Hm1 & Hi1 & _); [lia|lia|].
  assert (Hne : new_last (issued w) VEO_REQUEST_ID_INVALID l <> VEO_REQUEST_ID_INVALID).
  { destruct l; [done|]. cbn [new_last length] in *. unfold VEO_REQUEST_ID_INVALID. lia. }
  assert (HK : chain_results (issued w) VEO_REQUEST_ID_INVALID l [] =
    [(new_last (issued w) VEO_REQUEST_ID_INVALID l, 0)]) by (by destruct l). rewrite HK in Hm1.
  destruct (wait_through _ _ [] eq_refl _ _ _ _ _ _ Hm1) as (N & w' & HN & Ht' & Hi').
  exists N, w1, w'. split_and!; [done|done|exact (HN VF)| |].
  - eapply through_idle; [exact Ht'|lia|lia].
  - eapply (through_idle _ _ k); [exact Ht'|lia|lia].
Qed.

Lemma pieces_fit maxfrag d s size l :
  tiles maxfrag 0 size l -> 0 < size < 2 ^ 64 -> 0 <= d -> d + size <= 2 ^ 64 -> 0 <= s -> s + size <= 2 ^ 64 ->
  l <> [] /\ Forall (fun ol => 0 < snd ol < 2 ^ 64) l /\
  Forall (fun ol => in_u64 (d + fst ol) /\ in_u64 (s + fst ol)) l.
Proof.
  intros Ht Hsz Hd1 Hd2 Hs1 Hs2. pose proof (tiles_inside _ _ _ _ Ht) as Hin. split_and!.
  - intros ->. inversion Ht. lia.
  - eapply Forall_impl; [exact Hin|]. intros ol (H1 & H2 & H3). lia.
  - eapply Forall_impl; [exact Hin|]. intros ol (H1 & H2 & H3). split; unfold in_u64; lia.
Qed.

Lemma writeMem_copies dst src size ng k w :
  inv ng [] (view_of w) ->
  getenv "VEO_SENDFRAG" = None -> getenv "VEO_SENDCUT" = None ->
  0 < size < 2 ^ 64 -> 0 <= dst -> dst + size <= 2 ^ 64 -> 0 <= src -> src + size <= 2 ^ 64 -> 0 <= k ->
  let l := pieces (write_maxfrag (the_peer w) size) size in
  idle (Z.of_nat (length l) + k) w ->
  exists N w', (forall n, (N <= n)%nat -> writeMem n dst src size w = (Ret 0, w')) /\ idle k w' /\
    vh w' = vh w /\
    ve_of w' = set_ve_mem (copy_frags (h_mem (vh w)) dst src l (ve_mem (ve_of w))) (ve_of w).
Proof.
  intros Hinv E1 E2 Hs Hd1 Hd2 Hs1 Hs2 Hk l Hidle.
  destruct (asyncWriteMem_chain dst src size w) as [Ht Hc]; try done;
    [by eapply calm_alive, idle_calm|unfold in_u64; lia|unfold in_u64; lia|].
  destruct (pieces_fit _ dst src _ _ Ht) as (Hne & Hlen & Hin); try lia. fold l in Hc, Hne, Hlen, Hin.
  destruct (transfer_through Write dst src l ng k w) as (N & w1 & w' & Hl & Es & HN & Hi' & He); try done.
  rewrite copied_write in He by done. injection He as Hv1 Hv2.
  exists (Nat.max N (length l)), w'. split_and!; try done. intros n Hn. unfold writeMem.
  cbn [buff] in Es. rewrite <- (Hc n) in Es by lia. rewrite (bind_Ret _ _ _ _ _ Es).
  destruct (Z.eqb_spec (new_last (issued w) VEO_REQUEST_ID_INVALID l) VEO_REQUEST_ID_INVALID); [done|].
  by rewrite (bind_Ret _ _ _ _ _ (HN n ltac:(lia))).
Qed.

Lemma readMem_copies dst src size ng k w :
  inv ng [] (view_of w) ->
  getenv "VEO_RECVFRAG" = None -> getenv "VEO_RECVCUT" = None ->
  0 < size < 2 ^ 64 -> 0 <= dst -> dst + size <= 2 ^ 64 -> 0 <= src -> src + size <= 2 ^ 64 -> 0 <= k ->
  let l := pieces (read_maxfrag (the_peer w) size) size in
  idle (Z.of_nat (length l) + k) w ->
  exists N w', (forall n, (N <= n)%nat -> readMem n dst src size w = (Ret 0, w')) /\ idle k w' /\
    ve_of w' = ve_of w /\
    vh w' = set_h_mem (copy_frags (ve_mem (ve_of w)) dst src l (h_mem (vh w))) (vh w).
Proof.
  intros Hinv E1 E2 Hs Hd1 Hd2 Hs1 Hs2 Hk l Hidle.
  destruct (asyncReadMem_chain dst src size w) as [Ht Hc]; try done;
    [by eapply calm_alive, idle_calm|unfold in_u64; lia|unfold in_u64; lia|].
  destruct (pieces_fit _ dst src _ _ Ht) as (Hne & Hlen & Hin); try lia. fold l in Hc, Hne, Hlen, Hin.
  destruct (transfer_through Read dst src l ng k w) as (N & w1 & w' & Hl & Es & HN & Hi' & He); try done.
  rewrite copied_read in He by done. injection He as Hv1 Hv2.
  exists (Nat.max N (length l)), w'. split_and!; try done. intros n Hn. unfold readMem.
  cbn [buff] in Es. rewrite <- (Hc n) in Es by lia. rewrite (bind_Ret _ _ _ _ _ Es).
  destruct (Z.eqb_spec (new_last (issued w) VEO_REQUEST_ID_INVALID l) VEO_REQUEST_ID_INVALID); [done|].
  by rewrite (bind_Ret _ _ _ _ _ (HN n ltac:(lia))).
Qed.

Lemma pieces_copy maxfrag m d s size m' a :
  0 < maxfrag -> 0 < size ->
  copy_frags m d s (pieces maxfrag size) m' a = mem_write m' d (mem_read m s (Z.to_nat size)) a.
Proof.
  intros Hm Hs. rewrite (copy_tiles maxfrag m d s 0 size) by (apply pieces_tile; lia).
  by rewrite !Z.add_0_r.
Qed.

End EndToEnd.

(** ** Example: three million bytes, in several pieces *)

