(* ===== verification/RemoteCall.v ===== *)
(** * Calls of VE functions from end to end

    A call through all parts: the frame is built, the request goes through the queues of
    the context and over ve-urpc, the handler of the VE puts the frame on the stack and
    runs the function, and the reply brings the result and the output buffers back.  The
    exchange is that of the request of any call; here it is used for calls with one
    message, in [LargeCall.v] for all. *)

From Stdlib Require Import ZArith Lia Bool.
From stdpp Require Import base gmap list numbers sets strings.
From S2P Require Import Prelude CallArgs Command Urpc Ve Context Example Requests Progress.
From S2P Require Import AsyncTransfer Calls Lifecycle Exchange VhCommands.

Open Scope Z_scope.

(** The request of a call: the address of the function, the registers, the frame on the
    VE stack and its buffer on the VH, and the copies of output buffers.  When the frame
    is larger than a message ([k_large]), what comes back is put into the buffer, and the
    copies are left to a later command. *)
Record remote := mkRemote {
  k_addr : Z;
  k_regs : list Z;
  k_top : Z;
  k_size : Z;
  k_in : bool;
  k_out : bool;
  k_buf : Z;
  k_copies : list Arg.out_copy;
  k_large : bool;
}.

Section RemoteCall.
Context `{IN : Indet} `{MA : Machine} (max_cmd_size : Z) (latency : nat).

#[local] Hint Extern 0 Urpc => exact (@wire IN MA max_cmd_size latency) : typeclass_instances.
#[local] Hint Extern 0 (UrpcLaws _) => exact (@wire_laws IN MA max_cmd_size latency) : typeclass_instances.


Implicit Types (w : world) (k : remote).

(** ** The exchange of a call *)

(** The room for the frame in the message, and the part of the frame that is sent. *)
Definition room k : Z :=
  u64 (max_cmd_size - SEND_CALL_CMD_SIZE_WITHOUT_DATA - 8 * Z.of_nat (length (k_regs k))).

Definition part k : Z := Z.min (room k) (k_size k).

Definition frame_of (h : heap) k : list Z := mem_read (h_mem h) (k_buf k) (Z.to_nat (part k)).

(** The function runs: on a new frame, or on the stack of the handler when there is
    nothing to pass on the stack. *)
Definition callee (h : heap) (s : ve) k : Z * mem :=
  run (k_addr k) (k_regs k) (if k_in k || k_out k then k_top k else curr_sp s)
    (if k_in k then mem_write (ve_mem s) (k_top k) (frame_of h k) else ve_mem s).

(** What the VH does with the frame that comes back. *)
Definition taken_back (h : heap) (s : ve) k : M heap unit :=
  let back := mem_read (snd (callee h s k)) (k_top k) (Z.to_nat (part k)) in
  if k_large k then if k_out k then store (k_buf k) back else ret tt
  else
    (if k_out k then run_copyout (FromBytes back) (k_copies k) else ret tt) ;;;
    delete_char (k_buf k).

#[export] Instance call_exchange (sp : Z) : Exchange remote := {|
  ex_sp := sp;
  ex_code := fun _ k => C_call (k_regs k) (k_top k) (k_size k) (k_in k) (k_out k) (k_buf k) (k_addr k)
                          (if k_large k then None else Some (k_copies k)) (if k_large k then k_buf k else 0);
  ex_message := fun h k =>
    let start := [VL (k_addr k); VP (regs_bytes (k_regs k))] in
    let frame := [VL (k_top k); VL sp] in
    match k_in k, k_out k with
    | false, false => (URPC_CMD_CALL, start)
    | true, false => (URPC_CMD_CALL_STKIN, start ++ frame ++ [VP (frame_of h k)])
    | true, true => (URPC_CMD_CALL_STKINOUT, start ++ frame ++ [VP (frame_of h k)])
    | false, true => (URPC_CMD_CALL_STKOUT, start ++ frame ++ [VQ (part k)])
    end;
  ex_reply := fun hs k =>
    let '(result, m) := callee (fst hs) (snd hs) k in
    if k_out k
    then (URPC_CMD_RES_STK, [VL result; VP (mem_read m (k_top k) (Z.to_nat (part k)))])
    else (URPC_CMD_RESULT, [VL result]);
  ex_effect := fun '(h, s) k =>
    (snd (taken_back h s k h), set_ve_mem (snd (callee h s k)) s);
  ex_value := fun hs k => u64 (fst (callee (fst hs) (snd hs) k));
  ex_able := fun '(h, s) k =>
    in_u64 (k_addr k) /\ k_addr k <> 0 /\ Forall in_u64 (k_regs k) /\ (length (k_regs k) <= 8)%nat /\
    in_u64 (k_top k) /\ in_u64 sp /\ curr_sp s = sp /\
    0 <= k_size k < 2 ^ 64 /\ (k_in k || k_out k = true -> part k mod 8 = 0) /\
    (if k_large k then k_buf k <> 0 else fst (taken_back h s k h) = Ret tt);
  ex_chain := true;
|}.

Lemma room_range k : 0 <= room k < 2 ^ 64.
Proof. apply u64_range. Qed.

Lemma call_submit (VF : VhFuncs) sp hs prev k c w :
  @ex_able _ _ (call_exchange sp) hs k -> code c = @ex_code _ _ (call_exchange sp) prev k ->
  ve_sp (ctx w) = sp ->
  (length (l_sent (wire_of w)) < link_slots)%nat -> l_next (wire_of w) < 2 ^ 31 ->
  run_submit c w = (Ret (0, setURPCReq (l_next (wire_of w)) VEO_COMMAND_UNFINISHED c),
                    sent (@ex_message _ _ (call_exchange sp) (vh w) k) w).
Proof.
  destruct hs as [h0 s0]. intros (_ & _ & _ & Hl & _) Ec Hsp Hslot Hn.
  unfold run_submit. rewrite Ec. cbn [ex_code ex_message call_exchange]. rewrite Hsp.
  assert (Hsend : send_call_nolock (the_peer w) (h_mem (vh w)) sp (k_addr k) (k_regs k) (k_top k)
      (k_size k) (k_in k) (k_out k) (k_buf k) =
    (l_next (wire_of w), the_peer (sent (@ex_message _ _ (call_exchange sp) (vh w) k) w))).
  { unfold send_call_nolock. cbv zeta.
    change (urpc_max_send_cmd_size (the_peer w)) with max_cmd_size.
    rewrite (u64_small (_ * 8)) by lia. rewrite (Z.mul_comm _ 8). fold (room k).
    replace (if room k <? k_size k then room k else k_size k) with (part k)
      by (unfold part; destruct (Z.ltb_spec (room k) (k_size k)); lia).
    cbn [ex_message call_exchange]. unfold frame_of.
    destruct (k_in k), (k_out k); cbn [andb orb negb] in *; by apply send_calm. }
  rewrite Hsend. apply (submitted_calm c w).
Qed.

Lemma call_dispatch sp h s k :
  @ex_able _ _ (call_exchange sp) (h, s) k ->
  let msg := @ex_message _ _ (call_exchange sp) h k in
  dispatch (fst msg) (snd msg) s =
    (Some (@ex_reply _ _ (call_exchange sp) (h, s) k),
     snd (@ex_effect _ _ (call_exchange sp) (h, s) k)).
Proof.
  intros (Ha & Hne & Hr & Hl & Ht & Hs & Hsp & Hsz & H8 & _).
  cbn [ex_message ex_reply ex_effect call_exchange fst snd]. unfold callee.
  assert (Hp : 0 <= part k) by (pose proof (room_range k); unfold part; lia).
  assert (Hn8 : k_in k || k_out k = true -> Z.to_nat (part k / 8 * 8) = Z.to_nat (part k)).
  { intros Hio. f_equal. specialize (H8 Hio). pose proof (Z.div_mod (part k) 8). lia. }
  assert (Hlen : length (frame_of h k) = Z.to_nat (part k)) by apply length_mem_read.
  destruct (k_in k), (k_out k); cbn [orb app fst snd] in *; try specialize (Hn8 eq_refl);
    match goal with |- dispatch ?c ?vs s = _ =>
      change (dispatch c vs s) with (call_handler c vs s) end;
    unfold call_handler, arg_L, arg_P, arg_size; cbn [lookup list_lookup];
    rewrite ?(u64_small (k_addr k)), ?(u64_small (k_top k)), ?(u64_small sp), load_regs_bytes by done;
    rewrite ?Hsp, ?Z.eqb_refl, ?andb_false_r, ?Hlen, ?Z2Nat.id, ?Hn8 by lia;
    cbn -[run mem_read mem_write Z.mul Z.div Z.to_nat take part];
    destruct (Z.eqb_spec (k_addr k) 0) as [|_]; try done;
    destruct (run _ _ _ _) as [result m]; try done;
    cbn [fst snd]; rewrite take_app_length' by (by rewrite length_mem_read); done.
Qed.

Lemma unpack_value sp prev k c s w :
  @ex_able _ _ (call_exchange sp) (vh w, s) k ->
  code c = @ex_code _ _ (call_exchange sp) prev k ->
  run_unpack c (@ex_reply _ _ (call_exchange sp) (vh w, s) k) w =
    (Ret (0, setResult (@ex_value _ _ (call_exchange sp) (vh w, s) k) VEO_COMMAND_OK c),
     set_vh (fst (@ex_effect _ _ (call_exchange sp) (vh w, s) k)) w).
Proof.
  intros Hab Ec. destruct Hab as (_ & _ & _ & _ & _ & _ & _ & _ & _ & Hb).
  unfold run_unpack. rewrite Ec. cbn [ex_code ex_reply ex_effect ex_value call_exchange fst snd].
  unfold taken_back in *. destruct (callee (vh w) s k) as [result m]. cbn [fst snd] in *.
  unfold bind, on_vh, on in *. destruct (k_large k).
  - destruct (Z.eqb_spec (k_buf k) 0) as [|_]; [done|].
    destruct (k_out k); unfold unpack_call_result; cbn -[u64];
      change (urpc_unpack_payload ?pl ?f) with (0, pl); unfold got_L, got_P; cbn [lookup list_lookup].
    + cbn [Z.eqb negb]. by destruct (Z.eqb_spec (k_buf k) 0) as [|_].
    + done.
  - destruct (k_out k); cbn [fst snd] in *.
    + unfold unpack_call_result. cbn -[delete_char run_copyout u64].
      change (urpc_unpack_payload ?pl ?f) with (0, pl). unfold got_L, got_P. cbn [lookup list_lookup].
      cbn [Z.eqb negb]. unfold bind.
      destruct (run_copyout _ _ (vh w)) as [[[]| | | | |] h1]; try discriminate Hb. cbn [ret fst snd vh set_vh].
      destruct (delete_char (k_buf k) h1) as [[[]| | | | |] h2]; try discriminate Hb. done.
    + unfold unpack_call_result. cbn -[delete_char u64].
      change (urpc_unpack_payload ?pl ?f) with (0, pl). unfold got_L. cbn [lookup list_lookup].
      change (negb (Z.of_nat 1 =? 0)) with true. cbn [ret fst snd vh set_vh] in *.
      destruct (delete_char (k_buf k) (vh w)) as [[[]| | | | |] h2]; try discriminate Hb. done.
Qed.

#[export] Instance call_laws sp : @ExchangeLaws IN MA max_cmd_size latency _ (call_exchange sp).
Proof.
  split.
  - intros prev k. split; [done|]. intros d Hd. by apply not_elem_of_nil in Hd.
  - done.
  - intros hs k. apply u64_idem.
  - intros VF hs prev k c w. apply call_submit.
  - intros h s k. apply call_dispatch.
  - intros ng hand prev k c s w _ Hab Ec _. exists (remaining w), (completion (queue w)).
    split; [|done]. rewrite (unpack_value sp prev k c s w Hab Ec). f_equal.
    by destruct w as [[[] ? ? ? ? ? ? ? ?] ? ? ? ? ?].
  - by intros [h s] k _.
Qed.

Context `{VF : !VhFuncs} `{VH : !VhLocal VF} `{BO : BucketOrder} `{E : Env}.

(** ** The request of a call *)

(** The request of a call is submitted behind the pieces under way, if they leave its
    message alone. *)
Lemma push_call {T} (X : Exchange T) `{XL : !@ExchangeLaws IN MA max_cmd_size latency T X}
    bound (Q Q' : T -> Prop) t k tgt K w :
  moving X bound [] Q tgt K w -> (forall t', Q t' -> Q' t') -> Q' t ->
  (forall hs t', Q t' -> ex_able hs t' -> ex_message (fst (ex_effect hs t')) t = ex_message (fst hs) t) ->
  ex_able tgt t -> (forall sp prev, ex_code prev t = @ex_code _ _ (call_exchange sp) prev k) -> k_addr k <> 0 ->
  issued w + 1 < 2 ^ 64 -> bound + 1 <= 2 ^ 31 ->
  exists w', simpleCallAsync (k_addr k) (k_regs k) (k_top k) (k_size k) (k_in k) (k_out k) (k_buf k)
      (if k_large k then k_buf k else 0) (if k_large k then None else Some (k_copies k)) w =
      (Ret (issued w), w') /\
    issued w' = issued w + 1 /\
    moving X (bound + 1) [] Q' (ex_effect tgt t) ((issued w, ex_value tgt t) :: without VEO_REQUEST_ID_INVALID K) w' /\
    (attended w -> attended w').
Proof.
  intros Hm HQ HQt Hst Hab Hcode Hne0 Hb Hbound.
  pose proof (push_moving X bound Q Q' VEO_REQUEST_ID_INVALID t tgt K w Hm HQ HQt Hst Hab
    ltac:(by left) ltac:(by left) Hb Hbound) as Hm1. rewrite (Hcode 0) in Hm1.
  destruct (progress_moving X _ _ _ _ _ _ Hm1) as (w1 & E1 & Hm2 & Hi1 & Hb1).
  destruct (notify_moving X _ _ _ _ _ _ Hm2) as (w2 & E2 & Hm3 & Hi2).
  exists w2. split_and!; [|by rewrite Hi2, Hi1|done|].
  - destruct Hm as (ng & kept & rest & Hu & _). unfold simpleCallAsync.
    rewrite (bind_Ret _ _ w true w) by (unfold gets; by rewrite (calm_alive w (uw_calm _ _ _ _ _ _ _ Hu))).
    destruct (Z.eqb_spec (k_addr k) 0); [done|]. cbn [orb negb].
    rewrite (bind_Ret _ _ _ _ _ (issue_calm _ _ (uw_inv _ _ _ _ _ _ _ Hu) Hb)).
    rewrite (bind_Ret _ _ _ 0 (pushed (CommandImpl_ve (issued w)
      (@ex_code _ _ (call_exchange 0) VEO_REQUEST_ID_INVALID k)) w)) by done.
    cbn [Z.eqb negb]. rewrite (bind_Ret _ _ _ _ _ (E1 VF)). by rewrite (bind_Ret _ _ _ _ _ E2).
  - intros Hatt. apply (notify_attended _ _ E2), (attended_same _ _ Hb1). by apply (attended_same w).
Qed.

Lemma simpleCall_through ng sp j k w :
  inv ng [] (view_of w) -> idle (1 + j) w -> 0 <= j -> ve_sp (ctx w) = sp -> k_large k = false ->
  @ex_able _ _ (call_exchange sp) (vh w, ve_of w) k ->
  exists N w1 w',
    issued w <> VEO_REQUEST_ID_INVALID /\
    simpleCallAsync (k_addr k) (k_regs k) (k_top k) (k_size k) (k_in k) (k_out k) (k_buf k) 0
      (Some (k_copies k)) w = (Ret (issued w), w1) /\
    (forall n, (N <= n)%nat ->
       callWaitResult n (issued w) w1 = (Ret (VEO_COMMAND_OK, Some (u64 (fst (callee (vh w) (ve_of w) k)))), w')) /\
    idle j w' /\ (vh w', ve_of w') = @ex_effect _ _ (call_exchange sp) (vh w, ve_of w) k.
Proof.
  intros Hinv Hidle Hj Hsp Hlg Hab.
  pose proof (core_bound _ _ _ (proj1 Hinv)) as Hbd. cbn [v_issued view_of] in Hbd.
  destruct (idle_through (call_exchange sp) ng (1 + j) w Hinv Hsp ltac:(lia) Hidle) as [Ht Hi].
  apply (through_moving _ _ _ (fun _ => False)) in Ht.
  destruct (push_call (call_exchange sp) _ _ (fun _ => True) k k _ _ _ Ht)
    as (w1 & E1 & Hi1 & Hm1 & _); try done; try lia; [apply Hab|].
  rewrite Hlg in E1. cbn [without filter] in Hm1.
  destruct (wait_through (call_exchange sp) _ _ eq_refl _ _ _ _ _ _ Hm1) as (N & w' & HN & Ht' & Hi').
  exists N, w1, w'. split_and!; [unfold VEO_REQUEST_ID_INVALID; lia|done|exact (HN VF)| |].
  - eapply through_idle; [exact Ht'|lia|lia].
  - eapply (through_idle _ _ j); [exact Ht'|lia|lia].
Qed.

(** ** The call *)

(** The arguments [l] of [c] can be passed to the function at [addr]: they are set, the
    frame fits an [int], it lies below the reserved part of the VE stack in the same
    64 MB as the stack pointer, which the context knows; output buffers do not overlap;
    and the heap is in order. *)
Record callable (addr : Z) (c : CallArgs) (l : list ArgBase) w : Prop := {
  ca_addr : in_u64 addr /\ addr <> 0;
  ca_args : arguments c = Some <$> l /\ Forall arg_ok l /\ fits_int l;
  ca_sp : ve_sp (ctx w) = curr_sp (ve_of w) /\
          RESERVED_STACK_SIZE + frame_size l <= ve_sp (ctx w) < 2 ^ 64;
  ca_page : Z.land (ve_sp (ctx w)) VE_PAGE_MASK =
            Z.land (ve_sp (ctx w) - RESERVED_STACK_SIZE - frame_size l) VE_PAGE_MASK;
  ca_out : areas_disjoint (out_areas l);
  ca_heap : 0 < h_brk (vh w) /\ (h_brk (vh w) ∉ h_live (vh w)) /\
            (stack_buf c = 0 \/ stack_buf c ∈ h_live (vh w));
}.

(** The room for the frame in the message of the call. *)
Definition call_room (l : list ArgBase) : Z :=
  max_cmd_size - SEND_CALL_CMD_SIZE_WITHOUT_DATA - 8 * Z.of_nat (Nat.min 8 (length l)).

(** There is nothing to pass on the stack, or the frame fits into the message. *)
Definition fits_message (l : list ArgBase) : Prop :=
  any_in 0 l || any_out l = true -> frame_size l <= call_room l < 2 ^ 64.

Section Call.
Context (addr : Z) (c : CallArgs) (l : list ArgBase) (w : @world (@wire IN MA max_cmd_size latency)).
Context (Hc : callable addr c l w).

Let sp := ve_sp (ctx w).
Let top := sp - RESERVED_STACK_SIZE - frame_size l.
Let placed := place_all top (area_len l) l.
Let regs := (fun a => u64 (Arg.getRegVal a)) <$> take 8 placed.

(** What is called, with the frame in the buffer at [buf]. *)
Definition the_call (buf : Z) : remote :=
  mkRemote addr regs top (frame_size l) (any_in 0 l) (any_out l) buf (copies top placed)
    (negb (negb (any_in 0 l || any_out l) || (frame_size l <=? u64 (call_room l)))).

Lemma frame_size_bounds : 0 <= frame_size l < 2 ^ 32 /\ frame_size l mod 8 = 0.
Proof.
  destruct (ca_args _ _ _ _ Hc) as (_ & _ & Hf). unfold fits_int in Hf.
  pose proof (frame_size_spec l) as [H1 H2]. split; [lia|].
  rewrite (Z.div_mod (frame_size l) 16), H2 by done.
  replace (16 * (frame_size l / 16) + 0) with (2 * (frame_size l / 16) * 8) by lia. apply Z.mod_mul. lia.
Qed.

Lemma top_u64 : u64 (u64 (sp - RESERVED_STACK_SIZE) - frame_size l) = top /\ 0 <= top < 2 ^ 64.
Proof.
  destruct (ca_sp _ _ _ _ Hc) as [_ Hsp]. pose proof frame_size_bounds. fold sp in Hsp.
  unfold top, RESERVED_STACK_SIZE in *. rewrite u64_sub_l, u64_small by lia. lia.
Qed.

Lemma length_regs : length regs = Nat.min 8 (length l).
Proof. unfold regs, placed. by rewrite length_fmap, length_take, length_place_all. Qed.

(** The arguments with their frame built. *)
Record framed (c' : CallArgs) : Prop := {
  fr_args : arguments c' = Some <$> placed;
  fr_top : stack_top c' = top;
  fr_size : stack_size c' = frame_size l;
  fr_in : copied_in c' = any_in 0 l;
  fr_out : copied_out c' = any_out l;
}.

Lemma framed_copyout c' : framed c' -> copyout c' = Ret (copies top placed).
Proof.
  intros [Ha Ht _ _ Ho]. rewrite (copyout_spec _ placed); [by rewrite Ht|done|].
  rewrite Ho. symmetry. apply any_out_place_all.
Qed.

Lemma framed_regs c' : framed c' -> reg_args_size c' = 8 * Z.of_nat (Nat.min 8 (length l)).
Proof.
  intros Hf. destruct (ca_args _ _ _ _ Hc) as (_ & _ & Hfi). unfold fits_int, area_len in Hfi.
  assert (Hn : numArgs c' = Z.of_nat (length l)).
  { rewrite (numArgs_exact c' placed (fr_args _ Hf)); unfold placed; rewrite length_place_all; lia. }
  unfold reg_args_size, NUM_ARGS_ON_REGISTER. rewrite Hn. cbv zeta.
  destruct (Z.ltb_spec 8 (Z.of_nat (length l))); rewrite u64_small by lia; lia.
Qed.

(** Whether the call is made with one message. *)
Lemma framed_small c' :
  framed c' ->
  small_call (max_cmd_size - SEND_CALL_CMD_SIZE_WITHOUT_DATA) (reg_args_size c') c' =
  negb (any_in 0 l || any_out l) || (frame_size l <=? u64 (call_room l)).
Proof. intros Hf. unfold small_call. by rewrite (framed_regs _ Hf), (fr_in _ Hf), (fr_out _ Hf), (fr_size _ Hf). Qed.

(** The frame is in a new buffer. *)
Lemma call_framed :
  exists img c1 h1,
    getStackImage (h_mem (vh w)) (u64 (sp - RESERVED_STACK_SIZE)) c = Ret (img, c1) /\
    Z.of_nat (length img) = frame_size l /\ framed c1 /\
    h1 = mkHeap (mem_write (h_mem (vh w)) (h_brk (vh w)) img)
           (h_brk (vh w) + align_up 16 (frame_size l + 1))
           (if stack_buf c =? 0 then {[h_brk (vh w)]} ∪ h_live (vh w)
            else ({[h_brk (vh w)]} ∪ h_live (vh w)) ∖ {[stack_buf c]}) /\
    setup_args c w = (Ret (set_stack_buf (h_brk (vh w)) c1), set_vh h1 w).
Proof.
  destruct (ca_args _ _ _ _ Hc) as (Hargs & Hok & Hf).
  destruct (ca_heap _ _ _ _ Hc) as (_ & _ & Hbuf). destruct top_u64 as [Htop _].
  destruct (setup_image (u64 (sp - RESERVED_STACK_SIZE)) c l (vh w) Hargs Hok Hf Hbuf)
    as (img & c1 & Himg & Hlen & Ec1 & Es).
  rewrite Htop in Ec1. fold placed in Ec1.
  set (h1 := mkHeap (mem_write _ _ _) _ _) in Es. exists img, c1, h1. split_and!; try done.
  - by rewrite Ec1.
  - unfold setup_args, bind, gets, on_vh, on. fold sp. by rewrite Es.
Qed.

Lemma callAsync_setup n c1 w1 :
  is_alive w = true -> setup_args c w = (Ret c1, w1) -> callAsync n addr c w = doCallAsync n addr c1 w1.
Proof.
  intros Ha Es. destruct (ca_addr _ _ _ _ Hc) as [_ Hne]. unfold callAsync.
  rewrite (bind_Ret _ _ w true w) by (unfold gets; by rewrite Ha).
  destruct (Z.eqb_spec addr 0); [done|]. cbn [orb negb]. by rewrite (bind_Ret _ _ _ _ _ Es).
Qed.

(** [doCallAsync] when the frame is built: one request, or several. *)
Lemma doCall_branches n c1 buf w1 :
  framed c1 -> ve_sp (ctx w1) = sp ->
  doCallAsync n addr (set_stack_buf buf c1) w1 =
  (if negb (any_in 0 l || any_out l) || (frame_size l <=? u64 (call_room l)) then
     let! id := simpleCallAsync addr regs top (frame_size l) (any_in 0 l) (any_out l) buf 0
                  (Some (copies top placed)) in
     ret (id, set_stack_buf 0 c1)
   else
     let extra_stk := u64 (top + call_room l) in
     let extra_buf := u64 (buf + call_room l) in
     let extra_size := u64 (frame_size l - call_room l) in
     let! writereq := (if any_in 0 l then asyncWriteMem n extra_stk extra_buf extra_size
                       else ret VEO_REQUEST_ID_INVALID) in
     let! callreq := simpleCallAsync addr regs top (frame_size l) (any_in 0 l) (any_out l) buf buf None in
     let! readreq := (if any_out l then asyncReadMem n extra_buf extra_stk extra_size
                      else ret VEO_REQUEST_ID_INVALID) in
     let! id := issueRequestID in
     let! rc := push_request (CommandImpl_vh id
                  (C_largecall writereq callreq readreq buf (any_out l) (Some (copies top placed)))) in
     if negb (rc =? 0) then ret (VEO_REQUEST_ID_INVALID, set_stack_buf 0 c1)
     else progress ;;; notifyAll ;;; ret (id, set_stack_buf 0 c1)) w1.
Proof.
  intros Hf Hsp. destruct (ca_addr _ _ _ _ Hc) as [_ Hne]. set (c2 := set_stack_buf buf c1).
  assert (Hf2 : framed c2) by (destruct Hf; by split).
  unfold doCallAsync. destruct (Z.eqb_spec addr 0) as [|_]; [done|].
  rewrite (bind_Ret _ _ w1 sp w1) by (unfold gets; by rewrite Hsp).
  rewrite (fr_top _ Hf2). unfold top at 1. unfold sp at 1. rewrite (ca_page _ _ _ _ Hc). fold sp.
  rewrite Z.eqb_refl. cbn [negb].
  rewrite (bind_Ret _ _ w1 regs w1) by (unfold lift; by rewrite (getRegVal_spec c2 placed (fr_args _ Hf2))).
  change (set_stack_buf 0 c2) with (set_stack_buf 0 c1).
  rewrite (bind_Ret _ _ w1 (copies top placed) w1)
    by (unfold lift; rewrite framed_copyout; [done|by destruct Hf]).
  rewrite (bind_Ret _ _ w1 (the_peer w1) w1) by done.
  change (urpc_max_send_cmd_size (the_peer w1)) with max_cmd_size.
  rewrite (framed_small _ Hf2), (fr_size _ Hf2), (fr_in _ Hf2), (fr_out _ Hf2).
  destruct (negb _ || _); [done|]. unfold extra_part. rewrite (framed_regs _ Hf2).
  replace (top + (max_cmd_size - SEND_CALL_CMD_SIZE_WITHOUT_DATA) - 8 * Z.of_nat (Nat.min 8 (length l)))
    with (top + call_room l) by (unfold call_room; lia).
  replace (stack_buf c2 + (max_cmd_size - SEND_CALL_CMD_SIZE_WITHOUT_DATA) - 8 * Z.of_nat (Nat.min 8 (length l)))
    with (buf + call_room l) by (unfold call_room, c2; cbn [stack_buf set_stack_buf]; lia).
  replace (frame_size l - (max_cmd_size - SEND_CALL_CMD_SIZE_WITHOUT_DATA) + 8 * Z.of_nat (Nat.min 8 (length l)))
    with (frame_size l - call_room l) by (unfold call_room; lia).
  done.
Qed.

(** The buffer of an output argument. *)
Lemma out_area_of i buff len in_ vemva :
  placed !! i = Some (ArgOnStack buff len in_ true vemva) -> (buff, len) ∈ out_areas l.
Proof.
  intros Hi. rewrite <- (copy_areas_place_all top top (area_len l)). fold placed.
  change (buff, len) with (copy_area (Arg.mkOutCopy top buff len vemva)).
  apply list_elem_of_fmap_2, elem_of_copies. by exists i, buff, len, in_, vemva.
Qed.

(** The output buffers are filled from the frame that came back. *)
Lemma call_copied img c1 pl h :
  getStackImage (h_mem (vh w)) (u64 (sp - RESERVED_STACK_SIZE)) c = Ret (img, c1) -> framed c1 ->
  Z.of_nat (length pl) = frame_size l ->
  exists m2, run_copyout (FromBytes pl) (copies top placed) h = (Ret tt, set_h_mem m2 h) /\
    (forall i buff len in_ vemva, placed !! i = Some (ArgOnStack buff len in_ true vemva) ->
       mem_read m2 buff (Z.to_nat len) = take (Z.to_nat len) (drop (Z.to_nat (u64 (vemva - top))) pl)) /\
    (forall x, (forall r, r ∈ out_areas l -> ~ in_area r x) -> m2 x = h_mem h x).
Proof.
  intros Himg Hf1 Hpl. destruct (ca_args _ _ _ _ Hc) as (Hargs & Hok & Hf).
  destruct (copyout_writes _ _ c l img c1 pl h Hargs Hok Hf Himg) as (fs & m2 & Hfs2 & Hrun & Hr & Hx).
  { by rewrite (fr_size _ Hf1). }
  { apply (ca_out _ _ _ _ Hc). }
  rewrite (framed_copyout _ Hf1) in Hfs2. injection Hfs2 as <-. rewrite (fr_top _ Hf1), (fr_args _ Hf1) in *.
  exists m2. split_and!; [done| |].
  - intros i buff len in_ vemva Hi. apply (Hr i buff len in_ vemva). by rewrite list_lookup_fmap, Hi.
  - intros x Hout. apply Hx. intros i buff len in_ vemva Hi.
    rewrite list_lookup_fmap in Hi. destruct (placed !! i) as [a|] eqn:Ei; [|done]. injection Hi as ->.
    exact (Hout _ (out_area_of _ _ _ _ _ Ei)).
Qed.

(** The buffer of the frame is released. *)
Lemma call_deleted h : h_brk (vh w) ∈ h_live h ->
  delete_char (h_brk (vh w)) h = (Ret tt, mkHeap (h_mem h) (h_brk h) (h_live h ∖ {[h_brk (vh w)]})).
Proof.
  intros Hlive. destruct (ca_heap _ _ _ _ Hc) as (Hbrk & _). unfold delete_char.
  destruct (Z.eqb_spec (h_brk (vh w)) 0); [lia|]. by rewrite decide_True.
Qed.

(** Where in the frame a buffer lies. *)
Lemma placed_inside i buff len in_ out_ vemva :
  placed !! i = Some (ArgOnStack buff len in_ out_ vemva) ->
  exists off : nat, u64 (vemva - top) = Z.of_nat off /\ vemva = top + Z.of_nat off /\ 0 <= len /\
    Z.of_nat off + len <= frame_size l.
Proof.
  intros Hi. destruct (ca_args _ _ _ _ Hc) as (_ & Hok & Hf). pose proof frame_size_bounds as [Hfs _].
  apply lookup_place_all_inv in Hi as (a & Hi & Ea). destruct a as [| | |b n j o v]; try discriminate Ea.
  injection Ea as -> -> -> -> ->. pose proof (lookup_lt_Some _ _ _ Hi) as Hlt.
  pose proof (Forall_lookup_1 _ _ _ _ Hok Hi) as Ha. pose proof (buffer_within_data _ _ _ _ _ Ha) as Hb.
  pose proof (data_off_bound (area_len l) l i _ Hi) as Hd. pose proof (frame_size_spec l) as [Hsz _].
  destruct (ca_sp _ _ _ _ Hc) as [_ Hsp]. destruct top_u64 as [_ Htop]. fold sp in Hsp. cbn [arg_ok] in Ha.
  exists (data_off (area_len l) l i). rewrite frame_offset by (done || lia). split_and!; [done| |lia|lia].
  apply u64_small. unfold top, RESERVED_STACK_SIZE in *. lia.
Qed.

(** The part of the frame a buffer has is at the address the function was given. *)
Lemma frame_part m i buff len in_ out_ vemva :
  placed !! i = Some (ArgOnStack buff len in_ out_ vemva) ->
  take (Z.to_nat len) (drop (Z.to_nat (u64 (vemva - top))) (mem_read m top (Z.to_nat (frame_size l)))) =
  mem_read m vemva (Z.to_nat len).
Proof.
  intros (off & -> & -> & Hlen & Hoff)%placed_inside. rewrite Nat2Z.id. apply mem_read_part. lia.
Qed.

Lemma copy_inside f : f ∈ copies top placed -> 0 <= Arg.oc_len f /\ copy_off f + Arg.oc_len f <= frame_size l.
Proof.
  intros (i & b & n & j & v & Hi & ->)%elem_of_copies. destruct (placed_inside _ _ _ _ _ _ Hi) as (off & Ho & _ & Hn & Hb).
  unfold copy_off. cbn [Arg.oc_len Arg.oc_vemva Arg.oc_top]. rewrite Ho. lia.
Qed.

Lemma the_call_room buf : room (the_call buf) = u64 (call_room l).
Proof. unfold room, call_room. cbn [k_regs the_call]. by rewrite length_regs. Qed.

Lemma call_able h s buf :
  curr_sp s = sp -> (any_in 0 l || any_out l = true -> part (the_call buf) mod 8 = 0) ->
  (if k_large (the_call buf) then buf <> 0 else fst (taken_back h s (the_call buf) h) = Ret tt) ->
  @ex_able _ _ (call_exchange sp) (h, s) (the_call buf).
Proof.
  intros Hsp H8 Hb. cbn [ex_able call_exchange the_call k_addr k_regs k_top k_size k_in k_out].
  destruct (ca_addr _ _ _ _ Hc) as [Ha Hne]. destruct (ca_sp _ _ _ _ Hc) as [_ Hr]. fold sp in Hr.
  pose proof frame_size_bounds as [Hfs _]. destruct top_u64 as [_ Htop]. pose proof length_regs as Hlr.
  split_and!; try done; try lia.
  - unfold regs. apply Forall_fmap, Forall_forall. intros a _. apply u64_range.
  - unfold in_u64. unfold RESERVED_STACK_SIZE in Hr. lia.
Qed.

(** The buffer of the frame is released, and the buffer of an earlier frame too. *)
Lemma live_after : let live1 := if stack_buf c =? 0 then {[h_brk (vh w)]} ∪ h_live (vh w)
                                else ({[h_brk (vh w)]} ∪ h_live (vh w)) ∖ {[stack_buf c]} in
  h_brk (vh w) ∈ live1 /\
  live1 ∖ {[h_brk (vh w)]} =
    (if stack_buf c =? 0 then h_live (vh w) else h_live (vh w) ∖ {[stack_buf c]}).
Proof.
  destruct (ca_heap _ _ _ _ Hc) as (Hbrk & Hn & Hbuf). cbv zeta.
  destruct (Z.eqb_spec (stack_buf c) 0) as [E0|E0].
  - split; [set_solver|]. apply set_eq. set_solver.
  - destruct Hbuf as [|Hbuf]; [done|]. assert (stack_buf c <> h_brk (vh w)) by (intros Hq; by rewrite Hq in Hbuf).
    split; [set_solver|]. apply set_eq. set_solver.
Qed.

(** A synchronous call is an asynchronous one that is waited for. *)
Lemma sync_of_async n id c' w1 v w' :
  callAsync n addr c w = (Ret (id, c'), w1) -> id <> VEO_REQUEST_ID_INVALID ->
  callWaitResult n id w1 = (Ret (VEO_COMMAND_OK, Some v), w') ->
  callSync n addr c w = (Ret (VEO_COMMAND_OK, Some v, c'), w').
Proof.
  intros Ea Hne Ew. destruct (ca_addr _ _ _ _ Hc) as [_ H0]. unfold callAsync in Ea. unfold callSync.
  rewrite (bind_Ret _ _ w (is_alive w) w) in Ea by done. rewrite (bind_Ret _ _ w (is_alive w) w) by done.
  destruct (Z.eqb_spec addr 0); [done|]. destruct (is_alive w); cbn [orb negb] in *; [|by injection Ea as <- _ _].
  unfold bind in Ea |- *. destruct (setup_args c w) as [[]]; try discriminate Ea.
  rewrite Ea. destruct (Z.eqb_spec id VEO_REQUEST_ID_INVALID); [done|]. by rewrite Ew.
Qed.

(** What a call has done in the end, made asynchronously and waited for, or synchronously.
    The function has run with the first arguments in its
    registers and, when something is passed on the stack, its stack pointer at a frame
    that holds the arguments; its result is the result of the call, VE memory is what it
    left, and every output buffer of the VH holds what it left at the address it was given
    for it; else only the released buffer of the frame has changed on the VH. *)
Definition called (N : nat) : Prop :=
  exists img result m0 m' c' id w1 w',
    (forall n, (N <= n)%nat ->
       callAsync n addr c w = (Ret (id, c'), w1) /\
       callWaitResult n id w1 = (Ret (VEO_COMMAND_OK, Some (u64 result)), w') /\
       callSync n addr c w = (Ret (VEO_COMMAND_OK, Some (u64 result), c'), w')) /\
    (forall i a', placed !! i = Some a' -> frame_arg (h_mem (vh w)) top img l i a') /\
    (forall x, m0 x = (if any_in 0 l then mem_write (ve_mem (ve_of w)) top img else ve_mem (ve_of w)) x) /\
    run addr regs (if any_in 0 l || any_out l then top else curr_sp (ve_of w)) m0 = (result, m') /\
    ve_of w' = set_ve_mem m' (ve_of w) /\
    (forall i buff len in_ vemva, placed !! i = Some (ArgOnStack buff len in_ true vemva) ->
       mem_read (h_mem (vh w')) buff (Z.to_nat len) = mem_read m' vemva (Z.to_nat len)) /\
    (forall x, ~ in_area (h_brk (vh w), frame_size l) x -> (forall r, r ∈ out_areas l -> ~ in_area r x) ->
       h_mem (vh w') x = h_mem (vh w) x) /\
    h_live (vh w') =
      (if stack_buf c =? 0 then h_live (vh w) else h_live (vh w) ∖ {[stack_buf c]}) /\
    idle 0 w'.

(** ** Calls with one message *)

Section Small.
Context (Hsmall : fits_message l).

Lemma small_branch : negb (any_in 0 l || any_out l) || (frame_size l <=? u64 (call_room l)) = true.
Proof.
  destruct (any_in 0 l || any_out l) eqn:Eio; [|done]. cbn [negb orb].
  pose proof (Hsmall Eio). pose proof frame_size_bounds. apply Z.leb_le. rewrite u64_small; lia.
Qed.

Lemma small_part buf : any_in 0 l || any_out l = true -> part (the_call buf) = frame_size l.
Proof.
  intros Eio. unfold part. rewrite the_call_room. cbn [k_size the_call].
  pose proof (Hsmall Eio). pose proof frame_size_bounds. rewrite u64_small; lia.
Qed.

Lemma small_taken_back img c1 h1 s :
  getStackImage (h_mem (vh w)) (u64 (sp - RESERVED_STACK_SIZE)) c = Ret (img, c1) -> framed c1 ->
  h_brk (vh w) ∈ h_live h1 ->
  let k := the_call (h_brk (vh w)) in
  let m' := snd (callee h1 s k) in
  exists m2, taken_back h1 s k h1 = (Ret tt, mkHeap m2 (h_brk h1) (h_live h1 ∖ {[h_brk (vh w)]})) /\
    (forall i buff len in_ vemva, placed !! i = Some (ArgOnStack buff len in_ true vemva) ->
       mem_read m2 buff (Z.to_nat len) = mem_read m' vemva (Z.to_nat len)) /\
    (forall x, (forall r, r ∈ out_areas l -> ~ in_area r x) -> m2 x = h_mem h1 x).
Proof.
  intros Himg Hf1 Hlive k m'. pose proof frame_size_bounds as [Hfs _].
  destruct (call_copied img c1 (mem_read m' top (Z.to_nat (frame_size l))) h1 Himg Hf1)
    as (m2 & Hrun & Hr & Hx); [rewrite length_mem_read; lia|].
  exists m2. split_and!; [|intros i buff len in_ vemva Hi; rewrite (Hr _ _ _ _ _ Hi); by eapply frame_part|done].
  unfold taken_back. change (k_large k) with (negb (negb (any_in 0 l || any_out l) || (frame_size l <=? u64 (call_room l)))).
  rewrite small_branch. cbn [negb]. change (k_out k) with (any_out l). change (k_copies k) with (copies top placed).
  change (k_buf k) with (h_brk (vh w)). change (k_top k) with top. fold m'.
  rewrite (bind_Ret _ _ h1 tt (set_h_mem m2 h1)).
  - by rewrite call_deleted.
  - destruct (any_out l) eqn:Eo.
    + unfold k. rewrite small_part by (by rewrite Eo, orb_true_r). exact Hrun.
    + rewrite <- Hrun. by rewrite (copies_not_out top placed) by (by unfold placed; rewrite any_out_place_all).
Qed.

Lemma callSync_small ng : inv ng [] (view_of w) -> idle 1 w -> exists N, called N.
Proof.
  intros Hinv Hidle. pose proof (calm_alive w (idle_calm _ _ Hidle)) as Ha.
  destruct call_framed as (img & c1 & h1 & Himg & Hlen & Hf1 & Eh1 & Eset).
  destruct live_after as [Hlive Hfree]. set (k := the_call (h_brk (vh w))).
  destruct (small_taken_back img c1 h1 (ve_of w) Himg Hf1) as (m2 & Hback & Hout & Hkeep); [by rewrite Eh1|].
  fold k in Hback, Hout. destruct (ca_sp _ _ _ _ Hc) as [Hsp _]. pose proof frame_size_bounds as [Hfs H8].
  assert (Hlg : k_large k = false) by (cbn [k k_large the_call]; by rewrite small_branch).
  assert (Hab : @ex_able _ _ (call_exchange sp) (h1, ve_of w) k).
  { apply call_able; [done| |].
    - intros Eio. unfold k. by rewrite small_part.
    - fold k. by rewrite Hlg, Hback. }
  destruct (simpleCall_through ng sp 0 k (set_vh h1 w))
    as (N & w1 & w' & Hne & Esim & HN & Hi' & He); try done; [by apply idle_vh|].
  cbn [ex_effect call_exchange] in He. change (vh (set_vh h1 w)) with h1 in *.
  change (ve_of (set_vh h1 w)) with (ve_of w) in *. rewrite Hback in He. injection He as Hvh Hve.
  exists N, img, (fst (callee h1 (ve_of w) k)),
    (if any_in 0 l then mem_write (ve_mem (ve_of w)) top img else ve_mem (ve_of w)),
    (snd (callee h1 (ve_of w) k)), (set_stack_buf 0 c1), (issued w), w1, w'.
  rewrite Hvh. cbn [h_mem h_live]. split_and!; try done.
  - intros n Hn. pose proof (HN n Hn) as Ew.
    assert (Ea : callAsync n addr c w = (Ret (issued w, set_stack_buf 0 c1), w1)).
    { rewrite (callAsync_setup n _ _ Ha Eset), (doCall_branches n c1 (h_brk (vh w)) (set_vh h1 w) Hf1 eq_refl), small_branch.
      by rewrite (bind_Ret _ _ _ _ _ Esim). }
    split_and!; [done|done|]. by apply (sync_of_async n (issued w) _ w1).
  - destruct (ca_args _ _ _ _ Hc) as (Hargs & Hok & Hf).
    destruct (call_frame _ _ c l img c1 Hargs Hok Hf Himg) as (_ & _ & Hfa). by rewrite (fr_top _ Hf1) in Hfa.
  - assert (Hframe : any_in 0 l = true -> frame_of h1 k = img).
    { intros Ei. unfold frame_of, k. rewrite small_part by (by rewrite Ei). rewrite Eh1. cbn [k_buf the_call h_mem].
      rewrite <- Hlen, Nat2Z.id. apply mem_read_write_same. }
    unfold callee. change (k_in k) with (any_in 0 l). destruct (any_in 0 l); [rewrite Hframe by done|];
      apply surjective_pairing.
  - intros x Hx1 Hx2. rewrite (Hkeep x Hx2), Eh1. cbn [h_mem].
    apply mem_write_out. unfold in_area in Hx1. cbn [fst snd] in Hx1. lia.
  - rewrite Eh1. exact Hfree.
Qed.
End Small.
End Call.
End RemoteCall.
