(* ===== verification/LargeCall.v ===== *)
(** * Calls with frames larger than a message, from end to end

    The frame goes to the VE in two ways: the first part with the message of the call, the
    rest with transfers before it; what comes back is read with transfers behind it, and a
    command of the VH puts it together and takes the results of all these requests.  The
    exchange of such a call is made of the exchanges of [EndToEnd.v] and [RemoteCall.v];
    the command of the VH is executed as [VhCommands.v] says. *)

From Stdlib Require Import ZArith Lia Bool.
From stdpp Require Import base gmap list numbers sets strings.
From S2P Require Import Prelude CallArgs Command Urpc Ve Context Example Requests Progress.
From S2P Require Import AsyncTransfer Calls Lifecycle Liveness Exchange VhCommands EndToEnd RemoteCall.

Open Scope Z_scope.

(** The requests a call is made of. *)
Inductive move := Send (b : block) | Fetch (b : block) | Invoke (k : remote).

Definition is_send (t : move) : Prop := match t with Send _ => True | _ => False end.

(** Two neighbouring blocks, the second one written first. *)
Lemma mem_write_behind m a bs1 bs2 x :
  mem_write (mem_write m (a + Z.of_nat (length bs1)) bs2) a bs1 x = mem_write m a (bs1 ++ bs2) x.
Proof.
  rewrite <- mem_write_app. destruct (decide (a <= x < a + Z.of_nat (length bs1))) as [Hx|Hx].
  - rewrite (mem_write_out _ (a + _)) by lia. by rewrite !mem_write_in by lia.
  - rewrite (mem_write_out _ a) by lia.
    destruct (decide (a + Z.of_nat (length bs1) <= x < a + Z.of_nat (length bs1) + Z.of_nat (length bs2))) as [Hy|Hy].
    + by rewrite !mem_write_in by lia.
    + by rewrite !mem_write_out by lia.
Qed.

(** Filling the output buffers from the buffer of the frame is the same as filling them
    from what it holds, when they do not overlap with it. *)
Lemma run_copyout_mem a n fs : forall h,
  0 <= a -> a + n <= 2 ^ 64 ->
  (forall f, f ∈ fs -> 0 <= Arg.oc_len f /\ copy_off f + Arg.oc_len f <= n) ->
  (forall f x, f ∈ fs -> in_area (copy_area f) x -> ~ in_area (a, n) x) ->
  run_copyout (FromMem a) fs h = run_copyout (FromBytes (mem_read (h_mem h) a (Z.to_nat n))) fs h.
Proof.
  induction fs as [|f fs IH]; intros h Ha Hn Hin Hdis; [done|].
  destruct (Hin f) as [Hl Hb]; [set_solver|]. assert (Hoff : 0 <= copy_off f) by apply u64_range.
  set (pl := mem_read (h_mem h) a (Z.to_nat n)).
  assert (Hpl : payload_read (h_mem h) (FromBytes pl) (copy_off f) (Z.to_nat (Arg.oc_len f)) =
                payload_read (h_mem h) (FromMem a) (copy_off f) (Z.to_nat (Arg.oc_len f))).
  { unfold payload_read, pl. rewrite length_mem_read.
    assert ((0 <=? copy_off f) && (copy_off f + Z.of_nat (Z.to_nat (Arg.oc_len f)) <=? Z.of_nat (Z.to_nat n)) = true) as ->
      by (rewrite andb_true_iff, !Z.leb_le; lia).
    f_equal. rewrite mem_read_part by lia. rewrite Z2Nat.id by lia.
    destruct (decide (Arg.oc_len f = 0)) as [->|Hne]; [done|]. by rewrite u64_small by lia. }
  cbn [run_copyout]. unfold bind, get, lift. fold (copy_off f). rewrite Hpl. unfold payload_read, store, modify.
  rewrite IH; [|done|done|set_solver|intros g x Hg; apply Hdis; set_solver].
  do 2 f_equal. unfold pl. apply mem_read_ext. intros x Hx. cbn [h_mem set_h_mem]. apply mem_write_out.
  rewrite length_mem_read. pose proof (Hdis f x ltac:(set_solver)) as Hd.
  unfold in_area, copy_area in Hd. cbn [fst snd] in Hd. lia.
Qed.

Section LargeCall.
Context `{IN : Indet} `{MA : Machine} (max_cmd_size : Z) (latency : nat).

#[local] Hint Extern 0 Urpc => exact (@wire IN MA max_cmd_size latency) : typeclass_instances.
#[local] Hint Extern 0 (UrpcLaws _) => exact (@wire_laws IN MA max_cmd_size latency) : typeclass_instances.

Implicit Types (w : world).

(** ** The exchange of the requests *)

#[local] Instance moves (sp : Z) : Exchange move := {|
  ex_sp := sp;
  ex_code := fun prev t =>
    match t with
    | Send b => @ex_code _ _ (transfer Write sp) prev b
    | Fetch b => @ex_code _ _ (transfer Read sp) prev b
    | Invoke k => @ex_code _ _ (call_exchange max_cmd_size sp) prev k
    end;
  ex_message := fun h t =>
    match t with
    | Send b => @ex_message _ _ (transfer Write sp) h b
    | Fetch b => @ex_message _ _ (transfer Read sp) h b
    | Invoke k => @ex_message _ _ (call_exchange max_cmd_size sp) h k
    end;
  ex_reply := fun hs t =>
    match t with
    | Send b => @ex_reply _ _ (transfer Write sp) hs b
    | Fetch b => @ex_reply _ _ (transfer Read sp) hs b
    | Invoke k => @ex_reply _ _ (call_exchange max_cmd_size sp) hs k
    end;
  ex_effect := fun hs t =>
    match t with
    | Send b => @ex_effect _ _ (transfer Write sp) hs b
    | Fetch b => @ex_effect _ _ (transfer Read sp) hs b
    | Invoke k => @ex_effect _ _ (call_exchange max_cmd_size sp) hs k
    end;
  ex_value := fun hs t =>
    match t with
    | Send b => @ex_value _ _ (transfer Write sp) hs b
    | Fetch b => @ex_value _ _ (transfer Read sp) hs b
    | Invoke k => @ex_value _ _ (call_exchange max_cmd_size sp) hs k
    end;
  ex_able := fun hs t =>
    match t with
    | Send b => @ex_able _ _ (transfer Write sp) hs b
    | Fetch b => @ex_able _ _ (transfer Read sp) hs b
    | Invoke k => @ex_able _ _ (call_exchange max_cmd_size sp) hs k
    end;
  ex_chain := true;
|}.

#[local] Instance moves_laws sp : @ExchangeLaws IN MA max_cmd_size latency _ (moves sp).
Proof.
  destruct (transfer_laws max_cmd_size latency Write sp) as [K1 G1 U1 S1 D1 N1 F1].
  destruct (transfer_laws max_cmd_size latency Read sp) as [K2 G2 U2 S2 D2 N2 F2].
  destruct (call_laws max_cmd_size latency sp) as [K3 G3 U3 S3 D3 N3 F3].
  split.
  - intros prev []; [apply K1|apply K2|apply K3].
  - intros _ id prev []; [by apply G1|by apply G2|by apply G3].
  - intros hs []; [apply U1|apply U2|apply U3].
  - intros VF hs prev []; [apply S1|apply S2|apply S3].
  - intros h s []; [apply D1|apply D2|apply D3].
  - intros ng hand prev []; [apply N1|apply N2|apply N3].
  - intros hs []; [apply F1|apply F2|apply F3].
Qed.

#[local] Instance moves_send sp : Transfers (moves sp) Write Send is_send.
Proof. split; try done. intros [h s] t b Ht _. by destruct t. Qed.

#[local] Instance moves_fetch sp : Transfers (moves sp) Read Fetch (fun _ => True).
Proof. by split. Qed.

(** The message of a call is left alone by transfers to the VE. *)
Lemma invoke_message sp k hs t :
  is_send t -> @ex_able _ _ (moves sp) hs t ->
  @ex_message _ _ (moves sp) (fst (@ex_effect _ _ (moves sp) hs t)) (Invoke k) =
  @ex_message _ _ (moves sp) (fst hs) (Invoke k).
Proof. by destruct hs as [h s], t. Qed.

(** ** The command of the VH *)

Context `{BO : BucketOrder}.

(** Other results stay when one is taken. *)
Lemma sub_taken ng V req v K w :
  calling ng V w -> ready K w -> (req, v) ∈ K ->
  exists w', sub_result req w = (Ret (VEO_COMMAND_OK, Some v), w') /\ undisturbed w w' /\
    calling ng V w' /\ ready (without req K) w' /\ vh w' = vh w.
Proof.
  intros Hc Hk Hin. destruct (proj1 (Forall_forall _ _) Hk _ Hin) as [Hr (e & He & Hs & Hv)]. cbn [fst snd] in *.
  pose proof (cl_inv _ _ _ Hc) as Hi.
  set (w' := set_rem (remaining w ∖ {[req]})
               (set_comq (set_completion (delete req (completion (queue w))) (queue w)) w)).
  assert (Hund : undisturbed w w').
  { exists (delete req (completion (queue w))), (remaining w ∖ {[req]}), (count (ctx w)), (vh w).
    unfold w'. by destruct w as [[] ? ? ? ? ?]. }
  exists w'. split_and!; [|done| | |done].
  - unfold sub_result. destruct (Z.eqb_spec req VEO_REQUEST_ID_INVALID) as [->|_].
    { pose proof (core_old _ _ _ (proj1 Hi) _ (core_rem _ _ _ (proj1 Hi) _ Hr)).
      pose proof (core_bound _ _ _ (proj1 Hi)). unfold VEO_REQUEST_ID_INVALID in *. lia. }
    rewrite <- Hs, <- Hv. exact (peek_done _ _ _ _ _ Hi Hr He).
  - apply (calling_undisturbed ng V w); [done|done|].
    destruct (v_collect_inv ng [V] req (view_of w) e Hi He) as [Hi' _]. exact Hi'.
  - apply ready_without; [done| |set_solver]. intros k Hne. by rewrite lookup_delete_ne.
Qed.

Lemma undisturbed_trans w1 w2 w3 : undisturbed w1 w2 -> undisturbed w2 w3 -> undisturbed w1 w3.
Proof.
  intros (D1 & R1 & n1 & h1 & ->) (D2 & R2 & n2 & h2 & ->). exists D2, R2, n2, h2.
  by destruct w1 as [[] ? ? ? ? ?].
Qed.

(** The result of a request that may not have been made. *)
Definition part_result (req : Z) (v : Z) (K : list (Z * Z)) : Prop :=
  req = VEO_REQUEST_ID_INVALID \/ (req, v) ∈ K.

Lemma sub_optional ng V req v K w :
  calling ng V w -> ready K w -> part_result req v K ->
  exists o w', sub_result req w = (Ret (VEO_COMMAND_OK, o), w') /\ undisturbed w w' /\
    calling ng V w' /\ ready (without req K) w' /\ vh w' = vh w.
Proof.
  intros Hc Hk [->|Hin].
  - exists None, w. split_and!; try done.
    + exists (completion (queue w)), (remaining w), (count (ctx w)), (vh w). by destruct w as [[[] ? ? ? ? ? ? ? ?] ? ? ? ? ?].
    + apply Forall_forall. intros r [_ Hr]%elem_of_without. exact (proj1 (Forall_forall _ _) Hk _ Hr).
  - destruct (sub_taken ng V req v K w Hc Hk Hin) as (w' & H). by exists (Some v), w'.
Qed.

(** The command takes the results of the requests before it, fills the output buffers
    from the buffer of the frame and releases that. *)
Lemma largecall_runs ng V writereq callreq readreq buf out fs v K w h' :
  code V = C_largecall writereq callreq readreq buf out (Some fs) ->
  calling ng V w -> ready K w ->
  part_result writereq 0 K -> (callreq, v) ∈ without writereq K ->
  part_result readreq 0 (without callreq (without writereq K)) ->
  ((if out then run_copyout (FromMem buf) fs else ret tt) ;;; delete_char buf) (vh w) = (Ret tt, h') ->
  exists w3, (forall VF : VhFuncs, run_submit V w = (Ret (0, setResult v VEO_COMMAND_OK V), w3)) /\
    calling ng V w3 /\ vh w3 = h' /\ wire_of w3 = wire_of w /\ issued w3 = issued w.
Proof.
  intros Ec Hc Hk Hw Hv Hr Eh.
  destruct (sub_optional ng V _ _ _ _ Hc Hk Hw) as (o1 & w1 & E1 & U1 & C1 & K1 & V1).
  destruct (sub_taken ng V _ _ _ _ C1 K1 Hv) as (w2 & E2 & U2 & C2 & K2 & V2).
  destruct (sub_optional ng V _ _ _ _ C2 K2 Hr) as (o3 & w3 & E3 & U3 & C3 & K3 & V3).
  assert (Hvh : vh w3 = vh w) by congruence.
  assert (U : undisturbed w (set_vh h' w3)).
  { apply (undisturbed_trans w w3); [by do 2 (eapply undisturbed_trans; [eassumption|])|].
    exists (completion (queue w3)), (remaining w3), (count (ctx w3)), h'. by destruct w3 as [[[] ? ? ? ? ? ? ? ?] ? ? ? ? ?]. }
  exists (set_vh h' w3). split_and!.
  - intros VF. unfold run_submit. rewrite Ec. unfold run_largecall.
    rewrite (bind_Ret _ _ _ _ _ E1), (bind_Ret _ _ _ _ _ E2), (bind_Ret _ _ _ _ _ E3). cbn [fst].
    rewrite Z.eqb_refl. cbn [andb negb written snd default].
    unfold bind in Eh. rewrite <- Hvh in Eh. destruct out.
    + destruct (run_copyout (FromMem buf) fs (vh w3)) as [[[]| | | | |] h1] eqn:Er; try discriminate Eh.
      rewrite (bind_Ret _ _ w3 tt (set_vh h1 w3)) by (unfold on_vh, on; by rewrite Er).
      by rewrite (bind_Ret _ _ _ tt (set_vh h' w3)) by (unfold on_vh, on; cbn [vh set_vh]; by rewrite Eh).
    + cbn [ret] in Eh. rewrite (bind_Ret _ _ w3 tt w3) by done.
      by rewrite (bind_Ret _ _ w3 tt (set_vh h' w3)) by (unfold on_vh, on; by rewrite Eh).
  - apply (calling_undisturbed ng V w); [done|done|]. exact (cl_inv _ _ _ C3).
  - done.
  - by destruct U as (D & R & n & h & ->).
  - by destruct U as (D & R & n & h & ->).
Qed.

(** ** The requests are submitted *)

Context `{VF : !VhFuncs} `{VH : !VhLocal VF} `{E : Env}.

(** A transfer that is made when [go] says so: with it its result is there in the end. *)
Lemma maybe_transfer {T} (X : Exchange T) `{XL : !@ExchangeLaws IN MA max_cmd_size latency T X}
    dir (put : block -> T) (Q : T -> Prop) `{TR : !Transfers X dir put Q}
    (go : bool) (async : nat -> M world Z) d s l bound tgt K w :
  moving X bound [] Q tgt K w -> l <> [] -> Forall (fun ol => 0 < snd ol < 2 ^ 64) l ->
  (forall n, (length l <= n)%nat ->
     async n w = submit_chain (buff max_cmd_size latency dir) d s l VEO_REQUEST_ID_INVALID false w) ->
  let j := if go then Z.of_nat (length l) else 0 in
  issued w + j < 2 ^ 64 -> bound + j <= 2 ^ 31 ->
  exists req w', (forall n, (length l <= n)%nat ->
      (if go then async n else ret VEO_REQUEST_ID_INVALID) w = (Ret req, w')) /\
    (if go then issued w <= req < issued w + j else req = VEO_REQUEST_ID_INVALID) /\
    moving X (bound + j) [] Q (if go then copied dir d s tgt l else tgt) (if go then (req, 0) :: K else K) w' /\
    issued w' = issued w + j /\ (attended w -> attended w').
Proof.
  intros Hm Hne Hlen Has j Hi Hb. destruct go; unfold j in *.
  2:{ exists VEO_REQUEST_ID_INVALID, w. rewrite !Z.add_0_r. by split_and!. }
  destruct (chain_moving max_cmd_size latency X dir put Q d s l bound tgt VEO_REQUEST_ID_INVALID K false w)
    as (w' & E1 & Hm' & Hi' & Hatt); [done|by left|done|done|done|].
  exists (new_last (issued w) VEO_REQUEST_ID_INVALID l), w'. split_and!; try done.
  - intros n Hn. by rewrite Has.
  - destruct l; [done|]. cbn [new_last length]. lia.
  - destruct l; [done|]. cbn [new_last length]. lia.
  - assert (HK : chain_results (issued w) VEO_REQUEST_ID_INVALID l K =
      (new_last (issued w) VEO_REQUEST_ID_INVALID l, 0) :: K); [|by rewrite HK in Hm'].
    unfold chain_results. destruct l as [|ol l]; [done|]. f_equal. apply without_fresh.
    eapply Forall_impl; [exact (moving_old _ _ _ _ _ _ _ Hm)|]. intros r Hr. cbn beta in *. cbn [length] in Hi.
    unfold VEO_REQUEST_ID_INVALID. lia.
Qed.

(** The three results are there, each for itself. *)
Lemma parts_kept (i o : bool) writereq callreq readreq v :
  (if i then writereq <> callreq else writereq = VEO_REQUEST_ID_INVALID) ->
  (if o then readreq <> callreq /\ readreq <> writereq else readreq = VEO_REQUEST_ID_INVALID) ->
  callreq <> VEO_REQUEST_ID_INVALID ->
  let K2 := (callreq, v) :: (if i then [(writereq, 0)] else []) in
  let K := if o then (readreq, 0) :: K2 else K2 in
  part_result writereq 0 K /\ (callreq, v) ∈ without writereq K /\
  part_result readreq 0 (without callreq (without writereq K)).
Proof.
  intros Hi Ho Hc K2 K. unfold part_result. rewrite !elem_of_without. cbn [fst].
  assert (Hne : callreq <> writereq) by (destruct i; congruence).
  assert (Hk : (callreq, v) ∈ K) by (unfold K, K2; destruct o; set_solver).
  split_and!; [|done|done|].
  - destruct i; [right|by left]. unfold K, K2. destruct o; set_solver.
  - destruct o as [|]; [right|by left]. destruct Ho as [Ho1 Ho2]. unfold K. set_solver.
Qed.

(** What is needed besides when the frame may be larger than a message: ve-urpc counts in
    words, the settings of transfers are the defaults, the progress thread is there, and
    no output buffer overlaps with the new buffer of the frame. *)
Record large_ready (l : list ArgBase) w : Prop := {
  la_room : 0 <= call_room max_cmd_size l < 2 ^ 64 /\ call_room max_cmd_size l mod 8 = 0;
  la_env : forall name, getenv name = None;
  la_thread : attended w;
  la_buf : h_brk (vh w) + frame_size l <= 2 ^ 64;
  la_out : forall r x, r ∈ out_areas l -> in_area r x -> ~ in_area (h_brk (vh w), frame_size l) x;
}.

(** The call is made with one message. *)
Definition one_message (l : list ArgBase) : bool :=
  negb (any_in 0 l || any_out l) || (frame_size l <=? u64 (call_room max_cmd_size l)).

(** The part of the frame that is not in the message, in pieces. *)
Definition extra_size (l : list ArgBase) : Z := frame_size l - call_room max_cmd_size l.
Definition sent_pieces (l : list ArgBase) w : list (Z * Z) :=
  pieces (write_maxfrag (the_peer w) (extra_size l)) (extra_size l).
Definition fetched_pieces (l : list ArgBase) w : list (Z * Z) :=
  pieces (read_maxfrag (the_peer w) (extra_size l)) (extra_size l).

(** The number of requests a call is made of. *)
Definition sends (l : list ArgBase) w : Z := if any_in 0 l then Z.of_nat (length (sent_pieces l w)) else 0.
Definition fetches (l : list ArgBase) w : Z := if any_out l then Z.of_nat (length (fetched_pieces l w)) else 0.
Definition call_requests (l : list ArgBase) w : Z :=
  if one_message l then 1 else sends l w + 1 + fetches l w + 1.

Lemma requests_pos l w : 0 <= sends l w /\ 0 <= fetches l w /\ 0 < call_requests l w.
Proof.
  unfold call_requests, sends, fetches. destruct (one_message l), (any_in 0 l), (any_out l); lia.
Qed.

Section Large.
Context (addr : Z) (c : CallArgs) (l : list ArgBase) (w : @world (@wire IN MA max_cmd_size latency)).
Context (Hc : callable max_cmd_size latency addr c l w) (Hla : large_ready l w) (Hlarge : one_message l = false).

Let sp := ve_sp (ctx w).
Let top := sp - RESERVED_STACK_SIZE - frame_size l.
Let placed := place_all top (area_len l) l.
Let regs := (fun a => u64 (Arg.getRegVal a)) <$> take 8 placed.
Let buf := h_brk (vh w).
Let r := call_room max_cmd_size l.
Let k := the_call max_cmd_size latency addr l w buf.

Lemma large_facts :
  any_in 0 l || any_out l = true /\ 0 <= r < frame_size l /\ frame_size l < 2 ^ 32 /\
  part max_cmd_size k = r /\ k_large k = true.
Proof.
  pose proof (frame_size_bounds _ _ _ _ _ _ Hc) as [Hfs _]. destruct (la_room _ _ Hla) as [Hr _].
  unfold one_message in Hlarge. destruct (any_in 0 l || any_out l) eqn:Eio; [|done]. cbn [negb orb] in Hlarge.
  apply Z.leb_gt in Hlarge as Hlt. rewrite u64_small in Hlt by done. fold r in Hlt, Hr.
  split_and!; try done; try lia.
  - unfold part, k. rewrite the_call_room, u64_small by done. cbn [k_size the_call]. fold r. lia.
  - unfold k. cbn [k_large the_call]. by rewrite Eio, Hlarge.
Qed.

(** The addresses of the part that is not in the message. *)
Lemma extra_addresses :
  u64 (top + r) = top + r /\ u64 (buf + r) = buf + r /\ u64 (frame_size l - r) = extra_size l /\
  0 < extra_size l < 2 ^ 32 /\ 0 <= top /\ top + r + extra_size l <= 2 ^ 64 /\
  0 <= buf /\ buf + r + extra_size l <= 2 ^ 64.
Proof.
  destruct large_facts as (_ & Hr & Hfs & _). destruct (ca_sp _ _ _ _ _ _ Hc) as [_ Hsp]. fold sp in Hsp.
  destruct (ca_heap _ _ _ _ _ _ Hc) as (Hb & _). pose proof (la_buf _ _ Hla) as Hb2. fold buf in Hb, Hb2.
  unfold extra_size. fold r. unfold top, RESERVED_STACK_SIZE in *. rewrite !u64_small by lia. lia.
Qed.

(** The transfers of the rest of the frame. *)
Lemma large_sends wa :
  is_alive wa = true ->
  let lw := sent_pieces l w in
  lw <> [] /\ Forall (fun ol => 0 < snd ol < 2 ^ 64) lw /\
  Forall (fun ol => in_u64 (top + r + fst ol) /\ in_u64 (buf + r + fst ol)) lw /\
  forall n, (length lw <= n)%nat -> asyncWriteMem n (top + r) (buf + r) (extra_size l) wa =
    submit_chain (buff max_cmd_size latency Write) (top + r) (buf + r) lw VEO_REQUEST_ID_INVALID false wa.
Proof.
  intros Ha. destruct extra_addresses as (_ & _ & _ & He & Ht & Ht2 & Hb & Hb2).
  destruct large_facts as (_ & Hr & _).
  destruct (asyncWriteMem_chain (top + r) (buf + r) (extra_size l) wa) as [Htl Hch];
    try apply Hla; try done; try (unfold in_u64; lia); try lia.
  destruct (pieces_fit _ (top + r) (buf + r) _ _ Htl) as (H1 & H2 & H3); try lia. done.
Qed.

Lemma large_fetches wa :
  is_alive wa = true ->
  let lr := fetched_pieces l w in
  lr <> [] /\ Forall (fun ol => 0 < snd ol < 2 ^ 64) lr /\
  Forall (fun ol => in_u64 (buf + r + fst ol) /\ in_u64 (top + r + fst ol)) lr /\
  forall n, (length lr <= n)%nat -> asyncReadMem n (buf + r) (top + r) (extra_size l) wa =
    submit_chain (buff max_cmd_size latency Read) (buf + r) (top + r) lr VEO_REQUEST_ID_INVALID false wa.
Proof.
  intros Ha. destruct extra_addresses as (_ & _ & _ & He & Ht & Ht2 & Hb & Hb2).
  destruct large_facts as (_ & Hr & _).
  destruct (asyncReadMem_chain (buf + r) (top + r) (extra_size l) wa) as [Htl Hch];
    try apply Hla; try done; try (unfold in_u64; lia); try lia.
  destruct (pieces_fit _ (buf + r) (top + r) _ _ Htl) as (H1 & H2 & H3); try lia. done.
Qed.

(** What the sides do, one request after the other: VE memory when the function starts,
    what the function leaves, and the heap of the VH when all requests are through. *)
Definition before_call (h1 : heap) (s : ve) : mem :=
  if any_in 0 l then copy_frags (h_mem h1) (top + r) (buf + r) (sent_pieces l w) (ve_mem s) else ve_mem s.

Definition large_callee (h1 : heap) (s : ve) : Z * mem :=
  callee max_cmd_size h1 (set_ve_mem (before_call h1 s) s) k.

Definition back_heap (h1 : heap) (s : ve) : heap :=
  let m' := snd (large_callee h1 s) in
  if any_out l then
    set_h_mem (copy_frags m' (buf + r) (top + r) (fetched_pieces l w)
                 (mem_write (h_mem h1) buf (mem_read m' top (Z.to_nat r)))) h1
  else h1.

Lemma large_effect h1 s :
  @ex_effect _ _ (call_exchange max_cmd_size sp) (h1, set_ve_mem (before_call h1 s) s) k =
  (let m' := snd (large_callee h1 s) in
   (if any_out l then set_h_mem (mem_write (h_mem h1) buf (mem_read m' top (Z.to_nat r))) h1 else h1,
    set_ve_mem m' s)).
Proof.
  destruct large_facts as (_ & _ & _ & Hp & Hlg). cbn [ex_effect call_exchange]. fold (large_callee h1 s).
  unfold taken_back. fold (large_callee h1 s). rewrite Hlg, Hp. cbv zeta.
  change (k_out k) with (any_out l). by destruct (any_out l).
Qed.

Lemma large_able h1 s :
  curr_sp s = sp -> @ex_able _ _ (call_exchange max_cmd_size sp) (h1, s) k.
Proof.
  intros Hsp. destruct large_facts as (_ & _ & _ & Hp & Hlg). destruct (ca_heap _ _ _ _ _ _ Hc) as (Hb & _).
  apply (call_able max_cmd_size latency addr c l w Hc); [done| |].
  - intros _. fold buf k. rewrite Hp. apply (la_room _ _ Hla).
  - fold buf k. rewrite Hlg. unfold buf. lia.
Qed.

(** The command of the VH is put behind the requests. *)
Lemma large_tail {A} (f : Z -> A) bound writereq callreq readreq fs tgt K wa :
  moving (moves sp) bound [] (fun _ => True) tgt K wa -> issued wa + 1 < 2 ^ 64 -> attended wa ->
  part_result writereq 0 K -> part_result readreq 0 K -> (exists v, (callreq, v) ∈ K) ->
  let V := CommandImpl_vh (issued wa) (C_largecall writereq callreq readreq buf (any_out l) fs) in
  exists wb, (let! id := issueRequestID in
              let! rc := push_request (CommandImpl_vh id
                           (C_largecall writereq callreq readreq buf (any_out l) fs)) in
              if negb (rc =? 0) then ret (f VEO_REQUEST_ID_INVALID) else progress ;;; notifyAll ;;; ret (f id)) wa =
      (Ret (f (issued wa)), wb) /\
    moving (moves sp) bound [V] (fun _ => True) tgt K wb /\ issued wb = issued wa + 1 /\ attended wb.
Proof.
  intros Hm Hb Hatt Hw Hr Hcall V.
  assert (Hm1 : moving (moves sp) bound [V] (fun _ => True) tgt K (pushed V wa)).
  { apply (push_vh (moves sp)); try done. intros d [Hne Hd]%list_elem_of_filter. split; [done|].
    unfold part_result in *. set_solver. }
  assert (Hatt1 : attended (pushed V wa)) by (by apply (attended_same wa)).
  destruct (progress_moving (moves sp) _ _ _ _ _ _ Hm1) as (w1 & E1 & Hm2 & Hi1 & Hb1).
  destruct (notify_moving (moves sp) _ _ _ _ _ _ Hm2) as (w2 & E2 & Hm3 & Hi2).
  exists w2. split_and!; [|done|by rewrite Hi2, Hi1|].
  - destruct Hm as (ng & kept & rest & Hu & _).
    rewrite (bind_Ret _ _ _ _ _ (issue_calm _ _ (uw_inv _ _ _ _ _ _ _ Hu) Hb)).
    rewrite (bind_Ret _ _ _ 0 (pushed V wa)) by done. cbn [Z.eqb negb].
    rewrite (bind_Ret _ _ _ _ _ (E1 VF)). by rewrite (bind_Ret _ _ _ _ _ E2).
  - apply (notify_attended _ _ E2). by apply (attended_same _ _ Hb1).
Qed.

(** The rest of the frame is sent, *)
Lemma large_written bound h1 s wa :
  moving (moves sp) bound [] is_send (h1, s) [] wa ->
  issued wa + sends l w < 2 ^ 64 -> bound + sends l w <= 2 ^ 31 ->
  exists writereq wb, (forall n, (length (sent_pieces l w) <= n)%nat ->
      (if any_in 0 l then asyncWriteMem n (top + r) (buf + r) (extra_size l) else ret VEO_REQUEST_ID_INVALID) wa =
      (Ret writereq, wb)) /\
    (if any_in 0 l then issued wa <= writereq < issued wa + sends l w else writereq = VEO_REQUEST_ID_INVALID) /\
    moving (moves sp) (bound + sends l w) [] is_send (h1, set_ve_mem (before_call h1 s) s)
      (if any_in 0 l then [(writereq, 0)] else []) wb /\
    issued wb = issued wa + sends l w /\ (attended wa -> attended wb).
Proof.
  intros Hm Hi Hb. destruct (large_sends wa (calm_alive _ (moving_calm _ _ _ _ _ _ _ Hm))) as (Hs1 & Hs2 & Hs3 & Hs4).
  destruct (maybe_transfer (moves sp) Write Send is_send (any_in 0 l)
    (fun n => asyncWriteMem n (top + r) (buf + r) (extra_size l)) (top + r) (buf + r) (sent_pieces l w) _ _ _ wa Hm Hs1 Hs2 Hs4 Hi Hb)
    as (writereq & wb & E1 & Hw & Hm1 & Hi1 & Hatt).
  exists writereq, wb. split_and!; try done.
  replace (h1, set_ve_mem (before_call h1 s) s) with
    (if any_in 0 l then copied Write (top + r) (buf + r) (h1, s) (sent_pieces l w) else (h1, s)); [exact Hm1|].
  unfold before_call. destruct (any_in 0 l); [by apply copied_write|]. by destruct s.
Qed.

(** the function is called, *)
Lemma large_invoked bound h1 K wa :
  let s := ve_of w in
  let m' := snd (large_callee h1 s) in
  moving (moves sp) bound [] is_send (h1, set_ve_mem (before_call h1 s) s) K wa ->
  issued wa + 1 < 2 ^ 64 -> bound + 1 <= 2 ^ 31 ->
  exists wb, simpleCallAsync addr regs top (frame_size l) (any_in 0 l) (any_out l) buf buf None wa = (Ret (issued wa), wb) /\
    moving (moves sp) (bound + 1) [] (fun _ => True)
      (if any_out l then set_h_mem (mem_write (h_mem h1) buf (mem_read m' top (Z.to_nat r))) h1 else h1, set_ve_mem m' s)
      ((issued wa, u64 (fst (large_callee h1 s))) :: K) wb /\
    issued wb = issued wa + 1 /\ (attended wa -> attended wb).
Proof.
  intros s m' Hm Hi Hb. destruct large_facts as (_ & _ & _ & _ & Hlg).
  destruct (ca_sp _ _ _ _ _ _ Hc) as [Hsp _]. destruct (ca_addr _ _ _ _ _ _ Hc) as [_ Hne0].
  destruct (push_call max_cmd_size latency (moves sp) _ is_send (fun _ => True) (Invoke k) k _ _ wa Hm)
    as (wb & E1 & Hi1 & Hm1 & Hatt); try done; [by apply invoke_message|by apply large_able|].
  rewrite Hlg in E1. cbn [ex_effect ex_value moves] in Hm1. rewrite large_effect in Hm1.
  rewrite without_fresh in Hm1; [by exists wb|].
  eapply Forall_impl; [exact (moving_old _ _ _ _ _ _ _ Hm)|]. intros x Hx. cbn beta in *.
  unfold VEO_REQUEST_ID_INVALID. lia.
Qed.

(** and the rest of what comes back is fetched. *)
Lemma large_fetched bound h1 s K wa :
  let m' := snd (large_callee h1 s) in
  moving (moves sp) bound [] (fun _ => True)
    (if any_out l then set_h_mem (mem_write (h_mem h1) buf (mem_read m' top (Z.to_nat r))) h1 else h1, set_ve_mem m' s) K wa ->
  issued wa + fetches l w < 2 ^ 64 -> bound + fetches l w <= 2 ^ 31 ->
  exists readreq wb, (forall n, (length (fetched_pieces l w) <= n)%nat ->
      (if any_out l then asyncReadMem n (buf + r) (top + r) (extra_size l) else ret VEO_REQUEST_ID_INVALID) wa =
      (Ret readreq, wb)) /\
    (if any_out l then issued wa <= readreq < issued wa + fetches l w else readreq = VEO_REQUEST_ID_INVALID) /\
    moving (moves sp) (bound + fetches l w) [] (fun _ => True) (back_heap h1 s, set_ve_mem m' s)
      (if any_out l then (readreq, 0) :: K else K) wb /\
    issued wb = issued wa + fetches l w /\ (attended wa -> attended wb).
Proof.
  intros m' Hm Hi Hb. destruct (large_fetches wa (calm_alive _ (moving_calm _ _ _ _ _ _ _ Hm))) as (Hf1 & Hf2 & Hf3 & Hf4).
  destruct (maybe_transfer (moves sp) Read Fetch (fun _ => True) (any_out l)
    (fun n => asyncReadMem n (buf + r) (top + r) (extra_size l)) (buf + r) (top + r) (fetched_pieces l w) _ _ _ wa Hm Hf1 Hf2 Hf4 Hi Hb)
    as (readreq & wb & E1 & Hr & Hm1 & Hi1 & Hatt).
  fold (fetches l w) in Hr, Hm1, Hi1. exists readreq, wb. split_and!; try done.
  unfold back_heap. fold m'. destruct (any_out l); [|exact Hm1].
  by rewrite copied_read in Hm1.
Qed.

(** All requests are submitted. *)
Lemma large_submitted ng c1 h1 :
  inv ng [] (view_of w) -> idle (call_requests l w) w -> framed max_cmd_size latency l w c1 ->
  let s := ve_of w in
  let m' := snd (large_callee h1 s) in
  let v := u64 (fst (large_callee h1 s)) in
  exists N writereq callreq readreq id K wb,
    let V := CommandImpl_vh id (C_largecall writereq callreq readreq buf (any_out l) (Some (copies top placed))) in
    (forall n, (N <= n)%nat ->
       doCallAsync n addr (set_stack_buf buf c1) (set_vh h1 w) = (Ret (id, set_stack_buf 0 c1), wb)) /\
    moving (moves sp) (2 ^ 31 - 1) [V] (fun _ => True) (back_heap h1 s, set_ve_mem m' s) K wb /\
    attended wb /\ id <> VEO_REQUEST_ID_INVALID /\ issued wb < 2 ^ 64 /\
    part_result writereq 0 K /\ (callreq, v) ∈ without writereq K /\
    part_result readreq 0 (without callreq (without writereq K)).
Proof.
  intros Hinv Hidle Hf1 s m' v. set (w1 := set_vh h1 w). destruct extra_addresses as (Ea1 & Ea2 & Ea3 & _).
  assert (Hreq : call_requests l w = sends l w + 1 + fetches l w + 1) by (unfold call_requests; by rewrite Hlarge).
  pose proof (requests_pos l w) as Hpos. pose proof (core_bound _ _ _ (proj1 Hinv)) as Hbd. cbn [v_issued view_of] in Hbd.
  destruct (idle_through (moves sp) ng (call_requests l w) w1 Hinv eq_refl ltac:(lia) (idle_vh _ h1 _ Hidle)) as [Hm1 Hi1].
  apply (through_moving _ _ _ is_send) in Hm1. change (issued w1) with (issued w) in Hi1.
  destruct (large_written _ h1 s w1 Hm1) as (writereq & w2 & E2 & Hw2 & Hm2 & Hi2 & Hatt2);
    [change (issued w1) with (issued w); lia|lia|]. change (issued w1) with (issued w) in Hi2, Hw2.
  destruct (large_invoked _ h1 _ w2 Hm2) as (w3 & E3 & Hm3 & Hi3 & Hatt3); [lia|lia|]. fold s in Hm3. fold v in Hm3.
  destruct (large_fetched _ h1 s _ w3 Hm3) as (readreq & w4 & E4 & Hr4 & Hm4 & Hi4 & Hatt4); [lia|lia|]. fold m' in Hm4.
  destruct (parts_kept (any_in 0 l) (any_out l) writereq (issued w2) readreq v) as (P1 & P2 & P3).
  { destruct (any_in 0 l); [lia|done]. }
  { destruct (any_out l); [|done]. split; [lia|]. destruct (any_in 0 l); [lia|].
    subst writereq. unfold VEO_REQUEST_ID_INVALID. lia. }
  { unfold VEO_REQUEST_ID_INVALID. lia. }
  set (K := if any_out l then (readreq, 0) :: _ else _) in Hm4, P1, P2, P3.
  destruct (large_tail (fun id => (id, set_stack_buf 0 c1)) _ writereq (issued w2) readreq (Some (copies top placed)) _ _ w4 Hm4)
    as (w5 & E5 & Hm5 & Hi5 & Hatt5); [lia| |done| | |].
  { apply Hatt4, Hatt3, Hatt2. apply (attended_same w); [done|apply Hla]. }
  { destruct P3 as [|P3]; [by left|right]. apply elem_of_without in P3 as [_ P3]. by apply elem_of_without in P3 as [_ P3]. }
  { exists v. by apply elem_of_without in P2 as [_ P2]. }
  exists (length (sent_pieces l w) + length (fetched_pieces l w))%nat, writereq, (issued w2), readreq, (issued w4), K, w5.
  cbv zeta. split_and!; try done; try lia; [| |unfold VEO_REQUEST_ID_INVALID; lia].
  - intros n Hn. rewrite (doCall_branches max_cmd_size latency addr c l w Hc n c1 buf w1 Hf1 eq_refl).
    unfold one_message in Hlarge. rewrite Hlarge. fold r sp top placed regs. cbv zeta. rewrite Ea1, Ea2, Ea3.
    rewrite (bind_Ret _ _ _ _ _ (E2 n ltac:(lia))), (bind_Ret _ _ _ _ _ E3).
    rewrite (bind_Ret _ _ _ _ _ (E4 n ltac:(lia))). exact E5.
  - replace (2 ^ 31 - 1) with (2 ^ 31 - call_requests l w + sends l w + 1 + fetches l w) by lia. exact Hm5.
Qed.

(** ** The memories *)

(** The frame in two parts. *)
Lemma frame_in_parts m a :
  mem_read m a (Z.to_nat (frame_size l)) = mem_read m a (Z.to_nat r) ++ mem_read m (a + r) (Z.to_nat (extra_size l)).
Proof.
  destruct large_facts as (_ & Hr & _). unfold extra_size. fold r.
  replace (Z.to_nat (frame_size l)) with (Z.to_nat r + Z.to_nat (frame_size l - r))%nat by lia.
  by rewrite mem_read_app, Z2Nat.id by lia.
Qed.

(** The function finds the whole frame on its stack. *)
Lemma large_frame_there img h1 s x :
  Z.of_nat (length img) = frame_size l -> h_mem h1 = mem_write (h_mem (vh w)) buf img ->
  (if any_in 0 l then mem_write (before_call h1 s) top (frame_of max_cmd_size h1 k) else before_call h1 s) x =
  (if any_in 0 l then mem_write (ve_mem s) top img else ve_mem s) x.
Proof.
  intros Hlen Hm. unfold before_call. destruct (any_in 0 l); [|done].
  destruct large_facts as (_ & Hr & _ & Hp & _). destruct extra_addresses as (_ & _ & _ & He & _).
  unfold frame_of. rewrite Hp. change (k_buf k) with buf. set (A := mem_read (h_mem h1) buf (Z.to_nat r)).
  set (B := mem_read (h_mem h1) (buf + r) (Z.to_nat (extra_size l))).
  assert (HAB : A ++ B = img).
  { unfold A, B. rewrite <- frame_in_parts, Hm. rewrite <- Hlen, Nat2Z.id. apply mem_read_write_same. }
  assert (HA : r = Z.of_nat (length A)) by (unfold A; rewrite length_mem_read; lia).
  rewrite <- HAB, <- mem_write_behind, <- HA.
  destruct (decide (top <= x < top + Z.of_nat (length A))) as [Hx|Hx].
  - by rewrite !(mem_write_in _ top) by lia.
  - rewrite !(mem_write_out _ top) by lia. unfold sent_pieces. apply pieces_copy; [|lia].
    apply write_maxfrag_pos; [apply Hla..|lia].
Qed.

(** What the function has left in the frame is in the buffer of the VH. *)
Lemma large_frame_back h1 s x :
  any_out l = true ->
  h_mem (back_heap h1 s) x =
  mem_write (h_mem h1) buf (mem_read (snd (large_callee h1 s)) top (Z.to_nat (frame_size l))) x.
Proof.
  intros Ho. unfold back_heap. rewrite Ho. cbn [h_mem set_h_mem].
  destruct large_facts as (_ & Hr & _). destruct extra_addresses as (_ & _ & _ & He & _).
  unfold fetched_pieces. rewrite pieces_copy by (lia || (apply read_maxfrag_pos; [apply Hla..|lia])).
  rewrite frame_in_parts, <- mem_write_app, length_mem_read, Z2Nat.id by lia. done.
Qed.

Lemma back_heap_same h1 s : h_brk (back_heap h1 s) = h_brk h1 /\ h_live (back_heap h1 s) = h_live h1.
Proof. unfold back_heap. by destruct (any_out l). Qed.

(** The output buffers are filled, and the buffer of the frame is released. *)
Lemma large_taken_back img c1 h1 s :
  getStackImage (h_mem (vh w)) (u64 (sp - RESERVED_STACK_SIZE)) c = Ret (img, c1) ->
  framed max_cmd_size latency l w c1 -> buf ∈ h_live h1 ->
  let m' := snd (large_callee h1 s) in
  exists m2, ((if any_out l then run_copyout (FromMem buf) (copies top placed) else ret tt) ;;; delete_char buf)
      (back_heap h1 s) = (Ret tt, mkHeap m2 (h_brk h1) (h_live h1 ∖ {[buf]})) /\
    (forall i buff len in_ vemva, placed !! i = Some (ArgOnStack buff len in_ true vemva) ->
       mem_read m2 buff (Z.to_nat len) = mem_read m' vemva (Z.to_nat len)) /\
    (forall x, ~ in_area (buf, frame_size l) x -> (forall r, r ∈ out_areas l -> ~ in_area r x) -> m2 x = h_mem h1 x).
Proof.
  intros Himg Hf1 Hlive m'. destruct (back_heap_same h1 s) as [Eb El].
  destruct large_facts as (_ & Hr & _). destruct extra_addresses as (_ & _ & _ & _ & _ & _ & Hb & Hb2).
  destruct (call_copied max_cmd_size latency addr c l w Hc img c1 (mem_read m' top (Z.to_nat (frame_size l)))
    (back_heap h1 s) Himg Hf1) as (m2 & Hrun & Hout & Hkeep); [rewrite length_mem_read; lia|].
  fold sp top placed in Hrun, Hout. exists m2. split_and!.
  - rewrite (bind_Ret _ _ _ tt (set_h_mem m2 (back_heap h1 s))).
    { unfold buf. rewrite (call_deleted _ _ _ _ _ _ Hc) by (cbn [h_live set_h_mem]; by rewrite El).
      cbn [h_mem h_brk h_live set_h_mem]. by rewrite Eb, El. }
    rewrite <- Hrun. destruct (any_out l) eqn:Eo.
    + rewrite (run_copyout_mem buf (frame_size l)); [|lia|unfold extra_size in Hb2; fold r in Hb2; lia| |].
      * do 2 f_equal. rewrite (mem_read_ext _ _ _ _ (fun y _ => large_frame_back h1 s y Eo)).
        fold m'. rewrite <- (length_mem_read m' top (Z.to_nat (frame_size l))) at 2. apply mem_read_write_same.
      * intros f Hf. exact (copy_inside max_cmd_size latency addr c l w Hc f Hf).
      * intros f x Hf Hx. apply (la_out _ _ Hla (copy_area f)); [|done].
        rewrite <- (copy_areas_place_all top top (area_len l)). by apply list_elem_of_fmap_2.
    + by rewrite (copies_not_out top placed) by (by unfold placed; rewrite any_out_place_all).
  - intros i buff len in_ vemva Hi. rewrite (Hout _ _ _ _ _ Hi).
    exact (frame_part max_cmd_size latency addr c l w Hc m' i buff len in_ true vemva Hi).
  - intros x Hx1 Hx2. rewrite (Hkeep x Hx2). destruct (any_out l) eqn:Eo; [|unfold back_heap; by rewrite Eo].
    rewrite large_frame_back by done. apply mem_write_out. rewrite length_mem_read.
    unfold in_area in Hx1. cbn [fst snd] in Hx1. lia.
Qed.

Lemma callSync_large ng :
  inv ng [] (view_of w) -> idle (call_requests l w) w -> exists N, called max_cmd_size latency addr c l w N.
Proof.
  intros Hinv Hidle. pose proof (calm_alive w (idle_calm _ _ Hidle)) as Ha. set (s := ve_of w).
  destruct (call_framed max_cmd_size latency addr c l w Hc) as (img & c1 & h1 & Himg & Hlen & Hf1 & Eh1 & Eset).
  destruct (live_after max_cmd_size latency addr c l w Hc) as [Hlive Hfree]. fold buf in Hlive, Hfree.
  destruct (large_taken_back img c1 h1 s Himg Hf1) as (m2 & Hback & Hout & Hkeep); [by rewrite Eh1|].
  destruct (large_submitted ng c1 h1 Hinv Hidle Hf1)
    as (N & writereq & callreq & readreq & id & K & wb & Edo & Hm & Hatt & Hne & Hids & P1 & P2 & P3).
  set (V := CommandImpl_vh id _) in Hm. fold s in P2, Hm.
  destruct (vh_tail_through (moves sp) _ V _ _ _ wb Hm Hatt eq_refl eq_refl)
    as (J & ng2 & w2 & Hi2 & Hcl & Hrd & Htgt & Hroom & Hrun). injection Htgt as Hvh2 Hve2.
  rewrite <- Hvh2 in Hback.
  destruct (largecall_runs ng2 V writereq callreq readreq buf (any_out l) (copies top placed) _ K w2 _ eq_refl Hcl Hrd P1 P2 P3 Hback)
    as (w3 & Erun & Hcl3 & Hvh3 & Hw3 & Hi3).
  destruct (Hrun (u64 (fst (large_callee h1 s))) w3 Hcl3) as (cnt & _ & Hwait). set (w' := after_call (msgid V) cnt w3) in *.
  exists (N + J)%nat, img, (fst (large_callee h1 s)),
    (if any_in 0 l then mem_write (before_call h1 s) top (frame_of max_cmd_size h1 k) else before_call h1 s),
    (snd (large_callee h1 s)), (set_stack_buf 0 c1), id, wb, w'.
  assert (Hvh' : vh w' = mkHeap m2 (h_brk h1) (h_live h1 ∖ {[buf]})) by (rewrite <- Hvh3; done).
  rewrite Hvh'. cbn [h_mem h_live]. split_and!.
  - intros n Hn. pose proof (Hwait VF (n - J)%nat (Erun VF)) as Ew. rewrite u64_idem in Ew.
    change (msgid V) with id in Ew. replace (J + (n - J))%nat with n in Ew by lia.
    assert (Ea : callAsync n addr c w = (Ret (id, set_stack_buf 0 c1), wb)).
    { rewrite (callAsync_setup max_cmd_size latency addr c l w Hc n _ _ Ha Eset). apply Edo. lia. }
    split_and!; [done|done|]. by apply (sync_of_async max_cmd_size latency addr c l w Hc n id _ wb).
  - destruct (ca_args _ _ _ _ _ _ Hc) as (Hargs & Hok & Hf).
    destruct (call_frame _ _ c l img c1 Hargs Hok Hf Himg) as (_ & _ & Hfa).
    by rewrite (fr_top _ _ _ _ _ Hf1) in Hfa.
  - intros x. apply large_frame_there; [done|by rewrite Eh1].
  - destruct large_facts as (Hio & _). rewrite Hio. unfold large_callee, callee.
    change (k_in k || k_out k) with (any_in 0 l || any_out l). rewrite Hio. apply surjective_pairing.
  - unfold ve_of in *. change (wire_of w') with (wire_of w3). by rewrite Hw3, Hve2.
  - exact Hout.
  - intros x Hx1 Hx2. rewrite (Hkeep x Hx1 Hx2), Eh1. cbn [h_mem]. apply mem_write_out.
    unfold in_area in Hx1. cbn [fst snd] in Hx1. unfold buf in Hx1. lia.
  - rewrite Eh1. exact Hfree.
  - apply (after_call_idle ng2 V); [done|rewrite Hi3, Hi2; lia|rewrite Hw3; lia].
Qed.
End Large.

(** ** Calls of any size *)

Lemma callSync_called addr c l ng w :
  inv ng [] (view_of w) -> callable max_cmd_size latency addr c l w ->
  fits_message max_cmd_size l \/ large_ready l w -> idle (call_requests l w) w ->
  exists N, called max_cmd_size latency addr c l w N.
Proof.
  intros Hinv Hc Hor Hidle. destruct (one_message l) eqn:Eone.
  - unfold call_requests in Hidle. rewrite Eone in Hidle.
    apply (callSync_small max_cmd_size latency addr c l w Hc) with (ng := ng); [|done|done].
    destruct Hor as [|Hla]; [done|]. intros Hio. destruct (la_room _ _ Hla) as [Hr _].
    unfold one_message in Eone. rewrite Hio in Eone. cbn [negb orb] in Eone. apply Z.leb_le in Eone.
    rewrite u64_small in Eone; lia.
  - apply callSync_large with (ng := ng); try done. destruct Hor as [Hf|]; [exfalso|done].
    pose proof (small_branch max_cmd_size latency addr c l w Hc Hf) as Hs. unfold one_message in Eone. congruence.
Qed.

End LargeCall.

(** ** Example: ten arguments, among them buffers of all intents, and messages of 128 bytes *)

Definition narrow_urpc : Urpc := @link_urpc demo_indet demo_machine 128 1.

Definition narrow_world : @world narrow_urpc :=
  @mkWorld narrow_urpc
    (@mkContext narrow_urpc new_CommQueue VEO_STATE_RUNNING false 0 demo_sp
       (@mkLink demo_machine 0 [] 0 demo_ve) ∅ 0 T_asleep)
    (mkHeap (fun x => x mod 256) 8192 ∅) true [] [] 0.

