(* ===== verification/VeNode.v ===== *)
(** * VE node numbers

    Models how a VE node is chosen and its architecture found out:
    [set_venode_from_env] and [veo_get_ve_arch] of [veo_api.cpp], and
    [veo_get_arch_info.cpp]. *)

From Stdlib Require Import ZArith Lia Bool Ascii.
From stdpp Require Import base list numbers strings pretty.
From S2P Require Import Prelude AsyncTransfer.

Open Scope Z_scope.

(** ** Reading numbers *)

(** The digits a number is read from: the text after blanks and a sign. *)
Definition unsigned_part (s : string) : string :=
  match skip_space s with
  | String "-" s' | String "+" s' => s'
  | s' => s'
  end.

Definition starts_with_digit (s : string) : bool :=
  match s with
  | String c _ => match digit c with Some _ => true | None => false end
  | EmptyString => false
  end.

(** [std::stoi] *)
Definition stoi (s : string) : outcome Z :=
  if starts_with_digit (unsigned_part s) then
    let v := strtol s in
    if (- 2 ^ 31 <=? v) && (v <? 2 ^ 31) then Ret v else Throw std_out_of_range
  else Throw std_invalid_argument.

Fixpoint skip_digits (s : string) : string :=
  match s with
  | String c s' => match digit c with Some _ => skip_digits s' | None => s end
  | EmptyString => s
  end.

(** [strtol(s, &endp, 10)]: the value and the text at [endp]. *)
Definition strtol_endp (s : string) : Z * string :=
  if starts_with_digit (unsigned_part s) then (strtol s, skip_digits (unsigned_part s))
  else (0, s).

(** The loop over [std::getline(ss, buffer, ' ')]; [cur] is the text since the
    last separator. *)
Fixpoint split_go (s cur : string) : list string :=
  match s with
  | EmptyString => if bool_decide (cur = EmptyString) then [] else [cur]
  | String c s' => if Ascii.eqb c " " then cur :: split_go s' ""
                   else split_go s' (cur +:+ String c "")
  end.
Definition split (s : string) : list string := split_go s "".

Section VeNode.
Context `{E : Env}.

(** Is the number of [venodenum] among those of the list? *)
Fixpoint assigned (v : list string) (venodenum : string) : outcome bool :=
  match v with
  | [] => Ret false
  | x :: v =>
      obind (stoi x) (fun a => obind (stoi venodenum) (fun b =>
        if a =? b then Ret true else assigned v venodenum))
  end.

Definition set_venode_from_env (venode : Z) : outcome Z :=
  if venode <? -1 then Ret (-2)
  else
    match getenv "_VENODELIST" with
    | Some venodelist =>
        let v := split venodelist in
        if venode =? -1 then
          match getenv "VE_NODE_NUMBER" with
          | Some venodenum =>
              obind (assigned v venodenum) (fun found =>
              obind (stoi venodenum) (fun venode =>
                if found then Ret venode else Ret (-2)))
          | None =>
              match v with
              | x :: _ => stoi x
              | [] => Ret (-2)
              end
          end
        else if i32 (Z.of_nat (length v)) <=? venode then Ret (-2)
        else match v !! Z.to_nat venode with
             | Some x => stoi x
             | None => Undef
             end
    | None =>
        if venode =? -1 then
          match getenv "VE_NODE_NUMBER" with
          | Some venodenum => stoi venodenum
          | None => Ret 0
          end
        else Ret venode
    end.
End VeNode.

(** ** The architecture of a node *)

(** What [open] and [read] find at [/sys/class/ve/ve<n>/ve_arch_class]. *)
Inductive sysfs_file := F_enoent | F_open_error | F_read_error | F_text (s : string).

(** [d_class]: the names in [/sys/class/ve], or nothing if it cannot be opened. *)
Class Sysfs := {
  d_class : option (list string);
  f_arch : Z -> sysfs_file;
}.

Definition get_num_from_vestr (str : string) : Z :=
  match str with
  | String "v" (String "e" s) =>
      let '(v, endp) := strtol_endp s in
      match endp with
      | EmptyString => i32 v
      | String c _ => if Ascii.eqb c "010" then i32 v else -1
      end
  | _ => -1
  end.

(** The loop over the directory: the number it is left with. *)
Fixpoint find_ve (ve_node_number : Z) (names : list string) : Z :=
  match names with
  | [] => -1
  | d_name :: names =>
      let ve := get_num_from_vestr d_name in
      if negb (ve_node_number =? -1)
      then if ve =? ve_node_number then ve else find_ve ve_node_number names
      else if negb (ve =? -1) then ve else find_ve ve_node_number names
  end.

Section Arch.
Context `{E : Env} `{F : Sysfs}.

Definition veo_arch_number_sysfs (ve_node_number : Z) : Z :=
  match d_class with
  | None => -1
  | Some names =>
      let ve := find_ve ve_node_number names in
      if ve =? -1 then -1
      else match f_arch ve with
           | F_enoent => 1
           | F_open_error | F_read_error => -1
           | F_text buf => get_num_from_vestr buf
           end
  end.

Definition veo_get_ve_arch (venode : Z) : outcome Z :=
  match set_venode_from_env venode with
  | Ret venode => if -1 <=? venode then Ret (veo_arch_number_sysfs venode) else Ret 0
  | Throw std_invalid_argument | Throw std_out_of_range | Throw (VEOException _ _) => Ret (-1)
  | o => o
  end.
End Arch.

(** ** Numbers that were printed are read back *)

Lemma string_app_assoc (a b c : string) : a +:+ (b +:+ c) = (a +:+ b) +:+ c.
Proof. induction a as [|x a IH]; [done|]. exact (f_equal (String x) IH). Qed.

Lemma string_app_nil (a : string) : a +:+ "" = a.
Proof. induction a as [|x a IH]; [done|]. exact (f_equal (String x) IH). Qed.

Lemma digit_pretty x : (x < 10)%N -> digit (pretty_N_char x) = Some (Z.of_N x).
Proof.
  intros Hx. assert (x = 0 \/ x = 1 \/ x = 2 \/ x = 3 \/ x = 4 \/ x = 5 \/ x = 6 \/ x = 7
                     \/ x = 8 \/ x = 9)%N as Hc by lia.
  by repeat (destruct Hc as [->|Hc]; [done|]); subst.
Qed.

Lemma pretty_go_digits x : forall s,
  digits 0 (pretty_N_go x s) = digits (Z.of_N x) s /\
  skip_digits (pretty_N_go x s) = skip_digits s.
Proof.
  induction (N.lt_wf_0 x) as [x _ IH]. intros s.
  destruct (decide (0 < x)%N) as [Hx|Hx].
  - rewrite pretty_N_go_step by done.
    destruct (IH (x / 10)%N (N.div_lt x 10 Hx eq_refl) (String (pretty_N_char (x mod 10)) s))
      as [-> ->].
    cbn [digits skip_digits]. rewrite digit_pretty by (by apply N.mod_lt). split; [|done]. f_equal.
    pose proof (N.div_mod x 10 ltac:(done)). lia.
  - replace x with 0%N by lia. done.
Qed.

Lemma pretty_go_app x : forall s1 s2, pretty_N_go x s1 +:+ s2 = pretty_N_go x (s1 +:+ s2).
Proof.
  induction (N.lt_wf_0 x) as [x _ IH]. intros s1 s2.
  destruct (decide (0 < x)%N) as [Hx|Hx].
  - rewrite !(pretty_N_go_step x) by done. by rewrite IH by (by apply N.div_lt).
  - replace x with 0%N by lia. done.
Qed.

(** Every character of a printed number is a digit. *)
Fixpoint all_digits (s : string) : bool :=
  match s with
  | String c s' => match digit c with Some _ => all_digits s' | None => false end
  | EmptyString => true
  end.

Lemma pretty_go_all x : forall s, all_digits s = true -> all_digits (pretty_N_go x s) = true.
Proof.
  induction (N.lt_wf_0 x) as [x _ IH]. intros s Hs.
  destruct (decide (0 < x)%N) as [Hx|Hx].
  - rewrite pretty_N_go_step by done. apply IH; [by apply N.div_lt|].
    cbn [all_digits]. by rewrite digit_pretty by (by apply N.mod_lt).
  - replace x with 0%N by lia. done.
Qed.

Lemma pretty_all (n : N) : all_digits (pretty n) = true.
Proof. unfold pretty, pretty_N. case_decide; [done|]. by apply pretty_go_all. Qed.

Lemma pretty_value (n : N) s :
  starts_with_digit s = false ->
  digits 0 (pretty n +:+ s) = Z.of_N n /\ skip_digits (pretty n +:+ s) = s.
Proof.
  intros Hs. assert (Hstop : forall a, digits a s = a /\ skip_digits s = s).
  { intros a. destruct s as [|c s]; cbn [digits skip_digits starts_with_digit] in *; [done|].
    by destruct (digit c). }
  unfold pretty, pretty_N. case_decide as Hn.
  - subst n. cbn. apply Hstop.
  - rewrite pretty_go_app. destruct (pretty_go_digits n (EmptyString +:+ s)) as [-> ->]. apply Hstop.
Qed.

Lemma pretty_cons (n : N) : exists c r d, pretty n = String c r /\ digit c = Some d.
Proof.
  pose proof (pretty_all n) as Ha. pose proof (pretty_value n "" eq_refl) as [Hv _].
  assert (Hne : pretty n <> EmptyString).
  { unfold pretty, pretty_N. case_decide as Hn; [done|]. intros He.
    destruct (pretty_go_digits n "") as [Hd _]. rewrite He in Hd. cbn in Hd. lia. }
  destruct (pretty n) as [|c r]; [done|]. cbn [all_digits] in Ha.
  destruct (digit c) as [d|] eqn:Hd; [eauto|done].
Qed.

(** A digit is neither a blank nor a sign. *)
Lemma digit_head c r : is_Some (digit c) ->
  skip_space (String c r) = String c r /\ unsigned_part (String c r) = String c r.
Proof.
  intros [d Hd]. unfold digit in Hd.
  assert (Hr : 48 <= Z.of_N (N_of_ascii c) <= 57).
  { destruct (Z.leb_spec 48 (Z.of_N (N_of_ascii c))), (Z.leb_spec (Z.of_N (N_of_ascii c)) 57);
      cbn in Hd; done || lia. }
  assert (Hs : skip_space (String c r) = String c r).
  { cbn [skip_space]. unfold is_space. destruct (Z.eqb_spec (Z.of_N (N_of_ascii c)) 32); [lia|].
    destruct (Z.leb_spec 9 (Z.of_N (N_of_ascii c))), (Z.leb_spec (Z.of_N (N_of_ascii c)) 13);
      cbn; done || lia. }
  split; [done|]. unfold unsigned_part. rewrite Hs.
  destruct c as [[] [] [] [] [] [] [] []]; cbn in Hr; done || lia.
Qed.

Lemma strtol_digits c r : is_Some (digit c) ->
  strtol (String c r) = Z.max (- 2 ^ 63) (Z.min (2 ^ 63 - 1) (digits 0 (String c r))).
Proof.
  intros Hd. destruct (digit_head c r Hd) as [Hs Hu]. unfold strtol, unsigned_part in *.
  rewrite Hs in *. destruct Hd as [d Hd].
  by destruct c as [[] [] [] [] [] [] [] []].
Qed.

Lemma strtol_pretty (n : N) s :
  starts_with_digit s = false -> Z.of_N n < 2 ^ 31 ->
  strtol_endp (pretty n +:+ s) = (Z.of_N n, s) /\ strtol (pretty n +:+ s) = Z.of_N n /\
  starts_with_digit (unsigned_part (pretty n +:+ s)) = true.
Proof.
  intros Hs Hn. destruct (pretty_value n s Hs) as [Hv Hk].
  destruct (pretty_cons n) as (c & r & d & E & Hd). unfold strtol_endp. rewrite E in *.
  change (String c r +:+ s) with (String c (r +:+ s)) in *.
  destruct (digit_head c (r +:+ s)) as [_ ->]; [by exists d|].
  rewrite strtol_digits, Hv, Hk by (by exists d). cbn [starts_with_digit]. rewrite Hd.
  replace (Z.max _ _) with (Z.of_N n) by lia. done.
Qed.

Lemma stoi_pretty (n : N) : Z.of_N n < 2 ^ 31 -> stoi (pretty n) = Ret (Z.of_N n).
Proof.
  intros Hn. destruct (strtol_pretty n "" eq_refl Hn) as (_ & Hv & Hu).
  rewrite string_app_nil in *. unfold stoi. rewrite Hu, Hv. cbv zeta.
  destruct (Z.leb_spec (- 2 ^ 31) (Z.of_N n)), (Z.ltb_spec (Z.of_N n) (2 ^ 31)); done || lia.
Qed.

(** A list of numbers as the scheduler writes it. *)
Fixpoint node_list (nodes : list N) : string :=
  match nodes with
  | [] => ""
  | [n] => pretty n
  | n :: nodes => pretty n +:+ String " " (node_list nodes)
  end.

Lemma split_go_word w : forall s cur,
  all_digits w = true -> split_go (w +:+ s) cur = split_go s (cur +:+ w).
Proof.
  induction w as [|c w IH]; intros s cur Hw.
  - by rewrite string_app_nil.
  - cbn [all_digits] in Hw. destruct (digit c) as [d|] eqn:Hd; [|done].
    change (String c w +:+ s) with (String c (w +:+ s)). cbn [split_go].
    destruct (Ascii.eqb_spec c " ") as [->|_]; [done|]. rewrite IH by done.
    f_equal. by rewrite <- string_app_assoc.
Qed.

Lemma split_node_list (nodes : list N) : split (node_list nodes) = pretty <$> nodes.
Proof.
  unfold split. induction nodes as [|n nodes IH]; [done|].
  assert (Hne : forall s, split_go (pretty n +:+ String " " s) "" = pretty n :: split_go s "").
  { intros s. rewrite split_go_word by apply pretty_all. done. }
  destruct nodes as [|m nodes].
  - cbn [node_list fmap list_fmap]. destruct (pretty_cons n) as (c & r & d & E & _).
    assert (Hl : split_go (pretty n +:+ "") "" = [pretty n]).
    { rewrite split_go_word by apply pretty_all. rewrite E. done. }
    by rewrite string_app_nil in Hl.
  - change (node_list (n :: m :: nodes)) with (pretty n +:+ String " " (node_list (m :: nodes))).
    rewrite Hne, IH. done.
Qed.

Lemma assigned_spec (nodes : list N) (m : N) :
  Forall (fun n => Z.of_N n < 2 ^ 31) nodes -> Z.of_N m < 2 ^ 31 ->
  assigned (pretty <$> nodes) (pretty m) = Ret (bool_decide (m ∈ nodes)).
Proof.
  intros Hn Hm. induction Hn as [|n nodes Hn _ IH]; [done|].
  cbn [fmap list_fmap assigned]. rewrite !stoi_pretty by done. cbn [obind recast].
  destruct (Z.eqb_spec (Z.of_N n) (Z.of_N m)) as [E|Hne].
  - apply N2Z.inj in E as ->. f_equal. symmetry. apply bool_decide_eq_true. by left.
  - rewrite IH. f_equal. apply bool_decide_ext. rewrite elem_of_cons. split; [by right|].
    intros [->|]; done.
Qed.

Section VeNodeProperties.
Context `{E : Env} `{F : Sysfs}.


Lemma get_num_pretty (n : N) s :
  s = EmptyString \/ s = String "010" EmptyString -> Z.of_N n < 2 ^ 31 ->
  get_num_from_vestr ("ve" +:+ (pretty n +:+ s)) = Z.of_N n.
Proof.
  intros Hs Hn. assert (Hd : starts_with_digit s = false) by (by destruct Hs as [-> | ->]).
  destruct (strtol_pretty n s Hd Hn) as (He & _ & _).
  change ("ve" +:+ (pretty n +:+ s)) with (String "v" (String "e" (pretty n +:+ s))).
  cbn [get_num_from_vestr]. rewrite He. destruct Hs as [-> | ->]; cbn; apply i32_small; lia.
Qed.

(** The architecture of a node is read from its own file.  With entries
  [ve<n>] in the class directory, the architecture of node [n] is the number in
  the file of that node, architecture 1 if the file does not exist, and an error
  if the node has no entry. *)
Theorem arch_number_of_node (nodes : list N) (n a : N) :
  d_class = Some ((fun k : N => "ve" +:+ (pretty k +:+ "")) <$> nodes) ->
  Forall (fun k => Z.of_N k < 2 ^ 31) nodes -> Z.of_N n < 2 ^ 31 -> Z.of_N a < 2 ^ 31 ->
  (n ∈ nodes -> f_arch (Z.of_N n) = F_text ("ve" +:+ (pretty a +:+ String "010" "")) ->
   veo_arch_number_sysfs (Z.of_N n) = Z.of_N a) /\
  (n ∈ nodes -> f_arch (Z.of_N n) = F_enoent -> veo_arch_number_sysfs (Z.of_N n) = 1) /\
  ((n ∉ nodes) -> veo_arch_number_sysfs (Z.of_N n) = -1).
Proof.
  intros Hd Hk Hn Ha. unfold veo_arch_number_sysfs. rewrite Hd. clear Hd.
  assert (Hf : find_ve (Z.of_N n) ((fun k : N => "ve" +:+ (pretty k +:+ "")) <$> nodes) =
               if bool_decide (n ∈ nodes) then Z.of_N n else -1).
  { induction Hk as [|k nodes Hk _ IH]; [done|].
    change (find_ve (Z.of_N n) ((fun k : N => "ve" +:+ (pretty k +:+ "")) <$> k :: nodes)) with
      (let ve := get_num_from_vestr ("ve" +:+ (pretty k +:+ "")) in
       if negb (Z.of_N n =? -1)
       then if ve =? Z.of_N n then ve
            else find_ve (Z.of_N n) ((fun k : N => "ve" +:+ (pretty k +:+ "")) <$> nodes)
       else if negb (ve =? -1) then ve
            else find_ve (Z.of_N n) ((fun k : N => "ve" +:+ (pretty k +:+ "")) <$> nodes)).
    rewrite get_num_pretty, IH by (done || by left). cbv zeta.
    destruct (Z.eqb_spec (Z.of_N n) (-1)); [lia|]. cbn [negb].
    destruct (Z.eqb_spec (Z.of_N k) (Z.of_N n)) as [He|Hne].
    - apply N2Z.inj in He as ->. by rewrite bool_decide_eq_true_2 by (by left).
    - rewrite (bool_decide_ext (n ∈ nodes) (n ∈ k :: nodes)); [done|].
      rewrite elem_of_cons. split; [by right|]. by intros [->|]. }
  rewrite Hf. split_and!.
  - intros Hin Hfile. rewrite bool_decide_eq_true_2 by done. destruct (Z.eqb_spec (Z.of_N n) (-1)); [lia|].
    rewrite Hfile. apply get_num_pretty; [by right|done].
  - intros Hin Hfile. rewrite bool_decide_eq_true_2 by done. destruct (Z.eqb_spec (Z.of_N n) (-1)); [lia|].
    by rewrite Hfile.
  - intros Hin. by rewrite bool_decide_eq_false_2.
Qed.
End VeNodeProperties.

Definition scheduler_env : Env := fun name =>
  if bool_decide (name = "_VENODELIST") then Some "3 12 7"
  else if bool_decide (name = "VE_NODE_NUMBER") then Some "12" else None.

Definition demo_sysfs : Sysfs := {|
  d_class := Some ["ve0"; "ve11"];
  f_arch := fun n => if n =? 11 then F_text ("ve3" +:+ String "010" "") else F_enoent;
|}.


Lemma arch_number_of_node_witness : @veo_arch_number_sysfs demo_sysfs 11 = 3.
Proof.
  apply (@arch_number_of_node demo_sysfs [0; 11]%N 11 3);
    [reflexivity|repeat (apply List.Forall_cons; [vm_compute; reflexivity|]); apply List.Forall_nil
    |vm_compute; reflexivity|vm_compute; reflexivity|right; left|reflexivity].
Defined.
