(* ===== verification/ProcHandle.v ===== *)
(** * VE processes

    Models [ProcHandle.hpp] and [ProcHandle.cpp]: the table of processes with its
    identifiers, and a process handle with its symbol cache, its libraries and
    its contexts.  The requests of a process go through its main context, a
    [world] of [Context.v]. *)

From Stdlib Require Import ZArith Lia Bool.
From stdpp Require Import base gmap list numbers sets strings.
From S2P Require Import Prelude CallArgs Command Urpc Ve Context Example Requests Progress.
From S2P Require Import AsyncTransfer Calls VeNode.

Open Scope Z_scope.

Definition VEO_SYMNAME_LEN_MAX : Z := 255.
Definition ENAMETOOLONG : Z := 36.

(** ** The table of processes

    [__procs] is null until the first process exists.  An element is the address
    of a [ProcHandle], or null for a process that has exited. *)
Module Table.

Definition table : Type := option (list Z).

(** [std::find]: the index of the first element equal to [p]. *)
Fixpoint find (p : Z) (l : list Z) : option nat :=
  match l with
  | [] => None
  | q :: l => if q =? p then Some O else S <$> find p l
  end.

(** [_getProcIdentifier] and [_getProcIdentifierNolock] *)
Definition _getProcIdentifier (p : Z) (t : table) : outcome Z :=
  match t with
  | None => Undef
  | Some l => match find p l with
              | None => Ret (-1)
              | Some i => Ret (i32 (Z.of_nat i))
              end
  end.

(** The end of the constructor [ProcHandle::ProcHandle]. *)
Definition register (p : Z) (t : table) : table :=
  match t with
  | None => Some [p]
  | Some l => match find 0 l with
              | None => Some (l ++ [p])
              | Some i => Some (<[i := p]> l)
              end
  end.

Definition numProcs (t : table) : outcome Z :=
  match t with
  | None => Undef
  | Some l => Ret (i32 (Z.of_nat (length l)))
  end.

(** [__procs->at(proc_ident)]: the argument becomes an unsigned index. *)
Definition getProcHandle (proc_ident : Z) (t : table) : outcome Z :=
  match t with
  | None => Undef
  | Some l => match l !! Z.to_nat (u64 proc_ident) with
              | Some p => Ret p
              | None => Throw std_out_of_range
              end
  end.

(** The end of [exitProc]. *)
Definition unregister (p : Z) (t : table) : table :=
  match t with
  | None => None
  | Some l => match find p l with
              | None => Some l
              | Some i => Some (<[i := 0]> l)
              end
  end.

(** Each process is registered once. *)
Definition table_ok (t : table) : Prop :=
  match t with
  | None => True
  | Some l => Z.of_nat (length l) < 2 ^ 31 /\
              forall i j p, l !! i = Some p -> l !! j = Some p -> p <> 0 -> i = j
  end.

Lemma find_Some p l : forall i, find p l = Some i ->
  l !! i = Some p /\ (forall j q, (j < i)%nat -> l !! j = Some q -> q <> p).
Proof.
  induction l as [|q l IH]; intros i; cbn [find]; [done|].
  destruct (Z.eqb_spec q p) as [->|Hne].
  - intros [= <-]. split; [done|]. intros j r Hj. lia.
  - destruct (find p l) as [k|] eqn:E; [|done]. intros [= <-].
    destruct (IH k eq_refl) as [H1 H2]. split; [done|]. intros [|j] r Hj Hr; [by injection Hr as <-|].
    apply (H2 j); [lia|done].
Qed.

Lemma find_None p l : find p l = None -> p ∉ l.
Proof.
  induction l as [|q l IH]; cbn [find]; intros E; [apply not_elem_of_nil|].
  destruct (Z.eqb_spec q p) as [->|Hne]; [done|].
  destruct (find p l) as [k|] eqn:E'; [done|]. apply not_elem_of_cons. auto.
Qed.

Lemma find_unique p l i :
  l !! i = Some p -> (forall j, l !! j = Some p -> j = i) -> find p l = Some i.
Proof.
  intros Hi Hu. destruct (find p l) as [k|] eqn:E.
  - apply find_Some in E as [E _]. by rewrite (Hu k E).
  - apply find_None in E. destruct E. apply list_elem_of_lookup. eauto.
Qed.

(** The identifier of a registered process is its place in the table. *)
Lemma identifier_place p l i :
  table_ok (Some l) -> p <> 0 -> l !! i = Some p ->
  _getProcIdentifier p (Some l) = Ret (Z.of_nat i) /\ getProcHandle (Z.of_nat i) (Some l) = Ret p.
Proof.
  intros [Hlen Hu] Hp Hi. pose proof (lookup_lt_Some _ _ _ Hi) as Hlt.
  split; cbn [_getProcIdentifier getProcHandle].
  - rewrite (find_unique p l i) by (eauto). by rewrite i32_small by lia.
  - rewrite u64_small by lia. by rewrite Nat2Z.id, Hi.
Qed.

Lemma lookup_set_other (l : list Z) (i j : nat) (x q : Z) : l !! j = Some q -> j <> i -> <[i := x]> l !! j = Some q.
Proof. intros Hj Hne. by rewrite list_lookup_insert_ne. Qed.

Lemma not_twice (l : list Z) p (a b : nat) : (p ∉ l) -> l !! a = Some p -> a = b.
Proof. intros Hn Ha. destruct Hn. apply list_elem_of_lookup. eauto. Qed.

(** Registering puts the process at a place of its own; the others stay. *)
Lemma register_spec p t :
  table_ok t -> p <> 0 -> (forall l, t = Some l -> (p ∉ l) /\ Z.of_nat (length l) < 2 ^ 31 - 1) ->
  exists l1 i, register p t = Some l1 /\ l1 !! i = Some p /\ table_ok (Some l1) /\
    (forall (j : nat) q, q <> 0 -> (exists l, t = Some l /\ l !! j = Some q) -> l1 !! j = Some q).
Proof.
  intros Hok Hp Hnew. destruct t as [l|]; cbn [register].
  2:{ exists [p], O. split_and!; [done|done| |by intros j q _ (l & [=] & _)].
      split; [simpl; lia|]. by intros [|i] [|j] q Ha Hb; simpl in *. }
  destruct (Hnew l eq_refl) as [Hnin Hlen]. destruct Hok as [_ Hu].
  destruct (find 0 l) as [k|] eqn:E.
  - apply find_Some in E as [Ek _]. pose proof (lookup_lt_Some _ _ _ Ek) as Hk.
    exists (<[k := p]> l), k. split_and!; [done|by apply list_lookup_insert_eq| |].
    + split; [by rewrite length_insert; lia|]. intros a b q Ha Hb Hq.
      apply list_lookup_insert_Some in Ha as [(? & ? & _)|[_ Ha]],
        Hb as [(? & ? & _)|[_ Hb]]; subst; eauto using not_twice, eq_sym.
    + intros j q Hq (l' & [= <-] & Hj). apply lookup_set_other; [done|]. intros ->. congruence.
  - exists (l ++ [p]), (length l). split_and!; [done|by apply list_lookup_middle| |].
    + split; [rewrite length_app; simpl; lia|]. intros a b q Ha Hb Hq.
      assert (Hx : forall a, (l ++ [p]) !! a = Some q -> l !! a = Some q \/ (a = length l /\ q = p)).
      { intros x Hx. apply lookup_app_Some in Hx as [Hx|[Hge Hx]]; [by left|right].
        apply list_lookup_singleton_Some in Hx as [Hx <-]. split; [lia|done]. }
      destruct (Hx a Ha) as [Ha'|[-> ->]], (Hx b Hb) as [Hb'|[-> Eb]]; subst;
        eauto using not_twice, eq_sym.
    + intros j q _ (l' & [= <-] & Hj). by apply lookup_app_l_Some.
Qed.

(** Giving up the place of a process. *)
Lemma unregister_spec p l i :
  table_ok (Some l) -> p <> 0 -> l !! i = Some p ->
  unregister p (Some l) = Some (<[i := 0]> l) /\ table_ok (Some (<[i := 0]> l)) /\
  _getProcIdentifier p (Some (<[i := 0]> l)) = Ret (-1).
Proof.
  intros Hok Hp Hi. pose proof Hok as [Hlen Hu]. cbn [unregister].
  rewrite (find_unique p l i) by eauto. split_and!; [done| |].
  - split; [by rewrite length_insert|]. intros a b q Ha Hb Hq.
    apply list_lookup_insert_Some in Ha as [(? & ? & _)|[_ Ha]],
      Hb as [(? & ? & _)|[_ Hb]]; subst; try done. by eapply Hu.
  - cbn [_getProcIdentifier]. destruct (find p (<[i := 0]> l)) as [k|] eqn:Ek; [|done].
    apply find_Some in Ek as [Ek _]. apply list_lookup_insert_Some in Ek as [(_ & E & _)|[Hne Ek]];
      [done|]. destruct Hne. by eapply Hu.
Qed.

Lemma identifier_inv q t k :
  table_ok t -> _getProcIdentifier q t = Ret k -> 0 <= k ->
  exists l j, t = Some l /\ k = Z.of_nat j /\ l !! j = Some q.
Proof.
  intros Hok Ek Hk. destruct t as [l|]; cbn [_getProcIdentifier] in Ek; [|done].
  destruct (find q l) as [j|] eqn:Ej; [|injection Ek as <-; lia].
  apply find_Some in Ej as [Ej _]. pose proof (lookup_lt_Some _ _ _ Ej).
  exists l, j. split_and!; [done| |done]. injection Ek as <-.
  rewrite i32_small by (destruct Hok; lia). done.
Qed.

Lemma register_identifiers p t :
  table_ok t -> p <> 0 -> (forall l, t = Some l -> (p ∉ l) /\ Z.of_nat (length l) < 2 ^ 31 - 1) ->
  table_ok (register p t) /\
  (exists i, _getProcIdentifier p (register p t) = Ret i /\ getProcHandle i (register p t) = Ret p) /\
  (forall q i, q <> 0 -> q <> p -> _getProcIdentifier q t = Ret i -> 0 <= i ->
     _getProcIdentifier q (register p t) = Ret i).
Proof.
  intros Hok Hp Hnew. destruct (register_spec p t Hok Hp Hnew) as (l1 & i & E1 & Hi & Hok1 & Hold).
  rewrite E1. split_and!; [done|exists (Z.of_nat i); by apply identifier_place|].
  intros q k Hq Hqp Ek Hk. destruct (identifier_inv q t k Hok Ek Hk) as (l & j & -> & -> & Hj).
  apply identifier_place; eauto.
Qed.

(** C30: process identifiers are stable and lead back to the process.  A new process
    gets an identifier under which it is found again; registering it changes the
    identifier of no other process.  When it exits, its identifier is given up,
    again without effect on the others. *)
Theorem identifiers_stable p t :
  table_ok t -> p <> 0 -> (forall l, t = Some l -> (p ∉ l) /\ Z.of_nat (length l) < 2 ^ 31 - 1) ->
  let t1 := register p t in
  table_ok t1 /\
  (exists i, _getProcIdentifier p t1 = Ret i /\ getProcHandle i t1 = Ret p) /\
  (forall q i, q <> 0 -> q <> p -> _getProcIdentifier q t = Ret i -> 0 <= i ->
     _getProcIdentifier q t1 = Ret i) /\
  let t2 := unregister p t1 in
  table_ok t2 /\ _getProcIdentifier p t2 = Ret (-1) /\
  (forall q i, q <> 0 -> q <> p -> _getProcIdentifier q t = Ret i -> 0 <= i ->
     _getProcIdentifier q t2 = Ret i).
Proof.
  intros Hok Hp Hnew. destruct (register_spec p t Hok Hp Hnew) as (l1 & i & E1 & Hi & Hok1 & Hold).
  destruct (unregister_spec p l1 i Hok1 Hp Hi) as (E2 & Hok2 & Hgone).
  destruct (register_identifiers p t Hok Hp Hnew) as (_ & Hnow & Hothers).
  cbv zeta. rewrite E1, E2 in *. split_and!; [done|done|done|done|done|].
  intros q k Hq Hqp Ek Hk. destruct (identifier_inv q t k Hok Ek Hk) as (l & j & -> & -> & Hj).
  apply identifier_place; [done|done|]. apply lookup_set_other; [eauto|].
  intros ->. specialize (Hold i q Hq). rewrite Hold in Hi; [congruence|eauto].
Qed.

Lemma identifiers_stable_witness :
  let t1 := register 48 (Some [16; 0; 32]) in
  table_ok t1 /\
  (exists i, _getProcIdentifier 48 t1 = Ret i /\ getProcHandle i t1 = Ret 48) /\
  (forall q i, q <> 0 -> q <> 48 -> _getProcIdentifier q (Some [16; 0; 32]) = Ret i -> 0 <= i ->
     _getProcIdentifier q t1 = Ret i) /\
  let t2 := unregister 48 t1 in
  table_ok t2 /\ _getProcIdentifier 48 t2 = Ret (-1) /\
  (forall q i, q <> 0 -> q <> 48 -> _getProcIdentifier q (Some [16; 0; 32]) = Ret i -> 0 <= i ->
     _getProcIdentifier q t2 = Ret i).
Proof.
  apply (identifiers_stable 48 (Some [16; 0; 32])); [|lia|].
  - split; [simpl; lia|]. intros [|[|[|i]]] [|[|[|j]]] p; simpl; try lia; try discriminate;
      intros [= <-] [=]; congruence.
  - intros l [= <-]. split; [|simpl; lia]. rewrite !elem_of_cons. intros [|[|[|H]]]; try lia.
    by apply not_elem_of_nil in H.
Defined.

End Table.

(** ** A process handle *)

(** Creating and attaching peers belongs to ve-urpc.  The [n]-th call of
    [vh_urpc_peer_create] gives a new peer or fails. *)
Class UrpcPeers `{U : Urpc} := {
  vh_urpc_peer_create : nat -> option peer;
  vh_urpc_child_create : peer -> string -> Z -> Z -> Z * peer;
  urpc_wait_peer_attach : peer -> Z * peer;
  vh_urpc_peer_destroy : peer -> Z;
  shm_segid : peer -> Z;
  (** [busy_sleep_us]: the peer a moment later *)
  busy_sleep_us : peer -> Z -> peer;
}.

Module Proc.

(** The text at a VH address, if it is at most [n - 1] characters long. *)
Fixpoint c_string (n : nat) (m : mem) (p : Z) : option (list Z) :=
  match n with
  | O => None
  | S n => if m p =? 0 then Some [] else cons (m p) <$> c_string n m (p + 1)
  end.

Section Proc.
Context `{U : Urpc} `{IN : Indet} `{VF : !VhFuncs} `{BO : BucketOrder} `{E : Env}.
Context `{UP : !UrpcPeers}.

(** A [Context] object with its core; [o_issued] belongs to the [world]. *)
Record ctx_object := mkObject {
  o_context : Context;
  o_core : Z;
  o_issued : Z;
}.

(** [objects] are the live [Context] objects by address, [ctx_vec] is the member
    [ctx].  The member [up] is the peer of the main context. *)
Record ProcHandle := mkProc {
  sym_name : gmap (Z * list Z) Z;
  ve2velibh : gmap Z Z;
  objects : gmap Z ctx_object;
  mctx : Z;
  ctx_vec : list Z;
  ve_number : Z;
  proc_survival : bool;
  proc_vh : heap;
  proc_waitpids : list bool;
  proc_trylocks : list bool;
  peers_created : nat;
}.

Definition set_sym_name (s : gmap (Z * list Z) Z) (p : ProcHandle) : ProcHandle :=
  mkProc s (ve2velibh p) (objects p) (mctx p) (ctx_vec p) (ve_number p) (proc_survival p)
    (proc_vh p) (proc_waitpids p) (proc_trylocks p) (peers_created p).
Definition set_ve2velibh (l : gmap Z Z) (p : ProcHandle) : ProcHandle :=
  mkProc (sym_name p) l (objects p) (mctx p) (ctx_vec p) (ve_number p) (proc_survival p)
    (proc_vh p) (proc_waitpids p) (proc_trylocks p) (peers_created p).
Definition set_objects (o : gmap Z ctx_object) (v : list Z) (p : ProcHandle) : ProcHandle :=
  mkProc (sym_name p) (ve2velibh p) o (mctx p) v (ve_number p) (proc_survival p)
    (proc_vh p) (proc_waitpids p) (proc_trylocks p) (peers_created p).
Definition set_ve_number (n : Z) (p : ProcHandle) : ProcHandle :=
  mkProc (sym_name p) (ve2velibh p) (objects p) (mctx p) (ctx_vec p) n (proc_survival p)
    (proc_vh p) (proc_waitpids p) (proc_trylocks p) (peers_created p).
Definition set_proc_vh (h : heap) (p : ProcHandle) : ProcHandle :=
  mkProc (sym_name p) (ve2velibh p) (objects p) (mctx p) (ctx_vec p) (ve_number p)
    (proc_survival p) h (proc_waitpids p) (proc_trylocks p) (peers_created p).

Definition set_proc_survival (b : bool) (p : ProcHandle) : ProcHandle :=
  mkProc (sym_name p) (ve2velibh p) (objects p) (mctx p) (ctx_vec p) (ve_number p) b
    (proc_vh p) (proc_waitpids p) (proc_trylocks p) (peers_created p).
Definition set_mctx (a : Z) (p : ProcHandle) : ProcHandle :=
  mkProc (sym_name p) (ve2velibh p) (objects p) a (ctx_vec p) (ve_number p) (proc_survival p)
    (proc_vh p) (proc_waitpids p) (proc_trylocks p) (peers_created p).

(** The object before its constructor runs, and what surrounds it. *)
Definition blank (h : heap) (waits locks : list bool) : ProcHandle :=
  mkProc ∅ ∅ ∅ 0 [] (-1) false h waits locks 0.

(** The world a context lives in, and the process after the context worked. *)
Definition world_of (o : ctx_object) (p : ProcHandle) : world :=
  mkWorld (o_context o) (proc_vh p) (proc_survival p) (proc_waitpids p) (proc_trylocks p)
    (o_issued o).
Definition put_world (a : Z) (o : ctx_object) (w : world) (p : ProcHandle) : ProcHandle :=
  mkProc (sym_name p) (ve2velibh p) (<[a := mkObject (ctx w) (o_core o) (issued w)]> (objects p))
    (mctx p) (ctx_vec p) (ve_number p) (survival w) (vh w) (waitpids w) (trylocks w)
    (peers_created p).

(** An operation of the context at an address. *)
Definition on_context {A} (a : Z) (m : M world A) : M ProcHandle A := fun p =>
  match objects p !! a with
  | None => (Undef, p)
  | Some o => let '(r, w) := m (world_of o p) in (r, put_world a o w p)
  end.
Definition on_mctx {A} (m : M world A) : M ProcHandle A := fun p => on_context (mctx p) m p.

(** A request on the main context and its result. *)
Definition main_request (n : nat) (cmd : Z) (fmt : string) (args : list send_arg)
  : M ProcHandle (Z * option Z) :=
  let! req := on_mctx (genericAsyncReq cmd fmt args) in
  on_mctx (callWaitResult n req).

(** [strlen] of a name, with the limit both callers check. *)
Definition name_at (name : Z) (msg : string) : M ProcHandle (list Z) :=
  let! s := gets (fun p => c_string (S (Z.to_nat VEO_SYMNAME_LEN_MAX)) (h_mem (proc_vh p)) name) in
  match s with
  | Some s => ret s
  | None => throw (VEOException msg ENAMETOOLONG)
  end.

Definition loadLibrary (n : nat) (libname : Z) : M ProcHandle Z :=
  let! s := name_at libname "Library name too long" in
  let! '(rv, handle) := main_request n URPC_CMD_LOADLIB "P"
                          [SA_P libname (Z.of_nat (length s) + 1)] in
  if negb (rv =? VEO_COMMAND_OK) then ret 0 else ret (default 0 handle).

Definition unloadLibrary (n : nat) (handle : Z) : M ProcHandle Z :=
  modify (fun p => set_sym_name (filter (fun e => e.1.1 <> handle) (sym_name p)) p) ;;;
  let! '(_, result) := main_request n URPC_CMD_UNLOADLIB "L" [SA_L handle] in
  ret (i32 (default (-1) result)).

Definition getSym (n : nat) (libhdl symname : Z) : M ProcHandle Z :=
  let! s := name_at symname "Too long name" in
  let! cached := gets (fun p => sym_name p !! (libhdl, s)) in
  match cached with
  | Some symaddr => ret symaddr
  | None =>
      let! '(rv, symaddr) := main_request n URPC_CMD_GETSYM "LP"
                               [SA_L libhdl; SA_P symname (Z.of_nat (length s) + 1)] in
      let symaddr := if negb (rv =? VEO_COMMAND_OK) then 0 else default 0 symaddr in
      if symaddr =? 0 then ret 0
      else
        modify (fun p => set_sym_name (<[(libhdl, s) := symaddr]> (sym_name p)) p) ;;;
        ret symaddr
  end.

Definition allocBuff (n : nat) (size : Z) : M ProcHandle Z :=
  let! '(rv, addr) := main_request n URPC_CMD_ALLOC "L" [SA_L size] in
  if negb (rv =? VEO_COMMAND_OK) then ret 0 else ret (default 0 addr).

Definition freeBuff (n : nat) (buff : Z) : M ProcHandle unit :=
  main_request n URPC_CMD_FREE "L" [SA_L buff] ;;; ret tt.

(** [ProcHandle::readMem] and [writeMem] do on the main context what the
    functions of that name of a [Context] do. *)
Definition readMem (n : nat) (dst src size : Z) : M ProcHandle Z :=
  let! req := on_mctx (asyncReadMem n dst src size) in
  if req =? VEO_REQUEST_ID_INVALID then ret (-1)
  else
    let! '(rv, _) := on_mctx (callWaitResult n req) in
    if negb (rv =? VEO_COMMAND_OK) then ret (-1) else ret rv.

Definition writeMem (n : nat) (dst src size : Z) : M ProcHandle Z :=
  let! req := on_mctx (asyncWriteMem n dst src size) in
  if req =? VEO_REQUEST_ID_INVALID then ret (-1)
  else
    let! '(rv, _) := on_mctx (callWaitResult n req) in
    if negb (rv =? VEO_COMMAND_OK) then ret (-1) else ret rv.

Definition callSync (n : nat) (addr : Z) (args : CallArgs)
  : M ProcHandle (Z * option Z * CallArgs) := on_mctx (Calls.callSync n addr args).

Definition veMemcpy (n : nat) (dst src size : Z) : M ProcHandle Z :=
  let! '(rv, _) := main_request n URPC_CMD_MEMCPY "LLL" [SA_L dst; SA_L src; SA_L size] in
  if negb (rv =? VEO_COMMAND_OK) then ret (-1) else ret 0.

(** *** Libraries for VE to VE transfers *)

(** [ve2velibh] is keyed by the address of the name. *)
Definition getLibh_from_hashmap (libname : Z) (p : ProcHandle) : Z :=
  default 0 (ve2velibh p !! libname).

Definition setLibh_to_hashmap (libname libhandle : Z) (p : ProcHandle) : ProcHandle :=
  set_ve2velibh (<[libname := libhandle]> (ve2velibh p)) p.

Definition loadVE2VELibrary (n : nat) (libname : Z) : M ProcHandle Z :=
  let! handle := gets (getLibh_from_hashmap libname) in
  if negb (handle =? 0) then ret handle
  else
    let! handle := loadLibrary n libname in
    modify (setLibh_to_hashmap libname handle) ;;;
    ret handle.

Definition getSym_from_hashmap (libh : Z) (sym : list Z) (p : ProcHandle) : Z :=
  default 0 (sym_name p !! (libh, sym)).

(** The loop of [getVEDMASyms] over the names, given by their addresses. *)
Fixpoint get_dma_syms (n : nat) (libh : Z) (sym : list Z) (names : list Z) (target : Z)
  : M ProcHandle Z :=
  match names with
  | [] => ret target
  | symname :: names =>
      let! s := name_at symname "Too long name" in
      let! symaddr := getSym n libh symname in
      let target := if bool_decide (s = sym) then symaddr else target in
      if symaddr =? 0 then ret symaddr else get_dma_syms n libh sym names target
  end.

(** [vedmasym] holds the addresses of the three names. *)
Definition getVEDMASyms (n : nat) (vedmasym : list Z) (libh : Z) (sym : list Z) : M ProcHandle Z :=
  let! symaddr := gets (getSym_from_hashmap libh sym) in
  if negb (symaddr =? 0) then ret symaddr
  else get_dma_syms n libh sym vedmasym 0.

(** *** Contexts *)

Definition numContexts (p : ProcHandle) : Z := i32 (Z.of_nat (length (ctx_vec p))).

Definition getContext (idx : Z) (p : ProcHandle) : outcome Z :=
  match ctx_vec p !! Z.to_nat (u64 idx) with
  | Some c => Ret c
  | None => Throw std_out_of_range
  end.

(** [delContext] and [delContextNolock]: the first entry that is [c] is closed
    and erased, which deletes the object. *)
Definition delContext (n : nat) (c : Z) : M ProcHandle unit :=
  let! found := gets (fun p => Table.find c (ctx_vec p)) in
  match found with
  | None => ret tt
  | Some i =>
      on_context c (fun w => close n (vh_urpc_peer_destroy (the_peer w)) w) ;;;
      modify (fun p => set_objects (delete c (objects p)) (delete i (ctx_vec p)) p)
  end.

(** [new Context(this, up, main)] for a new peer: its address. *)
Definition new_context (up : peer) (main : bool) (core : Z) : M ProcHandle Z := fun p =>
  match new_char 512 (proc_vh p) with
  | (Ret a, h) =>
      (Ret a, set_objects (<[a := mkObject (new_Context up main) core 0]> (objects p)) (ctx_vec p)
                (set_proc_vh h p))
  | (o, h) => (recast o (fun _ => Undef), set_proc_vh h p)
  end.

Definition peer_create : M ProcHandle (option peer) := fun p =>
  (Ret (vh_urpc_peer_create (peers_created p)),
   mkProc (sym_name p) (ve2velibh p) (objects p) (mctx p) (ctx_vec p) (ve_number p)
     (proc_survival p) (proc_vh p) (proc_waitpids p) (proc_trylocks p) (S (peers_created p))).

(** The core of the next context: [VE_OMP_NUM_THREADS] must be 1. *)
Definition next_core : M ProcHandle Z :=
  let! t := lift (match getenv "VE_OMP_NUM_THREADS" with Some e => stoi e | None => Ret (-1) end) in
  if negb (t =? 1)
  then throw (VEOException "ProcHandle: VE_OMP_NUM_THREADS not set to 1 with multiple contexts." indet)
  else
    let! prev := gets (fun p => match last (ctx_vec p) with
                                | Some a => o_core <$> objects p !! a
                                | None => None
                                end) in
    match prev with
    | None => stop Undef
    | Some prev_core => ret (if 0 <=? prev_core then prev_core + t else -1)
    end.

(** The end of [openContext] and of the constructor: the stack pointer is asked
    for and the progress thread started. *)
Definition start_context (a : Z) : M ProcHandle unit :=
  on_context a (let! sp := (fun w => getStackPointer (ve_sp (ctx w)) w) in
                modify (fun w => let c := ctx w in
                  set_ctx (mkContext (comq c) (state c) (is_main c) (seq_no c) sp (up c) (rem_reqid c)
                             (count c) (progress_thread c)) w) ;;;
                progressInit ;;; ret tt).

(** Wait for the receiver of the peer to set flag 1. *)
Fixpoint wait_receiver (n : nat) (p : peer) : outcome peer :=
  if negb (Z.land (urpc_get_receiver_flags p) 1 =? 0) then Ret p
  else match n with
       | O => NoFuel
       | S n => wait_receiver n (busy_sleep_us p 1000)
       end.

(** The part of [openContext] that starts another thread in the VE process. *)
Definition open_thread (n : nat) (stack_sz : Z) : M ProcHandle Z :=
  let! core := next_core in
  let! new_up := peer_create in
  match new_up with
  | None => throw (VEOException "ProcHandle: failed to create new VH side urpc peer." indet)
  | Some new_up =>
      let! req := on_mctx (generic_send URPC_CMD_NEWPEER "IIL"
                             [VI (shm_segid new_up); VI core; VL stack_sz]) in
      if req <? 0 then ret 0
      else
        let '(rc, new_up) := urpc_wait_peer_attach new_up in
        if negb (rc =? 0)
        then throw (VEOException "ProcHandle: timeout while waiting for VE." indet)
        else
          let! rc := on_mctx (fun w =>
                       let '(_, rc, p) := wait_req_result (the_peer w) req indet in
                       (Ret rc, set_up p w)) in
          if negb (rc =? 0) then ret 0
          else
            let! new_up := lift (wait_receiver n new_up) in
            let! a := new_context new_up false core in
            start_context a ;;;
            modify (fun p => set_objects (objects p) (ctx_vec p ++ [a]) p) ;;;
            on_context a (modify (set_state VEO_STATE_RUNNING)) ;;;
            ret a
  end.

(** [openContext]: the address of the context, null upon failure. *)
Definition openContext (n : nat) (stack_sz : Z) : M ProcHandle Z :=
  on_mctx (synchronize n) ;;;
  let! v := gets ctx_vec in
  match v with
  | [] =>
      modify (fun p => set_objects (objects p) [mctx p] p) ;;;
      gets mctx
  | _ => open_thread n stack_sz
  end.

(** The constructor, up to the table of processes, on a blank object. *)
Definition construct (venode : Z) (binname : string) : M ProcHandle unit :=
  let! new_up := peer_create in
  match new_up with
  | None => throw (VEOException "ProcHandle: failed to create VH side urpc peer." indet)
  | Some new_up =>
      let! vecore := lift (match getenv "VE_CORE_NUMBER" with Some e => stoi e | None => Ret (-1) end) in
      let '(rv, new_up) := vh_urpc_child_create new_up binname venode vecore in
      if negb (rv =? 0) then throw (VEOException "ProcHandle: failed to create VE process." indet)
      else
        let '(rc, new_up) := urpc_wait_peer_attach new_up in
        if negb (rc =? 0)
        then throw (VEOException "ProcHandle: VE process does not become ready." indet)
        else
          modify (set_proc_survival true) ;;;
          let! a := new_context new_up true vecore in
          modify (set_mctx a) ;;;
          start_context a ;;;
          on_context a (modify (set_state VEO_STATE_RUNNING)) ;;;
          modify (set_ve_number venode)
  end.

(** [veo_context_close]: the main context is kept. *)
Definition veo_context_close (n : nat) (c : Z) : M ProcHandle Z := fun p =>
  match objects p !! c with
  | None => (Undef, p)
  | Some o => if is_main (o_context o) then (Ret 0, p) else (delContext n c ;;; ret 0) p
  end.

Fixpoint each_context {A} (m : M world A) (l : list Z) : M ProcHandle unit :=
  match l with
  | [] => ret tt
  | c :: l => on_context c m ;;; each_context m l
  end.

Definition accessPciRecvSyncRegister : M ProcHandle unit :=
  let! l := gets ctx_vec in
  each_context (genericAsyncReq URPC_CMD_ACS_PCIRCVSYC "" []) l.

(** The loop of [exitProc]: all contexts but the main one. *)
Fixpoint del_others (n : nat) (l : list Z) : M ProcHandle unit :=
  match l with
  | [] => ret tt
  | c :: l =>
      let! m := gets mctx in
      (if c =? m then ret tt else delContext n c) ;;;
      del_others n l
  end.

(** [exitProc], up to the table of processes. *)
Definition exitProc (n : nat) : M ProcHandle Z :=
  let! l := gets ctx_vec in
  del_others n l ;;;
  on_mctx (fun w => close n (vh_urpc_peer_destroy (the_peer w)) w) ;;;
  modify (set_ve_number (-1)) ;;;
  ret 0.
End Proc.
End Proc.
