(* ===== verification/Processes.v ===== *)
(** * Properties of process handles

    What the operations of a [ProcHandle] do to its symbol cache and to its
    contexts. *)

From Stdlib Require Import ZArith Lia Bool.
From stdpp Require Import base gmap list numbers sets strings.
From S2P Require Import Prelude CallArgs Command Urpc Ve Context Example Requests Progress.
From S2P Require Import AsyncTransfer Calls Lifecycle VeNode ProcHandle.

Open Scope Z_scope.

(** ** What a context leaves alone

    No operation of a context changes whether it is the main one, and blocks of
    VH memory are handed out at increasing addresses. *)

(** A function called by the progress thread does not disturb the allocator. *)
Class VhAlloc `{U : Urpc} `{VF : !VhFuncs} :=
  vh_alloc : forall func arg w,
    let w' := snd (vh_call func arg w) in
    is_main (ctx w') = is_main (ctx w) /\ h_brk (vh w) <= h_brk (vh w').

Section Frame.
Context `{U : Urpc} `{IN : Indet} `{VF : !VhFuncs} `{BO : BucketOrder} `{E : Env} `{VA : !VhAlloc}.

Definition frame (b : bool) (k : Z) (w : world) : Prop := is_main (ctx w) = b /\ k <= h_brk (vh w).

(** A heap operation that does not hand out a block again. *)
Definition grows {A} (m : M heap A) : Prop := forall h, h_brk h <= h_brk (snd (m h)).

Lemma grows_bind {A B} (m : M heap A) (k : A -> M heap B) :
  grows m -> (forall a, grows (k a)) -> grows (bind m k).
Proof.
  intros Hm Hk h. specialize (Hm h). unfold bind. destruct (m h) as [[a| | | | |] h']; try done.
  specialize (Hk a h'). cbn [snd] in *. lia.
Qed.
Lemma grows_ret {A} (a : A) : grows (ret a).
Proof. intros h. cbn. lia. Qed.
Lemma grows_throw {A} e : grows (throw (A := A) e).
Proof. intros h. cbn. lia. Qed.
Lemma grows_gets {A} (f : heap -> A) : grows (gets f).
Proof. intros h. cbn. lia. Qed.
Lemma grows_store d bs : grows (store d bs).
Proof. intros h. cbn. lia. Qed.
Lemma grows_delete p : grows (delete_char p).
Proof. intros h. unfold delete_char. repeat case_match; cbn; lia. Qed.
Lemma grows_lift {A} (o : outcome A) : grows (lift o).
Proof. intros h. cbn. lia. Qed.
Lemma grows_new n : 0 <= n -> grows (new_char n).
Proof. intros Hn h. cbn [new_char snd h_brk]. destruct (align_up_spec 16 (n + 1)); lia. Qed.
Lemma grows_stop {A} (o : outcome A) : grows (stop o).
Proof. intros h. cbn. lia. Qed.

Lemma grows_copyout src fs : grows (run_copyout src fs).
Proof.
  induction fs as [|f fs IH]; cbn [run_copyout]; [apply grows_ret|].
  repeat (apply grows_bind; [first [apply grows_lift|apply grows_store|intros h; cbn; lia]|intros ?]).
  exact IH.
Qed.

Lemma grows_setup sp c : grows (setup sp c).
Proof.
  unfold setup. apply grows_bind; [intros h; cbn; lia|]. intros h.
  apply grows_bind; [apply grows_lift|]. intros [img c'].
  destruct (Z.eqb_spec (stack_size c') (Z.of_nat (length img))) as [->|_]; [|apply grows_stop].
  apply grows_bind; [apply grows_new; lia|]. intros buf.
  apply grows_bind; [apply grows_store|]. intros _.
  apply grows_bind; [|intros a; apply grows_ret].
  destruct (negb _); [|apply grows_ret]. unfold deleteBuffer.
  apply grows_bind; [apply grows_delete|]. intros _. apply grows_ret.
Qed.

Lemma grows_unpack m fs r st : grows (unpack_call_result m fs r st).
Proof.
  unfold unpack_call_result. destruct m as [cmd pl].
  repeat case_match; try apply grows_ret; try apply grows_throw;
    (apply grows_bind; [first [apply grows_store|apply grows_copyout]|intros _; apply grows_ret]).
Qed.

(** *** Operations of a context *)

Definition frames {A} (m : M world A) : Prop := forall b k, keeps (frame b k) m.

Lemma frames_bind {A B} (m : M world A) (k : A -> M world B) :
  frames m -> (forall a, frames (k a)) -> frames (bind m k).
Proof. intros Hm Hk b n. apply keeps_bind; [apply Hm|]. intros a. apply Hk. Qed.
Lemma frames_ret {A} (a : A) : frames (ret a).
Proof. intros b k. apply keeps_ret. Qed.
Lemma frames_throw {A} e : frames (throw (A := A) e).
Proof. intros b k. apply keeps_throw. Qed.
Lemma frames_stop {A} (o : outcome A) : frames (stop o).
Proof. intros b k w Hw. cbn. by destruct o. Qed.
Lemma frames_gets {A} (f : world -> A) : frames (gets f).
Proof. intros b k. apply keeps_gets. Qed.
Lemma frames_on_vh {A} (m : M heap A) : grows m -> frames (on_vh m).
Proof.
  intros Hm b k w [Hb Hk]. specialize (Hm (vh w)). unfold on_vh, on.
  destruct (m (vh w)) as [[] h]; cbn in *; (split; [done|cbn; lia]).
Qed.

(** Operations that leave the kind of the context and the heap as they are. *)
Definition same {A} (m : M world A) : Prop :=
  forall w, is_main (ctx (snd (m w))) = is_main (ctx w) /\ vh (snd (m w)) = vh w.
Lemma frames_same {A} (m : M world A) : same m -> frames m.
Proof.
  intros Hm b k w [Hb Hk]. destruct (Hm w) as [H1 H2].
  destruct (m w) as [[] w']; cbn [snd] in *; (split; [congruence|by rewrite H2]).
Qed.
Lemma same_on_comq {A} (m : M CommQueue A) : same (on_comq m).
Proof. intros w. unfold on_comq, on. by destruct (m (queue w)). Qed.
Lemma same_modify f : (forall w, is_main (ctx (f w)) = is_main (ctx w) /\ vh (f w) = vh w) ->
  same (modify f).
Proof. intros Hf w. apply Hf. Qed.
End Frame.

Create HintDb frames.
#[export] Hint Resolve frames_ret frames_throw frames_stop frames_gets : frames.
#[export] Hint Resolve same_on_comq grows_copyout grows_delete grows_store grows_unpack grows_setup : frames.

(** Decompose [frames m] along the structure of [m]. *)
Ltac frames_tac :=
  repeat first
    [ solve [auto with frames]
    | (apply frames_bind; [|intros ?])
    | (apply frames_same; apply same_on_comq)
    | (apply frames_same; apply same_modify; intros ?; split; reflexivity)
    | (apply frames_on_vh; solve [auto with frames])
    | match goal with
      | |- frames (if ?b then _ else _) => destruct b
      | |- frames (match ?x with _ => _ end) => destruct x
      | |- frames (let '_ := ?x in _) => destruct x
      end ].

Section ContextFrames.
Context `{U : Urpc} `{IN : Indet} `{VF : !VhFuncs} `{BO : BucketOrder} `{E : Env} `{VA : !VhAlloc}.

Lemma frames_try_lock : frames try_lock.
Proof. apply frames_same. intros w. unfold try_lock. by destruct (progress_thread _), (trylocks w). Qed.
Lemma frames_child_ended : frames child_ended.
Proof. apply frames_same. intros w. unfold child_ended. by destruct (waitpids w). Qed.
Lemma frames_fetch : frames fetch_add_seq_no.
Proof. by apply frames_same. Qed.
Lemma frames_notifyAll : frames notifyAll.
Proof. apply frames_same. intros w. unfold notifyAll. by repeat case_match. Qed.
Lemma frames_generic_send cmd fmt args : frames (generic_send cmd fmt args).
Proof. apply frames_same. intros w. unfold generic_send. by destruct (urpc_generic_send _ _ _ _). Qed.
Lemma frames_get_cmd : frames get_cmd.
Proof. apply frames_same. intros w. unfold get_cmd. by destruct (urpc_get_cmd _) as [[? ?] ?]. Qed.
Hint Resolve frames_try_lock frames_child_ended frames_fetch frames_notifyAll frames_generic_send
  frames_get_cmd : frames.

Lemma frames_issue : frames issueRequestID.
Proof. unfold issueRequestID. frames_tac. Qed.
Lemma frames_peek id : frames (_peekResult id).
Proof. unfold _peekResult. frames_tac. Qed.
Hint Resolve frames_issue frames_peek : frames.

Lemma frames_sub id : frames (sub_result id).
Proof. unfold sub_result. frames_tac. Qed.
Hint Resolve frames_sub : frames.

Lemma frames_submit cmd : frames (run_submit cmd).
Proof.
  unfold run_submit. destruct (code cmd); unfold submitted; frames_tac.
  - intros b k w Hw. destruct (send_call_nolock _ _ _ _ _ _ _ _ _ _) as [req p].
    assert (Hs : frames (submitted req cmd)) by (unfold submitted; frames_tac).
    by apply (Hs b k (set_up p w)).
  - destruct func; [apply frames_ret| | |]; intros b k w [<- Hk]; unfold call_vh_func;
      match goal with |- context [vh_call ?f arg w] => destruct (vh_alloc f arg w) as [H1 H2] end;
      destruct (vh_call _ arg w) as [[] w']; (split; [done|]; cbn [snd] in *; lia).
Qed.
Lemma frames_unpack cmd m : frames (run_unpack cmd m).
Proof. unfold run_unpack. destruct (code cmd); unfold chain_result; frames_tac. Qed.
Hint Resolve frames_submit frames_unpack : frames.

Lemma frames_exit_cancel : frames exit_and_cancel.
Proof. unfold exit_and_cancel. frames_tac. Qed.
Hint Resolve frames_exit_cancel : frames.

Lemma frames_round b : frames (progress_round b).
Proof. unfold progress_round, receive, submit_next, check_process. frames_tac. Qed.
Hint Resolve frames_round : frames.

Lemma frames_loop n b : frames (progress_loop n b).
Proof. induction n as [|n IH]; cbn [progress_loop]; frames_tac; done. Qed.
Lemma frames_nolock b : frames (_progress_nolock b).
Proof. intros x k w Hw. unfold _progress_nolock. by apply frames_loop. Qed.
Hint Resolve frames_nolock : frames.

Lemma frames_progress : frames progress.
Proof. unfold progress. frames_tac. Qed.
Lemma frames_exec n : frames (progressExec n).
Proof. induction n as [|n IH]; cbn [progressExec]; frames_tac; done. Qed.
Hint Resolve frames_progress frames_exec : frames.

Lemma frames_main n : frames (progress_main n).
Proof. unfold progress_main. frames_tac. Qed.
Lemma frames_init : frames progressInit.
Proof. unfold progressInit. frames_tac. Qed.
Hint Resolve frames_main frames_init : frames.

Lemma frames_terminate n : frames (progressTerminate n).
Proof.
  unfold progressTerminate. frames_tac; apply frames_same, same_modify; intros w;
    by destruct (progress_thread (ctx w)).
Qed.

Lemma frames_waitCompletion n id : frames (waitCompletion n id).
Proof.
  intros b k w Hw. unfold waitCompletion.
  assert (H1 : frames (on_comq (CommQueueOps.waitCompletion id))) by (apply frames_same, same_on_comq).
  assert (H2 : frames (progress_main n ;;; on_comq (CommQueueOps.waitCompletion id)))
    by (apply frames_bind; [apply frames_main|intros _; exact H1]).
  specialize (H1 b k w Hw). specialize (H2 b k).
  destruct (on_comq (CommQueueOps.waitCompletion id) w) as [[] w']; try done. by apply H2.
Qed.
Hint Resolve frames_terminate frames_waitCompletion : frames.

Lemma frames_poll n id : frames (poll_result n id).
Proof. induction n as [|n IH]; cbn [poll_result]; frames_tac; done. Qed.
Hint Resolve frames_poll : frames.

Lemma frames_wait n id : frames (callWaitResult n id).
Proof. unfold callWaitResult. frames_tac. Qed.
Lemma frames_push c : frames (push_request c).
Proof. apply frames_same, same_on_comq. Qed.
Hint Resolve frames_wait frames_push : frames.

Lemma frames_generic cmd fmt args : frames (genericAsyncReq cmd fmt args).
Proof. unfold genericAsyncReq. frames_tac. Qed.
Lemma frames_vh f arg : frames (callVHAsync f arg).
Proof. unfold callVHAsync. frames_tac. Qed.
Hint Resolve frames_generic frames_vh : frames.
Lemma frames_sync n : frames (synchronize n).
Proof. unfold synchronize. frames_tac. Qed.

Lemma frames_frag buff maxfrag :
  (forall d s sz prev, frames (buff d s sz prev)) ->
  forall n rsize d s prev flg, frames (frag_loop n buff maxfrag rsize d s prev flg).
Proof.
  intros Hb n. induction n as [|n IH]; intros; cbn [frag_loop]; frames_tac; auto.
Qed.
Lemma frames_read n d s sz : frames (asyncReadMem n d s sz).
Proof.
  unfold asyncReadMem, empty_transfer. frames_tac. apply frames_frag.
  intros. unfold recvBuffAsync. frames_tac.
Qed.
Lemma frames_write n d s sz : frames (asyncWriteMem n d s sz).
Proof.
  unfold asyncWriteMem, empty_transfer. frames_tac. apply frames_frag.
  intros. unfold sendBuffAsync. frames_tac.
Qed.
Hint Resolve frames_sync frames_read frames_write : frames.

Lemma frames_lift {A} (o : outcome A) : frames (lift o).
Proof. by apply frames_same. Qed.
Lemma frames_simple addr regs top size ci co st st_ fs :
  frames (simpleCallAsync addr regs top size ci co st st_ fs).
Proof. unfold simpleCallAsync. frames_tac. Qed.
Hint Resolve frames_lift frames_simple : frames.
Lemma frames_callSync n addr args : frames (Calls.callSync n addr args).
Proof.
  unfold Calls.callSync, setup_args, doCallAsync. frames_tac.
Qed.
Lemma frames_sp sp0 : frames (getStackPointer sp0).
Proof.
  unfold getStackPointer. frames_tac. intros b k w Hw.
  destruct (urpc_recv_req_timeout _ _ _) as [[m|] p]; [|done].
  assert (Hf : frames (let! '(_, sp) := on_vh (unpack_call_result m None sp0 0) in
     modify (fun w => set_up (urpc_slot_done (the_peer w) a) w) ;;; ret sp)) by frames_tac.
  by apply (Hf b k (set_up p w)).
Qed.
Hint Resolve frames_callSync frames_sp : frames.
Lemma frames_close n rc : frames (close n rc).
Proof.
  unfold close. frames_tac. apply frames_same. intros w. by destruct (wait_req_ack _ _).
Qed.

Lemma frames_perform o : frames (perform o).
Proof.
  destruct o; cbn [perform]; unfold callAsync, setup_args, doCallAsync, readMem, writeMem,
    callPeekResult; frames_tac.
Qed.
End ContextFrames.

#[export] Hint Resolve frames_generic_send frames_generic frames_vh frames_wait frames_sync frames_read
  frames_write frames_callSync frames_sp frames_init frames_perform : frames.

(** ** The objects of a process *)

Section ProcSafety.
Context `{U : Urpc} `{IN : Indet} `{VF : !VhFuncs} `{BO : BucketOrder} `{E : Env}.
Context `{UP : !UrpcPeers} `{VA : !VhAlloc}.
Import Proc.

(** The main context exists and is the only one that says so; the vector holds
    live contexts, each once, the main one first; addresses are not null and
    below what will be allocated; a cached symbol has an address. *)
Record proc_ok (p : ProcHandle) : Prop := {
  ok_main : exists o, objects p !! mctx p = Some o /\ is_main (o_context o) = true;
  ok_only : forall a o, objects p !! a = Some o -> is_main (o_context o) = true -> a = mctx p;
  ok_nodup : NoDup (ctx_vec p);
  ok_live : forall a, a ∈ ctx_vec p -> is_Some (objects p !! a);
  ok_first : ctx_vec p = [] \/ exists l, ctx_vec p = mctx p :: l;
  ok_addr : forall a o, objects p !! a = Some o -> 0 < a < h_brk (proc_vh p);
  ok_syms : forall k a, sym_name p !! k = Some a -> a <> 0;
}.

(** What a context does leaves the process in order and its tables alone. *)
Definition tables (p : ProcHandle) : gmap (Z * list Z) Z * gmap Z Z * Z * list Z :=
  (sym_name p, ve2velibh p, mctx p, ctx_vec p).

Lemma put_world_ok a o w p :
  proc_ok p -> objects p !! a = Some o -> frame (is_main (o_context o)) (h_brk (proc_vh p)) w ->
  proc_ok (put_world a o w p).
Proof.
  intros Hp Ho [Hm Hb]. destruct Hp as [H1 H2 H3 H4 H5 H6 H7].
  split; cbn [put_world objects mctx ctx_vec proc_vh sym_name]; try done.
  - destruct (decide (a = mctx p)) as [->|Hne].
    + rewrite lookup_insert_eq. eexists; split; [done|]. cbn [o_context]. rewrite Hm.
      destruct H1 as (o' & Ho' & Hm'). congruence.
    + by rewrite lookup_insert_ne.
  - intros x ox [[<- <-]|[_ Hx]]%lookup_insert_Some; [|by apply H2].
    cbn [o_context]. rewrite Hm. by apply H2.
  - intros x Hx. destruct (decide (a = x)) as [->|Hne]; [rewrite lookup_insert_eq; eauto|].
    rewrite lookup_insert_ne by done. auto.
  - intros x ox [[<- _]|[_ Hx]]%lookup_insert_Some.
    + pose proof (H6 _ _ Ho). lia.
    + pose proof (H6 _ _ Hx). lia.
Qed.

Lemma on_context_ok {A} a (m : M world A) t :
  frames m -> keeps (fun p => proc_ok p /\ tables p = t) (on_context a m).
Proof.
  intros Hm p [Hp Ht]. unfold on_context. destruct (objects p !! a) as [o|] eqn:Ho; [|done].
  specialize (Hm (is_main (o_context o)) (h_brk (proc_vh p)) (world_of o p)).
  destruct (m (world_of o p)) as [r w] eqn:Em.
  assert (Hf : frame (is_main (o_context o)) (h_brk (proc_vh p)) w).
  { specialize (Hm (conj eq_refl (Z.le_refl _))). by destruct r. }
  destruct r; (split; [by apply put_world_ok|done]).
Qed.

Lemma on_mctx_ok {A} (m : M world A) t :
  frames m -> keeps (fun p => proc_ok p /\ tables p = t) (on_mctx m).
Proof. intros Hm p Hp. by apply on_context_ok. Qed.

Lemma main_request_ok n cmd fmt args t :
  keeps (fun p => proc_ok p /\ tables p = t) (main_request n cmd fmt args).
Proof.
  apply keeps_bind; [apply on_mctx_ok; auto with frames|]. intros req.
  apply on_mctx_ok. auto with frames.
Qed.

Lemma name_at_ok name msg P : keeps P (name_at name msg).
Proof.
  unfold name_at. apply keeps_bind; [apply keeps_gets|]. intros [s|]; [apply keeps_ret|apply keeps_throw].
Qed.

(** [safe m]: [m] keeps the process in order and does not touch its tables. *)
Definition safe {A} (m : M ProcHandle A) : Prop :=
  forall t, keeps (fun p => proc_ok p /\ tables p = t) m.

Lemma safe_ok {A} (m : M ProcHandle A) : safe m -> keeps proc_ok m.
Proof.
  intros Hm p Hp. specialize (Hm (tables p) p (conj Hp eq_refl)).
  by destruct (m p) as [[] p']; destruct Hm.
Qed.
Lemma safe_bind {A B} (m : M ProcHandle A) (k : A -> M ProcHandle B) :
  safe m -> (forall a, safe (k a)) -> safe (bind m k).
Proof. intros Hm Hk t. apply keeps_bind; [apply Hm|]. intros a. apply Hk. Qed.
Lemma safe_ret {A} (a : A) : safe (ret a).
Proof. intros t. apply keeps_ret. Qed.
Lemma safe_context {A} a (m : M world A) : frames m -> safe (on_context a m).
Proof. intros Hm t. by apply on_context_ok. Qed.
Lemma safe_mctx {A} (m : M world A) : frames m -> safe (on_mctx m).
Proof. intros Hm t. by apply on_mctx_ok. Qed.
Lemma safe_request n cmd fmt args : safe (main_request n cmd fmt args).
Proof. intros t. apply main_request_ok. Qed.
Lemma safe_name name msg : safe (name_at name msg).
Proof. intros t. apply name_at_ok. Qed.
Hint Resolve safe_ret safe_request safe_name : frames.

Ltac safe_tac :=
  repeat first
    [ solve [auto with frames]
    | (apply safe_bind; [|intros ?])
    | (apply safe_mctx; solve [auto with frames])
    | match goal with
      | |- safe (if ?b then _ else _) => destruct b
      | |- safe (match ?x with _ => _ end) => destruct x
      end ].

Lemma loadLibrary_safe n name : safe (loadLibrary n name).
Proof. unfold loadLibrary. safe_tac. Qed.
Lemma allocBuff_safe n size : safe (allocBuff n size).
Proof. unfold allocBuff. safe_tac. Qed.
Lemma freeBuff_safe n buff : safe (freeBuff n buff).
Proof. unfold freeBuff. safe_tac. Qed.
Lemma readMem_safe n dst src size : safe (Proc.readMem n dst src size).
Proof. unfold Proc.readMem. safe_tac. Qed.
Lemma writeMem_safe n dst src size : safe (Proc.writeMem n dst src size).
Proof. unfold Proc.writeMem. safe_tac. Qed.
Lemma callSync_safe n addr args : safe (Proc.callSync n addr args).
Proof. unfold Proc.callSync. safe_tac. Qed.
Lemma veMemcpy_safe n dst src size : safe (veMemcpy n dst src size).
Proof. unfold veMemcpy. safe_tac. Qed.

Lemma each_context_safe {A} (m : M world A) l : frames m -> safe (each_context m l).
Proof.
  intros Hm. induction l as [|c l IH]; cbn [each_context]; [apply safe_ret|].
  apply safe_bind; [by apply safe_context|]. by intros _.
Qed.
Lemma accessPci_ok : keeps proc_ok accessPciRecvSyncRegister.
Proof.
  unfold accessPciRecvSyncRegister. apply keeps_bind; [apply keeps_gets|]. intros l.
  apply safe_ok, each_context_safe. auto with frames.
Qed.

(** *** Operations that change the tables *)

Lemma set_sym_name_ok s p :
  proc_ok p -> (forall k a, s !! k = Some a -> a <> 0) -> proc_ok (set_sym_name s p).
Proof. intros []; by split. Qed.
Lemma set_ve2velibh_ok l p : proc_ok p -> proc_ok (set_ve2velibh l p).
Proof. intros []; by split. Qed.

Lemma keeps_modify (f : ProcHandle -> ProcHandle) P :
  (forall p, P p -> P (f p)) -> keeps P (modify f).
Proof. intros H. by apply hoare_modify. Qed.

Lemma unloadLibrary_ok n h : keeps proc_ok (unloadLibrary n h).
Proof.
  unfold unloadLibrary. apply keeps_bind.
  - apply keeps_modify. intros p Hp. apply set_sym_name_ok; [done|].
    intros k a [Ha _]%map_lookup_filter_Some. by apply (ok_syms _ Hp k).
  - intros _. apply keeps_bind; [apply safe_ok, safe_request|]. intros [? ?]. apply keeps_ret.
Qed.

Lemma getSym_ok n h name : keeps proc_ok (getSym n h name).
Proof.
  unfold getSym. apply keeps_bind; [apply name_at_ok|]. intros s.
  apply keeps_bind; [apply keeps_gets|]. intros [a|]; [apply keeps_ret|].
  apply keeps_bind; [apply safe_ok, safe_request|]. intros [rv r]. cbv zeta.
  destruct (Z.eqb_spec (if negb (rv =? VEO_COMMAND_OK) then 0 else default 0 r) 0) as [_|Hne];
    [apply keeps_ret|].
  apply keeps_bind; [|intros _; apply keeps_ret]. apply keeps_modify. intros p Hp.
  apply set_sym_name_ok; [done|]. intros k a [[_ <-]|[_ Ha]]%lookup_insert_Some; [done|].
  by apply (ok_syms _ Hp k).
Qed.

Lemma loadVE2VELibrary_ok n name : keeps proc_ok (loadVE2VELibrary n name).
Proof.
  unfold loadVE2VELibrary. apply keeps_bind; [apply keeps_gets|]. intros h.
  destruct (negb _); [apply keeps_ret|]. apply keeps_bind; [apply safe_ok, loadLibrary_safe|].
  intros h'. apply keeps_bind; [|intros _; apply keeps_ret]. apply keeps_modify.
  intros p. apply set_ve2velibh_ok.
Qed.

Lemma getVEDMASyms_ok n names libh sym : keeps proc_ok (getVEDMASyms n names libh sym).
Proof.
  unfold getVEDMASyms. apply keeps_bind; [apply keeps_gets|]. intros a.
  destruct (negb _); [apply keeps_ret|]. generalize 0.
  induction names as [|x names IH]; intros t; cbn [get_dma_syms]; [apply keeps_ret|].
  apply keeps_bind; [apply name_at_ok|]. intros s.
  apply keeps_bind; [apply getSym_ok|]. intros b. destruct (b =? 0); [apply keeps_ret|apply IH].
Qed.

(** *** Closing contexts *)

Lemma close_safe n c : safe (on_context c (fun w => close n (vh_urpc_peer_destroy (the_peer w)) w)).
Proof. apply safe_context. intros b k w Hw. by apply frames_close. Qed.

Lemma lookup_delete_neq (l : list Z) i c a :
  NoDup l -> l !! i = Some c -> (a ∈ delete i l <-> a ∈ l /\ a <> c).
Proof.
  intros Hn Hi. rewrite (delete_take_drop l i).
  pose proof (take_drop_middle l i c Hi) as El. rewrite <- El in Hn.
  apply NoDup_app in Hn as (H1 & H2 & H3). apply NoDup_cons in H3 as [H3 H4].
  rewrite <- El at 3. rewrite !elem_of_app, elem_of_cons. split.
  - intros [Ha|Ha]; (split; [auto|intros ->]); [|done]. apply (H2 c Ha). by left.
  - intros [[Ha|[Ha|Ha]] Hne]; auto. done.
Qed.

Lemma delete_filter (l : list Z) i c :
  NoDup l -> l !! i = Some c -> delete i l = filter (fun x => x <> c) l.
Proof.
  revert i. induction l as [|x l IH]; intros i Hn Hi; [done|].
  apply NoDup_cons in Hn as [Hx Hn]. destruct i as [|i].
  - injection Hi as ->. change (delete 0%nat (c :: l)) with l. rewrite filter_cons_False by auto.
    clear IH Hn. induction l as [|y l IH]; [done|]. apply not_elem_of_cons in Hx as [Hy Hx].
    rewrite filter_cons_True by congruence. f_equal. auto.
  - cbn in Hi. rewrite filter_cons_True.
    + change (delete (S i) (x :: l)) with (x :: delete i l). f_equal. auto.
    + intros ->. destruct Hx. by eapply list_elem_of_lookup_2.
Qed.

(** Erasing a context that is not the main one. *)
Lemma erase_ok c i p :
  proc_ok p -> c <> mctx p -> ctx_vec p !! i = Some c ->
  proc_ok (set_objects (delete c (objects p)) (delete i (ctx_vec p)) p).
Proof.
  intros Hp Hc Hi. destruct Hp as [(o & Ho & Hm) H2 H3 H4 H5 H6 H7].
  split; cbn [set_objects objects mctx ctx_vec proc_vh sym_name]; try done.
  - exists o. by rewrite lookup_delete_ne.
  - intros a oa [_ Ha]%lookup_delete_Some. by apply H2.
  - eapply sublist_NoDup; [exact H3|apply sublist_delete].
  - intros a [Ha Hne]%(lookup_delete_neq _ _ c); [|done|done]. rewrite lookup_delete_ne by done. auto.
  - destruct H5 as [E5|[l El]]; [by rewrite E5 in Hi|right].
    rewrite El in *. destruct i as [|i]; [by injection Hi as <-|]. by exists (delete i l).
  - intros a oa [_ Ha]%lookup_delete_Some. by apply (H6 a oa).
Qed.

(** [delContext] of another context than the main one: the context is gone, the
    others stay in their order.  If closing it fails, it stays. *)
Lemma delContext_spec n c p :
  proc_ok p -> c <> mctx p ->
  match delContext n c p with
  | (Ret _, p') => proc_ok p' /\ mctx p' = mctx p /\ sym_name p' = sym_name p /\
      ctx_vec p' = match Table.find c (ctx_vec p) with
                   | Some i => delete i (ctx_vec p) | None => ctx_vec p end /\
      (c ∈ ctx_vec p -> objects p' !! c = None)
  | (_, p') => proc_ok p' /\ mctx p' = mctx p /\ ctx_vec p' = ctx_vec p
  end.
Proof.
  intros Hp Hc. unfold delContext.
  rewrite (bind_Ret _ _ p (Table.find c (ctx_vec p)) p) by done.
  destruct (Table.find c (ctx_vec p)) as [i|] eqn:Ei.
  - apply Table.find_Some in Ei as [Ei _].
    pose proof (close_safe n c (tables p) p (conj Hp eq_refl)) as Hs. unfold bind.
    destruct (on_context c _ p) as [[r| | | | |] p1]; destruct Hs as [Hp1 Ht]; injection Ht as E1 E2 E3 E4;
      try done.
    cbn [modify]. split_and!; [|done|done|cbn; by rewrite E4|].
    + apply erase_ok; [done|by rewrite E3|by rewrite E4].
    + intros _. apply lookup_delete_eq.
  - apply Table.find_None in Ei. done.
Qed.

Lemma delContext_ok n c m :
  c <> m -> keeps (fun p => proc_ok p /\ mctx p = m) (delContext n c).
Proof.
  intros Hc p [Hp Hm]. pose proof (delContext_spec n c p Hp ltac:(congruence)) as Hd.
  destruct (delContext n c p) as [[] p']; split; try apply Hd;
    (destruct Hd as (_ & Hd & _); congruence).
Qed.

Lemma close_context_ok n c : keeps proc_ok (veo_context_close n c).
Proof.
  intros p Hp. unfold veo_context_close. destruct (objects p !! c) as [o|] eqn:Ho; [|done].
  destruct (is_main (o_context o)) eqn:Hm; [done|].
  assert (Hc : c <> mctx p).
  { intros ->. destruct (ok_main p Hp) as (o' & Ho' & Hm'). congruence. }
  assert (Hk : keeps (fun p' => proc_ok p' /\ mctx p' = mctx p) (delContext n c ;;; ret 0)).
  { apply keeps_bind; [by apply delContext_ok|]. intros _. apply keeps_ret. }
  specialize (Hk p (conj Hp eq_refl)). by destruct ((delContext n c ;;; ret 0) p) as [[] p']; destruct Hk.
Qed.

Lemma del_others_ok n l m : keeps (fun p => proc_ok p /\ mctx p = m) (del_others n l).
Proof.
  induction l as [|c l IH]; cbn [del_others]; [apply keeps_ret|].
  intros p [Hp Hm]. rewrite (bind_Ret _ _ p (mctx p) p), Hm by done.
  apply (keeps_bind (if c =? m then ret tt else delContext n c) (fun _ => del_others n l));
    [|by intros _|done].
  destruct (Z.eqb_spec c m) as [|Hne]; [apply keeps_ret|by apply delContext_ok].
Qed.

Lemma set_ve_number_ok v p : proc_ok p -> proc_ok (set_ve_number v p).
Proof. intros []; by split. Qed.

Lemma exitProc_ok n : keeps proc_ok (exitProc n).
Proof.
  unfold exitProc. apply keeps_bind; [apply keeps_gets|]. intros l. apply keeps_bind.
  - intros p Hp. pose proof (del_others_ok n l (mctx p) p (conj Hp eq_refl)) as Hd.
    by destruct (del_others n l p) as [[] p']; destruct Hd.
  - intros _. apply keeps_bind; [intros p Hp; by apply (safe_ok _ (close_safe n (mctx p)))|].
    intros _. apply keeps_bind; [|intros _; apply keeps_ret]. apply keeps_modify.
    intros p. apply set_ve_number_ok.
Qed.

(** *** Opening contexts *)

(** A new object at a fresh address. *)
Lemma new_context_spec up core p :
  proc_ok p ->
  exists a p', new_context up false core p = (Ret a, p') /\ proc_ok p' /\ 0 < a /\
    tables p' = tables p /\ objects p !! a = None /\ is_Some (objects p' !! a).
Proof.
  intros Hp. unfold new_context. cbn [new_char]. eexists _, _. split; [reflexivity|].
  destruct Hp as [(o & Ho & Hm) H2 H3 H4 H5 H6 H7]. set (brk := h_brk (proc_vh p)) in *.
  assert (Hfresh : objects p !! brk = None).
  { destruct (objects p !! brk) as [x|] eqn:Ex; [|done]. pose proof (H6 _ _ Ex). lia. }
  assert (Hmb : mctx p <> brk) by congruence.
  split_and!; [|pose proof (H6 _ _ Ho); lia|done|done|cbn; rewrite lookup_insert_eq; eauto].
  split; cbn [set_proc_vh set_objects objects mctx ctx_vec proc_vh sym_name h_brk]; try done.
  - exists o. by rewrite lookup_insert_ne.
  - intros a oa [[_ <-]|[_ Ha]]%lookup_insert_Some; [done|]. by apply H2.
  - intros a Ha. destruct (decide (brk = a)) as [->|Hne]; [rewrite lookup_insert_eq; eauto|].
    rewrite lookup_insert_ne by done. auto.
  - destruct (align_up_spec 16 (512 + 1)) as [Hal _]; [lia|].
    intros a oa [[<- _]|[_ Ha]]%lookup_insert_Some.
    + pose proof (H6 _ _ Ho). fold brk. lia.
    + pose proof (H6 _ _ Ha). fold brk. lia.
Qed.

Lemma start_context_safe a : safe (start_context a).
Proof.
  unfold start_context. apply safe_context. apply frames_bind.
  - intros b k w Hw. by apply frames_sp.
  - intros sp. apply frames_bind; [by apply frames_same|]. intros _.
    apply frames_bind; [apply frames_init|]. intros _. apply frames_ret.
Qed.

Lemma append_ok a p :
  proc_ok p -> is_Some (objects p !! a) -> (a ∉ ctx_vec p) -> ctx_vec p <> [] ->
  proc_ok (set_objects (objects p) (ctx_vec p ++ [a]) p).
Proof.
  intros [] Ha Hn Hne. split; cbn [set_objects objects mctx ctx_vec proc_vh sym_name]; try done.
  - apply NoDup_app. split_and!; [done| |apply NoDup_singleton].
    intros x Hx ->%list_elem_of_singleton. done.
  - intros x [Hx| ->%list_elem_of_singleton]%elem_of_app; auto.
  - right. destruct ok_first0 as [|[l ->]]; [done|]. by exists (l ++ [a]).
Qed.

Lemma peer_create_safe : safe peer_create.
Proof. intros t p [[] Ht]. split; [by split|done]. Qed.
Lemma next_core_safe : safe next_core.
Proof.
  intros t. unfold next_core. apply keeps_bind.
  - intros p Hp. unfold lift. by destruct (match getenv _ with Some _ => _ | None => _ end).
  - intros x. destruct (negb _); [apply keeps_throw|]. apply keeps_bind; [apply keeps_gets|].
    intros [c|]; [apply keeps_ret|]. by intros p Hp.
Qed.

Definition settled_tables t (p : ProcHandle) : Prop := proc_ok p /\ tables p = t.

(** What [openContext] returns: null and nothing changed, or one more context. *)
Definition opened (m : Z) (v : list Z) (a : Z) (p : ProcHandle) : Prop :=
  proc_ok p /\ mctx p = m /\
  ((a = 0 /\ ctx_vec p = v) \/
   ((a ∉ v) /\ a <> 0 /\ ctx_vec p = v ++ [a] /\ (v = [] -> a = m))).

Lemma add_context_spec n up core s l m v :
  v <> [] ->
  hoare (settled_tables (s, l, m, v))
    (let! up := lift (wait_receiver n up) in
     let! a := new_context up false core in
     start_context a ;;;
     modify (fun p => set_objects (objects p) (ctx_vec p ++ [a]) p) ;;;
     on_context a (modify (set_state VEO_STATE_RUNNING)) ;;;
     ret a) (opened m v) (settled_tables (s, l, m, v)).
Proof.
  intros Hv. eapply hoare_bind with (R := fun _ => settled_tables (s, l, m, v)).
  { intros p Hp. unfold lift. by destruct (wait_receiver n up). }
  clear up. intros up p [Hp Ht]. injection Ht as E1 E2 E3 E4.
  destruct (new_context_spec up core p Hp) as (a & p1 & En & Hp1 & Ha & Ht1 & Hnone & Hsome).
  rewrite (bind_Ret _ _ _ _ _ En).
  assert (Hav : a ∉ v).
  { intros Hin. rewrite <- E4 in Hin. destruct (ok_live p Hp a Hin) as [x Hx]. congruence. }
  pose proof (start_context_safe a (s, l, m, v) p1) as Hst. unfold bind at 1.
  assert (Ht1' : tables p1 = (s, l, m, v)) by (rewrite Ht1; unfold tables; congruence).
  specialize (Hst (conj Hp1 Ht1')).
  assert (Hobj : is_Some (objects (snd (start_context a p1)) !! a)).
  { unfold start_context, on_context. destruct Hsome as [o ->].
    match goal with |- context [?m (world_of o p1)] => destruct (m (world_of o p1)) end.
    cbn. rewrite lookup_insert_eq. eauto. }
  destruct (start_context a p1) as [[x| | | | |] p2]; try exact Hst.
  destruct Hst as [Hp2 Ht2]. injection Ht2 as F1 F2 F3 F4. cbn [snd] in Hobj.
  rewrite (bind_Ret _ _ p2 tt (set_objects (objects p2) (ctx_vec p2 ++ [a]) p2)) by done.
  assert (Hp3 : proc_ok (set_objects (objects p2) (ctx_vec p2 ++ [a]) p2)).
  { apply append_ok; [done|done|by rewrite F4|by rewrite F4]. }
  pose proof (safe_context a (modify (set_state VEO_STATE_RUNNING)) ltac:(by apply frames_same)
                _ _ (conj Hp3 eq_refl)) as Hrun.
  destruct Hobj as [o Ho].
  assert (Ho3 : objects (set_objects (objects p2) (ctx_vec p2 ++ [a]) p2) !! a = Some o) by exact Ho.
  unfold bind, on_context in *. rewrite Ho3 in *. cbn [modify] in *. destruct Hrun as [Hp4 _].
  split; [exact Hp4|]. cbn. split; [done|]. right. split_and!; [done|lia|by rewrite F4|done].
Qed.

Section OpenThread.
Context (s : gmap (Z * list Z) Z) (l : gmap Z Z) (m : Z) (v : list Z).

Lemma settled_bind {A B} (x : M ProcHandle A) (k : A -> M ProcHandle B) Q :
  safe x -> (forall a, hoare (settled_tables (s, l, m, v)) (k a) Q (settled_tables (s, l, m, v))) ->
  hoare (settled_tables (s, l, m, v)) (bind x k) Q (settled_tables (s, l, m, v)).
Proof. intros Hx Hk. eapply hoare_bind; [apply Hx|exact Hk]. Qed.

Lemma settled_null :
  hoare (settled_tables (s, l, m, v)) (ret 0) (opened m v) (settled_tables (s, l, m, v)).
Proof.
  apply hoare_ret. intros q [Hq Hqt]. injection Hqt as _ _ F3 F4.
  split; [done|]. split; [done|]. by left.
Qed.

Lemma open_thread_spec n sz : v <> [] ->
  hoare (settled_tables (s, l, m, v)) (open_thread n sz) (opened m v) (settled_tables (s, l, m, v)).
Proof.
  intros Hv. unfold open_thread.
  apply settled_bind; [apply next_core_safe|]. intros core.
  apply settled_bind; [apply peer_create_safe|]. intros [up|]; [|by apply hoare_throw].
  apply settled_bind; [apply safe_mctx; auto with frames|]. intros req.
  destruct (req <? 0); [apply settled_null|].
  destruct (urpc_wait_peer_attach up) as [rc up']. destruct (negb (rc =? 0)); [by apply hoare_throw|].
  apply settled_bind.
  { apply safe_mctx, frames_same. intros w. by destruct (wait_req_result _ _ _) as [[? ?] ?]. }
  intros rc'. destruct (negb (rc' =? 0)); [apply settled_null|]. by apply add_context_spec.
Qed.

Lemma openContext_spec n sz :
  hoare (settled_tables (s, l, m, v)) (openContext n sz) (opened m v) (settled_tables (s, l, m, v)).
Proof.
  unfold openContext. apply settled_bind; [apply safe_mctx; auto with frames|].
  intros _ p [Hp Ht]. pose proof Ht as Ht'. injection Ht' as E1 E2 E3 E4.
  rewrite (bind_Ret _ _ p v p) by (unfold gets; by rewrite E4).
  pose proof (open_thread_spec n sz) as Ho. destruct v as [|c v0]; [|by apply Ho].
  cbn. split.
  - destruct Hp. split; cbn; try done; try apply NoDup_singleton; [|eauto].
    intros a ->%list_elem_of_singleton. destruct ok_main0 as (o & Ho' & _). eauto.
  - split; [done|]. right. rewrite E3. split_and!; [apply not_elem_of_nil| |done|done].
    destruct (ok_main p Hp) as (o & Ho' & _). pose proof (ok_addr p Hp _ _ Ho'). lia.
Qed.
End OpenThread.

Lemma openContext_ok n sz : keeps proc_ok (openContext n sz).
Proof.
  intros p Hp. pose proof (openContext_spec (sym_name p) (ve2velibh p) (mctx p) (ctx_vec p) n sz p
                             (conj Hp eq_refl)) as Ho.
  by destruct (openContext n sz p) as [[] p']; destruct Ho.
Qed.

(** *** The constructor *)

Lemma construct_ok venode bin h waits locks p :
  0 < h_brk h -> construct venode bin (blank h waits locks) = (Ret tt, p) ->
  proc_ok p /\ ctx_vec p = [] /\ sym_name p = ∅ /\ ve_number p = venode.
Proof.
  intros Hh Hc. unfold construct in Hc.
  apply bind_inv_Ret in Hc as (ou & p0 & E0 & Hc). injection E0 as <- <-.
  destruct (vh_urpc_peer_create _) as [up|]; [|done].
  apply bind_inv_Ret in Hc as (core & p1 & E1 & Hc). injection E1 as _ <-.
  destruct (vh_urpc_child_create up bin venode core) as [rv up1]. destruct (negb _); [done|].
  destruct (urpc_wait_peer_attach up1) as [rc up2]. destruct (negb _); [done|].
  apply bind_inv_Ret in Hc as ([] & p2 & E2 & Hc). injection E2 as <-.
  apply bind_inv_Ret in Hc as (a & p3 & E3 & Hc). injection E3 as <- <-.
  apply bind_inv_Ret in Hc as ([] & p4 & E4 & Hc). injection E4 as <-.
  match type of Hc with bind _ _ ?q = _ => set (p4 := q) in Hc end.
  assert (Hp4 : proc_ok p4).
  { subst p4. split; cbn; try done.
    - rewrite lookup_insert_eq. by eexists.
    - by intros x o [[<- _]|[_ Hx]]%lookup_insert_Some _.
    - constructor.
    - intros x Hx. by apply not_elem_of_nil in Hx.
    - by left.
    - intros x o [[<- _]|[_ Hx]]%lookup_insert_Some; [|done].
      destruct (align_up_spec 16 (512 + 1)); lia. }
  assert (Ht4 : tables p4 = (∅, ∅, h_brk h, [])) by done. clearbody p4.
  apply bind_inv_Ret in Hc as ([] & p5 & E5 & Hc).
  pose proof (start_context_safe (h_brk h) _ p4 (conj Hp4 Ht4)) as H5. cbn [proc_vh blank] in E5.
  change (start_context (h_brk h) p4 = (Ret tt, p5)) in E5. rewrite E5 in H5.
  apply bind_inv_Ret in Hc as ([] & p6 & E6 & Hc).
  pose proof (safe_context (h_brk h) (modify (set_state VEO_STATE_RUNNING)) ltac:(by apply frames_same)
                _ p5 H5) as H6.
  change (on_context (h_brk h) (modify (set_state VEO_STATE_RUNNING)) p5 = (Ret tt, p6)) in E6.
  rewrite E6 in H6. destruct H6 as [Hp6 Ht6]. injection Ht6 as F1 F2 F3 F4.
  injection Hc as <-. split; [by apply set_ve_number_ok|done].
Qed.

(** *** Runs of a process *)

Inductive proc_op :=
  | P_loadLibrary (n : nat) (libname : Z)
  | P_unloadLibrary (n : nat) (handle : Z)
  | P_getSym (n : nat) (libhdl symname : Z)
  | P_allocBuff (n : nat) (size : Z)
  | P_freeBuff (n : nat) (buff : Z)
  | P_readMem (n : nat) (dst src size : Z)
  | P_writeMem (n : nat) (dst src size : Z)
  | P_callSync (n : nat) (addr : Z) (args : CallArgs)
  | P_veMemcpy (n : nat) (dst src size : Z)
  | P_loadVE2VELibrary (n : nat) (libname : Z)
  | P_getVEDMASyms (n : nat) (vedmasym : list Z) (libh : Z) (sym : list Z)
  | P_openContext (n : nat) (stack_sz : Z)
  | P_closeContext (n : nat) (c : Z)
  | P_accessPci
  | P_exitProc (n : nat)
  | P_context (c : Z) (o : operation).

Definition proc_perform (o : proc_op) : M ProcHandle unit :=
  match o with
  | P_loadLibrary n l => loadLibrary n l ;;; ret tt
  | P_unloadLibrary n h => unloadLibrary n h ;;; ret tt
  | P_getSym n h s => getSym n h s ;;; ret tt
  | P_allocBuff n sz => allocBuff n sz ;;; ret tt
  | P_freeBuff n b => freeBuff n b
  | P_readMem n d s sz => Proc.readMem n d s sz ;;; ret tt
  | P_writeMem n d s sz => Proc.writeMem n d s sz ;;; ret tt
  | P_callSync n a args => Proc.callSync n a args ;;; ret tt
  | P_veMemcpy n d s sz => veMemcpy n d s sz ;;; ret tt
  | P_loadVE2VELibrary n l => loadVE2VELibrary n l ;;; ret tt
  | P_getVEDMASyms n v l s => getVEDMASyms n v l s ;;; ret tt
  | P_openContext n sz => openContext n sz ;;; ret tt
  | P_closeContext n c => veo_context_close n c ;;; ret tt
  | P_accessPci => accessPciRecvSyncRegister
  | P_exitProc n => exitProc n ;;; ret tt
  | P_context c o => on_context c (perform o)
  end.

(** A process some operations after its construction.  An operation may also
    throw, or not come back; its effects up to that point stay. *)
Inductive proc_run (p : ProcHandle) : ProcHandle -> Prop :=
  | proc_start : proc_run p p
  | proc_step p1 o : proc_run p p1 -> proc_run p (snd (proc_perform o p1)).

Lemma keeps_void {A} (m : M ProcHandle A) : keeps proc_ok m -> keeps proc_ok (m ;;; ret tt).
Proof. intros Hm. apply keeps_bind; [done|]. intros _. apply keeps_ret. Qed.

Lemma proc_perform_ok o : keeps proc_ok (proc_perform o).
Proof.
  destruct o; cbn [proc_perform]; try apply keeps_void;
    auto using safe_ok, loadLibrary_safe, unloadLibrary_ok, getSym_ok, allocBuff_safe, freeBuff_safe,
      readMem_safe, writeMem_safe, callSync_safe, veMemcpy_safe, loadVE2VELibrary_ok, getVEDMASyms_ok,
      openContext_ok, close_context_ok, accessPci_ok, exitProc_ok, safe_context, frames_perform,
      safe_request.
Qed.

Lemma proc_run_ok p p' : proc_ok p -> proc_run p p' -> proc_ok p'.
Proof.
  intros Hp. induction 1 as [|p1 o _ IH]; [done|]. apply keeps_snd; [apply proc_perform_ok|done].
Qed.

Lemma name_at_inv name msg p s p' :
  name_at name msg p = (Ret s, p') -> c_string 256 (h_mem (proc_vh p)) name = Some s /\ p' = p.
Proof.
  unfold name_at, bind, gets. change (S (Z.to_nat VEO_SYMNAME_LEN_MAX)) with 256%nat.
  destruct (c_string 256 _ name); [|done]. by intros [= -> ->].
Qed.

Lemma getSym_cases n h name p a p' :
  getSym n h name p = (Ret a, p') -> proc_ok p ->
  exists s, c_string 256 (h_mem (proc_vh p)) name = Some s /\
    ((sym_name p !! (h, s) = Some a /\ p' = p) \/
     (sym_name p !! (h, s) = None /\
      sym_name p' = if a =? 0 then sym_name p else <[(h, s) := a]> (sym_name p))).
Proof.
  intros Hg Hp. unfold getSym in Hg. apply bind_inv_Ret in Hg as (s & p0 & Es & Hg).
  destruct (name_at_inv _ _ _ _ _ Es) as [Ec ->]. exists s.
  split; [done|]. apply bind_inv_Ret in Hg as (oc & p1 & E1 & Hg). injection E1 as <- <-.
  destruct (sym_name p !! (h, s)) as [c|] eqn:Ecache; [injection Hg as <- <-; by left|right].
  split; [done|]. apply bind_inv_Ret in Hg as ([rv r] & p1 & E1 & Hg).
  pose proof (safe_request n URPC_CMD_GETSYM "LP" [SA_L h; SA_P name (Z.of_nat (length s) + 1)]
                (tables p) p (conj Hp eq_refl)) as Hs.
  rewrite E1 in Hs. destruct Hs as [_ Ht]. injection Ht as F1 _ _ _.
  destruct (Z.eqb_spec (if negb (rv =? VEO_COMMAND_OK) then 0 else default 0 r) 0) as [_|Hne].
  - by injection Hg as <- <-.
  - apply bind_inv_Ret in Hg as ([] & p2 & E2 & Hg). injection E2 as <-. injection Hg as <- <-.
    destruct (Z.eqb_spec (if negb (rv =? VEO_COMMAND_OK) then 0 else default 0 r) 0); [done|].
    cbn. by rewrite F1.
Qed.

Lemma unloadLibrary_syms n h p : proc_ok p -> forall k s,
  sym_name (snd (unloadLibrary n h p)) !! (k, s) = if k =? h then None else sym_name p !! (k, s).
Proof.
  intros Hp k s. unfold unloadLibrary.
  set (p1 := set_sym_name (filter (fun e => e.1.1 <> h) (sym_name p)) p).
  assert (Hp1 : proc_ok p1).
  { apply set_sym_name_ok; [done|]. intros x a [Ha _]%map_lookup_filter_Some. by apply (ok_syms _ Hp x). }
  rewrite (bind_Ret _ _ p tt p1) by done.
  pose proof (safe_bind (main_request n URPC_CMD_UNLOADLIB "L" [SA_L h])
    (fun '(_, result) => ret (i32 (default (-1) result))) (safe_request _ _ _ _)
    ltac:(intros [? ?]; apply safe_ret) (tables p1) p1 (conj Hp1 eq_refl)) as Hs.
  match goal with |- sym_name (snd ?x) !! _ = _ =>
    assert (F1 : sym_name (snd x) = sym_name p1) end.
  { destruct (bind _ _ p1) as [[] p2]; destruct Hs as [_ Ht]; by injection Ht. }
  rewrite F1. subst p1. cbn [set_sym_name sym_name]. rewrite map_lookup_filter.
  destruct (sym_name p !! (k, s)) as [a|]; cbn; [|by destruct (k =? h)].
  destruct (Z.eqb_spec k h) as [->|Hne]; by case_guard.
Qed.
End ProcSafety.

(** ** An example process *)

Definition demo_peers : @UrpcPeers demo_urpc :=
  @Build_UrpcPeers demo_urpc (fun _ => Some demo_peer) (fun p _ _ _ => (0, p)) (fun p => (0, p))
    (fun _ => 0) (fun _ => 7) (fun p _ => p).

Definition demo_alloc `{Urpc} : VhAlloc (VF := demo_vh).
Proof. intros addr arg w. split; [done|]. cbn. lia. Qed.

(** [VE_OMP_NUM_THREADS=1], and a heap with the text ["f"] at address 100. *)
Definition threads_env : Env := fun name =>
  if bool_decide (name = "VE_OMP_NUM_THREADS") then Some "1" else None.

Definition demo_heap : heap := mkHeap (mem_write (fun _ => 1) 100 [102; 0]) 8192 ∅.

Definition demo_construct :=
  @Proc.construct demo_urpc demo_indet threads_env demo_peers 0 "aveorun"
    (@Proc.blank demo_urpc demo_heap [] []).
Definition demo_proc : @Proc.ProcHandle demo_urpc := snd demo_construct.

Abbreviation demo_proc_perform :=
  (@proc_perform demo_urpc demo_indet demo_vh list_order threads_env demo_peers).

(** Two contexts, a library and a symbol; then the second context is closed. *)
Definition demo_proc_ops : list proc_op :=
  [P_openContext 9 4194304; P_openContext 9 4194304; P_loadLibrary 9 100; P_getSym 9 77 100].

Definition proc_perform_all (l : list proc_op) (p : @Proc.ProcHandle demo_urpc) :=
  foldl (fun p o => snd (demo_proc_perform o p)) p l.

Definition demo_proc2 := proc_perform_all demo_proc_ops demo_proc.

Example demo_proc2_contexts : length (Proc.ctx_vec demo_proc2) = 2%nat /\
  Proc.sym_name demo_proc2 = {[(77, [102]) := 514]}.
Proof. vm_compute. done. Qed.

Lemma demo_constructed : demo_construct = (Ret tt, demo_proc).
Proof.
  unfold demo_proc. assert (H : fst demo_construct = Ret tt) by (vm_compute; reflexivity).
  rewrite <- H. by destruct demo_construct.
Qed.

Lemma demo_proc2_run :
  @proc_run demo_urpc demo_indet demo_vh list_order threads_env demo_peers demo_proc demo_proc2.
Proof.
  unfold demo_proc2, proc_perform_all, demo_proc_ops. cbn [foldl].
  repeat apply proc_step. apply proc_start.
Qed.

Lemma demo_proc2_ok : @proc_ok demo_urpc demo_proc2.
Proof.
  apply (@proc_run_ok demo_urpc demo_indet demo_vh list_order threads_env demo_peers demo_alloc demo_proc).
  - by apply (@construct_ok demo_urpc demo_indet list_order threads_env demo_peers 0 "aveorun" demo_heap [] []
                _ eq_refl demo_constructed).
  - apply demo_proc2_run.
Qed.

(** ** Properties *)

Section ProcProperties.
Context `{U : Urpc} `{IN : Indet} `{VF : !VhFuncs} `{BO : BucketOrder} `{E : Env}.
Context `{UP : !UrpcPeers} `{VA : !VhAlloc}.
Import Proc.

(** C27: a process keeps its contexts in order.  After the constructor and whatever
  operations, also ones that threw or did not come back: the main context exists,
  is the first of the vector once the vector is in use, and is the only context
  that [veo_context_close] refuses to delete; no context is in the vector twice;
  every pointer [getContext] hands out is a live object; no symbol is cached with
  a null address. *)
Theorem process_invariant venode bin h waits locks p p' :
  0 < h_brk h -> construct venode bin (blank h waits locks) = (Ret tt, p) -> proc_run p p' ->
  (exists o, objects p' !! mctx p' = Some o /\ is_main (o_context o) = true) /\
  (forall n c o, objects p' !! c = Some o -> is_main (o_context o) = true ->
     c = mctx p' /\ veo_context_close n c p' = (Ret 0, p')) /\
  (ctx_vec p' = [] \/ getContext 0 p' = Ret (mctx p')) /\
  NoDup (ctx_vec p') /\
  (forall idx c, getContext idx p' = Ret c -> exists o, objects p' !! c = Some o) /\
  (forall k a, sym_name p' !! k = Some a -> a <> 0).
Proof.
  intros Hh Hc Hr. destruct (construct_ok _ _ _ _ _ _ Hh Hc) as [Hp _].
  pose proof (proc_run_ok _ _ Hp Hr) as [H1 H2 H3 H4 H5 H6 H7]. split_and!; try done.
  - intros n c o Ho Hm. split; [by apply (H2 c o)|]. unfold veo_context_close. by rewrite Ho, Hm.
  - destruct H5 as [|[l El]]; [by left|right]. unfold getContext. by rewrite El.
  - intros idx c Hi. unfold getContext in Hi.
    destruct (ctx_vec p' !! Z.to_nat (u64 idx)) as [x|] eqn:Ex; [|done]. injection Hi as ->.
    destruct (H4 c) as [o Ho]; [by eapply list_elem_of_lookup_2|]. by exists o.
Qed.

(** C28: opening and closing contexts.  The first context opened is the main one.
  [openContext] either returns null and leaves the vector alone, or appends a
  new context that [getContext] then finds at the end; if it throws, no context
  was added.  Closing a context that is not the main one deletes it and removes
  it from the vector, and every other context stays, in the same order. *)
Theorem open_close_contexts n sz p :
  proc_ok p ->
  (forall r p', openContext n sz p = (r, p') ->
   match r with
   | Ret a =>
      (a = 0 /\ ctx_vec p' = ctx_vec p) \/
      (ctx_vec p' = ctx_vec p ++ [a] /\ (a ∉ ctx_vec p) /\ (ctx_vec p = [] -> a = mctx p) /\
       (Z.of_nat (length (ctx_vec p)) < 2 ^ 31 -> getContext (numContexts p) p' = Ret a))
   | _ => ctx_vec p' = ctx_vec p
   end) /\
  (forall c o, objects p !! c = Some o -> is_main (o_context o) = false -> c ∈ ctx_vec p ->
   forall r p', veo_context_close n c p = (r, p') ->
   match r with
   | Ret rc => rc = 0 /\ objects p' !! c = None /\
       ctx_vec p' = filter (fun x => x <> c) (ctx_vec p)
   | _ => ctx_vec p' = ctx_vec p
   end).
Proof.
  intros Hp. split.
  - pose proof (openContext_spec (sym_name p) (ve2velibh p) (mctx p) (ctx_vec p) n sz p (conj Hp eq_refl)) as Ho.
    intros r p' Er. rewrite Er in Ho.
    destruct r as [a| | | | |]; try (destruct Ho as [_ Ht]; by injection Ht).
    destruct Ho as (_ & _ & [Ho|(Hn & _ & Ev & Hf)]); [by left|right]. split_and!; try done.
    intros Hl. unfold getContext, numContexts. rewrite i32_small, u64_small, Nat2Z.id, Ev by lia.
    by rewrite list_lookup_middle.
  - intros c o Ho Hm Hin r p' Er. unfold veo_context_close in Er. rewrite Ho, Hm in Er.
    assert (Hc : c <> mctx p).
    { intros ->. destruct (ok_main p Hp) as (o' & Ho' & Hm'). congruence. }
    pose proof (delContext_spec n c p Hp Hc) as Hd. unfold bind in Er.
    destruct (delContext n c p) as [[x| | | | |] p1]; injection Er as <- <-;
      try (by destruct Hd as (_ & _ & Hd)).
    destruct Hd as (_ & _ & _ & Hv & Hgone). split_and!; [done|by apply Hgone|].
    rewrite Hv. clear Hv Hgone. pose proof (ok_nodup p Hp) as Hn.
    destruct (Table.find c (ctx_vec p)) as [i|] eqn:Ei; [|by apply Table.find_None in Ei].
    apply Table.find_Some in Ei as [Ei _]. by apply delete_filter.
Qed.

(** C29: the symbol cache.  A symbol that was found is remembered under its library
  and its text: asked again, wherever the text is stored, the same address comes back without
  a message to the VE and without any other effect.  A symbol that was not found
  is not remembered.  Unloading a library, however it ends, forgets exactly the
  symbols of that library. *)
Theorem symbol_cache n h name p a p' :
  proc_ok p -> getSym n h name p = (Ret a, p') ->
  exists s, c_string 256 (h_mem (proc_vh p)) name = Some s /\
    (sym_name p !! (h, s) <> None -> p' = p) /\
    (a = 0 -> sym_name p' = sym_name p) /\
    (a <> 0 -> forall m name2, c_string 256 (h_mem (proc_vh p')) name2 = Some s ->
       getSym m h name2 p' = (Ret a, p')) /\
    (forall m h2 k t, sym_name (snd (unloadLibrary m h2 p')) !! (k, t) =
       if k =? h2 then None else sym_name p' !! (k, t)).
Proof.
  intros Hp Hg. destruct (getSym_cases _ _ _ _ _ _ Hg Hp) as (s & Ec & Hcase). exists s.
  assert (Hp' : proc_ok p').
  { pose proof (getSym_ok n h name p Hp) as Hk. by rewrite Hg in Hk. }
  split_and!; [done| | | |].
  - intros Hne. by destruct Hcase as [[_ ->]|[Hno _]].
  - intros ->. destruct Hcase as [[_ ->]|[_ ->]]; done.
  - intros Ha m name2 Ec2.
    assert (Hin : sym_name p' !! (h, s) = Some a).
    { destruct Hcase as [[Hc ->]|[_ ->]]; [done|]. destruct (Z.eqb_spec a 0); [done|].
      apply lookup_insert_eq. }
    unfold getSym. rewrite (bind_Ret _ _ p' s p').
    + rewrite (bind_Ret _ _ p' (Some a) p'); [done|]. unfold gets. by rewrite Hin.
    + unfold name_at, bind, gets. change (S (Z.to_nat VEO_SYMNAME_LEN_MAX)) with 256%nat. by rewrite Ec2.
  - intros m h2 k t. by apply unloadLibrary_syms.
Qed.
End ProcProperties.

Lemma process_invariant_witness :
  exists o, Proc.objects demo_proc2 !! Proc.mctx demo_proc2 = Some o /\
    is_main (Proc.o_context o) = true.
Proof.
  exact (proj1 (@process_invariant demo_urpc demo_indet demo_vh list_order threads_env demo_peers
                  demo_alloc 0 "aveorun" demo_heap [] [] demo_proc demo_proc2 eq_refl demo_constructed
                  demo_proc2_run)).
Defined.

Abbreviation demo_openContext :=
  (@Proc.openContext demo_urpc demo_indet demo_vh list_order threads_env demo_peers).

Lemma open_close_contexts_witness :
  let r := demo_openContext 9 4194304 demo_proc2 in
  (9248 = 0 /\ Proc.ctx_vec (snd r) = Proc.ctx_vec demo_proc2) \/
  (Proc.ctx_vec (snd r) = Proc.ctx_vec demo_proc2 ++ [9248] /\ (9248 ∉ Proc.ctx_vec demo_proc2) /\
   (Proc.ctx_vec demo_proc2 = [] -> 9248 = Proc.mctx demo_proc2) /\
   (Z.of_nat (length (Proc.ctx_vec demo_proc2)) < 2 ^ 31 ->
    Proc.getContext (Proc.numContexts demo_proc2) (snd r) = Ret 9248)).
Proof.
  intros r.
  destruct (@open_close_contexts demo_urpc demo_indet demo_vh list_order threads_env demo_peers
              demo_alloc 9 4194304 demo_proc2 demo_proc2_ok) as [H _].
  apply (H (Ret 9248) (snd r)). assert (Hr : fst r = Ret 9248) by (vm_compute; reflexivity).
  change (r = (Ret 9248, snd r)). rewrite <- Hr. by destruct r.
Defined.

Lemma symbol_cache_witness :
  let r := @Proc.getSym demo_urpc demo_indet demo_vh list_order 9 77 100 demo_proc2 in
  exists s, Proc.c_string 256 (h_mem (Proc.proc_vh demo_proc2)) 100 = Some s /\
    (Proc.sym_name demo_proc2 !! (77, s) <> None -> snd r = demo_proc2).
Proof.
  intros r.
  destruct (@symbol_cache demo_urpc demo_indet demo_vh list_order demo_alloc 9 77 100 demo_proc2 514 (snd r)
              demo_proc2_ok) as (s & H1 & H2 & _).
  - assert (H : fst r = Ret 514) by (vm_compute; reflexivity).
    change (r = (Ret 514, snd r)). rewrite <- H. by destruct r.
  - exists s. split; [exact H1|exact H2].
Defined.
