(* ===== verification/Services.v ===== *)
(** * Requests of a process from end to end

    The functions of a [ProcHandle] that ask the VE for memory, libraries and
    symbols send a request on the main context and wait for its result.  Here these
    requests go through all parts: the queues of the main context, ve-urpc, the
    handlers of the VE with its C library, and back. *)

From Stdlib Require Import ZArith Lia Bool.
From stdpp Require Import base gmap list numbers sets strings.
From S2P Require Import Prelude CallArgs Command Urpc Ve Context Example Requests Progress.
From S2P Require Import AsyncTransfer Calls Lifecycle Liveness Exchange VhCommands VeNode ProcHandle Processes.

Open Scope Z_scope.

(** A request of [genericAsyncReq]: the command, the format and the arguments. *)
Record service := mkService { g_cmd : Z; g_fmt : string; g_args : list send_arg }.

Section Services.
Context `{IN : Indet} `{MA : Machine} (max_cmd_size : Z) (latency : nat).

#[local] Hint Extern 0 Urpc => exact (@wire IN MA max_cmd_size latency) : typeclass_instances.
#[local] Hint Extern 0 (UrpcLaws _) => exact (@wire_laws IN MA max_cmd_size latency) : typeclass_instances.

Implicit Types (w : world) (t : service).

(** ** The exchange of a request *)

(** The VE answers with the value, or with an acknowledgement. *)
Definition answer (value : Z) (m : Z * list uval) : Prop :=
  m = (URPC_CMD_RESULT, [VL value]) \/ (m = (URPC_CMD_ACK, []) /\ value = 0).

(** What the handler of the command does. *)
Definition served (hs : heap * ve) t : handled :=
  dispatch (g_cmd t) (send_uval (h_mem (fst hs)) <$> g_args t) (snd hs).

Lemma served_alloc hs size :
  in_u64 size ->
  served hs (mkService URPC_CMD_ALLOC "L" [SA_L size]) =
    (Some (URPC_CMD_RESULT, [VL (fst (malloc (ve_libc (snd hs)) size))]),
     set_ve_libc (snd (malloc (ve_libc (snd hs)) size)) (snd hs)).
Proof.
  intros Hs. match goal with |- _ = ?r => change (alloc_handler [VL size] (snd hs) = r) end.
  unfold alloc_handler, arg_L. cbn [lookup list_lookup]. rewrite u64_small by done.
  by destruct (malloc (ve_libc (snd hs)) size).
Qed.

Lemma served_free hs buff :
  in_u64 buff ->
  served hs (mkService URPC_CMD_FREE "L" [SA_L buff]) =
    (Some (URPC_CMD_ACK, []), set_ve_libc (free (ve_libc (snd hs)) buff) (snd hs)).
Proof.
  intros Hb. match goal with |- _ = ?r => change (free_handler [VL buff] (snd hs) = r) end.
  unfold free_handler, arg_L. cbn [lookup list_lookup]. by rewrite u64_small by done.
Qed.

#[local] Instance service_exchange (sp value : Z) : Exchange service := {|
  ex_sp := sp;
  ex_code := fun _ t => C_generic (g_cmd t) (g_fmt t) (g_args t);
  ex_message := fun h t => (g_cmd t, send_uval (h_mem h) <$> g_args t);
  ex_reply := fun hs t => default (0, []) (fst (served hs t));
  ex_effect := fun hs t => (fst hs, snd (served hs t));
  ex_value := fun _ _ => u64 value;
  ex_able := fun hs t =>
    (exists m, fst (served hs t) = Some m /\ answer value m) /\
    __veo_finish (snd (served hs t)) = __veo_finish (snd hs);
  ex_chain := false;
|}.

Lemma service_submit (VF : VhFuncs) sp value hs prev t c w :
  @ex_able _ _ (service_exchange sp value) hs t ->
  code c = @ex_code _ _ (service_exchange sp value) prev t -> ve_sp (ctx w) = sp ->
  (length (l_sent (wire_of w)) < link_slots)%nat -> l_next (wire_of w) < 2 ^ 31 ->
  run_submit c w = (Ret (0, setURPCReq (l_next (wire_of w)) VEO_COMMAND_UNFINISHED c),
                    Exchange.sent (@ex_message _ _ (service_exchange sp value) (vh w) t) w).
Proof.
  intros _ Ec _ Hslot Hn. unfold run_submit. rewrite Ec. cbn [ex_code ex_message service_exchange].
  rewrite (bind_Ret _ _ w (h_mem (vh w)) w) by done.
  rewrite (bind_Ret _ _ w (l_next (wire_of w))
             (Exchange.sent (g_cmd t, send_uval (h_mem (vh w)) <$> g_args t) w)).
  2:{ unfold generic_send. by rewrite send_calm. }
  rewrite i32_small by (unfold l_next in *; lia). apply submitted_calm.
Qed.

Lemma service_unpack sp value prev t c s w :
  @ex_able _ _ (service_exchange sp value) (vh w, s) t ->
  code c = @ex_code _ _ (service_exchange sp value) prev t ->
  run_unpack c (@ex_reply _ _ (service_exchange sp value) (vh w, s) t) w =
    (Ret (0, setResult (u64 value) VEO_COMMAND_OK c), w).
Proof.
  intros [(m & Hm & Ha) _] Ec. unfold run_unpack. rewrite Ec. cbn [ex_code ex_reply service_exchange].
  rewrite Hm. cbn [default]. destruct Ha as [->|[-> ->]]; [|done]. by destruct w.
Qed.

#[local] Instance service_laws sp value :
  @ExchangeLaws IN MA max_cmd_size latency _ (service_exchange sp value).
Proof.
  split.
  - intros prev t. split; [done|]. intros d Hd. by apply not_elem_of_nil in Hd.
  - done.
  - intros hs t. apply u64_idem.
  - intros VF hs prev t c w. apply service_submit.
  - intros h s t [(m & Hm & _) _]. cbn [ex_message ex_reply ex_effect service_exchange fst snd].
    unfold served in *. cbn [fst snd] in *. destruct (dispatch _ _ s) as [r s']. cbn [fst] in Hm. by subst r.
  - intros ng hand prev t c s w _ Hab Ec _. exists (remaining w), (completion (queue w)).
    split; [|done]. rewrite (service_unpack sp value prev t c s w Hab Ec). f_equal.
    by destruct w as [[[] ? ? ? ? ? ? ? ?] ? ? ? ? ?].
  - by intros hs t [_ ?].
Qed.

Context `{BO : BucketOrder}.

(** ** The request *)

Lemma genericAsyncReq_through {T} (X : Exchange T) `{XL : !@ExchangeLaws IN MA max_cmd_size latency T X}
    ng j cmd fmt args (t : T) w :
  inv ng [] (view_of w) -> idle (1 + j) w -> 0 <= j -> ve_sp (ctx w) = ex_sp ->
  (forall prev, ex_code prev t = C_generic cmd fmt args) -> cmd <> URPC_CMD_ACS_PCIRCVSYC ->
  ex_able (vh w, ve_of w) t ->
  exists w1, (forall VF : VhFuncs, genericAsyncReq cmd fmt args w = (Ret (issued w), w1)) /\
    issued w1 = issued w + 1 /\ (attended w -> attended w1) /\
    moving X (2 ^ 31 - j) [] (fun _ => True) (ex_effect (vh w, ve_of w) t)
      [(issued w, ex_value (vh w, ve_of w) t)] w1.
Proof.
  intros Hinv Hidle Hj Hsp Hcode Hcmd Hab. pose proof (calm_alive w (idle_calm _ _ Hidle)) as Ha.
  pose proof (core_bound _ _ _ (proj1 Hinv)) as Hbd. cbn [v_issued view_of] in Hbd.
  destruct (idle_through X ng (1 + j) w Hinv Hsp ltac:(lia) Hidle) as [Ht Hi]. apply (through_moving _ _ _ (fun _ => False)) in Ht.
  pose proof (push_moving X _ _ (fun _ => True) VEO_REQUEST_ID_INVALID t _ _ w Ht ltac:(done) I
    ltac:(done) Hab ltac:(by left) ltac:(by left) ltac:(lia) ltac:(lia)) as Hm.
  rewrite Hcode in Hm. destruct (progress_moving X _ _ _ _ _ _ Hm) as (w1 & E1 & Hm1 & Hi1 & Hb1).
  destruct (notify_moving X _ _ _ _ _ _ Hm1) as (w2 & E2 & Hm2 & Hi2).
  exists w2. split_and!; [|by rewrite Hi2, Hi1| |].
  - intros VF. unfold genericAsyncReq. rewrite (bind_Ret _ _ w true w) by (unfold gets; by rewrite Ha). cbn [negb].
    rewrite (bind_Ret _ _ _ _ _ (issue_calm _ _ Hinv ltac:(lia))).
    destruct (Z.eqb_spec cmd URPC_CMD_ACS_PCIRCVSYC); [done|].
    rewrite (bind_Ret _ _ (issue w) (CommandImpl_ve (issued w) (C_generic cmd fmt args)) (issue w)) by done.
    rewrite (bind_Ret _ _ _ 0 (pushed (CommandImpl_ve (issued w) (C_generic cmd fmt args)) w)) by done.
    cbn [Z.eqb negb]. rewrite (bind_Ret _ _ _ _ _ (E1 VF)). by rewrite (bind_Ret _ _ _ _ _ E2).
  - intros Hatt. apply (notify_attended _ _ E2), (attended_same _ _ Hb1). by apply (attended_same w).
  - replace (2 ^ 31 - j) with (2 ^ 31 - (1 + j) + 1) by lia. exact Hm2.
Qed.

(** ** A request of a process *)

Context `{VF : !VhFuncs}.

Import Proc.
Implicit Types (p : ProcHandle).

(** The main context is in the state [w] and has nothing to do. *)
Definition resting (k : Z) p w : Prop :=
  exists o, objects p !! mctx p = Some o /\ w = world_of o p /\ inv no_id [] (view_of w) /\ idle k w.

(** [p'] is [p] with the main context in another state, and perhaps other symbols. *)
Definition main_moved p p' w' : Prop :=
  exists o, objects p !! mctx p = Some o /\ p' = set_sym_name (sym_name p') (put_world (mctx p) o w' p).

(** With enough rounds for its loops, [op] returns [a]; the symbols known are [syms],
    the VE process is in the state [s'], VH memory is as before and the main context
    has again nothing to do. *)
Definition serves {A} (op : nat -> M ProcHandle A) p w (a : A) (syms : gmap (Z * list Z) Z) (s' : ve) : Prop :=
  exists N p' w', (forall n, (N <= n)%nat -> op n p = (Ret a, p')) /\ resting 0 p' w' /\
    main_moved p p' w' /\ sym_name p' = syms /\ vh w' = vh w /\ ve_of w' = s'.

Lemma on_mctx_Ret {A} (m : M world A) p o a w' :
  objects p !! mctx p = Some o -> m (world_of o p) = (Ret a, w') ->
  on_mctx m p = (Ret a, put_world (mctx p) o w' p).
Proof. intros Ho Em. unfold on_mctx, on_context. by rewrite Ho, Em. Qed.

Lemma world_of_put a o w p : world_of (mkObject (ctx w) (o_core o) (issued w)) (put_world a o w p) = w.
Proof. by destruct w. Qed.

Lemma put_put a o w1 w2 p :
  put_world a (mkObject (ctx w1) (o_core o) (issued w1)) w2 (put_world a o w1 p) = put_world a o w2 p.
Proof. unfold put_world. cbn. by rewrite insert_insert_eq. Qed.

Lemma main_request_through value t p w :
  resting 1 p w -> g_cmd t <> URPC_CMD_ACS_PCIRCVSYC ->
  (exists m, fst (served (vh w, ve_of w) t) = Some m /\ answer value m) ->
  __veo_finish (snd (served (vh w, ve_of w) t)) = __veo_finish (ve_of w) ->
  serves (fun n => main_request n (g_cmd t) (g_fmt t) (g_args t)) p w (VEO_COMMAND_OK, Some (u64 value))
    (sym_name p) (snd (served (vh w, ve_of w) t)).
Proof.
  intros (o & Ho & Ew & Hinv & Hidle) Hcmd Hm Hf.
  pose proof (core_bound _ _ _ (proj1 Hinv)) as Hbd. cbn [v_issued view_of] in Hbd.
  pose proof (idle_ids _ _ Hidle) as [Hids _].
  destruct (genericAsyncReq_through (service_exchange (ve_sp (ctx w)) value) no_id 0 (g_cmd t) (g_fmt t) (g_args t) t w)
    as (w1 & E1 & Hi1 & _ & Hm1); [done|done|done|done|done|done|by split|]. specialize (E1 VF).
  destruct (wait_through _ _ [] eq_refl _ _ _ _ _ _ Hm1) as (N & w' & HN & Ht & Hi').
  destruct (through_idle _ _ 0 _ _ _ Ht ltac:(lia) ltac:(lia)) as ([ng Hinv'] & Hidle' & Hv).
  injection Hv as Hv Hve. exists N, (put_world (mctx p) o w' p), w'. split_and!; try done.
  - intros n Hn. unfold main_request.
    rewrite Ew in E1. rewrite (bind_Ret _ _ _ _ _ (on_mctx_Ret _ _ _ _ _ Ho E1)).
    rewrite (on_mctx_Ret _ _ (mkObject (ctx w1) (o_core o) (issued w1)) (VEO_COMMAND_OK, Some (u64 value)) w').
    + cbn [mctx put_world]. by rewrite put_put.
    + apply lookup_insert_eq.
    + rewrite world_of_put. rewrite Ew in HN. apply HN, Hn.
  - exists (mkObject (ctx w') (o_core o) (issued w')). split_and!.
    + apply lookup_insert_eq.
    + by rewrite world_of_put.
    + by apply (inv_weaken ng).
    + done.
  - by exists o.
Qed.

(** A function that makes one request and works on its result. *)
Lemma serves_then {A} value m s' t p w (k : Z * option Z -> M ProcHandle A) a syms :
  served (vh w, ve_of w) t = (Some m, s') -> answer value m -> __veo_finish s' = __veo_finish (ve_of w) ->
  resting 1 p w -> g_cmd t <> URPC_CMD_ACS_PCIRCVSYC ->
  (forall p', sym_name p' = sym_name p ->
     k (VEO_COMMAND_OK, Some (u64 value)) p' = (Ret a, set_sym_name syms p')) ->
  serves (fun n => let! r := main_request n (g_cmd t) (g_fmt t) (g_args t) in k r) p w a syms s'.
Proof.
  intros Es Hm Hf Hr Hcmd Hk.
  destruct (main_request_through value t p w Hr Hcmd) as (N & p' & w' & HN & Hr' & (o & Ho & Ep') & Hs & Hv & Hve);
    [rewrite Es; by exists m|by rewrite Es|].
  exists N, (set_sym_name syms p'), w'. split_and!; try done.
  - intros n Hn. rewrite (bind_Ret _ _ _ _ _ (HN n Hn)). by apply Hk.
  - exists o. split; [done|]. by rewrite Ep'.
  - by rewrite Hve, Es.
Qed.

(** The bytes of a name on the VH, with the zero byte. *)
Lemma c_string_read n m x l :
  c_string n m x = Some l -> mem_read m x (Z.to_nat (Z.of_nat (length l) + 1)) = l ++ [0].
Proof.
  replace (Z.to_nat (Z.of_nat (length l) + 1)) with (S (length l)) by lia.
  revert x l. induction n as [|n IH]; intros x l Hc; cbn [c_string] in Hc; [done|].
  destruct (Z.eqb_spec (m x) 0) as [H0|_].
  - injection Hc as <-. cbn. by rewrite Z.add_0_r, H0.
  - destruct (c_string n m (x + 1)) as [l'|] eqn:Ec; [|done]. injection Hc as <-.
    cbn [length app]. change (S (S (length l'))) with (1 + S (length l'))%nat.
    rewrite mem_read_app. change (Z.of_nat 1) with 1. rewrite (IH _ _ Ec). cbn. by rewrite Z.add_0_r.
Qed.


Lemma name_resting k p w x l msg :
  resting k p w -> c_string 256 (h_mem (vh w)) x = Some l -> name_at x msg p = (Ret l, p).
Proof.
  intros (o & _ & -> & _) Hc. unfold name_at, bind, gets. change (S (Z.to_nat VEO_SYMNAME_LEN_MAX)) with 256%nat.
  cbn [vh world_of] in Hc. by rewrite Hc.
Qed.

(** Starting from other symbols. *)
Lemma serves_symbols {A} (op op' : nat -> M ProcHandle A) p w a syms syms0 s' :
  (forall n, op' n p = op n (set_sym_name syms0 p)) ->
  serves op (set_sym_name syms0 p) w a syms s' -> serves op' p w a syms s'.
Proof.
  intros Hop (N & p' & w' & HN & Hr & (o & Ho & Ep) & H). exists N, p', w'. split_and!; try done; try apply H.
  - intros n Hn. rewrite Hop. auto.
  - exists o. split; [done|]. by rewrite Ep.
Qed.

(** Steps before the request that leave the process as it is. *)
Lemma serves_pure {A B} (m : M ProcHandle B) b (k : nat -> B -> M ProcHandle A) p w a syms s' :
  m p = (Ret b, p) -> serves (fun n => k n b) p w a syms s' ->
  serves (fun n => let! x := m in k n x) p w a syms s'.
Proof.
  intros Hm (N & p' & w' & HN & H). exists N, p', w'. split; [|done]. intros n Hn.
  rewrite (bind_Ret _ _ _ _ _ Hm). auto.
Qed.

(** The address the VE has for a symbol: that of the static table, or what [dlsym]
    gives for a library. *)
Definition ve_symbol (s : ve) (libhdl : Z) (sym : list Z) : Z :=
  default (if libhdl =? 0 then 0 else dlsym (ve_libc s) libhdl sym) (static_sym sym _veo_static_symtable).

End Services.

(** ** Example: a process just created *)

Definition demo_main : @world demo_urpc :=
  match Proc.objects demo_proc !! Proc.mctx demo_proc with
  | Some o => Proc.world_of o demo_proc
  | None => demo_world
  end.

Lemma demo_main_object : exists o, Proc.objects demo_proc !! Proc.mctx demo_proc = Some o /\
  demo_main = Proc.world_of o demo_proc.
Proof.
  assert (Ho : match Proc.objects demo_proc !! Proc.mctx demo_proc with Some _ => true | None => false end = true)
    by (vm_compute; reflexivity).
  unfold demo_main. destruct (Proc.objects demo_proc !! Proc.mctx demo_proc) as [o|]; [by exists o|done].
Qed.

Lemma demo_resting : @resting demo_indet demo_machine (8 * 1024 * 1024) 1 1 demo_proc demo_main.
Proof.
  destruct demo_main_object as (o & Ho & Hw). exists o. split_and!; [done|done| |].
  - apply (@initial_inv demo_urpc demo_laws). split_and!; vm_compute; reflexivity.
  - split; [split|..].
    + vm_compute. discriminate.
    + vm_compute. reflexivity.
    + split; vm_compute; reflexivity.
    + vm_compute. reflexivity.
    + vm_compute. reflexivity.
    + vm_compute. reflexivity.
    + split; vm_compute; reflexivity.
Qed.

Lemma demo_main_ve : @ve_of demo_indet demo_machine (8 * 1024 * 1024) 1 demo_main = demo_ve.
Proof. vm_cast_no_check (eq_refl demo_ve). Qed.

Abbreviation demo_serves := (@serves demo_indet demo_machine (8 * 1024 * 1024) 1 Z).


