(* ===== verification/Api.v ===== *)
(** * The C API

    Models the functions of [veo_api.cpp] that work on processes, contexts and
    heterogeneous memory, with their hooks, and how they turn exceptions into
    return codes.  A handle is the address of an object. *)

From Stdlib Require Import ZArith Lia Bool.
From stdpp Require Import base gmap list numbers sets strings.
From S2P Require Import Prelude Hmem CallArgs Command Urpc Ve Context Example Requests Progress.
From S2P Require Import AsyncTransfer Calls Lifecycle VeNode ProcHandle Processes.

Open Scope Z_scope.

(** [try { m } catch (VEOException &e) { k (e.err()) }] *)
Definition try_veo {S A} (m : M S A) (k : Z -> M S A) : M S A := fun s =>
  match m s with
  | (Throw (VEOException _ e), s') => k e s'
  | r => r
  end.

(** The functions of the API a hook can be registered for, by address. *)
Inductive api_func :=
  | F_alloc_mem | F_free_mem | F_alloc_hmem | F_free_hmem | F_alloc_mem_async | F_free_mem_async
  | F_other (addr : Z).

#[export] Instance api_func_eq_dec : EqDecision api_func.
Proof. solve_decision. Defined.
#[export] Instance api_func_countable : Countable api_func.
Proof.
  refine (inj_countable'
    (fun f => match f with
              | F_alloc_mem => inl 0 | F_free_mem => inl 1 | F_alloc_hmem => inl 2
              | F_free_hmem => inl 3 | F_alloc_mem_async => inl 4 | F_free_mem_async => inl 5
              | F_other a => inr a
              end)
    (fun x => match x with
              | inl 0 => F_alloc_mem | inl 1 => F_free_mem | inl 2 => F_alloc_hmem
              | inl 3 => F_free_hmem | inl 4 => F_alloc_mem_async | inl 5 => F_free_mem_async
              | inl _ => F_alloc_mem | inr a => F_other a
              end) _).
  by intros [].
Defined.

(** A hook: a function of the application, or one of those that
    [veo_register_hmem_hook_functions] registers. *)
Inductive hook :=
  | H_user (addr : Z)
  | H_alloc_hmem | H_free_hmem | H_alloc_hmem_async | H_free_hmem_async.

(** The functions the application registers: address and arguments. *)
Class HookFuncs := hook_call : Z -> list Z -> M heap unit.

Section Api.
Context `{U : Urpc} `{IN : Indet} `{VF : !VhFuncs} `{BO : BucketOrder} `{E : Env}.
Context `{UP : !UrpcPeers} `{HF : HookFuncs}.
Import Proc.

Record system := mkSystem {
  procs : Table.table;
  handles : gmap Z ProcHandle;
  sys_vh : heap;
  static_hooks : gmap api_func (hook * Z);
  alloc_hook : Z;
  free_hook : Z;
  errno : Z;
}.

Definition set_procs (t : Table.table) (s : system) : system :=
  mkSystem t (handles s) (sys_vh s) (static_hooks s) (alloc_hook s) (free_hook s) (errno s).
Definition set_sys_vh (h : heap) (s : system) : system :=
  mkSystem (procs s) (handles s) h (static_hooks s) (alloc_hook s) (free_hook s) (errno s).
Definition set_hooks (h : gmap api_func (hook * Z)) (s : system) : system :=
  mkSystem (procs s) (handles s) (sys_vh s) h (alloc_hook s) (free_hook s) (errno s).
Definition set_hmem_hooks (alloc free : Z) (s : system) : system :=
  mkSystem (procs s) (handles s) (sys_vh s) (static_hooks s) alloc free (errno s).
Definition set_errno (e : Z) (s : system) : system :=
  mkSystem (procs s) (handles s) (sys_vh s) (static_hooks s) (alloc_hook s) (free_hook s) e.

Definition on_sys_vh {A} (m : M heap A) : M system A := on sys_vh set_sys_vh m.

(** A method of the process at [h]; the VH memory is shared by all of them. *)
Definition on_proc {A} (h : Z) (m : M ProcHandle A) : M system A := fun s =>
  match handles s !! h with
  | None => (Undef, s)
  | Some p =>
      let '(r, p') := m (set_proc_vh (sys_vh s) p) in
      (r, mkSystem (procs s) (<[h := p']> (handles s)) (proc_vh p') (static_hooks s)
            (alloc_hook s) (free_hook s) (errno s))
  end.

(** [*p] for a [uint64_t *] or a [void **]. *)
Definition load64 (p : Z) (s : system) : Z := le_val (mem_read (h_mem (sys_vh s)) p 8).
Definition store64 (p v : Z) : M system unit := on_sys_vh (store p (le_bytes 8 v)).

Definition VEO_API_VERSION : Z := 16.
Definition veo_api_version : Z := VEO_API_VERSION.

(** *** Processes *)

Definition veo_proc_identifier (h : Z) : M system Z :=
  fun s => (Table._getProcIdentifier h (procs s), s).

Definition getProcIdentifier (h : Z) : M system Z :=
  fun s => (Table._getProcIdentifier h (procs s), s).

(** [exitProc] with its last part, the table. *)
Definition veo_proc_destroy (n : nat) (h : Z) : M system Z :=
  let! rc := on_proc h (exitProc n) in
  modify (fun s => set_procs (Table.unregister h (procs s)) s) ;;;
  ret rc.

Definition veo_load_library (n : nat) (h libname : Z) : M system Z :=
  try_veo (on_proc h (loadLibrary n libname)) (fun e => modify (set_errno e) ;;; ret 0).

Definition veo_unload_library (n : nat) (h libhandle : Z) : M system Z :=
  try_veo (on_proc h (unloadLibrary n libhandle)) (fun e => modify (set_errno e) ;;; ret (-1)).

Definition veo_get_sym (n : nat) (h libhdl symname : Z) : M system Z :=
  try_veo (on_proc h (getSym n libhdl symname)) (fun e => modify (set_errno e) ;;; ret 0).

(** *** Hooks *)

Definition veo_register_hook (func : api_func) (hk : hook) (payload : Z) : M system unit :=
  modify (fun s => set_hooks (<[func := (hk, payload)]> (static_hooks s)) s).

Definition veo_get_hook (func : api_func) (s : system) : option hook :=
  fst <$> static_hooks s !! func.

Definition veo_unregister_hook (func : api_func) : M system unit :=
  modify (fun s => set_hooks (delete func (static_hooks s)) s).

Definition veo_register_hmem_hook_functions (alloc free : Z) : M system unit :=
  modify (set_hmem_hooks alloc free) ;;;
  veo_register_hook F_alloc_mem H_alloc_hmem 0 ;;;
  veo_register_hook F_free_mem H_free_hmem 0 ;;;
  veo_register_hook F_alloc_mem_async H_alloc_hmem_async 0 ;;;
  veo_register_hook F_free_mem_async H_free_hmem_async 0.

Definition veo_unregister_hmem_hook_functions : M system unit :=
  veo_unregister_hook F_alloc_mem ;;;
  veo_unregister_hook F_free_mem ;;;
  veo_unregister_hook F_alloc_mem_async ;;;
  veo_unregister_hook F_free_mem_async.

(** [_alloc_hmem_hook]: the address allocated, with the identifier. *)
Definition _alloc_hmem_hook (proc addr size : Z) : M system unit :=
  let! proc_ident := veo_proc_identifier proc in
  let! a := gets (load64 addr) in
  let! f := gets alloc_hook in
  on_sys_vh (hook_call f [veo_set_proc_identifier a proc_ident; size]).

Definition _free_hmem_hook (proc addr : Z) : M system unit :=
  let! proc_ident := veo_proc_identifier proc in
  let! f := gets free_hook in
  on_sys_vh (hook_call f [veo_set_proc_identifier addr proc_ident]).

(** [hook(payload, args...)] if one is registered.  The two hooks of the
    asynchronous functions take a context first and are not called here. *)
Definition run_hook (func : api_func) (args : list Z) : M system unit :=
  let! hs := gets static_hooks in
  match hs !! func with
  | None => ret tt
  | Some (H_user f, payload) => on_sys_vh (hook_call f (payload :: args))
  | Some (H_alloc_hmem, _) =>
      match args with [proc; addr; size] => _alloc_hmem_hook proc addr size | _ => stop Undef end
  | Some (H_free_hmem, _) =>
      match args with [proc; addr] => _free_hmem_hook proc addr | _ => stop Undef end
  | Some (H_alloc_hmem_async, _) | Some (H_free_hmem_async, _) => stop Undef
  end.

(** *** Memory *)

Definition veo_alloc_mem (n : nat) (h addr size : Z) : M system Z :=
  try_veo
    (let! a := on_proc h (allocBuff n size) in
     store64 addr a ;;;
     if a =? 0 then ret (-1)
     else run_hook F_alloc_mem [h; addr; size] ;;; ret 0)
    (fun _ => ret (-2)).

Definition veo_free_mem (n : nat) (h addr : Z) : M system Z :=
  try_veo
    (on_proc h (freeBuff n addr) ;;;
     run_hook F_free_mem [h; addr] ;;;
     ret 0)
    (fun _ => ret (-1)).

(** The local variable [veaddr] lives at [tmp]. *)
Definition veo_alloc_hmem (n : nat) (h addr size : Z) : M system Z :=
  try_veo
    (if h =? 0 then
       let! a := on_sys_vh (new_char size) in
       store64 addr a ;;;
       ret 0
     else
       let! nprocs := (fun s => (Table.numProcs (procs s), s)) in
       if VEO_MAX_HMEM_PROCS <? nprocs then ret (-1)
       else
         let! tmp := on_sys_vh (new_char 8) in
         let! rc := veo_alloc_mem n h tmp size in
         let! veaddr := gets (load64 tmp) in
         on_sys_vh (delete_char tmp) ;;;
         if negb (rc =? 0) then ret rc
         else
           let! proc_ident := getProcIdentifier h in
           if proc_ident <? 0 then ret proc_ident
           else
             store64 addr (SET_VE_FLAG veaddr) ;;;
             let! a := gets (load64 addr) in
             store64 addr (SET_PROC_IDENT a proc_ident) ;;;
             let! a := gets (load64 addr) in
             run_hook F_alloc_hmem [h; a; size] ;;;
             ret rc)
    (fun _ => ret (-1)).

(** [getProcHandle(GET_PROC_IDENT(addr))] *)
Definition handle_of (addr : Z) : M system Z :=
  fun s => (Table.getProcHandle (i32 (GET_PROC_IDENT addr)) (procs s), s).

Definition veo_free_hmem (n : nat) (addr : Z) : M system Z :=
  try_veo
    (if veo_is_ve_addr addr =? 0 then on_sys_vh (delete_char addr) ;;; ret 0
     else
       let! h := handle_of addr in
       let! rc := veo_free_mem n h (VIRT_ADDR_VE addr) in
       run_hook F_free_hmem [h; addr] ;;;
       ret rc)
    (fun _ => ret (-1)).

Definition veo_read_mem (n : nat) (h dst src size : Z) : M system Z :=
  try_veo (on_proc h (Proc.readMem n dst src size)) (fun _ => ret (-1)).

Definition veo_write_mem (n : nat) (h dst src size : Z) : M system Z :=
  try_veo (on_proc h (Proc.writeMem n dst src size)) (fun _ => ret (-1)).

Definition veo_get_proc_handle_from_hmem (addr : Z) : M system Z :=
  if IS_VE addr =? 0 then ret 0 else handle_of addr.

(** The second [catch], of [std::out_of_range]. *)
Definition catch_range {A} (m : M system A) (k : M system A) : M system A := fun s =>
  match m s with
  | (Throw std_out_of_range, s') => k s'
  | r => r
  end.

Definition veo_hmemcpy (n : nat) (dst src size : Z) : M system Z :=
  let ve_dst := negb (IS_VE dst =? 0) in
  let ve_src := negb (IS_VE src =? 0) in
  catch_range
    (try_veo
       (if ve_dst && negb ve_src then
          let! h := handle_of dst in
          veo_write_mem n h (VIRT_ADDR_VE dst) src size
        else if negb ve_dst && ve_src then
          let! h := handle_of src in
          veo_read_mem n h dst (VIRT_ADDR_VE src) size
        else if negb ve_dst && negb ve_src then
          let! bs := gets (fun s => mem_read (h_mem (sys_vh s)) src (Z.to_nat size)) in
          on_sys_vh (store dst bs) ;;;
          ret 0
        else
          let! dst_h := veo_get_proc_handle_from_hmem dst in
          let! src_h := veo_get_proc_handle_from_hmem src in
          if dst_h =? src_h then
            let! r := on_proc src_h (veMemcpy n (veo_get_hmem_addr dst) (veo_get_hmem_addr src) size) in
            ret (i32 r)
          else ret (-1))
       (fun _ => ret (-1)))
    (ret (-1)).

Definition veo_get_venum_from_hmem (addr : Z) : M system Z :=
  if IS_VE addr =? 0 then ret (-1)
  else
    let! h := veo_get_proc_handle_from_hmem addr in
    on_proc h (gets ve_number).

(** *** Contexts *)

Definition veo_num_contexts (h : Z) : M system Z :=
  if h =? 0 then modify (set_errno EINVAL) ;;; ret (-1)
  else on_proc h (gets numContexts).

(** A context in the upper half of the address space is taken for an error code. *)
Definition ctx_result (c : Z) : M system Z :=
  if i64 c <? 0 then modify (set_errno (i32 (- i64 c))) ;;; ret 0 else ret c.

Definition veo_get_context (h idx : Z) : M system Z :=
  catch_range
    (try_veo
       (let! c := on_proc h (fun p => (getContext idx p, p)) in
        ctx_result c)
       (fun e => modify (set_errno e) ;;; ret 0))
    (ret 0).

Definition veo_context_open (n : nat) (h : Z) : M system Z :=
  try_veo
    (let! c := on_proc h (openContext n VEO_DEFAULT_STACKSIZE) in
     ctx_result c)
    (fun e => modify (set_errno e) ;;; ret 0).

(** [tca] is the address of the attribute object, [attr] its stack size. *)
Definition veo_context_open_with_attr (n : nat) (h tca attr : Z) : M system Z :=
  if (tca =? 0) || (h =? 0) then modify (set_errno EINVAL) ;;; ret 0
  else
    try_veo
      (let! c := on_proc h (openContext n attr) in
       ctx_result c)
      (fun e => modify (set_errno e) ;;; ret 0).

(** *** Arguments and calls *)

(** [veo_args_set_<T>] and [veo_args_set_stack]: return code and object. *)
Definition veo_args_set_ (argnum : Z) (a : ArgBase) (ca : CallArgs) : outcome (Z * CallArgs) :=
  match set_ argnum a ca with
  | Ret ca => Ret (0, ca)
  | Throw (VEOException _ _) => Ret (-1, ca)
  | o => recast o (fun _ => Undef)
  end.

Definition veo_args_set_stack (inout : veo_args_intent) (argnum buff len : Z) (ca : CallArgs)
  : outcome (Z * CallArgs) :=
  match setOnStack inout argnum buff len ca with
  | Ret ca => Ret (0, ca)
  | Throw (VEOException _ _) => Ret (-1, ca)
  | o => recast o (fun _ => Undef)
  end.

Definition veo_call_sync (n : nat) (h addr : Z) (ca : CallArgs)
  : M system (Z * option Z * CallArgs) :=
  try_veo (on_proc h (Proc.callSync n addr ca)) (fun _ => ret (-1, None, ca)).

(** *** Operations of a context *)

(** The process a context belongs to ([c->proc]). *)
Fixpoint find_owner (c : Z) (l : list (Z * ProcHandle)) : option Z :=
  match l with
  | [] => None
  | (h, p) :: l => match objects p !! c with Some _ => Some h | None => find_owner c l end
  end.

Definition on_ctx {A} (c : Z) (m : M world A) : M system A := fun s =>
  match find_owner c (map_to_list (handles s)) with
  | None => (Undef, s)
  | Some h => on_proc h (on_context c m) s
  end.

Definition veo_call_async (n : nat) (c addr : Z) (args : CallArgs) : M system (Z * CallArgs) :=
  try_veo (on_ctx c (callAsync n addr args)) (fun _ => ret (VEO_REQUEST_ID_INVALID, args)).

(** [callAsyncByName] looks the symbol up in the process of the context first. *)
Definition callAsyncByName (n : nat) (c libhdl symname : Z) (args : CallArgs) : M system (Z * CallArgs) :=
  fun s =>
    match find_owner c (map_to_list (handles s)) with
    | None => (Undef, s)
    | Some h =>
        (let! addr := on_proc h (getSym n libhdl symname) in
         on_ctx c (callAsync n addr args)) s
    end.

Definition veo_call_async_by_name (n : nat) (c libhdl symname : Z) (args : CallArgs)
  : M system (Z * CallArgs) :=
  try_veo (callAsyncByName n c libhdl symname args) (fun _ => ret (VEO_REQUEST_ID_INVALID, args)).

Definition veo_call_async_vh (c : Z) (func : vh_func) (arg : Z) : M system Z :=
  try_veo (on_ctx c (callVHAsync func arg)) (fun _ => ret VEO_REQUEST_ID_INVALID).

Definition veo_call_peek_result (c reqid : Z) : M system (Z * option Z) :=
  try_veo (on_ctx c (callPeekResult reqid)) (fun _ => ret (-1, None)).

Definition veo_call_wait_result (n : nat) (c reqid : Z) : M system (Z * option Z) :=
  try_veo (on_ctx c (callWaitResult n reqid)) (fun _ => ret (-1, None)).

Definition veo_async_read_mem (n : nat) (c dst src size : Z) : M system Z :=
  try_veo (on_ctx c (asyncReadMem n dst src size)) (fun _ => ret VEO_REQUEST_ID_INVALID).

Definition veo_async_write_mem (n : nat) (c dst src size : Z) : M system Z :=
  try_veo (on_ctx c (asyncWriteMem n dst src size)) (fun _ => ret VEO_REQUEST_ID_INVALID).

Definition veo_context_sync (n : nat) (c : Z) : M system unit := on_ctx c (synchronize n).

Definition veo_get_context_state (c : Z) : M system veo_context_state :=
  on_ctx c (gets (fun w => state (ctx w))).

(** *** Asynchronous allocation *)

(** [new veo_alloc_mem_async_data(ctx, req, v)]: a tuple of three words. *)
Definition new_async_data (c req v : Z) : M heap Z :=
  let! data := new_char 24 in
  store data (le_bytes 8 c) ;;;
  store (data + 8) (le_bytes 8 req) ;;;
  store (data + 16) (le_bytes 8 v) ;;;
  ret data.

(** [auto [ctx, req, v] = *data; delete data;] *)
Definition take_async_data (data : Z) : M heap (Z * Z * Z) :=
  let word p := gets (fun h => le_val (mem_read (h_mem h) p 8)) in
  let! c := word data in
  let! req := word (data + 8) in
  let! v := word (data + 16) in
  delete_char data ;;;
  ret (c, req, v).

(** The part [veo_alloc_mem_async] and [veo_free_mem_async] share: the request to the VE
    and, when there is a hook for the function, the request of its helper. *)
Definition mem_async (cmd : Z) (func : api_func) (helper : vh_func) (c num : Z) : M system Z :=
  let! r := try_veo (let! id := on_ctx c (genericAsyncReq cmd "L" [SA_L num]) in ret (Some id))
              (fun _ => ret None) in
  match r with
  | None => ret VEO_REQUEST_ID_INVALID
  | Some req =>
      let! hs := gets static_hooks in
      match hs !! func with
      | None => ret req
      | Some _ =>
          let! data := on_sys_vh (new_async_data c req num) in
          veo_call_async_vh c helper data
      end
  end.

Definition veo_alloc_mem_async (c size : Z) : M system Z :=
  mem_async URPC_CMD_ALLOC F_alloc_mem_async alloc_mem_async_hook c size.

Definition veo_free_mem_async (c addr : Z) : M system Z :=
  mem_async URPC_CMD_FREE F_free_mem_async free_mem_async_hook c addr.

(** The identifier of the process a context belongs to. *)
Definition ctx_identifier (s : system) (c : Z) : M heap Z :=
  match find_owner c (map_to_list (handles s)) with
  | None => stop Undef
  | Some h => lift (Table._getProcIdentifier h (procs s))
  end.

Definition _alloc_hmem_async_hook (s : system) (c addr size : Z) : M heap unit :=
  let! proc_ident := ctx_identifier s c in
  hook_call (alloc_hook s) [veo_set_proc_identifier addr proc_ident; size].

Definition _free_hmem_async_hook (s : system) (c addr : Z) : M heap unit :=
  let! proc_ident := ctx_identifier s c in
  hook_call (free_hook s) [veo_set_proc_identifier addr proc_ident].

(** [hook(payload, args...)] in a helper: the hook registered in [s], if there is one. *)
Definition run_async_hook (s : system) (func : api_func) (args : list Z) : M heap unit :=
  match static_hooks s !! func with
  | None => ret tt
  | Some (H_user f, payload) => hook_call f (payload :: args)
  | Some (H_alloc_hmem_async, _) =>
      match args with [c; addr; size] => _alloc_hmem_async_hook s c addr size | _ => stop Undef end
  | Some (H_free_hmem_async, _) =>
      match args with [c; addr] => _free_hmem_async_hook s c addr | _ => stop Undef end
  | Some (H_alloc_hmem, _) | Some (H_free_hmem, _) => stop Undef
  end.

(** The helpers.  [s] is the system they run in, [n] bounds the rounds of
    [callWaitResult]; the context of the tuple is the one whose thread calls them. *)
Definition _alloc_mem_async_hook (n : nat) (s : system) (data : Z) : M world Z :=
  let! '(c, alloc_req, size) := on_vh (take_async_data data) in
  let! '(rv, addr) := callWaitResult (VF := no_vh) n alloc_req in
  if negb (rv =? VEO_COMMAND_OK) then ret 0
  else
    let addr := default 0 addr in
    on_vh (run_async_hook s F_alloc_mem_async [c; addr; size]) ;;;
    ret addr.

Definition _free_mem_async_hook (n : nat) (s : system) (data : Z) : M world Z :=
  let! '(c, free_req, addr) := on_vh (take_async_data data) in
  let! '(rv, _) := callWaitResult (VF := no_vh) n free_req in
  if negb (rv =? VEO_COMMAND_OK) then ret (u64 (-1))
  else
    on_vh (run_async_hook s F_free_mem_async [c; addr]) ;;;
    ret 0.

(** The VH functions of a system: those of the application and the helpers. *)
Definition hooked (n : nat) (s : system) : VhFuncs := fun func arg =>
  match func with
  | alloc_mem_async_hook => _alloc_mem_async_hook n s arg
  | free_mem_async_hook => _free_mem_async_hook n s arg
  | _ => vh_call func arg
  end.

(** [veo_set_thr_ctxt_stacksize]: the attribute object is at [tca] and holds [attr]. *)
Definition veo_set_thr_ctxt_stacksize (tca stack_sz attr : Z) : M system (Z * Z) :=
  if tca =? 0 then modify (set_errno EINVAL) ;;; ret (-1, attr)
  else match setStacksize stack_sz attr with
       | (Ret _, attr') => ret (0, attr')
       | (Throw (VEOException _ e), attr') => modify (set_errno e) ;;; ret (-1, attr')
       | (o, _) => stop (recast o (fun _ => Undef))
       end.

(** *** Creating a process *)

Definition CMD_VEGDB : string := "/opt/nec/ve/bin/ve-gdb".
Definition CMD_XTERM : string := "/usr/bin/xterm".

(** [snprintf(buf, size, "%s", text)]: what fits before the zero byte. *)
Definition snprintf (size : nat) (text : string) : string := String.substring 0 (size - 1) text.

(** The command line [veobin]. *)
Definition veobin (tmp_veobin : string) : string :=
  let veobin_size := (String.length tmp_veobin + String.length CMD_VEGDB + String.length CMD_XTERM
                      + String.length "-e" + 4)%nat in
  match getenv "VEO_DEBUG" with
  | Some mode =>
      if bool_decide (mode = "console") then
        snprintf veobin_size (CMD_VEGDB +:+ (" " +:+ tmp_veobin))
      else if bool_decide (mode = "xterm") then
        snprintf veobin_size (CMD_XTERM +:+ (" -e " +:+ (CMD_VEGDB +:+ (" " +:+ tmp_veobin))))
      else snprintf veobin_size tmp_veobin
  | None => snprintf veobin_size tmp_veobin
  end.

(** [new veo::ProcHandle(venode, bin)]: the address of the object, registered in
    the table.  [waits] and [locks] are what [waitpid] and [try_lock] will report. *)
Definition new_ProcHandle (venode : Z) (bin : string) (waits locks : list bool) : M system Z :=
  let! a := on_sys_vh (new_char 512) in
  fun s =>
    match construct venode bin (blank (sys_vh s) waits locks) with
    | (Ret _, p) =>
        (Ret a, mkSystem (Table.register a (procs s)) (<[a := p]> (handles s)) (proc_vh p)
                  (static_hooks s) (alloc_hook s) (free_hook s) (errno s))
    | (o, p) => (recast o (fun _ => Undef), set_sys_vh (proc_vh p) s)
    end.

Definition veo_proc_create_static (venode : Z) (tmp_veobin : string) (waits locks : list bool)
  : M system Z := fun s =>
  match set_venode_from_env venode with
  | Ret venode =>
      if venode <? -1 then (Ret 0, s)
      else match new_ProcHandle venode (veobin tmp_veobin) waits locks s with
           | (Throw std_invalid_argument, s') | (Throw std_out_of_range, s')
           | (Throw (VEOException _ _), s') => (Ret 0, s')
           | r => r
           end
  | Throw std_invalid_argument | Throw std_out_of_range | Throw (VEOException _ _) => (Ret 0, s)
  | o => (o, s)
  end.

(** [ve1] and [ve3] are the programs for the two architectures. *)
Definition veo_proc_create `{F : Sysfs} (ve1 ve3 : string) (venode : Z) (waits locks : list bool)
  : M system Z :=
  match getenv "VEORUN_BIN" with
  | Some bin => veo_proc_create_static venode bin waits locks
  | None => if veo_arch_number_sysfs (-1) =? 3 then veo_proc_create_static venode ve3 waits locks
            else veo_proc_create_static venode ve1 waits locks
  end.
End Api.

(** ** Lemmas *)

Section ApiLemmas.
Context `{U : Urpc} `{IN : Indet} `{VF : !VhFuncs} `{BO : BucketOrder} `{E : Env}.
Context `{UP : !UrpcPeers} `{HF : HookFuncs}.
Import Proc.

Lemma on_proc_frame {A} h (m : M ProcHandle A) s r s' :
  on_proc h m s = (r, s') -> procs s' = procs s /\ static_hooks s' = static_hooks s.
Proof.
  unfold on_proc. destruct (handles s !! h) as [p|]; [|by intros [= _ <-]].
  destruct (m _) as [o p']. by intros [= _ <-].
Qed.

Lemma load_store64 p v s : 0 <= v < 2 ^ 64 -> load64 p (snd (store64 p v s)) = v.
Proof.
  intros Hv. unfold load64, store64, on_sys_vh, on, store, modify. cbn [snd sys_vh set_sys_vh set_h_mem h_mem].
  rewrite <- (length_le_bytes 8 v) at 2. rewrite mem_read_write_same, le_val_bytes.
  apply Z.mod_small. change (256 ^ Z.of_nat 8) with (2 ^ 64). done.
Qed.

Lemma run_hook_none func args s : static_hooks s !! func = None -> run_hook func args s = (Ret tt, s).
Proof. intros Hn. unfold run_hook. rewrite (bind_Ret _ _ s (static_hooks s) s) by done. by rewrite Hn. Qed.

(** A code the handler does not give comes from the body. *)
Lemma try_veo_Ret {A} (m : M system A) k s a s' :
  try_veo m k s = (Ret a, s') -> (forall e s1 s2, k e s1 <> (Ret a, s2)) -> m s = (Ret a, s').
Proof.
  unfold try_veo. intros Ht Hk. destruct (m s) as [[x|e| | | |] s1]; try done.
  destruct e; try done. by destruct (Hk _ _ _ Ht).
Qed.

Lemma try_veo_never {A} (m : M system A) k s :
  (forall msg e s', m s <> (Throw (VEOException msg e), s')) -> try_veo m k s = m s.
Proof.
  intros Hn. unfold try_veo. destruct (m s) as [[x|e| | | |] s1] eqn:Em; try done.
  destruct e; try done. by destruct (Hn _ _ _ eq_refl).
Qed.

Lemma try_veo_then {A B} (m : M system A) (f : A -> M system B) s a k :
  m s = (Ret a, s) -> (forall msg e s', f a s <> (Throw (VEOException msg e), s')) ->
  try_veo (bind m f) k s = f a s.
Proof. intros Hm Hf. rewrite try_veo_never; by rewrite (bind_Ret _ _ s a s Hm). Qed.

(** A [try] block that returns a code leaves no [VEOException]. *)
Lemma try_veo_caught {A} (m : M system A) (a : A) s msg e s' :
  try_veo m (fun _ => ret a) s <> (Throw (VEOException msg e), s').
Proof. unfold try_veo. destruct (m s) as [[x|e'| | | |] s1]; try done. by destruct e'. Qed.

Lemma veo_alloc_mem_inv n h addr size s s' :
  static_hooks s = ∅ -> veo_alloc_mem n h addr size s = (Ret 0, s') ->
  exists a s1, on_proc h (allocBuff n size) s = (Ret a, s1) /\ a <> 0 /\
    s' = snd (store64 addr a s1) /\ procs s' = procs s /\ static_hooks s' = ∅.
Proof.
  intros Hh Ha. unfold veo_alloc_mem in Ha. apply try_veo_Ret in Ha; [|done].
  apply bind_inv_Ret in Ha as (a & s1 & E1 & Ha). destruct (on_proc_frame _ _ _ _ _ E1) as [F1 F2].
  apply bind_inv_Ret in Ha as ([] & s2 & E2 & Ha). injection E2 as <-.
  destruct (Z.eqb_spec a 0) as [|Hne]; [done|].
  unfold bind in Ha. rewrite run_hook_none in Ha by (cbn; by rewrite F2, Hh).
  injection Ha as <-. exists a, s1. split_and!; try done. cbn. by rewrite F2.
Qed.

Lemma SET_VE_FLAG_word a : 0 <= a < 2 ^ 59 -> SET_VE_FLAG a = hmem_word 1 0 a.
Proof.
  intros Ha. unfold SET_VE_FLAG. rewrite u64_small by lia. change VEADDR_MBITS with (1 * 2 ^ 63).
  rewrite lor_disjoint_add by lia. unfold hmem_word. lia.
Qed.

Lemma SET_PROC_IDENT_word a i : 0 <= a < 2 ^ 59 -> 0 <= i < VEO_MAX_HMEM_PROCS ->
  SET_PROC_IDENT (SET_VE_FLAG a) i = hmem_word 1 i a.
Proof.
  intros Ha Hi. rewrite <- (veo_set_proc_identifier_word a i) by done. unfold veo_set_proc_identifier.
  destruct (Z.ltb_spec i 0), (Z.leb_spec VEO_MAX_HMEM_PROCS i); try lia. done.
Qed.

(** The two stores of [veo_alloc_hmem]. *)
Lemma stored_hmem addr a i s : 0 <= a < 2 ^ 59 -> 0 <= i < VEO_MAX_HMEM_PROCS ->
  let s1 := snd (store64 addr (SET_VE_FLAG a) s) in
  load64 addr (snd (store64 addr (SET_PROC_IDENT (load64 addr s1) i) s1)) = hmem_word 1 i a.
Proof.
  intros Ha Hi s1. assert (Hw : load64 addr s1 = SET_VE_FLAG a).
  { apply load_store64. rewrite SET_VE_FLAG_word by done. apply hmem_word_range; lia. }
  rewrite Hw, SET_PROC_IDENT_word by done. apply load_store64. unfold VEO_MAX_HMEM_PROCS in Hi.
  apply hmem_word_range; lia.
Qed.

(** The identifier in an address leads to the process in the table. *)
Lemma handle_of_word s l (i : nat) h a :
  Table.table_ok (procs s) -> procs s = Some l -> l !! i = Some h -> h <> 0 ->
  Z.of_nat i < VEO_MAX_HMEM_PROCS -> 0 <= a < 2 ^ 59 ->
  handle_of (hmem_word 1 (Z.of_nat i) a) s = (Ret h, s).
Proof.
  intros Hok El Hi Hh Hlt Ha. unfold VEO_MAX_HMEM_PROCS in Hlt. unfold handle_of.
  rewrite GET_PROC_IDENT_word, i32_small by lia.
  rewrite El in *. by destruct (Table.identifier_place h l i Hok Hh Hi) as [_ ->].
Qed.

(** What the functions of the API do with such an address. *)
Definition routed (n : nat) (w h veaddr : Z) (s : system) : Prop :=
  veo_get_proc_handle_from_hmem w s = (Ret h, s) /\
  (forall src sz, IS_VE src = 0 ->
     veo_hmemcpy n w src sz s = catch_range (veo_write_mem n h veaddr src sz) (ret (-1)) s) /\
  (forall dst sz, IS_VE dst = 0 ->
     veo_hmemcpy n dst w sz s = catch_range (veo_read_mem n h dst veaddr sz) (ret (-1)) s) /\
  veo_free_hmem n w s = veo_free_mem n h veaddr s.

Lemma bind_hook_none {A} (m : M system A) func args s :
  (forall o s', m s = (o, s') -> static_hooks s' !! func = None) ->
  bind m (fun rc => run_hook func args ;;; ret rc) s = m s.
Proof.
  intros Hh. unfold bind at 1. destruct (m s) as [[a| | | | |] s1] eqn:Em; try done.
  unfold bind. by rewrite (run_hook_none func args s1 (Hh _ _ eq_refl)).
Qed.

Lemma veo_free_mem_hooks n h a s o s' :
  static_hooks s = ∅ -> veo_free_mem n h a s = (o, s') -> static_hooks s' = ∅.
Proof.
  intros Hh. unfold veo_free_mem, try_veo, bind.
  destruct (on_proc h (freeBuff n a) s) as [r s1] eqn:E1. destruct (on_proc_frame _ _ _ _ _ E1) as [_ F2].
  assert (Hh1 : static_hooks s1 = ∅) by congruence.
  destruct r as [[]|e| | | |]; try (by intros [= _ <-]).
  - rewrite run_hook_none by (by rewrite Hh1). by intros [= _ <-].
  - destruct e; by intros [= _ <-].
Qed.

Lemma routed_word n s l (i : nat) h a :
  Table.table_ok (procs s) -> procs s = Some l -> l !! i = Some h -> h <> 0 ->
  Z.of_nat i < VEO_MAX_HMEM_PROCS -> 0 <= a < 2 ^ 59 -> static_hooks s = ∅ ->
  routed n (hmem_word 1 (Z.of_nat i) a) h a s.
Proof.
  intros Hok El Hi Hh Hlt Ha Hooks.
  pose proof (handle_of_word s l i h a Hok El Hi Hh Hlt Ha) as Hho. unfold VEO_MAX_HMEM_PROCS in Hlt.
  set (w := hmem_word 1 (Z.of_nat i) a) in *.
  assert (Hve : (IS_VE w =? 0) = false) by (unfold w; rewrite IS_VE_word by lia; done).
  assert (Hva : VIRT_ADDR_VE w = a) by (unfold w; apply VIRT_ADDR_VE_word; lia).
  assert (His : veo_is_ve_addr w = 1) by (unfold w; apply veo_is_ve_addr_word; lia).
  split_and!.
  - unfold veo_get_proc_handle_from_hmem. by rewrite Hve.
  - intros src sz Hs. unfold veo_hmemcpy. rewrite Hve, Hs. cbn [Z.eqb negb andb]. unfold catch_range.
    rewrite (try_veo_then _ _ s h _ Hho), Hva by (intros; apply try_veo_caught). done.
  - intros dst sz Hs. unfold veo_hmemcpy. rewrite Hve, Hs. cbn [Z.eqb negb andb]. unfold catch_range.
    rewrite (try_veo_then _ _ s h _ Hho), Hva by (intros; apply try_veo_caught). done.
  - unfold veo_free_hmem. rewrite His. cbn [Z.eqb].
    assert (Hb : (let! rc := veo_free_mem n h (VIRT_ADDR_VE w) in
                  run_hook F_free_hmem [h; w] ;;; ret rc) s = veo_free_mem n h a s).
    { rewrite Hva. apply bind_hook_none. intros o s' Eo.
      by rewrite (veo_free_mem_hooks _ _ _ _ _ _ Hooks Eo). }
    rewrite (try_veo_then _ _ s h _ Hho); [exact Hb|]. rewrite Hb. intros. apply try_veo_caught.
Qed.
End ApiLemmas.

(** ** Properties *)

Section ApiProperties.
Context `{U : Urpc} `{IN : Indet} `{VF : !VhFuncs} `{BO : BucketOrder} `{E : Env}.
Context `{UP : !UrpcPeers} `{HF : HookFuncs}.
Import Proc.

(** C32: heterogeneous memory finds its way back.  When [veo_alloc_hmem] succeeds
  for a registered process, with no hooks registered and a VE address that
  leaves the upper five bits free, the pointer it stores leads every later
  function to the same process and the same VE address:
  [veo_get_proc_handle_from_hmem] returns the handle, [veo_hmemcpy] from or to
  VH memory is the write or read of that process, and [veo_free_hmem] frees the
  address allocated. *)
Theorem alloc_hmem_routes n h addr size s s' l (i : nat) :
  Table.table_ok (procs s) -> procs s = Some l -> l !! i = Some h -> h <> 0 -> static_hooks s = ∅ ->
  veo_alloc_hmem n h addr size s = (Ret 0, s') ->
  exists veaddr s0 s1, on_proc h (allocBuff n size) s0 = (Ret veaddr, s1) /\ veaddr <> 0 /\
    (0 <= veaddr < 2 ^ 59 -> forall m, routed m (load64 addr s') h veaddr s').
Proof.
  intros Hok El Hi Hh Hooks Ha. unfold veo_alloc_hmem in Ha. apply try_veo_Ret in Ha; [|done].
  destruct (Z.eqb_spec h 0) as [|_]; [done|].
  apply bind_inv_Ret in Ha as (np & s1 & E1 & Ha). rewrite El in E1. injection E1 as <- <-.
  destruct (Z.ltb_spec VEO_MAX_HMEM_PROCS (i32 (Z.of_nat (length l)))) as [|Hnp]; [done|].
  rewrite i32_small in Hnp by (rewrite El in Hok; destruct Hok; lia).
  assert (Hlt : Z.of_nat i < VEO_MAX_HMEM_PROCS) by (apply lookup_lt_Some in Hi; lia).
  apply bind_inv_Ret in Ha as (tmp & s1 & E1 & Ha). injection E1 as <- <-.
  apply bind_inv_Ret in Ha as (rc & s2 & E2 & Ha).
  apply bind_inv_Ret in Ha as (ve & s3 & E3 & Ha). injection E3 as <- <-.
  apply bind_inv_Ret in Ha as ([] & s3 & E3 & Ha).
  destruct (Z.eqb_spec rc 0) as [->|Hne]; [|by injection Ha as -> _].
  apply veo_alloc_mem_inv in E2 as (a & s1 & Ea & Hne & Es2 & F1 & F2); [|exact Hooks].
  assert (F3 : procs s3 = Some l /\ static_hooks s3 = ∅).
  { unfold on_sys_vh, on in E3. destruct (delete_char _ _) as [o h3]. injection E3 as _ <-.
    split; [|exact F2]. change (procs s2 = Some l). rewrite F1. exact El. }
  destruct F3 as [F3 F4]. cbn [negb] in Ha.
  apply bind_inv_Ret in Ha as (pid & s4 & E4 & Ha). unfold getProcIdentifier in E4. rewrite F3 in E4.
  rewrite El in Hok. destruct (Table.identifier_place h l i Hok Hh Hi) as [Hid _].
  rewrite Hid in E4. injection E4 as <- <-. destruct (Z.ltb_spec (Z.of_nat i) 0); [lia|].
  apply bind_inv_Ret in Ha as ([] & s4 & E4 & Ha).
  apply bind_inv_Ret in Ha as (x & s5 & E5 & Ha). injection E5 as <- <-.
  apply bind_inv_Ret in Ha as ([] & s5 & E5 & Ha).
  apply bind_inv_Ret in Ha as (y & s6 & E6 & Ha). injection E6 as <- <-.
  injection E4 as E4. injection E5 as E5.
  assert (F5 : procs s5 = Some l /\ static_hooks s5 = ∅).
  { rewrite <- E5, <- E4. done. }
  destruct F5 as [F5 F6]. unfold bind in Ha. rewrite run_hook_none in Ha by (by rewrite F6).
  injection Ha as <-. eexists a, _, s1. split; [exact Ea|]. split; [done|]. intros Hr m.
  assert (Hv : load64 (h_brk (sys_vh s)) s2 = a) by (rewrite Es2; apply load_store64; lia).
  assert (Hw5 : load64 addr s5 = hmem_word 1 (Z.of_nat i) a).
  { rewrite <- E5, <- E4, Hv. apply (stored_hmem addr a (Z.of_nat i) s3); [done|lia]. }
  rewrite Hw5. apply (routed_word m s5 l i h a); try done. by rewrite F5.
Qed.


(** [veo_free_hmem] lets [std::out_of_range] escape.  For an address whose
  process identifier is not in the table, [veo_hmemcpy] returns -1 but
  [veo_free_hmem], a C function, throws: it has no handler for what
  [std::vector::at] throws. *)
Theorem free_hmem_throws n s l (k : nat) a :
  procs s = Some l -> (length l <= k)%nat -> Z.of_nat k < 16 -> 0 <= a < 2 ^ 59 ->
  veo_free_hmem n (hmem_word 1 (Z.of_nat k) a) s = (Throw std_out_of_range, s).
Proof.
  intros El Hk Lk Ha. unfold veo_free_hmem. rewrite veo_is_ve_addr_word by lia. cbn [Z.eqb].
  unfold try_veo, bind at 1, handle_of. rewrite El, GET_PROC_IDENT_word, i32_small by lia.
  unfold Table.getProcHandle. rewrite u64_small, Nat2Z.id by lia. by rewrite lookup_ge_None_2.
Qed.

(** Memory of a destroyed process.  [veo_proc_destroy] leaves a null pointer in
  the table; a later [veo_free_hmem] or [veo_hmemcpy] with an address of that
  process does not fail with a code, it goes through the null pointer. *)
Theorem hmem_after_destroy n s s' rc l (i : nat) h a b size :
  Table.table_ok (procs s) -> procs s = Some l -> l !! i = Some h -> h <> 0 -> Z.of_nat i < 16 ->
  0 <= a < 2 ^ 59 -> 0 <= b < 2 ^ 59 ->
  veo_proc_destroy n h s = (Ret rc, s') -> handles s' !! 0 = None ->
  veo_free_hmem n (hmem_word 1 (Z.of_nat i) a) s' = (Undef, s') /\
  veo_hmemcpy n (hmem_word 1 (Z.of_nat i) a) b size s' = (Undef, s').
Proof.
  intros Hok El Hi Hh Li Ha Hb Hd H0. unfold veo_proc_destroy in Hd.
  apply bind_inv_Ret in Hd as (r & s1 & E1 & Hd). destruct (on_proc_frame _ _ _ _ _ E1) as [F1 _].
  apply bind_inv_Ret in Hd as ([] & s2 & E2 & Hd). injection E2 as <-. injection Hd as -> <-.
  cbn [handles set_procs] in H0. rewrite F1, El in *.
  destruct (Table.unregister_spec h l i Hok Hh Hi) as (-> & _ & _).
  assert (Hnull : forall s0, procs s0 = Some (<[i := 0]> l) ->
    handle_of (hmem_word 1 (Z.of_nat i) a) s0 = (Ret 0, s0)).
  { intros s0 Hs0. unfold handle_of. rewrite Hs0, GET_PROC_IDENT_word, i32_small by lia.
    unfold Table.getProcHandle. rewrite u64_small, Nat2Z.id by lia.
    rewrite list_lookup_insert_eq; [done|]. by eapply lookup_lt_Some. }
  match goal with |- context [set_procs ?t s1] => set (s2 := set_procs t s1) end.
  specialize (Hnull s2 eq_refl). split.
  - unfold veo_free_hmem. rewrite veo_is_ve_addr_word by lia. cbn [Z.eqb].
    unfold try_veo at 1, bind at 1. rewrite Hnull. unfold bind, veo_free_mem, try_veo, on_proc.
    unfold bind. cbn [s2 set_procs handles]. by rewrite H0.
  - unfold veo_hmemcpy. rewrite IS_VE_word by lia.
    replace (IS_VE b) with 0.
    2:{ replace b with (hmem_word 0 0 b) by (unfold hmem_word; lia). by rewrite IS_VE_word by lia. }
    cbn [Z.eqb negb andb Z.mul]. change (1 * 2 ^ 63 =? 0) with false. cbn [negb andb].
    unfold catch_range, try_veo at 1, bind. rewrite Hnull. unfold veo_write_mem, try_veo, on_proc.
    cbn [s2 set_procs handles]. by rewrite H0.
Qed.

(** A name that is too long is refused.  When no byte among the first 256 of
  the name is zero, [veo_load_library] and [veo_get_sym] return 0 and set [errno]
  to [ENAMETOOLONG]; no message is sent, the symbols cached stay. *)
Theorem long_names_refused n h libhdl name s p :
  handles s !! h = Some p ->
  (forall k, 0 <= k < 256 -> h_mem (sys_vh s) (name + k) <> 0) ->
  let s' := mkSystem (procs s) (<[h := set_proc_vh (sys_vh s) p]> (handles s)) (sys_vh s)
              (static_hooks s) (alloc_hook s) (free_hook s) ENAMETOOLONG in
  veo_load_library n h name s = (Ret 0, s') /\ veo_get_sym n h libhdl name s = (Ret 0, s').
Proof.
  intros Hp Hn. cbv zeta.
  assert (Hc : c_string 256 (h_mem (sys_vh s)) name = None).
  { assert (Hgen : forall m x, (forall k, 0 <= k < Z.of_nat m -> h_mem (sys_vh s) (x + k) <> 0) ->
              c_string m (h_mem (sys_vh s)) x = None).
    { induction m as [|m IH]; intros x Hx; cbn [c_string]; [done|].
      pose proof (Hx 0 ltac:(lia)) as H0. rewrite Z.add_0_r in H0.
      destruct (Z.eqb_spec (h_mem (sys_vh s) x) 0); [done|]. rewrite IH; [done|].
      intros k Hk. replace (x + 1 + k) with (x + (k + 1)) by lia. apply Hx. lia. }
    apply Hgen. exact Hn. }
  assert (Hname : forall msg, name_at name msg (set_proc_vh (sys_vh s) p) =
    (Throw (VEOException msg ENAMETOOLONG), set_proc_vh (sys_vh s) p)).
  { intros msg. unfold name_at, bind, gets. change (S (Z.to_nat VEO_SYMNAME_LEN_MAX)) with 256%nat.
    cbn [proc_vh set_proc_vh]. by rewrite Hc. }
  unfold veo_load_library, veo_get_sym, try_veo, on_proc. rewrite Hp.
  unfold loadLibrary, getSym, bind at 1 4. rewrite !Hname. done.
Qed.

(** An argument number below -1 is not refused but throws.  The setters of the
  API catch [VEOException] only; [std::vector::resize] throws
  [std::length_error], which leaves the C function. *)
Theorem negative_argnum_throws argnum a ca inout buff len :
  - 2 ^ 31 <= argnum < -1 -> Z.of_nat (length (arguments ca)) < 2 ^ 60 ->
  veo_args_set_ argnum a ca = Throw std_length_error /\
  veo_args_set_stack inout argnum buff len ca = Throw std_length_error.
Proof.
  intros Ha Hl.
  assert (Hp : forall x, put_argument argnum x ca = Throw std_length_error).
  { intros x. unfold put_argument. destruct (Z.eqb_spec argnum (-1)), (Z.eqb_spec argnum (2 ^ 31 - 1)); try lia.
    cbn [orb]. assert (Hu : u64 (argnum + 1) = argnum + 1 + 2 ^ 64).
    { unfold u64. rewrite <- (Z_mod_plus_full _ 1), Z.mod_small by lia. lia. }
    rewrite Hu. destruct (Z.ltb_spec (Z.of_nat (length (arguments ca))) (argnum + 1 + 2 ^ 64)); [|lia].
    unfold vector_max_size. destruct (Z.ltb_spec (2 ^ 60 - 1) (argnum + 1 + 2 ^ 64)); [done|lia]. }
  unfold veo_args_set_, veo_args_set_stack, set_, setOnStack. by rewrite !Hp.
Qed.

Lemma substring_all text : forall k, (String.length text <= k)%nat -> String.substring 0 k text = text.
Proof.
  induction text as [|c text IH]; intros [|k] Hk; cbn in *; try done; [lia|]. f_equal. apply IH. lia.
Qed.

Lemma snprintf_fits size text : (String.length text < size)%nat -> snprintf size text = text.
Proof. intros H. apply substring_all. lia. Qed.

Lemma string_length_app (a b : string) :
  String.length (a +:+ b) = (String.length a + String.length b)%nat.
Proof. induction a as [|c a IH]; [done|]. exact (f_equal S IH). Qed.

Lemma veobin_cases bin :
  veobin bin = bin \/ veobin bin = CMD_VEGDB +:+ (" " +:+ bin) \/
  veobin bin = CMD_XTERM +:+ (" -e " +:+ (CMD_VEGDB +:+ (" " +:+ bin))).
Proof.
  unfold veobin. cbv zeta. destruct (getenv "VEO_DEBUG") as [mode|]; [repeat case_bool_decide|].
  - right. left. apply snprintf_fits. rewrite !string_length_app. cbn. lia.
  - right. right. apply snprintf_fits. rewrite !string_length_app. cbn. lia.
  - left. apply snprintf_fits. lia.
  - left. apply snprintf_fits. lia.
Qed.

Lemma new_ProcHandle_inv venode bin waits locks s h s' :
  new_ProcHandle venode bin waits locks s = (Ret h, s') -> 0 < h_brk (sys_vh s) ->
  h = h_brk (sys_vh s) /\ procs s' = Table.register h (procs s) /\
  exists p, handles s' = <[h := p]> (handles s) /\ proc_ok p /\ ctx_vec p = [] /\ sym_name p = ∅.
Proof.
  intros Hn Hb. unfold new_ProcHandle in Hn. apply bind_inv_Ret in Hn as (a & s1 & E1 & Hn).
  injection E1 as <- <-. set (s1 := set_sys_vh _ s) in Hn.
  destruct (construct venode bin (blank (sys_vh s1) waits locks)) as [[[]| | | | |] p] eqn:Ec; try done.
  injection Hn as <- <-. split_and!; [done|done|]. exists p. split; [done|].
  destruct (construct_ok venode bin (sys_vh s1) waits locks p) as (H1 & H2 & H3 & _); [|exact Ec|done].
  cbn. pose proof (align_up_spec 16 (512 + 1)) as Ha. lia.
Qed.

Lemma new_ProcHandle_failed venode bin waits locks s o s' :
  new_ProcHandle venode bin waits locks s = (o, s') -> (forall h, o <> Ret h) ->
  procs s' = procs s /\ handles s' = handles s.
Proof.
  unfold new_ProcHandle, bind, on_sys_vh, on. cbn [new_char].
  destruct (construct _ _ _) as [[[]| | | | |] p]; intros [= <- <-] Ho; try done. by destruct (Ho _ eq_refl).
Qed.

Lemma new_of_create venode bin waits locks s h s' :
  veo_proc_create_static venode bin waits locks s = (Ret h, s') -> h <> 0 ->
  exists v, new_ProcHandle v (veobin bin) waits locks s = (Ret h, s').
Proof.
  unfold veo_proc_create_static. intros Hc Hh.
  destruct (set_venode_from_env venode) as [v|e| | | |]; try done; [|destruct e; try done; by injection Hc as <- _].
  destruct (v <? -1); [by injection Hc as <- _|]. exists v.
  destruct (new_ProcHandle v (veobin bin) waits locks s) as [o s1].
  destruct o as [x|e| | | |]; try done. destruct e; try done; by injection Hc as <- _.
Qed.

(** C35: creating a process.  When [veo_proc_create_static] returns a handle that is
    not null, the process is in the table under an identifier that leads back to
    it, every other process keeps its identifier, and the process is in order: it
    has its main context and no other; when it returns null, table and processes
    are as before.  The command line for the VE process fits its buffer in all
    three modes: nothing of it is cut off. *)
Theorem proc_create_registers venode bin waits locks s h s' :
  Table.table_ok (procs s) -> 0 < h_brk (sys_vh s) ->
  (forall l, procs s = Some l -> (h_brk (sys_vh s) ∉ l) /\ Z.of_nat (length l) < 2 ^ 31 - 1) ->
  veo_proc_create_static venode bin waits locks s = (Ret h, s') ->
  (h = 0 -> procs s' = procs s /\ handles s' = handles s) /\
  (h <> 0 ->
   (exists i, Table._getProcIdentifier h (procs s') = Ret i /\ Table.getProcHandle i (procs s') = Ret h) /\
   (forall q i, q <> 0 -> q <> h -> Table._getProcIdentifier q (procs s) = Ret i -> 0 <= i ->
      Table._getProcIdentifier q (procs s') = Ret i) /\
   exists p, handles s' = <[h := p]> (handles s) /\ proc_ok p /\ ctx_vec p = [] /\ sym_name p = ∅) /\
  (veobin bin = bin \/ veobin bin = CMD_VEGDB +:+ (" " +:+ bin) \/
   veobin bin = CMD_XTERM +:+ (" -e " +:+ (CMD_VEGDB +:+ (" " +:+ bin)))).
Proof.
  intros Hok Hb Hnew Hc. split; [|split; [|apply veobin_cases]].
  - intros ->. unfold veo_proc_create_static in Hc.
    destruct (set_venode_from_env venode) as [v|e| | | |]; try done; [|destruct e; try done; by injection Hc as <-].
    destruct (v <? -1); [by injection Hc as <-|].
    destruct (new_ProcHandle v (veobin bin) waits locks s) as [o s1] eqn:En.
    destruct o as [h|e| | | |]; try done.
    + destruct (new_ProcHandle_inv _ _ _ _ _ _ _ En Hb) as [-> _]. injection Hc as H0 _. lia.
    + destruct (new_ProcHandle_failed _ _ _ _ _ _ _ En ltac:(done)).
      destruct e; try done; by injection Hc as <-.
  - intros Hh. destruct (new_of_create _ _ _ _ _ _ _ Hc Hh) as [v En].
    destruct (new_ProcHandle_inv _ _ _ _ _ _ _ En Hb) as (Eh & Ep & p & Hp).
    destruct (Table.register_identifiers h (procs s) Hok Hh) as (_ & H1 & H2); [by rewrite Eh|].
    rewrite Ep. split_and!; [done|done|by exists p].
Qed.
End ApiProperties.

(** ** An example system: two processes *)

Definition demo_hooks : HookFuncs := fun _ _ => ret tt.

Definition demo_system : @system demo_urpc :=
  @mkSystem demo_urpc (Some [64; 128]) (<[64 := demo_proc2]> {[128 := demo_proc2]})
    (Proc.proc_vh demo_proc2) ∅ 0 0 0.

Lemma demo_table : Table.table_ok (procs demo_system).
Proof.
  split; [vm_compute; reflexivity|]. intros [|[|i]] [|[|j]] p; cbn; intros; simplify_eq; done.
Qed.

Definition demo_hmem := @veo_alloc_hmem demo_urpc demo_indet demo_vh list_order demo_hooks
  9 128 300 64 demo_system.

Lemma demo_hmem_result : demo_hmem = (Ret 0, snd demo_hmem).
Proof.
  assert (H : fst demo_hmem = Ret 0) by (vm_compute; reflexivity). rewrite <- H. by destruct demo_hmem.
Qed.

Lemma alloc_hmem_routes_witness :
  exists veaddr s0 s1,
    on_proc 128 (@Proc.allocBuff demo_urpc demo_indet demo_vh list_order 9 64) s0 = (Ret veaddr, s1) /\
    veaddr <> 0 /\
    (0 <= veaddr < 2 ^ 59 -> forall m,
       @routed demo_urpc demo_indet demo_vh list_order demo_env demo_hooks m
         (load64 300 (snd demo_hmem)) 128 veaddr (snd demo_hmem)).
Proof.
  exact (@alloc_hmem_routes demo_urpc demo_indet demo_vh list_order demo_env demo_hooks 9 128 300 64
           demo_system (snd demo_hmem) [64; 128] 1%nat demo_table eq_refl eq_refl
           ltac:(discriminate) eq_refl demo_hmem_result).
Defined.

Abbreviation demo_hmemcpy := (@veo_hmemcpy demo_urpc demo_indet demo_vh list_order demo_env).


Lemma free_hmem_throws_witness :
  @veo_free_hmem demo_urpc demo_indet demo_vh list_order demo_hooks 9 (hmem_word 1 2 4096) demo_system =
  (Throw std_out_of_range, demo_system).
Proof.
  apply (@free_hmem_throws demo_urpc demo_indet demo_vh list_order demo_hooks 9 demo_system
           [64; 128] 2%nat 4096); [reflexivity|simpl; lia|reflexivity|lia].
Defined.

Definition demo_destroyed :=
  @veo_proc_destroy demo_urpc demo_indet demo_vh list_order demo_peers 9 128 demo_system.

Lemma demo_destroyed_result : demo_destroyed = (Ret 0, snd demo_destroyed).
Proof.
  assert (H : fst demo_destroyed = Ret 0) by (vm_compute; reflexivity).
  rewrite <- H. by destruct demo_destroyed.
Qed.

Lemma hmem_after_destroy_witness :
  @veo_free_hmem demo_urpc demo_indet demo_vh list_order demo_hooks 9 (hmem_word 1 (Z.of_nat 1) 4096)
    (snd demo_destroyed) = (Undef, snd demo_destroyed) /\
  demo_hmemcpy 9 (hmem_word 1 (Z.of_nat 1) 4096) 8192 16 (snd demo_destroyed) = (Undef, snd demo_destroyed).
Proof.
  pose proof (@hmem_after_destroy demo_urpc demo_indet demo_vh list_order demo_env demo_peers demo_hooks
    9 demo_system (snd demo_destroyed) 0 [64; 128] 1%nat 128 4096 8192 16) as H.
  apply H; [exact demo_table|reflexivity|reflexivity|lia|reflexivity|lia|lia
           |exact demo_destroyed_result|].
  assert (Hb : (match handles (snd demo_destroyed) !! 0 with None => true | Some _ => false end) = true)
    by (vm_compute; reflexivity).
  by destruct (handles (snd demo_destroyed) !! 0).
Defined.

Lemma long_names_refused_witness :
  fst (@veo_load_library demo_urpc demo_indet demo_vh list_order 9 64 1000 demo_system) = Ret 0 /\
  errno (snd (@veo_get_sym demo_urpc demo_indet demo_vh list_order 9 64 77 1000 demo_system)) = ENAMETOOLONG.
Proof.
  destruct (@long_names_refused demo_urpc demo_indet demo_vh list_order 9 64 77 1000 demo_system demo_proc2)
    as [H1 H2]; [apply lookup_insert_eq| |rewrite H1, H2; split; reflexivity].
  intros k Hk.
  assert (Hb : forallb (fun i => negb (h_mem (sys_vh demo_system) (1000 + Z.of_nat i) =? 0)) (seq 0 256) = true)
    by (vm_compute; reflexivity).
  rewrite forallb_forall in Hb. specialize (Hb (Z.to_nat k)). rewrite Z2Nat.id in Hb by lia.
  apply Z.eqb_neq, negb_true_iff, Hb. apply in_seq. lia.
Defined.

Lemma negative_argnum_throws_witness :
  veo_args_set_ (-2) (ArgType T_i64 1) new_CallArgs = Throw std_length_error /\
  veo_args_set_stack VEO_INTENT_IN (-2) 4096 8 new_CallArgs = Throw std_length_error.
Proof. apply (negative_argnum_throws (-2) (ArgType T_i64 1) new_CallArgs VEO_INTENT_IN 4096 8); simpl; lia. Defined.

Definition demo_created := @veo_proc_create_static demo_urpc demo_indet threads_env demo_peers
  0 "aveorun" [] [] demo_system.

Lemma demo_created_result : demo_created = (Ret 9248, snd demo_created).
Proof.
  assert (H : fst demo_created = Ret 9248) by (vm_compute; reflexivity).
  rewrite <- H. by destruct demo_created.
Qed.

Lemma proc_create_registers_witness :
  exists i, Table._getProcIdentifier 9248 (procs (snd demo_created)) = Ret i /\
    Table.getProcHandle i (procs (snd demo_created)) = Ret 9248.
Proof.
  destruct (@proc_create_registers demo_urpc demo_indet list_order threads_env demo_peers
              0 "aveorun" [] [] demo_system 9248 (snd demo_created) demo_table) as (_ & H & _).
  - vm_compute. reflexivity.
  - assert (Hb : h_brk (sys_vh demo_system) = 9248) by (vm_compute; reflexivity).
    intros l Hl. rewrite Hb. injection Hl as <-. split; [|vm_compute; reflexivity].
    rewrite !elem_of_cons. intros [H|[H|H]]; [discriminate H|discriminate H|by apply not_elem_of_nil in H].
  - exact demo_created_result.
  - apply H. discriminate.
Defined.
