(* ===== verification/AsyncHooks.v ===== *)
(** * Asynchronous allocation with hooks, from end to end

    [veo_alloc_mem_async] and [veo_free_mem_async] with a hook registered submit two
    requests: the one to the VE, and a helper that runs on the VH, takes the result of
    the first and calls the hook.  Here both go through all parts. *)

From Stdlib Require Import ZArith Lia Bool.
From stdpp Require Import base gmap list numbers sets strings.
From S2P Require Import Prelude Hmem CallArgs Command Urpc Ve Context Example Requests Progress.
From S2P Require Import AsyncTransfer Calls Lifecycle Liveness Exchange VhCommands VeNode ProcHandle.
From S2P Require Import Processes Services Api.

Open Scope Z_scope.

(** ** The tuple passed to the helper *)

Lemma load_word m p v : in_u64 v -> le_val (mem_read (mem_write m p (le_bytes 8 v)) p 8) = v.
Proof.
  intros Hv. rewrite <- (length_le_bytes 8 v) at 2. rewrite mem_read_write_same, le_val_bytes.
  apply Z.mod_small. exact Hv.
Qed.

Lemma load_word_other m p q v :
  q + 8 <= p \/ p + 8 <= q -> le_val (mem_read (mem_write m p (le_bytes 8 v)) q 8) = le_val (mem_read m q 8).
Proof.
  intros Hd. f_equal. apply mem_read_ext. intros x Hx. apply mem_write_out. rewrite length_le_bytes. lia.
Qed.

(** What is written into a new tuple is read back; the block is released. *)
Lemma async_data_roundtrip c req v h :
  in_u64 c -> in_u64 req -> in_u64 v -> 0 < h_brk h -> (h_brk h ∉ h_live h) ->
  exists m, let brk := h_brk h + 32 in
    new_async_data c req v h = (Ret (h_brk h), mkHeap m brk ({[h_brk h]} ∪ h_live h)) /\
    take_async_data (h_brk h) (mkHeap m brk ({[h_brk h]} ∪ h_live h)) =
      (Ret (c, req, v), mkHeap m brk (h_live h)) /\
    (forall x, ~ in_area (h_brk h, 24) x -> m x = h_mem h x).
Proof.
  intros Hc Hr Hv Hb Hn. set (d := h_brk h).
  exists (mem_write (mem_write (mem_write (h_mem h) d (le_bytes 8 c)) (d + 8) (le_bytes 8 req))
            (d + 16) (le_bytes 8 v)).
  cbv zeta. split_and!.
  - done.
  - unfold take_async_data, bind, gets. cbn [h_mem].
    rewrite (load_word_other _ (d + 16) d), (load_word_other _ (d + 8) d), load_word by (done || lia).
    rewrite (load_word_other _ (d + 16) (d + 8)), load_word by (done || lia). rewrite load_word by done.
    unfold delete_char. cbn [h_live h_mem h_brk]. destruct (Z.eqb_spec d 0); [lia|].
    rewrite decide_True by set_solver. unfold ret. do 2 f_equal. set_solver.
  - intros x Hx. unfold in_area in Hx. cbn [fst snd] in Hx.
    rewrite !mem_write_out by (rewrite length_le_bytes; lia). done.
Qed.

(** ** The helpers do not disturb the allocator *)

Section Allocator.
Context `{U : Urpc} `{IN : Indet} `{VF : !VhFuncs} `{BO : BucketOrder} `{HF : HookFuncs}.

(** Neither do the hooks of the application. *)
Class HookGrows := hook_grows : forall f args, grows (hook_call f args).

#[export] Instance no_vh_alloc : VhAlloc (VF := no_vh).
Proof. by intros func arg w. Qed.

Lemma frames_alloc {A} (m : M world A) w :
  frames m -> is_main (ctx (snd (m w))) = is_main (ctx w) /\ h_brk (vh w) <= h_brk (vh (snd (m w))).
Proof.
  intros Hm. specialize (Hm (is_main (ctx w)) (h_brk (vh w)) w (conj eq_refl (Z.le_refl _))).
  by destruct (m w) as [[] w'].
Qed.

Lemma grows_take data : grows (take_async_data data).
Proof.
  unfold take_async_data. do 3 (apply grows_bind; [intros h; cbn; lia|intros ?]).
  apply grows_bind; [apply grows_delete|intros _ h; cbn; lia].
Qed.

Lemma grows_hook {HG : HookGrows} s func args : grows (run_async_hook s func args).
Proof.
  assert (Hid : forall c, grows (ctx_identifier s c)).
  { intros c h. unfold ctx_identifier. destruct (find_owner _ _); [unfold lift; by destruct (Table._getProcIdentifier _ _)|done]. }
  assert (Hstop : grows (A := unit) (stop Undef)) by (intros h; cbn; lia).
  unfold run_async_hook. destruct (static_hooks s !! func) as [[[f| | | |] pl]|]; try done.
  - destruct args as [|c [|addr [|size [|]]]]; try done. apply grows_bind; [done|intros ? h; apply hook_grows].
  - destruct args as [|c [|addr [|]]]; try done. apply grows_bind; [done|intros ? h; apply hook_grows].
Qed.

(** The VH functions of a system with hooks are such as the process expects. *)
#[export] Instance hooked_alloc {HG : HookGrows} {VA : VhAlloc (VF := VF)} n s : VhAlloc (VF := hooked n s).
Proof.
  assert (Hon : forall A (m : M heap A), grows m -> frames (on_vh m)) by (intros; by apply frames_on_vh).
  intros func arg w w'. subst w'.
  destruct func as [| | |addr]; [exact (VA synchronize_func arg w)| | |exact (VA (user_func addr) arg w)];
    apply frames_alloc.
  - apply frames_bind; [apply Hon, grows_take|intros [[c req] x]].
    apply frames_bind; [apply frames_wait|intros [rv addr]].
    destruct (negb _); [apply frames_ret|]. apply frames_bind; [apply Hon, grows_hook|intros _; apply frames_ret].
  - apply frames_bind; [apply Hon, grows_take|intros [[c req] x]].
    apply frames_bind; [apply frames_wait|intros [rv addr]].
    destruct (negb _); [apply frames_ret|]. apply frames_bind; [apply Hon, grows_hook|intros _; apply frames_ret].
Qed.

(** Whatever operations a process with hooks performs, its contexts stay in order. *)
Lemma hooked_proc_ok `{E : Env} `{UP : !UrpcPeers} {HG : HookGrows} {VA : VhAlloc (VF := VF)} n s p p' :
  proc_ok p -> proc_run (VF := hooked n s) p p' -> proc_ok p'.
Proof. apply (proc_run_ok (VF := hooked n s)). Qed.
End Allocator.

Section AsyncHooks.
Context `{IN : Indet} `{MA : Machine} (max_cmd_size : Z) (latency : nat).

#[local] Hint Extern 0 Urpc => exact (@wire IN MA max_cmd_size latency) : typeclass_instances.
#[local] Hint Extern 0 (UrpcLaws _) => exact (@wire_laws IN MA max_cmd_size latency) : typeclass_instances.

Context `{BO : BucketOrder}.
Implicit Types (w : world).

(** ** Requests that pass one number *)

Definition number (t : Z * Z) : service := mkService (fst t) "L" [SA_L (snd t)].

#[local] Instance number_exchange (sp value : Z) : Exchange (Z * Z) :=
  let X := service_exchange sp value in
  {| ex_sp := sp;
     ex_code := fun prev t => @ex_code _ _ X prev (number t);
     ex_message := fun h t => @ex_message _ _ X h (number t);
     ex_reply := fun hs t => @ex_reply _ _ X hs (number t);
     ex_effect := fun hs t => @ex_effect _ _ X hs (number t);
     ex_value := fun _ _ => u64 value;
     ex_able := fun hs t => @ex_able _ _ X hs (number t);
     ex_chain := false |}.

#[local] Instance number_laws sp value : @ExchangeLaws IN MA max_cmd_size latency _ (number_exchange sp value).
Proof.
  destruct (service_laws max_cmd_size latency sp value) as [K _ U S D N F].
  split; [intros; apply K|done|intros hs t; apply (U hs (number t))|intros ? ? ? t; apply S|intros ? ? t; apply D|intros ? ? ? t; apply N|
    intros ? t; apply F].
Qed.

(** Such requests do not look at VH memory. *)
Lemma number_able sp value h h' s K l :
  able (number_exchange sp value) (h, s, K) l -> able (number_exchange sp value) (h', s, K) l.
Proof.
  revert s K. induction l as [|x l IH]; intros s K Ha; [done|]. destruct Ha as (H1 & H2 & H3 & H4).
  split_and!; [exact H1|exact H2| |apply IH; exact H4]. by apply Forall_forall.
Qed.

Lemma number_settle sp value h h' s K l :
  let st := foldl (settle (number_exchange sp value)) (h, s, K) l in
  foldl (settle (number_exchange sp value)) (h', s, K) l = (h', snd (fst st), snd st).
Proof. revert s K. induction l as [|x l IH]; intros s K; [done|]. apply IH. Qed.

Lemma number_settle_heap sp value h s K l :
  fst (fst (foldl (settle (number_exchange sp value)) (h, s, K) l)) = h.
Proof. by rewrite (number_settle sp value h h). Qed.

Lemma moving_vh sp value bound Q tgt K h w :
  moving (number_exchange sp value) bound [] Q tgt K w ->
  moving (number_exchange sp value) bound [] Q (h, snd tgt) K (set_vh h w).
Proof.
  intros (ng & kept & rest & [H1 [] H2 H3 H4 H5 H6 H7 H8] & Hng & Hk & Ht).
  exists ng, kept, rest. split_and!; try done.
  - split; try done. by apply (number_able _ _ (vh w)).
  - change (vh (set_vh h w), ve_of (set_vh h w), kept) with (h, ve_of w, kept).
    by rewrite (number_settle _ _ (vh w) h), Ht.
Qed.

(** ** The helper takes a result *)

Lemma helper_waits ng V id v w :
  calling ng V w -> finished id v w ->
  exists c, let w' := set_rem (remaining w ∖ {[id]})
      (set_comq (set_completion (delete id (completion (queue w))) (queue w)) (set_count c w)) in
    (forall n, callWaitResult (VF := no_vh) (S n) id w = (Ret (VEO_COMMAND_OK, Some v), w')) /\
    inv ng [V] (view_of w').
Proof.
  intros Hc (Hr & e & He & Hs & Hv). destruct (cl_empty _ _ _ Hc) as (Q1 & _ & Q3).
  destruct (idle_loop (work (queue w)) false w (cl_calm _ _ _ Hc) Q1 Q3) as [c Ec]. exists c. cbv zeta.
  pose proof (peek_done ng [V] id e (set_count c w) (cl_inv _ _ _ Hc) Hr He) as Ep. rewrite Hs, Hv in Ep. split.
  - intros n. unfold callWaitResult. cbn [poll_result].
    pose proof (cl_thread _ _ _ Hc) as Ht. injection Ht as Ht _ _.
    rewrite bind_assoc, (bind_Ret _ _ _ _ _ (try_lock_running w Ht)). cbn [negb].
    assert (En : @_progress_nolock _ _ no_vh _ false w = (Ret 0, set_count c w)) by apply Ec.
    rewrite bind_assoc, (bind_Ret _ _ _ _ _ En). cbn [Z.ltb Z.compare].
    rewrite bind_assoc, (bind_Ret _ _ _ _ _ Ep). done.
  - destruct (v_collect_inv ng [V] id (view_of w) e (cl_inv _ _ _ Hc) He) as [Hi _]. exact Hi.
Qed.

(** The part the helpers share: the tuple is taken, the result is waited for, and the
    hook is called in the VH memory without the tuple. *)
Lemma helper_runs ng V data c req x v h2 (hook : M heap unit) h3 w :
  calling ng V w -> finished req v w ->
  take_async_data data (vh w) = (Ret (c, req, x), h2) -> hook h2 = (Ret tt, h3) ->
  exists w3, calling ng V w3 /\ vh w3 = h3 /\ wire_of w3 = wire_of w /\ issued w3 = issued w /\
    forall n (k : Z -> Z -> Z * option Z -> M world Z) r,
      k c x (VEO_COMMAND_OK, Some v) = (on_vh hook ;;; ret r) ->
      (let! '(c, req, x) := on_vh (take_async_data data) in
       let! rv := callWaitResult (VF := no_vh) (S n) req in k c x rv) w = (Ret r, w3).
Proof.
  intros Hc Hf Et Eh. set (w1 := set_vh h2 w).
  assert (Hc1 : calling ng V w1) by (by destruct Hc as [? [] ? ?]).
  assert (Hf1 : finished req v w1) by done.
  destruct (helper_waits ng V req v w1 Hc1 Hf1) as (n0 & Ew & Hi). set (w2 := set_rem _ _) in Ew, Hi.
  exists (set_vh h3 w2). split_and!; try done.
  - destruct Hc1 as [_ [] Hb He]. by split.
  - intros n k r Hk. rewrite (bind_Ret _ _ w (c, req, x) w1) by (unfold on_vh, on; by rewrite Et).
    rewrite (bind_Ret _ _ _ _ _ (Ew n)), Hk. by rewrite (bind_Ret _ _ w2 tt (set_vh h3 w2)) by
      (unfold on_vh, on; change (vh w2) with h2; by rewrite Eh).
Qed.

(** ** Contexts in a system *)

Import Proc.
Context `{HF : HookFuncs}.
Implicit Types (s : system).

(** In the system [s], the context at [c] belongs to the process [h] and no other, and is in
    the state [w]. *)
Definition seen s (h c : Z) w : Prop :=
  exists p o, handles s !! h = Some p /\ objects p !! c = Some o /\
    (forall h' p', handles s !! h' = Some p' -> is_Some (objects p' !! c) -> h' = h) /\
    w = world_of o (set_proc_vh (sys_vh s) p).

(** Operations of a context change no table of the API. *)
Definition same_api s s' : Prop :=
  procs s' = procs s /\ static_hooks s' = static_hooks s /\ alloc_hook s' = alloc_hook s /\
  free_hook s' = free_hook s.

Lemma find_owner_unique c l h :
  (exists p, (h, p) ∈ l /\ is_Some (objects p !! c)) ->
  (forall h' p', (h', p') ∈ l -> is_Some (objects p' !! c) -> h' = h) -> find_owner c l = Some h.
Proof.
  induction l as [|[h0 p0] l IH]; intros (p & Hin & Hp) Hu; [by apply not_elem_of_nil in Hin|].
  cbn [find_owner]. destruct (objects p0 !! c) as [o|] eqn:Eo.
  - f_equal. apply (Hu h0 p0); [apply elem_of_cons; by left|by eexists].
  - apply IH.
    + exists p. split; [|done]. apply elem_of_cons in Hin as [[= -> ->]|Hin]; [|done].
      rewrite Eo in Hp. by destruct Hp.
    + intros h' p' Hin'. apply Hu. apply elem_of_cons. by right.
Qed.

Lemma seen_owner s h c w : seen s h c w -> find_owner c (map_to_list (handles s)) = Some h.
Proof.
  intros (p & o & Hp & Ho & Hu & _). apply find_owner_unique.
  - exists p. split; [by apply elem_of_map_to_list|by eexists].
  - intros h' p' Hin. apply Hu. by apply elem_of_map_to_list.
Qed.

(** The system after the context has moved to another state. *)
Lemma on_ctx_seen s h c w :
  seen s h c w ->
  exists f : world -> system,
    (forall A (m : M world A) r w', m w = (r, w') -> on_ctx c m s = (r, f w')) /\
    forall w', seen (f w') h c w' /\ same_api s (f w') /\ sys_vh (f w') = vh w'.
Proof.
  intros Hseen. pose proof (seen_owner _ _ _ _ Hseen) as Hown. destruct Hseen as (p & o & Hp & Ho & Hu & ->).
  set (p' := fun w' => put_world c o w' (set_proc_vh (sys_vh s) p)).
  exists (fun w' => mkSystem (procs s) (<[h := p' w']> (handles s)) (vh w') (static_hooks s) (alloc_hook s)
                      (free_hook s) (errno s)).
  split.
  - intros A m r w' Em. unfold on_ctx. rewrite Hown.
    unfold on_proc. rewrite Hp. unfold on_context. cbn [objects set_proc_vh]. by rewrite Ho, Em.
  - intros w'. split_and!; try done.
    exists (p' w'), (mkObject (ctx w') (o_core o) (issued w')). cbn [handles sys_vh]. split_and!.
    + apply lookup_insert_eq.
    + apply lookup_insert_eq.
    + intros h' q Hq Hc. destruct (decide (h' = h)) as [|Hne]; [done|].
      rewrite lookup_insert_ne in Hq by done. by apply (Hu h' q).
    + by destruct w'.
Qed.

Lemma on_sys_vh_seen {A} (m : M heap A) s h c w r h' :
  seen s h c w -> m (vh w) = (r, h') ->
  exists s', on_sys_vh m s = (r, s') /\ seen s' h c (set_vh h' w) /\ same_api s s' /\ sys_vh s' = h'.
Proof.
  intros (p & o & Hp & Ho & Hu & ->) Em. cbn [vh world_of proc_vh set_proc_vh] in Em.
  exists (set_sys_vh h' s). unfold on_sys_vh, on. rewrite Em. split_and!; try done.
  exists p, o. by split_and!.
Qed.

Lemma same_api_trans s1 s2 s3 : same_api s1 s2 -> same_api s2 s3 -> same_api s1 s3.
Proof. unfold same_api. intros (? & ? & ? & ?) (? & ? & ? & ?). split_and!; congruence. Qed.

Lemma try_veo_Ret_eq {A} (m : M system A) k s a s' : m s = (Ret a, s') -> try_veo m k s = (Ret a, s').
Proof. intros E. unfold try_veo. by rewrite E. Qed.

(** ** Both requests *)

(** The VE can answer the request with [value], and still works then. *)
Definition answered w (t : service) (value : Z) : Prop :=
  (exists m, fst (served (vh w, ve_of w) t) = Some m /\ answer value m) /\
  __veo_finish (snd (served (vh w, ve_of w) t)) = __veo_finish (ve_of w).

(** The context can take two requests; it has a progress thread; a block of VH memory
    can be allocated. *)
Record prepared w : Prop := {
  pr_inv : inv no_id [] (view_of w);
  pr_idle : idle 2 w;
  pr_thread : attended w;
  pr_heap : 0 < h_brk (vh w) /\ (h_brk (vh w) ∉ h_live (vh w));
}.

Lemma number_heap sp value bound Q tgt K w :
  moving (number_exchange sp value) bound [] Q tgt K w -> vh w = fst tgt.
Proof.
  intros (ng & kept & rest & _ & _ & _ & Ht). by rewrite <- (number_settle_heap sp value (vh w) (ve_of w) kept rest), Ht.
Qed.

(** What is there when both requests are submitted: the helper will be called in the
    world [w2], with the result of the first request and the tuple. *)
Lemma mem_async_submits cmd func helper hk h c num value s w :
  seen s h c w -> prepared w -> in_u64 c -> in_u64 num -> cmd <> URPC_CMD_ACS_PCIRCVSYC ->
  helper <> user_func 0 -> helper <> synchronize_func ->
  static_hooks s !! func = Some hk -> answered w (number (cmd, num)) value ->
  exists K ng m w1 w2 s1,
    let V := vh_command (issued w + 1) helper (h_brk (vh w)) in
    (forall VF : VhFuncs, mem_async cmd func helper c num s = (Ret (issued w + 1), s1)) /\
    seen s1 h c w1 /\ same_api s s1 /\
    calling ng V w2 /\ finished (issued w) (u64 value) w2 /\
    issued w2 = issued w + 2 /\ Z.of_nat (l_base (wire_of w2)) < 2 ^ 31 /\
    ve_of w2 = snd (served (vh w, ve_of w) (number (cmd, num))) /\
    take_async_data (h_brk (vh w)) (vh w2) =
      (Ret (c, issued w, num), mkHeap m (h_brk (vh w) + 32) (h_live (vh w))) /\
    (forall x, ~ in_area (h_brk (vh w), 24) x -> m x = h_mem (vh w) x) /\
    forall rv w3, calling ng V w3 ->
      exists k, inv ng [] (view_of (after_call (issued w + 1) k w3)) /\
        forall (VF : VhFuncs) n, vh_call helper (h_brk (vh w)) w2 = (Ret rv, w3) ->
          callWaitResult (K + n) (issued w + 1) w1 =
            (Ret (VEO_COMMAND_OK, Some (u64 rv)), after_call (issued w + 1) k w3).
Proof.
  intros Hs [Hinv Hidle Hatt [Hb Hn]] Hc Hnum Hcmd Hf0 Hfs Hhk Hans.
  pose proof (idle_ids _ _ Hidle) as [Hids _]. pose proof (core_bound _ _ _ (proj1 Hinv)) as Hbd.
  cbn [v_issued view_of] in Hbd.
  set (X := number_exchange (ve_sp (ctx w)) value).
  destruct (genericAsyncReq_through max_cmd_size latency X no_id 1 cmd "L" [SA_L num] (cmd, num) w)
    as (wa & Ea & Hia & Hatta & Hma); [done|done|lia|done|done|done|done|]. specialize (Hatta Hatt).
  pose proof (number_heap _ _ _ _ _ _ _ Hma) as Hva. cbn [fst ex_effect X number_exchange service_exchange] in Hva.
  destruct (on_ctx_seen s h c w Hs) as (fa & Efa & Hfa). destruct (Hfa wa) as (Hsa & Hapi_a & _).
  destruct (async_data_roundtrip c (issued w) num (vh w)) as (m & Enew & Etake & Hm); try done.
  set (h1 := mkHeap m _ ({[_]} ∪ _)) in Enew, Etake.
  rewrite <- Hva in Enew at 1. destruct (on_sys_vh_seen _ _ _ _ _ _ _ Hsa Enew) as (sb & Esb & Hsb & Hapi_b & _).
  assert (Hmb : moving X (2 ^ 31 - 1) [] (fun _ => True) (h1, snd (served (vh w, ve_of w) (number (cmd, num))))
                  [(issued w, u64 value)] (set_vh h1 wa)) by exact (moving_vh _ _ _ _ _ _ h1 _ Hma).
  destruct (vh_request_through X _ helper (h_brk (vh w)) _ _ _ _ Hmb) as (K & ng & w1 & w2 & E1 & Hi2 & Hcl & Hrd & Hv & Hroom & Hrun);
    [done|change (issued (set_vh h1 wa)) with (issued wa); lia|done|done|].
  change (issued (set_vh h1 wa)) with (issued wa) in *. rewrite Hia in *.
  destruct (on_ctx_seen sb h c _ Hsb) as (fb & Efb & Hfb). destruct (Hfb w1) as (Hs1 & Hapi_1 & _).
  injection Hv as Hv2 Hve2. exists K, ng, m, w1, w2, (fb w1). cbv zeta. split_and!; try done.
  - intros VF. unfold mem_async.
    rewrite (bind_Ret _ _ s (Some (issued w)) (fa wa)).
    2:{ apply try_veo_Ret_eq. by rewrite (bind_Ret _ _ _ _ _ (Efa _ _ _ _ (Ea VF))). }
    rewrite (bind_Ret _ _ (fa wa) (static_hooks (fa wa)) (fa wa)) by done.
    destruct Hapi_a as (_ & -> & _). rewrite Hhk. rewrite (bind_Ret _ _ _ _ _ Esb).
    unfold veo_call_async_vh. apply try_veo_Ret_eq. by apply Efb.
  - by do 2 (eapply same_api_trans; [eassumption|]).
  - by apply Forall_cons in Hrd as [Hrd _].
  - lia.
  - lia.
  - by rewrite Hv2.
Qed.

(** ** The hook is called *)

Context `{VF : !VhFuncs}.

(** The request [op] of the API is accepted and waited for: with enough rounds, the
    result is [v], the hook has worked on VH memory as [hook] does, once, on a memory
    that differs from the one before in a released block only; the VE process is in
    the state [ve'], and the context has again nothing to do. *)
Definition hook_served (op : system -> M system Z) (hook : M heap unit) (h c : Z) s w (v : Z) (ve' : ve) : Prop :=
  exists K m s1,
    op s s = (Ret (issued w + 1), s1) /\ same_api s s1 /\
    (forall x, ~ in_area (h_brk (vh w), 24) x -> m x = h_mem (vh w) x) /\
    forall h3, hook (mkHeap m (h_brk (vh w) + 32) (h_live (vh w))) = (Ret tt, h3) ->
    exists s2 w', (forall n j, veo_call_wait_result (VF := hooked (S n) s1) (K + j) c (issued w + 1) s1 =
                    (Ret (VEO_COMMAND_OK, Some v), s2)) /\
      sys_vh s2 = h3 /\ same_api s s2 /\ seen s2 h c w' /\ inv no_id [] (view_of w') /\ idle 0 w' /\ ve_of w' = ve'.

Lemma mem_async_served cmd func helper hk h c num value r (hook : M heap unit)
    (k : system -> Z -> Z -> Z * option Z -> M world Z) s w n0 :
  seen s h c w -> prepared w -> in_u64 c -> in_u64 num -> cmd <> URPC_CMD_ACS_PCIRCVSYC ->
  helper <> user_func 0 -> helper <> synchronize_func ->
  static_hooks s !! func = Some hk -> answered w (number (cmd, num)) value ->
  (forall s1 n data, @vh_call _ (hooked (S n) s1) helper data =
     (let! '(c, req, x) := on_vh (take_async_data data) in
      let! rv := callWaitResult (VF := no_vh) (S n) req in k s1 c x rv)) ->
  (forall s1 w1, same_api s s1 -> seen s1 h c w1 -> k s1 c num (VEO_COMMAND_OK, Some (u64 value)) = (on_vh hook ;;; ret r)) ->
  hook_served (fun s => mem_async (VF := hooked n0 s) cmd func helper c num) hook h c s w (u64 r)
    (snd (served (vh w, ve_of w) (number (cmd, num)))).
Proof.
  intros Hs Hp Hc Hnum Hcmd Hf0 Hfs Hhk Hans Hh Hk.
  pose proof (idle_ids _ _ (pr_idle _ Hp)) as [Hids _].
  destruct (mem_async_submits cmd func helper hk h c num value s w Hs Hp Hc Hnum Hcmd Hf0 Hfs Hhk Hans)
    as (K & ng & m & w1 & w2 & s1 & E1 & Hs1 & Hapi & Hcl & Hfin & Hi2 & Hroom & Hve & Htake & Hm & Hrun).
  exists K, m, s1. split_and!; [apply E1|done|done|]. intros h3 Eh.
  destruct (helper_runs ng _ _ _ _ _ _ _ hook h3 w2 Hcl Hfin Htake Eh) as (w3 & Hcl3 & Hv3 & Hw3 & Hi3 & Hhelp).
  destruct (on_ctx_seen s1 h c w1 Hs1) as (f & Ef & Hf).
  destruct (Hrun r w3 Hcl3) as (cnt & Hinv4 & Hwait).
  set (w4 := after_call (issued w + 1) cnt w3) in *. destruct (Hf w4) as (Hs4 & Hapi4 & Hv4).
  exists (f w4), w4. split_and!; try done.
  - intros n j. unfold veo_call_wait_result. apply try_veo_Ret_eq, Ef.
    apply Hwait. rewrite Hh. by apply Hhelp, (Hk s1 w1).
  - by rewrite Hv4.
  - by eapply same_api_trans.
  - by apply (inv_weaken ng).
  - eapply after_call_idle; [exact Hcl3|rewrite Hi3, Hi2; lia|rewrite Hw3; lia].
  - change (ve_of w4) with (ve_of w3). unfold ve_of in *. by rewrite Hw3.
Qed.

Lemma alloc_async_served n hk (hook : M heap unit) h c size s w :
  let a := fst (malloc (ve_libc (ve_of w)) size) in
  seen s h c w -> prepared w -> in_u64 c -> in_u64 size ->
  static_hooks s !! F_alloc_mem_async = Some hk ->
  (forall s1 w1, same_api s s1 -> seen s1 h c w1 -> run_async_hook s1 F_alloc_mem_async [c; u64 a; size] = hook) ->
  hook_served (fun s => veo_alloc_mem_async (VF := hooked n s) c size) hook h c s w (u64 a)
    (set_ve_libc (snd (malloc (ve_libc (ve_of w)) size)) (ve_of w)).
Proof.
  intros a Hs Hp Hc Hsize Hf Hk. pose proof (served_alloc (vh w, ve_of w) size Hsize) as Ea. cbn [snd] in Ea.
  change (mkService _ _ _) with (number (URPC_CMD_ALLOC, size)) in Ea.
  pose proof (mem_async_served URPC_CMD_ALLOC F_alloc_mem_async alloc_mem_async_hook _ h c size a (u64 a) hook
    (fun s1 c x r => let '(rv, addr) := r in
       if negb (rv =? VEO_COMMAND_OK) then ret 0
       else on_vh (run_async_hook s1 F_alloc_mem_async [c; default 0 addr; x]) ;;; ret (default 0 addr))
    s w n Hs Hp Hc Hsize ltac:(done) ltac:(done) ltac:(done) Hf) as Hserved.
  rewrite u64_idem, Ea in Hserved. apply Hserved.
  - unfold answered. rewrite Ea. split; [|done]. eexists. by split; [|left].
  - done.
  - intros s1 w1 Hapi Hs1. cbn -[u64]. by rewrite (Hk s1 w1).
Qed.

Lemma free_async_served n hk (hook : M heap unit) h c addr s w :
  seen s h c w -> prepared w -> in_u64 c -> in_u64 addr ->
  static_hooks s !! F_free_mem_async = Some hk ->
  (forall s1 w1, same_api s s1 -> seen s1 h c w1 -> run_async_hook s1 F_free_mem_async [c; addr] = hook) ->
  hook_served (fun s => veo_free_mem_async (VF := hooked n s) c addr) hook h c s w 0
    (set_ve_libc (free (ve_libc (ve_of w)) addr) (ve_of w)).
Proof.
  intros Hs Hp Hc Haddr Hf Hk. pose proof (served_free (vh w, ve_of w) addr Haddr) as Ea. cbn [snd] in Ea.
  change (mkService _ _ _) with (number (URPC_CMD_FREE, addr)) in Ea.
  pose proof (mem_async_served URPC_CMD_FREE F_free_mem_async free_mem_async_hook _ h c addr 0 0 hook
    (fun s1 c x r => let '(rv, _) := r in
       if negb (rv =? VEO_COMMAND_OK) then ret (u64 (-1))
       else on_vh (run_async_hook s1 F_free_mem_async [c; x]) ;;; ret 0)
    s w n Hs Hp Hc Haddr ltac:(done) ltac:(done) ltac:(done) Hf) as Hserved.
  rewrite Ea in Hserved. apply Hserved.
  - unfold answered. rewrite Ea. split; [|done]. eexists. by split; [|right].
  - done.
  - intros s1 w1 Hapi Hs1. cbn -[u64]. by rewrite (Hk s1 w1).
Qed.


(** ** A context that is not alive *)

(** The tuple is allocated, both requests are refused, and nothing refers to the tuple. *)
Definition tuple_leaked (op : M system Z) (h c : Z) s w : Prop :=
  exists s' h', op s = (Ret VEO_REQUEST_ID_INVALID, s') /\ same_api s s' /\ sys_vh s' = h' /\
    h_live h' = {[h_brk (vh w)]} ∪ h_live (vh w) /\ h_brk h' = h_brk (vh w) + 32 /\ seen s' h c (set_vh h' w).

Lemma mem_async_dead cmd func helper hk h c num s w :
  seen s h c w -> is_alive w = false -> static_hooks s !! func = Some hk ->
  tuple_leaked (mem_async cmd func helper c num) h c s w.
Proof.
  intros Hs Hdead Hhk. destruct (on_ctx_seen s h c w Hs) as (fa & Efa & Hfa). destruct (Hfa w) as (Hsa & Hapi & _).
  pose (h' := snd (new_async_data c VEO_REQUEST_ID_INVALID num (vh w))).
  assert (Enew : new_async_data c VEO_REQUEST_ID_INVALID num (vh w) = (Ret (h_brk (vh w)), h')) by done.
  destruct (on_sys_vh_seen _ _ _ _ _ _ _ Hsa Enew) as (sb & Esb & Hsb & Hapi_b & _).
  destruct (on_ctx_seen sb h c _ Hsb) as (fb & Efb & Hfb). destruct (Hfb (set_vh h' w)) as (Hs1 & Hapi_1 & Hv).
  exists (fb (set_vh h' w)), h'. split_and!; try done.
  - unfold mem_async. rewrite (bind_Ret _ _ s (Some VEO_REQUEST_ID_INVALID) (fa w)).
    2:{ apply try_veo_Ret_eq. rewrite (bind_Ret _ _ _ VEO_REQUEST_ID_INVALID (fa w)); [done|].
        apply Efa. unfold genericAsyncReq. rewrite (bind_Ret _ _ w (is_alive w) w) by done. by rewrite Hdead. }
    rewrite (bind_Ret _ _ (fa w) (static_hooks (fa w)) (fa w)) by done.
    destruct Hapi as (_ & -> & _). rewrite Hhk, (bind_Ret _ _ _ _ _ Esb).
    unfold veo_call_async_vh. apply try_veo_Ret_eq, Efb.
    unfold callVHAsync. rewrite (bind_Ret _ _ (set_vh h' w) (is_alive w) (set_vh h' w)) by done.
    by rewrite Hdead, orb_true_r.
  - by do 2 (eapply same_api_trans; [eassumption|]).
Qed.

(** The tuple of a refused request is lost.  With a hook registered,
  [veo_alloc_mem_async] and [veo_free_mem_async] on a context that is not alive return
  [VEO_REQUEST_ID_INVALID], as they should, but the tuple made for the helper stays
  allocated: the context is unchanged and no request refers to the tuple. *)
Theorem async_tuple_lost hk hk' h c size addr s w :
  seen s h c w -> is_alive w = false ->
  static_hooks s !! F_alloc_mem_async = Some hk -> static_hooks s !! F_free_mem_async = Some hk' ->
  tuple_leaked (veo_alloc_mem_async c size) h c s w /\ tuple_leaked (veo_free_mem_async c addr) h c s w.
Proof. intros Hs Hd Hf Hg. split; by eapply mem_async_dead. Qed.
End AsyncHooks.

(** ** Example: a process whose contexts have hooks *)

(** A process with two contexts; the second one is new. *)
Definition hook_proc := proc_perform_all [P_openContext 9 4194304; P_openContext 9 4194304] demo_proc.

Definition hook_system (hs : gmap api_func (hook * Z)) : @system demo_urpc :=
  @mkSystem demo_urpc (Some [64]) {[64 := hook_proc]} (Proc.proc_vh hook_proc) hs 7 8 0.

Definition demo_ctx : Z := nth 1 (Proc.ctx_vec hook_proc) 0.

Definition demo_ctx_world : @world demo_urpc :=
  match Proc.objects hook_proc !! demo_ctx with
  | Some o => Proc.world_of o (Proc.set_proc_vh (Proc.proc_vh hook_proc) hook_proc)
  | None => demo_world
  end.

Lemma demo_seen hs : seen (8 * 1024 * 1024) 1 (hook_system hs) 64 demo_ctx demo_ctx_world.
Proof.
  assert (Ho : match Proc.objects hook_proc !! demo_ctx with Some _ => true | None => false end = true)
    by (vm_compute; reflexivity).
  unfold demo_ctx_world. destruct (Proc.objects hook_proc !! demo_ctx) as [o|] eqn:Eo; [|done].
  exists hook_proc, o. split_and!; [apply lookup_singleton_eq|exact Eo| |reflexivity].
  intros h' p' Hp' _. cbn [handles hook_system] in Hp'. apply lookup_singleton_Some in Hp' as [Hh _]. congruence.
Qed.

Lemma demo_prepared : prepared (8 * 1024 * 1024) 1 demo_ctx_world.
Proof.
  split.
  - apply (@initial_inv demo_urpc demo_laws). split_and!; vm_compute; reflexivity.
  - split; [split|..].
    + vm_compute. discriminate.
    + vm_compute. reflexivity.
    + split; vm_compute; reflexivity.
    + vm_compute. reflexivity.
    + vm_compute. reflexivity.
    + vm_compute. reflexivity.
    + split; vm_compute; reflexivity.
  - exists T_asleep. split; [by left|]. vm_compute. reflexivity.
  - split; [vm_compute; reflexivity|].
    apply (bool_decide_eq_false_1 (h_brk (vh demo_ctx_world) ∈ h_live (vh demo_ctx_world))). vm_compute. reflexivity.
Qed.

Lemma demo_ctx_ve : @ve_of demo_indet demo_machine (8 * 1024 * 1024) 1 demo_ctx_world = demo_ve.
Proof. vm_cast_no_check (eq_refl demo_ve). Qed.

Abbreviation demo_served op hook s v ve' :=
  (@hook_served demo_indet demo_machine (8 * 1024 * 1024) 1 list_order demo_hooks demo_vh op hook 64 demo_ctx s
     demo_ctx_world v ve').
Abbreviation demo_hooked := (@hooked demo_urpc demo_indet demo_vh list_order demo_hooks 9).

Lemma demo_ctx_word : in_u64 demo_ctx.
Proof. split; vm_compute; (discriminate || reflexivity). Qed.



(** The same context after the VE process is gone. *)
Definition dead_ctx_world : @world demo_urpc := set_state VEO_STATE_EXIT demo_ctx_world.

Definition dead_system (hs : gmap api_func (hook * Z)) : @system demo_urpc :=
  snd (on_ctx demo_ctx (modify (@set_state demo_urpc VEO_STATE_EXIT)) (hook_system hs)).

Lemma dead_seen hs : seen (8 * 1024 * 1024) 1 (dead_system hs) 64 demo_ctx dead_ctx_world /\
  static_hooks (dead_system hs) = hs.
Proof.
  destruct (on_ctx_seen _ _ _ _ _ _ (demo_seen hs)) as (f & Ef & Hf).
  assert (Hd : dead_system hs = f dead_ctx_world)
    by exact (f_equal snd (Ef _ (modify (@set_state demo_urpc VEO_STATE_EXIT)) (Ret tt) dead_ctx_world eq_refl)).
  rewrite Hd. destruct (Hf dead_ctx_world) as (Hs & Hapi & _). split; [exact Hs|]. exact (proj1 (proj2 Hapi)).
Qed.

Lemma async_tuple_lost_witness :
  let s := dead_system (<[F_alloc_mem_async := (H_user 11, 12)]> {[F_free_mem_async := (H_user 13, 14)]}) in
  @tuple_leaked demo_indet demo_machine (8 * 1024 * 1024) 1
    (@veo_alloc_mem_async demo_urpc demo_indet demo_vh list_order demo_ctx 64) 64 demo_ctx s dead_ctx_world.
Proof.
  intros s. destruct (dead_seen (<[F_alloc_mem_async := (H_user 11, 12)]> {[F_free_mem_async := (H_user 13, 14)]}))
    as [Hs Hh].
  refine (proj1 (@async_tuple_lost demo_indet demo_machine (8 * 1024 * 1024) 1 list_order demo_vh
           (H_user 11, 12) (H_user 13, 14) 64 demo_ctx 64 4096 s dead_ctx_world Hs _ _ _)).
  - vm_compute. reflexivity.
  - exact (f_equal (lookup F_alloc_mem_async) Hh).
  - exact (f_equal (lookup F_free_mem_async) Hh).
Defined.
