(* ===== verification/ApiArgs.v ===== *)
(** * Argument objects and attributes of the C API

    Models the functions of [veo_api.cpp] on [veo_args] objects, with the
    conversion of a value to the type of the function's parameter, and those on
    thread-context attributes.  Whatever is done to an argument object, it holds
    values of their types, as the theorems on stack frames assume. *)

From Stdlib Require Import ZArith Lia Bool.
From stdpp Require Import base gmap list numbers sets strings.
From S2P Require Import Prelude CallArgs Command Urpc Ve Context Calls ProcHandle Api.

Open Scope Z_scope.

(** Conversion to one of the integral types. *)
Definition cast (t : inttype) (v : Z) : Z :=
  let n := 256 ^ Z.of_nat (sizeof t) in
  match t with
  | T_u64 | T_u32 | T_u16 | T_u8 => v mod n
  | T_i64 | T_i32 | T_i16 | T_i8 => let r := v mod n in if r <? n / 2 then r else r - n
  end.

(** ** Argument objects *)

(** [veo_args_alloc]: the object; running out of memory is not modelled. *)
Definition veo_args_alloc : CallArgs := new_CallArgs.

Definition veo_args_set_i64 (argnum val : Z) := veo_args_set_ argnum (ArgType T_i64 (cast T_i64 val)).
Definition veo_args_set_u64 (argnum val : Z) := veo_args_set_ argnum (ArgType T_u64 (cast T_u64 val)).
Definition veo_args_set_i32 (argnum val : Z) := veo_args_set_ argnum (ArgType T_i32 (cast T_i32 val)).
Definition veo_args_set_u32 (argnum val : Z) := veo_args_set_ argnum (ArgType T_u32 (cast T_u32 val)).
Definition veo_args_set_i16 (argnum val : Z) := veo_args_set_ argnum (ArgType T_i16 (cast T_i16 val)).
Definition veo_args_set_u16 (argnum val : Z) := veo_args_set_ argnum (ArgType T_u16 (cast T_u16 val)).
Definition veo_args_set_i8 (argnum val : Z) := veo_args_set_ argnum (ArgType T_i8 (cast T_i8 val)).
Definition veo_args_set_u8 (argnum val : Z) := veo_args_set_ argnum (ArgType T_u8 (cast T_u8 val)).

(** [bits] is the representation of the number. *)
Definition veo_args_set_double (argnum bits : Z) :=
  veo_args_set_ argnum (ArgType_double (bits mod 2 ^ 64)).
Definition veo_args_set_float (argnum bits : Z) :=
  veo_args_set_ argnum (ArgType_float (bits mod 2 ^ 32)).

Definition veo_args_set_hmem (argnum val : Z) := veo_args_set_u64 argnum (u64 val).

Definition veo_args_clear (ca : CallArgs) : CallArgs := clear ca.

(** The destructor releases the stack buffer. *)
Definition veo_args_free (ca : CallArgs) : M heap unit := delete_char (stack_buf ca).

(** ** Attributes *)

Section Attributes.
Context `{U : Urpc}.

(** [veo_alloc_thr_ctxt_attr]: the address of the object, which holds the stack
    size. *)
Definition veo_alloc_thr_ctxt_attr : M system Z :=
  let! a := on_sys_vh (new_char 8) in
  store64 a new_ThreadContextAttr ;;;
  ret a.

Definition veo_free_thr_ctxt_attr (tca : Z) : M system Z :=
  if tca =? 0 then modify (set_errno EINVAL) ;;; ret (-1)
  else on_sys_vh (delete_char tca) ;;; ret 0.

Definition veo_get_thr_ctxt_stacksize (tca stack_sz : Z) : M system Z :=
  if (tca =? 0) || (stack_sz =? 0) then modify (set_errno EINVAL) ;;; ret (-1)
  else
    let! v := gets (load64 tca) in
    store64 stack_sz v ;;;
    ret 0.
End Attributes.

(** ** The map an argument object stands for *)

Inductive args_op :=
  | A_set (t : inttype) (argnum val : Z)
  | A_set_double (argnum bits : Z)
  | A_set_float (argnum bits : Z)
  | A_set_hmem (argnum val : Z)
  | A_set_stack (inout : veo_args_intent) (argnum buff len : Z)
  | A_clear.

Definition set_typed (t : inttype) : Z -> Z -> CallArgs -> outcome (Z * CallArgs) :=
  match t with
  | T_i64 => veo_args_set_i64 | T_u64 => veo_args_set_u64 | T_i32 => veo_args_set_i32
  | T_u32 => veo_args_set_u32 | T_i16 => veo_args_set_i16 | T_u16 => veo_args_set_u16
  | T_i8 => veo_args_set_i8 | T_u8 => veo_args_set_u8
  end.

Definition args_perform (o : args_op) (ca : CallArgs) : outcome (Z * CallArgs) :=
  match o with
  | A_set t argnum val => set_typed t argnum val ca
  | A_set_double argnum bits => veo_args_set_double argnum bits ca
  | A_set_float argnum bits => veo_args_set_float argnum bits ca
  | A_set_hmem argnum val => veo_args_set_hmem argnum val ca
  | A_set_stack inout argnum buff len => veo_args_set_stack inout argnum buff len ca
  | A_clear => Ret (0, veo_args_clear ca)
  end.

Fixpoint args_run (ops : list args_op) (ca : CallArgs) : outcome CallArgs :=
  match ops with
  | [] => Ret ca
  | o :: ops => obind (args_perform o ca) (fun '(_, ca) => args_run ops ca)
  end.

(** The argument an operation sets, and where. *)
Definition sets (o : args_op) : option (Z * ArgBase) :=
  match o with
  | A_set t argnum val => Some (argnum, ArgType t (cast t val))
  | A_set_double argnum bits => Some (argnum, ArgType_double (bits mod 2 ^ 64))
  | A_set_float argnum bits => Some (argnum, ArgType_float (bits mod 2 ^ 32))
  | A_set_hmem argnum val => Some (argnum, ArgType T_u64 (u64 val))
  | A_set_stack inout argnum buff len =>
      Some (argnum, ArgOnStack buff len (match inout with VEO_INTENT_OUT => false | _ => true end)
                      (match inout with VEO_INTENT_IN => false | _ => true end) 0)
  | A_clear => None
  end.

Definition args_spec (o : args_op) (m : gmap nat ArgBase) : gmap nat ArgBase :=
  match sets o with
  | Some (argnum, a) => <[Z.to_nat argnum := a]> m
  | None => ∅
  end.

(** An argument number a program can mean, a buffer that can exist. *)
Definition args_op_ok (o : args_op) : Prop :=
  match o with
  | A_set _ argnum _ | A_set_double argnum _ | A_set_float argnum _ | A_set_hmem argnum _ =>
      0 <= argnum < 2 ^ 31 - 1
  | A_set_stack _ argnum _ len => 0 <= argnum < 2 ^ 31 - 1 /\ 0 <= len < 2 ^ 63
  | A_clear => True
  end.

Lemma cast_in_type t v : in_type t (cast t v).
Proof.
  unfold in_type, cast. set (n := 256 ^ Z.of_nat (sizeof t)).
  assert (0 < n /\ n mod 2 = 0) as [Hn H2] by (destruct t; by vm_compute).
  pose proof (Z.mod_pos_bound v n Hn). pose proof (Z.div_mod n 2 ltac:(lia)).
  destruct t; try lia; destruct (Z.ltb_spec (v mod n) (n / 2)); lia.
Qed.

(** A value of the type is not changed. *)
Lemma cast_id t v : in_type t v -> cast t v = v.
Proof.
  unfold in_type, cast. set (n := 256 ^ Z.of_nat (sizeof t)).
  assert (0 < n /\ n mod 2 = 0) as [Hn H2] by (destruct t; by vm_compute).
  pose proof (Z.div_mod n 2 ltac:(lia)).
  intros Hv. destruct t; try (by rewrite Z.mod_small).
  all: destruct (Z_lt_le_dec v 0) as [Hs|Hs];
    [rewrite <- (Z.mod_add v 1 n), Z.mod_small by lia
    |rewrite Z.mod_small by lia];
    match goal with |- context [?x <? _] => destruct (Z.ltb_spec x (n / 2)) end; lia.
Qed.

(** The object [ca] holds the arguments of the map [m]. *)
Definition holds (ca : CallArgs) (m : gmap nat ArgBase) : Prop :=
  forall i, arguments ca !! i ≫= id = m !! i.

Lemma put_argument_holds argnum a ca m :
  0 <= argnum < 2 ^ 31 - 1 -> holds ca m ->
  exists ca', put_argument argnum a ca = Ret ca' /\ holds ca' (<[Z.to_nat argnum := a]> m).
Proof.
  intros Hn Hm. unfold put_argument.
  destruct (Z.eqb_spec argnum (-1)), (Z.eqb_spec argnum (2 ^ 31 - 1)); try lia. cbn [orb].
  rewrite u64_small by lia.
  assert (Hx : forall l, (forall i, l !! i ≫= id = m !! i) -> (Z.to_nat argnum < length l)%nat ->
    holds (set_arguments (<[Z.to_nat argnum := Some a]> l) ca) (<[Z.to_nat argnum := a]> m)).
  { intros l Hl Hlt i. cbn [arguments set_arguments]. destruct (decide (i = Z.to_nat argnum)) as [->|Hne].
    - rewrite list_lookup_insert_eq by done. by rewrite lookup_insert_eq.
    - rewrite list_lookup_insert_ne, lookup_insert_ne by done. apply Hl. }
  destruct (Z.ltb_spec (Z.of_nat (length (arguments ca))) (argnum + 1)).
  - unfold vector_max_size. destruct (Z.ltb_spec (2 ^ 60 - 1) (argnum + 1)); [lia|].
    eexists. split; [reflexivity|]. apply Hx.
    + intros i. rewrite <- Hm. destruct (decide (i < length (arguments ca))%nat) as [Hi|Hi].
      * by rewrite lookup_app_l.
      * rewrite lookup_app_r, (lookup_ge_None_2 (arguments ca)) by lia.
        destruct (replicate _ _ !! _) as [o|] eqn:Er; [|done].
        by apply lookup_replicate in Er as [-> _].
    + rewrite length_app, length_replicate. lia.
  - eexists. split; [reflexivity|]. apply Hx; [exact Hm|lia].
Qed.

Lemma args_perform_holds o ca m :
  args_op_ok o -> holds ca m ->
  exists ca', args_perform o ca = Ret (0, ca') /\ holds ca' (args_spec o m).
Proof.
  intros Hok Hm.
  assert (Hset : forall argnum a, 0 <= argnum < 2 ^ 31 - 1 ->
    exists ca', veo_args_set_ argnum a ca = Ret (0, ca') /\ holds ca' (<[Z.to_nat argnum := a]> m)).
  { intros argnum a Hn. destruct (put_argument_holds argnum a ca m Hn Hm) as (ca' & E & H').
    exists ca'. split; [|done]. unfold veo_args_set_, set_. by rewrite E. }
  destruct o as [t argnum val|argnum bits|argnum bits|argnum val|inout argnum buff len|];
    cbn [args_perform args_op_ok] in *.
  - unfold args_spec. cbn [sets]. destruct t; by apply Hset.
  - by apply Hset.
  - by apply Hset.
  - unfold veo_args_set_hmem, veo_args_set_u64, args_spec. cbn [sets].
    assert (cast T_u64 (u64 val) = u64 val) as -> by (apply cast_id, u64_range). by apply Hset.
  - destruct Hok as [Hn _]. unfold veo_args_set_stack, setOnStack, args_spec. cbn [sets].
    match goal with |- context [put_argument argnum ?a ca] =>
      destruct (put_argument_holds argnum a ca m Hn Hm) as (ca' & -> & H') end.
    exists ca'. split; [done|]. by destruct inout.
  - eexists. split; [reflexivity|]. intros i. done.
Qed.

Lemma args_spec_typed o m :
  args_op_ok o -> (forall i a, m !! i = Some a -> arg_ok a) ->
  forall i a, args_spec o m !! i = Some a -> arg_ok a.
Proof.
  intros Hok Hm i a. unfold args_spec. destruct (sets o) as [[argnum b]|] eqn:Es; [|done].
  intros [[_ <-]|[_ Ha]]%lookup_insert_Some; [|eauto].
  destruct o; cbn in Es, Hok; simplify_eq/=; cbn [arg_ok].
  - apply cast_in_type.
  - apply Z.mod_pos_bound. lia.
  - apply Z.mod_pos_bound. lia.
  - apply u64_range.
  - lia.
Qed.

Lemma all_set {A} (P : A -> Prop) (l : list (option A)) :
  (forall i, (i < length l)%nat -> exists a, l !! i = Some (Some a) /\ P a) ->
  exists l', l = Some <$> l' /\ Forall P l'.
Proof.
  induction l as [|o l IH]; intros Hl; [by exists []|].
  destruct (Hl 0%nat ltac:(cbn; lia)) as (a & [= ->] & Ha).
  destruct IH as (l' & -> & Hl').
  - intros i Hi. apply (Hl (S i)). cbn. lia.
  - exists (a :: l'). by split; [|constructor].
Qed.

(** C25: argument objects are what was set.  Whatever sequence of the [veo_args_*]
  functions is applied to a new object: each of them succeeds, the object then
  holds exactly the arguments set last since the last [veo_args_clear], by
  argument number, and every one is a value of its C type (a buffer a possible
  one): when no number was left out, this is what the theorems on stack frames
  ask of the arguments of a call. *)
Theorem args_refine_map ops :
  Forall args_op_ok ops ->
  exists ca, args_run ops veo_args_alloc = Ret ca /\
    let m := foldl (fun m o => args_spec o m) ∅ ops in
    (forall i, arguments ca !! i ≫= id = m !! i) /\
    (forall i a, m !! i = Some a -> arg_ok a) /\
    ((forall i, (i < length (arguments ca))%nat -> is_Some (m !! i)) ->
     exists l, arguments ca = Some <$> l /\ Forall arg_ok l).
Proof.
  intros Hok.
  assert (Hgen : forall ca m, holds ca m -> (forall i a, m !! i = Some a -> arg_ok a) ->
    exists ca', args_run ops ca = Ret ca' /\ holds ca' (foldl (fun m o => args_spec o m) m ops) /\
      forall i a, foldl (fun m o => args_spec o m) m ops !! i = Some a -> arg_ok a).
  { induction Hok as [|o ops Ho _ IH]; intros ca m Hm Ht; [by exists ca|].
    destruct (args_perform_holds o ca m Ho Hm) as (ca1 & E1 & H1).
    destruct (IH ca1 (args_spec o m) H1 (args_spec_typed o m Ho Ht)) as (ca2 & E2 & H2).
    exists ca2. cbn [args_run foldl]. rewrite E1. by split. }
  destruct (Hgen veo_args_alloc ∅) as (ca & E & Hh & Ht); [done|done|].
  exists ca. split; [done|]. cbv zeta. split_and!; [done|done|]. intros Hall.
  apply all_set. intros i Hi. destruct (lookup_lt_is_Some_2 _ _ Hi) as [o Ho].
  destruct (Hall i Hi) as [a Ha]. exists a. split; [|by apply (Ht i)].
  specialize (Hh i). rewrite Ho, Ha in Hh. cbn in Hh. by rewrite Ho, <- Hh.
Qed.

Lemma args_refine_map_witness :
  exists ca, args_run [A_set T_i32 1 (2 ^ 40 - 5); A_set_double 0 7; A_clear;
                       A_set_stack VEO_INTENT_IN 1 8192 16; A_set T_u8 0 300] veo_args_alloc = Ret ca /\
    arguments ca = [Some (ArgType T_u8 44); Some (ArgOnStack 8192 16 true false 0)].
Proof.
  destruct (args_refine_map [A_set T_i32 1 (2 ^ 40 - 5); A_set_double 0 7; A_clear;
              A_set_stack VEO_INTENT_IN 1 8192 16; A_set T_u8 0 300]) as (ca & E & _).
  - repeat (apply List.Forall_cons; [cbn [args_op_ok]; lia|]). apply List.Forall_nil.
  - exists ca. split; [exact E|]. vm_compute in E. by injection E as <-.
Defined.
