(* ===== verification/LowLevel.v ===== *)
(** * DMA and shared memory between VEs

    Models [veo_vedma.cpp], [veo_veshm.cpp], [veo_vhveshm.cpp],
    [callSyscallWrapper] of [veo_api.hpp] and [veo_get_pid_from_hmem]: functions
    of the API that call a function on the VE, of the library [libveio] or the
    system-call wrapper of [libveohmem].  [syscall_wrapper], which runs there, is
    modelled in [Hmem.v]. *)

From Stdlib Require Import ZArith Lia Bool.
From stdpp Require Import base gmap list numbers sets strings.
From S2P Require Import Prelude Hmem CallArgs Command Urpc Ve Context Example Requests Progress.
From S2P Require Import AsyncTransfer Calls Lifecycle VeNode ProcHandle Processes Api ApiArgs.

Open Scope Z_scope.

Definition EFAULT : Z := 14.
Definition EBUSY : Z := 16.
Definition ENOTSUP : Z := 95.

(** The largest [uint64_t], which stands for failure. *)
Definition minus1 : Z := 2 ^ 64 - 1.

(** The numbers of [veo_veos_defs.h], [veo_sysve.h], [veo_vhshm_defs.h] and
    [veo_veshm_defs.h]. *)
Definition SYS_sysve : Z := 316.
Definition VE_SYSVE_VESHM_CTL : Z := 0x20.
Definition VE_SYSVE_VHSHM_CTL : Z := 0x40.
Definition VESHM_OPEN : Z := 0x30.
Definition VESHM_ATTACH : Z := 0x31.
Definition VESHM_DETACH : Z := 0x32.
Definition VESHM_CLOSE : Z := 0x33.
Definition VHSHM_GET : Z := 1.
Definition VHSHM_AT : Z := 2.
Definition VHSHM_DT : Z := 3.
Definition VE_REGISTER_VEMVA : Z := 0x2000.
Definition VE_MEM_LOCAL : Z := 0x8000.

Definition LIBVEIO : string := "libveio.so".
Definition LIBVEOHMEM : string := "libveohmem.so".

(** The address of a string literal in VH memory. *)
Class Literals := literal : string -> Z.

(** The member [child_pid] of a peer belongs to ve-urpc. *)
Class PeerPid `{U : Urpc} := child_pid : peer -> Z.

Definition text (s : string) : list Z :=
  (fun c => Z.of_N (Ascii.N_of_ascii c)) <$> String.list_ascii_of_string s.

(** How [callSyscallWrapper] reads the result of the VE function: the value it
    returns, and the [errno] it sets. *)
Definition syscall_outcome (result : Z) : Z * option Z :=
  if (-4096 <? i32 result) && (i32 result <? -1)
  then (minus1, Some (Z.abs (i32 result)))
  else (result, None).

Section LowLevel.
Context `{U : Urpc} `{IN : Indet} `{VF : !VhFuncs} `{BO : BucketOrder} `{E : Env}.
Context `{LI : Literals} `{PP : !PeerPid}.
Import Proc.

(** Arguments set one after the other, the return codes unheeded. *)
Definition build (sets : list (CallArgs -> outcome (Z * CallArgs))) : M system CallArgs :=
  lift (foldl (fun o f => obind o (fun ca => obind (f ca) (fun r => Ret (snd r))))
          (Ret veo_args_alloc) sets).

Definition fail (e : Z) : M system Z := modify (set_errno e) ;;; ret minus1.

Definition callSyscallWrapper (n : nat) (h : Z) (ca : CallArgs) : M system Z :=
  let! libh := on_proc h (loadVE2VELibrary n (literal LIBVEOHMEM)) in
  if libh =? 0 then fail ENOTSUP
  else
    let! sym_addr := on_proc h (getSym n libh (literal "syscall_wrapper")) in
    if sym_addr =? 0 then fail ENOTSUP
    else
      let! '(rv, result, _) := on_proc h (Proc.callSync n sym_addr ca) in
      let result := default minus1 result in
      if negb (rv =? VEO_COMMAND_OK) then fail EBUSY
      else match syscall_outcome result with
           | (r, Some e) => modify (set_errno e) ;;; ret r
           | (r, None) => ret r
           end.

(** ** Processes behind an address *)

Definition getPid : M ProcHandle Z := on_mctx (gets (fun w => child_pid (the_peer w))).

Definition veo_get_pid_from_hmem (addr : Z) : M system Z :=
  if negb (IS_VE addr =? 0) then
    let! h := veo_get_proc_handle_from_hmem addr in
    on_proc h getPid
  else ret (-1).

(** ** VE shared memory *)

Definition sysve_args (ctl cmd : Z) : list (CallArgs -> outcome (Z * CallArgs)) :=
  [veo_args_set_u64 0 SYS_sysve; veo_args_set_u64 1 ctl; veo_args_set_u64 2 cmd].

(** What [veo_shared_mem_open] and [veo_shared_mem_close] share. *)
Definition shared_mem_ctl (cmd : Z) (n : nat) (vemva size syncnum mode_flag : Z) : M system Z :=
  let! h := veo_get_proc_handle_from_hmem vemva in
  if h =? 0 then modify (set_errno EINVAL) ;;; ret (-1)
  else
    let! ca := build (sysve_args VE_SYSVE_VESHM_CTL cmd ++
                 [veo_args_set_hmem 3 (veo_get_hmem_addr vemva); veo_args_set_u64 4 size;
                  veo_args_set_i64 5 syncnum; veo_args_set_i64 6 mode_flag]) in
    let! result := callSyscallWrapper n h ca in
    ret (i32 result).

Definition veo_shared_mem_open := shared_mem_ctl VESHM_OPEN.
Definition veo_shared_mem_close := shared_mem_ctl VESHM_CLOSE.

(** The array [arg] lives at [block]. *)
Definition attach_args (pid vemva size syncnum mode_flag : Z) : list Z :=
  [u64 pid; u64 (veo_get_hmem_addr vemva); u64 size; u64 syncnum; u64 mode_flag].

Definition attached (h mode_flag result : Z) : M system Z :=
  if negb (Z.land mode_flag VE_REGISTER_VEMVA =? 0) then
    let! ident := veo_proc_identifier h in
    let result := SET_VE_FLAG result in
    ret (SET_PROC_IDENT result ident)
  else ret result.

Definition veo_shared_mem_attach (n : nat) (h pid veshm_vemva size syncnum mode_flag : Z)
  : M system Z :=
  let! block := on_sys_vh (new_char 40) in
  on_sys_vh (store block (regs_bytes (attach_args pid veshm_vemva size syncnum mode_flag))) ;;;
  let! ca := build (sysve_args VE_SYSVE_VESHM_CTL VESHM_ATTACH ++
               [veo_args_set_stack VEO_INTENT_IN 3 block 40]) in
  let! result := callSyscallWrapper n h ca in
  let! result := attached h mode_flag result in
  on_sys_vh (delete_char block) ;;;
  ret result.

Definition veo_shared_mem_detach (n : nat) (h veshm_addr mode_flag : Z) : M system Z :=
  let! ca := build (sysve_args VE_SYSVE_VESHM_CTL VESHM_DETACH ++
               [veo_args_set_hmem 3 (veo_get_hmem_addr veshm_addr); veo_args_set_i64 4 mode_flag]) in
  let! result := callSyscallWrapper n h ca in
  ret (i32 result).

(** ** System V shared memory of the VH *)

Definition veo_shmget (n : nat) (h key size shmflag : Z) : M system Z :=
  let! ca := build (sysve_args VE_SYSVE_VHSHM_CTL VHSHM_GET ++
               [veo_args_set_u64 3 key; veo_args_set_u64 4 size; veo_args_set_i64 5 shmflag]) in
  let! result := callSyscallWrapper n h ca in
  ret (i32 result).

Definition veo_shmat (n : nat) (h shmid shmaddr shmflag vehva : Z) : M system Z :=
  if vehva =? 0 then fail EFAULT
  else
    let! ca := build (sysve_args VE_SYSVE_VHSHM_CTL VHSHM_AT ++
                 [veo_args_set_i64 3 shmid; veo_args_set_hmem 4 shmaddr; veo_args_set_i64 5 shmflag;
                  veo_args_set_stack VEO_INTENT_OUT 6 vehva 8]) in
    callSyscallWrapper n h ca.

Definition veo_shmdt (n : nat) (h shmaddr : Z) : M system Z :=
  let! ca := build (sysve_args VE_SYSVE_VHSHM_CTL VHSHM_DT ++ [veo_args_set_hmem 3 shmaddr]) in
  let! result := callSyscallWrapper n h ca in
  ret (i32 result).

(** ** DMA *)

Definition vedmasym : list Z :=
  [literal "ve_dma_post"; literal "ve_dma_poll"; literal "ve_dma_post_wait"].

(** What the three DMA functions share; the diagnostics printed about the result
    have no effect on it. *)
Definition dma_call (n : nat) (h : Z) (sym : string) (ca : CallArgs) : M system Z :=
  let! libh := on_proc h (loadVE2VELibrary n (literal LIBVEIO)) in
  if libh =? 0 then ret (- ENOTSUP)
  else
    let! sym_addr := on_proc h (getVEDMASyms n vedmasym libh (text sym)) in
    if sym_addr =? 0 then ret (- ENOTSUP)
    else
      let! '(rv, result, _) := on_proc h (Proc.callSync n sym_addr ca) in
      let result := default 0 result in
      if negb (rv =? VEO_COMMAND_OK) then ret (- EBUSY) else ret (i32 result).

(** [sizeof(ve_dma_handle_t)] is 8. *)
Definition veo_dma_post (n : nat) (h dst src size dhandle : Z) : M system Z :=
  if dhandle =? 0 then ret (- EFAULT)
  else
    let! ca := build [veo_args_set_u64 0 dst; veo_args_set_u64 1 src; veo_args_set_i64 2 size;
                      veo_args_set_stack VEO_INTENT_OUT 3 dhandle 8] in
    dma_call n h "ve_dma_post" ca.

Definition veo_dma_poll (n : nat) (h dhandle : Z) : M system Z :=
  if dhandle =? 0 then ret (- EFAULT)
  else
    let! ca := build [veo_args_set_stack VEO_INTENT_IN 0 dhandle 8] in
    dma_call n h "ve_dma_poll" ca.

Definition veo_dma_post_wait (n : nat) (h dst src size : Z) : M system Z :=
  let! ca := build [veo_args_set_u64 0 dst; veo_args_set_u64 1 src; veo_args_set_i64 2 size] in
  dma_call n h "ve_dma_post_wait" ca.

Definition veo_register_mem_to_dmaatb (n : nat) (vemva size : Z) : M system Z :=
  let! h := veo_get_proc_handle_from_hmem vemva in
  let! pid := veo_get_pid_from_hmem vemva in
  veo_shared_mem_attach n h pid vemva size 0 VE_MEM_LOCAL.

Definition veo_unregister_mem_from_dmaatb (n : nat) (h vehva : Z) : M system Z :=
  veo_shared_mem_detach n h vehva VE_MEM_LOCAL.

Definition veo_access_pcircvsyc_register (h : Z) : M system unit :=
  try_veo (on_proc h accessPciRecvSyncRegister) (fun _ => ret tt).
End LowLevel.

(** ** Lemmas *)

Lemma i32_low z : exists q, i32 z = z - q * 2 ^ 32.
Proof.
  unfold i32. cbv zeta. pose proof (Z.div_mod z (2 ^ 32) ltac:(lia)).
  destruct (_ <? _); [exists (z / 2 ^ 32)|exists (z / 2 ^ 32 + 1)]; lia.
Qed.

Lemma u64_i64 z : u64 (i64 z) = u64 z.
Proof.
  unfold i64, u64. cbv zeta. destruct (_ <? _); [by apply Z.mod_mod|].
  replace (z mod 2 ^ 64 - 2 ^ 64) with (z mod 2 ^ 64 + (-1) * 2 ^ 64) by lia.
  rewrite Z_mod_plus_full. by apply Z.mod_mod.
Qed.

Definition args_object (l : list ArgBase) : CallArgs := set_arguments (Some <$> l) veo_args_alloc.

Lemma set_next l a :
  Z.of_nat (length l) < 2 ^ 31 - 1 ->
  veo_args_set_ (Z.of_nat (length l)) a (args_object l) = Ret (0, args_object (l ++ [a])).
Proof.
  intros Hl. unfold veo_args_set_, set_, put_argument.
  destruct (Z.eqb_spec (Z.of_nat (length l)) (-1)), (Z.eqb_spec (Z.of_nat (length l)) (2 ^ 31 - 1));
    try lia. cbn [orb]. rewrite u64_small by lia. cbn [args_object set_arguments arguments].
  rewrite length_fmap. destruct (Z.ltb_spec (Z.of_nat (length l)) (Z.of_nat (length l) + 1)); [|lia].
  unfold vector_max_size. destruct (Z.ltb_spec (2 ^ 60 - 1) (Z.of_nat (length l) + 1)); [lia|].
  replace (Z.to_nat (Z.of_nat (length l) + 1) - length l)%nat with 1%nat by lia.
  rewrite Nat2Z.id. unfold args_object, set_arguments. do 4 f_equal. cbn [arguments].
  rewrite insert_app_r_alt by (by rewrite length_fmap). rewrite length_fmap, Nat.sub_diag, fmap_app. done.
Qed.

(** Setting the arguments one after the other. *)
Lemma build_all `{U : Urpc} l s :
  Z.of_nat (length l) < 2 ^ 31 - 1 ->
  build (imap (fun i => veo_args_set_ (Z.of_nat i)) l) s = (Ret (args_object l), s).
Proof.
  intros Hl. unfold build, lift. f_equal.
  assert (Hgen : forall l2 l1, Z.of_nat (length (l1 ++ l2)) < 2 ^ 31 - 1 ->
    foldl (fun o f => obind o (fun ca => obind (f ca) (fun r : Z * CallArgs => Ret (snd r))))
      (Ret (args_object l1)) (imap (fun i => veo_args_set_ (Z.of_nat (length l1 + i))) l2) =
    Ret (args_object (l1 ++ l2))).
  { induction l2 as [|a l2 IH]; intros l1 Hb; [by rewrite app_nil_r|].
    cbn [imap foldl obind recast]. rewrite Nat.add_0_r, set_next by (rewrite length_app in Hb; lia).
    cbn [obind recast snd]. rewrite (cons_middle a l1 l2), app_assoc in Hb |- *. rewrite <- IH by done.
    f_equal. apply imap_ext. intros i x _. cbn. do 2 f_equal. rewrite length_app. cbn. lia. }
  apply (Hgen l []). done.
Qed.

(** A failure stays a failure with a flag and an identifier added. *)
Lemma failure_kept i : SET_PROC_IDENT (SET_VE_FLAG minus1) i = minus1.
Proof.
  unfold SET_PROC_IDENT. set (x := u64 (Z.shiftl _ _)).
  pose proof (u64_range (Z.shiftl (u64 i) IDENT_OFFSET_BITS)) as Hx. fold x in Hx. clearbody x.
  change (u64 (SET_VE_FLAG minus1)) with (Z.ones 64). change minus1 with (Z.ones 64).
  rewrite Z.lor_comm. apply Z.lor_ones_low; [lia|].
  destruct (decide (x = 0)) as [->|]; [done|]. apply Z.log2_lt_pow2; lia.
Qed.

Section Frames.
Context `{U : Urpc} `{IN : Indet} `{VF : !VhFuncs} `{BO : BucketOrder} `{E : Env}.
Context `{LI : Literals} `{PP : !PeerPid}.
Import Proc.

Lemma on_proc_procs {A} h (m : M ProcHandle A) : forall t, keeps (fun s => procs s = t) (on_proc h m).
Proof.
  intros t s Hs. unfold on_proc. destruct (handles s !! h) as [p|]; [|done].
  by destruct (m _) as [[] p'].
Qed.

Lemma callSyscallWrapper_procs n h ca : forall t, keeps (fun s => procs s = t) (callSyscallWrapper n h ca).
Proof.
  intros t. unfold callSyscallWrapper, fail.
  apply keeps_bind; [apply on_proc_procs|]. intros libh.
  assert (Hf : forall e, keeps (fun s => procs s = t) (modify (set_errno e) ;;; ret minus1)).
  { intros e. apply keeps_bind; [by intros s Hs|]. intros _. apply keeps_ret. }
  destruct (libh =? 0); [apply Hf|]. apply keeps_bind; [apply on_proc_procs|]. intros sym.
  destruct (sym =? 0); [apply Hf|]. apply keeps_bind; [apply on_proc_procs|]. intros [[rv result] ca'].
  destruct (negb _); [apply Hf|]. destruct (syscall_outcome _) as [r [e|]]; [|apply keeps_ret].
  apply keeps_bind; [by intros s Hs|]. intros _. apply keeps_ret.
Qed.

(** The frame of [veo_shared_mem_attach]. *)
Definition attach_list (block : Z) : list ArgBase :=
  [ArgType T_u64 SYS_sysve; ArgType T_u64 VE_SYSVE_VESHM_CTL; ArgType T_u64 VESHM_ATTACH;
   ArgOnStack block 40 true false 0].

Lemma attach_frame block m sp img c' :
  getStackImage m sp (args_object (attach_list block)) = Ret (img, c') ->
  exists p, getRegVal c' = Ret [SYS_sysve; VE_SYSVE_VESHM_CTL; VESHM_ATTACH; p] /\
    take 40 (drop (Z.to_nat (u64 (p - stack_top c'))) img) = mem_read m block 40.
Proof.
  intros Himg.
  destruct (call_frame m sp (args_object (attach_list block)) (attach_list block) img c') as (H1 & H2 & H3);
    [done| |done|done|].
  { unfold attach_list.
    repeat (apply List.Forall_cons; [split; [vm_compute; discriminate|vm_compute; reflexivity]|]).
    apply List.Forall_nil. }
  cbn [place_all attach_list place fmap list_fmap take] in H2, H3.
  destruct (H3 3%nat _ eq_refl) as (_ & _ & _ & _ & H40). specialize (H40 eq_refl).
  cbn [Arg.getRegVal fmap list_fmap] in H2.
  match type of H2 with _ = Ret [_; _; _; u64 (i64 (u64 ?x))] => exists (u64 x) end.
  rewrite (u64_i64 (u64 _)), u64_idem in H2. split; [exact H2|exact H40].
Qed.

(** The frames of [veo_dma_post] and [veo_dma_poll]. *)
Definition post_list (dst src size dhandle : Z) : list ArgBase :=
  [ArgType T_u64 (cast T_u64 dst); ArgType T_u64 (cast T_u64 src); ArgType T_i64 (cast T_i64 size);
   ArgOnStack dhandle 8 false true 0].
Definition poll_list (dhandle : Z) : list ArgBase := [ArgOnStack dhandle 8 true false 0].

Lemma post_list_ok dst src size dhandle : Forall arg_ok (post_list dst src size dhandle).
Proof.
  unfold post_list. repeat (apply List.Forall_cons; [apply cast_in_type|]).
  apply List.Forall_cons; [split; [vm_compute; discriminate|vm_compute; reflexivity]|].
  apply List.Forall_nil.
Qed.

Lemma u64_cast_i64 v : u64 (i64 (cast T_i64 v)) = u64 v.
Proof. rewrite u64_i64. exact (u64_i64 v). Qed.

Lemma post_frame dst src size dhandle m sp img c' pl h :
  getStackImage m sp (args_object (post_list dst src size dhandle)) = Ret (img, c') ->
  Z.of_nat (length pl) = stack_size c' ->
  exists p fs m', getRegVal c' = Ret [u64 dst; u64 src; u64 size; p] /\
    copyout c' = Ret fs /\ run_copyout (FromBytes pl) fs h = (Ret tt, set_h_mem m' h) /\
    mem_read m' dhandle 8 = take 8 (drop (Z.to_nat (u64 (p - stack_top c'))) pl) /\
    (forall x, ~ (dhandle <= x < dhandle + 8) -> m' x = h_mem h x).
Proof.
  intros Himg Hpl. set (l := post_list dst src size dhandle) in *.
  destruct (call_frame m sp (args_object l) l img c') as (H1 & H2 & _);
    [done|apply post_list_ok|done|done|].
  destruct (copyout_writes m sp (args_object l) l img c' pl h) as (fs & m' & Hc & Hr & Hw & Ho);
    [done|apply post_list_ok|done|done|done| |].
  { intros i j r q x Hij Hi Hj. change (out_areas l) with [(dhandle, 8)] in *.
    destruct i as [|i], j as [|j]; simplify_eq/=. }
  cbn [place_all l post_list place fmap list_fmap take Arg.getRegVal] in H1, H2.
  match type of H2 with _ = Ret [_; _; _; u64 (i64 (u64 ?x))] => exists (u64 x), fs, m' end.
  rewrite (u64_i64 (u64 _)), u64_idem in H2. split_and!; [| done|done| |].
  - rewrite H2. rewrite u64_cast_i64, !u64_i64. change (cast T_u64 dst) with (u64 dst).
    change (cast T_u64 src) with (u64 src). by rewrite !u64_idem.
  - apply (Hw 3%nat dhandle 8 false). by rewrite H1.
  - intros x Hx. apply Ho. intros i b n j v Hi. rewrite H1 in Hi.
    destruct i as [|[|[|[|i]]]]; simplify_eq/=; try done.
Qed.

Lemma poll_frame dhandle m sp img c' :
  getStackImage m sp (args_object (poll_list dhandle)) = Ret (img, c') ->
  exists p, getRegVal c' = Ret [p] /\
    take 8 (drop (Z.to_nat (u64 (p - stack_top c'))) img) = mem_read m dhandle 8.
Proof.
  intros Himg.
  destruct (call_frame m sp (args_object (poll_list dhandle)) (poll_list dhandle) img c')
    as (_ & H2 & H3); [done| |done|done|].
  { apply List.Forall_cons; [split; [vm_compute; discriminate|vm_compute; reflexivity]|].
    apply List.Forall_nil. }
  cbn [place_all poll_list place fmap list_fmap take Arg.getRegVal] in H2, H3.
  destruct (H3 0%nat _ eq_refl) as (_ & _ & _ & _ & H8). specialize (H8 eq_refl).
  match type of H2 with _ = Ret [u64 (i64 (u64 ?x))] => exists (u64 x) end.
  rewrite (u64_i64 (u64 _)), u64_idem in H2. split; [exact H2|exact H8].
Qed.
End Frames.

(** ** Properties *)

Section LowLevelProperties.
Context `{U : Urpc} `{IN : Indet} `{VF : !VhFuncs} `{BO : BucketOrder} `{E : Env}.
Context `{LI : Literals} `{PP : !PeerPid}.
Import Proc.

(** C36: an attached area can be detached again.  When [veo_shared_mem_attach] with
  [VE_REGISTER_VEMVA] returns, it has called the system-call wrapper once, with
  the call number, the control and command numbers in registers and a pointer to
  a block in the frame that holds process ID, VE address, size, synchronisation
  number and flags as 64-bit words; a failure is passed on as such; an address
  below [2^59] comes back as a heterogeneous-memory address of the process, from
  which [veo_shared_mem_detach] passes the same address to the VE. *)
Theorem attach_detach_roundtrip n h pid vemva size syncnum mode s a s' :
  Z.land mode VE_REGISTER_VEMVA <> 0 ->
  veo_shared_mem_attach n h pid vemva size syncnum mode s = (Ret a, s') ->
  exists ca s1 s2 r, callSyscallWrapper n h ca s1 = (Ret r, s2) /\
    (forall sp img c', getStackImage (h_mem (sys_vh s1)) sp ca = Ret (img, c') ->
       exists p, getRegVal c' = Ret [SYS_sysve; VE_SYSVE_VESHM_CTL; VESHM_ATTACH; p] /\
         take 40 (drop (Z.to_nat (u64 (p - stack_top c'))) img) =
           regs_bytes [u64 pid; u64 (veo_get_hmem_addr vemva); u64 size; u64 syncnum; u64 mode]) /\
    (r = minus1 -> a = minus1) /\
    (forall i, Table._getProcIdentifier h (procs s) = Ret i -> 0 <= i < VEO_MAX_HMEM_PROCS ->
       0 <= r < 2 ^ 59 ->
       a = hmem_word 1 i r /\
       forall k t, veo_shared_mem_detach k h a mode t =
         (let! result := callSyscallWrapper k h (args_object
            [ArgType T_u64 SYS_sysve; ArgType T_u64 VE_SYSVE_VESHM_CTL; ArgType T_u64 VESHM_DETACH;
             ArgType T_u64 r; ArgType T_i64 (cast T_i64 mode)]) in ret (i32 result)) t).
Proof.
  intros Hm Ha. unfold veo_shared_mem_attach in Ha.
  apply bind_inv_Ret in Ha as (block & sa & Ea & Ha).
  apply bind_inv_Ret in Ha as ([] & s1 & E1 & Ha).
  assert (Eb := build_all (attach_list block) s1 ltac:(cbn; lia)).
  rewrite (bind_Ret _ _ _ _ _ Eb) in Ha.
  apply bind_inv_Ret in Ha as (r & s2 & E2 & Ha).
  apply bind_inv_Ret in Ha as (a0 & s3 & E3 & Ha).
  apply bind_inv_Ret in Ha as ([] & s4 & _ & [= -> _]).
  exists (args_object (attach_list block)), s1, s2, r. split; [done|].
  unfold attached in E3. destruct (Z.eqb_spec (Z.land mode VE_REGISTER_VEMVA) 0) as [|_]; [done|].
  cbn [negb] in E3. apply bind_inv_Ret in E3 as (i0 & s5 & E5 & [= <- <-]).
  assert (Hp : procs s2 = procs s).
  { pose proof (callSyscallWrapper_procs n h (args_object (attach_list block)) (procs s) s1) as Hk.
    rewrite E2 in Hk. apply Hk. injection E1 as <-. by injection Ea as _ <-. }
  injection E5 as E5 <-. rewrite Hp in E5. split_and!.
  - intros sp img c' Himg. destruct (attach_frame _ _ _ _ _ Himg) as (p & Hr & Hb).
    exists p. split; [done|]. rewrite Hb. injection E1 as <-. cbn [sys_vh set_sys_vh h_mem set_h_mem].
    apply (mem_read_write_same _ block (regs_bytes (attach_args pid vemva size syncnum mode))).
  - intros ->. apply failure_kept.
  - intros i Hi Hr Ha. rewrite Hi in E5. injection E5 as <-. rewrite SET_PROC_IDENT_word by done.
    split; [done|]. intros k t. unfold veo_shared_mem_detach.
    assert (Hv : veo_get_hmem_addr (hmem_word 1 i r) = r).
    { unfold veo_get_hmem_addr. rewrite veo_is_ve_addr_word by (unfold VEO_MAX_HMEM_PROCS in *; lia).
      apply VIRT_ADDR_VE_word; unfold VEO_MAX_HMEM_PROCS in *; lia. }
    assert (Hc : cast T_u64 (u64 r) = r).
    { rewrite cast_id by apply u64_range. apply u64_small. lia. }
    unfold veo_args_set_hmem. rewrite Hv.
    pose proof (build_all [ArgType T_u64 SYS_sysve; ArgType T_u64 VE_SYSVE_VESHM_CTL;
      ArgType T_u64 VESHM_DETACH; ArgType T_u64 (cast T_u64 (u64 r)); ArgType T_i64 (cast T_i64 mode)]
      t ltac:(cbn; lia)) as Ebd.
    rewrite (bind_Ret _ _ _ _ _ Ebd). by rewrite Hc.
Qed.

(** The calls the DMA functions make. *)
Lemma post_calls n h dst src size dhandle s :
  dhandle <> 0 ->
  veo_dma_post n h dst src size dhandle s =
    dma_call n h "ve_dma_post" (args_object (post_list dst src size dhandle)) s.
Proof.
  intros Hd. unfold veo_dma_post. destruct (Z.eqb_spec dhandle 0) as [|_]; [done|].
  apply bind_Ret. exact (build_all (post_list dst src size dhandle) s ltac:(cbn; lia)).
Qed.

Lemma poll_calls n h dhandle s :
  dhandle <> 0 ->
  veo_dma_poll n h dhandle s = dma_call n h "ve_dma_poll" (args_object (poll_list dhandle)) s.
Proof.
  intros Hd. unfold veo_dma_poll. destruct (Z.eqb_spec dhandle 0) as [|_]; [done|].
  apply bind_Ret. exact (build_all (poll_list dhandle) s ltac:(cbn; lia)).
Qed.


End LowLevelProperties.

(** ** Examples *)


Definition demo_literals : Literals := fun _ => 100.

Definition handle_heap : heap := mkHeap (fun x => x mod 256) 65536 ∅.

Definition post_image : list Z * CallArgs :=
  match getStackImage (h_mem handle_heap) (2 ^ 40) (args_object (post_list 4096 8192 64 512)) with
  | Ret r => r
  | _ => ([], new_CallArgs)
  end.



Definition demo_attach :=
  @veo_shared_mem_attach demo_urpc demo_indet demo_vh list_order demo_env demo_literals
    9 128 4711 (hmem_word 1 0 65536) 4096 0 VE_REGISTER_VEMVA demo_system.

Lemma demo_attach_result : demo_attach = (Ret (hmem_word 1 1 348), snd demo_attach).
Proof.
  assert (H : fst demo_attach = Ret (hmem_word 1 1 348)) by (vm_compute; reflexivity).
  rewrite <- H. by destruct demo_attach.
Qed.

Lemma attach_detach_roundtrip_witness :
  exists ca s1 s2 r,
    @callSyscallWrapper demo_urpc demo_indet demo_vh list_order demo_env demo_literals 9 128 ca s1 =
      (Ret r, s2) /\
    (0 <= r < 2 ^ 59 -> hmem_word 1 1 348 = hmem_word 1 1 r).
Proof.
  destruct (@attach_detach_roundtrip demo_urpc demo_indet demo_vh list_order demo_env demo_literals
    9 128 4711 (hmem_word 1 0 65536) 4096 0 VE_REGISTER_VEMVA demo_system (hmem_word 1 1 348)
    (snd demo_attach)) as (ca & s1 & s2 & r & H1 & _ & _ & H2).
  - vm_compute. discriminate.
  - exact demo_attach_result.
  - exists ca, s1, s2, r. split; [exact H1|]. intros Hr. apply H2; [reflexivity|vm_compute; split; [discriminate|reflexivity]|exact Hr].
Defined.
