(* ===== verification/VeMain.v ===== *)
(** * The VE main program

    Models [aveorun.c], the program that runs on the VE, and the handler loop of
    [veo_urpc_ve.c]: the signal handlers it installs, what it does when a signal
    arrives, and the loop that serves a connection until it is told to end.  The
    VE end of a connection is part of ve-urpc: the class [VePeer]. *)

From Stdlib Require Import ZArith Lia Bool.
From stdpp Require Import base gmap list numbers sets strings.
From S2P Require Import Prelude CallArgs Command Urpc Ve AsyncTransfer.

Open Scope Z_scope.

(** ** Signals *)

(** The constants of [signal.h]. *)
Definition SIGILL : Z := 4.
Definition SIGABRT : Z := 6.
Definition SIGBUS : Z := 7.
Definition SIGFPE : Z := 8.
Definition SIGSEGV : Z := 11.
Definition SIG_DFL : Z := 0.
Definition SIG_IGN : Z := 1.
Definition SIG_ERR : Z := 2 ^ 64 - 1.
Definition SA_SIGINFO : Z := 4.
Definition SA_RESTART : Z := 0x10000000.

(** [struct sigaction]; [sa_handler] and [sa_sigaction] share their place. *)
Record sigaction := mkSigaction {
  sa_handler : Z;
  sa_mask : gset Z;
  sa_flags : Z;
  sa_restorer : Z;
}.

(** The disposition of every signal. *)
Definition dispositions : Type := Z -> sigaction.

(** An entry of [signal_tbl]: the handler found at the start and whether it takes
    three arguments. *)
Record signal_entry := mkEntry { signum : Z; saved : Z; with_info : bool }.

Definition signal_tbl : list signal_entry :=
  [mkEntry SIGABRT SIG_DFL false; mkEntry SIGFPE SIG_DFL false; mkEntry SIGILL SIG_DFL false;
   mkEntry SIGSEGV SIG_DFL false; mkEntry SIGBUS SIG_DFL false].

(** The calls that can fail, with the code they return for a signal, and the
    address of [sigactionHandler]. *)
Inductive sigcall := S_get | S_empty | S_add | S_set.
Class Signals := {
  sig_err : sigcall -> Z -> Z;
  handler_addr : Z;
}.

(** What the program does when a signal arrives, in order. *)
Inductive action :=
  | A_sigaction (handler signum : Z)       (** the saved handler, three arguments *)
  | A_handler (handler signum : Z)         (** the saved handler, one argument *)
  | A_traceback                            (** the stack trace is printed *)
  | A_send (cmd : Z) (args : list uval)    (** a message to the VH *)
  | A_flag                                 (** [URPC_FLAG_EXCEPTION] is set *)
  | A_fini
  | A_exit (status : Z).

(** The body of the search: the handler and the flag of the first entry for the
    signal, when it holds a handler. *)
Fixpoint saved_handler (sig : Z) (t : list signal_entry) : Z * bool :=
  match t with
  | [] => (SIG_DFL, false)
  | e :: t =>
      if sig =? signum e then
        if negb (saved e =? SIG_DFL) then (saved e, with_info e) else (SIG_DFL, false)
      else saved_handler sig t
  end.

Definition sigactionHandler (t : list signal_entry) (sig : Z) : list action :=
  let '(handle, info) := saved_handler sig t in
  (if negb (handle =? SIG_DFL)
   then if info then [A_sigaction handle sig] else [A_handler handle sig]
   else [A_traceback]) ++
  [A_send URPC_CMD_EXCEPTION [VL sig]; A_flag; A_fini; A_exit sig].

Section Main.
Context `{SG : Signals}.

(** The body of the loop of [main]: [None] when a call fails. *)
Definition install_entry (e : signal_entry) (d : dispositions)
  : option (signal_entry * dispositions) :=
  let sig := signum e in
  if negb (sig_err S_get sig =? 0) then None
  else
    let act := d sig in
    let fresh := (sa_handler act =? SIG_DFL) || (sa_handler act =? SIG_IGN) ||
                 (sa_handler act =? SIG_ERR) in
    if fresh && (negb (sig_err S_empty sig =? 0) || negb (sig_err S_add sig =? 0)) then None
    else
      let act' := if fresh then mkSigaction (sa_handler act) {[sig]} (Z.lor SA_SIGINFO SA_RESTART) 0
                  else act in
      let e' := if fresh then e else mkEntry sig (sa_handler act) (with_info e) in
      let act' := mkSigaction handler_addr (sa_mask act') (sa_flags act') (sa_restorer act') in
      let e' := if negb (Z.land (sa_flags act') SA_SIGINFO =? 0)
                then mkEntry sig (saved e') true else e' in
      if negb (sig_err S_set sig =? 0) then None
      else Some (e', fun s => if s =? sig then act' else d s).

Fixpoint install (t : list signal_entry) (d : dispositions)
  : option (list signal_entry * dispositions) :=
  match t with
  | [] => Some ([], d)
  | e :: t =>
      match install_entry e d with
      | None => None
      | Some (e, d) =>
          match install t d with
          | None => None
          | Some (t, d) => Some (e :: t, d)
          end
      end
  end.
End Main.

(** ** The handler loop *)

(** The VE end of a connection. *)
Class VePeer `{MA : Machine} := {
  vpeer : Type;
  ve_urpc_init : Z -> option vpeer;
  ve_urpc_init_dma : vpeer -> Z -> vpeer;
  urpc_set_receiver_flags : vpeer -> Z -> vpeer;
  ve_urpc_recv_progress : vpeer -> nat -> ve -> vpeer * ve;
  ve_urpc_fini : vpeer -> vpeer;
}.

(** ** Results of earlier requests, for functions that run on the VE *)

(** The payloads of the replies sent, counted back from the last one, are kept by ve-urpc:
    [prev] stands for [ve_prev_sent_payload].  A reply starts with a number or is empty. *)
Definition veo_prev_req_result (prev : Z -> list uval) (offs result : Z) : Z * Z :=
  match prev offs with
  | VL v :: _ => (0, u64 v)
  | _ => (-1, result)
  end.

Section Loop.
Context `{IN : Indet} `{MA : Machine} `{VP : !VePeer} `{E : Env} `{SG : Signals}.

Definition set_finish (b : bool) (s : ve) : ve :=
  mkVe (ve_mem s) (ve_libc s) (curr_sp s) b (__num_ve_peers s).

Fixpoint serve (n : nat) (up : vpeer) (s : ve) : outcome (vpeer * ve) :=
  if __veo_finish s then Ret (up, s)
  else
    match n with
    | O => NoFuel
    | S n => let '(up, s) := ve_urpc_recv_progress up 3 s in serve n up s
    end.

Definition ve_handler_loop (n : nat) (up : vpeer) (core : Z) (s : ve) : outcome (vpeer * ve) :=
  let up := ve_urpc_init_dma up core in
  let up := urpc_set_receiver_flags up 1 in
  let s := set_finish false s in
  obind (serve n up s) (fun '(up, s) => Ret (ve_urpc_fini up, s)).

(** [main]: the exit status, with the table of handlers and the dispositions in
    force from then on.  What loading the two C++ libraries does is part of the
    state [s]. *)
Definition main (n : nat) (d : dispositions) (s : ve) : outcome (Z * option (list signal_entry * dispositions)) :=
  match install signal_tbl d with
  | None => Ret (1, None)
  | Some r =>
      match ve_urpc_init 0 with
      | None => Ret (1, Some r)
      | Some main_up =>
          let core := match getenv "URPC_VE_CORE" with Some e => atoi e | None => -1 end in
          obind (ve_handler_loop n main_up core s) (fun _ => Ret (0, Some r))
      end
  end.

Definition handle_all (l : list (Z * list uval)) (s : ve) : ve :=
  foldl (fun s m => snd (dispatch (fst m) (snd m) s)) s l.
End Loop.

(** What the loop relies on: the messages waiting are handled in order, at most
    as many as asked for, and one at least if there is one. *)
Class VePeerLaws `{IN : Indet} `{MA : Machine} (VP : VePeer) := {
  inbox : vpeer -> list (Z * list uval);
  init_dma_inbox : forall p c, inbox (ve_urpc_init_dma p c) = inbox p;
  flags_inbox : forall p f, inbox (urpc_set_receiver_flags p f) = inbox p;
  progress_inbox : forall p n s p' s', ve_urpc_recv_progress p n s = (p', s') ->
    exists k, (k <= n)%nat /\ (inbox p <> [] -> (1 <= n)%nat -> (1 <= k)%nat) /\
      inbox p' = drop k (inbox p) /\ s' = handle_all (take k (inbox p)) s;
}.

(** ** Signals: what happens *)

Section SignalLemmas.
Context `{SG : Signals}.

Definition has_handler (act : sigaction) : bool :=
  negb ((sa_handler act =? SIG_DFL) || (sa_handler act =? SIG_IGN) || (sa_handler act =? SIG_ERR)).
Definition wants_info (act : sigaction) : bool := negb (Z.land (sa_flags act) SA_SIGINFO =? 0).

(** What an entry and a disposition are after the installation, from the
    disposition before. *)
Definition entry_after (sig : Z) (act : sigaction) : signal_entry :=
  if has_handler act then mkEntry sig (sa_handler act) (wants_info act)
  else mkEntry sig SIG_DFL true.
Definition act_after (sig : Z) (act : sigaction) : sigaction :=
  if has_handler act then mkSigaction handler_addr (sa_mask act) (sa_flags act) (sa_restorer act)
  else mkSigaction handler_addr {[sig]} (Z.lor SA_SIGINFO SA_RESTART) 0.

Lemma install_entry_spec sig d :
  (forall c, sig_err c sig = 0) ->
  install_entry (mkEntry sig SIG_DFL false) d =
    Some (entry_after sig (d sig), fun s => if s =? sig then act_after sig (d sig) else d s).
Proof.
  intros He. unfold install_entry, entry_after, act_after, has_handler, wants_info. cbn [signum].
  rewrite !He. cbn [Z.eqb negb andb orb].
  destruct (_ || _) eqn:Eh; cbn [negb andb sa_flags sa_mask sa_restorer with_info saved]; [done|].
  by destruct (Z.land _ _ =? 0).
Qed.

Lemma install_spec l d :
  NoDup l -> (forall c sig, sig ∈ l -> sig_err c sig = 0) ->
  exists d', install ((fun sig => mkEntry sig SIG_DFL false) <$> l) d =
      Some ((fun sig => entry_after sig (d sig)) <$> l, d') /\
    (forall sig, sig ∈ l -> d' sig = act_after sig (d sig)) /\
    (forall sig, sig ∉ l -> d' sig = d sig).
Proof.
  revert d. induction l as [|sig l IH]; intros d Hnd He; [exists d; split_and!; set_solver|].
  apply NoDup_cons in Hnd as [Hn Hnd]. cbn [fmap list_fmap install].
  rewrite install_entry_spec by (intros c; apply He; set_solver).
  set (d1 := fun s => if s =? sig then act_after sig (d sig) else d s).
  assert (Hd1 : forall s, s <> sig -> d1 s = d s)
    by (intros s Hs; unfold d1; by destruct (Z.eqb_spec s sig)).
  destruct (IH d1 Hnd) as (d' & E & Hin & Hout); [intros c s Hs; apply He; set_solver|].
  cbn [fmap list_fmap] in E. change (list_fmap ?A ?B ?f ?x) with (f <$> x) in *. rewrite E.
  exists d'. split_and!.
  - do 3 f_equal. apply list_fmap_ext. intros i s Hs. rewrite Hd1; [done|].
    intros ->. by apply Hn, list_elem_of_lookup_2 with i.
  - intros s [->|Hs]%elem_of_cons.
    + rewrite Hout by done. unfold d1. by rewrite Z.eqb_refl.
    + rewrite Hin by done. rewrite Hd1; [done|]. by intros ->.
  - intros s [Hs Hl]%not_elem_of_cons. rewrite Hout by done. by apply Hd1.
Qed.

Lemma saved_handler_after sig l (d : dispositions) :
  sig ∈ l ->
  saved_handler sig ((fun s => entry_after s (d s)) <$> l) =
    if has_handler (d sig) then (sa_handler (d sig), wants_info (d sig)) else (SIG_DFL, false).
Proof.
  induction l as [|s l IH]; [set_solver|]. intros Hs. cbn [fmap list_fmap saved_handler].
  assert (Hsig : signum (entry_after s (d s)) = s)
    by (unfold entry_after; by destruct (has_handler (d s))).
  rewrite Hsig. destruct (Z.eqb_spec sig s) as [->|Hne]; [|apply IH; set_solver].
  unfold entry_after. destruct (has_handler (d s)) eqn:Eh; cbn [saved with_info]; [|done].
  unfold has_handler in Eh. by destruct (sa_handler (d s) =? SIG_DFL).
Qed.
End SignalLemmas.

(** ** The loop: when it ends *)

Section LoopLemmas.
Context `{IN : Indet} `{MA : Machine}.

Definition keeps_finish (h : handler) : Prop := forall vs s, __veo_finish (snd (h vs s)) = __veo_finish s.

Lemma call_keeps_finish cmd : keeps_finish (call_handler cmd).
Proof.
  intros vs s. unfold call_handler. cbv zeta.
  repeat match goal with
         | |- context [if ?b then _ else _] => destruct b
         | |- context [let '(_, _) := run ?a ?r ?p ?m in _] => destruct (run a r p m)
         end; done.
Qed.

Ltac keeps_finish_tac :=
  first
    [ apply call_keeps_finish
    | intros ? ?; unfold loadlib_handler, unloadlib_handler, alloc_handler, newpeer_handler;
      repeat match goal with
             | |- context [let '(_, _) := ?x in _] => destruct x
             | |- context [if ?b then _ else _] => destruct b
             end; done ].

(** Only the exit message ends the loop. *)
Lemma finish_dispatch cmd vs s :
  __veo_finish (snd (dispatch cmd vs s)) = __veo_finish s || (cmd =? URPC_CMD_EXIT).
Proof.
  assert (Hk : forall t, Forall (fun e => fst e <> URPC_CMD_EXIT -> keeps_finish (snd e)) t ->
    forall h, find_handler cmd t = Some h -> cmd <> URPC_CMD_EXIT -> keeps_finish h).
  { induction 1 as [|[c h0] t Hh _ IH]; cbn [find_handler]; [done|]. intros h.
    destruct (Z.eqb_spec cmd c) as [->|_]; [|apply IH]. intros [= <-]. exact Hh. }
  destruct (Z.eqb_spec cmd URPC_CMD_EXIT) as [->|Hne]; [by rewrite orb_true_r|].
  rewrite orb_false_r. unfold dispatch. destruct (find_handler _ _) as [h|] eqn:Ef; [|done].
  refine (Hk _ _ h Ef Hne vs s).
  repeat (apply List.Forall_cons; [cbn [fst snd]; intros He; (done || keeps_finish_tac)|]).
  apply List.Forall_nil.
Qed.

(** A reply is an acknowledgement, or it starts with a number. *)
Definition answers (h : handler) : Prop := forall vs s r,
  fst (h vs s) = Some r -> r = (URPC_CMD_ACK, []) \/ exists v pl, snd r = VL v :: pl.

Ltac answers_tac :=
  intros ? ? ?; unfold ping_handler, exit_handler, loadlib_handler, unloadlib_handler, getsym_handler, alloc_handler,
    free_handler, recvbuff_handler, sendbuff_handler, memcpy_handler, newpeer_handler, call_handler,
    access_pcircvsyc_register_handler; cbv zeta;
  repeat match goal with
         | |- context [let '(_, _) := ?x in _] => destruct x
         | |- context [if ?b then _ else _] => destruct b
         end; cbn [fst]; intros Hr; (discriminate Hr || (injection Hr as <-; ((by left) || (right; by do 2 eexists)))).

Lemma dispatch_answers cmd : answers (dispatch cmd).
Proof.
  assert (Hk : forall t, Forall (fun e => answers (snd e)) t -> forall h, find_handler cmd t = Some h -> answers h).
  { induction 1 as [|[c h0] t Hh _ IH]; cbn [find_handler]; [done|]. intros h.
    destruct (Z.eqb_spec cmd c); [|apply IH]. by intros [= <-]. }
  intros vs s r. unfold dispatch. destruct (find_handler _ _) as [h|] eqn:Ef; [|done].
  refine (Hk _ _ h Ef vs s r).
  repeat (apply List.Forall_cons; [cbn [snd]; answers_tac|]). apply List.Forall_nil.
Qed.

(** A function on the VE that asks for the result of an earlier request gets the number
    its handler has answered with; for one that was only acknowledged it gets the error
    code, and its variable is left alone. *)
Lemma prev_result_answered cmd vs s r s' prev offs old :
  dispatch cmd vs s = (Some r, s') -> prev offs = snd r ->
  (r = (URPC_CMD_ACK, []) /\ veo_prev_req_result prev offs old = (-1, old)) \/
  (exists v pl, snd r = VL v :: pl /\ veo_prev_req_result prev offs old = (0, u64 v)).
Proof.
  intros Hd Hp. unfold veo_prev_req_result. rewrite Hp.
  destruct (dispatch_answers cmd vs s r) as [->|(v & pl & ->)]; [by rewrite Hd|left|right]; eauto.
Qed.

Definition has_exit (l : list (Z * list uval)) : bool :=
  existsb (fun m => fst m =? URPC_CMD_EXIT) l.

Lemma finish_handle_all l s :
  __veo_finish (handle_all l s) = __veo_finish s || has_exit l.
Proof.
  revert s. induction l as [|m l IH]; intros s; cbn [handle_all foldl has_exit existsb];
    [by rewrite orb_false_r|].
  change (foldl _ ?x l) with (handle_all l x). rewrite IH, finish_dispatch. by rewrite orb_assoc.
Qed.

Lemma handle_all_app l1 l2 s : handle_all (l1 ++ l2) s = handle_all l2 (handle_all l1 s).
Proof. apply foldl_app. Qed.

Lemma has_exit_app l1 l2 : has_exit (l1 ++ l2) = has_exit l1 || has_exit l2.
Proof. apply existsb_app. Qed.

Context `{VP : !VePeer} `{PL : !VePeerLaws VP}.

(** Without an exit message among those waiting the loop goes on. *)
Lemma serve_goes_on n p s :
  __veo_finish s = false -> has_exit (inbox p) = false -> serve n p s = NoFuel.
Proof using PL.
  revert p s. induction n as [|n IH]; intros p s Hs Hp; cbn [serve]; rewrite Hs; [done|].
  destruct (ve_urpc_recv_progress p 3 s) as [p' s'] eqn:E.
  destruct (progress_inbox _ _ _ _ _ E) as (k & _ & _ & Ei & ->).
  rewrite <- (take_drop k (inbox p)), has_exit_app in Hp. apply orb_false_iff in Hp as [H1 H2].
  apply IH; [by rewrite finish_handle_all, Hs|by rewrite Ei].
Qed.

Lemma serve_ends n p s l1 vs l2 :
  __veo_finish s = false -> has_exit l1 = false -> inbox p = l1 ++ (URPC_CMD_EXIT, vs) :: l2 ->
  (length l1 < n)%nat ->
  exists p' k, (k <= 2)%nat /\ inbox p' = drop k l2 /\
    serve n p s = Ret (p', handle_all (l1 ++ (URPC_CMD_EXIT, vs) :: take k l2) s).
Proof using PL.
  revert p s l1. induction n as [|n IH]; intros p s l1 Hs H1 Hp Hn; [lia|].
  cbn [serve]. rewrite Hs. destruct (ve_urpc_recv_progress p 3 s) as [p1 s1] eqn:E.
  destruct (progress_inbox _ _ _ _ _ E) as (k & Hk & Hpos & Ei & ->).
  assert (1 <= k)%nat by (apply Hpos; [rewrite Hp; by destruct l1|lia]).
  destruct (decide (k <= length l1)%nat) as [Hl|Hl].
  - rewrite Hp in Ei |- *. rewrite drop_app_le in Ei by done. rewrite take_app_le by done.
    rewrite <- (take_drop k l1), has_exit_app in H1. apply orb_false_iff in H1 as [H1 H2].
    destruct (IH p1 (handle_all (take k l1) s) (drop k l1)) as (p' & j & Hj & Hin & Es);
      [by rewrite finish_handle_all, Hs|done|done|rewrite length_drop; lia|].
    exists p', j. split_and!; [done|done|]. rewrite Es, <- handle_all_app, app_assoc, take_drop. done.
  - exists p1, (k - S (length l1))%nat.
    assert (Hk' : k = (length l1 + S (k - S (length l1)))%nat) by lia.
    set (j := (k - S (length l1))%nat) in *. clearbody j. subst k. rewrite Hp in Ei |- *.
    rewrite drop_app_add' in Ei by done. rewrite take_app_add' by done. cbn [drop take] in *.
    split_and!; [lia|done|]. destruct n; cbn [serve];
      by rewrite finish_handle_all, has_exit_app, Hs, H1.
Qed.
End LoopLemmas.

(** ** Properties *)

Definition caught : list Z := [SIGABRT; SIGFPE; SIGILL; SIGSEGV; SIGBUS].

(** C19: what a signal does on the VE.  When no call fails, the installation puts
  [sigactionHandler] in charge of the five signals and leaves all others alone.
  When one of them arrives, the handler the process had before is called first,
  if it had one, with the arguments it was registered for (and these are valid,
  since the new handler is then registered for three arguments too), otherwise the
  stack trace is printed; then the VH is sent an exception message with the number
  of the signal, and the process ends with it as its status. *)
Theorem signals_reported `{SG : Signals} (d : dispositions) :
  (forall c sig, sig ∈ caught -> sig_err c sig = 0) ->
  exists t d', install signal_tbl d = Some (t, d') /\
    (forall sig, sig ∉ caught -> d' sig = d sig) /\
    forall sig, sig ∈ caught ->
      sa_handler (d' sig) = handler_addr /\
      (has_handler (d sig) = false -> sig ∈ sa_mask (d' sig)) /\
      (has_handler (d sig) = true -> sa_flags (d' sig) = sa_flags (d sig)) /\
      sigactionHandler t sig =
        (if has_handler (d sig)
         then if wants_info (d sig) then [A_sigaction (sa_handler (d sig)) sig]
              else [A_handler (sa_handler (d sig)) sig]
         else [A_traceback]) ++
        [A_send URPC_CMD_EXCEPTION [VL sig]; A_flag; A_fini; A_exit sig].
Proof.
  intros He. destruct (install_spec caught d) as (d' & E & Hin & Hout).
  - apply (bool_decide_unpack _). vm_compute. exact I.
  - exact He.
  - exists ((fun sig => entry_after sig (d sig)) <$> caught), d'. split_and!; [exact E|exact Hout|].
    intros sig Hs. rewrite (Hin sig Hs). unfold act_after, sigactionHandler.
    rewrite saved_handler_after by done.
    destruct (has_handler (d sig)) eqn:Eh; cbn [sa_handler sa_mask sa_flags].
    + split_and!; try done. unfold has_handler in Eh.
      by destruct (sa_handler (d sig) =? SIG_DFL).
    + split_and!; try done. set_solver.
Qed.

Section LoopProperties.
Context `{IN : Indet} `{MA : Machine} `{VP : !VePeer} `{PL : !VePeerLaws VP}.

End LoopProperties.

(** ** Examples *)

Definition demo_signals : Signals := {| sig_err := fun _ _ => 0; handler_addr := 4096 |}.

(** A process with a handler of three arguments for [SIGFPE] and one of one
    argument for [SIGSEGV]. *)
Definition demo_dispositions : dispositions := fun sig =>
  if sig =? SIGFPE then mkSigaction 8192 ∅ SA_SIGINFO 0
  else if sig =? SIGSEGV then mkSigaction 8448 ∅ 0 0
  else mkSigaction SIG_DFL ∅ 0 0.

Lemma signals_reported_witness :
  exists t d', @install demo_signals signal_tbl demo_dispositions = Some (t, d') /\
    sigactionHandler t SIGFPE = [A_sigaction 8192 SIGFPE; A_send URPC_CMD_EXCEPTION [VL SIGFPE];
                                 A_flag; A_fini; A_exit SIGFPE] /\
    sigactionHandler t SIGSEGV = [A_handler 8448 SIGSEGV; A_send URPC_CMD_EXCEPTION [VL SIGSEGV];
                                  A_flag; A_fini; A_exit SIGSEGV].
Proof.
  destruct (@signals_reported demo_signals demo_dispositions) as (t & d' & E & _ & H).
  - intros c sig _. reflexivity.
  - exists t, d'. split; [exact E|]. split.
    + apply (H SIGFPE). unfold caught. right. left.
    + apply (H SIGSEGV). unfold caught. do 3 right. left.
Defined.

(** A connection that hands over the messages in its list. *)
Definition demo_vpeer : @VePeer demo_machine := {|
  vpeer := list (Z * list uval);
  ve_urpc_init := fun _ => Some [];
  ve_urpc_init_dma := fun p _ => p;
  urpc_set_receiver_flags := fun p _ => p;
  ve_urpc_recv_progress := fun p n s => (drop n p, @handle_all 0 demo_machine (take n p) s);
  ve_urpc_fini := fun p => p;
|}.

Definition demo_vlaws : @VePeerLaws 0 demo_machine demo_vpeer.
Proof.
  refine (Build_VePeerLaws 0 demo_machine demo_vpeer (fun p : list (Z * list uval) => p) _ _ _);
    [done|done|].
  intros p n s p' s' [= <- <-]. exists n. by split_and!.
Defined.

