(* ===== verification/Cleanup.v ===== *)
(** * Ending the processes left over

    Models [_cleanup_procs] of [ProcHandle.cpp], which runs when the VH program
    ends and lets every VE process exit that the program has not destroyed: the
    loop erases entries of the table while it goes through it. *)

From Stdlib Require Import ZArith Lia Bool.
From stdpp Require Import base gmap list numbers sets strings.
From S2P Require Import Prelude Hmem CallArgs Command Urpc Ve Context Example Requests Progress.
From S2P Require Import AsyncTransfer Calls Lifecycle VeNode ProcHandle Processes Api.

Open Scope Z_scope.

Section Cleanup.
Context `{U : Urpc} `{IN : Indet} `{VF : !VhFuncs} `{BO : BucketOrder} `{UP : !UrpcPeers}.
Import Proc.

(** [__procs->erase(it)] *)
Definition erase (i : nat) (t : Table.table) : Table.table := (fun l => delete i l) <$> t.

(** The loop; [i] is the place of the iterator, which after [erase] refers to the
    element that has moved up. *)
Fixpoint cleanup_loop (k n i : nat) : M system unit :=
  match k with
  | O => stop NoFuel
  | S k =>
      let! t := gets procs in
      match default [] t !! i with
      | None => ret tt
      | Some p =>
          if negb (p =? 0) then
            veo_proc_destroy n p ;;;
            modify (fun s => set_procs (erase i (procs s)) s) ;;;
            cleanup_loop k n i
          else cleanup_loop k n (S i)
      end
  end.

(** Each round goes on to the next element or removes one. *)
Definition _cleanup_procs (n : nat) : M system unit :=
  let! t := gets procs in
  match t with
  | None => ret tt
  | Some l => cleanup_loop (S (length l)) n 0 ;;; modify (set_procs None)
  end.

(** What it is meant to do: one process after the other exits. *)
Fixpoint exit_all (n : nat) (l : list Z) : M system unit :=
  match l with
  | [] => ret tt
  | p :: l => (if p =? 0 then ret tt else veo_proc_destroy n p ;;; ret tt) ;;; exit_all n l
  end.

(** States that differ in the table only. *)
Definition same_but_table (s1 s2 : system) : Prop := set_procs None s1 = set_procs None s2.

#[local] Instance same_but_table_equiv : Equivalence same_but_table.
Proof.
  unfold same_but_table. split; [done| |].
  - intros s1 s2 H. by symmetry.
  - intros s1 s2 s3 H1 H2. by transitivity (set_procs None s2).
Qed.

Lemma same_set_procs t s : same_but_table (set_procs t s) s.
Proof. done. Qed.

(** Methods of a process do not look at the table. *)
Lemma on_proc_same {A} h (m : M ProcHandle A) s1 s2 :
  same_but_table s1 s2 ->
  fst (on_proc h m s1) = fst (on_proc h m s2) /\
  same_but_table (snd (on_proc h m s1)) (snd (on_proc h m s2)).
Proof.
  destruct s1 as [t1 hs1 vh1 sh1 ah1 fh1 e1], s2 as [t2 hs2 vh2 sh2 ah2 fh2 e2].
  unfold same_but_table, set_procs. cbn. intros [= -> -> -> -> -> ->].
  unfold on_proc. cbn [handles sys_vh]. destruct (hs2 !! h) as [p|]; [|done].
  by destruct (m (set_proc_vh vh2 p)).
Qed.

Lemma destroy_same n h s1 s2 :
  same_but_table s1 s2 ->
  fst (veo_proc_destroy n h s1) = fst (veo_proc_destroy n h s2) /\
  same_but_table (snd (veo_proc_destroy n h s1)) (snd (veo_proc_destroy n h s2)).
Proof.
  intros Hs. destruct (on_proc_same h (exitProc n) s1 s2 Hs) as [H1 H2].
  unfold veo_proc_destroy, bind.
  destruct (on_proc h (exitProc n) s1) as [o1 t1], (on_proc h (exitProc n) s2) as [o2 t2].
  cbn [fst snd] in H1, H2. subst o2. by destruct o1.
Qed.

Lemma exit_all_same n l s1 s2 :
  same_but_table s1 s2 ->
  fst (exit_all n l s1) = fst (exit_all n l s2) /\
  same_but_table (snd (exit_all n l s1)) (snd (exit_all n l s2)).
Proof.
  revert s1 s2. induction l as [|p l IH]; intros s1 s2 Hs; cbn [exit_all]; [done|].
  destruct (p =? 0); [by apply IH|]. destruct (destroy_same n p s1 s2 Hs) as [H1 H2].
  unfold bind.
  destruct (veo_proc_destroy n p s1) as [o1 t1], (veo_proc_destroy n p s2) as [o2 t2].
  cbn [fst snd] in H1, H2. subst o2. destruct o1; try done. by apply IH.
Qed.

(** [veo_proc_destroy] gives up the place of the process, here the first that is
    not free. *)
Lemma destroy_table n h i l s rc s' :
  procs s = Some (replicate i 0 ++ h :: l) -> h <> 0 ->
  veo_proc_destroy n h s = (Ret rc, s') -> procs s' = Some (replicate i 0 ++ 0 :: l).
Proof.
  intros Hp Hh E. unfold veo_proc_destroy in E.
  apply bind_inv_Ret in E as (r & s1 & E1 & E).
  apply bind_inv_Ret in E as ([] & s2 & [= <-] & [= _ <-]).
  assert (Hp1 : procs s1 = procs s).
  { unfold on_proc in E1. destruct (handles s !! h) as [p|]; [|done].
    destruct (exitProc n _) as [o p']. by injection E1 as _ <-. }
  cbn [procs set_procs]. rewrite Hp1, Hp. cbn [Table.unregister].
  assert (Hf : Table.find h (replicate i 0 ++ h :: l) = Some i).
  { clear -Hh. induction i as [|i IH]; cbn [replicate app Table.find]; [by rewrite Z.eqb_refl|].
    destruct (Z.eqb_spec 0 h); [congruence|]. by rewrite IH. }
  rewrite Hf. f_equal. rewrite insert_app_r_alt by (rewrite length_replicate; lia).
  by rewrite length_replicate, Nat.sub_diag.
Qed.

Lemma cleanup_loop_exits k n i l s :
  procs s = Some (replicate i 0 ++ l) -> (length l < k)%nat ->
  fst (cleanup_loop k n i s) = fst (exit_all n l s) /\
  same_but_table (snd (cleanup_loop k n i s)) (snd (exit_all n l s)).
Proof.
  revert i l s. induction k as [|k IH]; intros i l s Hp Hk; [lia|].
  cbn [cleanup_loop]. rewrite (bind_Ret _ _ s (procs s) s) by done. rewrite Hp. cbn [from_option id].
  rewrite lookup_app_r by (rewrite length_replicate; lia).
  rewrite length_replicate, Nat.sub_diag. destruct l as [|h l]; cbn [lookup list_lookup exit_all]; [done|].
  cbn [length] in Hk. destruct (Z.eqb_spec h 0) as [->|Hh]; cbn [negb].
  - apply (IH (S i) l); [|lia]. rewrite Hp. f_equal. by rewrite replicate_S_end, <- app_assoc.
  - unfold bind. destruct (veo_proc_destroy n h s) as [o s1] eqn:Ed. destruct o as [rc|e| | | |]; try done.
    set (s2 := set_procs (erase i (procs s1)) s1).
    assert (Hp2 : procs s2 = Some (replicate i 0 ++ l)).
    { unfold s2. cbn [procs set_procs]. rewrite (destroy_table n h i l s rc s1 Hp Hh Ed).
      cbn [erase fmap option_fmap option_map]. f_equal.
      pose proof (delete_middle (replicate i 0) l 0) as Hd. by rewrite length_replicate in Hd. }
    destruct (IH i l s2 Hp2) as [H1 H2]; [lia|].
    destruct (exit_all_same n l s2 s1 (same_set_procs _ s1)) as [H3 H4].
    split; [exact (eq_trans H1 H3)|]. transitivity (snd (exit_all n l s2)); [exact H2|exact H4].
Qed.

(** C31: every process left over exits, once.  Although the loop erases elements of
  the table it goes through, it ends, and it does what letting every process
  registered exit, one after the other in the order of the table, does: it has
  the same outcome, and leaves the same processes, contexts and memory behind;
  when it returns, the table is gone. *)
Theorem cleanup_exits_all n s :
  let l := default [] (procs s) in
  fst (_cleanup_procs n s) = fst (exit_all n l s) /\
  same_but_table (snd (_cleanup_procs n s)) (snd (exit_all n l s)) /\
  (fst (_cleanup_procs n s) = Ret tt -> procs (snd (_cleanup_procs n s)) = None).
Proof.
  unfold _cleanup_procs. rewrite (bind_Ret _ _ s (procs s) s) by done.
  destruct (procs s) as [l|] eqn:Hp; cbn [from_option id]; [|done].
  destruct (cleanup_loop_exits (S (length l)) n 0 l s) as [H1 H2]; [done|lia|].
  unfold bind. destruct (cleanup_loop (S (length l)) n 0 s) as [o s1]. cbn [fst snd] in *.
  destruct o as [[]|e| | | |]; split_and!; done.
Qed.
End Cleanup.
